(* ===== verification/_CoqProject ===== *)
-Q . S2P
Prelude.v
Python.v
PyInt.v
Slice.v
Collective.v
InputModels.v
Topology.v
Ranges.v
Versions.v
LedgerInvariant.v
LedgerOps.v
VersionMemory.v
VersionSchedule.v
Segments.v
VersionReplay.v
Atom.v
AtomLaws.v
PayloadState.v
PayloadLaws.v
PayloadRuns.v
Checker.v
CheckResult.v
StateReplay.v
StateReplaySound.v
XmlModel.v
Endpoints.v
EndpointLaws.v
Threadblocks.v
Deadlock.v
DeadlockSound.v
Capacity.v
CapacityLaws.v
Floats.v
Aliases.v
Liveness.v
LivenessLaws.v
Dependencies.v
DependencyLaws.v
DeadlockFree.v
ListScheduler.v
Compatibility.v
ListSchedulerLaws.v
SchedulerSound.v
Lower.v
Xml.v
Emitter.v
Parser.v
EmitLaws.v
EmitValid.v
LowerEmit.v
V5Model.v
V5Buffers.v
V5Program.v
V5Order.v
Mpq.v
Performance.v
Prediction.v
PredictionRates.v
PredictionReplay.v
PredictionRounds.v
PredictionSound.v
V5Lower.v
V5Sidecar.v
V5Executable.v
V5Evaluate.v
V5Exec.v
V5ExecLaws.v
NativeExec.v
ExecutionDeps.v
V5Bindings.v
NativeSim.v
V5Planning.v
V5Outputs.v
V5StorageOrder.v
V5Allocation.v
V5PlanSound.v
NativeSound.v
V5Admission.v
V5Reload.v
RouteTrees.v
