(* ===== verification/Prelude.v ===== *)
(** * A verification library for VeriCCL

    VeriCCL synthesizes collective communication programs: it searches for a
    schedule of transfers between the ranks of a machine, turns it into a
    program of threadblocks for a runtime in the style of MSCCL, and checks the
    program before it may run.  This library models the part of it that decides
    correctness, namely the semantics, the checks and the two lowering
    pipelines, as executable functions translated from [src/vericcl], and proves
    what their acceptance means for an execution.

    ** The program and its parts

    A request names a collective ([semantics/collective.py]), its sizes and a
    topology.  Searching code proposes schedules; none of it is trusted, because
    every result passes through the code modelled here:

    - semantics ([src/vericcl/semantics], [src/vericcl/verification/semantics.py]):
      what a schedule of transfers computes.  A _version ledger_ replays timed
      operations on byte regions; a _payload ledger_ replays atoms and
      transfers;
    - the first lowering ([src/vericcl/xml], without the prefix [v5_]): schedule
      and buffer plan, liveness check, endpoints, transfer graph, list
      scheduler, threadblocks, deadlock simulation, XML text and its validation;
    - the native lowering ([src/vericcl/xml/v5_*.py]): network candidate, storage
      plan, native program, and the admission checks that tie them together in
      a bundle, which may be stored and read back;
    - the limits of the runtime ([xml/capacity.py], [xml/granularity.py]);
    - the prediction of times ([src/vericcl/performance]): cost models, and the
      exact replay of a program's work on one.

    A bundle is the meeting point: [lower_and_check] plans and lowers a
    candidate, checks its bindings and its launch, predicts it, and replays its
    plan on the version ledger at the predicted times; [can_execute] is what
    the rest of the program asks of it.

    ** Files

    Foundations.
    - [Prelude]: errors ([errors.py]), the error monad [res], its loops, lemmas
      on lists, the tactics [inv_res], [bool_prop], [terminates] and the hint
      database [terminates];
    - [Python]: dynamically typed values, orders and sorting ([PyOrd],
      [sorted_by]), bisection, dictionaries in insertion order, [divmod];
      [PyInt]: integers as text and names joined from parts;
      [Floats]: doubles as ticks;
    - [Slice], [Collective], [InputModels], [Topology]: [semantics/slice.py],
      [semantics/collective.py], [input/models.py], [topology/model.py].

    Versions.
    - [Ranges]: [semantics/ranges.py]; [Versions]: [semantics/versions.py]
      ([VersionLedger] with one definition per method);
    - [LedgerInvariant], [LedgerOps]: the invariant [ledger_wf] of the ledger and
      its operations; [VersionMemory]: the simulation by physical memory;
    - [VersionSchedule]: [semantics/version_schedule.py]; [Segments],
      [VersionReplay]: tilings, output segments, the replay.

    Payloads.
    - [Atom], [AtomLaws]: [semantics/atom.py]; [PayloadState], [PayloadLaws],
      [PayloadRuns]: [semantics/state.py]; [Checker]: [semantics/checker.py];
    - [StateReplay], [StateReplaySound]: [verification/semantics.py];
      [CheckResult]: [verification/model.py].

    First lowering.
    - [XmlModel]: [xml/model.py]; [Endpoints], [EndpointLaws]:
      [xml/endpoints.py]; [Threadblocks]: [xml/threadblocks.py];
    - [Deadlock], [DeadlockSound]: [xml/deadlock.py];
      [DeadlockFree]: programs that can be numbered;
    - [Capacity], [CapacityLaws]: [xml/capacity.py], [xml/granularity.py];
    - [Aliases], [Liveness], [LivenessLaws]: [xml/liveness.py];
    - [Dependencies], [DependencyLaws]: [xml/dependencies.py];
    - [ListScheduler], [ListSchedulerLaws], [SchedulerSound]:
      [xml/list_scheduler.py]; [Compatibility]: [xml/compatibility.py];
    - [Lower]: [xml/lower.py]; [Xml], [Emitter], [Parser],
      [EmitLaws], [EmitValid], [LowerEmit]: [xml/emitter.py],
      [xml/parser.py].

    Native lowering.
    - [V5Model]: [xml/v5_model.py]; [V5Buffers]: [xml/v5_buffers.py]; [V5Program]:
      [xml/v5_program.py]; [V5Lower]: [xml/v5_lower.py];
    - [V5Order]: the two topological sorts and the reachability masks;
    - [V5Exec], [V5ExecLaws]: what a storage plan promises, as a step relation on
      endpoints ([plan_step]), the conditions [plan_ok] and an interpreter;
    - [V5Planning], [V5Outputs], [V5StorageOrder], [V5Allocation], [V5PlanSound]:
      the phases of [build_storage_plan] and its soundness;
    - [NativeExec]: the runtime of a native program, as a step relation on
      threadblocks, memory and bounded queues ([native_step]);
    - [ExecutionDeps], [V5Bindings]: what the admission checks establish;
      [NativeSim], [NativeSound]: the simulation, progress, and the composition
      with [V5PlanSound];
    - [V5Executable]: [build_executable]; [V5Sidecar]: the documents of plans,
      programs and version schedules, and their reading; [V5Evaluate]:
      [evaluate_program], [lower_and_check] and [check_xml_bundle];
      [V5Admission]: what an executable bundle guarantees; [V5Reload]: stored
      bundles.

    Performance.
    - [Mpq]: the rational numbers of [gmpy2], as an interface ([MpqLibrary])
      with its laws ([MpqLaws]) and an instance, and their rounding to doubles;
    - [Performance]: [performance/model.py], [performance/profiles.py],
      [performance/events.py]; [Prediction]: [performance/simulation.py];
    - [PredictionRates]: rates within the capacity of the resources;
      [PredictionReplay], [PredictionRounds]: the invariant of the replay, which
      operations cannot be priced, and the rounds; [PredictionSound]: the
      timeline that a prediction reports.

    ** What the theorems show

    - A schedule that [replay_version_schedule] accepts, run on physical memory,
      leaves exactly the required contributions in every byte of every required
      output ([VersionReplay]); the ledger it replays on never lets two valid
      versions overlap, keeps scratch within its budget, and mutates nothing
      when it fails ([LedgerOps], [VersionMemory]).  The table of output slots,
      the byte segments and the interval check are the collective itself
      ([Collective], [Segments]).
    - A schedule that [_state_result] accepts performs every transfer once, in an
      order that respects predecessors, with linear partial sums
      ([StateReplaySound], [PayloadRuns]); orders and final checks are exact
      ([StateReplaySound], [Checker]); constructed atoms travel contiguous routes
      ([AtomLaws]).
    - A buffer plan that passes the liveness check never has two live values at
      one address ([LivenessLaws]); lowering keeps every edge of the transfer
      graph under every interleaving, ends, never deadlocks, and what it emits
      passes its own validation ([Lower], [LowerEmit]); the deadlock
      simulation is exact for all interleavings ([DeadlockSound]).
    - Every execution of a storage plan that [build_storage_plan] returns leaves
      the collective in the output buffers ([V5PlanSound]); a native program
      that passes [_validate_bindings] and the capacity check refines its plan
      under every interleaving, runs to completion for any queue capacity, and
      so computes the collective ([NativeSound]); every bundle that
      [can_execute] accepts carries such a program ([V5Admission]), and its
      sidecar leads back to the same bundle ([V5Reload]).
    - A prediction rounds an exact execution of the cost model, and [predict]
      always ends ([PredictionSound]); in an executable bundle that execution
      keeps every dependency of the storage plan ([V5Admission]).
    - The capacity report, the granularity check, the admission of transfers, the
      binding and renumbering of constraints, the union-find of addresses, the
      reachability masks and the priority order decide exactly what they are
      meant to ([CapacityLaws], [Ranges], [Aliases], [V5Order]).

    ** Modelling decisions

    - Calls return [res A]: [Ok] or [Err] with the exception and its message.
      An exception leaves no new state, except where the code mutates before it
      raises; there the order of the mutations is kept.
    - Mutable objects are records threaded through the calls; a loop is [foldM],
      [foldl] or a [Fixpoint] with fuel.  The fuel of a loop is the length of
      its work list plus one (the number of nodes, entries or bytes that the
      loop consumes one at a time), [OutOfFuel] is an error of its own that no
      code path raises, and the termination theorems show that it never comes
      out.
    - Dictionaries are association lists where insertion order or order of
      iteration matters, and [gmap] elsewhere; sets are [gset], iterated in the
      order of [elements]; heaps are lists from which the least element is
      taken.
    - Fields with a declared type have that type; an argument that the code
      tests with [isinstance] is a [pyval].
    - Times are doubles, given as ticks of [2^-1074]; arithmetic rounds to the
      nearest double, ties to even ([Floats]); NaN does not occur in them.
      Exact times are rational numbers ([Mpq]); [predict] is its exact mode,
      which every caller uses, and its loop has fuel for six rounds for each
      operation and two.
    - The lease of a search budget and its [BudgetExhausted] are absent: they
      bound time and change no result.
    - Code outside of the sources is a class: the rational numbers
      ([MpqLibrary]), the XML library ([XmlLibrary], [XmlDocuments]) and digests
      ([Digest]); the laws used of them ([MpqLaws], [XmlRoundTrip]) have
      instances.  The digest of a topology and the parser of ISO timestamps are
      parameters.
    - A sidecar is a document in its JSON form ([V5Sidecar]).
    - A record keeps the fields that the modelled code reads.  Integers have no
      bound, as in the language; limits of [int()] on digits and non-ASCII
      digits are ignored.
    - The execution models [plan_step], [exec_step] and [native_step] describe
      the runtime, which is not part of the sources modelled; an endpoint is one
      atomic step, and a queue delivers in order.

    ** Not modelled

    The searches (planner, solver, composer, tuning), whose results the modelled
    checks validate, and the conversion of their candidates to network
    operations; the initial cost model of a request and the JSON form of cost
    models; the discrete-event simulation and bottleneck reports of schedules;
    reading of requests and topologies from JSON; hashing, artifacts, processes,
    locks, remote machines and measurement; the construction of buffer plans
    ([xml/buffers.py]), whose results pass the liveness check. *)

From Stdlib Require Export ZArith Lia.
From stdpp Require Export base gmap strings list fin_maps sorting pretty.

#[global] Set Default Goal Selector "!".
Local Open Scope Z_scope.

(** ** Errors *)

(** The exceptions the modelled code raises, with their messages
    ([vericcl/errors.py] and the built-in ones the code lets escape). *)
Inductive exn : Type :=
  | SemanticError (msg : string)
  | ValueError (msg : string)
  | TypeError (msg : string)
  | KeyError (msg : string)
  | IndexError (msg : string)
  | OverflowError (msg : string)
  | AttributeError (msg : string)
  | InputValidationError (msg : string)
  | ZeroDivisionError (msg : string)
  | OutOfFuel.

#[export] Instance exn_eq_dec : EqDecision exn.
Proof. solve_decision. Defined.

(** A call either returns a value or raises. *)
Inductive res (A : Type) : Type :=
  | Ok (a : A)
  | Err (e : exn).
Arguments Ok {A} a.
Arguments Err {A} e.

#[export] Instance res_ret : MRet res := @Ok.
#[export] Instance res_bind : MBind res := λ A B f m,
  match m with Ok a => f a | Err e => Err e end.
#[export] Instance res_fmap : FMap res := λ A B f m,
  match m with Ok a => Ok (f a) | Err e => Err e end.

#[export] Instance res_eq_dec {A} `{EqDecision A} : EqDecision (res A).
Proof. solve_decision. Defined.

Definition is_ok {A} (m : res A) : bool :=
  match m with Ok _ => true | Err _ => false end.

(** [if b: raise e] *)
Definition raise_when (b : bool) (e : exn) : res unit :=
  if b then Err e else Ok tt.

(** [d[k]] on a dictionary that may lack the key, and similar lookups. *)
Definition of_option {A} (o : option A) (e : exn) : res A :=
  match o with Some a => Ok a | None => Err e end.

(** [for x in l: body], where the body threads a state or only checks. *)
Fixpoint foldM {S A} (f : S → A → res S) (s : S) (l : list A) : res S :=
  match l with
  | [] => Ok s
  | x :: l => s' ← f s x; foldM f s' l
  end.

Fixpoint iterM {A} (f : A → res unit) (l : list A) : res unit :=
  match l with
  | [] => Ok tt
  | x :: l => f x;; iterM f l
  end.

Fixpoint mapR {A B} (f : A → res B) (l : list A) : res (list B) :=
  match l with
  | [] => Ok []
  | x :: l => y ← f x; ys ← mapR f l; Ok (y :: ys)
  end.

Lemma bind_Ok {A B} (m : res A) (f : A → res B) b :
  m ≫= f = Ok b ↔ ∃ a, m = Ok a ∧ f a = Ok b.
Proof.
  destruct m as [a|e]; simpl; split.
  - intros H. by exists a.
  - by intros (? & [= <-] & H).
  - done.
  - by intros (? & ? & ?).
Qed.

Lemma raise_when_Ok b e u : raise_when b e = Ok u ↔ b = false.
Proof. by destruct b, u. Qed.

Lemma raise_when_Err b e e' : raise_when b e = Err e' ↔ b = true ∧ e' = e.
Proof. destruct b; simpl; naive_solver. Qed.

Lemma of_option_Ok {A} (o : option A) e a : of_option o e = Ok a ↔ o = Some a.
Proof. destruct o; simpl; naive_solver. Qed.

Section res_lemmas.
Context {A B : Type}.

Lemma iterM_Ok (f : A → res unit) l u :
  iterM f l = Ok u ↔ Forall (λ x, f x = Ok tt) l.
Proof.
  destruct u. induction l as [|x l IH]; simpl; [by split; [constructor|]|].
  rewrite bind_Ok, Forall_cons. split.
  - intros ([] & ? & ?). by rewrite <- IH.
  - intros [??]. exists tt. by rewrite IH.
Qed.

Lemma foldM_app (f : B → A → res B) s l1 l2 :
  foldM f s (l1 ++ l2) = (s' ← foldM f s l1; foldM f s' l2).
Proof.
  revert s. induction l1 as [|x l1 IH]; intros s; simpl; [done|].
  destruct (f s x); simpl; [apply IH | done].
Qed.

(** Rule of induction for a loop that threads a state: an invariant
    over the prefix already consumed. *)
Lemma foldM_ind (I : list A → B → Prop) (f : B → A → res B) l s s' :
  I [] s →
  (∀ done x b b', I done b → x ∈ l → f b x = Ok b' → I (done ++ [x]) b') →
  foldM f s l = Ok s' → I l s'.
Proof.
  intros H0 Hstep. cut (∀ don b, I don b → ∀ l', (∀ x, x ∈ l' → x ∈ l) →
    foldM f b l' = Ok s' → I (don ++ l') s').
  { intros Hc Hf. eapply (Hc [] s); eauto. }
  intros don b HI l'. revert don b HI.
  induction l' as [|x l' IH]; intros don b HI Hin Hf; simpl in Hf.
  - injection Hf as <-. by rewrite app_nil_r.
  - apply bind_Ok in Hf as (b' & Hb' & Hf).
    replace (don ++ x :: l') with ((don ++ [x]) ++ l')
      by (by rewrite <- app_assoc).
    eapply IH; [eapply Hstep; eauto; apply Hin; left | | done].
    intros y Hy. apply Hin. by right.
Qed.

Lemma mapR_Ok (f : A → res B) l k :
  mapR f l = Ok k ↔ Forall2 (λ x y, f x = Ok y) l k.
Proof.
  revert k. induction l as [|x l IH]; intros k; simpl.
  - split; [intros [= <-]; constructor | inversion 1; done].
  - rewrite bind_Ok. split.
    + intros (y & Hy & H). apply bind_Ok in H as (ys & Hys & [= <-]).
      constructor; [done | by apply IH].
    + inversion 1 as [|? y ? ys Hy Hys]; subst. exists y. split; [done|].
      apply IH in Hys. by rewrite Hys.
Qed.
End res_lemmas.

Lemma list_filter_none {A} (P : A → Prop) `{∀ x, Decision (P x)} (l : list A) :
  (∀ x, x ∈ l → ¬ P x) → filter P l = [].
Proof.
  induction l as [|x l IH]; intros Hl; [done|].
  rewrite filter_cons_False by (apply Hl; by left). apply IH. intros y Hy. apply Hl. by right.
Qed.

Lemma list_filter_all {A} (P : A → Prop) `{∀ x, Decision (P x)} (l : list A) :
  Forall P l → filter P l = l.
Proof. induction 1; [done|]. rewrite filter_cons_True by done. by f_equal. Qed.

Lemma existsb_none {A} (f : A → bool) (l : list A) :
  existsb f l = false ↔ ∀ x, x ∈ l → f x = false.
Proof.
  induction l as [|x l IH]; simpl; [by split; [intros _ ? ?%elem_of_nil|]|].
  rewrite orb_false_iff, IH. setoid_rewrite elem_of_cons. naive_solver.
Qed.

(** Two elements with the same key are the same, when keys are unique. *)
Lemma NoDup_fmap_elem {A B} (f : A → B) (l : list A) x y :
  NoDup (f <$> l) → x ∈ l → y ∈ l → f x = f y → x = y.
Proof.
  intros Hnd [i Hi]%list_elem_of_lookup [j Hj]%list_elem_of_lookup E.
  assert (i = j) as <-; [|congruence].
  eapply NoDup_lookup; [exact Hnd| |]; rewrite list_lookup_fmap;
    [by rewrite Hi|rewrite Hj; simpl; by rewrite E].
Qed.

Lemma elem_of_concat {A} (ls : list (list A)) x : x ∈ concat ls ↔ ∃ l, l ∈ ls ∧ x ∈ l.
Proof.
  rewrite list_elem_of_In, in_concat. by setoid_rewrite list_elem_of_In.
Qed.

Lemma Forall2_elem_l {A B} (P : A → B → Prop) l k x :
  Forall2 P l k → x ∈ l → ∃ y, y ∈ k ∧ P x y.
Proof.
  intros HP [i Hi]%list_elem_of_lookup. destruct (Forall2_lookup_l _ _ _ _ _ HP Hi) as (y & ? & ?).
  exists y. split; [by eapply list_elem_of_lookup_2|done].
Qed.

Lemma Forall2_elem_r {A B} (P : A → B → Prop) l k y :
  Forall2 P l k → y ∈ k → ∃ x, x ∈ l ∧ P x y.
Proof. intros HP Hy. apply Forall2_flip in HP. exact (Forall2_elem_l (flip P) k l y HP Hy). Qed.

Lemma size_list_to_set_le {A : Type} `{Countable A} (l : list A) :
  (size (list_to_set l : gset A) ≤ length l)%nat.
Proof.
  induction l as [|x l IH]; simpl; [done|].
  pose proof (size_union_alt ({[x]} : gset A) (list_to_set l)) as Hsz. rewrite Hsz, size_singleton.
  assert (size ((list_to_set l : gset A) ∖ {[x]}) ≤ size (list_to_set l : gset A))%nat
    by (apply subseteq_size; set_solver). lia.
Qed.

(** [len(set(l)) == len(l)] *)
Lemma NoDup_of_size {A : Type} `{Countable A} (l : list A) :
  length l = size (list_to_set l : gset A) → NoDup l.
Proof.
  induction l as [|x l IH]; simpl; intros Hl; [constructor|].
  pose proof (size_list_to_set_le l) as Hle.
  destruct (decide (x ∈ (list_to_set l : gset A))) as [Hx|Hx].
  - assert (({[x]} ∪ list_to_set l : gset A) = list_to_set l) as E by set_solver.
    rewrite E in Hl. lia.
  - rewrite size_union, size_singleton in Hl by set_solver.
    constructor; [by rewrite elem_of_list_to_set in Hx|apply IH; lia].
Qed.

(** The last step of a nonempty path. *)
Lemma tc_inv_r {A} (R : relation A) a b : tc R a b → R a b ∨ ∃ p, tc R a p ∧ R p b.
Proof. revert b. apply tc_ind_r; eauto. Qed.

(** ** Loops that end

    [OutOfFuel] stands for a loop that the model cut off; a computation that
    cannot return it ends for the reasons the code ends. *)
Definition terminates {A} (m : res A) : Prop := m ≠ Err OutOfFuel.

Create HintDb terminates.

Lemma terminates_Ok {A} (a : A) : terminates (Ok a).
Proof. done. Qed.

Lemma terminates_Err {A} (e : exn) : e ≠ OutOfFuel → terminates (Err e : res A).
Proof. unfold terminates. congruence. Qed.

Lemma terminates_bind {A B} (m : res A) (f : A → res B) :
  terminates m → (∀ a, m = Ok a → terminates (f a)) → terminates (m ≫= f).
Proof. unfold terminates. destruct m; simpl; intros H1 H2; [by apply H2|congruence]. Qed.

Lemma terminates_raise_when b e : e ≠ OutOfFuel → terminates (raise_when b e).
Proof. intros He. destruct b; [by apply terminates_Err|done]. Qed.

Lemma terminates_of_option {A} (o : option A) e : e ≠ OutOfFuel → terminates (of_option o e).
Proof. intros He. destruct o; [done|by apply terminates_Err]. Qed.

Lemma terminates_iterM {A} (f : A → res unit) l :
  (∀ x, terminates (f x)) → terminates (iterM f l).
Proof. intros Hf. induction l; simpl; [done|]. by apply terminates_bind. Qed.

Lemma terminates_mapR {A B} (f : A → res B) l :
  (∀ x, terminates (f x)) → terminates (mapR f l).
Proof.
  intros Hf. induction l; simpl; [done|]. apply terminates_bind; [done|].
  intros. by apply terminates_bind.
Qed.

Lemma terminates_foldM {A S} (f : S → A → res S) s l :
  (∀ s x, terminates (f s x)) → terminates (foldM f s l).
Proof. intros Hf. revert s. induction l; intros s; simpl; [done|]. by apply terminates_bind. Qed.

(** With an invariant of the threaded state. *)
Lemma terminates_foldM_inv {A S} (I : S → Prop) (f : S → A → res S) s l :
  I s → (∀ s x, x ∈ l → I s → terminates (f s x) ∧ ∀ s', f s x = Ok s' → I s') →
  terminates (foldM f s l).
Proof.
  intros Hs Hf. revert s Hs. induction l as [|x l IH]; intros s Hs; simpl; [done|].
  destruct (Hf s x) as [Ht Hi]; [by left|done|]. apply terminates_bind; [done|].
  intros s' E. apply IH; [|by apply Hi]. intros t y Hy. apply Hf. by right.
Qed.

#[export] Hint Resolve terminates_Ok terminates_Err terminates_bind terminates_raise_when
  terminates_of_option terminates_iterM terminates_mapR terminates_foldM : terminates.

(** Walks through the structure of a computation. *)
Ltac terminates_step :=
  match goal with
  | |- terminates (_ ≫= _) => apply terminates_bind; [|intros]
  | |- terminates (mbind _ _) => apply terminates_bind; [|intros]
  | |- terminates (if ?b then _ else _) => destruct b
  | |- terminates (match ?x with _ => _ end) => destruct x
  | |- terminates (foldM _ _ _) => apply terminates_foldM; intros
  | |- terminates (iterM _ _) => apply terminates_iterM; intros
  | |- terminates (mapR _ _) => apply terminates_mapR; intros
  | |- terminates (raise_when _ _) => by apply terminates_raise_when
  | |- terminates (of_option _ _) => by apply terminates_of_option
  | |- terminates (Ok _) => exact (terminates_Ok _)
  | |- terminates (Err _) => by apply terminates_Err
  | |- terminates _ => solve [auto with terminates]
  end.
Ltac terminates := repeat (cbv zeta; terminates_step).

(** Destructs hypotheses saying that a monadic computation returned. *)
Ltac inv_res :=
  repeat match goal with
  | H : mbind _ _ = Ok _ |- _ =>
      apply bind_Ok in H; destruct H as (? & ? & ?)
  | H : (_ ≫= _) = Ok _ |- _ =>
      apply bind_Ok in H; destruct H as (? & ? & ?)
  | H : raise_when _ _ = Ok _ |- _ => apply raise_when_Ok in H
  | H : of_option _ _ = Ok _ |- _ => apply of_option_Ok in H
  | H : Ok _ = Ok _ |- _ => injection H as H
  | H : mret _ = Ok _ |- _ => injection H as H
  | H : Err _ = Ok _ |- _ => discriminate H
  | x : unit |- _ => destruct x
  end.

(** Turns boolean guards into propositions. *)
Ltac bool_prop :=
  repeat match goal with
  | H : _ && _ = true |- _ => apply andb_true_iff in H; destruct H
  | H : _ || _ = false |- _ => apply orb_false_iff in H; destruct H
  | H : _ || _ = true |- _ => apply orb_true_iff in H
  | H : _ && _ = false |- _ => apply andb_false_iff in H
  | H : negb _ = true |- _ => apply negb_true_iff in H
  | H : negb _ = false |- _ => apply negb_false_iff in H
  | H : bool_decide _ = true |- _ => apply bool_decide_eq_true in H
  | H : bool_decide _ = false |- _ => apply bool_decide_eq_false in H
  | H : (_ <? _) = true |- _ => apply Z.ltb_lt in H
  | H : (_ <? _) = false |- _ => apply Z.ltb_ge in H
  | H : (_ <=? _) = true |- _ => apply Z.leb_le in H
  | H : (_ <=? _) = false |- _ => apply Z.leb_gt in H
  | H : (_ =? _) = true |- _ => apply Z.eqb_eq in H
  | H : (_ =? _) = false |- _ => apply Z.eqb_neq in H
  end.

(** Opens every existential, conjunction and equality of pairs. *)
Ltac dest_all :=
  repeat match goal with
  | H : ∃ _, _ |- _ => destruct H
  | H : _ ∧ _ |- _ => destruct H
  | H : (_, _) = (_, _) |- _ => injection H; clear H; intros; subst
  | H : Some _ = Some _ |- _ => injection H; clear H; intros; subst
  end.
