(* ===== verification/Python.v ===== *)
(** * Python values, order, sorting, bisection and dictionaries

    The parts of the language and of its standard library that the modelled
    code computes with: dynamically typed arguments and the checks on them,
    the order of tuples and strings, [sorted], [min], [bisect] and
    insertion-ordered dictionaries.  Nothing here is specific to VeriCCL. *)

From Stdlib Require Import Ascii.
From S2P Require Import Prelude.
Local Open Scope Z_scope.

(** ** Floating point times

    The modelled code only compares times, takes their maximum and copies
    them.  Every finite double is an integral multiple of the least positive
    double [2^-1074], so a finite double is represented, without rounding,
    by its number of such ticks. *)
Inductive pyfloat : Type :=
  | Finite (ticks : Z)
  | PosInf
  | NegInf
  | NaN.

(** A dynamically typed argument ([value: object]). *)
Inductive pyval : Type :=
  | PInt (z : Z)
  | PBool (b : bool)
  | PFloat (f : pyfloat)
  | PStr (s : string)
  | PNone
  | PList (l : list pyval)
  | PDict (d : list (string * pyval))
  | POther.

(** The number of ticks of [1.0]. *)
Definition one_us : Z := 2 ^ 1074.

(** [float(z)]: rounding to 53 significant bits, ties to even. *)
Definition float_of_int (z : Z) : res Z :=
  let a := Z.abs z in
  let bits := Z.log2 a + 1 in
  if bits <=? 53 then Ok (z * one_us)
  else
    let sh := bits - 53 in
    let q := Z.shiftr a sh in
    let r := a - Z.shiftl q sh in
    let half := Z.shiftl 1 (sh - 1) in
    let q' := if (half <? r) || ((half =? r) && Z.odd q) then q + 1 else q in
    let v := Z.shiftl q' sh in
    if 2 ^ 1024 <=? v then Err (OverflowError "int too large to convert to float")
    else Ok (Z.sgn z * v * one_us).

(** ** Text *)

(** ["{}".format(z)] for an integer. *)
Definition str_of_int (z : Z) : string := pretty z.

Fixpoint zeros (n : nat) : string :=
  match n with O => EmptyString | S n => String "0"%char (zeros n) end.

(** ["{:08d}".format(z)] for a nonnegative integer. *)
Definition str_of_int_08d (z : Z) : string :=
  let s := str_of_int z in (zeros (8 - String.length s) +:+ s)%string.

Definition is_digit (a : Ascii.ascii) : bool :=
  let n := Ascii.nat_of_ascii a in (48 <=? n)%nat && (n <=? 57)%nat.

(** ** The order of Python values *)

Class PyOrd (A : Type) := {
  pcmp : A → A → comparison;
  pcmp_eq x y : pcmp x y = Eq ↔ x = y;
  pcmp_sym x y : pcmp y x = CompOpp (pcmp x y);
  pcmp_trans x y z : pcmp x y = Lt → pcmp y z = Lt → pcmp x z = Lt;
}.

Definition pltb {A} `{PyOrd A} (x y : A) : bool :=
  match pcmp x y with Lt => true | _ => false end.
Definition pleb {A} `{PyOrd A} (x y : A) : bool :=
  match pcmp x y with Gt => false | _ => true end.

#[export] Program Instance Z_PyOrd : PyOrd Z := {| pcmp := Z.compare |}.
Next Obligation. apply Z.compare_eq_iff. Qed.
Next Obligation. intros x y. by rewrite Z.compare_antisym. Qed.
Next Obligation. intros x y z. rewrite !Z.compare_lt_iff. lia. Qed.

#[export] Program Instance bool_PyOrd : PyOrd bool :=
  {| pcmp x y := Z.compare (Z.b2z x) (Z.b2z y) |}.
Next Obligation. by intros [] []. Qed.
Next Obligation. by intros [] []. Qed.
Next Obligation. by intros [] [] []. Qed.

Fixpoint str_cmp (s t : string) : comparison :=
  match s, t with
  | EmptyString, EmptyString => Eq
  | EmptyString, String _ _ => Lt
  | String _ _, EmptyString => Gt
  | String a s, String b t =>
      match N.compare (Ascii.N_of_ascii a) (Ascii.N_of_ascii b) with
      | Eq => str_cmp s t
      | c => c
      end
  end.

Lemma N_of_ascii_inj a b : Ascii.N_of_ascii a = Ascii.N_of_ascii b → a = b.
Proof. intros H. by rewrite <- (Ascii.ascii_N_embedding a), H, Ascii.ascii_N_embedding. Qed.

#[export] Program Instance string_PyOrd : PyOrd string := {| pcmp := str_cmp |}.
Next Obligation.
  induction x as [|a x IH]; intros [|b y]; simpl; try done.
  destruct (N.compare_spec (Ascii.N_of_ascii a) (Ascii.N_of_ascii b)) as [E|E|E].
  - apply N_of_ascii_inj in E as ->. rewrite IH. naive_solver.
  - split; [done|]. intros [= -> ->]. lia.
  - split; [done|]. intros [= -> ->]. lia.
Qed.
Next Obligation.
  induction x as [|a x IH]; intros [|b y]; simpl; try done.
  rewrite (N.compare_antisym (Ascii.N_of_ascii a) (Ascii.N_of_ascii b)).
  destruct (N.compare _ _); simpl; auto.
Qed.
Next Obligation.
  induction x as [|a x IH]; intros [|b y] [|c z]; simpl; try done.
  destruct (N.compare_spec (Ascii.N_of_ascii a) (Ascii.N_of_ascii b)) as [E1|E1|E1];
  destruct (N.compare_spec (Ascii.N_of_ascii b) (Ascii.N_of_ascii c)) as [E2|E2|E2];
  destruct (N.compare_spec (Ascii.N_of_ascii a) (Ascii.N_of_ascii c)) as [E3|E3|E3];
    try done; try lia; eauto.
Qed.

Section pair_order.
Context {A B} `{PyOrd A} `{PyOrd B}.

Definition pair_cmp (x y : A * B) : comparison :=
  match pcmp x.1 y.1 with Eq => pcmp x.2 y.2 | c => c end.

#[export] Program Instance pair_PyOrd : PyOrd (A * B) := {| pcmp := pair_cmp |}.
Next Obligation.
  intros [a b] [c d]. unfold pair_cmp; simpl.
  pose proof (pcmp_eq a c). pose proof (pcmp_eq b d).
  destruct (pcmp a c); naive_solver.
Qed.
Next Obligation.
  intros [a b] [c d]. unfold pair_cmp; simpl.
  rewrite (pcmp_sym a c). destruct (pcmp a c); simpl; auto using pcmp_sym.
Qed.
Next Obligation.
  intros [a b] [c d] [e f]. unfold pair_cmp; simpl.
  destruct (pcmp a c) eqn:E1, (pcmp c e) eqn:E2; try done.
  - apply pcmp_eq in E1 as ->, E2 as ->.
    rewrite (proj2 (pcmp_eq e e)) by done. apply pcmp_trans.
  - apply pcmp_eq in E1 as ->. by rewrite E2.
  - apply pcmp_eq in E2 as ->. by rewrite E1.
  - by rewrite (pcmp_trans _ _ _ E1 E2).
Qed.
End pair_order.

Section list_order.
Context {A} `{PyOrd A}.

Fixpoint list_cmp (x y : list A) : comparison :=
  match x, y with
  | [], [] => Eq
  | [], _ :: _ => Lt
  | _ :: _, [] => Gt
  | a :: x, b :: y => match pcmp a b with Eq => list_cmp x y | c => c end
  end.

#[export] Program Instance list_PyOrd : PyOrd (list A) := {| pcmp := list_cmp |}.
Next Obligation.
  induction x as [|a x IH]; intros [|b y]; simpl; try done.
  pose proof (pcmp_eq a b). specialize (IH y).
  destruct (pcmp a b); naive_solver.
Qed.
Next Obligation.
  induction x as [|a x IH]; intros [|b y]; simpl; try done.
  rewrite (pcmp_sym a b). destruct (pcmp a b); simpl; auto.
Qed.
Next Obligation.
  induction x as [|a x IH]; intros [|b y] [|c z]; simpl; try done.
  destruct (pcmp a b) eqn:E1, (pcmp b c) eqn:E2; try done.
  - apply pcmp_eq in E1 as ->, E2 as ->.
    rewrite (proj2 (pcmp_eq c c)) by done. apply IH.
  - apply pcmp_eq in E1 as ->. by rewrite E2.
  - apply pcmp_eq in E2 as ->. by rewrite E1.
  - by rewrite (pcmp_trans _ _ _ E1 E2).
Qed.
End list_order.

Section order_facts.
Context {A} `{PyOrd A}.
Implicit Types x y z : A.

Lemma pcmp_refl x : pcmp x x = Eq.
Proof. by apply pcmp_eq. Qed.

Lemma pltb_spec x y : pltb x y = true ↔ pcmp x y = Lt.
Proof. unfold pltb. by destruct (pcmp x y). Qed.

Lemma pltb_irrefl x : pltb x x = false.
Proof. unfold pltb. by rewrite pcmp_refl. Qed.

Lemma pleb_refl x : pleb x x = true.
Proof. unfold pleb. by rewrite pcmp_refl. Qed.

Lemma pltb_pleb x y : pltb x y = negb (pleb y x).
Proof. unfold pltb, pleb. rewrite (pcmp_sym x y). by destruct (pcmp x y). Qed.

Lemma pleb_pltb x y : pleb x y = negb (pltb y x).
Proof. by rewrite pltb_pleb, negb_involutive. Qed.

Lemma pltb_le x y : pltb x y = true → pleb x y = true.
Proof. unfold pltb, pleb. by destruct (pcmp x y). Qed.

Lemma pleb_total x y : pleb x y = true ∨ pleb y x = true.
Proof. unfold pleb. rewrite (pcmp_sym x y). destruct (pcmp x y); simpl; auto. Qed.

Lemma pleb_antisym x y : pleb x y = true → pleb y x = true → x = y.
Proof.
  unfold pleb. rewrite (pcmp_sym x y).
  destruct (pcmp x y) eqn:E; try done. by apply pcmp_eq in E.
Qed.

Lemma pltb_trans x y z : pltb x y = true → pltb y z = true → pltb x z = true.
Proof. rewrite !pltb_spec. apply pcmp_trans. Qed.

Lemma pleb_trans x y z : pleb x y = true → pleb y z = true → pleb x z = true.
Proof.
  unfold pleb. intros H1 H2.
  destruct (pcmp x y) eqn:E1, (pcmp y z) eqn:E2; try done.
  - apply pcmp_eq in E1 as ->, E2 as ->. by rewrite pcmp_refl.
  - apply pcmp_eq in E1 as ->. by rewrite E2.
  - apply pcmp_eq in E2 as ->. by rewrite E1.
  - by rewrite (pcmp_trans _ _ _ E1 E2).
Qed.

Lemma pltb_leb_trans x y z : pltb x y = true → pleb y z = true → pltb x z = true.
Proof.
  intros H1 H2. rewrite pltb_pleb. apply negb_true_iff.
  destruct (pleb z x) eqn:E; [|done].
  pose proof (pleb_trans _ _ _ H2 E) as H3.
  rewrite pltb_pleb, H3 in H1. done.
Qed.
End order_facts.

Lemma pltb_Z (x y : Z) : pltb x y = (x <? y).
Proof. unfold pltb; simpl. unfold Z.ltb. by destruct (x ?= y). Qed.

Lemma pltb_pair {A B} `{PyOrd A, PyOrd B} (a c : A) (b d : B) :
  pltb (a, b) (c, d) = pltb a c || (pleb a c && pltb b d).
Proof. unfold pltb, pleb; simpl. unfold pair_cmp; simpl. by destruct (pcmp a c). Qed.

Lemma str_cmp_empty_r (s : string) : pltb s EmptyString = false.
Proof. by destruct s. Qed.

(** ** Sorting and selection *)

Section sorting.
Context {A K} `{PyOrd K} (key : A → K).

Fixpoint insert_by (x : A) (l : list A) : list A :=
  match l with
  | [] => [x]
  | y :: l' => if pleb (key x) (key y) then x :: l else y :: insert_by x l'
  end.

(** [sorted(l, key=key)], a stable sort. *)
Fixpoint sorted_by (l : list A) : list A :=
  match l with
  | [] => []
  | x :: l => insert_by x (sorted_by l)
  end.

Definition key_le (x y : A) : Prop := pleb (key x) (key y) = true.

#[export] Instance key_le_trans : Transitive key_le.
Proof. intros x y z. apply pleb_trans. Qed.

Lemma insert_by_perm x l : insert_by x l ≡ₚ x :: l.
Proof.
  induction l as [|y l IH]; simpl; [done|].
  destruct (pleb _ _); [done|]. rewrite IH. apply Permutation_swap.
Qed.

Lemma sorted_by_perm l : sorted_by l ≡ₚ l.
Proof. induction l as [|x l IH]; simpl; [done|]. by rewrite insert_by_perm, IH. Qed.

Lemma elem_of_sorted_by x l : x ∈ sorted_by l ↔ x ∈ l.
Proof. by rewrite sorted_by_perm. Qed.

Lemma length_sorted_by l : length (sorted_by l) = length l.
Proof. by rewrite sorted_by_perm. Qed.

Lemma NoDup_sorted_by l : NoDup (sorted_by l) ↔ NoDup l.
Proof. by rewrite sorted_by_perm. Qed.

Lemma insert_by_sorted x l :
  StronglySorted key_le l → StronglySorted key_le (insert_by x l).
Proof.
  induction l as [|y l IH]; simpl; intros Hs.
  { repeat constructor. }
  inversion_clear Hs as [|? ? Hs' Hy].
  destruct (pleb (key x) (key y)) eqn:E.
  - repeat (constructor; try done).
    eapply Forall_impl; [exact Hy|]. intros z. unfold key_le. by apply pleb_trans.
  - constructor; [by apply IH|]. rewrite Forall_forall. intros z.
    rewrite insert_by_perm, elem_of_cons. intros [->|Hz].
    + unfold key_le. destruct (pleb_total (key x) (key y)); congruence.
    + rewrite Forall_forall in Hy. by apply Hy.
Qed.

Lemma sorted_by_sorted l : StronglySorted key_le (sorted_by l).
Proof. induction l; simpl; [constructor | by apply insert_by_sorted]. Qed.

Lemma insert_by_head x l :
  Forall (key_le x) l → insert_by x l = x :: l.
Proof.
  destruct l as [|y l]; [done|]. intros [Hx _]%Forall_cons. simpl. unfold key_le in Hx.
  by rewrite Hx.
Qed.

Lemma sorted_by_id l :
  StronglySorted key_le l → sorted_by l = l.
Proof.
  induction 1 as [|x l _ IH Hx]; simpl; [done|]. rewrite IH. by apply insert_by_head.
Qed.

(** [min(l, key=key)]: the first of the least elements. *)
Fixpoint min_by (l : list A) : option A :=
  match l with
  | [] => None
  | x :: l =>
      match min_by l with
      | None => Some x
      | Some y => if pltb (key y) (key x) then Some y else Some x
      end
  end.

Lemma min_by_Some l x :
  min_by l = Some x → x ∈ l ∧ ∀ y, y ∈ l → pleb (key x) (key y) = true.
Proof.
  revert x. induction l as [|z l IH]; simpl; intros x; [done|].
  destruct (min_by l) as [m|] eqn:E.
  - destruct (IH _ eq_refl) as [Hin Hle].
    destruct (pltb (key m) (key z)) eqn:L; intros [= <-].
    + split; [by right|]. intros y. rewrite elem_of_cons.
      intros [->|Hy]; [by apply pltb_le | by apply Hle].
    + split; [by left|]. intros y. rewrite elem_of_cons.
      intros [->|Hy]; [apply pleb_refl|].
      eapply pleb_trans; [|by apply Hle].
      by rewrite pleb_pltb, L.
  - intros [= <-]. destruct l as [|w l]; simpl in *.
    + split; [by left|]. intros y. rewrite list_elem_of_singleton.
      intros ->. apply pleb_refl.
    + destruct (min_by l) as [m|]; [by destruct (pltb _ _)|done].
Qed.

Lemma min_by_None l : min_by l = None ↔ l = [].
Proof.
  destruct l as [|x l]; simpl; [done|].
  destruct (min_by l) as [m|]; [by destruct (pltb _ _)|done].
Qed.
End sorting.

(** ** [bisect] *)

(** The halving loop of [bisect_left] and [bisect_right]: [p] says that the
    probed element lies before the insertion point. *)
Fixpoint bisect_loop {K} (p : K → bool) (a : list K) (fuel lo hi : nat) : nat :=
  match fuel with
  | O => lo
  | S fuel =>
      if (lo <? hi)%nat then
        let mid := ((lo + hi) / 2)%nat in
        match a !! mid with
        | Some y => if p y then bisect_loop p a fuel (S mid) hi
                    else bisect_loop p a fuel lo mid
        | None => lo
        end
      else lo
  end.

Definition bisect_left {K} `{PyOrd K} (a : list K) (x : K) : nat :=
  bisect_loop (λ y, pltb y x) a (length a) 0 (length a).
Definition bisect_right {K} `{PyOrd K} (a : list K) (x : K) : nat :=
  bisect_loop (λ y, negb (pltb x y)) a (length a) 0 (length a).

Lemma bisect_loop_spec {K} (p : K → bool) (l1 l2 : list K) fuel lo hi :
  Forall (λ y, p y = true) l1 → Forall (λ y, p y = false) l2 →
  (lo ≤ length l1 ≤ hi)%nat → (hi ≤ length (l1 ++ l2))%nat → (hi - lo ≤ fuel)%nat →
  bisect_loop p (l1 ++ l2) fuel lo hi = length l1.
Proof.
  intros H1 H2. revert lo hi.
  induction fuel as [|fuel IH]; intros lo hi Hb Hl Hf; cbn [bisect_loop]; [lia|].
  destruct (Nat.ltb_spec lo hi) as [Hlt|]; [|lia].
  assert (Hm : (lo ≤ (lo + hi) / 2 < hi)%nat).
  { split; [apply Nat.div_le_lower_bound; lia|apply Nat.Div0.div_lt_upper_bound; lia]. }
  set (mid := ((lo + hi) / 2)%nat) in *.
  destruct (decide (mid < length l1)%nat) as [Hm1|Hm1].
  - rewrite lookup_app_l by done.
    destruct (lookup_lt_is_Some_2 l1 mid Hm1) as [y Hy]. rewrite Hy.
    rewrite Forall_lookup in H1. rewrite (H1 _ _ Hy). apply IH; lia.
  - rewrite lookup_app_r by lia.
    rewrite length_app in Hl.
    destruct (lookup_lt_is_Some_2 l2 (mid - length l1)) as [y Hy]; [lia|]. rewrite Hy.
    rewrite Forall_lookup in H2. rewrite (H2 _ _ Hy). apply IH; rewrite ?length_app; lia.
Qed.

Lemma bisect_left_spec {K} `{PyOrd K} (l1 l2 : list K) x :
  Forall (λ y, pltb y x = true) l1 → Forall (λ y, pltb y x = false) l2 →
  bisect_left (l1 ++ l2) x = length l1.
Proof. intros ??. apply bisect_loop_spec; auto; rewrite ?length_app; lia. Qed.

Lemma bisect_right_spec {K} `{PyOrd K} (l1 l2 : list K) x :
  Forall (λ y, pltb x y = false) l1 → Forall (λ y, pltb x y = true) l2 →
  bisect_right (l1 ++ l2) x = length l1.
Proof.
  intros H1 H2. apply bisect_loop_spec; rewrite ?length_app; try lia.
  - eapply Forall_impl; [exact H1|]. by intros y ->.
  - eapply Forall_impl; [exact H2|]. by intros y ->.
Qed.

(** [l.insert(i, x)] and [l[i:j]] on in-range arguments, [l.pop(i)]. *)
Definition list_insert_at {A} (i : nat) (x : A) (l : list A) : list A :=
  take i l ++ x :: drop i l.
Definition list_slice {A} (i j : nat) (l : list A) : list A := take (j - i) (drop i l).
Definition list_pop {A} (i : nat) (l : list A) : res (list A) :=
  if (i <? length l)%nat then Ok (take i l ++ drop (S i) l)
  else Err (IndexError "pop index out of range").

(** ** Insertion-ordered dictionaries

    Where the code depends on the iteration order of a dictionary it is an
    association list with one entry per key; elsewhere it is a [gmap]. *)
Section dict.
Context {K V : Type} `{EqDecision K}.

Fixpoint dict_get (k : K) (d : list (K * V)) : option V :=
  match d with
  | [] => None
  | (k', v) :: d => if decide (k = k') then Some v else dict_get k d
  end.

(** [d[k] = v]: an existing key keeps its position. *)
Fixpoint dict_set (k : K) (v : V) (d : list (K * V)) : list (K * V) :=
  match d with
  | [] => [(k, v)]
  | (k', v') :: d => if decide (k = k') then (k, v) :: d else (k', v') :: dict_set k v d
  end.

Definition dict_of_list (l : list (K * V)) : list (K * V) :=
  foldl (λ d kv, dict_set kv.1 kv.2 d) [] l.

Lemma dict_get_set k k' v d :
  dict_get k (dict_set k' v d) = if decide (k = k') then Some v else dict_get k d.
Proof.
  induction d as [|[q w] d IH]; simpl; repeat case_decide; simplify_eq/=;
    repeat case_decide; simplify_eq/=; try done.
Qed.

Lemma dict_set_same k v d : dict_get k d = Some v → dict_set k v d = d.
Proof.
  induction d as [|[q w] d IH]; simpl; [done|]. case_decide; [intros [= ->]; by subst|].
  intros Hd. by rewrite IH.
Qed.

Lemma dict_set_fresh k v d : k ∉ d.*1 → dict_set k v d = d ++ [(k, v)].
Proof.
  induction d as [|[q w] d IH]; simpl; [done|]. rewrite not_elem_of_cons.
  intros [??]. rewrite decide_False by done. by rewrite IH.
Qed.

Lemma dict_get_Some_1 k v d : dict_get k d = Some v → (k, v) ∈ d.
Proof.
  induction d as [|[q w] d IH]; simpl; [done|]. case_decide.
  - intros [= ->]. subst. by left.
  - intros ?. right. auto.
Qed.

Lemma dict_get_Some_2 k v d : NoDup d.*1 → (k, v) ∈ d → dict_get k d = Some v.
Proof.
  induction d as [|[q w] d IH]; simpl; [by rewrite elem_of_nil|].
  rewrite NoDup_cons, elem_of_cons. intros [Hq Hd] [[= -> ->]|Hin].
  - by rewrite decide_True.
  - rewrite decide_False; [auto|]. intros ->. apply Hq.
    apply list_elem_of_fmap. by exists (q, v).
Qed.

Lemma dict_get_None k d : dict_get k d = None ↔ k ∉ d.*1.
Proof.
  induction d as [|[q w] d IH]; simpl; [split; [by intros _ ?%elem_of_nil|done]|].
  rewrite not_elem_of_cons. case_decide; naive_solver.
Qed.

Lemma dict_of_list_nodup l : NoDup l.*1 → dict_of_list l = l.
Proof.
  unfold dict_of_list. cut (∀ d, NoDup (d ++ l).*1 →
    foldl (λ d kv, dict_set kv.1 kv.2 d) d l = d ++ l); [naive_solver|].
  induction l as [|[k v] l IH]; intros d; simpl; [by rewrite app_nil_r|].
  intros Hd. rewrite dict_set_fresh.
  - rewrite IH; rewrite <- app_assoc; done.
  - rewrite fmap_app, NoDup_app in Hd. destruct Hd as (_ & Hd & _).
    intros Hk. apply (Hd _ Hk). simpl. by left.
Qed.
End dict.

(** ** Argument checks shared by the record constructors *)

(** [_integer(value, field, minimum)] of the semantics and xml modules. *)
Definition integer_field (value : pyval) (field : string) (minimum : Z) : res Z :=
  match value with
  | PInt z =>
      raise_when (z <? minimum)
        (SemanticError (field +:+ " must be at least " +:+ str_of_int minimum));;
      Ok z
  | _ => Err (SemanticError (field +:+ " must be an integer"))
  end.

(** [_time(value, field)]: a finite nonnegative number, as a float. *)
Definition time_field (value : pyval) (field : string) : res Z :=
  t ← match value with
      | PInt z => Finite <$> float_of_int z
      | PFloat f => Ok f
      | _ => Err (SemanticError (field +:+ " must be a number"))
      end;
  match t with
  | Finite z =>
      raise_when (z <? 0) (SemanticError (field +:+ " must be finite and non-negative"));;
      Ok z
  | _ => Err (SemanticError (field +:+ " must be finite and non-negative"))
  end.

(** [_identifier(value, field)]: a non-empty string. *)
Definition identifier_field (value : pyval) (field : string) : res string :=
  match value with
  | PStr (String _ _ as s) => Ok s
  | _ => Err (SemanticError (field +:+ " must be a non-empty string"))
  end.

Lemma integer_field_Ok v f m z :
  integer_field v f m = Ok z ↔ v = PInt z ∧ m ≤ z.
Proof.
  destruct v; simpl; try (split; [done|naive_solver]).
  split.
  - intros H. inv_res. bool_prop. by subst.
  - intros [[= ->] ?]. by rewrite (proj2 (Z.ltb_ge _ _)).
Qed.

Lemma integer_field_int z f m : m ≤ z → integer_field (PInt z) f m = Ok z.
Proof. intros. by apply integer_field_Ok. Qed.

Lemma time_field_float f n z : time_field (PFloat f) n = Ok z ↔ f = Finite z ∧ 0 ≤ z.
Proof.
  unfold time_field; simpl. destruct f; simpl; try (split; [done|naive_solver]).
  split.
  - intros H. inv_res. bool_prop. by subst.
  - intros [[= ->] ?]. by rewrite (proj2 (Z.ltb_ge _ _)).
Qed.

Lemma identifier_field_Ok v f s :
  identifier_field v f = Ok s ↔ v = PStr s ∧ s ≠ EmptyString.
Proof. destruct v as [| | |[]| | | |]; simpl; naive_solver. Qed.

(** [value[key]] on a JSON value, and iteration over one. *)
Definition py_getitem (v : pyval) (k : string) : res pyval :=
  match v with
  | PDict d => of_option (dict_get k d) (KeyError k)
  | _ => Err (TypeError "value is not a mapping")
  end.

Definition py_iter (v : pyval) : res (list pyval) :=
  match v with
  | PList l => Ok l
  | PDict d => Ok (PStr <$> d.*1)
  | PStr s => Ok ((λ a, PStr (String a EmptyString)) <$> String.list_ascii_of_string s)
  | _ => Err (TypeError "value is not iterable")
  end.

(** [hash(v)] fails on lists and dictionaries. *)
Definition py_hashable (v : pyval) : bool :=
  match v with PList _ | PDict _ => false | _ => true end.

(** [v == z] for an integer [z]: [True == 1] and [1.0 == 1] hold. *)
Definition py_eq_int (v : pyval) (z : Z) : bool :=
  match v with
  | PInt x => x =? z
  | PBool b => Z.b2z b =? z
  | PFloat (Finite t) => t =? z * one_us
  | _ => false
  end.

(** A dictionary comprehension whose pairs agree with a function builds that
    function's graph, whatever keys it assigns twice. *)
Lemma dict_of_list_function {K V} `{EqDecision K} (f : K → option V) (l : list (K * V)) :
  (∀ k v, (k, v) ∈ l ↔ f k = Some v) → ∀ k, dict_get k (dict_of_list l) = f k.
Proof.
  intros Hf k.
  assert (Hsound : ∀ l' d, (∀ k v, dict_get k d = Some v → f k = Some v) →
    (∀ k v, (k, v) ∈ l' → f k = Some v) →
    (∀ v, dict_get k (foldl (λ d kv, dict_set kv.1 kv.2 d) d l') = Some v → f k = Some v) ∧
    ((is_Some (dict_get k d) ∨ ∃ v, (k, v) ∈ l') →
      is_Some (dict_get k (foldl (λ d kv, dict_set kv.1 kv.2 d) d l')))).
  { intros l'. induction l' as [|[a b] l' IH]; intros d Hd Hl; simpl.
    { split; [by intros v ?; apply Hd|]. intros [?|[v []%elem_of_nil]]; done. }
    destruct (IH (dict_set a b d)) as [IH1 IH2].
    - intros k' v. rewrite dict_get_set. case_decide; [|apply Hd].
      intros [= <-]. subst. apply Hl. by left.
    - intros k' v ?. apply Hl. by right.
    - split; [done|]. intros Hor. apply IH2. rewrite dict_get_set. case_decide; [by left|].
      destruct Hor as [?|[v Hv]]; [by left|]. right. exists v.
      apply elem_of_cons in Hv as [[= -> ->]|?]; done. }
  destruct (Hsound l []) as [H1 H2]; [done|by intros ?? ?; apply Hf|].
  fold (dict_of_list l) in H1, H2.
  destruct (dict_get k (dict_of_list l)) as [v|] eqn:E.
  - symmetry. by apply H1.
  - destruct (f k) as [v|] eqn:F; [|done].
    destruct H2 as [w Hw]; [right; exists v; by apply Hf|done].
Qed.

Lemma dict_set_NoDup {K V} `{EqDecision K} (k : K) (v : V) d :
  NoDup d.*1 → NoDup (dict_set k v d).*1.
Proof.
  induction d as [|[q w] d IH]; simpl; intros Hd; [apply NoDup_singleton|].
  apply NoDup_cons in Hd as [Hq Hd]. case_decide; subst; simpl.
  - by constructor.
  - constructor; [|by apply IH]. intros Hin. apply Hq.
    apply list_elem_of_fmap in Hin as ([q' w'] & -> & Hin). simpl in *.
    destruct (dict_get q' d) as [u|] eqn:E.
    + apply dict_get_Some_1 in E. apply list_elem_of_fmap. by exists (q', u).
    + exfalso. apply IH in Hd.
      pose proof (dict_get_Some_2 _ _ _ Hd Hin) as Hg.
      rewrite dict_get_set, decide_False in Hg by done. congruence.
Qed.

Lemma dict_of_list_length_le {K V} `{EqDecision K} (l : list (K * V)) d :
  (length (foldl (λ d kv, dict_set kv.1 kv.2 d) d l) ≤ length d + length l)%nat ∧
  ((length (foldl (λ d kv, dict_set kv.1 kv.2 d) d l) = length d + length l)%nat →
    NoDup d.*1 → NoDup (d ++ l).*1).
Proof.
  revert d. induction l as [|[k v] l IH]; intros d; simpl.
  { rewrite app_nil_r. split; [lia|done]. }
  destruct (IH (dict_set k v d)) as [H1 H2].
  assert (Hlen : (k ∈ d.*1 → length (dict_set k v d) = length d) ∧
                 (length (dict_set k v d) ≤ S (length d))%nat).
  { clear. induction d as [|[k' v'] d [IH1 IH2]]; simpl; [by rewrite elem_of_nil|].
    rewrite elem_of_cons. case_decide; simpl; [lia|]. split; [|lia].
    intros [?|?]; [done|]. by rewrite IH1. }
  destruct Hlen as [Hin Hle]. split; [lia|]. intros E Hd.
  destruct (decide (k ∈ d.*1)) as [Hk|Hk]; [rewrite Hin in *; [lia|done..]|].
  rewrite dict_set_fresh in H2, E by done. rewrite <- app_assoc in H2. simpl in H2.
  apply H2.
  - rewrite E, length_app. simpl. lia.
  - rewrite fmap_app. apply NoDup_app. split_and!; [done| |apply NoDup_singleton].
    by intros x Hx ->%list_elem_of_singleton.
Qed.

Lemma dict_of_list_full_length {K V} `{EqDecision K} (l : list (K * V)) :
  length (dict_of_list l) = length l → NoDup l.*1.
Proof. intros H. by apply (dict_of_list_length_le l []); [|constructor]. Qed.

Lemma dict_get_is_Some {K V} `{EqDecision K} k (d : list (K * V)) : is_Some (dict_get k d) ↔ k ∈ d.*1.
Proof.
  destruct (dict_get k d) as [v|] eqn:E.
  - split; [|by eauto]. intros _. apply dict_get_Some_1 in E.
    apply list_elem_of_fmap. by exists (k, v).
  - apply dict_get_None in E. split; [by intros [??]|done].
Qed.

Lemma elem_of_dict_set {K V} `{EqDecision K} (k : K) (v : V) d x :
  x ∈ dict_set k v d → x = (k, v) ∨ x ∈ d.
Proof.
  induction d as [|[q w] d IH]; simpl; [set_solver|]. case_decide; set_solver.
Qed.

Lemma elem_of_dict_of_list {K V} `{EqDecision K} (l : list (K * V)) x :
  x ∈ dict_of_list l → x ∈ l.
Proof.
  unfold dict_of_list. induction l as [|[k v] l IH] using rev_ind; simpl; [done|].
  rewrite foldl_snoc, elem_of_app, list_elem_of_singleton.
  intros [->|H]%elem_of_dict_set; [by right|left; auto].
Qed.

Lemma dict_of_list_NoDup {K V} `{EqDecision K} (l : list (K * V)) :
  NoDup (dict_of_list l).*1.
Proof.
  unfold dict_of_list. cut (∀ d, NoDup d.*1 →
    NoDup (foldl (λ d kv, dict_set kv.1 kv.2 d) d l).*1).
  { intros H. apply H. constructor. }
  induction l as [|[k v] l IH]; intros d Hd; simpl; [done|].
  by apply IH, dict_set_NoDup.
Qed.

Lemma dict_of_list_keys {K V} `{EqDecision K} k (l : list (K * V)) :
  is_Some (dict_get k (dict_of_list l)) ↔ k ∈ l.*1.
Proof.
  unfold dict_of_list. induction l as [|[q v] l IH] using rev_ind; simpl.
  - split; [by intros [??]|by intros ?%elem_of_nil].
  - rewrite foldl_snoc, fmap_app, elem_of_app. csimpl. rewrite list_elem_of_singleton, <- IH.
    rewrite dict_get_set. case_decide; naive_solver.
Qed.

(** ** [sum] *)

Fixpoint zsum (l : list Z) : Z :=
  match l with [] => 0 | x :: l => x + zsum l end.

Lemma zsum_app l1 l2 : zsum (l1 ++ l2) = zsum l1 + zsum l2.
Proof. induction l1 as [|x l1 IH]; simpl; [done|]. rewrite IH. lia. Qed.

#[export] Instance zsum_perm : Proper ((≡ₚ) ==> (=)) zsum.
Proof. induction 1; simpl; lia. Qed.

Lemma zsum_nonneg {A} (f : A → Z) l : (∀ x, 0 ≤ f x) → 0 ≤ zsum (f <$> l).
Proof. intros Hf. induction l as [|x l IH]; csimpl; [done|]. specialize (Hf x). lia. Qed.

Lemma zsum_ext {A} (f g : A → Z) l :
  (∀ x, x ∈ l → f x = g x) → zsum (f <$> l) = zsum (g <$> l).
Proof.
  induction l as [|x l IH]; csimpl; intros H; [done|].
  rewrite (H x), IH; [done| |by left]. intros y ?. apply H. by right.
Qed.

Lemma zsum_elements_remove {A} `{Countable A} (f : A → Z) (X : gset A) x :
  x ∈ X → zsum (f <$> elements X) = f x + zsum (f <$> elements (X ∖ {[x]})).
Proof.
  intros Hx. rewrite (union_difference_singleton_L x X Hx) at 1.
  rewrite elements_union_singleton by set_solver. done.
Qed.

Lemma zsum_elements_insert {A} `{Countable A} (f : A → Z) (X : gset A) x :
  x ∉ X → zsum (f <$> elements ({[x]} ∪ X)) = f x + zsum (f <$> elements X).
Proof. intros Hx. by rewrite elements_union_singleton. Qed.

(** [a // b] and [a % b] on integers. *)
Definition py_floordiv (a b : Z) : res Z :=
  raise_when (b =? 0) (ZeroDivisionError "integer division or modulo by zero");; Ok (a / b).
Definition py_mod (a b : Z) : res Z :=
  raise_when (b =? 0) (ZeroDivisionError "integer division or modulo by zero");; Ok (a `mod` b).

Lemma py_floordiv_Ok a b : b ≠ 0 → py_floordiv a b = Ok (a / b).
Proof. intros. unfold py_floordiv. by rewrite (proj2 (Z.eqb_neq b 0)). Qed.

Lemma py_mod_Ok a b : b ≠ 0 → py_mod a b = Ok (a `mod` b).
Proof. intros. unfold py_mod. by rewrite (proj2 (Z.eqb_neq b 0)). Qed.

Lemma integer_field_terminates v f m : terminates (integer_field v f m).
Proof. unfold integer_field. terminates. Qed.

Lemma time_field_terminates v f : terminates (time_field v f).
Proof.
  unfold time_field. apply terminates_bind; [|intros; terminates].
  destruct v; terminates. unfold float_of_int. cbv zeta.
  destruct (_ <=? _); [done|]. destruct (_ <=? _); [done|]. done.
Qed.

Lemma identifier_field_terminates v f : terminates (identifier_field v f).
Proof. unfold identifier_field. destruct v as [| | |[]| | | |]; terminates. Qed.

Lemma py_mod_terminates a b : terminates (py_mod a b).
Proof. unfold py_mod. terminates. Qed.

Lemma py_floordiv_terminates a b : terminates (py_floordiv a b).
Proof. unfold py_floordiv. terminates. Qed.

#[export] Hint Resolve integer_field_terminates time_field_terminates identifier_field_terminates
  py_mod_terminates py_floordiv_terminates : terminates.
