(* ===== verification/PyInt.v ===== *)
(** * Integers as text

    [int(text)] on ASCII text, and its round trip with [str(z)]. *)

From Stdlib Require Import Ascii.
From S2P Require Import Prelude.
From S2P Require Import Python.
Local Open Scope Z_scope.

(** [str.isspace] on ASCII characters. *)
Definition is_space (c : Ascii.ascii) : bool :=
  let n := Ascii.nat_of_ascii c in
  ((9 <=? n)%nat && (n <=? 13)%nat) || ((28 <=? n)%nat && (n <=? 32)%nat).

Fixpoint lstrip (l : list Ascii.ascii) : list Ascii.ascii :=
  match l with
  | c :: l' => if is_space c then lstrip l' else l
  | [] => []
  end.

Definition strip (l : list Ascii.ascii) : list Ascii.ascii :=
  reverse (lstrip (reverse (lstrip l))).

(** Digits, with single underscores between them. *)
Fixpoint int_digits (acc : Z) (after_digit : bool) (l : list Ascii.ascii) : option Z :=
  match l with
  | [] => if after_digit then Some acc else None
  | c :: l =>
      if is_digit c
      then int_digits (10 * acc + (Z.of_nat (Ascii.nat_of_ascii c) - 48)) true l
      else if bool_decide (c = "_"%char) && after_digit then int_digits acc false l
      else None
  end.

(** [int(text)]; [None] stands for [ValueError]. *)
Definition py_int (text : string) : option Z :=
  match strip (String.list_ascii_of_string text) with
  | c :: l =>
      if decide (c = "-"%char) then Z.opp <$> int_digits 0 false l
      else if decide (c = "+"%char) then int_digits 0 false l
      else int_digits 0 false (c :: l)
  | [] => None
  end.

(** ** Round trip *)

Notation chars := String.list_ascii_of_string.

(** Printable ASCII: what every attribute of the program consists of. *)
Definition printable (c : Ascii.ascii) : bool :=
  let n := Ascii.nat_of_ascii c in (32 <=? n)%nat && (n <=? 126)%nat.

Definition plain_string (s : string) : bool := forallb printable (chars s).

Lemma digit_char x :
  (x < 10)%N → is_digit (pretty_N_char x) = true ∧
  Z.of_nat (Ascii.nat_of_ascii (pretty_N_char x)) - 48 = Z.of_N x ∧
  is_space (pretty_N_char x) = false ∧ printable (pretty_N_char x) = true ∧
  pretty_N_char x ≠ "-"%char ∧ pretty_N_char x ≠ "+"%char.
Proof.
  intros Hx. assert (x = 0 ∨ x = 1 ∨ x = 2 ∨ x = 3 ∨ x = 4 ∨ x = 5 ∨ x = 6 ∨ x = 7 ∨ x = 8 ∨ x = 9)%N
    as H by lia.
  repeat destruct H as [->|H]; try subst x; by vm_compute.
Qed.

Lemma pretty_N_go_digits x s a b :
  (0 < x)%N → ∃ k, int_digits a b (chars (pretty_N_go x s)) =
    int_digits (a * 10 ^ Z.of_nat k + Z.of_N x) true (chars s).
Proof.
  revert s. induction (N.lt_wf_0 x) as [x _ IH]. intros s Hx.
  rewrite pretty_N_go_step by done.
  assert (Hmod : (x `mod` 10 < 10)%N) by (by apply N.mod_lt).
  destruct (digit_char _ Hmod) as (Hd & Hv & _).
  pose proof (N.div_mod x 10 ltac:(done)) as Hdm.
  destruct (decide (x `div` 10 = 0)%N) as [E|Hne].
  - rewrite E, pretty_N_go_0. exists 1%nat. cbn [int_digits String.list_ascii_of_string].
    rewrite Hd, Hv. apply (f_equal (λ v, int_digits v true (chars s))). lia.
  - destruct (IH (x `div` 10)%N) with (s := String (pretty_N_char (x `mod` 10)) s) as [k Hk];
      [by apply N.div_lt|lia|].
    exists (S k). rewrite Hk. cbn [int_digits String.list_ascii_of_string].
    rewrite Hd, Hv. apply (f_equal (λ v, int_digits v true (chars s))).
    rewrite Nat2Z.inj_succ, Z.pow_succ_r by lia. lia.
Qed.

Lemma pretty_N_digits (n : N) : int_digits 0 false (chars (pretty n)) = Some (Z.of_N n).
Proof.
  unfold pretty, pretty_N. destruct (decide (n = 0%N)) as [->|Hn]; [done|].
  destruct (pretty_N_go_digits n "" 0 false) as [k ->]; [lia|]. simpl. f_equal.
Qed.

Lemma pretty_N_go_chars x s (P : Ascii.ascii → Prop) :
  (∀ d, (d < 10)%N → P (pretty_N_char d)) → Forall P (chars s) →
  Forall P (chars (pretty_N_go x s)).
Proof.
  intros HP. revert s. induction (N.lt_wf_0 x) as [x _ IH]. intros s Hs.
  destruct (decide (x = 0%N)) as [->|Hx]; [done|].
  rewrite pretty_N_go_step by lia. apply IH; [apply N.div_lt; lia|].
  simpl. constructor; [|done]. by apply HP, N.mod_lt.
Qed.

Lemma pretty_N_chars (n : N) (P : Ascii.ascii → Prop) :
  (∀ d, (d < 10)%N → P (pretty_N_char d)) → Forall P (chars (pretty n)).
Proof.
  intros HP. unfold pretty, pretty_N. destruct (decide _) as [->|].
  - constructor; [|constructor]. by apply (HP 0%N).
  - by apply pretty_N_go_chars.
Qed.

Lemma pretty_Z_cases z :
  (∃ n : N, str_of_int z = pretty n ∧ z = Z.of_N n) ∨
  (∃ n : N, chars (str_of_int z) = "-"%char :: chars (pretty n) ∧ z = - Z.of_N n).
Proof.
  unfold str_of_int, pretty, pretty_Z. destruct z as [|p|p].
  - left. by exists 0%N.
  - left. by exists (Npos p).
  - right. by exists (Npos p).
Qed.

Lemma lstrip_none l : Forall (λ c, is_space c = false) l → lstrip l = l.
Proof. destruct 1 as [|c l Hc _]; [done|]. simpl. by rewrite Hc. Qed.

Lemma strip_none l : Forall (λ c, is_space c = false) l → strip l = l.
Proof.
  intros H. unfold strip. rewrite (lstrip_none l) by done.
  rewrite lstrip_none by (by apply Forall_reverse). apply reverse_involutive.
Qed.

Lemma py_int_str z : py_int (str_of_int z) = Some z.
Proof.
  unfold py_int. destruct (pretty_Z_cases z) as [(n & -> & ->)|(n & -> & ->)].
  - rewrite strip_none by (apply pretty_N_chars; intros; by apply digit_char).
    assert (Hsign : Forall (λ c, c ≠ "-"%char ∧ c ≠ "+"%char) (chars (pretty n)))
      by (apply pretty_N_chars; intros d Hd; by destruct (digit_char d Hd) as (_ & _ & _ & _ & ? & ?)).
    rewrite <- pretty_N_digits. destruct Hsign as [|c l [H1 H2] _]; [done|].
    by rewrite !decide_False.
  - rewrite strip_none.
    + rewrite decide_True by done. by rewrite pretty_N_digits.
    + constructor; [done|]. apply pretty_N_chars. intros. by apply digit_char.
Qed.

Lemma plain_string_Forall s :
  Forall (λ c, printable c = true) (chars s) → plain_string s = true.
Proof.
  unfold plain_string. induction 1 as [|c l Hc _ IH]; simpl; [done|]. by rewrite Hc.
Qed.

Lemma plain_str z : plain_string (str_of_int z) = true.
Proof.
  apply plain_string_Forall. destruct (pretty_Z_cases z) as [(n & -> & _)|(n & -> & _)].
  - apply pretty_N_chars. intros. by apply digit_char.
  - constructor; [done|]. apply pretty_N_chars. intros. by apply digit_char.
Qed.

(** * Identifiers built from texts and integers

    The native lowering names states and steps by joining identifiers, words and
    numbers with separators; distinct parts give distinct names. *)

Lemma chars_app (a b : string) : chars (a +:+ b) = chars a ++ chars b.
Proof. induction a as [|c a IH]; [done|]. simpl. by rewrite <- IH. Qed.

Lemma chars_inj (a b : string) : chars a = chars b → a = b.
Proof.
  intros E. rewrite <- (String.string_of_list_ascii_of_string a), E.
  apply String.string_of_list_ascii_of_string.
Qed.

(** The character does not occur. *)
Definition without (c : Ascii.ascii) (s : string) : Prop := c ∉ chars s.

Lemma without_app c a b : without c a → without c b → without c (a +:+ b).
Proof. unfold without. rewrite chars_app, not_elem_of_app. done. Qed.

(** Numbers consist of digits and signs. *)
Lemma without_int c z :
  is_digit c = false → c ≠ "-"%char → without c (str_of_int z).
Proof.
  intros Hc Hd. unfold without. intros Hin.
  assert (Hall : Forall (λ x, is_digit x = true ∨ x = "-"%char) (chars (str_of_int z))).
  { destruct (pretty_Z_cases z) as [(n & -> & _)|(n & -> & _)]; [|constructor; [by right|]];
      apply pretty_N_chars; intros d Hd'; left; by apply digit_char. }
  rewrite Forall_forall in Hall. destruct (Hall _ Hin); congruence.
Qed.

Lemma split_first {A} (c : A) l1 l2 r1 r2 :
  c ∉ l1 → c ∉ l2 → l1 ++ c :: r1 = l2 ++ c :: r2 → l1 = l2 ∧ r1 = r2.
Proof.
  revert l2. induction l1 as [|x l1 IH]; intros [|y l2]; simpl.
  - by intros _ _ [= ->].
  - intros _ Hc [= -> _]. destruct Hc. by left.
  - intros Hc _ [= -> _]. destruct Hc. by left.
  - rewrite !not_elem_of_cons. intros [_ H1] [_ H2] [= -> E]. by destruct (IH l2 H1 H2 E) as [-> ->].
Qed.

Lemma split_last {A} (c : A) l1 l2 r1 r2 :
  c ∉ r1 → c ∉ r2 → l1 ++ c :: r1 = l2 ++ c :: r2 → l1 = l2 ∧ r1 = r2.
Proof.
  intros H1 H2 E. apply (f_equal reverse) in E. rewrite !reverse_app, !reverse_cons in E.
  rewrite <- !app_assoc in E. simpl in E.
  destruct (split_first c (reverse r1) (reverse r2) (reverse l1) (reverse l2)) as [Er El].
  - by rewrite elem_of_reverse.
  - by rewrite elem_of_reverse.
  - done.
  - split; by apply (inj reverse).
Qed.

(** Two names with one separator each. *)
Lemma name_split_first c (a1 a2 b1 b2 : string) :
  without c a1 → without c a2 →
  a1 +:+ String c b1 = a2 +:+ String c b2 → a1 = a2 ∧ b1 = b2.
Proof.
  intros H1 H2 E. apply (f_equal chars) in E. rewrite !chars_app in E.
  destruct (split_first c _ _ _ _ H1 H2 E) as [Ea Eb]. split; by apply chars_inj.
Qed.

Lemma name_split_last c (a1 a2 b1 b2 : string) :
  without c b1 → without c b2 →
  a1 +:+ String c b1 = a2 +:+ String c b2 → a1 = a2 ∧ b1 = b2.
Proof.
  intros H1 H2 E. apply (f_equal chars) in E. rewrite !chars_app in E.
  destruct (split_last c _ _ _ _ H1 H2 E) as [Ea Eb]. split; by apply chars_inj.
Qed.

Lemma str_of_int_inj (a b : Z) : str_of_int a = str_of_int b → a = b.
Proof. intros E. by apply (inj pretty) in E. Qed.

Lemma string_app_assoc (a b c : string) : (a +:+ b) +:+ c = a +:+ (b +:+ c).
Proof. apply chars_inj. by rewrite !chars_app, app_assoc. Qed.
