(* ===== verification/Slice.v ===== *)
(** * Slice identities ([vericcl/semantics/slice.py])

    A slice is numbered [rank * slice_count + index]: the rank that owns the
    input data, and the position of the slice in that rank's input. *)

From S2P Require Import Prelude.
From S2P Require Import Python.
Local Open Scope Z_scope.

Definition _validate_slice_identity_input (value : pyval) (field : string) (minimum : Z)
    : res Z :=
  match value with
  | PInt z =>
      raise_when (z <? minimum)
        (ValueError (field +:+ " must be at least " +:+ str_of_int minimum));;
      Ok z
  | _ => Err (ValueError (field +:+ " must be an integer"))
  end.

Definition source_rank (slice_id slice_count : pyval) : res Z :=
  normalized_slice_id ← _validate_slice_identity_input slice_id "slice_id" 0;
  normalized_slice_count ← _validate_slice_identity_input slice_count "slice_count" 1;
  Ok (normalized_slice_id / normalized_slice_count).

Definition logical_slice_index (slice_id slice_count : pyval) : res Z :=
  normalized_slice_id ← _validate_slice_identity_input slice_id "slice_id" 0;
  normalized_slice_count ← _validate_slice_identity_input slice_count "slice_count" 1;
  Ok (normalized_slice_id `mod` normalized_slice_count).

Lemma validate_slice_Ok v f m z :
  _validate_slice_identity_input v f m = Ok z ↔ v = PInt z ∧ m ≤ z.
Proof.
  destruct v; simpl; try (split; [done|naive_solver]).
  split.
  - intros H. inv_res. bool_prop. by subst.
  - intros [[= ->] ?]. by rewrite (proj2 (Z.ltb_ge _ _)).
Qed.

Lemma source_rank_Ok s n :
  0 ≤ s → 1 ≤ n → source_rank (PInt s) (PInt n) = Ok (s / n).
Proof.
  intros. unfold source_rank.
  rewrite (proj2 (validate_slice_Ok _ _ 0 s)) by done. simpl.
  by rewrite (proj2 (Z.ltb_ge _ _)).
Qed.

Lemma logical_slice_index_Ok s n :
  0 ≤ s → 1 ≤ n → logical_slice_index (PInt s) (PInt n) = Ok (s `mod` n).
Proof.
  intros. unfold logical_slice_index.
  rewrite (proj2 (validate_slice_Ok _ _ 0 s)) by done. simpl.
  by rewrite (proj2 (Z.ltb_ge _ _)).
Qed.

(** The numbering is a bijection between identities and pairs of a rank and
    a position below the slice count; these are its arithmetic laws. *)
Lemma slice_div r i n : 0 ≤ i < n → (r * n + i) / n = r.
Proof. intros. rewrite Z.div_add_l by lia. rewrite Z.div_small; lia. Qed.

Lemma slice_mod r i n : 0 ≤ i < n → (r * n + i) `mod` n = i.
Proof. intros. rewrite Z.add_comm, Z.mod_add by lia. apply Z.mod_small; lia. Qed.

Lemma slice_split s n : 0 < n → s = s / n * n + s `mod` n ∧ 0 ≤ s `mod` n < n.
Proof. intros. pose proof (Z.div_mod s n). pose proof (Z.mod_pos_bound s n). lia. Qed.

Lemma slice_inj r i r' i' n :
  0 ≤ i < n → 0 ≤ i' < n → r * n + i = r' * n + i' → r = r' ∧ i = i'.
Proof.
  intros Hi Hi' E. split.
  - by rewrite <- (slice_div r i n), E, slice_div.
  - by rewrite <- (slice_mod r i n), E, slice_mod.
Qed.

#[export] Hint Rewrite slice_div slice_mod using lia : slice.

Lemma logical_slice_index_terminates s n : terminates (logical_slice_index s n).
Proof. unfold logical_slice_index, _validate_slice_identity_input. terminates. Qed.

#[export] Hint Resolve logical_slice_index_terminates : terminates.
