(* ===== verification/Collective.v ===== *)
(** * Collective semantics ([vericcl/semantics/collective.py])

    The eight collectives, the validation of a collective problem, and
    [required_outputs], the table of output slots with the slices each must
    combine.  [collective_value] is the abstract specification: the value of
    one slot computed from its coordinates alone. *)

From S2P Require Import Prelude.
From S2P Require Import Python.
From S2P Require Import Slice.
Local Open Scope Z_scope.

Inductive CollectiveKind : Type :=
  | BROADCAST | REDUCE | SCATTER | GATHER
  | ALL_GATHER | ALL_REDUCE | ALL_TO_ALL | REDUCE_SCATTER.

#[export] Instance CollectiveKind_eq_dec : EqDecision CollectiveKind.
Proof. solve_decision. Defined.

Definition kind_value (k : CollectiveKind) : string :=
  match k with
  | BROADCAST => "broadcast" | REDUCE => "reduce"
  | SCATTER => "scatter" | GATHER => "gather"
  | ALL_GATHER => "allgather" | ALL_REDUCE => "allreduce"
  | ALL_TO_ALL => "alltoall" | REDUCE_SCATTER => "reduce_scatter"
  end.

Record CollectiveSpec : Type := MkCollectiveSpec {
  cs_kind : CollectiveKind;
  cs_datatype : string;
  cs_reduction_op : option string;
  cs_root : pyval;
  cs_inplace : bool;
}.

Record OutputSlot : Type := MkOutputSlot { slot_rank : Z; slot_offset : Z }.

#[export] Instance OutputSlot_eq_dec : EqDecision OutputSlot.
Proof. solve_decision. Defined.

(** [@dataclass(order=True)]: slots compare as tuples. *)
Definition slot_key (s : OutputSlot) : Z * Z := (slot_rank s, slot_offset s).

#[export] Program Instance OutputSlot_PyOrd : PyOrd OutputSlot :=
  {| pcmp x y := pcmp (slot_key x) (slot_key y) |}.
Next Obligation.
  intros [a b] [c d]. rewrite pcmp_eq. unfold slot_key; simpl. naive_solver.
Qed.
Next Obligation. intros. apply pcmp_sym. Qed.
Next Obligation. intros x y z. apply pcmp_trans. Qed.

Definition _positive_or_zero (value : pyval) (field : string) : res Z :=
  match value with
  | PInt z =>
      raise_when (z <? 0) (SemanticError (field +:+ " must be non-negative"));; Ok z
  | _ => Err (SemanticError (field +:+ " must be an integer"))
  end.

Definition _positive (value : pyval) (field : string) : res Z :=
  normalized ← _positive_or_zero value field;
  raise_when (normalized =? 0) (SemanticError (field +:+ " must be positive"));;
  Ok normalized.

Definition OutputSlot_init (rank offset : Z) : res OutputSlot :=
  _positive_or_zero (PInt rank) "output_slot.rank";;
  _positive_or_zero (PInt offset) "output_slot.offset";;
  Ok (MkOutputSlot rank offset).

Definition rooted (k : CollectiveKind) : bool :=
  match k with BROADCAST | REDUCE | SCATTER | GATHER => true | _ => false end.

Definition partitioned (k : CollectiveKind) : bool :=
  match k with SCATTER | ALL_TO_ALL | REDUCE_SCATTER => true | _ => false end.

Definition _validate_output_problem (spec : CollectiveSpec) (rank_count slice_count : Z)
    : res unit :=
  _positive (PInt rank_count) "rank_count";;
  _positive (PInt slice_count) "slice_count";;
  (if rooted (cs_kind spec) then
     match cs_root spec with
     | PInt root =>
         raise_when ((root <? 0) || (rank_count <=? root))
           (SemanticError "collective root is outside the rank range")
     | _ => Err (SemanticError (kind_value (cs_kind spec) +:+ " requires an integer root"))
     end
   else
     match cs_root spec with
     | PNone => Ok tt
     | _ => Err (SemanticError (kind_value (cs_kind spec) +:+ " must not define root"))
     end);;
  (if partitioned (cs_kind spec) then
     raise_when (negb (slice_count `mod` rank_count =? 0))
       (SemanticError "slice count must be divisible by rank count")
   else Ok tt).

(** The root of a validated rooted collective ([spec.root] used as an int). *)
Definition root_int (spec : CollectiveSpec) : Z :=
  match cs_root spec with PInt r => r | _ => 0 end.

Definition _aggregate_contributors (logical_address rank_count slice_count : Z) : gset Z :=
  list_to_set ((λ rank, rank * slice_count + logical_address) <$> seqZ 0 rank_count).

(** The assignments [outputs[OutputSlot(rank, offset)] = contributors], in
    the order in which the nested loops of [required_outputs] make them. *)
Definition output_assignments (spec : CollectiveSpec) (rank_count slice_count : Z)
    : list (Z * Z * gset Z) :=
  let root := root_int spec in
  let quotient := slice_count / rank_count in
  match cs_kind spec with
  | BROADCAST =>
      rank ← seqZ 0 rank_count;
      logical_address ← seqZ 0 slice_count;
      [(rank, logical_address, {[ root * slice_count + logical_address ]})]
  | REDUCE =>
      logical_address ← seqZ 0 slice_count;
      [(root, logical_address,
        _aggregate_contributors logical_address rank_count slice_count)]
  | SCATTER =>
      logical_address ← seqZ 0 slice_count;
      [(logical_address / quotient, logical_address `mod` quotient,
        {[ root * slice_count + logical_address ]})]
  | GATHER =>
      source_rank ← seqZ 0 rank_count;
      logical_address ← seqZ 0 slice_count;
      [(root, source_rank * slice_count + logical_address,
        {[ source_rank * slice_count + logical_address ]})]
  | ALL_GATHER =>
      rank ← seqZ 0 rank_count;
      source_rank ← seqZ 0 rank_count;
      logical_address ← seqZ 0 slice_count;
      [(rank, source_rank * slice_count + logical_address,
        {[ source_rank * slice_count + logical_address ]})]
  | ALL_REDUCE =>
      rank ← seqZ 0 rank_count;
      logical_address ← seqZ 0 slice_count;
      [(rank, logical_address,
        _aggregate_contributors logical_address rank_count slice_count)]
  | ALL_TO_ALL =>
      source_rank ← seqZ 0 rank_count;
      logical_address ← seqZ 0 slice_count;
      [(logical_address / quotient,
        source_rank * quotient + logical_address `mod` quotient,
        {[ source_rank * slice_count + logical_address ]})]
  | REDUCE_SCATTER =>
      logical_address ← seqZ 0 slice_count;
      [(logical_address / quotient, logical_address `mod` quotient,
        _aggregate_contributors logical_address rank_count slice_count)]
  end.

Definition required_outputs (spec : CollectiveSpec) (rank_count slice_count : Z)
    : res (list (OutputSlot * gset Z)) :=
  _validate_output_problem spec rank_count slice_count;;
  foldM (λ outputs '(rank, offset, contributors),
    slot ← OutputSlot_init rank offset;
    Ok (dict_set slot contributors outputs))
    [] (output_assignments spec rank_count slice_count).

(** ** Specification *)

(** A collective problem that the validation accepts. *)
Record valid_problem (spec : CollectiveSpec) (P n : Z) : Prop := {
  vp_ranks : 1 ≤ P;
  vp_slices : 1 ≤ n;
  vp_root : if rooted (cs_kind spec)
            then ∃ r, cs_root spec = PInt r ∧ 0 ≤ r < P else cs_root spec = PNone;
  vp_div : partitioned (cs_kind spec) = true → (n `mod` P = 0);
}.

(** [v] where the rank and the offset are in range. *)
Definition within (P rank offset limit : Z) (v : gset Z) : option (gset Z) :=
  if (0 <=? rank) && (rank <? P) && (0 <=? offset) && (offset <? limit)
  then Some v else None.

(** What the slot at [offset] of [rank]'s output must hold. *)
Definition collective_value (spec : CollectiveSpec) (P n rank offset : Z)
    : option (gset Z) :=
  let root := root_int spec in
  let q := n / P in
  match cs_kind spec with
  | BROADCAST => within P rank offset n {[ root * n + offset ]}
  | REDUCE => if rank =? root then within P rank offset n (_aggregate_contributors offset P n) else None
  | SCATTER => within P rank offset q {[ root * n + rank * q + offset ]}
  | GATHER => if rank =? root then within P rank offset (P * n) {[ offset ]} else None
  | ALL_GATHER => within P rank offset (P * n) {[ offset ]}
  | ALL_REDUCE => within P rank offset n (_aggregate_contributors offset P n)
  | ALL_TO_ALL =>
      within P rank offset n {[ offset / q * n + rank * q + offset `mod` q ]}
  | REDUCE_SCATTER => within P rank offset q (_aggregate_contributors (rank * q + offset) P n)
  end.

(** ** Validation *)

Lemma positive_or_zero_Ok v f z : _positive_or_zero v f = Ok z ↔ v = PInt z ∧ 0 ≤ z.
Proof.
  destruct v; simpl; try (split; [done|naive_solver]).
  split.
  - intros H. inv_res. bool_prop. by subst.
  - intros [[= ->] ?]. by rewrite (proj2 (Z.ltb_ge _ _)).
Qed.

Lemma positive_Ok v f z : _positive v f = Ok z ↔ v = PInt z ∧ 1 ≤ z.
Proof.
  unfold _positive. split.
  - intros H. inv_res. bool_prop. subst.
    apply positive_or_zero_Ok in H as [-> ?]. split; [done|lia].
  - intros [-> ?]. rewrite (proj2 (positive_or_zero_Ok _ _ z)) by (split; [done|lia]).
    simpl. by rewrite (proj2 (Z.eqb_neq z 0)) by lia.
Qed.

Lemma positive_int z f : 1 ≤ z → _positive (PInt z) f = Ok z.
Proof. intros. by apply positive_Ok. Qed.

Lemma OutputSlot_init_Ok r o s :
  OutputSlot_init r o = Ok s ↔ 0 ≤ r ∧ 0 ≤ o ∧ s = MkOutputSlot r o.
Proof.
  unfold OutputSlot_init. split.
  - intros H. inv_res.
    repeat match goal with H : _positive_or_zero _ _ = Ok _ |- _ =>
      apply positive_or_zero_Ok in H as [[= <-] ?] end. by subst.
  - intros (? & ? & ->).
    simpl. by rewrite (proj2 (Z.ltb_ge r 0)), (proj2 (Z.ltb_ge o 0)).
Qed.

(** The root check alone. *)
Lemma root_check_Ok spec P u :
  (if rooted (cs_kind spec) then
     match cs_root spec with
     | PInt root => raise_when ((root <? 0) || (P <=? root))
         (SemanticError "collective root is outside the rank range")
     | _ => Err (SemanticError (kind_value (cs_kind spec) +:+ " requires an integer root"))
     end
   else
     match cs_root spec with
     | PNone => Ok tt
     | _ => Err (SemanticError (kind_value (cs_kind spec) +:+ " must not define root"))
     end) = Ok u ↔
  if rooted (cs_kind spec) then ∃ r, cs_root spec = PInt r ∧ 0 ≤ r < P
  else cs_root spec = PNone.
Proof.
  destruct u, (rooted _), (cs_root spec); try (split; [done|naive_solver]).
  rewrite raise_when_Ok, orb_false_iff, Z.ltb_ge, Z.leb_gt. naive_solver lia.
Qed.

Lemma validate_output_problem_Ok spec P n :
  _validate_output_problem spec P n = Ok tt ↔ valid_problem spec P n.
Proof.
  unfold _validate_output_problem. split.
  - intros H. inv_res.
    repeat match goal with H : _positive _ _ = Ok _ |- _ =>
      apply positive_Ok in H as [[= ->] ?] end.
    constructor; [done..| |].
    + by eapply root_check_Ok.
    + intros Hp. rewrite Hp in *. inv_res. by bool_prop.
  - intros [HP Hn Hr Hd].
    rewrite !positive_int by done. cbn [mbind res_bind].
    apply (root_check_Ok spec P tt) in Hr. rewrite Hr. simpl.
    destruct (partitioned _); [|done]. by rewrite Hd.
Qed.

(** ** The table agrees with the specification *)

Section table.
Context (spec : CollectiveSpec) (P n : Z) (Hv : valid_problem spec P n).

Lemma quotient_facts :
  partitioned (cs_kind spec) = true → n = (n / P) * P ∧ 1 ≤ n / P.
Proof.
  destruct Hv as [HP Hn _ Hd]. intros Hp. specialize (Hd Hp).
  pose proof (Z.div_mod n P). assert (n = n / P * P) by lia. nia.
Qed.

Lemma elem_assign_loop {A} (f : Z → list A) (N : Z) x :
  x ∈ (i ← seqZ 0 N; f i) ↔ ∃ i, 0 ≤ i < N ∧ x ∈ f i.
Proof.
  rewrite list_elem_of_bind. setoid_rewrite elem_of_seqZ. naive_solver lia.
Qed.

(** Coordinates of a position in blocks of [q]. *)
Lemma block_split q x :
  1 ≤ q → 0 ≤ x < q * P →
  0 ≤ x / q < P ∧ 0 ≤ x `mod` q < q ∧ x = x / q * q + x `mod` q.
Proof.
  intros Hq Hx. pose proof (Z.div_mod x q). pose proof (Z.mod_pos_bound x q).
  split; [|lia]. split; [apply Z.div_pos; lia|apply Z.div_lt_upper_bound; lia].
Qed.

Lemma within_Some Q r o lim v c :
  within Q r o lim v = Some c ↔ 0 ≤ r < Q ∧ 0 ≤ o < lim ∧ c = v.
Proof.
  unfold within. destruct (_ && _) eqn:E; bool_prop; [naive_solver lia|].
  split; [done|]. intros (? & ? & ->). exfalso.
  repeat (destruct E as [E|E]; bool_prop; try lia).
Qed.

Lemma output_assignments_spec r o c :
  (r, o, c) ∈ output_assignments spec P n ↔ collective_value spec P n r o = Some c.
Proof.
  pose proof quotient_facts as Hq. destruct Hv as [HP Hn Hr Hd].
  unfold output_assignments, collective_value, root_int in *.
  destruct (cs_kind spec) eqn:K; simpl in *;
    repeat setoid_rewrite elem_assign_loop;
    repeat setoid_rewrite list_elem_of_singleton;
    try destruct Hr as (root & -> & Hr);
    try (destruct (Hq eq_refl) as [Hn' Hq1]; set (q := n / P) in *; clearbody q; clear Hq Hd).
  - rewrite within_Some. split; [intros; dest_all; lia || eauto|].
    intros (? & ? & ->). eauto.
  - split.
    + intros; dest_all. rewrite Z.eqb_refl, within_Some. eauto with lia.
    + destruct (Z.eqb_spec r root); [|done]. rewrite within_Some. naive_solver.
  - rewrite within_Some. split.
    + intros (x & Hx & [= -> -> ->]). rewrite Hn' in Hx.
      destruct (block_split q x Hq1 Hx) as (? & ? & Hx'). repeat split; try lia.
      f_equal. lia.
    + intros (Hr' & Ho & ->). exists (r * q + o).
      rewrite slice_div, slice_mod by lia. split; [nia|].
      do 2 f_equal. lia.
  - split.
    + intros (s & ? & i & ? & [= -> -> ->]). rewrite Z.eqb_refl, within_Some.
      repeat split; try lia; nia.
    + destruct (Z.eqb_spec r root); [|done]. subst. rewrite within_Some.
      intros (_ & Ho & ->). destruct (slice_split o n) as [Ho' ?]; [lia|].
      exists (o / n). split; [split; [apply Z.div_pos|apply Z.div_lt_upper_bound]; lia|].
      exists (o `mod` n). by rewrite <- Ho'.
  - rewrite within_Some. split.
    + intros (k & ? & s & ? & i & ? & [= -> -> ->]). repeat split; try lia; nia.
    + intros (Hr' & Ho & ->). exists r. split; [done|].
      destruct (slice_split o n) as [Ho' ?]; [lia|].
      exists (o / n). split; [split; [apply Z.div_pos|apply Z.div_lt_upper_bound]; lia|].
      exists (o `mod` n). by rewrite <- Ho'.
  - rewrite within_Some. split; [intros; dest_all; lia || eauto|].
    intros (? & ? & ->). eauto.
  - rewrite within_Some. split.
    + intros (s & Hs & x & Hx & [= -> -> ->]). rewrite Hn' in Hx.
      destruct (block_split q x Hq1 Hx) as (? & ? & Hx').
      rewrite slice_div, slice_mod by lia. repeat split; try lia; [nia|].
      f_equal. lia.
    + intros (Hr' & Ho & ->). rewrite Hn' in Ho.
      destruct (block_split q o Hq1 Ho) as (? & ? & Ho').
      exists (o / q). split; [done|]. exists (r * q + o `mod` q).
      rewrite slice_div, slice_mod by lia. split; [nia|].
      rewrite <- Ho'. do 2 f_equal. lia.
  - rewrite within_Some. split.
    + intros (x & Hx & [= -> -> ->]). rewrite Hn' in Hx.
      destruct (block_split q x Hq1 Hx) as (? & ? & Hx'). repeat split; try lia.
      by rewrite <- Hx'.
    + intros (Hr' & Ho & ->). exists (r * q + o).
      rewrite slice_div, slice_mod by lia. split; [nia|done].
Qed.
End table.

(** No loop of the table is cut off. *)
Lemma OutputSlot_init_terminates r o : terminates (OutputSlot_init r o).
Proof. unfold OutputSlot_init, _positive_or_zero. terminates. Qed.
#[export] Hint Resolve OutputSlot_init_terminates : terminates.

Lemma required_outputs_terminates spec P n : terminates (required_outputs spec P n).
Proof.
  unfold required_outputs, _validate_output_problem, _positive, _positive_or_zero. terminates.
Qed.
#[export] Hint Resolve required_outputs_terminates : terminates.

Section outputs.
Context (spec : CollectiveSpec) (P n : Z).

Lemma output_fold (l : list (Z * Z * gset Z)) d :
  Forall (λ x, 0 ≤ x.1.1 ∧ 0 ≤ x.1.2) l →
  foldM (λ outputs '(rank, offset, contributors),
    slot ← OutputSlot_init rank offset; Ok (dict_set slot contributors outputs)) d l =
  Ok (foldl (λ d kv, dict_set kv.1 kv.2 d) d
        ((λ x, (MkOutputSlot x.1.1 x.1.2, x.2)) <$> l)).
Proof.
  revert d. induction l as [|[[r o] c] l IH]; intros d Hl; simpl; [done|].
  apply Forall_cons in Hl as [[Hr Ho] Hl]. simpl in *.
  rewrite (proj2 (OutputSlot_init_Ok r o (MkOutputSlot r o))) by done.
  simpl. by apply IH.
Qed.

Lemma collective_value_bounds r o c :
  collective_value spec P n r o = Some c → 0 ≤ r < P ∧ 0 ≤ o.
Proof.
  unfold collective_value.
  destruct (cs_kind spec); repeat case_match; rewrite ?within_Some; naive_solver.
Qed.

(** The table as a whole. *)
Lemma required_outputs_table :
  valid_problem spec P n →
  ∃ outputs, required_outputs spec P n = Ok outputs ∧ NoDup outputs.*1 ∧
    ∀ slot, dict_get slot outputs =
            collective_value spec P n (slot_rank slot) (slot_offset slot).
Proof.
  intros Hv. unfold required_outputs.
  rewrite (proj2 (validate_output_problem_Ok spec P n)) by done. simpl.
  rewrite output_fold.
  - eexists. split; [done|]. split; [apply dict_of_list_NoDup|].
    apply (dict_of_list_function
      (λ slot, collective_value spec P n (slot_rank slot) (slot_offset slot))).
    intros [r o] c. simpl. rewrite list_elem_of_fmap.
    rewrite <- output_assignments_spec by done. split.
    + intros ([[r' o'] c'] & [= -> -> ->] & ?). done.
    + intros H. by exists (r, o, c).
  - apply Forall_forall. intros [[r o] c] H. simpl.
    apply output_assignments_spec, collective_value_bounds in H; [|done]. lia.
Qed.

Lemma required_outputs_Ok outputs :
  required_outputs spec P n = Ok outputs → valid_problem spec P n.
Proof.
  unfold required_outputs. intros H. inv_res. by apply validate_output_problem_Ok.
Qed.

Lemma elem_of_aggregate a s :
  s ∈ _aggregate_contributors a P n ↔ ∃ r, 0 ≤ r < P ∧ s = r * n + a.
Proof.
  unfold _aggregate_contributors.
  rewrite elem_of_list_to_set, list_elem_of_fmap.
  setoid_rewrite elem_of_seqZ. naive_solver lia.
Qed.

(** Every slot combines slices of one logical position, all of them slices
    of the problem. *)
Lemma collective_value_slices r o c :
  valid_problem spec P n → collective_value spec P n r o = Some c →
  c ≠ ∅ ∧ ∃ a, 0 ≤ a < n ∧ ∀ s, s ∈ c → 0 ≤ s < P * n ∧ s `mod` n = a.
Proof.
  intros Hv Hc. apply output_assignments_spec in Hc; [|done].
  destruct Hv as [HP Hn Hr _]. unfold output_assignments, root_int in Hc.
  assert (Hone : ∀ k i, 0 ≤ k < P → 0 ≤ i < n → c = {[k * n + i]} →
    c ≠ ∅ ∧ ∃ a, 0 ≤ a < n ∧ ∀ s, s ∈ c → 0 ≤ s < P * n ∧ s `mod` n = a).
  { intros k i Hk Hi ->. split; [set_solver|]. exists i. split; [done|].
    intros s ->%elem_of_singleton. rewrite slice_mod by done. split; [nia|done]. }
  assert (Hagg : ∀ i, 0 ≤ i < n → c = _aggregate_contributors i P n →
    c ≠ ∅ ∧ ∃ a, 0 ≤ a < n ∧ ∀ s, s ∈ c → 0 ≤ s < P * n ∧ s `mod` n = a).
  { intros i Hi ->. split.
    - apply (non_empty_inhabited_L (0 * n + i)). apply elem_of_aggregate.
      exists 0. split; [lia|done].
    - exists i. split; [done|]. intros s (k & Hk & ->)%elem_of_aggregate.
      rewrite slice_mod by done. split; [nia|done]. }
  destruct (cs_kind spec); simpl in Hr;
    repeat setoid_rewrite elem_assign_loop in Hc;
    repeat setoid_rewrite list_elem_of_singleton in Hc;
    try (destruct Hr as (root & Er & Hr); rewrite Er in Hc); dest_all;
    first [eapply Hone; [| |reflexivity]; lia | eapply Hagg; [|reflexivity]; lia].
Qed.
End outputs.

(** C20 The output table is exactly the collective.  [required_outputs] returns if
    and only if the problem is valid (positive counts, a root in range for
    rooted kinds and none otherwise, divisibility for partitioned kinds); it
    then lists every slot once and maps it to the slices the collective's
    definition assigns to its coordinates, and has no other slot. *)
Theorem required_outputs_exact spec P n :
  (is_ok (required_outputs spec P n) = true ↔ valid_problem spec P n) ∧
  (∀ outputs, required_outputs spec P n = Ok outputs →
     NoDup outputs.*1 ∧
     ∀ rank offset, dict_get (MkOutputSlot rank offset) outputs =
                    collective_value spec P n rank offset).
Proof.
  split.
  - split.
    + destruct (required_outputs spec P n) as [o|] eqn:E; [|done].
      intros _. by apply required_outputs_Ok in E.
    + intros (o & -> & _)%required_outputs_table. done.
  - intros outputs H. pose proof (required_outputs_Ok _ _ _ _ H) as Hv.
    apply required_outputs_table in Hv as (o & Ho & Hd & Ht).
    assert (o = outputs) as -> by congruence. split; [done|]. intros. by rewrite Ht.
Qed.
