(* ===== verification/InputModels.v ===== *)
(** * Resolved input ([vericcl/input/models.py])

    The validated request that the semantic checks read.  JSON documents
    that the code keeps untyped ([resolved_topology], [request_config]) are
    [pyval] values. *)

From S2P Require Import Prelude.
From S2P Require Import Python.
From S2P Require Import Collective.
Local Open Scope Z_scope.

Inductive ObjectiveMode : Type := LATENCY | THROUGHPUT | AUTO.

Record Hyperparameters : Type := MkHyperparameters {
  total_size_bytes : Z;
  slice_size_bytes : option Z;
  objective_mode : ObjectiveMode;
  reference_slice_size_bytes : option Z;
}.

(** [Hyperparameters.slice_count]; [total // 0] raises. *)
Definition slice_count (h : Hyperparameters) : res (option Z) :=
  match slice_size_bytes h with
  | None => Ok None
  | Some s =>
      raise_when (s =? 0) (ZeroDivisionError "integer division or modulo by zero");;
      Ok (Some (total_size_bytes h / s))
  end.

Record ForbiddenTransfer : Type := MkForbiddenTransfer {
  ft_slice_id : Z;
  ft_src_rank : Z;
  ft_dst_rank : Z;
  ft_stage_id : Z;
}.

(** The field of [SolverConfig] that the modelled code reads. *)
Record SolverConfig : Type := MkSolverConfig { max_channels : Z }.

Record AtomConstraints : Type := MkAtomConstraints {
  stage_num : option Z;
  forbidden_transfers : list ForbiddenTransfer;
}.

(** The fields of [ResolvedInput] that the modelled code reads. *)
Record ResolvedInput : Type := MkResolvedInput {
  ri_collective : CollectiveSpec;
  ri_hyperparameters : Hyperparameters;
  ri_solver : SolverConfig;
  ri_atom_constraints : AtomConstraints;
  ri_rank_count : Z;
  ri_resolved_topology : pyval;
  ri_request_config : pyval;
}.
