(* ===== verification/Topology.v ===== *)
(** * Topologies ([vericcl/topology/model.py])

    Directed links, the resources they share and the topology that ties them
    together, with the checks of their constructors.  Times and bandwidths are
    finite doubles, as ticks. *)

From S2P Require Import Prelude.
From S2P Require Import Python.
Local Open Scope Z_scope.

(** [_integer] is [Python.integer_field] and [_identifier] is
    [Python.identifier_field]. *)
Definition _number (value : pyval) (field : string) (minimum : Z) : res Z :=
  normalized ← match value with
    | PInt z => Finite <$> float_of_int z
    | PFloat f => Ok f
    | _ => Err (SemanticError (field +:+ " must be a number"))
    end;
  match normalized with
  | Finite z =>
      raise_when (z <? minimum) (SemanticError (field +:+ " must be finite and at least minimum"));;
      Ok z
  | _ => Err (SemanticError (field +:+ " must be finite and at least minimum"))
  end.

(** The double [1e-300]. *)
Definition tiny : Z := 202402253307310623424512.

Record LinkKey : Type := MkLinkKey { lk_src : Z; lk_dst : Z }.
#[export] Instance LinkKey_eq_dec : EqDecision LinkKey.
Proof. solve_decision. Defined.

Definition link_order (key : LinkKey) : Z * Z := (lk_src key, lk_dst key).

Definition LinkKey_init (src_rank dst_rank : Z) : res LinkKey :=
  integer_field (PInt src_rank) "link.src_rank" 0;;
  integer_field (PInt dst_rank) "link.dst_rank" 0;;
  raise_when (src_rank =? dst_rank) (SemanticError "link ranks must be distinct");;
  Ok (MkLinkKey src_rank dst_rank).

Record LaneKey : Type := MkLaneKey { ln_src : Z; ln_dst : Z; ln_channel : Z }.

Definition LaneKey_init (src_rank dst_rank channel : Z) : res LaneKey :=
  LinkKey_init src_rank dst_rank;;
  integer_field (PInt channel) "lane.channel" 0;;
  Ok (MkLaneKey src_rank dst_rank channel).

Record PerformanceCurve : Type := MkPerformanceCurve {
  pc_alpha_us : Z;
  pc_invbw_us : Z;
  pc_bandwidth : list (Z * Z);
  pc_beta_us_per_byte : option Z;
}.

Definition PerformanceCurve_init (alpha_us invbw_us : pyval) (points : list (Z * pyval))
    (beta_us_per_byte : option pyval) : res PerformanceCurve :=
  alpha ← _number alpha_us "performance.alpha_us" 0;
  invbw ← _number invbw_us "performance.invbw_us" 0;
  raise_when (invbw <? alpha)
    (SemanticError "performance.invbw_us must not be below alpha_us");;
  points ← foldM (λ points '(concurrency, bandwidth),
      concurrency ← integer_field (PInt concurrency) "calibration concurrency" 1;
      bandwidth ← _number bandwidth "calibration bandwidth" tiny;
      Ok (dict_set concurrency bandwidth points)) [] points;
  beta ← match beta_us_per_byte with
         | None => Ok None
         | Some value => Some <$> _number value "performance.beta_us_per_byte" tiny
         end;
  Ok (MkPerformanceCurve alpha invbw (sorted_by fst points) beta).

Definition is_calibrated (self : PerformanceCurve) : bool :=
  negb (bool_decide (pc_bandwidth self = [])).

(** [max(points) > max_channels], when there are points. *)
Definition exceeds_channels (performance : PerformanceCurve) (max_channels : Z) : bool :=
  existsb (λ point, max_channels <? point) (pc_bandwidth performance).*1.

Record DirectedLink : Type := MkDirectedLink {
  dl_key : LinkKey;
  dl_max_channels : Z;
  dl_performance : PerformanceCurve;
  dl_resource_ids : list string;
  dl_physical_path : list string;
}.

Definition DirectedLink_init (key : LinkKey) (max_channels : Z) (performance : PerformanceCurve)
    (resource_ids physical_path : list string) : res DirectedLink :=
  integer_field (PInt max_channels) "directed_link.max_channels" 1;;
  iterM (λ id, identifier_field (PStr id) "directed_link.resource_ids";; Ok tt) resource_ids;;
  raise_when (negb (bool_decide (NoDup resource_ids)))
    (SemanticError "directed_link.resource_ids must be unique");;
  raise_when (exceeds_channels performance max_channels)
    (SemanticError "calibration concurrency exceeds link max_channels");;
  iterM (λ item, identifier_field (PStr item) "directed_link.physical_path";; Ok tt)
    physical_path;;
  raise_when (length physical_path =? 1)%nat
    (SemanticError "physical path must contain both endpoints");;
  Ok (MkDirectedLink key max_channels performance (sorted_by id resource_ids) physical_path).

Record SharedResource : Type := MkSharedResource {
  sr_id : string;
  sr_member_links : list LinkKey;
  sr_max_channels : Z;
  sr_performance : PerformanceCurve;
  sr_capacity : option Z;
}.

Definition SharedResource_init (resource_id : string) (member_links : list LinkKey)
    (max_channels : Z) (performance : PerformanceCurve) (capacity : option pyval)
    : res SharedResource :=
  identifier_field (PStr resource_id) "shared_resource.resource_id";;
  raise_when (bool_decide (member_links = []))
    (SemanticError "shared_resource.member_links must contain LinkKey values");;
  raise_when (negb (bool_decide (NoDup member_links)))
    (SemanticError "shared_resource.member_links must be unique");;
  integer_field (PInt max_channels) "shared_resource.max_channels" 1;;
  raise_when (exceeds_channels performance max_channels)
    (SemanticError "calibration concurrency exceeds resource max_channels");;
  capacity ← match capacity with
             | None => Ok None
             | Some value => Some <$> _number value "shared_resource.capacity_bytes_per_us" tiny
             end;
  Ok (MkSharedResource resource_id (sorted_by link_order member_links) max_channels performance
        capacity).

Record Topology : Type := MkTopology {
  tp_rank_count : Z;
  tp_links : list (LinkKey * DirectedLink);
  tp_shared_resources : list (string * SharedResource);
  tp_node_membership : list (Z * Z);
  tp_gateways : gset Z;
  tp_warnings : list string;
  tp_isomorphism_signature : string;
}.

Definition _normalize_links (rank_count : Z) (links : list (LinkKey * DirectedLink))
    : res (list (LinkKey * DirectedLink)) :=
  iterM (λ '(key, edge),
    raise_when (negb (bool_decide (key = dl_key edge)))
      (SemanticError "topology link key does not match its value");;
    raise_when ((rank_count <=? lk_src key) || (rank_count <=? lk_dst key))
      (SemanticError "topology link rank is outside the rank range")) links;;
  Ok (sorted_by (λ item, link_order item.1) links).

(** A resource and the links that it names. *)
Definition check_resource (links : list (LinkKey * DirectedLink))
    (item : string * SharedResource) : res unit :=
  let '(resource_id, resource) := item in
  raise_when (negb (bool_decide (resource_id = sr_id resource)))
    (SemanticError "shared resource key does not match its resource_id");;
  iterM (λ key,
    match dict_get key links with
    | None => Err (SemanticError "shared resource references an unknown link")
    | Some edge =>
        raise_when (negb (bool_decide (resource_id ∈ dl_resource_ids edge)))
          (SemanticError "shared resource membership is not declared by its link")
    end) (sr_member_links resource).

(** A link and the resources that it names. *)
Definition check_link_resources (resources : list (string * SharedResource))
    (item : LinkKey * DirectedLink) : res unit :=
  let '(key, edge) := item in
  iterM (λ resource_id,
    match dict_get resource_id resources with
    | None => Err (SemanticError "link references an unknown shared resource")
    | Some resource =>
        raise_when (negb (bool_decide (key ∈ sr_member_links resource)))
          (SemanticError "link resource is missing direction-specific membership")
    end) (dl_resource_ids edge).

Definition _normalize_resources (links : list (LinkKey * DirectedLink))
    (shared_resources : list (string * SharedResource))
    : res (list (string * SharedResource)) :=
  iterM (check_resource links) shared_resources;;
  iterM (check_link_resources shared_resources) links;;
  Ok (sorted_by fst shared_resources).

Definition _normalize_membership (rank_count : Z) (membership : list (Z * Z))
    : res (list (Z * Z)) :=
  raise_when (negb (bool_decide
      ((list_to_set membership.*1 : gset Z) = list_to_set (seqZ 0 rank_count))))
    (SemanticError "topology.node_membership must cover every rank");;
  iterM (λ '(rank, node),
    integer_field (PInt rank) "topology.node_membership rank" 0;;
    integer_field (PInt node) "topology.node_membership node" 0;; Ok tt) membership;;
  Ok (sorted_by fst membership).

Section topology.
(** [_compute_signature]: a digest of the normalized fields. *)
Context (_compute_signature : Topology → string).

(** The mappings are dictionaries in insertion order, of the declared types. *)
Definition Topology_init (self : Topology) : res Topology :=
  integer_field (PInt (tp_rank_count self)) "topology.rank_count" 1;;
  links ← _normalize_links (tp_rank_count self) (tp_links self);
  resources ← _normalize_resources links (tp_shared_resources self);
  membership ← _normalize_membership (tp_rank_count self) (tp_node_membership self);
  iterM (λ rank,
    integer_field (PInt rank) "topology.gateways" 0;;
    raise_when (tp_rank_count self <=? rank)
      (SemanticError "topology gateway is outside the rank range"))
    (elements (tp_gateways self));;
  iterM (λ warning, identifier_field (PStr warning) "topology.warnings";; Ok tt)
    (tp_warnings self);;
  let normalized := MkTopology (tp_rank_count self) links resources membership
    (tp_gateways self) (tp_warnings self) (tp_isomorphism_signature self) in
  if decide (tp_isomorphism_signature self = ""%string)
  then Ok (MkTopology (tp_rank_count self) links resources membership
             (tp_gateways self) (tp_warnings self) (_compute_signature normalized))
  else Ok normalized.
End topology.

Definition has_link (self : Topology) (src_rank dst_rank : Z) : bool :=
  match LinkKey_init src_rank dst_rank with
  | Ok key => bool_decide (key ∈ (tp_links self).*1)
  | Err _ => false
  end.

Definition link (self : Topology) (key : LinkKey) : res DirectedLink :=
  of_option (dict_get key (tp_links self))
    (SemanticError "topology does not contain the requested link").

Definition destinations (self : Topology) (src_rank : Z) : res (list Z) :=
  integer_field (PInt src_rank) "src_rank" 0;;
  Ok (lk_dst <$> filter (λ key, lk_src key = src_rank) (tp_links self).*1).

Definition sources (self : Topology) (dst_rank : Z) : res (list Z) :=
  integer_field (PInt dst_rank) "dst_rank" 0;;
  Ok (lk_src <$> filter (λ key, lk_dst key = dst_rank) (tp_links self).*1).

Definition lanes (self : Topology) (key : LinkKey) (channel_count : Z) : res (list LaneKey) :=
  edge ← link self key;
  count ← integer_field (PInt channel_count) "channel_count" 1;
  raise_when (dl_max_channels edge <? count)
    (SemanticError "channel_count exceeds link max_channels");;
  mapR (λ channel, LaneKey_init (lk_src key) (lk_dst key) channel) (seqZ 0 count).

Definition resources_for (self : Topology) (key : LinkKey) : res (list string) :=
  edge ← link self key; Ok (dl_resource_ids edge).
