(* ===== verification/Ranges.v ===== *)
(** * Source byte ranges and hard constraints ([vericcl/semantics/ranges.py])

    Original data is identified by byte ranges of a source rank, whatever the
    current slice size; forbidden transfers are bound to those ranges once. *)

From S2P Require Import Prelude.
From S2P Require Import Python.
From S2P Require Import Slice.
From S2P Require Import Collective.
From S2P Require Import InputModels.
Local Open Scope Z_scope.

Definition nonnegative (value : pyval) (name : string) : res Z :=
  match value with
  | PInt z =>
      raise_when (z <? 0) (SemanticError (name +:+ " must be a nonnegative integer"));; Ok z
  | _ => Err (SemanticError (name +:+ " must be a nonnegative integer"))
  end.

Record DataRange : Type := MkDataRange { dr_source : Z; dr_start : Z; dr_end : Z }.

#[export] Instance DataRange_eq_dec : EqDecision DataRange.
Proof. solve_decision. Defined.

(** [order=True]: ranges compare as tuples. *)
Definition dr_key (d : DataRange) : Z * (Z * Z) := (dr_source d, (dr_start d, dr_end d)).

Definition DataRange_init (source_rank start end_ : Z) : res DataRange :=
  nonnegative (PInt source_rank) "source_rank";;
  nonnegative (PInt start) "start";;
  nonnegative (PInt end_) "end";;
  raise_when (end_ <=? start) (SemanticError "source data range must be nonempty");;
  Ok (MkDataRange source_rank start end_).

Definition intersects (self other : DataRange) : bool :=
  (dr_source self =? dr_source other) &&
  (Z.max (dr_start self) (dr_start other) <? Z.min (dr_end self) (dr_end other)).

Definition reference_slice_ids (data : DataRange) (input_bytes reference_slice_bytes : Z)
    : res (list Z) :=
  nonnegative (PInt input_bytes) "input_bytes";;
  raise_when (input_bytes =? 0) (SemanticError "input_bytes must be positive");;
  nonnegative (PInt reference_slice_bytes) "reference_slice_bytes";;
  raise_when (reference_slice_bytes =? 0)
    (SemanticError "reference_slice_bytes must be positive");;
  raise_when (negb (input_bytes `mod` reference_slice_bytes =? 0)
              || (input_bytes <? dr_end data))
    (SemanticError "range is outside a legal reference partition");;
  let count := input_bytes / reference_slice_bytes in
  let first := dr_start data / reference_slice_bytes in
  let stop := (dr_end data - 1) / reference_slice_bytes + 1 in
  Ok ((λ index, dr_source data * count + index) <$> seqZ first (stop - first)).

Record EdgeBan : Type := MkEdgeBan {
  ban_data : DataRange;
  ban_src : Z;
  ban_dst : Z;
  ban_stage : Z;
  ban_original_stage : Z;
}.

Record ConstraintSet : Type := MkConstraintSet {
  cset_bans : list EdgeBan;
  cset_rank_count : Z;
  cset_fixed_stage_count : option Z;
}.

(** One ban applies to a transfer of [payload] over an edge at a stage. *)
Definition ban_hits (payload : list DataRange) (src dst stage : Z) (ban : EdgeBan) : bool :=
  (ban_src ban =? src) && (ban_dst ban =? dst) && (ban_stage ban =? stage) &&
  existsb (intersects (ban_data ban)) payload.

Definition allows (self : ConstraintSet) (contributors : list DataRange)
    (src_rank dst_rank stage_id : Z) : res bool :=
  nonnegative (PInt src_rank) "src_rank";;
  nonnegative (PInt dst_rank) "dst_rank";;
  nonnegative (PInt stage_id) "stage_id";;
  if (cset_rank_count self <=? src_rank) || (cset_rank_count self <=? dst_rank)
     || (src_rank =? dst_rank)
  then Ok false
  else if match cset_fixed_stage_count self with
          | Some fixed => fixed <=? stage_id
          | None => false
          end
  then Ok false
  else
    raise_when (bool_decide (contributors = []))
      (SemanticError "constraint check needs nonempty source ranges");;
    Ok (negb (existsb (ban_hits contributors src_rank dst_rank stage_id) (cset_bans self))).

(** [ConstraintSet.remap_stages(mapping, new_stage_count=...)]; [mapping] is a
    dictionary from old stages to the stages that replace them. *)
Definition remap_stages (self : ConstraintSet) (mapping : list (Z * list Z))
    (new_stage_count : Z) : res ConstraintSet :=
  nonnegative (PInt new_stage_count) "new_stage_count";;
  raise_when ((new_stage_count =? 0) ||
              match cset_fixed_stage_count self with
              | Some fixed => negb (fixed =? new_stage_count)
              | None => false
              end) (SemanticError "user-fixed stage count cannot change");;
  iterM (λ ban,
    raise_when match dict_get (ban_stage ban) mapping with
               | Some (_ :: _) => false
               | _ => true
               end (SemanticError "stage mapping does not cover a restricted logical stage"))
    (cset_bans self);;
  iterM (λ '(old, targets),
    nonnegative (PInt old) "old stage";;
    raise_when (bool_decide (targets = []) || negb (bool_decide (NoDup targets)))
      (SemanticError "stage mapping targets must be nonempty and unique");;
    iterM (λ target,
      nonnegative (PInt target) "target stage";;
      raise_when (new_stage_count <=? target)
        (SemanticError "stage mapping target is outside new stage count")) targets)
    mapping;;
  Ok (MkConstraintSet
        (ban ← cset_bans self;
         stage ← default [] (dict_get (ban_stage ban) mapping);
         [MkEdgeBan (ban_data ban) (ban_src ban) (ban_dst ban) stage
            (ban_original_stage ban)])
        (cset_rank_count self) (cset_fixed_stage_count self)).

(** [a or b] on optional integers: [None] and [0] are false. *)
Definition or_int (a b : option Z) : option Z :=
  match a with
  | Some z => if z =? 0 then b else a
  | None => b
  end.

Definition bind_constraints (inputs : ResolvedInput) : res ConstraintSet :=
  let hyper := ri_hyperparameters inputs in
  let items := forbidden_transfers (ri_atom_constraints inputs) in
  let reference := or_int (reference_slice_size_bytes hyper) (slice_size_bytes hyper) in
  raise_when (negb (bool_decide (items = [])) && bool_decide (reference = None))
    (SemanticError "reference slice size is required to bind hard constraints");;
  count ← match reference with
          | None => Ok 0
          | Some r =>
              raise_when (r =? 0) (ZeroDivisionError "integer division or modulo by zero");;
              Ok (total_size_bytes hyper / r)
          end;
  bans ← mapR (λ item,
    raise_when (count =? 0) (ZeroDivisionError "integer division or modulo by zero");;
    let rank := ft_slice_id item / count in
    let index := ft_slice_id item `mod` count in
    raise_when (ri_rank_count inputs <=? rank)
      (SemanticError "constraint source slice is outside the reference partition");;
    let r := default 0 reference in
    data ← DataRange_init rank (index * r) ((index + 1) * r);
    Ok (MkEdgeBan data (ft_src_rank item) (ft_dst_rank item)
          (ft_stage_id item) (ft_stage_id item))) items;
  Ok (MkConstraintSet bans (ri_rank_count inputs) (stage_num (ri_atom_constraints inputs))).

(** ** Ranges as sets of bytes *)

(** Byte [b] of rank [r]'s input lies in the range. *)
Definition covers_byte (d : DataRange) (r b : Z) : Prop :=
  dr_source d = r ∧ dr_start d ≤ b < dr_end d.

Lemma nonnegative_Ok v f z : nonnegative v f = Ok z ↔ v = PInt z ∧ 0 ≤ z.
Proof.
  destruct v; simpl; try (split; [done|naive_solver]).
  split.
  - intros H. inv_res. bool_prop. by subst.
  - intros [[= ->] ?]. by rewrite (proj2 (Z.ltb_ge _ _)).
Qed.

Lemma nonnegative_int z f : 0 ≤ z → nonnegative (PInt z) f = Ok z.
Proof. intros. by apply nonnegative_Ok. Qed.

Ltac inv_nonneg :=
  repeat match goal with
  | H : nonnegative _ _ = Ok _ |- _ => apply nonnegative_Ok in H; destruct H as [[= <-] ?]
  end.

Lemma DataRange_init_Ok r s e d :
  DataRange_init r s e = Ok d ↔ 0 ≤ r ∧ 0 ≤ s < e ∧ d = MkDataRange r s e.
Proof.
  unfold DataRange_init. split.
  - intros H. inv_res. inv_nonneg. bool_prop. subst. split_and!; done.
  - intros (? & ? & ->). rewrite !nonnegative_int by lia. simpl.
    by rewrite (proj2 (Z.leb_gt e s)) by lia.
Qed.

Lemma intersects_true d e :
  intersects d e = true ↔ ∃ r b, covers_byte d r b ∧ covers_byte e r b.
Proof.
  unfold intersects, covers_byte. rewrite andb_true_iff, Z.eqb_eq, Z.ltb_lt. split.
  - intros [? ?]. exists (dr_source d), (Z.max (dr_start d) (dr_start e)). lia.
  - intros (r & b & ? & ?). lia.
Qed.

Lemma existsb_elem {A} (f : A → bool) l :
  existsb f l = true ↔ ∃ x, x ∈ l ∧ f x = true.
Proof. rewrite existsb_exists. by setoid_rewrite list_elem_of_In. Qed.

Lemma ban_hits_true payload s d t ban :
  ban_hits payload s d t ban = true ↔
  ban_src ban = s ∧ ban_dst ban = d ∧ ban_stage ban = t ∧
  ∃ piece r b, piece ∈ payload ∧ covers_byte (ban_data ban) r b ∧ covers_byte piece r b.
Proof.
  unfold ban_hits. rewrite !andb_true_iff, !Z.eqb_eq, existsb_elem.
  setoid_rewrite intersects_true. naive_solver.
Qed.

(** Outside the group or beyond a fixed stage count nothing is admitted. *)
Definition edge_in_group (c : ConstraintSet) (s d t : Z) : Prop :=
  0 ≤ s < cset_rank_count c ∧ 0 ≤ d < cset_rank_count c ∧ s ≠ d ∧ 0 ≤ t ∧
  match cset_fixed_stage_count c with Some fixed => t < fixed | None => True end.

Lemma allows_bool c payload s d t b :
  allows c payload s d t = Ok b →
  b = true ↔ edge_in_group c s d t ∧ payload ≠ [] ∧
    ∀ ban, ban ∈ cset_bans c → ban_hits payload s d t ban = false.
Proof.
  unfold allows, edge_in_group. intros H. inv_res. inv_nonneg.
  destruct (_ || _) eqn:E1.
  { inv_res. subst. bool_prop. split; [done|]. intros ((?&?&?&_)&_). exfalso.
    destruct E1 as [E1|E1]; bool_prop; [|lia].
    destruct E1 as [E1|E1]; bool_prop; lia. }
  bool_prop. destruct (cset_fixed_stage_count c) as [fixed|].
  - destruct (Z.leb_spec fixed t).
    { inv_res. subst. split; [done|]. intros ((_&_&_&_&?)&_). lia. }
    inv_res. bool_prop. subst. rewrite negb_true_iff, existsb_none. naive_solver lia.
  - inv_res. bool_prop. subst. rewrite negb_true_iff, existsb_none. naive_solver lia.
Qed.

(** On an admissible edge with a payload the check always answers. *)
Lemma allows_total c payload s d t :
  0 ≤ s → 0 ≤ d → 0 ≤ t → payload ≠ [] → is_ok (allows c payload s d t) = true.
Proof.
  intros. unfold allows. rewrite !nonnegative_int by done. simpl.
  destruct (_ || _); [done|].
  destruct (cset_fixed_stage_count c) as [f|]; [destruct (f <=? t); [done|]|];
    by destruct payload.
Qed.

(** A check that answers on an admissible edge had a payload. *)
Lemma allows_payload c payload s d t b :
  allows c payload s d t = Ok b → edge_in_group c s d t → payload ≠ [].
Proof.
  unfold allows, edge_in_group. intros H (?&?&?&?&Hf). inv_res.
  rewrite (proj2 (Z.leb_gt _ s)), (proj2 (Z.leb_gt _ d)), (proj2 (Z.eqb_neq s d)) in * by lia.
  simpl in *. destruct (cset_fixed_stage_count c) as [f|].
  - rewrite (proj2 (Z.leb_gt f t)) in * by lia. inv_res. by bool_prop.
  - inv_res. by bool_prop.
Qed.

(** C24 The hard-constraint check is exact at the level of bytes.  When it
    answers, it admits a transfer exactly if both ranks are distinct members
    of the group, the stage exists, and no byte of the payload lies in a
    range banned on that directed edge at that stage. *)
Theorem allows_exact c payload s d t b :
  allows c payload s d t = Ok b →
  b = true ↔ edge_in_group c s d t ∧
    ∀ ban piece r x, ban ∈ cset_bans c → piece ∈ payload →
      ban_src ban = s → ban_dst ban = d → ban_stage ban = t →
      covers_byte (ban_data ban) r x → ¬ covers_byte piece r x.
Proof.
  intros H. pose proof (allows_payload _ _ _ _ _ _ H).
  rewrite (allows_bool _ _ _ _ _ _ H).
  setoid_rewrite <- not_true_iff_false. setoid_rewrite ban_hits_true. naive_solver.
Qed.

(** ** Reference slices *)

Lemma elem_of_reference_slice_ids data input_bytes ref ids s :
  reference_slice_ids data input_bytes ref = Ok ids →
  0 ≤ dr_start data < dr_end data →
  s ∈ ids ↔ ∃ x, covers_byte data (dr_source data) x ∧
                 s = dr_source data * (input_bytes / ref) + x / ref.
Proof.
  unfold reference_slice_ids, covers_byte. intros H Hd. inv_res. inv_nonneg. bool_prop. subst.
  rewrite list_elem_of_fmap. setoid_rewrite elem_of_seqZ. split.
  - intros (i & -> & Hi). assert (0 < ref) by lia.
    exists (Z.max (dr_start data) (i * ref)).
    pose proof (Z.mul_div_le (dr_start data) ref).
    pose proof (Z.mul_div_le (dr_end data - 1) ref).
    assert (i * ref ≤ dr_end data - 1) by nia.
    assert (dr_start data < (i + 1) * ref).
    { pose proof (Z.mul_succ_div_gt (dr_start data) ref). nia. }
    split; [lia|]. f_equal.
    apply Z.div_unique with (Z.max (dr_start data) (i * ref) - ref * i); lia.
  - intros (x & [_ Hx] & ->). exists (x / ref). split; [done|].
    assert (0 < ref) by lia.
    pose proof (Z.div_le_mono (dr_start data) x ref).
    pose proof (Z.div_le_mono x (dr_end data - 1) ref). lia.
Qed.

(** The bytes of one reference slice: those that divide to its index. *)
Lemma reference_range_bytes count ref s r x :
  0 < ref → 0 < count →
  covers_byte (MkDataRange (s / count) (s `mod` count * ref) ((s `mod` count + 1) * ref)) r x ↔
  r = s / count ∧ x / ref = s `mod` count.
Proof.
  intros Href Hc. unfold covers_byte; simpl. split.
  - intros [<- Hx]. split; [done|].
    symmetry. apply Z.div_unique with (x - ref * (s `mod` count)); lia.
  - intros [-> Hx]. split; [done|]. rewrite <- Hx.
    pose proof (Z.mul_div_le x ref). pose proof (Z.mul_succ_div_gt x ref). lia.
Qed.

(** ** Binding and remapping *)

Definition bound_reference (inputs : ResolvedInput) : Z :=
  default 0 (or_int (reference_slice_size_bytes (ri_hyperparameters inputs))
                    (slice_size_bytes (ri_hyperparameters inputs))).

(** The ban bound to one forbidden transfer. *)
Definition bound_ban (count ref : Z) (item : ForbiddenTransfer) (ban : EdgeBan) : Prop :=
  0 < count ∧ 0 < ref ∧ 0 ≤ ft_slice_id item ∧
  ban = MkEdgeBan (MkDataRange (ft_slice_id item / count)
                     (ft_slice_id item `mod` count * ref)
                     ((ft_slice_id item `mod` count + 1) * ref))
          (ft_src_rank item) (ft_dst_rank item) (ft_stage_id item) (ft_stage_id item).

Lemma bind_constraints_bans inputs cset :
  bind_constraints inputs = Ok cset →
  cset_rank_count cset = ri_rank_count inputs ∧
  cset_fixed_stage_count cset = stage_num (ri_atom_constraints inputs) ∧
  (total_size_bytes (ri_hyperparameters inputs) >= 0 →
   Forall2 (bound_ban (total_size_bytes (ri_hyperparameters inputs) / bound_reference inputs)
                      (bound_reference inputs))
    (forbidden_transfers (ri_atom_constraints inputs)) (cset_bans cset)).
Proof.
  unfold bind_constraints, bound_reference. intros H. inv_res. subst; simpl.
  split; [done|]. split; [done|]. intros Ht.
  match goal with H : mapR _ _ = Ok _ |- _ => apply mapR_Ok in H; rename H into Hb end.
  eapply Forall2_impl; [exact Hb|]. intros item ban Hi; simpl in Hi.
  inv_res. subst. bool_prop.
  match goal with H : DataRange_init _ _ _ = Ok _ |- _ =>
    apply DataRange_init_Ok in H as (Hr & Hd & ->) end.
  destruct (or_int _ _) as [ref|]; inv_res; bool_prop; subst; simpl in *; [|lia].
  assert (0 < ref) by nia.
  assert (0 ≤ total_size_bytes (ri_hyperparameters inputs) / ref) by (apply Z.div_pos; lia).
  assert (0 < total_size_bytes (ri_hyperparameters inputs) / ref) by lia.
  unfold bound_ban. split_and!; try done.
  pose proof (Z.mul_div_le (ft_slice_id item)
    (total_size_bytes (ri_hyperparameters inputs) / ref)). nia.
Qed.

(** C25 Binding attaches every hard constraint to original bytes.  A byte [x] of
    rank [r] is banned on an edge at a stage by the bound set exactly if the
    request forbids there the reference slice that contains the byte; the
    slice size of the schedule under check plays no part. *)
Theorem bind_constraints_bytes inputs cset s d t r x :
  bind_constraints inputs = Ok cset →
  0 ≤ total_size_bytes (ri_hyperparameters inputs) →
  let ref := bound_reference inputs in
  let count := total_size_bytes (ri_hyperparameters inputs) / ref in
  (∃ ban, ban ∈ cset_bans cset ∧ ban_src ban = s ∧ ban_dst ban = d ∧ ban_stage ban = t ∧
          covers_byte (ban_data ban) r x) ↔
  (∃ item, item ∈ forbidden_transfers (ri_atom_constraints inputs) ∧
           ft_src_rank item = s ∧ ft_dst_rank item = d ∧ ft_stage_id item = t ∧
           0 ≤ x < count * ref ∧ ft_slice_id item = r * count + x / ref).
Proof.
  intros H Ht ref count. apply bind_constraints_bans in H as (_ & _ & Hb).
  specialize (Hb ltac:(lia)). fold ref count in Hb.
  assert (Hx : ∀ item ban, bound_ban count ref item ban →
    covers_byte (ban_data ban) r x ↔
    0 ≤ x < count * ref ∧ ft_slice_id item = r * count + x / ref).
  { intros item ban (Hc & Hr & Hi & ->). simpl.
    rewrite (reference_range_bytes count ref) by done.
    destruct (slice_split (ft_slice_id item) count Hc) as [Es Em]. split.
    - intros [-> Ed]. rewrite Ed, <- Es. split; [|done].
      pose proof (Z.mul_div_le x ref). pose proof (Z.mul_succ_div_gt x ref). nia.
    - intros [Hx ->]. assert (0 ≤ x / ref < count).
      { split; [apply Z.div_pos; lia|apply Z.div_lt_upper_bound; lia]. }
      by rewrite slice_div, slice_mod. }
  clearbody ref count. split.
  - intros (ban & Hin & <- & <- & <- & Hcov).
    apply list_elem_of_lookup in Hin as [i Hi].
    destruct (Forall2_lookup_r _ _ _ _ _ Hb Hi) as (item & Hitem & Hbd).
    exists item. split; [by eapply list_elem_of_lookup_2|].
    pose proof Hbd as (_ & _ & _ & ->). rewrite <- (Hx _ _ Hbd). done.
  - intros (item & Hin & <- & <- & <- & Hcov).
    apply list_elem_of_lookup in Hin as [i Hi].
    destruct (Forall2_lookup_l _ _ _ _ _ Hb Hi) as (ban & Hban & Hbd).
    exists ban. split; [by eapply list_elem_of_lookup_2|].
    rewrite (Hx _ _ Hbd). pose proof Hbd as (_ & _ & _ & ->). done.
Qed.

(** C26 Carrying bans through a stage correspondence keeps exactly the bans of
    each old stage on every stage that replaces it: the remapped set refuses
    a payload on an edge at stage [t] if and only if some old ban refuses it
    at a stage mapped to [t]; group, stage count and admissibility of the
    new stages are kept. *)
Theorem remap_stages_exact c mapping k c' :
  remap_stages c mapping k = Ok c' →
  cset_rank_count c' = cset_rank_count c ∧
  cset_fixed_stage_count c' = cset_fixed_stage_count c ∧
  (∀ payload s d t,
    (∃ ban, ban ∈ cset_bans c' ∧ ban_hits payload s d t ban = true) ↔
    (∃ ban targets, ban ∈ cset_bans c ∧ dict_get (ban_stage ban) mapping = Some targets ∧
       t ∈ targets ∧ ban_hits payload s d (ban_stage ban) ban = true)) ∧
  (∀ ban, ban ∈ cset_bans c → ∃ ban', ban' ∈ cset_bans c' ∧
     ban_data ban' = ban_data ban ∧ 0 ≤ ban_stage ban' < k).
Proof.
  unfold remap_stages. intros H. inv_res. subst; simpl.
  repeat match goal with H : iterM _ _ = Ok _ |- _ => apply iterM_Ok in H end.
  split; [done|]. split; [done|].
  match goal with H : Forall _ (cset_bans c) |- _ => rename H into Hcov end.
  match goal with H : Forall _ mapping |- _ => rename H into Hmap end.
  rewrite Forall_forall in Hcov. rewrite Forall_forall in Hmap. split.
  - intros payload s d t. setoid_rewrite list_elem_of_bind.
    setoid_rewrite list_elem_of_bind. split.
    + intros (ban' & (ban & (st & Hb & Hst) & Hin) & Hhit).
      apply list_elem_of_singleton in Hb as ->.
      destruct (dict_get (ban_stage ban) mapping) as [ts|] eqn:E; simpl in Hst.
      * exists ban, ts. apply ban_hits_true in Hhit as (<- & <- & <- & Hx). simpl in *.
        split_and!; try done. by apply ban_hits_true.
      * by apply elem_of_nil in Hst.
    + intros (ban & ts & Hin & E & Hst & Hhit).
      exists (MkEdgeBan (ban_data ban) (ban_src ban) (ban_dst ban) t (ban_original_stage ban)).
      split.
      * exists ban. split; [|done]. exists t. rewrite E. split; [by left|done].
      * apply ban_hits_true in Hhit as (<- & <- & _ & Hx). by apply ban_hits_true.
  - intros ban Hin. specialize (Hcov _ Hin). apply raise_when_Ok in Hcov.
    destruct (dict_get (ban_stage ban) mapping) as [[|t ts]|] eqn:E; try done.
    exists (MkEdgeBan (ban_data ban) (ban_src ban) (ban_dst ban) t (ban_original_stage ban)).
    split; [|split; [done|]].
    + apply list_elem_of_bind. exists ban. split; [|done].
      apply list_elem_of_bind. exists t. rewrite E. split; by left.
    + apply dict_get_Some_1, Hmap in E. inv_res.
      match goal with H : iterM _ _ = Ok _ |- _ => apply iterM_Ok in H end.
      match goal with H : Forall _ (t :: ts) |- _ => apply Forall_cons in H as [Ht _] end.
      inv_res. inv_nonneg. bool_prop. simpl. lia.
Qed.

(** ** Concrete inputs *)

Definition demo_inputs : ResolvedInput :=
  MkResolvedInput (MkCollectiveSpec BROADCAST "float" None (PInt 0) false)
    (MkHyperparameters 8 (Some 4) LATENCY None) (MkSolverConfig 8)
    (MkAtomConstraints (Some 2) [MkForbiddenTransfer 1 0 1 0]) 2 PNone PNone.

Lemma allows_exact_witness :
  ∃ c, bind_constraints demo_inputs = Ok c ∧
    allows c [MkDataRange 0 3 5] 0 1 0 = Ok false ∧
    ¬ (∀ ban piece r x, ban ∈ cset_bans c → piece ∈ [MkDataRange 0 3 5] →
        ban_src ban = 0 → ban_dst ban = 1 → ban_stage ban = 0 →
        covers_byte (ban_data ban) r x → ¬ covers_byte piece r x).
Proof.
  eexists. split; [reflexivity|]. split; [reflexivity|]. intros H.
  pose proof (proj2 (allows_exact _ [MkDataRange 0 3 5] 0 1 0 false
    (eq_refl : allows (MkConstraintSet [MkEdgeBan (MkDataRange 0 4 8) 0 1 0 0] 2 (Some 2))
                 [MkDataRange 0 3 5] 0 1 0 = Ok false))) as Hx.
  discriminate Hx. split; [|exact H]. vm_compute. repeat split; congruence.
Defined.

Lemma bind_constraints_bytes_witness :
  ∃ c, bind_constraints demo_inputs = Ok c ∧
    ∃ ban, ban ∈ cset_bans c ∧ ban_src ban = 0 ∧ ban_dst ban = 1 ∧ ban_stage ban = 0 ∧
           covers_byte (ban_data ban) 0 6.
Proof.
  eexists. split; [reflexivity|].
  apply (bind_constraints_bytes demo_inputs _ 0 1 0 0 6 eq_refl); [simpl; lia|].
  exists (MkForbiddenTransfer 1 0 1 0). split; [by left|]. by vm_compute.
Defined.

Lemma remap_stages_exact_witness :
  ∃ c c', c = MkConstraintSet [MkEdgeBan (MkDataRange 0 4 8) 0 1 0 0] 2 None ∧
    remap_stages c [(0, [1; 2])] 3 = Ok c' ∧
    ∃ ban, ban ∈ cset_bans c' ∧ ban_hits [MkDataRange 0 6 7] 0 1 2 ban = true.
Proof.
  eexists _, _. split; [reflexivity|]. split; [reflexivity|].
  destruct (remap_stages_exact (MkConstraintSet [MkEdgeBan (MkDataRange 0 4 8) 0 1 0 0] 2 None)
    [(0, [1; 2])] 3 _ eq_refl) as (_ & _ & H & _).
  apply H. exists (MkEdgeBan (MkDataRange 0 4 8) 0 1 0 0), [1; 2].
  split; [by left|]. split; [reflexivity|]. split; [right; by left|reflexivity].
Defined.
