(* ===== verification/Versions.v ===== *)
(** * State versions and their storage ([vericcl/semantics/versions.py])

    [StateVersion] is a logical payload at a storage region; [VersionLedger]
    records which versions are valid, who reads them until when, and how much
    scratch memory is live.  An operation that raises leaves no ledger: the
    code performs every check before the first assignment. *)

From S2P Require Import Prelude.
From S2P Require Import Python.
From S2P Require Import Ranges.
Local Open Scope Z_scope.

Definition _time (value : pyval) : res Z :=
  let error := Err (SemanticError "time must be finite and nonnegative") in
  match value with
  | PInt z => if z <? 0 then error else float_of_int z
  | PFloat (Finite t) => if t <? 0 then error else Ok t
  | _ => error
  end.

(** The exact value of a number that [_time] accepts, before [float(...)]. *)
Definition exact_time (value : pyval) : Z :=
  match value with PInt z => z * one_us | PFloat (Finite t) => t | _ => 0 end.

Record BufferRegion : Type := MkBufferRegion {
  br_rank : Z;
  br_buffer : string;
  br_offset : Z;
  br_size : Z;
  br_kind : string;
}.

#[export] Instance BufferRegion_eq_dec : EqDecision BufferRegion.
Proof. solve_decision. Defined.

Definition BufferRegion_init (rank : Z) (buffer_id : string) (offset size : Z) (kind : string)
    : res BufferRegion :=
  nonnegative (PInt rank) "rank";;
  nonnegative (PInt offset) "offset";;
  nonnegative (PInt size) "size";;
  raise_when ((size =? 0) || bool_decide (buffer_id = EmptyString))
    (SemanticError "buffer region needs an identity and positive size");;
  raise_when (negb (bool_decide (kind ∈ ["data"; "input"; "output"; "scratch"])))
    (SemanticError "invalid buffer storage kind");;
  Ok (MkBufferRegion rank buffer_id offset size kind).

Definition br_key (r : BufferRegion) : Z * string := (br_rank r, br_buffer r).

Definition overlaps (self other : BufferRegion) : bool :=
  bool_decide (br_key self = br_key other) &&
  (Z.max (br_offset self) (br_offset other) <?
   Z.min (br_offset self + br_size self) (br_offset other + br_size other)).

Record StateVersion : Type := MkStateVersion {
  sv_id : string;
  sv_rank : Z;
  sv_start : Z;
  sv_end : Z;
  sv_contributors : list DataRange;
  sv_storage : BufferRegion;
  sv_ready : Z;
}.

(** One source of [StateVersion.__post_init__]: its pieces, in order, must
    tile the logical range. *)
Definition check_source_cover (logical_start logical_end source : Z) (pieces : list DataRange)
    : res DataRange :=
  cursor ← foldM (λ cursor piece,
      raise_when (negb (dr_start piece =? cursor) || (logical_end <? dr_end piece))
        (SemanticError "contribution has a duplicate, gap or different logical range");;
      Ok (dr_end piece))
    logical_start
    (sorted_by dr_key (filter (λ p, dr_source p = source) pieces));
  raise_when (negb (cursor =? logical_end))
    (SemanticError "contribution does not cover the full logical range");;
  DataRange_init source logical_start logical_end.

(** The source ranks of some pieces, ascending: [sorted({p.source_rank ...})]. *)
Definition source_ranks (pieces : list DataRange) : list Z :=
  sorted_by id (remove_dups (dr_source <$> pieces)).

Definition StateVersion_init (state_id : string) (rank logical_start logical_end : Z)
    (contributors : list DataRange) (storage : BufferRegion) (ready_us : pyval)
    : res StateVersion :=
  raise_when (bool_decide (state_id = EmptyString))
    (SemanticError "state version needs a nonempty identity");;
  nonnegative (PInt rank) "rank";;
  nonnegative (PInt logical_start) "logical_start";;
  nonnegative (PInt logical_end) "logical_end";;
  raise_when (logical_end <=? logical_start) (SemanticError "logical range must be nonempty");;
  raise_when (negb (br_rank storage =? rank) ||
              negb (br_size storage =? logical_end - logical_start))
    (SemanticError "state storage and logical payload sizes must agree");;
  raise_when (bool_decide (contributors = []))
    (SemanticError "state needs source contribution ranges");;
  canonical ← mapR (λ source,
      check_source_cover logical_start logical_end source contributors)
    (source_ranks contributors);
  ready ← _time ready_us;
  Ok (MkStateVersion state_id rank logical_start logical_end canonical storage ready).

(** ** The ledger *)

(** Keys of [self._readers]: [("external", id)] and [("operation", id, i)]. *)
Inductive reader_key : Type :=
  | External (reader_id : string)
  | Operation (state_id : string) (index : nat).

#[export] Instance reader_key_eq_dec : EqDecision reader_key.
Proof. solve_decision. Defined.
#[export] Program Instance reader_key_countable : Countable reader_key :=
  inj_countable'
    (λ k, match k with External s => inl s | Operation s i => inr (s, i) end)
    (λ c, match c with inl s => External s | inr (s, i) => Operation s i end) _.
Next Obligation. by intros []. Qed.

Record VersionLedger : Type := MkVersionLedger {
  scratch_budgets : gmap Z Z;
  vl_states : gmap string StateVersion;
  vl_active : gset string;
  vl_readers : gmap reader_key (string * Z);
  vl_buffer_kinds : gmap (Z * string) string;
  vl_regions : gmap (Z * string) (list (Z * string));
  vl_reader_end : gmap string Z;
  vl_scratch_live : gmap Z Z;
}.

Definition VersionLedger_init (budgets : list (Z * Z)) : res VersionLedger :=
  iterM (λ '(rank, budget),
    nonnegative (PInt rank) "scratch rank";;
    nonnegative (PInt budget) "scratch budget";; Ok tt) budgets;;
  Ok (MkVersionLedger (list_to_map budgets) ∅ ∅ ∅ ∅ ∅ ∅ ∅).

(** [VersionLedger.states]: every version ever stored, by identity. *)
Definition states (self : VersionLedger) : list StateVersion :=
  snd <$> sorted_by fst (map_to_list (vl_states self)).

Definition state (self : VersionLedger) (state_id : string) : res StateVersion :=
  of_option (vl_states self !! state_id)
    (SemanticError ("unknown state version: " +:+ state_id)).

Definition is_active (self : VersionLedger) (state_id : string) : bool :=
  bool_decide (state_id ∈ vl_active self).

Definition readable (self : VersionLedger) (state_id : string) (at_us : pyval)
    : res StateVersion :=
  s ← state self state_id;
  raise_when (negb (is_active self state_id))
    (SemanticError ("state version is no longer valid: " +:+ state_id));;
  t ← _time at_us;
  raise_when (t <? sv_ready s)
    (SemanticError ("state is read before it is ready: " +:+ state_id));;
  Ok s.

(** Records a reader and moves the end of reading of its state. *)
Definition add_reader (self : VersionLedger) (k : reader_key) (state_id : string) (end_us : Z)
    : VersionLedger :=
  MkVersionLedger (scratch_budgets self) (vl_states self) (vl_active self)
    (<[k := (state_id, end_us)]> (vl_readers self)) (vl_buffer_kinds self)
    (vl_regions self)
    (<[state_id := Z.max (default 0 (vl_reader_end self !! state_id)) end_us]>
       (vl_reader_end self))
    (vl_scratch_live self).

Definition reserve_read (self : VersionLedger) (state_id reader_id : string)
    (start_us end_us : pyval) : res VersionLedger :=
  readable self state_id start_us;;
  e ← _time end_us;
  s ← _time start_us;
  raise_when (e <? s) (SemanticError "reader ends before it starts");;
  raise_when (bool_decide (reader_id = EmptyString) ||
              bool_decide (is_Some (vl_readers self !! External reader_id)))
    (SemanticError "reader identity must be nonempty and unique");;
  Ok (add_reader self (External reader_id) state_id e).

Definition _no_readers_after (self : VersionLedger) (state_id : string) (at_us : Z) : res unit :=
  raise_when (at_us <? default 0 (vl_reader_end self !! state_id))
    (SemanticError ("state has an unfinished reader: " +:+ state_id)).

(** [self._states[key]], where the key is expected to be present. *)
Definition state_of (self : VersionLedger) (state_id : string) : res StateVersion :=
  of_option (vl_states self !! state_id) (KeyError state_id).

Definition _overlapping (self : VersionLedger) (region : BufferRegion) : res (gset string) :=
  let entries := default [] (vl_regions self !! br_key region) in
  let first := bisect_left entries (br_offset region, EmptyString) in
  first ← match first with
          | O => Ok O
          | S previous =>
              entry ← of_option (entries !! previous) (IndexError "list index out of range");
              s ← state_of self entry.2;
              Ok (if br_offset region <? br_offset (sv_storage s) + br_size (sv_storage s)
                  then previous else first)
          end;
  let last := bisect_left entries (br_offset region + br_size region, EmptyString) in
  Ok (list_to_set (list_slice first last entries).*2).

Definition _remove_active (self : VersionLedger) (state_id : string) : res VersionLedger :=
  s ← state_of self state_id;
  let region := sv_storage s in
  entries ← of_option (vl_regions self !! br_key region) (KeyError (br_buffer region));
  entries' ← list_pop (bisect_left entries (br_offset region, state_id)) entries;
  raise_when (negb (is_active self state_id)) (KeyError state_id);;
  live ← (if bool_decide (br_kind region = "scratch"%string) then
            v ← of_option (vl_scratch_live self !! br_rank region) (KeyError "scratch");
            Ok (<[br_rank region := v - br_size region]> (vl_scratch_live self))
          else Ok (vl_scratch_live self));
  Ok (MkVersionLedger (scratch_budgets self) (vl_states self)
        (vl_active self ∖ {[state_id]}) (vl_readers self) (vl_buffer_kinds self)
        (<[br_key region := entries']> (vl_regions self)) (vl_reader_end self) live).

(** The checks of [_store], in order: the versions read and those whose
    storage the write replaces. *)
Definition store_checks (self : VersionLedger) (st : StateVersion) (start_us end_us : Z)
    (read_ids : list string) (initial : bool) : res (list StateVersion * gset string) :=
  raise_when ((end_us <? start_us) || negb (sv_ready st =? end_us))
    (SemanticError "write interval and output ready time must agree");;
  raise_when (bool_decide (is_Some (vl_states self !! sv_id st)))
    (SemanticError "state version identity already exists");;
  reads ← mapR (λ key, readable self key (PFloat (Finite start_us))) read_ids;
  let region := sv_storage st in
  raise_when match vl_buffer_kinds self !! br_key region with
             | Some kind => negb (bool_decide (kind = br_kind region))
             | None => false
             end (SemanticError "buffer alias cannot change its storage kind");;
  iterM (λ value,
    raise_when (overlaps region (sv_storage value) &&
                negb (bool_decide (region = sv_storage value)))
      (SemanticError "partial overlap with a read input requires separate storage")) reads;;
  overwritten ← _overlapping self region;
  raise_when (initial && negb (bool_decide (overwritten = ∅)))
    (SemanticError "initial states overlap storage");;
  iterM (λ key,
    s ← state_of self key;
    raise_when (start_us <? sv_ready s)
      (SemanticError ("buffer still has an unfinished write: " +:+ key));;
    _no_readers_after self key start_us) (elements overwritten);;
  (if bool_decide (br_kind region = "scratch"%string) then
     sizes ← mapR (λ key, s ← state_of self key; Ok (br_size (sv_storage s)))
               (elements overwritten);
     let live := default 0 (vl_scratch_live self !! br_rank region) - zsum sizes in
     raise_when match scratch_budgets self !! br_rank region with
                | Some budget => budget <? live + br_size region
                | None => true
                end (SemanticError "scratch storage budget exceeded")
   else Ok tt);;
  Ok (reads, overwritten).

(** The end of the commit: the new version becomes active. *)
Definition insert_active (self : VersionLedger) (st : StateVersion) : VersionLedger :=
  let region := sv_storage st in
  let entries := default [] (vl_regions self !! br_key region) in
  let entry := (br_offset region, sv_id st) in
  MkVersionLedger (scratch_budgets self)
    (<[sv_id st := st]> (vl_states self)) ({[sv_id st]} ∪ vl_active self)
    (vl_readers self)
    (<[br_key region := br_kind region]> (vl_buffer_kinds self))
    (<[br_key region := list_insert_at (bisect_left entries entry) entry entries]>
       (vl_regions self))
    (vl_reader_end self)
    (if bool_decide (br_kind region = "scratch"%string) then
       <[br_rank region := default 0 (vl_scratch_live self !! br_rank region)
                           + br_size region]> (vl_scratch_live self)
     else vl_scratch_live self).

(** Registers the versions an operation reads, [enumerate(reads)]. *)
Fixpoint add_operation_readers (self : VersionLedger) (output : string) (index : nat)
    (reads : list StateVersion) (end_us : Z) : VersionLedger :=
  match reads with
  | [] => self
  | value :: reads =>
      add_operation_readers
        (add_reader self (Operation output index) (sv_id value) end_us)
        output (S index) reads end_us
  end.

Definition _store (self : VersionLedger) (st : StateVersion) (start_us end_us : pyval)
    (read_ids : list string) (initial : bool) : res (VersionLedger * StateVersion) :=
  s ← _time start_us;
  e ← _time end_us;
  '(reads, overwritten) ← store_checks self st s e read_ids initial;
  let self := add_operation_readers self (sv_id st) 0 reads e in
  self ← foldM _remove_active self (elements overwritten);
  Ok (insert_active self st, st).

Definition add_initial (self : VersionLedger) (st : StateVersion)
    : res (VersionLedger * StateVersion) :=
  _store self st (PFloat (Finite (sv_ready st))) (PFloat (Finite (sv_ready st))) [] true.

Definition copy (self : VersionLedger) (source_id state_id : string)
    (destination : BufferRegion) (start_us end_us : pyval)
    : res (VersionLedger * StateVersion) :=
  source ← readable self source_id start_us;
  result ← StateVersion_init state_id (br_rank destination) (sv_start source) (sv_end source)
             (sv_contributors source) destination end_us;
  _store self result start_us end_us [source_id] false.

Definition reduce (self : VersionLedger) (left_id right_id state_id : string)
    (destination : BufferRegion) (start_us end_us : pyval)
    : res (VersionLedger * StateVersion) :=
  left ← readable self left_id start_us;
  right ← readable self right_id start_us;
  raise_when (negb ((sv_start left =? sv_start right) && (sv_end left =? sv_end right)))
    (SemanticError "reduction inputs must have the same logical range");;
  raise_when (existsb (λ p, bool_decide (dr_source p ∈ dr_source <$> sv_contributors right))
                (sv_contributors left))
    (SemanticError "reduction contribution is counted more than once");;
  raise_when (negb (bool_decide (br_rank destination ∈ [sv_rank left; sv_rank right])))
    (SemanticError "reduction destination must own an input");;
  result ← StateVersion_init state_id (br_rank destination) (sv_start left) (sv_end left)
             (sv_contributors left ++ sv_contributors right) destination end_us;
  _store self result start_us end_us [left_id; right_id] false.

Definition release (self : VersionLedger) (state_id : string) (at_us : pyval)
    : res VersionLedger :=
  readable self state_id at_us;;
  _no_readers_after self state_id (exact_time at_us);;
  _remove_active self state_id.
