(* ===== verification/LedgerInvariant.v ===== *)
(** * The invariant of the version ledger

    [ledger_wf] ties the ledger's redundant indexes (per-buffer entry lists,
    live scratch counters, buffer kinds, reader ends) to the set of active
    versions.  Every operation of [Versions] preserves it, and under it the
    bisection-based overlap query is exactly the scan of all active versions. *)

From S2P Require Import Prelude.
From S2P Require Import Python.
From S2P Require Import Ranges.
From S2P Require Import Versions.
Local Open Scope Z_scope.

(** ** Well-formed versions *)

(** A version as its constructor leaves it: one full-range contribution per
    source rank, ascending, in storage of the payload's size. *)
Record version_wf (s : StateVersion) : Prop := {
  vw_id : sv_id s ≠ EmptyString;
  vw_range : 0 ≤ sv_start s < sv_end s;
  vw_rank : br_rank (sv_storage s) = sv_rank s;
  vw_size : br_size (sv_storage s) = sv_end s - sv_start s;
  vw_ready : 0 ≤ sv_ready s;
  vw_contributors : ∃ sources, sources ≠ [] ∧ StronglySorted Z.lt sources ∧
    Forall (Z.le 0) sources ∧
    sv_contributors s = (λ r, MkDataRange r (sv_start s) (sv_end s)) <$> sources;
}.

(** The source ranks whose data a version combines. *)
Definition sources_of (s : StateVersion) : gset Z :=
  list_to_set (dr_source <$> sv_contributors s).

Lemma version_time_Ok v t : _time v = Ok t → 0 ≤ t.
Proof.
  unfold _time. destruct v as [z| |[x| | |]| | | | |]; try done.
  - destruct (Z.ltb_spec z 0); [done|]. unfold float_of_int.
    assert (0 < one_us) by (unfold one_us; apply Z.pow_pos_nonneg; lia).
    assert (Hs : ∀ a b, 0 ≤ a → 0 ≤ Z.shiftl a b) by (intros; by apply Z.shiftl_nonneg).
    destruct (_ <=? 53); [intros [= <-]; nia|]. cbv zeta.
    destruct (2 ^ 1024 <=? _); [done|]. intros [= <-].
    assert (0 ≤ Z.sgn z) by (destruct z; simpl; lia).
    apply Z.mul_nonneg_nonneg; [|lia]. apply Z.mul_nonneg_nonneg; [done|].
    apply Hs. assert (0 ≤ Z.shiftr (Z.abs z) (Z.log2 (Z.abs z) + 1 - 53))
      by (apply Z.shiftr_nonneg; lia).
    destruct (_ || _); lia.
  - destruct (Z.ltb_spec x 0); [done|]. by intros [= <-].
Qed.

Lemma StronglySorted_lt_of_le (l : list Z) :
  StronglySorted (key_le id) l → NoDup l → StronglySorted Z.lt l.
Proof.
  induction 1 as [|x l Hl IH Hx]; intros Hd; [constructor|].
  apply NoDup_cons in Hd as [Hn Hd]. constructor; [by apply IH|].
  rewrite Forall_forall in Hx |- *. intros y Hy. specialize (Hx y Hy).
  unfold key_le, pleb in Hx. simpl in Hx.
  destruct (Z.compare_spec x y); subst; try done.
Qed.

Lemma source_ranks_spec pieces :
  StronglySorted Z.lt (source_ranks pieces) ∧
  ∀ r, r ∈ source_ranks pieces ↔ ∃ p, p ∈ pieces ∧ dr_source p = r.
Proof.
  unfold source_ranks. split.
  - apply StronglySorted_lt_of_le; [apply sorted_by_sorted|].
    apply NoDup_sorted_by, NoDup_remove_dups.
  - intros r. rewrite elem_of_sorted_by, elem_of_remove_dups, list_elem_of_fmap. naive_solver.
Qed.

Lemma check_source_cover_Ok ls le source pieces d :
  check_source_cover ls le source pieces = Ok d →
  0 ≤ source ∧ d = MkDataRange source ls le.
Proof.
  unfold check_source_cover. intros H. inv_res.
  match goal with H : DataRange_init _ _ _ = Ok _ |- _ =>
    apply DataRange_init_Ok in H as (? & ? & ->) end. done.
Qed.

Lemma StateVersion_init_wf id rank ls le pieces storage ready s :
  StateVersion_init id rank ls le pieces storage ready = Ok s →
  version_wf s ∧ sv_id s = id ∧ sv_rank s = rank ∧ sv_start s = ls ∧ sv_end s = le ∧
  sv_storage s = storage ∧ _time ready = Ok (sv_ready s) ∧
  sources_of s = list_to_set (dr_source <$> pieces).
Proof.
  unfold StateVersion_init. intros H. inv_res. inv_nonneg. bool_prop. subst; simpl.
  match goal with H : mapR _ _ = Ok ?c |- _ => apply mapR_Ok in H; rename H into Hc; rename c into canon end.
  destruct (source_ranks_spec pieces) as [Hs Hin].
  assert (Hcan : canon = (λ r, MkDataRange r ls le) <$> source_ranks pieces
                 ∧ Forall (Z.le 0) (source_ranks pieces)).
  { clear -Hc. induction Hc as [|r d rs ds Hd _ [-> IH]]; [done|].
    apply check_source_cover_Ok in Hd as [? ->]. by split; [|constructor]. }
  destruct Hcan as [-> Hpos].
  split; [|split_and!; try done].
  - constructor; simpl; try done. all: [> by eapply version_time_Ok|].
    exists (source_ranks pieces). split_and!; try done.
    destruct pieces as [|p pieces]; [done|]. intros E.
    apply (not_elem_of_nil (dr_source p)). rewrite <- E. apply Hin.
    exists p. split; [by left|done].
  - unfold sources_of; simpl. apply set_eq. intros r.
    rewrite !elem_of_list_to_set, <- list_fmap_compose. simpl.
    rewrite !list_elem_of_fmap. split.
    + intros (r' & -> & Hr). apply Hin in Hr as (p & ? & <-). by exists p.
    + intros (p & -> & Hp). exists (dr_source p). split; [done|]. apply Hin. by exists p.
Qed.

(** ** The invariant *)

Definition entries_of (l : VersionLedger) (k : Z * string) : list (Z * string) :=
  default [] (vl_regions l !! k).

(** The active versions stored in buffer [k]. *)
Definition stored_in (l : VersionLedger) (k : Z * string) (id : string) (s : StateVersion)
    : Prop :=
  id ∈ vl_active l ∧ vl_states l !! id = Some s ∧ br_key (sv_storage s) = k.

Definition entry_end (l : VersionLedger) (e : Z * string) : Z :=
  match vl_states l !! e.2 with
  | Some s => e.1 + br_size (sv_storage s)
  | None => e.1
  end.

(** One entry ends before the next begins. *)
Definition before (l : VersionLedger) (a b : Z * string) : Prop :=
  a.1 < entry_end l a ∧ entry_end l a ≤ b.1.

Definition scratch_size (l : VersionLedger) (rank : Z) (id : string) : Z :=
  match vl_states l !! id with
  | Some s =>
      if bool_decide (br_kind (sv_storage s) = "scratch"%string
                      ∧ br_rank (sv_storage s) = rank)
      then br_size (sv_storage s) else 0
  | None => 0
  end.

(** The scratch bytes of [rank] that active versions occupy. *)
Definition scratch_used (l : VersionLedger) (rank : Z) : Z :=
  zsum (scratch_size l rank <$> elements (vl_active l)).

(** The part of the invariant that a commit keeps while it removes the
    overwritten versions one by one. *)
Record ledger_wf (l : VersionLedger) : Prop := {
  lw_states id s : vl_states l !! id = Some s → sv_id s = id ∧ version_wf s;
  lw_active id : id ∈ vl_active l → is_Some (vl_states l !! id);
  lw_entries k o id :
    (o, id) ∈ entries_of l k ↔ ∃ s, stored_in l k id s ∧ br_offset (sv_storage s) = o;
  lw_packed k : StronglySorted (before l) (entries_of l k);
  lw_kinds id s k :
    stored_in l k id s → vl_buffer_kinds l !! k = Some (br_kind (sv_storage s));
  lw_live r : default 0 (vl_scratch_live l !! r) = scratch_used l r;
  lw_live_key id s k :
    stored_in l k id s → br_kind (sv_storage s) = "scratch"%string →
    is_Some (vl_scratch_live l !! k.1);
  lw_budget r :
    0 < scratch_used l r → ∃ b, scratch_budgets l !! r = Some b ∧ scratch_used l r ≤ b;
  lw_readers k id e :
    vl_readers l !! k = Some (id, e) → e ≤ default 0 (vl_reader_end l !! id);
}.

Lemma version_size_pos s : version_wf s → 0 < br_size (sv_storage s).
Proof. intros [? Hr ? Hs ??]. lia. Qed.

Section entries.
Context (l : VersionLedger) (Hl : ledger_wf l) (k : Z * string).

Lemma entry_state e :
  e ∈ entries_of l k → ∃ s, stored_in l k e.2 s ∧ br_offset (sv_storage s) = e.1 ∧
    entry_end l e = e.1 + br_size (sv_storage s) ∧ 0 < br_size (sv_storage s).
Proof.
  destruct e as [o id]. intros He. apply (lw_entries l Hl) in He as (s & Hs & Ho).
  exists s. destruct Hs as (Hact & Hst & Hk) eqn:E. split; [done|]. split; [done|].
  unfold entry_end; simpl. rewrite Hst. split; [done|].
  apply version_size_pos. by eapply lw_states.
Qed.

(** In a packed list a threshold on offsets splits the entries. *)
Lemma entries_split (es : list (Z * string)) (p : Z * string → bool) :
  StronglySorted (before l) es →
  (∀ a b, before l a b → p b = true → p a = true) →
  ∃ l1 l2, es = l1 ++ l2 ∧ Forall (λ e, p e = true) l1 ∧ Forall (λ e, p e = false) l2.
Proof.
  intros Hs Hp. induction Hs as [|e es Hs (l1 & l2 & -> & H1 & H2) He].
  { by exists [], []. }
  destruct (p e) eqn:E.
  - exists (e :: l1), l2. by split_and!; [|constructor|].
  - exists [], (e :: l1 ++ l2). split_and!; [done..|].
    constructor; [done|]. rewrite Forall_forall in He |- *. intros f Hf.
    destruct (p f) eqn:F; [|done]. rewrite (Hp _ _ (He _ Hf) F) in E. done.
Qed.
End entries.

Lemma pltb_entry_lt (a o : Z) (i j : string) : a < o → pltb (a, i) (o, j) = true.
Proof. intros H. by rewrite pltb_pair, pltb_Z, (proj2 (Z.ltb_lt a o) H). Qed.

Lemma pltb_entry_gt (a o : Z) (i j : string) : o < a → pltb (a, i) (o, j) = false.
Proof.
  intros H. rewrite pltb_pair. rewrite pltb_Z, (proj2 (Z.ltb_ge a o)) by lia. simpl.
  rewrite pleb_pltb, pltb_Z. by rewrite (proj2 (Z.ltb_lt o a) H).
Qed.

Lemma pltb_entry_empty (e : Z * string) (o : Z) : pltb e (o, EmptyString) = (e.1 <? o).
Proof.
  destruct e as [a s]. rewrite pltb_pair, str_cmp_empty_r, andb_false_r, orb_false_r.
  apply pltb_Z.
Qed.

(** ** The overlap query *)

Section overlapping.
Context (l : VersionLedger) (Hl : ledger_wf l) (region : BufferRegion).
Context (Hsize : 0 < br_size region).
Let k := br_key region.
Let o := br_offset region.
Let sz := br_size region.

(** An entry whose bytes meet the region's. *)
Definition meets (e : Z * string) : Prop :=
  Z.max o e.1 < Z.min (o + sz) (entry_end l e).

Lemma meets_overlaps e s :
  stored_in l k e.2 s → br_offset (sv_storage s) = e.1 →
  meets e ↔ overlaps region (sv_storage s) = true.
Proof.
  intros (_ & Hst & Hk) Ho. unfold meets, overlaps, entry_end. rewrite Hst.
  rewrite (bool_decide_eq_true_2 (br_key region = _)) by done. simpl.
  rewrite Z.ltb_lt, Ho. fold o sz. lia.
Qed.

(** The entries, cut at the two thresholds the code bisects for. *)
Lemma overlapping_cut :
  ∃ A M C, entries_of l k = A ++ M ++ C ∧
    bisect_left (entries_of l k) (o, EmptyString) = length A ∧
    bisect_left (entries_of l k) (o + sz, EmptyString) = length (A ++ M) ∧
    Forall (λ e, e.1 < o) A ∧ Forall meets M ∧ Forall (λ e, ¬ meets e) C.
Proof.
  destruct (entries_split l (entries_of l k) (λ e, e.1 <? o)) as (A & R & E & HA & HR).
  { by apply lw_packed. } { intros a b [? ?]. rewrite !Z.ltb_lt. lia. }
  pose proof (lw_packed l Hl k) as Hs. rewrite E in Hs.
  apply StronglySorted_app_1_r in Hs.
  destruct (entries_split l R (λ e, e.1 <? o + sz)) as (M & C & -> & HM & HC).
  { done. } { intros a b [? ?]. rewrite !Z.ltb_lt. lia. }
  apply Forall_app in HR as [HRM HRC].
  exists A, M, C. split; [done|]. rewrite E. split_and!.
  - apply bisect_left_spec; [eapply Forall_impl; [exact HA|]|apply Forall_app; split;
      (eapply Forall_impl; [first [exact HRM|exact HRC]|])];
      intros e; simpl; by rewrite pltb_entry_empty.
  - rewrite app_assoc. apply bisect_left_spec.
    + apply Forall_app; split; (eapply Forall_impl; [first [exact HM|exact HA]|]);
        intros e; simpl; rewrite pltb_entry_empty, !Z.ltb_lt; lia.
    + eapply Forall_impl; [exact HC|]. intros e; simpl. by rewrite pltb_entry_empty.
  - eapply Forall_impl; [exact HA|]. intros e. by rewrite Z.ltb_lt.
  - apply Forall_forall. intros e He. rewrite Forall_forall in HM, HRM.
    specialize (HM _ He). specialize (HRM _ He). simpl in *. bool_prop.
    destruct (entry_state l Hl k e) as (s & _ & _ & Hend & ?).
    { rewrite E. set_solver. } unfold meets. rewrite Hend. lia.
  - apply Forall_forall. intros e He. rewrite Forall_forall in HC.
    specialize (HC _ He). simpl in *. bool_prop. unfold meets. lia.
Qed.

Lemma list_slice_app {A} (l1 l2 l3 : list A) :
  list_slice (length l1) (length (l1 ++ l2)) (l1 ++ l2 ++ l3) = l2.
Proof.
  unfold list_slice. rewrite drop_app_length, length_app.
  replace (length l1 + length l2 - length l1)%nat with (length l2) by lia.
  apply take_app_length.
Qed.

(** Elements before the last one of [A] end before it starts. *)
Lemma overlapping_prefix A a R :
  entries_of l k = (A ++ [a]) ++ R → a.1 < o → Forall (λ e, ¬ meets e) A.
Proof.
  intros E Ha. pose proof (lw_packed l Hl k) as Hs. rewrite E in Hs.
  apply StronglySorted_app_1_l in Hs. apply Forall_forall. intros e He.
  destruct (StronglySorted_app_1_elem_of _ _ _ e a Hs He) as [_ Hb]; [by left|].
  unfold meets. lia.
Qed.

Lemma overlapping_entries :
  ∃ es, _overlapping l region = Ok (list_to_set es.*2) ∧
    ∀ e, e ∈ es ↔ e ∈ entries_of l k ∧ meets e.
Proof.
  destruct overlapping_cut as (A & M & C & E & HA & HM & HAo & HMm & HC).
  rewrite !Forall_forall in HMm, HC.
  assert (Hmem : ∀ A1 a', A = A1 ++ a' → Forall (λ e, ¬ meets e) A1 → Forall meets a' →
    ∀ e, e ∈ a' ++ M ↔ e ∈ entries_of l k ∧ meets e).
  { intros A1 a' -> H1 H2 e. rewrite E. rewrite Forall_forall in H1, H2.
    rewrite !elem_of_app. naive_solver. }
  unfold _overlapping. cbv zeta. fold k o sz.
  change (default [] (vl_regions l !! k)) with (entries_of l k). rewrite HA, HM.
  destruct A as [|a A _] using rev_ind.
  - exists M. split; [|by apply (Hmem [] [])]. simpl. do 3 f_equal. rewrite E.
    apply (list_slice_app [] M C).
  - assert (Hlen : length (A ++ [a]) = S (length A)) by (rewrite length_app; simpl; lia).
    rewrite Hlen.
    assert (Hlk : entries_of l k !! length A = Some a).
    { rewrite E, <- app_assoc. by apply list_lookup_middle. }
    rewrite Hlk. cbn [of_option mbind res_bind].
    destruct (entry_state l Hl k a) as (s & (Hact & Hst & Hk) & Ho & Hend & Hpos).
    { rewrite E. set_solver. }
    unfold state_of. rewrite Hst. cbn [of_option mbind res_bind].
    assert (Ha : a.1 < o). { rewrite Forall_app, Forall_singleton in HAo. naive_solver. }
    pose proof (overlapping_prefix A a _ E Ha) as Hpre.
    destruct (Z.ltb_spec o (br_offset (sv_storage s) + br_size (sv_storage s))) as [Hlt|Hge].
    + exists (a :: M). split.
      * do 3 f_equal. rewrite E, <- !app_assoc. rewrite <- (list_slice_app A (a :: M) C). by f_equal.
      * apply (Hmem A [a]); [done..|]. apply Forall_singleton. unfold meets.
        rewrite Hend. lia.
    + exists M. split.
      * do 3 f_equal. rewrite E, <- Hlen. apply list_slice_app.
      * apply (Hmem (A ++ [a]) []); [by rewrite app_nil_r| |done].
        apply Forall_app. split; [done|]. apply Forall_singleton. unfold meets.
        rewrite Hend. lia.
Qed.

Lemma overlapping_spec :
  ∃ X, _overlapping l region = Ok X ∧
    ∀ id, id ∈ X ↔ ∃ s, id ∈ vl_active l ∧ vl_states l !! id = Some s ∧
                        overlaps region (sv_storage s) = true.
Proof.
  destruct overlapping_entries as (es & HX & Hes).
  exists (list_to_set es.*2). split; [done|]. intros id.
  rewrite elem_of_list_to_set, list_elem_of_fmap. split.
  - intros (e & -> & He). apply Hes in He as [He Hm].
    destruct (entry_state l Hl k e He) as (s & Hs & Ho & _).
    exists s. rewrite <- (meets_overlaps e s) by done. destruct Hs as (?&?&?). done.
  - intros (s & Hact & Hst & Hov).
    assert (Hk : br_key (sv_storage s) = k).
    { unfold overlaps in Hov. by bool_prop. }
    exists (br_offset (sv_storage s), id). split; [done|]. apply Hes.
    assert (Hs : stored_in l k id s) by done. split.
    + apply (lw_entries l Hl). eauto.
    + by apply (meets_overlaps (_, id) s).
Qed.
End overlapping.

(** ** Removing an active version *)

Lemma StronglySorted_drop_middle {A} (R : A → A → Prop) l1 x l2 :
  StronglySorted R (l1 ++ x :: l2) → StronglySorted R (l1 ++ l2).
Proof.
  rewrite !StronglySorted_app, StronglySorted_cons. intros (H & H1 & H2 & H3).
  split_and!; try done. intros a b Ha Hb. apply H; [done|]. by right.
Qed.

Section remove_active.
Context (l : VersionLedger) (Hl : ledger_wf l) (id : string) (s : StateVersion).
Context (k : Z * string) (Hs : stored_in l k id s).
Let off := br_offset (sv_storage s).

(** The place of the version among its buffer's entries. *)
Lemma entry_position :
  ∃ A C, vl_regions l !! k = Some (A ++ (off, id) :: C) ∧
    bisect_left (A ++ (off, id) :: C) (off, id) = length A ∧
    Forall (λ e, e.1 < off) A ∧ Forall (λ e, off < e.1) C.
Proof.
  assert (Hin : (off, id) ∈ entries_of l k) by (apply (lw_entries l Hl); eauto).
  unfold entries_of in Hin. destruct (vl_regions l !! k) as [es|] eqn:E; simpl in Hin;
    [|by apply elem_of_nil in Hin].
  apply list_elem_of_split in Hin as (A & C & ->). exists A, C.
  pose proof (lw_packed l Hl k) as Hp. unfold entries_of in Hp. rewrite E in Hp; simpl in Hp.
  apply StronglySorted_app in Hp as (HA & _ & Hp).
  apply StronglySorted_cons in Hp as [HC _].
  assert (HA' : Forall (λ e, e.1 < off) A).
  { apply Forall_forall. intros e He. destruct (HA e (off, id) He) as [??]; [by left|].
    simpl in *. lia. }
  assert (HC' : Forall (λ e, off < e.1) C).
  { eapply Forall_impl; [exact HC|]. intros e [??]. simpl in *. lia. }
  split_and!; try done. apply bisect_left_spec.
  - eapply Forall_impl; [exact HA'|]. intros [o' i'] ?. by apply pltb_entry_lt.
  - constructor; [apply pltb_irrefl|]. eapply Forall_impl; [exact HC'|].
    intros [o' i'] ?. by apply pltb_entry_gt.
Qed.

(** The ledger after the removal. *)
Definition removed (es : list (Z * string)) : VersionLedger :=
  MkVersionLedger (scratch_budgets l) (vl_states l) (vl_active l ∖ {[id]}) (vl_readers l)
    (vl_buffer_kinds l) (<[k := es]> (vl_regions l)) (vl_reader_end l)
    (if bool_decide (br_kind (sv_storage s) = "scratch"%string)
     then <[k.1 := scratch_used l k.1 - br_size (sv_storage s)]> (vl_scratch_live l)
     else vl_scratch_live l).

Lemma remove_active_eq :
  ∃ A C, vl_regions l !! k = Some (A ++ (off, id) :: C) ∧
    Forall (λ e, e.1 < off) A ∧ Forall (λ e, off < e.1) C ∧
    _remove_active l id = Ok (removed (A ++ C)).
Proof.
  destruct entry_position as (A & C & E & Hb & HA & HC). exists A, C.
  split_and!; try done. destruct Hs as (Hact & Hst & Hk).
  unfold _remove_active, state_of, removed. rewrite Hst. simpl. rewrite Hk, E. simpl.
  fold off. rewrite Hb. unfold list_pop, is_active.
  rewrite (proj2 (Nat.ltb_lt _ _)) by (rewrite length_app; simpl; lia). simpl.
  rewrite (bool_decide_eq_true_2 (id ∈ vl_active l)) by done. simpl.
  rewrite take_app_length.
  rewrite drop_app_ge, Nat.sub_succ_l, Nat.sub_diag by lia. simpl. rewrite drop_0.
  assert (Hr : br_rank (sv_storage s) = k.1) by (by rewrite <- Hk).
  case_bool_decide as Hkd; [|done]. rewrite Hr.
  destruct (lw_live_key l Hl id s k Hs Hkd) as [v Hv].
  pose proof (lw_live l Hl k.1) as Hlv. rewrite Hv in Hlv. simpl in Hlv.
  rewrite Hv. simpl. by rewrite Hlv.
Qed.
End remove_active.

Section removed_wf.
Context (l : VersionLedger) (Hl : ledger_wf l) (id : string) (s : StateVersion).
Context (k : Z * string) (Hs : stored_in l k id s).
Let off := br_offset (sv_storage s).
Context (A C : list (Z * string)).
Context (HE : vl_regions l !! k = Some (A ++ (off, id) :: C)).
Context (HA : Forall (λ e, e.1 < off) A) (HC : Forall (λ e, off < e.1) C).
Let l' := removed l id s k (A ++ C).

Lemma removed_stored k' i t : stored_in l' k' i t ↔ stored_in l k' i t ∧ i ≠ id.
Proof. unfold stored_in; simpl. set_solver. Qed.

Lemma removed_entries k' :
  entries_of l' k' = if decide (k' = k) then A ++ C else entries_of l k'.
Proof.
  unfold entries_of; simpl. rewrite lookup_insert. repeat case_decide; by subst.
Qed.

Lemma removed_used r : scratch_used l' r = scratch_used l r - scratch_size l r id.
Proof.
  unfold scratch_used; simpl. destruct Hs as (Hact & _ & _).
  rewrite (zsum_elements_remove (scratch_size l r) (vl_active l) id) by done.
  change (scratch_size l' r) with (scratch_size l r). lia.
Qed.

Lemma scratch_size_nonneg r i : 0 ≤ scratch_size l r i.
Proof.
  unfold scratch_size. destruct (vl_states l !! i) as [t|] eqn:E; [|done].
  apply (lw_states l Hl) in E as [_ E]. apply version_size_pos in E.
  case_bool_decide; lia.
Qed.

Lemma scratch_size_stored r :
  scratch_size l r id =
  if bool_decide (br_kind (sv_storage s) = "scratch"%string ∧ k.1 = r)
  then br_size (sv_storage s) else 0.
Proof. unfold scratch_size. destruct Hs as (_ & -> & <-). done. Qed.

Lemma removed_mem k' o i :
  (o, i) ∈ entries_of l' k' ↔ (o, i) ∈ entries_of l k' ∧ i ≠ id.
Proof.
  rewrite removed_entries. case_decide as Hk'.
  - subst k'. unfold entries_of at 1. rewrite HE. simpl.
    rewrite !elem_of_app, elem_of_cons.
    assert (Hno : (o, i) ∈ A ++ C → i ≠ id).
    { intros Hin ->. assert (He : (o, id) ∈ entries_of l k).
      { unfold entries_of. rewrite HE. simpl. set_solver. }
      apply (lw_entries l Hl) in He as (t & (_ & Ht & _) & <-).
      destruct Hs as (_ & Hst & _). rewrite Hst in Ht. injection Ht as <-.
      rewrite Forall_forall in HA, HC. apply elem_of_app in Hin as [Hin|Hin].
      - specialize (HA _ Hin). simpl in HA. fold off in HA. lia.
      - specialize (HC _ Hin). simpl in HC. fold off in HC. lia. }
    rewrite elem_of_app in Hno. naive_solver.
  - split; [|tauto]. intros He. split; [done|]. intros ->.
    apply (lw_entries l Hl) in He as (t & (_ & Ht & Hkt) & _).
    destruct Hs as (_ & Hst & Hks). congruence.
Qed.

Lemma removed_wf : ledger_wf l'.
Proof.
  destruct Hl as [Wst Wact Went Wpack Wkind Wlive Wkey Wbud Wread].
  constructor; simpl.
  - done.
  - intros i Hi. apply Wact. set_solver.
  - intros k' o i. rewrite removed_mem, Went. setoid_rewrite removed_stored. naive_solver.
  - intros k'. rewrite removed_entries. case_decide; [|apply Wpack].
    specialize (Wpack k). unfold entries_of in Wpack. rewrite HE in Wpack.
    by eapply StronglySorted_drop_middle.
  - intros i t k' [Hst _]%removed_stored. eauto.
  - intros r. rewrite removed_used, scratch_size_stored.
    case_bool_decide as Hsc; simpl.
    + rewrite lookup_insert. case_decide as Hr; simpl.
      * rewrite bool_decide_eq_true_2 by done. by subst.
      * rewrite bool_decide_eq_false_2 by tauto. rewrite Wlive. lia.
    + rewrite bool_decide_eq_false_2 by tauto. rewrite Wlive. lia.
  - intros i t k' [Hst _]%removed_stored Hsc. case_bool_decide; [|by eapply Wkey].
    rewrite lookup_insert. case_decide; [done|]. by eapply Wkey.
  - intros r. rewrite removed_used. intros Hpos.
    pose proof (scratch_size_nonneg r id).
    destruct (Wbud r) as (b & ? & ?); [lia|]. exists b. split; [done|lia].
  - done.
Qed.
End removed_wf.

(** Removing an active version succeeds and keeps the invariant. *)
Lemma remove_active_spec l id :
  ledger_wf l → id ∈ vl_active l →
  ∃ l', _remove_active l id = Ok l' ∧ ledger_wf l' ∧
    vl_active l' = vl_active l ∖ {[id]} ∧ vl_states l' = vl_states l ∧
    scratch_budgets l' = scratch_budgets l ∧ vl_buffer_kinds l' = vl_buffer_kinds l ∧
    vl_readers l' = vl_readers l ∧ vl_reader_end l' = vl_reader_end l ∧
    ∀ r, scratch_used l' r = scratch_used l r - scratch_size l r id.
Proof.
  intros Hl Hact. destruct (lw_active l Hl id Hact) as [s Hst].
  assert (Hs : stored_in l (br_key (sv_storage s)) id s) by done.
  destruct (remove_active_eq l Hl id s _ Hs) as (A & C & HE & HA & HC & Hr).
  eexists. split; [exact Hr|]. split; [by eapply removed_wf|].
  split_and!; try done. intros r. by apply removed_used.
Qed.

Lemma remove_all_spec l ids :
  ledger_wf l → NoDup ids → (∀ id, id ∈ ids → id ∈ vl_active l) →
  ∃ l', foldM _remove_active l ids = Ok l' ∧ ledger_wf l' ∧
    vl_active l' = vl_active l ∖ list_to_set ids ∧ vl_states l' = vl_states l ∧
    scratch_budgets l' = scratch_budgets l ∧ vl_buffer_kinds l' = vl_buffer_kinds l ∧
    vl_readers l' = vl_readers l ∧ vl_reader_end l' = vl_reader_end l ∧
    ∀ r, scratch_used l' r = scratch_used l r - zsum (scratch_size l r <$> ids).
Proof.
  revert l. induction ids as [|id ids IH]; intros l Hl Hd Hin; cbn [foldM].
  { exists l. split_and!; try done; [set_solver|]. intros. csimpl. lia. }
  apply NoDup_cons in Hd as [Hid Hd].
  destruct (remove_active_spec l id Hl) as (l1 & -> & Hl1 & Ha & Hst & Hb & Hk & Hr & Hre & Hu).
  { apply Hin. by left. }
  cbn [mbind res_bind]. destruct (IH l1 Hl1 Hd) as (l2 & -> & Hl2 & Ha2 & Hst2 & Hb2 & Hk2 & Hr2 & Hre2 & Hu2).
  { intros i Hi. rewrite Ha. assert (i ∈ vl_active l) by (apply Hin; by right). set_solver. }
  exists l2. split_and!; try congruence; [set_solver|].
  intros r. rewrite Hu2, Hu. csimpl.
  rewrite (zsum_ext (scratch_size l1 r) (scratch_size l r)); [lia|].
  intros i _. unfold scratch_size. by rewrite Hst.
Qed.

(** ** Inserting a version *)

Lemma StronglySorted_impl_elem {A} (R S : A → A → Prop) l :
  (∀ x y, x ∈ l → y ∈ l → R x y → S x y) → StronglySorted R l → StronglySorted S l.
Proof.
  intros H Hs. induction Hs as [|x l Hs IH Hx]; constructor.
  - apply IH. intros y z ??. apply H; by right.
  - rewrite Forall_forall in Hx |- *. intros y Hy. apply H; [by left|by right|by apply Hx].
Qed.

Lemma list_insert_at_length {A} (l1 l2 : list A) x :
  list_insert_at (length l1) x (l1 ++ l2) = l1 ++ x :: l2.
Proof. unfold list_insert_at. by rewrite take_app_length, drop_app_length. Qed.

Section insert_active.
Context (l : VersionLedger) (Hl : ledger_wf l) (st : StateVersion) (Hst : version_wf st).
Let region := sv_storage st.
Let k := br_key region.
Let o := br_offset region.
Let id := sv_id st.
Context (Hfresh : vl_states l !! id = None).
Context (Hfree : ∀ i t, i ∈ vl_active l → vl_states l !! i = Some t →
                        overlaps region (sv_storage t) = false).
Context (Hkind : ∀ kind, vl_buffer_kinds l !! k = Some kind → kind = br_kind region).
Context (Hbudget : br_kind region = "scratch"%string →
  ∃ b, scratch_budgets l !! br_rank region = Some b ∧
       scratch_used l (br_rank region) + br_size region ≤ b).
Let l' := insert_active l st.

Lemma inserted_inactive : id ∉ vl_active l.
Proof. intros Hin. apply (lw_active l Hl) in Hin as [t Ht]. congruence. Qed.

Lemma inserted_lookup i t :
  vl_states l' !! i = Some t ↔ (i = id ∧ t = st) ∨ (i ≠ id ∧ vl_states l !! i = Some t).
Proof.
  unfold l'; simpl. fold id. rewrite lookup_insert. case_decide; naive_solver.
Qed.

Lemma inserted_stored k' i t :
  stored_in l' k' i t ↔ (i = id ∧ t = st ∧ k' = k) ∨ stored_in l k' i t.
Proof.
  unfold stored_in. rewrite inserted_lookup. unfold l'; simpl. fold id.
  pose proof inserted_inactive. split.
  - intros (Hact & Hor & Hk). destruct Hor as [[-> ->]|[Hne Ht]]; [left; by rewrite <- Hk|].
    right. set_solver.
  - intros [(-> & -> & ->)|(Hact & Ht & Hk)].
    + split; [set_solver|]. split; [by left|done].
    + split; [set_solver|]. split; [|done]. right. split; [|done]. by intros ->.
Qed.

Lemma insertion_point :
  ∃ A C, entries_of l k = A ++ C ∧
    entries_of l' k = A ++ (o, id) :: C ∧
    Forall (λ e, entry_end l e ≤ o) A ∧ Forall (λ e, o + br_size region ≤ e.1) C.
Proof.
  assert (Hsz : 0 < br_size region) by (by apply version_size_pos).
  destruct (entries_split l (entries_of l k) (λ e, e.1 <? o)) as (A & C & E & HA & HC).
  { by apply lw_packed. } { intros a b [? ?]. rewrite !Z.ltb_lt. lia. }
  assert (Hnm : ∀ e, e ∈ A ++ C → entry_end l e ≤ o ∨ o + br_size region ≤ e.1).
  { intros e He. rewrite <- E in He.
    destruct (entry_state l Hl k e He) as (t & Ht & Ho & Hend & ?).
    pose proof Ht as (Hact & Hlk & _). specialize (Hfree _ _ Hact Hlk).
    pose proof (meets_overlaps l region e t Ht Ho) as Hm. fold region in Hm.
    rewrite Hfree in Hm. unfold meets in Hm. fold o in Hm. lia. }
  assert (HC' : Forall (λ e, o + br_size region ≤ e.1) C).
  { rewrite Forall_forall in HC |- *. intros e He. specialize (HC _ He). simpl in HC.
    bool_prop. destruct (Hnm e) as [Hle|?]; [set_solver| |done].
    destruct (entry_state l Hl k e) as (t & _ & _ & Hend & ?).
    { rewrite E. set_solver. } lia. }
  exists A, C. split; [done|]. split.
  - unfold entries_of, l'; simpl. fold region k id o. rewrite lookup_insert_eq. simpl.
    change (default [] (vl_regions l !! k)) with (entries_of l k). rewrite E.
    rewrite bisect_left_spec; [apply list_insert_at_length| |].
    + eapply Forall_impl; [exact HA|]. intros [a i] Ha; simpl in Ha.
      bool_prop. by apply pltb_entry_lt.
    + eapply Forall_impl; [exact HC'|]. intros [a i]; simpl. intros.
      apply pltb_entry_gt. lia.
  - split; [|done]. rewrite Forall_forall in HA |- *. intros e He.
    specialize (HA _ He). simpl in HA. bool_prop.
    destruct (Hnm e); [set_solver|done|lia].
Qed.

Lemma inserted_entries_other k' : k' ≠ k → entries_of l' k' = entries_of l k'.
Proof.
  intros Hne. unfold entries_of, l'; simpl. fold region k.
  by rewrite lookup_insert_ne.
Qed.

Lemma inserted_mem k' a i :
  (a, i) ∈ entries_of l' k' ↔ (k' = k ∧ a = o ∧ i = id) ∨ (a, i) ∈ entries_of l k'.
Proof.
  destruct (decide (k' = k)) as [->|Hne].
  - destruct insertion_point as (A & C & E & E' & _). rewrite E, E'.
    rewrite !elem_of_app, elem_of_cons. naive_solver.
  - rewrite inserted_entries_other by done. naive_solver.
Qed.

Lemma inserted_entry_end e k' :
  e ∈ entries_of l k' → entry_end l' e = entry_end l e.
Proof.
  intros He. destruct (entry_state l Hl k' e He) as (t & (Hact & Ht & _) & _).
  unfold entry_end, l'; simpl. fold id. rewrite lookup_insert_ne; [done|].
  intros Eid. apply inserted_inactive. by rewrite Eid.
Qed.

Lemma inserted_packed k' : StronglySorted (before l') (entries_of l' k').
Proof.
  assert (Hold : ∀ k', StronglySorted (before l') (entries_of l k')).
  { intros q. eapply StronglySorted_impl_elem; [|by apply (lw_packed l Hl)].
    intros x y Hx Hy. unfold before. by rewrite (inserted_entry_end x q). }
  destruct (decide (k' = k)) as [->|Hne]; [|by rewrite inserted_entries_other].
  destruct insertion_point as (A & C & E & E' & HA & HC).
  specialize (Hold k). rewrite E in Hold. rewrite E'.
  apply StronglySorted_app in Hold as (HAC & SA & SC).
  assert (Hend : entry_end l' (o, id) = o + br_size region).
  { unfold entry_end, l'; simpl. fold id. by rewrite lookup_insert_eq. }
  assert (Hsz : 0 < br_size region) by (by apply version_size_pos).
  assert (HA' : ∀ a, a ∈ A → before l' a (o, id)).
  { intros a Ha. rewrite Forall_forall in HA. specialize (HA _ Ha). simpl in HA.
    assert (Hin : a ∈ entries_of l k) by (rewrite E; set_solver).
    unfold before. rewrite (inserted_entry_end a k) by done.
    destruct (entry_state l Hl k a Hin) as (t & _ & _ & He & ?). simpl. lia. }
  apply StronglySorted_app. split_and!; [|done|].
  - intros a b Ha. rewrite elem_of_cons. intros [->|Hb]; [by apply HA'|by apply HAC].
  - apply StronglySorted_cons. split; [|done].
    eapply Forall_impl; [exact HC|]. intros c Hc. unfold before. rewrite Hend. simpl in *. lia.
Qed.

Lemma inserted_used r :
  scratch_used l' r = scratch_used l r +
    (if bool_decide (br_kind region = "scratch"%string ∧ br_rank region = r)
     then br_size region else 0).
Proof.
  unfold scratch_used, l'; simpl. fold id.
  rewrite zsum_elements_insert by apply inserted_inactive.
  fold l'. rewrite (zsum_ext (scratch_size l' r) (scratch_size l r)).
  - unfold scratch_size at 1, l'; simpl. fold id. rewrite lookup_insert_eq. fold region. lia.
  - intros i Hi%elem_of_elements. unfold scratch_size, l'; simpl. fold id.
    rewrite lookup_insert_ne; [done|]. intros <-. by apply inserted_inactive.
Qed.

Lemma insert_active_wf : ledger_wf l'.
Proof.
  constructor.
  - intros i t [[-> ->]|[_ Ht]]%inserted_lookup; [done|by apply (lw_states l Hl)].
  - intros i. unfold l'; simpl. fold id. rewrite elem_of_union, elem_of_singleton.
    intros [->|Hi]; [by rewrite lookup_insert_eq|].
    rewrite lookup_insert_is_Some'. right. by apply (lw_active l Hl).
  - intros k' a i. rewrite inserted_mem, (lw_entries l Hl).
    setoid_rewrite inserted_stored. unfold o, region. naive_solver.
  - apply inserted_packed.
  - intros i t k' [(-> & -> & ->)|Ht]%inserted_stored; unfold l'; simpl; fold region k.
    + by rewrite lookup_insert_eq.
    + rewrite lookup_insert. pose proof (lw_kinds l Hl _ _ _ Ht) as Hk.
      case_decide; [subst; f_equal; symmetry; by apply Hkind|done].
  - intros r. rewrite inserted_used, <- (lw_live l Hl). unfold l'; simpl. fold region.
    case_bool_decide as Hs.
    + rewrite lookup_insert. case_decide; simpl.
      * rewrite bool_decide_eq_true_2 by done. by subst.
      * rewrite bool_decide_eq_false_2 by tauto. lia.
    + rewrite bool_decide_eq_false_2 by tauto. lia.
  - intros i t k' [(-> & -> & ->)|Ht]%inserted_stored Hs; unfold l'; simpl; fold region.
    + rewrite bool_decide_eq_true_2 by done. unfold k; simpl. by rewrite lookup_insert_eq.
    + pose proof (lw_live_key l Hl _ _ _ Ht Hs). case_bool_decide; [|done].
      rewrite lookup_insert_is_Some'. by right.
  - intros r. rewrite inserted_used. case_bool_decide as Hs.
    + destruct Hs as [Hs <-]. intros _. by apply Hbudget.
    + rewrite Z.add_0_r. apply (lw_budget l Hl).
  - apply (lw_readers l Hl).
Qed.
End insert_active.
