(* ===== verification/LedgerOps.v ===== *)
(** * The operations of the version ledger

    What [_store] and the operations built on it do on a well-formed ledger,
    and the safety of every ledger reachable by them: active versions occupy
    disjoint storage, the live scratch counter is exact and within budget. *)

From S2P Require Import Prelude.
From S2P Require Import Python.
From S2P Require Import Ranges.
From S2P Require Import Versions.
From S2P Require Import LedgerInvariant.
Local Open Scope Z_scope.

(** ** Readers *)

Lemma add_reader_wf l k id e : ledger_wf l → ledger_wf (add_reader l k id e).
Proof.
  intros [W1 W2 W3 W4 W5 W6 W7 W8 W9]. constructor; simpl; try done.
  intros k' id' e'. rewrite !lookup_insert. repeat case_decide; subst; simpl.
  - intros ?. simplify_eq. lia.
  - intros ?. simplify_eq.
  - intros Hr%W9. lia.
  - intros Hr%W9. done.
Qed.

(** What registering readers leaves alone. *)
Definition same_store (l l' : VersionLedger) : Prop :=
  vl_states l' = vl_states l ∧ vl_active l' = vl_active l ∧
  scratch_budgets l' = scratch_budgets l ∧ vl_buffer_kinds l' = vl_buffer_kinds l ∧
  vl_regions l' = vl_regions l ∧ vl_scratch_live l' = vl_scratch_live l.

Lemma add_operation_readers_spec l out i reads e :
  ledger_wf l → ledger_wf (add_operation_readers l out i reads e) ∧
  same_store l (add_operation_readers l out i reads e).
Proof.
  revert l i. induction reads as [|v reads IH]; intros l i Hl; [done|].
  destruct (IH (add_reader l (Operation out i) (sv_id v) e) (S i)) as [H1 H2];
    [by apply add_reader_wf|]. done.
Qed.

(** Every version an operation reads is held until the operation ends. *)
Lemma add_operation_readers_end l out i reads e v :
  v ∈ reads →
  e ≤ default 0 (vl_reader_end (add_operation_readers l out i reads e) !! sv_id v).
Proof.
  assert (Hmono : ∀ reads l i id,
    default 0 (vl_reader_end l !! id) ≤
    default 0 (vl_reader_end (add_operation_readers l out i reads e) !! id)).
  { clear. induction reads as [|v reads IH]; intros l i id; simpl; [lia|].
    etrans; [|apply IH]. simpl. rewrite lookup_insert. case_decide; subst; simpl; lia. }
  revert l i. induction reads as [|w reads IH]; intros l i; [by intros ?%elem_of_nil|].
  rewrite elem_of_cons. intros [->|Hv]; simpl; [|by apply IH].
  etrans; [|apply Hmono]. simpl. rewrite lookup_insert_eq. simpl. lia.
Qed.

(** ** [_store] *)

Lemma readable_Ok l id at_us s :
  readable l id at_us = Ok s ↔
  vl_states l !! id = Some s ∧ id ∈ vl_active l ∧
  ∃ t, _time at_us = Ok t ∧ sv_ready s ≤ t.
Proof.
  unfold readable, state, is_active. split.
  - intros H. inv_res. bool_prop. subst. eauto.
  - intros (-> & Hact & t & Ht & Hr). simpl. rewrite bool_decide_eq_true_2 by done. simpl.
    rewrite Ht. simpl. by rewrite (proj2 (Z.ltb_ge _ _)).
Qed.

(** What the checks of [_store] establish. *)
Record store_checked (l : VersionLedger) (st : StateVersion) (s e : Z)
    (ids : list string) (initial : bool) (reads : list StateVersion)
    (overwritten : gset string) : Prop := {
  sc_times : s ≤ e ∧ sv_ready st = e;
  sc_fresh : vl_states l !! sv_id st = None;
  sc_reads : Forall2 (λ id v, vl_states l !! id = Some v ∧ id ∈ vl_active l ∧ sv_ready v ≤ s)
               ids reads;
  sc_kind kind : vl_buffer_kinds l !! br_key (sv_storage st) = Some kind →
    kind = br_kind (sv_storage st);
  sc_alias v : v ∈ reads → overlaps (sv_storage st) (sv_storage v) = true →
    sv_storage st = sv_storage v;
  sc_overwritten : _overlapping l (sv_storage st) = Ok overwritten;
  sc_initial : initial = true → overwritten = ∅;
  sc_done id : id ∈ overwritten → ∃ t, vl_states l !! id = Some t ∧ sv_ready t ≤ s ∧
    default 0 (vl_reader_end l !! id) ≤ s;
  sc_scratch : br_kind (sv_storage st) = "scratch"%string →
    ∃ b sizes, scratch_budgets l !! br_rank (sv_storage st) = Some b ∧
      Forall2 (λ id z, ∃ t, vl_states l !! id = Some t ∧ z = br_size (sv_storage t))
        (elements overwritten) sizes ∧
      default 0 (vl_scratch_live l !! br_rank (sv_storage st)) - zsum sizes
        + br_size (sv_storage st) ≤ b;
}.

Lemma store_checks_Ok l st s e ids initial reads overwritten :
  0 ≤ s →
  store_checks l st s e ids initial = Ok (reads, overwritten) →
  store_checked l st s e ids initial reads overwritten.
Proof.
  intros Hs0. unfold store_checks. intros H. inv_res. cbv zeta in *. inv_res.
  simplify_eq.
  repeat match goal with H : iterM _ _ = Ok _ |- _ => apply iterM_Ok in H end.
  match goal with H : mapR _ ids = Ok _ |- _ => apply mapR_Ok in H; rename H into Hreads end.
  bool_prop. constructor.
  - done.
  - by apply eq_None_not_Some.
  - eapply Forall2_impl; [exact Hreads|]. intros id v Hv.
    apply readable_Ok in Hv as (? & ? & t & Ht & ?). split_and!; try done.
    simpl in Ht. rewrite (proj2 (Z.ltb_ge s 0)) in Ht by done. by injection Ht as <-.
  - intros kind Hk. rewrite Hk in *. by bool_prop.
  - intros v Hv Hov. match goal with H : Forall _ reads |- _ => rename H into Hal end.
    rewrite Forall_forall in Hal. specialize (Hal v Hv). apply raise_when_Ok in Hal.
    rewrite Hov in Hal. simpl in Hal. by bool_prop.
  - done.
  - intros ->. destruct H5 as [?|?]; [done|]. by bool_prop.
  - intros id Hid. match goal with H : Forall _ (elements _) |- _ => rename H into Hdone end.
    rewrite Forall_forall in Hdone. specialize (Hdone id). rewrite elem_of_elements in Hdone.
    specialize (Hdone Hid). unfold state_of, _no_readers_after in Hdone.
    inv_res. bool_prop. eauto.
  - intros Hk. rewrite bool_decide_eq_true_2 in * by done. inv_res.
    match goal with H : mapR _ _ = Ok ?sz |- _ => apply mapR_Ok in H; rename H into Hsz;
      rename sz into sizes end.
    destruct (scratch_budgets l !! _) as [b|] eqn:Eb; [|done]. bool_prop.
    exists b, sizes. split_and!; [done| |lia].
    eapply Forall2_impl; [exact Hsz|]. intros id z Hz. unfold state_of in Hz. inv_res. eauto.
Qed.

Lemma same_store_used l l' r : same_store l l' → scratch_used l' r = scratch_used l r.
Proof.
  intros (Hst & Ha & _). unfold scratch_used. rewrite Ha. apply zsum_ext.
  intros i _. unfold scratch_size. by rewrite Hst.
Qed.

(** The versions a write to [region] replaces. *)
Definition replaced_by (l : VersionLedger) (region : BufferRegion) (id : string) : Prop :=
  ∃ t, id ∈ vl_active l ∧ vl_states l !! id = Some t ∧ overlaps region (sv_storage t) = true.

Section store.
Context (l : VersionLedger) (Hl : ledger_wf l) (st : StateVersion) (Hst : version_wf st).
Context (s e : Z) (ids : list string) (initial : bool).
Context (reads : list StateVersion) (ow : gset string).
Context (Hc : store_checked l st s e ids initial reads ow).
Let region := sv_storage st.

Lemma overwritten_spec id : id ∈ ow ↔ replaced_by l region id.
Proof.
  destruct (overlapping_spec l Hl region) as (X & HX & Hspec); [by apply version_size_pos|].
  pose proof (sc_overwritten _ _ _ _ _ _ _ _ Hc) as HX'.
  unfold region in *. rewrite HX in HX'. injection HX' as <-. apply Hspec.
Qed.

Lemma overwritten_stored id :
  id ∈ ow → ∃ t, stored_in l (br_key region) id t.
Proof.
  intros (t & ? & ? & Hov)%overwritten_spec. exists t. split_and!; try done.
  unfold overlaps in Hov. by bool_prop.
Qed.

(** The scratch that the overwritten versions free. *)
Lemma overwritten_sizes sizes :
  br_kind region = "scratch"%string →
  Forall2 (λ id z, ∃ t, vl_states l !! id = Some t ∧ z = br_size (sv_storage t))
    (elements ow) sizes →
  zsum sizes = zsum (scratch_size l (br_rank region) <$> elements ow).
Proof.
  intros Hk Hsz. f_equal.
  assert (Hin : ∀ id, id ∈ elements ow → id ∈ ow) by (intros id; apply elem_of_elements).
  induction Hsz as [|id z ids' zs (t & Ht & ->) _ IH]; [done|].
  rewrite fmap_cons, <- IH by (intros; apply Hin; by right). f_equal.
  destruct (overwritten_stored id) as (t' & Hs); [apply Hin; by left|].
  pose proof (lw_kinds l Hl _ _ _ Hs) as Hkind. destruct Hs as (_ & Ht' & Hkey).
  assert (t' = t) as -> by congruence.
  apply (sc_kind _ _ _ _ _ _ _ _ Hc) in Hkind.
  unfold scratch_size. rewrite Ht, bool_decide_eq_true_2; [done|].
  unfold region in *. injection Hkey as Hrk _. by rewrite Hkind.
Qed.

(** The commit does not fail, whatever the checks let through. *)
Lemma commit_spec :
  ∃ l1, foldM _remove_active (add_operation_readers l (sv_id st) 0 reads e) (elements ow)
          = Ok l1 ∧
    ledger_wf (insert_active l1 st) ∧
    vl_active l1 = vl_active l ∖ ow ∧ vl_states l1 = vl_states l ∧
    scratch_budgets l1 = scratch_budgets l ∧
    vl_reader_end l1 = vl_reader_end (add_operation_readers l (sv_id st) 0 reads e).
Proof.
  destruct (add_operation_readers_spec l (sv_id st) 0 reads e Hl) as [Hwf Hss].
  set (l0 := add_operation_readers l (sv_id st) 0 reads e) in *.
  pose proof Hss as (Hst0 & Ha0 & Hb0 & Hk0 & _ & _).
  destruct (remove_all_spec l0 (elements ow) Hwf) as
    (l1 & Hf & Hl1 & Ha & Hs1 & Hb & Hk & Hr & Hre & Hu).
  { apply NoDup_elements. }
  { intros id Hid. rewrite Ha0. apply elem_of_elements, overwritten_spec in Hid.
    by destruct Hid as (? & ? & _). }
  exists l1. rewrite list_to_set_elements_L, Ha0 in Ha.
  split; [done|]. split; [|split_and!; congruence].
  apply insert_active_wf; try done.
  - rewrite Hs1, Hst0. apply (sc_fresh _ _ _ _ _ _ _ _ Hc).
  - intros i t. rewrite Ha, Hs1, Hst0. intros [Hi Hni]%elem_of_difference Ht.
    destruct (overlaps (sv_storage st) (sv_storage t)) eqn:E; [|done].
    exfalso. apply Hni, overwritten_spec. by exists t.
  - intros kind. rewrite Hk, Hk0. apply (sc_kind _ _ _ _ _ _ _ _ Hc).
  - intros Hsc. destruct (sc_scratch _ _ _ _ _ _ _ _ Hc Hsc) as (b & sizes & Hbud & Hsz & Hle).
    exists b. rewrite Hb, Hb0. split; [done|].
    rewrite (overwritten_sizes sizes Hsc Hsz) in Hle.
    rewrite Hu, (same_store_used l l0) by done.
    rewrite (zsum_ext (scratch_size l0 _) (scratch_size l (br_rank (sv_storage st)))).
    + rewrite (lw_live l Hl) in Hle. unfold region in Hle. lia.
    + intros i _. unfold scratch_size. by rewrite Hst0.
Qed.
End store.

(** What a successful [_store] says about both ledgers. *)
Record stored (l l' : VersionLedger) (st : StateVersion) (start : Z) (ids : list string) : Prop := {
  sd_wf : ledger_wf l';
  sd_start : 0 ≤ start ≤ sv_ready st;
  sd_fresh : vl_states l !! sv_id st = None;
  sd_states : vl_states l' = <[sv_id st := st]> (vl_states l);
  sd_active id : id ∈ vl_active l' ↔
    id = sv_id st ∨ (id ∈ vl_active l ∧ ¬ replaced_by l (sv_storage st) id);
  sd_budgets : scratch_budgets l' = scratch_budgets l;
  sd_reads : Forall (λ id, ∃ v, vl_states l !! id = Some v ∧ id ∈ vl_active l ∧
    sv_ready v ≤ start ∧ sv_ready st ≤ default 0 (vl_reader_end l' !! id) ∧
    (overlaps (sv_storage st) (sv_storage v) = true → sv_storage st = sv_storage v)) ids;
  sd_replaced id : replaced_by l (sv_storage st) id →
    default 0 (vl_reader_end l !! id) ≤ start ∧
    ∃ t, vl_states l !! id = Some t ∧ sv_ready t ≤ start;
}.

Lemma store_spec l st start_us end_us ids initial l' st' :
  ledger_wf l → version_wf st →
  _store l st start_us end_us ids initial = Ok (l', st') →
  st' = st ∧ (∃ s, _time start_us = Ok s ∧ stored l l' st s ids) ∧
  (initial = true → ∀ id, ¬ replaced_by l (sv_storage st) id).
Proof.
  intros Hl Hst H. unfold _store in H. inv_res. destruct x1 as [reads ow].
  apply store_checks_Ok in H1 as Hc; [|by eapply version_time_Ok].
  destruct (commit_spec l Hl st Hst x x0 ids initial reads ow Hc)
    as (l1 & Hf & Hwf & Ha & Hs1 & Hb & Hre).
  simpl in *. rewrite Hf in H2. simpl in H2. injection H2 as <- <-.
  pose proof (sc_times _ _ _ _ _ _ _ _ Hc) as [Hle He].
  pose proof (version_time_Ok _ _ H) as Hs0.
  split; [done|]. split.
  - exists x. split; [done|]. constructor; simpl; try done.
    + lia.
    + apply (sc_fresh _ _ _ _ _ _ _ _ Hc).
    + by rewrite Hs1.
    + intros id. rewrite Ha, elem_of_union, elem_of_singleton, elem_of_difference.
      by rewrite (overwritten_spec l Hl st Hst x x0 ids initial reads ow Hc).
    + pose proof (sc_reads _ _ _ _ _ _ _ _ Hc) as Hr.
      pose proof (sc_alias _ _ _ _ _ _ _ _ Hc) as Hal.
      apply Forall_forall. intros id [i Hi]%list_elem_of_lookup.
      destruct (Forall2_lookup_l _ _ _ _ _ Hr Hi) as (v & Hv & ? & ? & ?).
      apply list_elem_of_lookup_2 in Hv as Hin. exists v. split_and!; try done.
      * rewrite Hre. assert (sv_id v = id) as <- by (by eapply (lw_states l Hl id v)).
        rewrite He. by apply add_operation_readers_end.
      * by apply Hal.
    + intros id Hid.
      apply (overwritten_spec l Hl st Hst x x0 ids initial reads ow Hc) in Hid.
      destruct (sc_done _ _ _ _ _ _ _ _ Hc id Hid) as (t & ? & ? & ?). eauto.
  - intros ->  id Hid. apply (overwritten_spec l Hl st Hst x x0 ids true reads ow Hc) in Hid.
    rewrite (sc_initial _ _ _ _ _ _ _ _ Hc) in Hid by done. set_solver.
Qed.

(** ** The public operations *)

Lemma copy_spec l src id dst start end_ l' s' :
  ledger_wf l → copy l src id dst start end_ = Ok (l', s') →
  ∃ source s, vl_states l !! src = Some source ∧ src ∈ vl_active l ∧
    _time start = Ok s ∧ version_wf s' ∧ sv_id s' = id ∧ sv_storage s' = dst ∧
    sv_start s' = sv_start source ∧ sv_end s' = sv_end source ∧
    sources_of s' = sources_of source ∧ stored l l' s' s [src].
Proof.
  intros Hl H. unfold copy in H. inv_res.
  apply readable_Ok in H as (Hsrc & Hact & _).
  apply StateVersion_init_wf in H0 as (Hwf & ? & ? & ? & ? & ? & ? & ?).
  apply store_spec in H1 as (-> & (s & Hs & Hst) & _); [|done|done].
  exists x, s. split_and!; done.
Qed.

Lemma reduce_spec l left right id dst start end_ l' s' :
  ledger_wf l → reduce l left right id dst start end_ = Ok (l', s') →
  ∃ a b s, vl_states l !! left = Some a ∧ left ∈ vl_active l ∧
    vl_states l !! right = Some b ∧ right ∈ vl_active l ∧
    _time start = Ok s ∧ version_wf s' ∧ sv_id s' = id ∧ sv_storage s' = dst ∧
    sv_start a = sv_start b ∧ sv_end a = sv_end b ∧
    sv_start s' = sv_start a ∧ sv_end s' = sv_end a ∧
    sources_of a ## sources_of b ∧ sources_of s' = sources_of a ∪ sources_of b ∧
    br_rank dst ∈ [sv_rank a; sv_rank b] ∧ stored l l' s' s [left; right].
Proof.
  intros Hl H. unfold reduce in H. inv_res. bool_prop.
  apply readable_Ok in H as (Ha & Hacta & _), H0 as (Hb & Hactb & _).
  apply StateVersion_init_wf in H4 as (Hwf & ? & ? & ? & ? & ? & ? & Hsrc).
  apply store_spec in H5 as (-> & (s & Hs & Hst) & _); [|done|done].
  exists x, x0, s. split_and!; try done; try congruence.
  - intros r Hra Hrb. unfold sources_of in *.
    rewrite elem_of_list_to_set in Hra, Hrb.
    apply list_elem_of_fmap in Hra as (p & -> & Hp).
    rewrite existsb_none in H2. specialize (H2 p Hp). by bool_prop.
  - rewrite Hsrc. unfold sources_of. by rewrite fmap_app, list_to_set_app_L.
Qed.

Lemma release_spec l id at_us l' :
  ledger_wf l → release l id at_us = Ok l' →
  id ∈ vl_active l ∧ ledger_wf l' ∧ vl_active l' = vl_active l ∖ {[id]} ∧
  vl_states l' = vl_states l ∧ scratch_budgets l' = scratch_budgets l ∧
  default 0 (vl_reader_end l !! id) ≤ exact_time at_us.
Proof.
  intros Hl H. unfold release, _no_readers_after in H. inv_res. bool_prop.
  apply readable_Ok in H as (_ & Hact & _).
  destruct (remove_active_spec l id Hl Hact) as (l1 & E & ? & ? & ? & ? & _).
  rewrite E in H1. injection H1 as <-. done.
Qed.

Lemma reserve_read_wf l id rid start end_ l' :
  ledger_wf l → reserve_read l id rid start end_ = Ok l' →
  ledger_wf l' ∧ same_store l l'.
Proof.
  intros Hl H. unfold reserve_read in H. inv_res. subst.
  split; [by apply add_reader_wf|done].
Qed.

(** ** Reachable ledgers *)

(** One call of a public operation that returns. *)
Inductive ledger_step (l : VersionLedger) : VersionLedger → Prop :=
  | step_initial id rank ls le pieces storage ready st l' st' :
      StateVersion_init id rank ls le pieces storage ready = Ok st →
      add_initial l st = Ok (l', st') → ledger_step l l'
  | step_copy src id dst start end_ l' st' :
      copy l src id dst start end_ = Ok (l', st') → ledger_step l l'
  | step_reduce left right id dst start end_ l' st' :
      reduce l left right id dst start end_ = Ok (l', st') → ledger_step l l'
  | step_release id at_us l' : release l id at_us = Ok l' → ledger_step l l'
  | step_reserve id rid start end_ l' :
      reserve_read l id rid start end_ = Ok l' → ledger_step l l'.

Definition ledger_reachable (budgets : list (Z * Z)) (l : VersionLedger) : Prop :=
  ∃ l0, VersionLedger_init budgets = Ok l0 ∧ rtc ledger_step l0 l.

Lemma init_ledger_wf budgets l :
  VersionLedger_init budgets = Ok l →
  ledger_wf l ∧ vl_active l = ∅ ∧ scratch_budgets l = list_to_map budgets.
Proof.
  unfold VersionLedger_init. intros H. inv_res. subst. split; [|done].
  assert (He : ∀ k, entries_of (MkVersionLedger (list_to_map budgets) ∅ ∅ ∅ ∅ ∅ ∅ ∅) k = []).
  { intros k. unfold entries_of; simpl. by rewrite lookup_empty. }
  constructor; simpl; intros; rewrite ?lookup_empty in *; try set_solver.
  - rewrite He. unfold stored_in; simpl. set_solver.
  - rewrite He. constructor.
  - unfold stored_in in *; simpl in *. set_solver.
  - unfold stored_in in *; simpl in *. set_solver.
  - unfold scratch_used in *; simpl in *. rewrite elements_empty in *. simpl in *. lia.
Qed.

Lemma ledger_step_wf l l' : ledger_wf l → ledger_step l l' → ledger_wf l' ∧
  scratch_budgets l' = scratch_budgets l.
Proof.
  intros Hl Hs. destruct Hs as [id rank ls le pieces storage ready st l' st' Hi H
    |src id dst start end_ l' st' H|left right id dst start end_ l' st' H|id at_us l' H
    |id rid start end_ l' H].
  - apply StateVersion_init_wf in Hi as (Hwf & _).
    apply store_spec in H as (_ & (s & _ & Hst) & _); [|done|done].
    split; [by eapply sd_wf|by eapply sd_budgets].
  - apply copy_spec in H as (? & ? & _ & _ & _ & _ & _ & _ & _ & _ & _ & Hst); [|done].
    split; [by eapply sd_wf|by eapply sd_budgets].
  - apply reduce_spec in H as (a & b & s & H); [|done]. destruct_and! H.
    split; [by eapply sd_wf|by eapply sd_budgets].
  - apply release_spec in H as (_ & ? & _ & _ & ? & _); done.
  - apply reserve_read_wf in H as [? (_ & _ & ? & _)]; done.
Qed.

Lemma ledger_reachable_wf budgets l :
  ledger_reachable budgets l → ledger_wf l ∧ scratch_budgets l = list_to_map budgets.
Proof.
  intros (l0 & H0 & Hr). apply init_ledger_wf in H0 as (H0 & _ & Hb).
  induction Hr as [|l0 l1 l2 Hs Hr IH]; [done|].
  apply ledger_step_wf in Hs as [? Hb']; [|done]. apply IH; congruence.
Qed.

(** ** Properties of every reachable ledger *)

Lemma StronglySorted_either {A} (R : A → A → Prop) l x y :
  StronglySorted R l → x ∈ l → y ∈ l → x ≠ y → R x y ∨ R y x.
Proof.
  induction 1 as [|z l Hs IH Hz]; [by intros ?%elem_of_nil|].
  rewrite Forall_forall in Hz. rewrite !elem_of_cons.
  intros [->|Hx] [->|Hy] Hne; [done|left; by apply Hz|right; by apply Hz|by apply IH].
Qed.

Lemma active_disjoint l i j s t :
  ledger_wf l → i ∈ vl_active l → j ∈ vl_active l → i ≠ j →
  vl_states l !! i = Some s → vl_states l !! j = Some t →
  overlaps (sv_storage s) (sv_storage t) = false.
Proof.
  intros Hl Hi Hj Hne Hs Ht. unfold overlaps.
  case_bool_decide as Hk; [|done]. simpl. apply Z.ltb_ge.
  set (k := br_key (sv_storage s)) in *.
  assert (Hes : (br_offset (sv_storage s), i) ∈ entries_of l k)
    by (apply (lw_entries l Hl); exists s; done).
  assert (Het : (br_offset (sv_storage t), j) ∈ entries_of l k)
    by (apply (lw_entries l Hl); exists t; done).
  destruct (StronglySorted_either _ _ _ _ (lw_packed l Hl k) Hes Het) as [H|H]; [congruence| |];
    unfold before, entry_end in H; simpl in H; rewrite ?Hs, ?Ht in H; lia.
Qed.

(** C3 Storage safety of the ledger.  Whatever calls of its operations succeed,
    from any scratch budgets: two valid versions never share a byte of a
    buffer, the incremental scratch counter equals the bytes that valid
    scratch versions occupy, and these never exceed the rank's budget. *)
Theorem ledger_storage_safe budgets l :
  ledger_reachable budgets l →
  (∀ i j s t, i ∈ vl_active l → j ∈ vl_active l → i ≠ j →
     vl_states l !! i = Some s → vl_states l !! j = Some t →
     overlaps (sv_storage s) (sv_storage t) = false) ∧
  (∀ r, default 0 (vl_scratch_live l !! r) = scratch_used l r ∧
        scratch_used l r ≤ Z.max 0 (default 0 ((list_to_map budgets : gmap Z Z) !! r))).
Proof.
  intros [Hl Hb]%ledger_reachable_wf. split.
  - intros i j s t. by apply active_disjoint.
  - intros r. split; [apply (lw_live l Hl)|].
    destruct (Z.lt_ge_cases 0 (scratch_used l r)) as [Hpos|]; [|lia].
    destruct (lw_budget l Hl r Hpos) as (b & Hbr & ?).
    rewrite Hb in Hbr. rewrite Hbr. simpl. lia.
Qed.

(** C23 The bisection-based overlap query is exact.  On every reachable ledger
    it returns, for a region of positive size, precisely the valid versions
    whose storage meets the region, although it inspects a single
    predecessor entry. *)
Theorem overlapping_exact budgets l region :
  ledger_reachable budgets l → 0 < br_size region →
  ∃ X, _overlapping l region = Ok X ∧
    ∀ id, id ∈ X ↔ ∃ s, id ∈ vl_active l ∧ vl_states l !! id = Some s ∧
                        overlaps region (sv_storage s) = true.
Proof. intros [Hl _]%ledger_reachable_wf ?. by apply overlapping_spec. Qed.

(** C21 A write never races with the data it replaces.  When a copy returns on a
    reachable ledger, every version whose storage it replaced had been fully
    written, and every read registered on it had ended, by the start of the
    write; replaced versions become invalid, the others stay valid, and the
    source is held until the copy ends. *)
Theorem copy_respects_readers budgets l src id dst start end_ l' s' :
  ledger_reachable budgets l → copy l src id dst start end_ = Ok (l', s') →
  ∃ t0, _time start = Ok t0 ∧
  (∀ i, replaced_by l dst i → i ∉ vl_active l' ∧
     (∃ s, vl_states l !! i = Some s ∧ sv_ready s ≤ t0) ∧
     ∀ k e, vl_readers l !! k = Some (i, e) → e ≤ t0) ∧
  (∀ i, i ∈ vl_active l → ¬ replaced_by l dst i → i ∈ vl_active l') ∧
  id ∈ vl_active l' ∧ sv_ready s' ≤ default 0 (vl_reader_end l' !! src).
Proof.
  intros [Hl _]%ledger_reachable_wf H.
  apply copy_spec in H as (source & s & Hsrc & Hact & Hs & _ & Hid & Hdst & _ & _ & _ & Hst);
    [|done].
  exists s. split; [done|]. rewrite <- Hdst, <- Hid.
  destruct Hst as [Hwf ? Hfresh ? Hactive _ Hreads Hrep]. split_and!.
  - intros i Hi. destruct (Hrep i Hi) as [Hend Hready]. split; [|split; [done|]].
    + rewrite Hactive. intros [->|[_ ?]]; [|done].
      destruct Hi as (t & _ & Ht & _). congruence.
    + intros k e Hk. apply (lw_readers l Hl) in Hk. lia.
  - intros i Hi Hn. rewrite Hactive. by right.
  - rewrite Hactive. by left.
  - apply Forall_singleton in Hreads as (v & _ & _ & _ & He & _). done.
Qed.

(** C22 Failed speculative writes have no partial effect.  On a reachable ledger
    [_store] raises only from its time conversions and its checks, all of
    which precede the first assignment: once the checks pass the commit
    completes. *)
Theorem store_commit_total budgets l st start_us end_us ids initial er :
  ledger_reachable budgets l → version_wf st →
  _store l st start_us end_us ids initial = Err er →
  _time start_us = Err er ∨ _time end_us = Err er ∨
  ∃ s e, _time start_us = Ok s ∧ _time end_us = Ok e ∧
         store_checks l st s e ids initial = Err er.
Proof.
  intros [Hl _]%ledger_reachable_wf Hst H. unfold _store in H.
  destruct (_time start_us) as [s|] eqn:Es; [|left; by injection H as ->]. simpl in H.
  destruct (_time end_us) as [e|] eqn:Ee; [|right; left; by injection H as ->]. simpl in H.
  right; right. exists s, e. split_and!; try done.
  destruct (store_checks l st s e ids initial) as [[reads ow]|e'] eqn:Ec; simpl in H.
  - exfalso. apply store_checks_Ok in Ec; [|by eapply version_time_Ok].
    destruct (commit_spec l Hl st Hst s e ids initial reads ow Ec) as (l1 & Hf & _).
    by rewrite Hf in H.
  - by injection H as ->.
Qed.

(** ** A concrete ledger: one scratch version of four bytes, copied once *)

Definition demo_region (buffer : string) : BufferRegion := MkBufferRegion 0 buffer 0 4 "scratch".

Definition demo_start : res VersionLedger :=
  l ← VersionLedger_init [(0, 16)];
  st ← StateVersion_init "x" 0 0 4 [MkDataRange 0 0 4] (demo_region "in") (PInt 0);
  '(l, _) ← add_initial l st;
  Ok l.

Lemma demo_start_reachable l : demo_start = Ok l → ledger_reachable [(0, 16)] l.
Proof.
  unfold demo_start. intros H. inv_res. case_match. inv_res. subst.
  eexists. split; [done|]. eapply rtc_once, step_initial; done.
Qed.

Lemma ledger_storage_safe_witness :
  ∃ l, demo_start = Ok l ∧ ledger_reachable [(0, 16)] l ∧ scratch_used l 0 = 4 ∧
    ∀ r, default 0 (vl_scratch_live l !! r) = scratch_used l r ∧
         scratch_used l r ≤ Z.max 0 (default 0 ((list_to_map [(0, 16)] : gmap Z Z) !! r)).
Proof.
  destruct demo_start as [l|] eqn:E; [|vm_compute in E; discriminate E].
  exists l. pose proof (demo_start_reachable l E) as Hr. split; [done|]. split; [done|].
  split; [|apply (ledger_storage_safe [(0, 16)] l Hr)].
  vm_compute in E. injection E as <-. by vm_compute.
Defined.

Lemma overlapping_exact_witness :
  ∃ l X, demo_start = Ok l ∧ _overlapping l (MkBufferRegion 0 "in" 3 2 "scratch") = Ok X ∧
    ∀ id, id ∈ X ↔ ∃ s, id ∈ vl_active l ∧ vl_states l !! id = Some s ∧
      overlaps (MkBufferRegion 0 "in" 3 2 "scratch") (sv_storage s) = true.
Proof.
  destruct demo_start as [l|] eqn:E; [|vm_compute in E; discriminate E].
  destruct (overlapping_exact [(0, 16)] l (MkBufferRegion 0 "in" 3 2 "scratch")
    (demo_start_reachable l E) eq_refl) as (X & ? & ?).
  by exists l, X.
Defined.

Lemma copy_respects_readers_witness :
  ∃ l l' s', demo_start = Ok l ∧
    copy l "x" "y" (demo_region "out") (PInt 1) (PInt 2) = Ok (l', s') ∧
    "y"%string ∈ vl_active l' ∧ sv_ready s' ≤ default 0 (vl_reader_end l' !! "x"%string).
Proof.
  destruct demo_start as [l|] eqn:E; [|vm_compute in E; discriminate E].
  destruct (copy l "x" "y" (demo_region "out") (PInt 1) (PInt 2)) as [[l' s']|] eqn:Ec.
  - destruct (copy_respects_readers [(0, 16)] l "x" "y" (demo_region "out") (PInt 1) (PInt 2) l' s'
      (demo_start_reachable l E) Ec) as (t0 & _ & _ & _ & ? & ?).
    by exists l, l', s'.
  - vm_compute in E. injection E as <-. vm_compute in Ec. discriminate Ec.
Defined.

Lemma store_commit_total_witness :
  ∃ l st er, demo_start = Ok l ∧ _store l st (PInt 5) (PInt 5) [] true = Err er ∧
    (_time (PInt 5) = Err er ∨ ∃ s e, _time (PInt 5) = Ok s ∧ _time (PInt 5) = Ok e ∧
       store_checks l st s e [] true = Err er).
Proof.
  destruct demo_start as [l|] eqn:E; [|vm_compute in E; discriminate E].
  destruct (StateVersion_init "y" 0 0 4 [MkDataRange 0 0 4] (demo_region "in") (PInt 5))
    as [st|] eqn:Es; [|vm_compute in Es; discriminate Es].
  destruct (_store l st (PInt 5) (PInt 5) [] true) as [?|er] eqn:Ec.
  - vm_compute in E, Es. injection E as <-. injection Es as <-. vm_compute in Ec. discriminate Ec.
  - exists l, st, er. split; [done|]. split; [done|].
    destruct (store_commit_total [(0, 16)] l st (PInt 5) (PInt 5) [] true er
      (demo_start_reachable l E) (proj1 (StateVersion_init_wf _ _ _ _ _ _ _ _ Es)) Ec)
      as [H|[H|H]]; [by left|by left|by right].
Defined.
