(* ===== verification/VersionMemory.v ===== *)
(** * What the version ledger promises: a simulation by physical memory

    The ledger reasons about versions; the machine copies and adds bytes.  A
    byte is described by the ranks whose inputs are summed in it and by its
    position in those inputs.  Every ledger operation that returns is
    simulated by the data movement it stands for, and afterwards every valid
    version still is what its storage holds. *)

From S2P Require Import Prelude.
From S2P Require Import Python.
From S2P Require Import Ranges.
From S2P Require Import Versions.
From S2P Require Import LedgerInvariant.
From S2P Require Import LedgerOps.
Local Open Scope Z_scope.

(** ** Physical memory *)

(** Contents of a byte: the summed source ranks and the input position;
    [None] for a byte that holds no defined value. *)
Definition content : Type := option (gset Z * Z).

(** Buffers are named by rank and identity, bytes by offset. *)
Definition memory : Type := Z * string → Z → content.

Definition in_region (r : BufferRegion) (k : Z * string) (x : Z) : bool :=
  bool_decide (k = br_key r) && (br_offset r <=? x) && (x <? br_offset r + br_size r).

(** Writes [f j] to the [j]-th byte of a region. *)
Definition phys_write (r : BufferRegion) (f : Z → content) (m : memory) : memory :=
  λ k x, if in_region r k x then f (x - br_offset r) else m k x.

Definition phys_read (r : BufferRegion) (m : memory) (j : Z) : content :=
  m (br_key r) (br_offset r + j).

(** Adding two bytes is meaningful if both hold the same position of disjoint
    sets of inputs; a byte that is counted twice loses its value. *)
Definition phys_sum (a b : content) : content :=
  match a, b with
  | Some (A, x), Some (B, y) =>
      if bool_decide (A ## B) && (x =? y) then Some (A ∪ B, x) else None
  | _, _ => None
  end.

(** What the machine does: load an input, copy, add, drop. *)
Inductive machine_op : Type :=
  | Load (source start : Z) (dst : BufferRegion)
  | Move (src dst : BufferRegion)
  | Sum (region1 region2 dst : BufferRegion)
  | Nothing.

Definition machine_run (op : machine_op) (m : memory) : memory :=
  match op with
  | Load source start dst => phys_write dst (λ j, Some ({[source]}, start + j)) m
  | Move src dst => phys_write dst (phys_read src m) m
  | Sum r1 r2 dst =>
      phys_write dst (λ j, phys_sum (phys_read r1 m j) (phys_read r2 m j)) m
  | Nothing => m
  end.

(** ** The simulation relation *)

(** The version is what its storage holds. *)
Definition holds (m : memory) (s : StateVersion) : Prop :=
  ∀ j, 0 ≤ j < br_size (sv_storage s) →
    phys_read (sv_storage s) m j = Some (sources_of s, sv_start s + j).

Definition represents (l : VersionLedger) (m : memory) : Prop :=
  ∀ id s, id ∈ vl_active l → vl_states l !! id = Some s → holds m s.

(** One returning ledger operation with the data movement it stands for. *)
Inductive ledger_runs (l : VersionLedger) : machine_op → VersionLedger → Prop :=
  | runs_initial st l' st' source :
      version_wf st → sources_of st = {[source]} → add_initial l st = Ok (l', st') →
      ledger_runs l (Load source (sv_start st) (sv_storage st)) l'
  | runs_copy src id dst start end_ l' st' source :
      copy l src id dst start end_ = Ok (l', st') → vl_states l !! src = Some source →
      ledger_runs l (Move (sv_storage source) dst) l'
  | runs_reduce left right id dst start end_ l' st' a b :
      reduce l left right id dst start end_ = Ok (l', st') →
      vl_states l !! left = Some a → vl_states l !! right = Some b →
      ledger_runs l (Sum (sv_storage a) (sv_storage b) dst) l'
  | runs_release id at_us l' : release l id at_us = Ok l' → ledger_runs l Nothing l'
  | runs_reserve id rid start end_ l' :
      reserve_read l id rid start end_ = Ok l' → ledger_runs l Nothing l'.

Lemma in_region_true r k x :
  in_region r k x = true ↔ k = br_key r ∧ br_offset r ≤ x < br_offset r + br_size r.
Proof. unfold in_region. rewrite !andb_true_iff, bool_decide_eq_true, Z.leb_le, Z.ltb_lt. tauto. Qed.

Lemma read_written r f m j :
  0 ≤ j < br_size r → phys_read r (phys_write r f m) j = f j.
Proof.
  intros Hj. unfold phys_read, phys_write.
  rewrite (proj2 (in_region_true r _ _)) by (split; [done|lia]). f_equal. lia.
Qed.

Lemma overlaps_false r t :
  overlaps r t = false → br_key r = br_key t →
  Z.min (br_offset r + br_size r) (br_offset t + br_size t) ≤
  Z.max (br_offset r) (br_offset t).
Proof.
  unfold overlaps. intros H E. rewrite bool_decide_eq_true_2 in H by done.
  simpl in H. bool_prop. lia.
Qed.

Lemma holds_unwritten r f m s :
  overlaps r (sv_storage s) = false → holds m s → holds (phys_write r f m) s.
Proof.
  intros Ho Hs j Hj. rewrite <- (Hs j Hj). unfold phys_read, phys_write.
  destruct (in_region r _ _) eqn:E; [|done].
  apply in_region_true in E as [Hk Hx]. apply overlaps_false in Ho; [|done]. lia.
Qed.

(** A stored version needs its own bytes written, and nothing else. *)
Lemma stored_represents l l' st start ids f m :
  ledger_wf l → stored l l' st start ids → represents l m →
  (∀ j, 0 ≤ j < br_size (sv_storage st) → f j = Some (sources_of st, sv_start st + j)) →
  represents l' (phys_write (sv_storage st) f m).
Proof.
  intros Hl Hst Hm Hf id s Hid Hs. rewrite (sd_states _ _ _ _ _ Hst) in Hs.
  apply lookup_insert_Some in Hs as [[<- <-]|[Hne Hs]].
  - intros j Hj. rewrite read_written by done. by apply Hf.
  - apply (sd_active _ _ _ _ _ Hst) in Hid as [->|[Hid Hnr]]; [done|].
    apply holds_unwritten; [|by eapply Hm].
    destruct (overlaps _ _) eqn:E; [|done]. exfalso. apply Hnr. by exists s.
Qed.

Lemma phys_sum_disjoint A B x :
  A ## B → phys_sum (Some (A, x)) (Some (B, x)) = Some (A ∪ B, x).
Proof. intros H. unfold phys_sum. by rewrite bool_decide_eq_true_2, Z.eqb_refl. Qed.

Lemma runs_represents l op l' m :
  ledger_wf l → ledger_runs l op l' → represents l m →
  ledger_wf l' ∧ represents l' (machine_run op m).
Proof.
  intros Hl Hr Hm. destruct Hr as [st l' st' source Hwf Hsrc H
    |src id dst start end_ l' st' source H Hs|left right id dst start end_ l' st' a b H Ha Hb
    |id at_us l' H|id rid start end_ l' H].
  - apply store_spec in H as (-> & (s & _ & Hst) & _); [|done|done].
    split; [by eapply sd_wf|]. cbn [machine_run].
    eapply stored_represents; [done..|]. intros. by rewrite Hsrc.
  - apply copy_spec in H as (x & s & Hs' & Hact & _ & Hwf & _ & Hdst & Hst & He & Hsrc & Hstd); [|done].
    assert (x = source) as -> by congruence. split; [by eapply sd_wf|].
    cbn [machine_run]. rewrite <- Hdst. eapply stored_represents; [done..|].
    intros j Hj. rewrite Hsrc, Hst. apply (Hm src source Hact Hs).
    destruct (lw_states l Hl _ _ Hs) as [_ Hws]. rewrite (vw_size _ Hws).
    rewrite (vw_size _ Hwf) in Hj. lia.
  - apply reduce_spec in H as (a' & b' & s & Ha' & Hacta & Hb' & Hactb & _ & Hwf & _ & Hdst &
      Hsab & Heab & Hsta & Hea & Hdisj & Hsrc & _ & Hstd); [|done].
    assert (a' = a ∧ b' = b) as [-> ->] by (split; congruence).
    split; [by eapply sd_wf|]. cbn [machine_run]. rewrite <- Hdst.
    eapply stored_represents; [done..|]. intros j Hj.
    destruct (lw_states l Hl _ _ Ha) as [_ Hwa]. destruct (lw_states l Hl _ _ Hb) as [_ Hwb].
    rewrite (vw_size _ Hwf) in Hj.
    rewrite (Hm left a Hacta Ha), (Hm right b Hactb Hb)
      by (rewrite ?(vw_size _ Hwa), ?(vw_size _ Hwb); lia).
    rewrite <- Hsab, phys_sum_disjoint by done. by rewrite Hsrc, Hsta.
  - apply release_spec in H as (_ & Hwf & Ha & Hst & _); [|done]. split; [done|].
    intros i s Hi Hs. rewrite Ha in Hi. rewrite Hst in Hs. eapply Hm; [|done]. set_solver.
  - apply reserve_read_wf in H as [Hwf (Hst & Ha & _)]; [|done]. split; [done|].
    intros i s Hi Hs. rewrite Ha in Hi. rewrite Hst in Hs. by eapply Hm.
Qed.

(** ** Runs *)

(** A sequence of ledger operations, with the machine program they stand for. *)
Inductive ledger_run : VersionLedger → list machine_op → VersionLedger → Prop :=
  | run_nil l : ledger_run l [] l
  | run_cons l op l1 program l2 :
      ledger_runs l op l1 → ledger_run l1 program l2 → ledger_run l (op :: program) l2.

Definition machine_exec (program : list machine_op) (m : memory) : memory :=
  foldl (λ m op, machine_run op m) m program.

Lemma ledger_run_trans l p1 l1 p2 l2 :
  ledger_run l p1 l1 → ledger_run l1 p2 l2 → ledger_run l (p1 ++ p2) l2.
Proof. induction 1; [done|]. intros. eapply run_cons; eauto. Qed.

Lemma ledger_run_one l op l' : ledger_runs l op l' → ledger_run l [op] l'.
Proof. intros. eapply run_cons; [done|constructor]. Qed.

(** Evidence is kept: a version, once stored, never changes. *)
Lemma runs_states l op l' : ledger_wf l → ledger_runs l op l' → vl_states l ⊆ vl_states l'.
Proof.
  intros Hl Hr. destruct Hr as [st l' st' source Hwf Hsrc H
    |src id dst start end_ l' st' source H Hs|left right id dst start end_ l' st' a b H Ha Hb
    |id at_us l' H|id rid start end_ l' H].
  - apply store_spec in H as (-> & (s & _ & Hst) & _); [|done|done].
    rewrite (sd_states _ _ _ _ _ Hst). apply insert_subseteq, (sd_fresh _ _ _ _ _ Hst).
  - apply copy_spec in H as (x & s & H); [|done]. destruct_and! H.
    match goal with H : stored _ _ _ _ _ |- _ => rename H into Hst end.
    rewrite (sd_states _ _ _ _ _ Hst). apply insert_subseteq, (sd_fresh _ _ _ _ _ Hst).
  - apply reduce_spec in H as (x & y & s & H); [|done]. destruct_and! H.
    match goal with H : stored _ _ _ _ _ |- _ => rename H into Hst end.
    rewrite (sd_states _ _ _ _ _ Hst). apply insert_subseteq, (sd_fresh _ _ _ _ _ Hst).
  - apply release_spec in H as (_ & _ & _ & -> & _); done.
  - apply reserve_read_wf in H as [_ (-> & _)]; done.
Qed.

Lemma ledger_run_inv l program l' m :
  ledger_run l program l' → ledger_wf l → represents l m →
  ledger_wf l' ∧ represents l' (machine_exec program m) ∧ vl_states l ⊆ vl_states l'.
Proof.
  intros Hrun. revert m. induction Hrun as [l|l op l1 program l2 Hr _ IH]; intros m Hl Hm; [done|].
  destruct (runs_represents l op l1 m Hl Hr Hm) as [Hl1 Hm1].
  destruct (IH _ Hl1 Hm1) as (? & ? & ?). split_and!; [done..|].
  etrans; [by eapply runs_states|done].
Qed.

(** C2 Refinement of the ledger by physical memory.  Start from the empty
    ledger and memory of any content and let any calls of the ledger's
    operations return; execute the loads, copies, additions and releases they
    stand for.  Then every version the ledger still calls valid is exactly
    what the bytes of its storage hold: the sum of the inputs of its sources
    at its logical range, each counted once. *)
Theorem ledger_refines_memory budgets l0 m0 program l :
  VersionLedger_init budgets = Ok l0 → ledger_run l0 program l →
  ∀ id s j, id ∈ vl_active l → vl_states l !! id = Some s →
    0 ≤ j < br_size (sv_storage s) →
    machine_exec program m0 (br_key (sv_storage s)) (br_offset (sv_storage s) + j) =
      Some (sources_of s, sv_start s + j).
Proof.
  intros (Hl & Ha & _)%init_ledger_wf Hrun id s j Hid Hs Hj.
  apply (ledger_run_inv _ _ _ m0) in Hrun as (_ & Hm & _); [|done|].
  - by apply (Hm id s).
  - intros i t Hi. set_solver.
Qed.

Definition demo_version : StateVersion :=
  MkStateVersion "x" 0 0 4 [MkDataRange 0 0 4] (demo_region "in") 0.

Lemma ledger_refines_memory_witness :
  ∃ l0 l, VersionLedger_init [(0, 16)] = Ok l0 ∧
    ledger_run l0 [Load 0 0 (demo_region "in")] l ∧
    vl_states l !! "x"%string = Some demo_version ∧
    ∀ j, 0 ≤ j < 4 →
      machine_exec [Load 0 0 (demo_region "in")] (λ _ _, None) (0, "in"%string) (0 + j) =
        Some (sources_of demo_version, 0 + j).
Proof.
  destruct (VersionLedger_init [(0, 16)]) as [l0|] eqn:E0; [|discriminate E0].
  destruct (add_initial l0 demo_version) as [[l st]|] eqn:E1.
  - assert (Hwf : version_wf demo_version).
    { refine (proj1 (StateVersion_init_wf "x" 0 0 4 [MkDataRange 0 0 4] (demo_region "in")
        (PInt 0) _ _)). vm_compute. reflexivity. }
    assert (Hrun : ledger_run l0 [Load 0 0 (demo_region "in")] l).
    { eapply ledger_run_one, (runs_initial l0 demo_version l st 0); [exact Hwf| |exact E1].
      reflexivity. }
    assert (Hl : vl_states l !! "x"%string = Some demo_version ∧ "x"%string ∈ vl_active l).
    { vm_compute in E0. injection E0 as <-. vm_compute in E1. injection E1 as <- _.
      split; [reflexivity|]. by vm_compute. }
    destruct Hl as [Hst Hact]. exists l0, l. split; [reflexivity|]. split; [exact Hrun|].
    split; [exact Hst|]. intros j Hj.
    exact (ledger_refines_memory [(0, 16)] l0 (λ _ _, None) _ l E0 Hrun "x" demo_version j
             Hact Hst Hj).
  - exfalso. vm_compute in E0. injection E0 as <-. vm_compute in E1. discriminate E1.
Defined.
