(* ===== verification/VersionSchedule.v ===== *)
(** * Replay of version schedules ([vericcl/semantics/version_schedule.py])

    A schedule lists initial states, timed operations on a version ledger and
    the output bindings it claims; [replay_version_schedule] accepts it only
    after replaying every operation and checking every output byte.  The
    optional [lease], which can only stop the replay early, is [None]. *)

From S2P Require Import Prelude.
From S2P Require Import Python.
From S2P Require Import Slice.
From S2P Require Import Collective.
From S2P Require Import InputModels.
From S2P Require Import Ranges.
From S2P Require Import Versions.
Local Open Scope Z_scope.

Record OutputBinding : Type := MkOutputBinding {
  ob_rank : Z;
  ob_offset : Z;
  ob_state : string;
}.

Definition OutputBinding_init (rank offset_bytes : Z) (state_id : string) : res OutputBinding :=
  nonnegative (PInt rank) "output rank";;
  nonnegative (PInt offset_bytes) "output offset";;
  raise_when (bool_decide (state_id = EmptyString))
    (SemanticError "output needs a state identity");;
  Ok (MkOutputBinding rank offset_bytes state_id).

Record VersionOperation : Type := MkVersionOperation {
  op_id : string;
  op_kind : string;
  op_inputs : list string;
  op_output : option string;
  op_destination : option BufferRegion;
  op_start : pyval;
  op_end : pyval;
  op_stage : Z;
  op_dependencies : list string;
  op_participants : list Z;
}.

(** [VersionOperation.__post_init__] on the fields of [self]. *)
Definition VersionOperation_init (self : VersionOperation) : res VersionOperation :=
  raise_when (bool_decide (op_id self = EmptyString))
    (SemanticError "operation needs a stable identity");;
  raise_when (negb (bool_decide (op_kind self ∈ ["copy"; "reduce"; "release"])))
    (SemanticError "unknown version operation kind");;
  let count := if bool_decide (op_kind self = "reduce"%string) then 2%nat else 1%nat in
  raise_when (negb (length (op_inputs self) =? count)%nat ||
              negb (length (remove_dups (op_inputs self)) =? count)%nat)
    (SemanticError "operation has invalid input state identities");;
  nonnegative (PInt (op_stage self)) "operation stage";;
  end_ ← _time (op_end self);
  start ← _time (op_start self);
  raise_when (end_ <? start) (SemanticError "operation ends before it starts");;
  (if bool_decide (op_kind self = "release"%string) then
     raise_when (bool_decide (is_Some (op_output self)) ||
                 bool_decide (is_Some (op_destination self)))
       (SemanticError "release does not create a state")
   else
     raise_when (bool_decide (default EmptyString (op_output self) = EmptyString) ||
                 negb (bool_decide (is_Some (op_destination self))))
       (SemanticError "write operation needs output state and storage"));;
  raise_when (negb (bool_decide (NoDup (op_dependencies self))))
    (SemanticError "duplicate operation dependency");;
  raise_when (negb (bool_decide (NoDup (op_participants self))))
    (SemanticError "duplicate participant rank");;
  iterM (λ rank, nonnegative (PInt rank) "participant rank";; Ok tt) (op_participants self);;
  Ok self.

Record VersionSchedule : Type := MkVersionSchedule {
  vs_rank_count : Z;
  vs_input_bytes : Z;
  vs_slice_size_bytes : Z;
  vs_stage_count : Z;
  vs_initial_states : list StateVersion;
  vs_operations : list VersionOperation;
  vs_outputs : list OutputBinding;
}.

Definition VersionSchedule_init (self : VersionSchedule) : res VersionSchedule :=
  iterM (λ '(value, name),
    nonnegative (PInt value) name;;
    raise_when (value =? 0) (SemanticError (name +:+ " must be positive")))
    [(vs_rank_count self, "rank_count"%string); (vs_input_bytes self, "input_bytes"%string);
     (vs_slice_size_bytes self, "slice_size_bytes"%string);
     (vs_stage_count self, "stage_count"%string)];;
  raise_when (negb (vs_input_bytes self `mod` vs_slice_size_bytes self =? 0))
    (SemanticError "schedule slice size must divide input size");;
  raise_when (negb (bool_decide (NoDup (op_id <$> vs_operations self))))
    (SemanticError "operation identities must be unique");;
  raise_when (existsb (λ op, vs_stage_count self <=? op_stage op) (vs_operations self))
    (SemanticError "operation stage exceeds logical stage count");;
  Ok self.

(** ** Interval covers *)

Definition _check_interval_cover (intervals : list (Z * Z)) (start end_ : Z) (label : string)
    : res unit :=
  cursor ← foldM (λ cursor '(left_, right_),
      raise_when (negb (left_ =? cursor) || (right_ <=? left_) || (end_ <? right_))
        (SemanticError (label +:+ " has a gap, duplicate or out-of-range interval"));;
      Ok right_) start (sorted_by id intervals);
  raise_when (negb (cursor =? end_)) (SemanticError (label +:+ " is incomplete")).

(** [spec.root], an integer or [None]; no rank equals [-1]. *)
Definition root_rank (spec : CollectiveSpec) : Z :=
  match cs_root spec with PInt root => root | _ => -1 end.

Definition rank_str (rank : Z) : string :=
  if rank =? -1 then "None" else str_of_int rank.

(** ** Initial states *)

Definition initial_source_ranks (schedule : VersionSchedule) (inputs : ResolvedInput) : list Z :=
  if bool_decide (cs_kind (ri_collective inputs) = BROADCAST)
  then [root_rank (ri_collective inputs)] else seqZ 0 (vs_rank_count schedule).

(** One iteration of the loop over the initial states. *)
Definition initial_state_step (schedule : VersionSchedule) (source_ranks : list Z)
    (acc : list (Z * list (Z * Z)) * VersionLedger) (st : StateVersion)
    : res (list (Z * list (Z * Z)) * VersionLedger) :=
  let '(covered, ledger) := acc in
  raise_when (negb (bool_decide (sv_rank st ∈ source_ranks)) || negb (sv_ready st =? 0) ||
              match sv_contributors st with
              | [p] => negb (dr_source p =? sv_rank st)
              | _ => true
              end)
    (SemanticError "initial state must contain only its rank's original input");;
  raise_when (negb (sv_end st - sv_start st =? vs_slice_size_bytes schedule) ||
              negb (sv_start st `mod` vs_slice_size_bytes schedule =? 0))
    (SemanticError "initial state does not match the resolved slice partition");;
  '(ledger, _) ← add_initial ledger st;
  Ok (dict_set (sv_rank st)
        (default [] (dict_get (sv_rank st) covered) ++ [(sv_start st, sv_end st)]) covered,
      ledger).

Definition _initial_states (schedule : VersionSchedule) (inputs : ResolvedInput)
    (ledger : VersionLedger) : res VersionLedger :=
  let source_ranks := initial_source_ranks schedule inputs in
  '(covered, ledger) ← foldM (initial_state_step schedule source_ranks)
    ((λ rank, (rank, [])) <$> source_ranks, ledger) (vs_initial_states schedule);
  iterM (λ '(rank, intervals),
    _check_interval_cover intervals 0 (vs_input_bytes schedule)
      ("initial input for rank " +:+ rank_str rank)) covered;;
  Ok ledger.

(** ** Expected results *)

(** [(rank, output start, output end, original logical start, source ranks)] *)
Record Segment : Type := MkSegment {
  seg_rank : Z;
  seg_start : Z;
  seg_end : Z;
  seg_logical : Z;
  seg_sources : gset Z;
}.

(** The partitioned kinds: [part = size // ranks], if it divides. *)
Definition partition_segments (ranks size : Z) (segments : Z → list Segment)
    : res (list Segment) :=
  raise_when (ranks =? 0) (ZeroDivisionError "integer division or modulo by zero");;
  raise_when (negb (size `mod` ranks =? 0))
    (SemanticError "partitioned collective input must divide by rank count");;
  Ok (segments (size / ranks)).

Definition _expected_segments (spec : CollectiveSpec) (ranks size : Z) : res (list Segment) :=
  let all_sources : gset Z := list_to_set (seqZ 0 ranks) in
  let root := root_rank spec in
  match cs_kind spec with
  | BROADCAST => Ok ((λ rank, MkSegment rank 0 size 0 {[root]}) <$> seqZ 0 ranks)
  | REDUCE => Ok [MkSegment root 0 size 0 all_sources]
  | ALL_REDUCE => Ok ((λ rank, MkSegment rank 0 size 0 all_sources) <$> seqZ 0 ranks)
  | ALL_GATHER => Ok (
      rank ← seqZ 0 ranks; source ← seqZ 0 ranks;
      [MkSegment rank (source * size) ((source + 1) * size) 0 {[source]}])
  | REDUCE_SCATTER => partition_segments ranks size (λ part,
      (λ rank, MkSegment rank 0 part (rank * part) all_sources) <$> seqZ 0 ranks)
  | ALL_TO_ALL => partition_segments ranks size (λ part,
      rank ← seqZ 0 ranks; source ← seqZ 0 ranks;
      [MkSegment rank (source * part) ((source + 1) * part) (rank * part) {[source]}])
  | SCATTER | GATHER => Err (SemanticError "unsupported external output semantics")
  end.

(** ** The output check *)

(** [by_rank]: the segments of one rank as pairs of a start and an index. *)
Definition segments_of_rank (expected : list Segment) (rank : Z) : list (Z * Z) :=
  omap (λ '(index, segment),
    if seg_rank segment =? rank then Some (seg_start segment, index) else None)
    (zip (seqZ 0 (Z.of_nat (length expected))) expected).

(** One iteration of the loop over the output bindings. *)
Definition output_step (expected : list Segment) (ledger : VersionLedger) (at_us : pyval)
    (acc : list (list (Z * Z)) * gset string) (output : OutputBinding)
    : res (list (list (Z * Z)) * gset string) :=
  let '(coverage, used_states) := acc in
  st ← readable ledger (ob_state output) at_us;
  raise_when (bool_decide (ob_state output ∈ used_states) || negb (sv_rank st =? ob_rank output))
    (SemanticError "duplicate output state or wrong output rank");;
  let out_end := ob_offset output + sv_end st - sv_start st in
  let segments := segments_of_rank expected (ob_rank output) in
  let position := Z.of_nat (bisect_right segments (ob_offset output, Z.of_nat (length expected))) - 1 in
  raise_when (position <? 0)
    (SemanticError "output range does not belong to an expected result segment");;
  entry ← of_option (segments !! Z.to_nat position) (IndexError "list index out of range");
  let index := Z.to_nat entry.2 in
  segment ← of_option (expected !! index) (IndexError "tuple index out of range");
  raise_when (seg_end segment <? out_end)
    (SemanticError "output range does not belong to an expected result segment");;
  raise_when (negb (sv_start st =? seg_logical segment + ob_offset output - seg_start segment) ||
              negb (bool_decide (list_to_set (dr_source <$> sv_contributors st) = seg_sources segment)))
    (SemanticError "output has missing, repeated or wrong original contributions");;
  Ok (alter (λ l, l ++ [(ob_offset output, out_end)]) index coverage,
      {[ob_state output]} ∪ used_states).

Definition check_version_outputs (spec : CollectiveSpec) (ranks input_bytes : Z)
    (outputs : list OutputBinding) (ledger : VersionLedger) (at_us : pyval)
    : res (list (Z * Z)) :=
  expected ← _expected_segments spec ranks input_bytes;
  '(coverage, _) ← foldM (output_step expected ledger at_us)
    (replicate (length expected) [], ∅) outputs;
  foldM (λ totals '(segment, intervals),
    _check_interval_cover intervals (seg_start segment) (seg_end segment)
      ("output for rank " +:+ rank_str (seg_rank segment));;
    total ← of_option (dict_get (seg_rank segment) totals) (KeyError (rank_str (seg_rank segment)));
    Ok (dict_set (seg_rank segment) (total + (seg_end segment - seg_start segment)) totals))
    ((λ rank, (rank, 0)) <$> seqZ 0 ranks) (zip expected coverage).

(** ** Replay *)

(** [except SemanticError as error: raise SemanticError("operation ..." + str(error))] *)
Definition in_operation {A} (operation_id : string) (m : res A) : res A :=
  match m with
  | Err (SemanticError msg) =>
      Err (SemanticError ("operation " +:+ operation_id +:+ ": " +:+ msg))
  | _ => m
  end.

(** The set of links of the topology document. *)
Definition directed_links (topology : pyval) : res (list (pyval * pyval)) :=
  document ← py_getitem topology "directed_links";
  edges ← py_iter document;
  mapR (λ edge,
    src ← py_getitem edge "src";
    dst ← py_getitem edge "dst";
    raise_when (negb (py_hashable src && py_hashable dst)) (TypeError "unhashable type");;
    Ok (src, dst)) edges.

Definition has_link (links : list (pyval * pyval)) (src dst : Z) : bool :=
  existsb (λ link, py_eq_int link.1 src && py_eq_int link.2 dst) links.

(** The checks of a write on one of the states it reads. *)
Definition check_transfer (constraints : ConstraintSet) (links : list (pyval * pyval))
    (op : VersionOperation) (destination : BufferRegion) (st : StateVersion) : res unit :=
  raise_when (negb (bool_decide (op_participants op = [])) &&
              (negb (bool_decide (sv_rank st ∈ op_participants op)) ||
               negb (bool_decide (br_rank destination ∈ op_participants op))))
    (SemanticError "operation uses a GPU outside its explicit participant group");;
  if sv_rank st =? br_rank destination then Ok tt else
    raise_when (negb (has_link links (sv_rank st) (br_rank destination)))
      (SemanticError "operation uses an absent directed link");;
    permitted ← allows constraints (sv_contributors st) (sv_rank st) (br_rank destination)
                  (op_stage op);
    raise_when (negb permitted)
      (SemanticError "operation violates a source-range directed-edge constraint").

(** [method( *op.input_states, ...)] *)
Definition apply_write (ledger : VersionLedger) (op : VersionOperation)
    (destination : BufferRegion) : res VersionLedger :=
  let output := default EmptyString (op_output op) in
  '(ledger, _) ←
    (if bool_decide (op_kind op = "reduce"%string) then
       match op_inputs op with
       | [a; b] => reduce ledger a b output destination (op_start op) (op_end op)
       | _ => Err (TypeError "reduce() takes 3 positional arguments")
       end
     else
       match op_inputs op with
       | [a] => copy ledger a output destination (op_start op) (op_end op)
       | _ => Err (TypeError "copy() takes 2 positional arguments")
       end);
  Ok ledger.

(** One operation of the replay; [finished] maps operations to their ends. *)
Definition replay_operation (rank_count : Z) (constraints : ConstraintSet)
    (links : list (pyval * pyval)) (acc : VersionLedger * list (string * pyval))
    (op : VersionOperation) : res (VersionLedger * list (string * pyval)) :=
  let '(ledger, finished) := acc in
  in_operation (op_id op) (
    iterM (λ dependency,
      raise_when match dict_get dependency finished with
                 | None => true
                 | Some end_ => exact_time (op_start op) <? exact_time end_
                 end (SemanticError "explicit dependency is not complete"))
      (op_dependencies op);;
    sts ← mapR (λ key, readable ledger key (op_start op)) (op_inputs op);
    ledger ←
      (if bool_decide (op_kind op = "release"%string) then
         first ← of_option (head sts) (IndexError "tuple index out of range");
         release ledger (sv_id first) (op_start op)
       else
         destination ← of_option (op_destination op)
           (AttributeError "'NoneType' object has no attribute 'rank'");
         raise_when (rank_count <=? br_rank destination)
           (SemanticError "destination rank is outside the group");;
         iterM (check_transfer constraints links op destination) sts;;
         apply_write ledger op destination);
    Ok (ledger, dict_set (op_id op) (op_end op) finished)).

(** [max(values, default=0.0)]: the first of the greatest. *)
Fixpoint max_time (best : pyval) (values : list pyval) : pyval :=
  match values with
  | [] => best
  | v :: values => max_time (if exact_time best <? exact_time v then v else best) values
  end.

Definition latest (finished : list (string * pyval)) : pyval :=
  match finished.*2 with
  | [] => PFloat (Finite 0)
  | v :: values => max_time v values
  end.

Record ReplayEvidence : Type := MkReplayEvidence {
  re_output_bytes : list (Z * Z);
  re_state_versions : Z;
  re_operations : Z;
}.

(** [key=lambda item: (item.start_us, item.end_us, item.operation_id)] *)
Definition op_key (op : VersionOperation) : Z * (Z * string) :=
  (exact_time (op_start op), (exact_time (op_end op), op_id op)).

Definition replay_version_schedule (schedule : VersionSchedule) (inputs : ResolvedInput)
    : res (VersionLedger * ReplayEvidence) :=
  let hyper := ri_hyperparameters inputs in
  raise_when (negb (vs_rank_count schedule =? ri_rank_count inputs) ||
              negb (vs_input_bytes schedule =? total_size_bytes hyper) ||
              negb (bool_decide (Some (vs_slice_size_bytes schedule) = slice_size_bytes hyper)))
    (SemanticError "schedule dimensions differ from the resolved partition");;
  raise_when match stage_num (ri_atom_constraints inputs) with
             | Some fixed => negb (vs_stage_count schedule =? fixed)
             | None => false
             end (SemanticError "schedule does not preserve fixed stage count");;
  runtime ← py_getitem (ri_request_config inputs) "runtime";
  budget_value ← py_getitem runtime "scratch_bytes_per_rank";
  budget ← nonnegative budget_value "scratch budget";
  ledger ← VersionLedger_init ((λ rank, (rank, budget)) <$> seqZ 0 (vs_rank_count schedule));
  ledger ← _initial_states schedule inputs ledger;
  constraints ← bind_constraints inputs;
  links ← directed_links (ri_resolved_topology inputs);
  '(ledger, finished) ←
    foldM (replay_operation (vs_rank_count schedule) constraints links) (ledger, [])
      (sorted_by op_key (vs_operations schedule));
  output_bytes ← check_version_outputs (ri_collective inputs) (vs_rank_count schedule)
    (vs_input_bytes schedule) (vs_outputs schedule) ledger (latest finished);
  Ok (ledger, MkReplayEvidence output_bytes (Z.of_nat (length (states ledger)))
                (Z.of_nat (length (vs_operations schedule)))).
