(* ===== verification/Segments.v ===== *)
(** * Output segments in bytes against output slots in slices

    [_expected_segments] (of [vericcl/semantics/version_schedule.py]) lists
    results as byte ranges; [required_outputs] lists them slice by slice.  The
    two descriptions agree, for every slice size that divides the input. *)

From S2P Require Import Prelude.
From S2P Require Import Python.
From S2P Require Import Slice.
From S2P Require Import Collective.
From S2P Require Import VersionSchedule.
Local Open Scope Z_scope.

(** Byte [x] of a rank's output lies in the segment; [seg_byte] is the
    position, in the inputs, of the bytes it must combine. *)
Definition seg_covers (seg : Segment) (rank x : Z) : Prop :=
  seg_rank seg = rank ∧ seg_start seg ≤ x < seg_end seg.

Definition seg_byte (seg : Segment) (x : Z) : Z := seg_logical seg + (x - seg_start seg).

(** The slices that contain byte [p] of the inputs of some ranks. *)
Definition slices_at (n sz : Z) (sources : gset Z) (p : Z) : gset Z :=
  set_map (λ k, k * n + p / sz) sources.

Lemma slices_at_singleton n sz k p : slices_at n sz {[k]} p = {[k * n + p / sz]}.
Proof. unfold slices_at. by rewrite set_map_singleton_L. Qed.

Lemma slices_at_all P n sz p :
  slices_at n sz (list_to_set (seqZ 0 P)) p = _aggregate_contributors (p / sz) P n.
Proof.
  apply set_eq. intros s. unfold slices_at. rewrite elem_of_aggregate, elem_of_map.
  setoid_rewrite elem_of_list_to_set. setoid_rewrite elem_of_seqZ. naive_solver lia.
Qed.

Section blocks.
Context (sz : Z) (Hsz : 0 < sz).

Lemma byte_in_slices k m x : k * sz ≤ x < m * sz ↔ k ≤ x / sz < m.
Proof.
  pose proof (Z.div_mod x sz ltac:(lia)). pose proof (Z.mod_pos_bound x sz Hsz). nia.
Qed.

Lemma byte_shift k x : (k * sz + x) / sz = k + x / sz.
Proof. by rewrite Z.div_add_l by lia. Qed.

Lemma byte_shift_mod k x : (k * sz + x) `mod` sz = x `mod` sz.
Proof. by rewrite Z.add_comm, Z.mod_add by lia. Qed.

Lemma aligned_shift a : a `mod` sz = 0 →
  ∀ x, (a + x) `mod` sz = x `mod` sz ∧ (a + x) / sz = a / sz + x / sz.
Proof.
  intros Ha x. pose proof (Z.div_exact a sz ltac:(lia)) as [_ E].
  specialize (E Ha). rewrite E, (Z.mul_comm sz), byte_shift_mod, byte_shift.
  by rewrite Z.div_mul by lia.
Qed.

Lemma block_of q o s : 0 < q → s * q ≤ o < (s + 1) * q ↔ s = o / q.
Proof.
  intros Hq. pose proof (Z.div_mod o q ltac:(lia)). pose proof (Z.mod_pos_bound o q Hq). nia.
Qed.
End blocks.

(** ** Agreement *)

(** A list of segments that describes the table [value] byte by byte. *)
Record describes (n sz : Z) (segs : list Segment) (value : Z → Z → option (gset Z)) : Prop := {
  ds_exact r x c : 0 ≤ x →
    value r (x / sz) = Some c ↔
    ∃ seg, seg ∈ segs ∧ seg_covers seg r x ∧
      c = slices_at n sz (seg_sources seg) (seg_byte seg x) ∧
      seg_byte seg x `mod` sz = x `mod` sz;
  ds_byte seg x : seg ∈ segs → seg_start seg ≤ x < seg_end seg →
    0 ≤ x ∧ seg_byte seg x `mod` sz = x `mod` sz;
  ds_unique seg seg' r x : seg ∈ segs → seg' ∈ segs →
    seg_covers seg r x → seg_covers seg' r x → seg = seg';
}.

Section segments.
Context (spec : CollectiveSpec) (P n sz : Z).
Context (Hv : valid_problem spec P n) (Hsz : 0 < sz).

(** One segment per rank, all of the same shape. *)
Lemma describes_ranks (ranks : list Z) size logical sources value :
  (∀ r, logical r `mod` sz = 0) →
  (∀ r o c, value r o = Some c ↔
     r ∈ ranks ∧ 0 ≤ o < size ∧ c = slices_at n sz sources (logical r + o * sz)) →
  describes n sz ((λ r, MkSegment r 0 (size * sz) (logical r) sources) <$> ranks) value.
Proof.
  intros Hmod Hval.
  pose proof (λ r, aligned_shift sz Hsz (logical r) (Hmod r)) as Hb.
  assert (Hsl : ∀ r x, slices_at n sz sources (logical r + x / sz * sz) =
                       slices_at n sz sources (logical r + x)).
  { intros r x. unfold slices_at. destruct (Hb r (x / sz * sz)) as [_ ->].
    destruct (Hb r x) as [_ ->]. by rewrite Z.div_mul by lia. }
  constructor.
  - intros r x c Hx. rewrite Hval. setoid_rewrite list_elem_of_fmap.
    unfold seg_covers, seg_byte. split.
    + intros (Hr & Ho & ->). eexists. split; [by eexists|]. simpl.
      apply (byte_in_slices sz Hsz) in Ho. rewrite Z.sub_0_r. rewrite Hsl.
      split_and!; try done; try lia. apply Hb.
    + intros (seg & (r' & -> & Hr) & (<- & Hin) & -> & _). simpl in *.
      assert (Ho : 0 ≤ x / sz < size) by (apply (byte_in_slices sz Hsz 0 size); lia).
      by rewrite Z.sub_0_r, Hsl.
  - intros seg x (r & -> & _)%list_elem_of_fmap. unfold seg_byte; simpl. intros Hx.
    split; [lia|]. rewrite Z.sub_0_r. apply Hb.
  - intros seg seg' r x (r1 & -> & _)%list_elem_of_fmap (r2 & -> & _)%list_elem_of_fmap
      [H1 _] [H2 _]. simpl in *. by subst.
Qed.

(** One segment per pair of a rank and a source. *)
Lemma describes_pairs size logical value :
  0 < size → (∀ r, logical r `mod` sz = 0) →
  (∀ r o c, value r o = Some c ↔
     0 ≤ r < P ∧ 0 ≤ o / size < P ∧
     c = {[o / size * n + logical r / sz + o `mod` size]}) →
  describes n sz (rank ← seqZ 0 P; source ← seqZ 0 P;
    [MkSegment rank (source * (size * sz)) ((source + 1) * (size * sz)) (logical rank)
       {[source]}]) value.
Proof.
  intros Hsize Hmod Hval.
  pose proof (λ r, aligned_shift sz Hsz (logical r) (Hmod r)) as Hb.
  assert (Hoff : ∀ s x, (x - s * (size * sz)) `mod` sz = x `mod` sz ∧
                 (x - s * (size * sz)) / sz = x / sz - s * size).
  { intros s x. replace (x - s * (size * sz)) with ((- s * size) * sz + x) by lia.
    rewrite byte_shift, byte_shift_mod by done. split; [done|lia]. }
  assert (Hblk : ∀ s x, s * (size * sz) ≤ x < (s + 1) * (size * sz) ↔ s = x / sz / size).
  { intros s x. rewrite !Z.mul_assoc, byte_in_slices by done. by apply block_of. }
  match goal with |- describes _ _ ?l _ => set (L := l) end.
  assert (Hin : ∀ seg, seg ∈ L ↔ ∃ r s, 0 ≤ r < P ∧ 0 ≤ s < P ∧
      seg = MkSegment r (s * (size * sz)) ((s + 1) * (size * sz)) (logical r) {[s]}).
  { intros seg. unfold L. repeat setoid_rewrite elem_assign_loop.
    setoid_rewrite list_elem_of_singleton.
    split; [intros (r & ? & s & ? & ->)|intros (r & s & ? & ? & ->)]; eauto 10. }
  clearbody L.
  assert (Hval' : ∀ s x, s = x / sz / size →
    (x / sz) `mod` size = x / sz - s * size).
  { intros s x ->. pose proof (Z.div_mod (x / sz) size ltac:(lia)). lia. }
  constructor.
  - intros r x c Hx. rewrite Hval. unfold seg_covers, seg_byte. split.
    + intros (Hr & Ho & ->). eexists. split; [apply Hin; exists r, (x / sz / size); done|]. simpl.
      rewrite Hblk. rewrite slices_at_singleton. set (s := x / sz / size).
      destruct (Hb r (x - s * (size * sz))) as [-> ->]. destruct (Hoff s x) as [-> ->].
      split_and!; try done. rewrite (Hval' s x) by done. f_equal. lia.
    + intros (seg & (r' & s & Hr & Hs & ->)%Hin & (<- & Hx') & -> & _). simpl in *.
      apply Hblk in Hx' as Es. rewrite <- Es, slices_at_singleton.
      destruct (Hb r' (x - s * (size * sz))) as [_ ->]. destruct (Hoff s x) as [_ ->].
      split_and!; try done; try lia. rewrite (Hval' s x) by done. f_equal. lia.
  - intros seg x (r & s & Hr & Hs & ->)%Hin. unfold seg_byte; simpl. intros Hx.
    split; [nia|]. destruct (Hb r (x - s * (size * sz))) as [-> _]. apply Hoff.
  - intros seg seg' r x (r1 & s1 & _ & _ & ->)%Hin (r2 & s2 & _ & _ & ->)%Hin
      [H1 Hx1] [H2 Hx2]. simpl in *. apply Hblk in Hx1, Hx2. by subst.
Qed.
End segments.

(** ** The table of a supported collective *)

Definition supported (k : CollectiveKind) : bool :=
  match k with SCATTER | GATHER => false | _ => true end.

Section expected.
Context (spec : CollectiveSpec) (P n sz : Z).
Context (Hv : valid_problem spec P n) (Hsz : 0 < sz).
Context (Hsup : supported (cs_kind spec) = true).

Lemma root_agrees : rooted (cs_kind spec) = true →
  root_rank spec = root_int spec ∧ 0 ≤ root_int spec < P.
Proof.
  intros Hr. pose proof (vp_root _ _ _ Hv) as H. rewrite Hr in H.
  destruct H as (r & E & ?). unfold root_rank, root_int. by rewrite E.
Qed.

Lemma partition_bytes : partitioned (cs_kind spec) = true →
  (n * sz) `mod` P = 0 ∧ n * sz / P = n / P * sz ∧ n = n / P * P ∧ 1 ≤ n / P.
Proof.
  intros Hp. destruct (quotient_facts spec P n Hv Hp) as [E Hq]. pose proof (vp_ranks _ _ _ Hv).
  set (q := n / P) in *. clearbody q. subst n.
  replace (q * P * sz) with (q * sz * P) by lia.
  rewrite Z.mod_mul, Z.div_mul by lia. done.
Qed.

Lemma partition_Ok f :
  partitioned (cs_kind spec) = true →
  partition_segments P (n * sz) f = Ok (f (n / P * sz)).
Proof.
  intros Hp. destruct (partition_bytes Hp) as (Hm & Hd & _). unfold partition_segments.
  pose proof (vp_ranks _ _ _ Hv). by rewrite Hm, Hd, (proj2 (Z.eqb_neq P 0)) by lia.
Qed.

Lemma expected_describes :
  ∃ segs, _expected_segments spec P (n * sz) = Ok segs ∧
    describes n sz segs (collective_value spec P n).
Proof.
  pose proof (vp_ranks _ _ _ Hv) as HP. pose proof (vp_slices _ _ _ Hv) as Hn.
  pose proof root_agrees as Hroot. pose proof partition_bytes as Hpart.
  pose proof partition_Ok as Hok.
  unfold _expected_segments, collective_value. cbv zeta.
  destruct (cs_kind spec); try done; simpl in *;
    try (destruct (Hroot eq_refl) as [-> Hroot']); clear Hroot;
    try (rewrite Hok by done; clear Hok; destruct (Hpart eq_refl) as (_ & _ & Hq & Hq1));
    eexists; (split; [reflexivity|]).
  - apply (describes_ranks n sz Hsz (seqZ 0 P) n (λ _, 0)); [done|].
    intros r o c. rewrite within_Some, elem_of_seqZ, slices_at_singleton.
    by rewrite !Z.add_0_l, Z.div_mul by lia.
  - apply (describes_ranks n sz Hsz [root_int spec] n (λ _, 0)); [done|].
    intros r o c. rewrite list_elem_of_singleton, slices_at_all, !Z.add_0_l, Z.div_mul by lia.
    destruct (Z.eqb_spec r (root_int spec)); [|naive_solver].
    rewrite within_Some. subst. naive_solver.
  - apply (describes_pairs P n sz Hsz n (λ _, 0)); [lia|done|].
    intros r o c. rewrite within_Some, Z.div_0_l by lia.
    destruct (slice_split o n ltac:(lia)) as [Eo ?]. rewrite Z.add_0_r, <- Eo.
    assert (0 ≤ o < P * n ↔ 0 ≤ o / n < P) as -> by nia. done.
  - apply (describes_ranks n sz Hsz (seqZ 0 P) n (λ _, 0)); [done|].
    intros r o c. rewrite within_Some, elem_of_seqZ, slices_at_all.
    by rewrite !Z.add_0_l, Z.div_mul by lia.
  - apply (describes_pairs P n sz Hsz (n / P) (λ r, r * (n / P * sz))); [lia| |].
    { intros r. by rewrite Z.mul_assoc, Z.mod_mul by lia. }
    intros r o c. rewrite within_Some, Z.mul_assoc, Z.div_mul by lia.
    destruct (slice_split o (n / P) ltac:(lia)) as [Eo ?].
    assert (0 ≤ o < n ↔ 0 ≤ o / (n / P) < P) as -> by nia. done.
  - apply (describes_ranks n sz Hsz (seqZ 0 P) (n / P) (λ r, r * (n / P * sz))).
    { intros r. by rewrite Z.mul_assoc, Z.mod_mul by lia. }
    intros r o c. rewrite within_Some, elem_of_seqZ, slices_at_all.
    rewrite Z.mul_assoc, <- Z.mul_add_distr_r, Z.div_mul, Z.add_0_l by lia. done.
Qed.
End expected.


Definition demo_alltoall : CollectiveSpec := MkCollectiveSpec ALL_TO_ALL "float" None PNone false.


(** * Tilings of byte ranges

    [_check_interval_cover] (of [vericcl/semantics/version_schedule.py])
    accepts exactly the tilings of a range. *)

(** The intervals that contain byte [x]. *)
Definition holders (x : Z) (intervals : list (Z * Z)) : list (Z * Z) :=
  filter (λ iv, iv.1 ≤ x < iv.2) intervals.

(** Nonempty intervals within a range, every byte of it in exactly one. *)
Record tiles (intervals : list (Z * Z)) (start end_ : Z) : Prop := {
  tl_range : start ≤ end_;
  tl_inside : Forall (λ iv, start ≤ iv.1 ∧ iv.1 < iv.2 ∧ iv.2 ≤ end_) intervals;
  tl_once x : start ≤ x < end_ → length (holders x intervals) = 1%nat;
}.

#[export] Instance tiles_perm start end_ : Proper ((≡ₚ) ==> iff) (λ l, tiles l start end_).
Proof.
  assert (H : ∀ l k, l ≡ₚ k → tiles l start end_ → tiles k start end_).
  { intros l k Hp [H1 H2 H3]. constructor; [done|by rewrite <- Hp|].
    intros x Hx. rewrite <- (H3 x Hx). unfold holders. by rewrite Hp. }
  intros l k Hp. split; by apply H.
Qed.

Lemma holders_none x l :
  Forall (λ iv, ¬ (iv.1 ≤ x < iv.2)) l → holders x l = [].
Proof.
  induction 1 as [|iv l Hiv _ IH]; [done|]. unfold holders. by rewrite filter_cons_False.
Qed.

Lemma length_holders x l iv : iv ∈ l → iv.1 ≤ x < iv.2 → (1 ≤ length (holders x l))%nat.
Proof.
  intros Hin Hx. assert (H : iv ∈ holders x l) by (by apply list_elem_of_filter).
  destruct (holders x l); [by apply elem_of_nil in H|simpl; lia].
Qed.

Lemma key_le_fst (p q : Z * Z) : key_le id p q → p.1 ≤ q.1.
Proof.
  destruct p as [a b], q as [c d]. unfold key_le, id. rewrite pleb_pltb, pltb_pair, pltb_Z.
  simpl. intros H. bool_prop. done.
Qed.

Lemma tiles_cons a b l s e :
  StronglySorted (key_le id) ((a, b) :: l) →
  tiles ((a, b) :: l) s e ↔ a = s ∧ a < b ≤ e ∧ tiles l b e.
Proof.
  intros [Hle Hs]%StronglySorted_cons.
  rewrite Forall_forall in Hle. split.
  - intros [Hse Hin Honce]. apply Forall_cons in Hin as [Hab Hin]. simpl in Hab.
    assert (a = s) as ->.
    { specialize (Honce s ltac:(lia)).
      destruct (holders s ((a, b) :: l)) as [|iv k] eqn:E; [done|].
      assert (Hiv : iv ∈ holders s ((a, b) :: l)) by (rewrite E; by left).
      apply list_elem_of_filter in Hiv as [Hiv Hmem].
      apply elem_of_cons in Hmem as [->|Hmem]; [simpl in Hiv; lia|].
      apply Hle, key_le_fst in Hmem. simpl in Hmem. lia. }
    assert (Hdis : ∀ iv, iv ∈ l → b ≤ iv.1).
    { intros iv Hiv. destruct (Z.lt_ge_cases iv.1 b) as [Hlt|]; [exfalso|done].
      rewrite Forall_forall in Hin. pose proof (Hin iv Hiv).
      specialize (Honce iv.1 ltac:(lia)). unfold holders in Honce.
      rewrite filter_cons_True in Honce by (simpl; lia). simpl in Honce.
      pose proof (length_holders iv.1 l iv Hiv ltac:(lia)). unfold holders in *. lia. }
    split; [done|]. split; [lia|]. constructor; [lia| |].
    + rewrite Forall_forall in Hin |- *. intros iv Hiv. specialize (Hin iv Hiv).
      specialize (Hdis iv Hiv). lia.
    + intros x Hx. rewrite <- (Honce x) by lia. unfold holders.
      by rewrite filter_cons_False by (simpl; lia).
  - intros (-> & Hab & [Hse Hin Honce]). constructor; [lia| |].
    + constructor; [simpl; lia|]. eapply Forall_impl; [exact Hin|]. simpl. lia.
    + intros x Hx. unfold holders. destruct (Z.lt_ge_cases x b).
      * rewrite filter_cons_True by (simpl; lia). fold (holders x l).
        rewrite holders_none; [done|]. eapply Forall_impl; [exact Hin|]. simpl. lia.
      * rewrite filter_cons_False by (simpl; lia). apply Honce. lia.
Qed.

Lemma cover_loop l s e msg :
  StronglySorted (key_le id) l →
  (∃ c, foldM (λ cursor '(left_, right_),
      raise_when (negb (left_ =? cursor) || (right_ <=? left_) || (e <? right_)) msg;;
      Ok right_) s l = Ok c ∧ c = e) ↔ tiles l s e.
Proof.
  revert s. induction l as [|[a b] l IH]; intros s Hs.
  - cbn [foldM]. split.
    + intros (? & [= <-] & <-). constructor; [lia|constructor|lia].
    + intros [? _ H]. exists s. split; [done|].
      destruct (Z.lt_ge_cases s e) as [Hse|]; [|lia]. specialize (H s ltac:(lia)). done.
  - rewrite tiles_cons by done. cbn [foldM]. rewrite <- IH by (by apply StronglySorted_cons in Hs as [_ Hs]).
    split.
    + intros (c & H & ->). inv_res. bool_prop. subst. split; [done|]. split; [lia|]. eauto.
    + intros (-> & Hab & c & Hc & ->). exists e. split; [|done].
      rewrite Z.eqb_refl, (proj2 (Z.leb_gt b s)), (proj2 (Z.ltb_ge e b)) by lia. done.
Qed.

Lemma interval_cover_Ok intervals s e label :
  _check_interval_cover intervals s e label = Ok tt ↔ tiles intervals s e.
Proof.
  rewrite <- (tiles_perm s e (sorted_by id intervals)) by apply sorted_by_perm.
  rewrite <- (cover_loop _ _ _ (SemanticError
    (label +:+ " has a gap, duplicate or out-of-range interval"))) by apply sorted_by_sorted.
  unfold _check_interval_cover. split.
  - intros H. inv_res. bool_prop. eauto.
  - intros (c & -> & ->). simpl. by rewrite Z.eqb_refl.
Qed.

(** C27 The interval check decides exactly the tilings of a range, whatever the
    order of the intervals: it accepts them if and only if all are nonempty
    and inside the range and every byte of the range lies in exactly one of
    them.  Any other list raises; nothing else escapes. *)
Theorem interval_cover_exact intervals s e label :
  (_check_interval_cover intervals s e label = Ok tt ↔
   s ≤ e ∧ (∀ a b, (a, b) ∈ intervals → s ≤ a < b ∧ b ≤ e) ∧
   ∀ x, s ≤ x < e →
     length (filter (λ iv : Z * Z, iv.1 ≤ x < iv.2) intervals) = 1%nat) ∧
  (∀ er, _check_interval_cover intervals s e label = Err er →
     ∃ msg, er = SemanticError (label +:+ msg)).
Proof.
  split.
  - rewrite interval_cover_Ok. split.
    + intros [H1 H2 H3]. split; [done|]. split; [|exact H3].
      rewrite Forall_forall in H2. intros a b Hab. specialize (H2 _ Hab). simpl in H2. lia.
    + intros (H1 & H2 & H3). constructor; [done| |exact H3].
      apply Forall_forall. intros [a b] Hab. specialize (H2 _ _ Hab). simpl. lia.
  - intros er. unfold _check_interval_cover. generalize (sorted_by id intervals). intros l.
    revert s. induction l as [|[a b] l IH]; intros s; cbn [foldM].
    + simpl. intros H. apply raise_when_Err in H as [_ ->]. eauto.
    + destruct (_ || _ || _); [intros [= <-]; eauto|apply IH].
Qed.
