(* ===== verification/VersionReplay.v ===== *)
(** * Soundness of the replay of version schedules

    An accepted schedule is a machine program whose memory holds, at the bound
    outputs, exactly the contributions that the collective requires. *)

From S2P Require Import Prelude.
From S2P Require Import Python.
From S2P Require Import Slice.
From S2P Require Import Collective.
From S2P Require Import InputModels.
From S2P Require Import Ranges.
From S2P Require Import Versions.
From S2P Require Import LedgerInvariant.
From S2P Require Import LedgerOps.
From S2P Require Import VersionMemory.
From S2P Require Import VersionSchedule.
From S2P Require Import Segments.
Local Open Scope Z_scope.

(** ** The machine program of a schedule *)

(** The data movement of an operation, by the versions of the final ledger. *)
Definition machine_of (l : VersionLedger) (op : VersionOperation) : machine_op :=
  match op_destination op, op_inputs op with
  | Some dst, [a] =>
      match vl_states l !! a with
      | Some s => Move (sv_storage s) dst
      | None => Nothing
      end
  | Some dst, [a; b] =>
      match vl_states l !! a, vl_states l !! b with
      | Some s, Some t => Sum (sv_storage s) (sv_storage t) dst
      | _, _ => Nothing
      end
  | _, _ => Nothing
  end.

Definition load_of (st : StateVersion) : machine_op :=
  Load (sv_rank st) (sv_start st) (sv_storage st).

Definition schedule_program (schedule : VersionSchedule) (l : VersionLedger) : list machine_op :=
  (load_of <$> vs_initial_states schedule) ++
  (machine_of l <$> sorted_by op_key (vs_operations schedule)).

(** What the constructor of an operation guarantees about its shape. *)
Definition op_shape (op : VersionOperation) : Prop :=
  if decide (op_kind op = "release"%string) then op_destination op = None
  else is_Some (op_destination op).

Lemma VersionOperation_init_shape op op' :
  VersionOperation_init op = Ok op' → op_shape op.
Proof.
  unfold VersionOperation_init, op_shape. cbv zeta. intros H. inv_res.
  destruct (decide _) as [E|E].
  - match goal with H : (if bool_decide _ then _ else _) = Ok _ |- _ =>
      rewrite bool_decide_eq_true_2 in H by done end.
    inv_res. bool_prop. by apply eq_None_not_Some.
  - match goal with H : (if bool_decide _ then _ else _) = Ok _ |- _ =>
      rewrite bool_decide_eq_false_2 in H by done end.
    inv_res. by bool_prop.
Qed.

Lemma in_operation_Ok {A} id (m : res A) a : in_operation id m = Ok a → m = Ok a.
Proof. by destruct m as [|[]]. Qed.

Lemma initial_states_run schedule ranks sts acc acc' :
  Forall version_wf sts →
  foldM (initial_state_step schedule ranks) acc sts = Ok acc' →
  ledger_run acc.2 (load_of <$> sts) acc'.2.
Proof.
  revert acc. induction sts as [|st sts IH]; intros [covered l] Hwf H; cbn [foldM] in H.
  { injection H as <-. constructor. }
  apply Forall_cons in Hwf as [Hst Hwf]. apply bind_Ok in H as (acc1 & H1 & H).
  apply IH in H; [|done]. csimpl. unfold initial_state_step in H1. inv_res.
  destruct x1 as [l1 s1]. inv_res. subst. eapply run_cons; [|exact H].
  bool_prop. destruct (sv_contributors st) as [|p [|]] eqn:E; try done. bool_prop.
  eapply (runs_initial l st); [done| |done].
  unfold sources_of. rewrite E. apply set_eq. intros x. csimpl. set_solver.
Qed.

(** One operation of the replay is one ledger operation. *)
Lemma replay_operation_runs rank_count cset links l fin op l' fin' :
  ledger_wf l → op_shape op →
  replay_operation rank_count cset links (l, fin) op = Ok (l', fin') →
  ledger_runs l (machine_of l op) l'.
Proof.
  intros Hl Hsh H. apply in_operation_Ok in H. inv_res. simplify_eq.
  unfold op_shape in Hsh. unfold machine_of. destruct (decide _) as [E|E].
  - rewrite bool_decide_eq_true_2 in * by done. inv_res. rewrite Hsh. by eapply runs_release.
  - rewrite bool_decide_eq_false_2 in * by done. inv_res. destruct Hsh as [dst Hdst].
    simplify_eq. rewrite Hdst.
    match goal with H : apply_write _ _ _ = Ok _ |- _ => unfold apply_write in H end.
    inv_res. case_match. inv_res. subst.
    case_bool_decide.
    + destruct (op_inputs op) as [|a [|b []]]; try done.
      match goal with H : reduce _ _ _ _ _ _ _ = _ |- _ => pose proof H as Hr end.
      apply reduce_spec in Hr as (sa & sb & ? & Hsa & _ & Hsb & _); [|done].
      rewrite Hsa, Hsb. by eapply runs_reduce.
    + destruct (op_inputs op) as [|a []]; try done.
      match goal with H : copy _ _ _ _ _ _ = _ |- _ => pose proof H as Hc end.
      apply copy_spec in Hc as (sa & ? & Hsa & _); [|done].
      rewrite Hsa. by eapply runs_copy.
Qed.

Lemma machine_of_mono l l' op :
  vl_states l ⊆ vl_states l' → (∀ id, id ∈ op_inputs op → is_Some (vl_states l !! id)) →
  machine_of l op = machine_of l' op.
Proof.
  intros Hsub Hin. unfold machine_of.
  assert (Hl : ∀ id, id ∈ op_inputs op → vl_states l' !! id = vl_states l !! id).
  { intros id Hid. destruct (Hin id Hid) as [s Hs]. rewrite Hs. by eapply lookup_weaken. }
  destruct (op_destination op) as [dst|]; [|done].
  destruct (op_inputs op) as [|a [|b []]]; try done; rewrite !Hl; try done; set_solver.
Qed.

(** Every input of a replayed operation is a stored version. *)
Lemma replay_operation_inputs rank_count cset links acc op acc' :
  replay_operation rank_count cset links acc op = Ok acc' →
  ∀ id, id ∈ op_inputs op → is_Some (vl_states acc.1 !! id).
Proof.
  destruct acc as [l fin]. unfold replay_operation. intros H%in_operation_Ok. inv_res.
  match goal with H : mapR _ _ = Ok _ |- _ => apply mapR_Ok in H; rename H into Hr end.
  intros id [i Hi]%list_elem_of_lookup.
  destruct (Forall2_lookup_l _ _ _ _ _ Hr Hi) as (s & _ & Hs).
  apply readable_Ok in Hs as [Hs _]. by eexists.
Qed.

Lemma operations_run rank_count cset links ops l fin l' fin' :
  ledger_wf l → Forall op_shape ops →
  foldM (replay_operation rank_count cset links) (l, fin) ops = Ok (l', fin') →
  ledger_run l (machine_of l' <$> ops) l' ∧ ledger_wf l' ∧ vl_states l ⊆ vl_states l'.
Proof.
  revert l fin. induction ops as [|op ops IH]; intros l fin Hl Hsh H; cbn [foldM] in H.
  { injection H as <- <-. split_and!; [constructor|done..]. }
  apply Forall_cons in Hsh as [Hop Hsh]. apply bind_Ok in H as ([l1 fin1] & H1 & H).
  pose proof (replay_operation_runs _ _ _ _ _ _ _ _ Hl Hop H1) as Hr.
  assert (Hl1 : ledger_wf l1).
  { destruct Hr as [? ? ? ? ? ? Hi|? ? ? ? ? ? ? ? Hi|? ? ? ? ? ? ? ? ? ? Hi|? ? ? Hi|? ? ? ? ? Hi].
    - apply store_spec in Hi as (_ & (s & _ & Hst) & _); [by eapply sd_wf|done|done].
    - apply copy_spec in Hi as (? & ? & Hi); [|done]. destruct_and! Hi. by eapply sd_wf.
    - apply reduce_spec in Hi as (? & ? & ? & Hi); [|done]. destruct_and! Hi. by eapply sd_wf.
    - by apply release_spec in Hi as (_ & ? & _).
    - by apply reserve_read_wf in Hi as [? _]. }
  apply IH in H as (Hrun & Hl' & Hsub); [|done|done].
  pose proof (runs_states _ _ _ Hl Hr) as Hsub1. csimpl.
  assert (Hsub2 : vl_states l ⊆ vl_states l') by (by etrans).
  split_and!; [|done|done]. eapply run_cons; [|exact Hrun].
  rewrite <- (machine_of_mono l l'); [done|done|].
  by apply (replay_operation_inputs _ _ _ _ _ _ H1).
Qed.

(** ** The output check *)

Lemma elem_of_segments_of_rank expected rank start index :
  (start, index) ∈ segments_of_rank expected rank ↔
  ∃ seg, 0 ≤ index ∧ expected !! Z.to_nat index = Some seg ∧
         seg_rank seg = rank ∧ start = seg_start seg.
Proof.
  unfold segments_of_rank. rewrite list_elem_of_omap. split.
  - intros ([i seg] & [k Hk]%list_elem_of_lookup & Hx).
    apply lookup_zip_Some in Hk as [Hi Hseg]. apply lookup_seqZ in Hi as [-> Hk].
    destruct (Z.eqb_spec (seg_rank seg) rank); [|done]. injection Hx as <- <-.
    exists seg. split; [lia|]. by replace (Z.to_nat (0 + Z.of_nat k)) with k by lia.
  - intros (seg & Hi & Hseg & Hr & ->). exists (index, seg).
    rewrite Hr, Z.eqb_refl. split; [|done]. apply list_elem_of_lookup. exists (Z.to_nat index).
    apply lookup_zip_Some. split; [|done]. apply lookup_seqZ.
    apply lookup_lt_Some in Hseg. lia.
Qed.

(** A binding accounts for a byte range of a segment. *)
Record binds (l : VersionLedger) (at_us : pyval) (seg : Segment) (out : OutputBinding)
    (st : StateVersion) : Prop := {
  bd_readable : readable l (ob_state out) at_us = Ok st;
  bd_rank : sv_rank st = ob_rank out ∧ ob_rank out = seg_rank seg;
  bd_logical : sv_start st = seg_logical seg + ob_offset out - seg_start seg;
  bd_sources : sources_of st = seg_sources seg;
}.

Definition bound_range (out : OutputBinding) (st : StateVersion) : Z * Z :=
  (ob_offset out, ob_offset out + sv_end st - sv_start st).

(** Every interval of the coverage comes from a binding seen so far. *)
Definition coverage_ok (l : VersionLedger) (at_us : pyval) (expected : list Segment)
    (outs : list OutputBinding) (coverage : list (list (Z * Z))) : Prop :=
  length coverage = length expected ∧
  ∀ i seg ivs iv, expected !! i = Some seg → coverage !! i = Some ivs → iv ∈ ivs →
    ∃ out st, out ∈ outs ∧ binds l at_us seg out st ∧ iv = bound_range out st.

Lemma output_step_ok l at_us expected outs cov used out cov' used' :
  coverage_ok l at_us expected outs cov →
  output_step expected l at_us (cov, used) out = Ok (cov', used') →
  coverage_ok l at_us expected (outs ++ [out]) cov'.
Proof.
  intros [Hlen Hcov] H. unfold output_step in H. inv_res. cbv zeta in *. inv_res. simplify_eq.
  split; [by rewrite length_alter|]. bool_prop. destruct x2 as [start index].
  apply list_elem_of_lookup_2, elem_of_segments_of_rank in H2
    as (seg0 & Hi & Hseg0 & Hrank & ->).
  simpl in *. assert (x3 = seg0) as -> by congruence.
  assert (Hweak : ∀ i seg ivs iv, expected !! i = Some seg → cov !! i = Some ivs → iv ∈ ivs →
    ∃ o st, o ∈ outs ++ [out] ∧ binds l at_us seg o st ∧ iv = bound_range o st).
  { intros i seg ivs iv E1 E2 E3. destruct (Hcov _ _ _ _ E1 E2 E3) as (o & st & ? & ?).
    exists o, st. split; [set_solver|done]. }
  intros i seg ivs iv Hseg Hivs Hiv. destruct (decide (i = Z.to_nat index)) as [->|Hne].
  - rewrite list_lookup_alter_eq in Hivs.
    destruct (cov !! Z.to_nat index) as [old|] eqn:Eold; [|done]. simpl in Hivs.
    injection Hivs as <-. apply elem_of_app in Hiv as [Hiv|Hiv]; [by eapply Hweak|].
    apply list_elem_of_singleton in Hiv as ->. assert (seg = seg0) as -> by congruence.
    exists out, x. split; [set_solver|]. split; [|done]. constructor; try done; congruence.
  - rewrite list_lookup_alter_ne in Hivs by done. by eapply Hweak.
Qed.

Lemma output_loop_ok l at_us expected outputs cov used :
  foldM (output_step expected l at_us) (replicate (length expected) [], ∅) outputs
    = Ok (cov, used) →
  coverage_ok l at_us expected outputs cov.
Proof.
  intros H. cut (coverage_ok l at_us expected outputs (cov, used).1); [done|].
  eapply (foldM_ind (λ outs acc, coverage_ok l at_us expected outs acc.1)); [| |exact H].
  - simpl. split; [by rewrite length_replicate|]. intros i seg ivs iv _ Hr.
    apply lookup_replicate in Hr as [-> _]. by intros ?%elem_of_nil.
  - intros done out [c u] [c' u'] Hd _ Hs. by eapply output_step_ok.
Qed.

Lemma totals_loop_ok expected coverage totals totals' :
  foldM (λ totals '(segment, intervals),
    _check_interval_cover intervals (seg_start segment) (seg_end segment)
      ("output for rank " +:+ rank_str (seg_rank segment));;
    total ← of_option (dict_get (seg_rank segment) totals) (KeyError (rank_str (seg_rank segment)));
    Ok (dict_set (seg_rank segment) (total + (seg_end segment - seg_start segment)) totals))
    totals (zip expected coverage) = Ok totals' →
  ∀ i seg ivs, expected !! i = Some seg → coverage !! i = Some ivs →
    tiles ivs (seg_start seg) (seg_end seg).
Proof.
  intros H i seg ivs Hseg Hivs.
  assert (Hin : (seg, ivs) ∈ zip expected coverage).
  { apply list_elem_of_lookup. exists i. by apply lookup_zip_Some. }
  clear Hseg Hivs. revert totals H.
  induction (zip expected coverage) as [|[seg0 ivs0] l IH]; intros totals H;
    [by apply elem_of_nil in Hin|]. cbn [foldM] in H. inv_res.
  apply elem_of_cons in Hin as [[= -> ->]|Hin]; [|by eapply IH].
  eapply interval_cover_Ok. by match goal with H : _check_interval_cover _ _ _ _ = _ |- _ =>
    rewrite H end.
Qed.

Lemma tiles_holder ivs s e x :
  tiles ivs s e → s ≤ x < e → ∃ iv, iv ∈ ivs ∧ iv.1 ≤ x < iv.2.
Proof.
  intros Ht Hx. pose proof (tl_once _ _ _ Ht x Hx) as H.
  destruct (holders x ivs) as [|iv k] eqn:E; [done|].
  assert (Hiv : iv ∈ holders x ivs) by (rewrite E; by left).
  apply list_elem_of_filter in Hiv as [? ?]. eauto.
Qed.

(** An accepted output: every byte of every segment has its binding. *)
Lemma check_outputs_sound spec ranks bytes outputs l at_us totals :
  check_version_outputs spec ranks bytes outputs l at_us = Ok totals →
  ∃ expected, _expected_segments spec ranks bytes = Ok expected ∧
    ∀ seg x, seg ∈ expected → seg_start seg ≤ x < seg_end seg →
      ∃ out st, out ∈ outputs ∧ binds l at_us seg out st ∧
        ob_offset out ≤ x < ob_offset out + (sv_end st - sv_start st).
Proof.
  unfold check_version_outputs. intros H. inv_res. destruct x0 as [cov used].
  match goal with H : foldM (output_step _ _ _) _ _ = _ |- _ => apply output_loop_ok in H as [Hlen Hcov] end.
  pose proof (totals_loop_ok _ _ _ _ H1) as Ht.
  exists x. split; [done|]. intros seg b [i Hi]%list_elem_of_lookup Hb.
  destruct (lookup_lt_is_Some_2 cov i) as [ivs Hivs].
  { rewrite Hlen. by eapply lookup_lt_Some. }
  destruct (tiles_holder _ _ _ b (Ht i seg ivs Hi Hivs) Hb) as (iv & Hiv & Hbiv).
  destruct (Hcov i seg ivs iv Hi Hivs Hiv) as (out & st & Hout & Hbd & ->).
  exists out, st. split; [done|]. split; [done|]. unfold bound_range in Hbiv. simpl in Hbiv. lia.
Qed.

(** ** Replay as a whole *)

(** The parts of an accepted replay. *)
Lemma replay_inv schedule inputs l ev :
  replay_version_schedule schedule inputs = Ok (l, ev) →
  ∃ budget l0 l1 cset links fin totals,
    VersionLedger_init ((λ rank, (rank, budget)) <$> seqZ 0 (vs_rank_count schedule)) = Ok l0 ∧
    _initial_states schedule inputs l0 = Ok l1 ∧
    foldM (replay_operation (vs_rank_count schedule) cset links) (l1, [])
      (sorted_by op_key (vs_operations schedule)) = Ok (l, fin) ∧
    check_version_outputs (ri_collective inputs) (vs_rank_count schedule)
      (vs_input_bytes schedule) (vs_outputs schedule) l (latest fin) = Ok totals ∧
    bind_constraints inputs = Ok cset ∧ directed_links (ri_resolved_topology inputs) = Ok links.
Proof.
  unfold replay_version_schedule. cbv zeta. intros H. inv_res. case_match. inv_res. simplify_eq.
  do 7 eexists. split_and!; eassumption.
Qed.

(** An accepted replay is a run of the schedule's machine program. *)
Lemma replay_runs schedule inputs l ev m0 :
  Forall version_wf (vs_initial_states schedule) →
  Forall op_shape (vs_operations schedule) →
  replay_version_schedule schedule inputs = Ok (l, ev) →
  ledger_wf l ∧ represents l (machine_exec (schedule_program schedule l) m0).
Proof.
  intros Hinit Hops H.
  apply replay_inv in H as (budget & l0 & l1 & cset & links & fin & totals & H0 & H1 & H2 & _).
  apply init_ledger_wf in H0 as (Hl0 & Ha & _).
  unfold _initial_states in H1. cbv zeta in H1. inv_res. case_match. inv_res. subst.
  pose proof H as Hrun. apply initial_states_run in Hrun; [|done]. simpl in Hrun.
  assert (Hm0 : represents l0 m0) by (intros i s Hi; set_solver).
  destruct (ledger_run_inv _ _ _ m0 Hrun Hl0 Hm0) as (Hl1 & Hm1 & _).
  assert (Hops' : Forall op_shape (sorted_by op_key (vs_operations schedule))).
  { rewrite Forall_forall in Hops |- *. intros op Hop. apply Hops. by apply elem_of_sorted_by in Hop. }
  apply operations_run in H2 as (Hrun2 & Hl & _); [|done|done].
  split; [done|]. unfold schedule_program, machine_exec. rewrite foldl_app.
  by eapply ledger_run_inv.
Qed.

Lemma schedule_dimensions schedule schedule' :
  VersionSchedule_init schedule = Ok schedule' →
  0 < vs_slice_size_bytes schedule ∧
  vs_input_bytes schedule / vs_slice_size_bytes schedule * vs_slice_size_bytes schedule
    = vs_input_bytes schedule.
Proof.
  unfold VersionSchedule_init. intros H. inv_res.
  match goal with H : iterM _ _ = Ok _ |- _ => apply iterM_Ok in H; rename H into Hd end.
  do 2 apply Forall_cons in Hd as [_ Hd]. apply Forall_cons in Hd as [Hs _].
  inv_res. inv_nonneg. bool_prop. split; [lia|].
  pose proof (Z.div_exact (vs_input_bytes schedule) (vs_slice_size_bytes schedule)). lia.
Qed.

(** C1 End-to-end soundness of the replay.  If a constructed schedule is
    accepted, then for every output slot that the collective requires and
    every byte of it, some binding of the schedule places that byte in a
    version's storage on the slot's rank, and the machine that performs the
    schedule's copies and additions, from memory of any content, leaves there
    exactly the required contributions: each required source slice summed
    once, nothing else, at the same offset within the slice. *)
Theorem replay_sound schedule inputs l ev outs m0 :
  VersionSchedule_init schedule = Ok schedule →
  Forall version_wf (vs_initial_states schedule) →
  Forall (λ op, VersionOperation_init op = Ok op) (vs_operations schedule) →
  replay_version_schedule schedule inputs = Ok (l, ev) →
  let sz := vs_slice_size_bytes schedule in
  let n := vs_input_bytes schedule / sz in
  required_outputs (ri_collective inputs) (vs_rank_count schedule) n = Ok outs →
  ∀ slot c x, dict_get slot outs = Some c →
    slot_offset slot * sz ≤ x < (slot_offset slot + 1) * sz →
    ∃ out st sources p, out ∈ vs_outputs schedule ∧
      vl_states l !! ob_state out = Some st ∧ ob_state out ∈ vl_active l ∧
      sv_rank st = slot_rank slot ∧ br_rank (sv_storage st) = slot_rank slot ∧
      ob_offset out ≤ x < ob_offset out + br_size (sv_storage st) ∧
      machine_exec (schedule_program schedule l) m0 (br_key (sv_storage st))
        (br_offset (sv_storage st) + (x - ob_offset out)) = Some (sources, p) ∧
      slices_at n sz sources p = c ∧ p `mod` sz = x `mod` sz.
Proof.
  intros Hs Hinit Hops H sz n Houts slot c x Hslot Hx.
  apply schedule_dimensions in Hs as [Hsz Hn]. fold sz in Hsz, Hn.
  assert (Hsh : Forall op_shape (vs_operations schedule)).
  { eapply Forall_impl; [exact Hops|]. intros op. apply VersionOperation_init_shape. }
  destruct (replay_runs _ _ _ _ m0 Hinit Hsh H) as [Hl Hm].
  apply replay_inv in H as (budget & l0 & l1 & cset & links & fin & totals & _ & _ & _ & Hc & _).
  apply check_outputs_sound in Hc as (segs & Hsegs & Hbind).
  apply required_outputs_Ok in Houts as Hv.
  destruct (required_outputs_table _ _ _ Hv) as (outs' & Houts' & _ & Htable).
  assert (outs' = outs) as -> by congruence. rewrite Htable in Hslot.
  assert (Hsup : supported (cs_kind (ri_collective inputs)) = true).
  { destruct (cs_kind _) eqn:E; try done; unfold _expected_segments in Hsegs; by rewrite E in Hsegs. }
  destruct (expected_describes _ _ _ sz Hv Hsz Hsup) as (segs' & Hsegs' & Hds).
  fold n in Hn. rewrite Hn in Hsegs'. assert (segs' = segs) as -> by congruence.
  assert (Hq : x / sz = slot_offset slot).
  { pose proof (proj1 (byte_in_slices sz Hsz (slot_offset slot) (slot_offset slot + 1) x) Hx). lia. }
  pose proof (collective_value_bounds _ _ _ _ _ _ Hslot) as Hb.
  rewrite <- Hq in Hslot. apply (ds_exact _ _ _ _ Hds) in Hslot as (seg & Hseg & Hcov & -> & Hmod);
    [|nia].
  destruct Hcov as [Hrank Hrange].
  destruct (Hbind seg x Hseg Hrange) as (out & st & Hout & [Hread [Hr1 Hr2] Hlog Hsrc] & Hxo).
  apply readable_Ok in Hread as (Hst & Hact & _).
  destruct (lw_states l Hl _ _ Hst) as [_ Hwf].
  exists out, st, (seg_sources seg), (seg_byte seg x).
  rewrite (vw_size _ Hwf), (vw_rank _ Hwf).
  split_and!; try done; try congruence; try lia.
  specialize (Hm _ _ Hact Hst (x - ob_offset out)). unfold phys_read in Hm.
  rewrite Hm by (rewrite (vw_size _ Hwf); lia). rewrite Hsrc. unfold seg_byte. do 2 f_equal. lia.
Qed.

(** ** A concrete schedule: a broadcast of four bytes to two ranks *)

Definition demo_topology : pyval :=
  PDict [("directed_links"%string, PList [PDict [("src"%string, PInt 0); ("dst"%string, PInt 1)]])].
Definition demo_config : pyval :=
  PDict [("runtime"%string, PDict [("scratch_bytes_per_rank"%string, PInt 0)])].

Definition demo_broadcast : ResolvedInput :=
  MkResolvedInput (MkCollectiveSpec BROADCAST "float" None (PInt 0) false)
    (MkHyperparameters 4 (Some 4) LATENCY None) (MkSolverConfig 8) (MkAtomConstraints None []) 2
    demo_topology demo_config.

Definition demo_input_state : StateVersion :=
  MkStateVersion "a" 0 0 4 [MkDataRange 0 0 4] (MkBufferRegion 0 "in" 0 4 "input") 0.

Definition demo_schedule : VersionSchedule :=
  MkVersionSchedule 2 4 4 1 [demo_input_state]
    [MkVersionOperation "send" "copy" ["a"%string] (Some "b"%string)
       (Some (MkBufferRegion 1 "out" 0 4 "output")) (PInt 0) (PInt 2) 0 [] []]
    [MkOutputBinding 0 0 "a"; MkOutputBinding 1 0 "b"].

Lemma replay_sound_witness :
  ∃ l ev outs, replay_version_schedule demo_schedule demo_broadcast = Ok (l, ev) ∧
    required_outputs (ri_collective demo_broadcast) 2 1 = Ok outs ∧
    ∀ m0, ∃ out st sources p, out ∈ vs_outputs demo_schedule ∧
      vl_states l !! ob_state out = Some st ∧ sv_rank st = 1 ∧
      machine_exec (schedule_program demo_schedule l) m0 (br_key (sv_storage st))
        (br_offset (sv_storage st) + (3 - ob_offset out)) = Some (sources, p) ∧
      slices_at 1 4 sources p = {[0]}.
Proof.
  destruct (replay_version_schedule demo_schedule demo_broadcast) as [[l ev]|] eqn:E;
    [|vm_compute in E; discriminate E].
  destruct (required_outputs (ri_collective demo_broadcast) 2 1) as [outs|] eqn:Eo;
    [|vm_compute in Eo; discriminate Eo].
  exists l, ev, outs. split; [reflexivity|]. split; [reflexivity|]. intros m0.
  assert (Hwf : version_wf demo_input_state).
  { refine (proj1 (StateVersion_init_wf "a" 0 0 4 [MkDataRange 0 0 4]
      (MkBufferRegion 0 "in" 0 4 "input") (PInt 0) _ _)).
    vm_compute. reflexivity. }
  destruct (replay_sound demo_schedule demo_broadcast l ev outs m0) with
    (slot := MkOutputSlot 1 0) (c := {[0]} : gset Z) (x := 3)
    as (out & st & S & p & ? & ? & _ & ? & _ & _ & ? & ? & _).
  - vm_compute. reflexivity.
  - constructor; [exact Hwf|constructor].
  - repeat constructor.
  - exact E.
  - exact Eo.
  - vm_compute in Eo. injection Eo as <-. reflexivity.
  - vm_compute. split; congruence.
  - by exists out, st, S, p.
Defined.
