(* ===== verification/Atom.v ===== *)
(** * Atoms, transfers and schedules ([vericcl/semantics/atom.py])

    An atom is one slice with the path it has travelled; a transfer moves the
    atoms of a payload over one physical link; a schedule is a set of
    transfers with predecessors.  The constructors below are the
    [__post_init__] methods: a value of these records that the program holds
    is one that its constructor returned. *)

From S2P Require Import Prelude.
From S2P Require Import Python.
From S2P Require Import Slice.
From S2P Require Import InputModels.
Local Open Scope Z_scope.

Definition _TRANSFER_KINDS : list string := ["REDUCE"; "SEND"]%string.

Record Symbol_ : Type := MkSymbol { sy_src : Z; sy_dst : Z; sy_ready : Z }.

Record PathStage : Type := MkPathStage {
  ps_stage_id : Z;
  ps_operator : string;
  ps_symbols : list Symbol_;
}.

Record Atom : Type := MkAtom {
  at_slice_id : Z;
  at_size : Z;
  at_path : list PathStage;
  at_st : Z;
  at_ed : Z;
}.

Record Transfer : Type := MkTransfer {
  tr_id : string;
  tr_kind : string;
  tr_src : Z;
  tr_dst : Z;
  tr_channel : Z;
  tr_stage : Z;
  tr_members : gset Z;
  tr_atoms : list Atom;
  tr_st : Z;
  tr_ed : Z;
  tr_preds : gset string;
}.

(** An entry of [metadata["path_roots"]]: one root, or one per member slice. *)
Inductive path_root : Type :=
  | SharedRoot (root : pyval)
  | MemberRoots (roots : list (Z * pyval)).

(** The metadata entries that the modelled code reads.  [None] stands for an
    absent entry and, for [path_roots] and [final_outputs], for a value that is
    not a mapping; in [final_outputs], for a value that [sorted] rejects.
    [final_dependencies] lists the entries whose value can be iterated: the
    code treats every other case as an empty entry. *)
Record Metadata : Type := MkMetadata {
  md_path_scope : option string;
  md_path_roots : option (list (string * path_root));
  md_final_outputs : option (list (string * option (list Z)));
  md_final_dependencies : list (string * list pyval);
  md_semantic_predecessors : option pyval;
}.

Record Schedule : Type := MkSchedule {
  sc_id : string;
  sc_transfers : list Transfer;
  sc_final_state_ids : list string;
  sc_rank_count : Z;
  sc_slice_count : Z;
  sc_slice_size : Z;
  sc_metadata : Metadata;
}.

#[export] Instance Symbol_eq_dec : EqDecision Symbol_.
Proof. solve_decision. Defined.
#[export] Instance PathStage_eq_dec : EqDecision PathStage.
Proof. solve_decision. Defined.

(** ** Symbols and path stages *)

Definition Symbol_init (src_rank dst_rank : Z) (ready_time : pyval) : res Symbol_ :=
  integer_field (PInt src_rank) "symbol.src_rank" 0;;
  integer_field (PInt dst_rank) "symbol.dst_rank" 0;;
  raise_when (src_rank =? dst_rank) (SemanticError "symbol ranks must be distinct");;
  ready ← time_field ready_time "symbol.ready_time";
  Ok (MkSymbol src_rank dst_rank ready).

Definition PathStage_init (stage_id : Z) (operator : string) (symbols : list Symbol_)
    : res PathStage :=
  integer_field (PInt stage_id) "path_stage.stage_id" 0;;
  raise_when (negb (bool_decide (operator ∈ _TRANSFER_KINDS)))
    (SemanticError "path_stage.operator must be SEND or REDUCE");;
  raise_when (bool_decide (symbols = []))
    (SemanticError "path_stage.symbols must not be empty");;
  Ok (MkPathStage stage_id operator symbols).

Definition operation_count (self : PathStage) : Z := Z.of_nat (length (ps_symbols self)).

(** ** Atoms *)

Definition index_error {A} (o : option A) : res A :=
  of_option o (IndexError "tuple index out of range").

Definition current_symbol (self : Atom) : res Symbol_ :=
  stage ← index_error (last (at_path self));
  index_error (last (ps_symbols stage)).

(** One symbol of the chain check, after [previous_symbol]. *)
Definition chain_step (previous_symbol : option Symbol_) (symbol : Symbol_)
    : res (option Symbol_) :=
  match previous_symbol with
  | None => Ok tt
  | Some previous =>
      raise_when (negb (sy_dst previous =? sy_src symbol))
        (SemanticError "atom path must be a contiguous rank chain");;
      raise_when (sy_ready symbol <? sy_ready previous)
        (SemanticError "atom path ready_time values must be non-decreasing")
  end;;
  Ok (Some symbol).

Definition stage_step (previous : option Z * option Symbol_) (stage : PathStage)
    : res (option Z * option Symbol_) :=
  raise_when match previous.1 with
             | Some previous_stage_id => ps_stage_id stage <=? previous_stage_id
             | None => false
             end (SemanticError "atom path stage IDs must be strictly increasing");;
  previous_symbol ← foldM chain_step previous.2 (ps_symbols stage);
  Ok (Some (ps_stage_id stage), previous_symbol).

Definition _validate_chain (self : Atom) : res unit :=
  foldM stage_step (None, None) (at_path self);; Ok tt.

Definition Atom_init (slice_id slice_size_bytes : Z) (path : list PathStage)
    (st_time ed_time : pyval) : res Atom :=
  integer_field (PInt slice_id) "atom.slice_id" 0;;
  integer_field (PInt slice_size_bytes) "atom.slice_size_bytes" 1;;
  raise_when (bool_decide (path = [])) (SemanticError "atom.path must not be empty");;
  st ← time_field st_time "atom.st_time";
  ed ← time_field ed_time "atom.ed_time";
  let self := MkAtom slice_id slice_size_bytes path st ed in
  raise_when (ed <? st) (SemanticError "atom.st_time must not exceed atom.ed_time");;
  _validate_chain self;;
  symbol ← current_symbol self;
  raise_when (st <? sy_ready symbol)
    (SemanticError "atom.st_time must not precede the current ready_time");;
  Ok self.

Definition stage_num (self : Atom) : Z := Z.of_nat (length (at_path self)).

Definition first_symbol (self : Atom) : res Symbol_ :=
  stage ← index_error (head (at_path self));
  index_error (head (ps_symbols stage)).

(** [except ValueError as error: raise SemanticError(str(error))] *)
Definition value_error_as_semantic {A} (m : res A) : res A :=
  match m with Err (ValueError msg) => Err (SemanticError msg) | _ => m end.

Definition validate_path_prefix (self : Atom) (current_rank : Z) (slice_count : option Z)
    : res unit :=
  integer_field (PInt current_rank) "current_rank" 0;;
  first ← first_symbol self;
  match slice_count with
  | None => Ok tt
  | Some n =>
      expected_source ← value_error_as_semantic (source_rank (PInt (at_slice_id self)) (PInt n));
      raise_when (negb (sy_src first =? expected_source))
        (SemanticError "atom path does not start at the slice source rank")
  end;;
  current ← current_symbol self;
  raise_when (negb (sy_dst current =? current_rank))
    (SemanticError "atom path does not end at the current rank").

(** ** Transfers *)

Definition _validate_atoms (self : Transfer) : res unit :=
  first ← index_error (head (tr_atoms self));
  iterM (λ atom,
    raise_when (negb (at_size atom =? at_size first))
      (SemanticError "transfer atoms must have equal slice sizes");;
    raise_when (negb (at_st atom =? tr_st self) || negb (at_ed atom =? tr_ed self))
      (SemanticError "transfer and atom time intervals must match");;
    current_stage ← index_error (last (at_path atom));
    symbol ← current_symbol atom;
    raise_when (negb (ps_stage_id current_stage =? tr_stage self) ||
                negb (bool_decide (ps_operator current_stage = tr_kind self)) ||
                negb (sy_src symbol =? tr_src self) || negb (sy_dst symbol =? tr_dst self))
      (SemanticError "transfer atom must end with the physical operation");;
    validate_path_prefix atom (tr_dst self) None) (tr_atoms self).

Definition Transfer_init (transfer_id kind : string) (src_rank dst_rank channel stage_id : Z)
    (member_slice_ids : gset Z) (atoms : list Atom) (st_time ed_time : pyval)
    (predecessor_ids : gset string) : res Transfer :=
  identifier_field (PStr transfer_id) "transfer.transfer_id";;
  raise_when (negb (bool_decide (kind ∈ _TRANSFER_KINDS)))
    (SemanticError "transfer.kind must be SEND or REDUCE");;
  integer_field (PInt src_rank) "transfer.src_rank" 0;;
  integer_field (PInt dst_rank) "transfer.dst_rank" 0;;
  raise_when (src_rank =? dst_rank) (SemanticError "transfer ranks must be distinct");;
  integer_field (PInt channel) "transfer.channel" 0;;
  integer_field (PInt stage_id) "transfer.stage_id" 0;;
  raise_when (bool_decide (member_slice_ids = ∅))
    (SemanticError "transfer.member_slice_ids must not be empty");;
  iterM (λ slice_id, integer_field (PInt slice_id) "transfer.member_slice_ids" 0;; Ok tt)
    (elements member_slice_ids);;
  raise_when (bool_decide (atoms = []))
    (SemanticError "transfer.atoms must contain Atom values");;
  let atoms := sorted_by at_slice_id atoms in
  let atom_slice_ids : gset Z := list_to_set (at_slice_id <$> atoms) in
  raise_when (negb (Z.of_nat (length atoms) =? Z.of_nat (size atom_slice_ids)) ||
              negb (bool_decide (atom_slice_ids = member_slice_ids)))
    (SemanticError "transfer atoms must match member_slice_ids exactly");;
  iterM (λ predecessor_id,
    identifier_field (PStr predecessor_id) "transfer.predecessor_ids";; Ok tt)
    (elements predecessor_ids);;
  raise_when (bool_decide (transfer_id ∈ predecessor_ids))
    (SemanticError "transfer must not depend on itself");;
  st ← time_field st_time "transfer.st_time";
  ed ← time_field ed_time "transfer.ed_time";
  raise_when (ed <? st) (SemanticError "transfer.st_time must not exceed transfer.ed_time");;
  let self := MkTransfer transfer_id kind src_rank dst_rank channel stage_id
                member_slice_ids atoms st ed predecessor_ids in
  _validate_atoms self;;
  Ok self.

Definition physical_bytes (self : Transfer) : res Z :=
  first ← index_error (head (tr_atoms self));
  Ok (at_size first).

Definition is_forbidden (self : Transfer) (forbidden : list ForbiddenTransfer) : bool :=
  existsb (λ item,
    bool_decide (ft_slice_id item ∈ tr_members self) &&
    (ft_src_rank item =? tr_src self) && (ft_dst_rank item =? tr_dst self) &&
    (ft_stage_id item =? tr_stage self)) forbidden.

(** ** Schedules *)

(** The checks on one declared root, and its values. *)
Definition root_values (transfers_by_id : list (string * Transfer)) (transfer_id : string)
    (root : path_root) : res (list pyval) :=
  match root with
  | SharedRoot v => Ok [v]
  | MemberRoots roots =>
      transfer ← of_option (dict_get transfer_id transfers_by_id) (KeyError transfer_id);
      raise_when (negb (bool_decide (list_to_set roots.*1 = tr_members transfer)))
        (SemanticError "per-atom path roots must cover transfer members");;
      Ok roots.*2
  end.

Definition check_path_roots (rank_count : Z) (transfers_by_id : list (string * Transfer))
    (path_roots : list (string * path_root)) : res unit :=
  iterM (λ '(transfer_id, root),
    identifier_field (PStr transfer_id) "schedule.metadata.path_roots";;
    values ← root_values transfers_by_id transfer_id root;
    iterM (λ value,
      v ← integer_field value "schedule.metadata.path_roots" 0;
      raise_when (rank_count <=? v)
        (SemanticError "stage_suffix path root is outside the rank range")) values)
    path_roots.

(** The root a stage-suffix atom must start at. *)
Definition declared_root (path_roots : list (string * path_root)) (transfer_id : string)
    (slice_id : Z) : res pyval :=
  root ← of_option (dict_get transfer_id path_roots) (KeyError transfer_id);
  match root with
  | SharedRoot v => Ok v
  | MemberRoots roots => of_option (dict_get slice_id roots) (KeyError (str_of_int slice_id))
  end.

(** The checks of [_validate_transfers] on one atom of a transfer. *)
Definition check_schedule_atom (self : Schedule) (suffix : bool)
    (path_roots : list (string * path_root)) (transfer : Transfer) (atom : Atom) : res unit :=
  raise_when (sc_rank_count self * sc_slice_count self <=? at_slice_id atom)
    (SemanticError "atom slice_id is outside the global slice range");;
  raise_when (negb (at_size atom =? sc_slice_size self))
    (SemanticError "atom slice size does not match the schedule slice size");;
  (if suffix then
     first ← first_symbol atom;
     root ← declared_root path_roots (tr_id transfer) (at_slice_id atom);
     raise_when (negb (py_eq_int root (sy_src first)))
       (SemanticError "stage_suffix atom does not start at its declared root")
   else Ok tt);;
  validate_path_prefix atom (tr_dst transfer)
    (if suffix then None else Some (sc_slice_count self)).

Definition _validate_transfers (self : Schedule) : res unit :=
  let path_scope := default "global"%string (md_path_scope (sc_metadata self)) in
  raise_when (negb (bool_decide (path_scope ∈ ["global"; "stage_suffix"]%string)))
    (SemanticError "schedule.metadata.path_scope must be global or stage_suffix");;
  let suffix := bool_decide (path_scope = "stage_suffix"%string) in
  let transfer_ids : gset string := list_to_set (tr_id <$> sc_transfers self) in
  let transfers_by_id := dict_of_list ((λ t, (tr_id t, t)) <$> sc_transfers self) in
  path_roots ←
    (if suffix then
       path_roots ← of_option (md_path_roots (sc_metadata self))
         (SemanticError "stage_suffix schedule requires path_roots metadata");
       raise_when (negb (bool_decide (list_to_set path_roots.*1 = transfer_ids)))
         (SemanticError "stage_suffix path_roots must cover every transfer exactly");;
       check_path_roots (sc_rank_count self) transfers_by_id path_roots;;
       Ok path_roots
     else Ok []);
  iterM (λ transfer,
    raise_when ((sc_rank_count self <=? tr_src transfer) || (sc_rank_count self <=? tr_dst transfer))
      (SemanticError "transfer rank is outside the schedule rank range");;
    raise_when (negb (bool_decide (tr_preds transfer ⊆ transfer_ids)))
      (SemanticError "transfer predecessor is missing from the schedule");;
    iterM (check_schedule_atom self suffix path_roots transfer) (tr_atoms transfer))
    (sc_transfers self).

Definition Schedule_init (self : Schedule) : res Schedule :=
  identifier_field (PStr (sc_id self)) "schedule.schedule_id";;
  integer_field (PInt (sc_rank_count self)) "schedule.rank_count" 1;;
  integer_field (PInt (sc_slice_count self)) "schedule.slice_count" 1;;
  integer_field (PInt (sc_slice_size self)) "schedule.slice_size_bytes" 1;;
  raise_when (negb (bool_decide (NoDup (tr_id <$> sc_transfers self))))
    (SemanticError "schedule transfer IDs must be unique");;
  iterM (λ state_id, identifier_field (PStr state_id) "schedule.final_state_ids";; Ok tt)
    (sc_final_state_ids self);;
  raise_when (negb (bool_decide (NoDup (sc_final_state_ids self))))
    (SemanticError "schedule final state IDs must be unique");;
  _validate_transfers self;;
  Ok self.

Lemma index_error_terminates {A} (o : option A) : terminates (index_error o).
Proof. unfold index_error. terminates. Qed.

#[export] Hint Resolve index_error_terminates : terminates.
