(* ===== verification/AtomLaws.v ===== *)
(** * What the constructors of atoms, transfers and schedules guarantee *)

From S2P Require Import Prelude.
From S2P Require Import Python.
From S2P Require Import Slice.
From S2P Require Import Atom.
Local Open Scope Z_scope.

(** The hops of an atom, over all its stages. *)
Definition route (self : Atom) : list Symbol_ := at_path self ≫= ps_symbols.

(** Consecutive hops meet at a rank and do not go back in time. *)
Fixpoint linked (previous : option Symbol_) (hops : list Symbol_) : Prop :=
  match hops with
  | [] => True
  | hop :: hops =>
      match previous with
      | None => True
      | Some p => sy_dst p = sy_src hop ∧ sy_ready p ≤ sy_ready hop
      end ∧ linked (Some hop) hops
  end.

Definition last_or {A} (previous : option A) (l : list A) : option A :=
  match last l with Some x => Some x | None => previous end.

(** Stage ids increase strictly from [previous] on. *)
Fixpoint increasing (previous : option Z) (ids : list Z) : Prop :=
  match ids with
  | [] => True
  | x :: ids => match previous with None => True | Some p => p < x end ∧ increasing (Some x) ids
  end.

Record atom_wf (a : Atom) : Prop := {
  aw_slice : 0 ≤ at_slice_id a;
  aw_size : 1 ≤ at_size a;
  aw_path : at_path a ≠ [];
  aw_times : 0 ≤ at_st a ≤ at_ed a;
  aw_stages : increasing None (ps_stage_id <$> at_path a);
  aw_linked : linked None (route a);
  aw_ready symbol : current_symbol a = Ok symbol → sy_ready symbol ≤ at_st a;
}.

Lemma last_or_cons {A} (p : option A) x l : last_or p (x :: l) = last_or (Some x) l.
Proof.
  unfold last_or. destruct l as [|y l]; [done|]. rewrite last_cons_cons.
  destruct (last (y :: l)) eqn:E; [done|]. by apply last_None in E.
Qed.

Lemma linked_app previous l1 l2 :
  linked previous (l1 ++ l2) ↔ linked previous l1 ∧ linked (last_or previous l1) l2.
Proof.
  revert previous. induction l1 as [|x l1 IH]; intros p; simpl; [tauto|].
  rewrite IH, last_or_cons. tauto.
Qed.

Lemma linked_adjacent l i s t :
  linked None l → l !! i = Some s → l !! S i = Some t →
  sy_dst s = sy_src t ∧ sy_ready s ≤ sy_ready t.
Proof.
  assert (H : ∀ p, linked p l → l !! i = Some s → l !! S i = Some t →
    sy_dst s = sy_src t ∧ sy_ready s ≤ sy_ready t); [|by apply H].
  revert i. induction l as [|x l IH]; intros i p; [done|]. simpl. intros [_ Hl].
  destruct i as [|i]; simpl; [|by eapply IH].
  intros [= ->] Ht. destruct l as [|y l]; [done|]. simpl in *. injection Ht as ->. tauto.
Qed.

Lemma chain_step_Ok previous x r :
  chain_step previous x = Ok r ↔ linked previous [x] ∧ r = Some x.
Proof.
  unfold chain_step; simpl. split.
  - intros H. inv_res. destruct previous; inv_res; bool_prop; naive_solver.
  - intros [[Hp _] ->]. destruct previous as [p|]; [|done]. destruct Hp as [-> Hle].
    rewrite Z.eqb_refl, (proj2 (Z.ltb_ge _ _)) by done. done.
Qed.

Lemma chain_loop previous l r :
  foldM chain_step previous l = Ok r ↔ linked previous l ∧ r = last_or previous l.
Proof.
  revert previous. induction l as [|x l IH]; intros p; cbn [foldM].
  - unfold last_or; simpl. split; [intros [= ->]|intros [_ ->]]; done.
  - rewrite last_or_cons, bind_Ok. setoid_rewrite chain_step_Ok. setoid_rewrite IH.
    simpl. split; [intros (? & [[? _] ->] & ? & ->); done|].
    intros [[? ?] ->]. by exists (Some x).
Qed.

Lemma last_or_app {A} (p : option A) l1 l2 : last_or p (l1 ++ l2) = last_or (last_or p l1) l2.
Proof. unfold last_or. rewrite last_app. by destruct (last l2). Qed.

Lemma stage_step_Ok pid prev stage r :
  stage_step (pid, prev) stage = Ok r ↔
  increasing pid [ps_stage_id stage] ∧ linked prev (ps_symbols stage) ∧
  r = (Some (ps_stage_id stage), last_or prev (ps_symbols stage)).
Proof.
  unfold stage_step; simpl. split.
  - intros H. inv_res. subst. apply chain_loop in H0 as [Hl ->]. split_and!; try done.
    destruct pid; [|done]. by bool_prop.
  - intros ([Hp _] & Hl & ->).
    assert (match pid with Some p => ps_stage_id stage <=? p | None => false end = false) as ->.
    { destruct pid; [|done]. by apply Z.leb_gt. }
    simpl. by rewrite (proj2 (chain_loop prev (ps_symbols stage) _) (conj Hl eq_refl)).
Qed.

Lemma stages_loop pid prev path r :
  foldM stage_step (pid, prev) path = Ok r ↔
  increasing pid (ps_stage_id <$> path) ∧ linked prev (path ≫= ps_symbols) ∧
  r = (last_or pid (ps_stage_id <$> path), last_or prev (path ≫= ps_symbols)).
Proof.
  revert pid prev. induction path as [|stage path IH]; intros pid prev.
  { cbn. unfold last_or; simpl. split; [intros [= ->]|intros (_ & _ & ->)]; done. }
  cbn [foldM]. csimpl. rewrite linked_app, last_or_app, last_or_cons, bind_Ok.
  setoid_rewrite stage_step_Ok. split.
  - intros (? & ([? _] & ? & ->) & Hp). apply IH in Hp as (? & ? & ->). done.
  - intros ([Hp Hi] & [Hl1 Hl2] & ->). eexists. split; [by split_and!|]. by apply IH.
Qed.

(** The chain check of an atom decides well-formed routes: it accepts a path
    if and only if stage ids increase strictly and, across stage borders too,
    each hop leaves the rank at which the previous one arrived and is not
    ready before it. *)
Theorem validate_chain_exact a :
  _validate_chain a = Ok tt ↔
  increasing None (ps_stage_id <$> at_path a) ∧ linked None (route a).
Proof.
  unfold _validate_chain. rewrite bind_Ok. split.
  - intros (r & H & _). apply stages_loop in H as (? & ? & _). done.
  - intros [? ?]. eexists. split; [|done]. apply stages_loop. split_and!; [done..|reflexivity].
Qed.

Lemma validate_chain_Ok a :
  _validate_chain a = Ok tt →
  increasing None (ps_stage_id <$> at_path a) ∧ linked None (route a).
Proof.
  unfold _validate_chain. intros H. apply bind_Ok in H as (r & H & _).
  apply stages_loop in H as (? & ? & _). done.
Qed.

Lemma time_field_Ok v n t : time_field v n = Ok t → 0 ≤ t.
Proof.
  unfold time_field. intros H. apply bind_Ok in H as (f & _ & H).
  destruct f; try done. inv_res. by bool_prop; subst.
Qed.

Lemma Atom_init_wf slice size path st ed a :
  Atom_init slice size path st ed = Ok a →
  atom_wf a ∧ at_slice_id a = slice ∧ at_size a = size ∧ at_path a = path.
Proof.
  unfold Atom_init. cbv zeta. intros H. inv_res. subst; simpl.
  repeat match goal with H : integer_field _ _ _ = Ok _ |- _ =>
    apply integer_field_Ok in H as [[= ->] ?] end.
  repeat match goal with H : time_field _ _ = Ok _ |- _ => apply time_field_Ok in H end.
  match goal with H : _validate_chain _ = Ok _ |- _ => apply validate_chain_Ok in H as [Hi Hl] end.
  bool_prop. split; [|done]. constructor; try done; simpl; try lia.
  intros symbol Hs. congruence.
Qed.

(** ** Transfers *)

Record transfer_wf (t : Transfer) : Prop := {
  tw_id : tr_id t ≠ EmptyString;
  tw_kind : tr_kind t ∈ _TRANSFER_KINDS;
  tw_ranks : 0 ≤ tr_src t ∧ 0 ≤ tr_dst t ∧ tr_src t ≠ tr_dst t;
  tw_channel : 0 ≤ tr_channel t;
  tw_stage : 0 ≤ tr_stage t;
  tw_times : 0 ≤ tr_st t ≤ tr_ed t;
  tw_irreflexive : tr_id t ∉ tr_preds t;
  tw_one_atom : NoDup (at_slice_id <$> tr_atoms t);
  tw_members s : s ∈ tr_members t ↔ ∃ a, a ∈ tr_atoms t ∧ at_slice_id a = s;
  tw_nonempty : tr_atoms t ≠ [];
  tw_members_nonneg s : s ∈ tr_members t → 0 ≤ s;
  tw_atoms a : a ∈ tr_atoms t →
    at_st a = tr_st t ∧ at_ed a = tr_ed t ∧
    (∃ stage symbol, last (at_path a) = Some stage ∧ last (ps_symbols stage) = Some symbol ∧
       ps_stage_id stage = tr_stage t ∧ ps_operator stage = tr_kind t ∧
       sy_src symbol = tr_src t ∧ sy_dst symbol = tr_dst t);
  tw_sizes a b : a ∈ tr_atoms t → b ∈ tr_atoms t → at_size a = at_size b;
}.

Lemma current_symbol_Ok a symbol :
  current_symbol a = Ok symbol ↔
  ∃ stage, last (at_path a) = Some stage ∧ last (ps_symbols stage) = Some symbol.
Proof.
  unfold current_symbol, index_error. split.
  - intros H. inv_res. eauto.
  - intros (stage & -> & Hs). simpl. by rewrite Hs.
Qed.

Lemma validate_atoms_Ok t :
  _validate_atoms t = Ok tt →
  (∀ a, a ∈ tr_atoms t → at_st a = tr_st t ∧ at_ed a = tr_ed t ∧
    ∃ stage symbol, last (at_path a) = Some stage ∧ last (ps_symbols stage) = Some symbol ∧
       ps_stage_id stage = tr_stage t ∧ ps_operator stage = tr_kind t ∧
       sy_src symbol = tr_src t ∧ sy_dst symbol = tr_dst t) ∧
  (∃ size, ∀ a, a ∈ tr_atoms t → at_size a = size).
Proof.
  unfold _validate_atoms, index_error. intros H. apply bind_Ok in H as (first & _ & H).
  apply iterM_Ok in H. rewrite Forall_forall in H. split.
  - intros a Ha. specialize (H a Ha). inv_res. bool_prop.
    match goal with H : current_symbol _ = Ok _ |- _ =>
      apply current_symbol_Ok in H as (stage & Hstage & Hsym) end.
    split_and!; [done..|]. exists stage. eexists. split_and!; try done; congruence.
  - exists (at_size first). intros a Ha. specialize (H a Ha). inv_res. by bool_prop.
Qed.

Lemma Transfer_init_wf id kind src dst channel stage members atoms st ed preds t :
  Transfer_init id kind src dst channel stage members atoms st ed preds = Ok t →
  transfer_wf t ∧ tr_id t = id ∧ tr_members t = members ∧ tr_preds t = preds ∧
  tr_atoms t ≡ₚ atoms.
Proof.
  unfold Transfer_init. cbv zeta. intros H. inv_res. subst.
  match goal with H : _validate_atoms _ = Ok _ |- _ =>
    apply validate_atoms_Ok in H as [Hat [size Hsz]] end.
  repeat match goal with H : integer_field _ _ _ = Ok _ |- _ =>
    apply integer_field_Ok in H as [[= ->] ?] end.
  repeat match goal with H : time_field _ _ = Ok _ |- _ => apply time_field_Ok in H end.
  repeat match goal with H : identifier_field _ _ = Ok _ |- _ =>
    apply identifier_field_Ok in H as [[= ->] ?] end.
  match goal with H : iterM _ (elements members) = Ok _ |- _ => apply iterM_Ok in H; rename H into Hm end.
  bool_prop. cbn [tr_atoms tr_members tr_preds tr_id] in *.
  split; [|split_and!; try done; apply sorted_by_perm].
  constructor; cbn; try done; try lia.
  - apply NoDup_of_size. rewrite length_fmap. lia.
  - intros s. match goal with H : list_to_set _ = members |- _ => rewrite <- H end.
    rewrite elem_of_list_to_set, list_elem_of_fmap. naive_solver.
  - intros E. apply (f_equal length) in E. rewrite length_sorted_by in E. by destruct atoms.
  - intros s Hs. apply elem_of_elements in Hs. rewrite Forall_forall in Hm.
    specialize (Hm s Hs). inv_res.
    match goal with H : integer_field _ _ _ = Ok _ |- _ => apply integer_field_Ok in H as [[= ->] ?] end.
    done.
  - intros a b Ha Hb. by rewrite (Hsz a), (Hsz b).
Qed.

(** ** Schedules *)

(** A transfer whose atoms and fields went through their constructors. *)
Definition transfer_built (t : Transfer) : Prop :=
  transfer_wf t ∧ Forall atom_wf (tr_atoms t).

Lemma first_symbol_route a symbol : first_symbol a = Ok symbol → head (route a) = Some symbol.
Proof.
  unfold first_symbol, index_error, route. intros H. inv_res.
  destruct (at_path a) as [|stage path]; [done|]. injection H as ->.
  csimpl. by destruct (ps_symbols x).
Qed.

Lemma last_route a stage symbol :
  last (at_path a) = Some stage → last (ps_symbols stage) = Some symbol →
  last (route a) = Some symbol.
Proof.
  intros Hst Hsy. apply last_Some in Hst as (path & E). unfold route.
  rewrite E, bind_app. csimpl. rewrite app_nil_r, last_app. by rewrite Hsy.
Qed.

(** Where a schedule's atom starts, in global scope. *)
Lemma path_prefix_source a rank n :
  1 ≤ n → 0 ≤ at_slice_id a → validate_path_prefix a rank (Some n) = Ok tt →
  ∃ first, head (route a) = Some first ∧ sy_src first = at_slice_id a / n.
Proof.
  intros Hn Ha. unfold validate_path_prefix. rewrite source_rank_Ok by done. simpl.
  intros H. inv_res. bool_prop. exists x0. split; [by apply first_symbol_route|done].
Qed.

Lemma schedule_init_inv s :
  Schedule_init s = Ok s →
  1 ≤ sc_rank_count s ∧ 1 ≤ sc_slice_count s ∧ NoDup (tr_id <$> sc_transfers s) ∧
  NoDup (sc_final_state_ids s) ∧ _validate_transfers s = Ok tt.
Proof.
  unfold Schedule_init. intros H. inv_res.
  repeat match goal with H : integer_field _ _ _ = Ok _ |- _ =>
    apply integer_field_Ok in H as [[= <-] ?] end.
  bool_prop. done.
Qed.

Definition global_scope (s : Schedule) : Prop :=
  default "global"%string (md_path_scope (sc_metadata s)) = "global"%string.

Lemma validate_transfers_global s t :
  global_scope s → _validate_transfers s = Ok tt → t ∈ sc_transfers s →
  tr_src t < sc_rank_count s ∧ tr_dst t < sc_rank_count s ∧
  tr_preds t ⊆ list_to_set (tr_id <$> sc_transfers s) ∧
  Forall (λ a, check_schedule_atom s false [] t a = Ok tt) (tr_atoms t).
Proof.
  unfold _validate_transfers. intros Hg H Ht. cbv zeta in H. rewrite Hg in H.
  rewrite (bool_decide_eq_false_2 ("global"%string = "stage_suffix"%string)) in H by done.
  inv_res. subst. match goal with H : iterM _ _ = Ok _ |- _ => apply iterM_Ok in H end.
  rewrite Forall_forall in H1. specialize (H1 t Ht). inv_res. bool_prop.
  split_and!; try done. by eapply iterM_Ok.
Qed.


(** ** A concrete schedule: one slice sent over one link *)

Definition demo_atom : Atom :=
  MkAtom 0 4 [MkPathStage 0 "SEND" [MkSymbol 0 1 0]] 0 one_us.

Definition demo_transfer : Transfer :=
  MkTransfer "t0" "SEND" 0 1 0 0 {[0]} [demo_atom] 0 one_us ∅.

Definition demo_schedule : Schedule :=
  MkSchedule "demo" [demo_transfer] [] 2 1 4 (MkMetadata None None None [] None).

Lemma demo_transfer_built : transfer_built demo_transfer.
Proof.
  split.
  - refine (proj1 (Transfer_init_wf "t0" "SEND" 0 1 0 0 {[0]} [demo_atom] (PInt 0) (PInt 1) ∅
      demo_transfer _)). vm_compute. reflexivity.
  - constructor; [|constructor].
    refine (proj1 (Atom_init_wf 0 4 [MkPathStage 0 "SEND" [MkSymbol 0 1 0]] (PInt 0) (PInt 1)
      demo_atom _)). vm_compute. reflexivity.
Qed.

