(* ===== verification/PayloadState.v ===== *)
(** * Payload states and their ledger ([vericcl/semantics/state.py])

    A payload state is a version of the data at a rank: the set of slices
    summed in it and the paths they took.  [PayloadLedger] makes the use of
    partial sums linear: a reduction consumes both inputs, and a partial sum
    can be sent only once.  Methods return the new ledger with their result;
    an exception leaves none. *)

From S2P Require Import Prelude.
From S2P Require Import Python.
From S2P Require Import Slice.
From S2P Require Import Atom.
Local Open Scope Z_scope.

(** The contributor sets of the program are sets of integers already. *)
Definition _contributor_set (value : gset Z) (field : string) : res (gset Z) :=
  raise_when (bool_decide (value = ∅)) (SemanticError (field +:+ " must not be empty"));;
  iterM (λ slice_id, integer_field (PInt slice_id) field 0;; Ok tt) (elements value);;
  Ok value.

Record PayloadState : Type := MkPayloadState {
  pst_id : string;
  pst_version : Z;
  pst_rank : Z;
  pst_address : Z;
  pst_contributors : gset Z;
  pst_ready : Z;
  pst_active : bool;
  pst_paths : list (Z * list PathStage);
}.

Definition _normalized_member_paths (contributors : gset Z) (member_paths : list (Z * list PathStage))
    : res (list (Z * list PathStage)) :=
  seen ← foldM (λ (seen : gset Z) item,
      slice_id ← integer_field (PInt item.1) "payload_state.member_paths.slice_id" 0;
      raise_when (bool_decide (slice_id ∈ seen))
        (SemanticError "payload_state.member_paths slice IDs must be unique");;
      Ok ({[slice_id]} ∪ seen)) ∅ member_paths;
  raise_when (negb (bool_decide (seen = contributors)))
    (SemanticError "payload_state.member_paths must match contributors exactly");;
  Ok (sorted_by fst member_paths).

Definition PayloadState_init (state_id : string) (version rank logical_address : Z)
    (contributors : gset Z) (ready_time : pyval) (active : bool)
    (member_paths : list (Z * list PathStage)) : res PayloadState :=
  identifier_field (PStr state_id) "payload_state.state_id";;
  integer_field (PInt version) "payload_state.version" 0;;
  integer_field (PInt rank) "payload_state.rank" 0;;
  integer_field (PInt logical_address) "payload_state.logical_address" 0;;
  contributors ← _contributor_set contributors "payload_state.contributors";
  ready ← time_field ready_time "payload_state.ready_time";
  paths ← _normalized_member_paths contributors member_paths;
  Ok (MkPayloadState state_id version rank logical_address contributors ready active paths).

(** ["state-r{}-a{}-v{}".format(rank, address, version)] *)
Definition state_name (rank address version : Z) : string :=
  "state-r" +:+ str_of_int rank +:+ "-a" +:+ str_of_int address +:+ "-v" +:+ str_of_int version.

Definition initial_payload_states (rank_count slice_count : Z) : res (list PayloadState) :=
  P ← integer_field (PInt rank_count) "rank_count" 1;
  n ← integer_field (PInt slice_count) "slice_count" 1;
  mapR (λ '(rank, address),
    let slice_id := rank * n + address in
    logical_address ← logical_slice_index (PInt slice_id) (PInt n);
    PayloadState_init (state_name rank address 0) 0 rank logical_address {[slice_id]}
      (PFloat (Finite 0)) true [(slice_id, [])])
    (rank ← seqZ 0 P; address ← seqZ 0 n; [(rank, address)]).

(** ** The ledger *)

Record PayloadLedger : Type := MkPayloadLedger {
  pl_states : gmap string PayloadState;
  pl_next_versions : gmap (Z * Z) Z;
  pl_active_aggregates : gmap (Z * Z) string;
  pl_inactive_ids : gset string;
  pl_incomplete_outbound : gmap string Z;
}.

Definition pst_key (st : PayloadState) : Z * Z := (pst_rank st, pst_address st).

Definition is_aggregate (st : PayloadState) : bool := (1 <? Z.of_nat (size (pst_contributors st))).

Definition _register (self : PayloadLedger) (st : PayloadState) : res PayloadLedger :=
  raise_when (bool_decide (is_Some (pl_states self !! pst_id st)))
    (SemanticError "state IDs must be unique");;
  let key := pst_key st in
  aggregates ←
    (if pst_active st && is_aggregate st then
       raise_when (bool_decide (is_Some (pl_active_aggregates self !! key)))
         (SemanticError "active aggregate already exists at rank and logical address");;
       Ok (<[key := pst_id st]> (pl_active_aggregates self))
     else Ok (pl_active_aggregates self));
  Ok (MkPayloadLedger
        (<[pst_id st := st]> (pl_states self))
        (<[key := Z.max (default 0 (pl_next_versions self !! key)) (pst_version st + 1)]>
           (pl_next_versions self))
        aggregates
        (if pst_active st then pl_inactive_ids self else {[pst_id st]} ∪ pl_inactive_ids self)
        (pl_incomplete_outbound self)).

Definition PayloadLedger_init (sts : list PayloadState) : res PayloadLedger :=
  foldM _register (MkPayloadLedger ∅ ∅ ∅ ∅ ∅) sts.

(** [PayloadLedger.states]: every version, by identity. *)
Definition states (self : PayloadLedger) : list PayloadState :=
  snd <$> sorted_by fst (map_to_list (pl_states self)).

Definition state (self : PayloadLedger) (state_id : string) : res PayloadState :=
  identifier_field (PStr state_id) "state_id";;
  of_option (pl_states self !! state_id)
    (SemanticError ("unknown state version: " +:+ state_id)).

Definition _active_state (self : PayloadLedger) (state_id : string) : res PayloadState :=
  st ← state self state_id;
  raise_when (negb (pst_active st)) (SemanticError ("state version is inactive: " +:+ state_id));;
  Ok st.

(** [replace(state, active=False)] runs the constructor again. *)
Definition deactivated (st : PayloadState) : res PayloadState :=
  PayloadState_init (pst_id st) (pst_version st) (pst_rank st) (pst_address st)
    (pst_contributors st) (PFloat (Finite (pst_ready st))) false (pst_paths st).

Definition _deactivate (self : PayloadLedger) (st : PayloadState) : res PayloadLedger :=
  inactive ← deactivated st;
  let key := pst_key st in
  Ok (MkPayloadLedger
        (<[pst_id st := inactive]> (pl_states self)) (pl_next_versions self)
        (if bool_decide (pl_active_aggregates self !! key = Some (pst_id st))
         then delete key (pl_active_aggregates self) else pl_active_aggregates self)
        ({[pst_id st]} ∪ pl_inactive_ids self) (pl_incomplete_outbound self)).

Definition _target_is_available (self : PayloadLedger) (rank logical_address : Z)
    (consumed_ids : gset string) : res unit :=
  raise_when match pl_active_aggregates self !! (rank, logical_address) with
             | Some existing => negb (bool_decide (existing ∈ consumed_ids))
             | None => false
             end (SemanticError "active aggregate already exists at rank and logical address").

(** The [while True] loop of [_new_state]: the first free version number. *)
Fixpoint fresh_version (fuel : nat) (self : PayloadLedger) (rank logical_address version : Z)
    : res Z :=
  match fuel with
  | O => Err OutOfFuel
  | S fuel =>
      if bool_decide (is_Some (pl_states self !! state_name rank logical_address version))
      then fresh_version fuel self rank logical_address (version + 1)
      else Ok version
  end.

(** One more try than there are versions. *)
Definition version_fuel (self : PayloadLedger) : nat := S (size (pl_states self)).

Definition _new_state (self : PayloadLedger) (rank logical_address : Z) (contributors : gset Z)
    (ready_time : Z) (member_paths : list (Z * list PathStage)) : res PayloadState :=
  version ← fresh_version (version_fuel self) self rank logical_address
              (default 0 (pl_next_versions self !! (rank, logical_address)));
  PayloadState_init (state_name rank logical_address version) version rank logical_address
    contributors (PFloat (Finite ready_time)) true member_paths.

(** [dict(left.member_paths)] updated with [dict(right.member_paths)]. *)
Definition merged_paths (left right : PayloadState) : list (Z * list PathStage) :=
  sorted_by fst (dict_of_list (pst_paths left ++ pst_paths right)).

Definition reduce (self : PayloadLedger) (left_id right_id : string) (dst_rank : Z)
    (ready_time : pyval) : res (PayloadLedger * PayloadState) :=
  raise_when (bool_decide (left_id = right_id))
    (SemanticError "REDUCE requires two distinct state versions");;
  left ← _active_state self left_id;
  right ← _active_state self right_id;
  dst ← integer_field (PInt dst_rank) "dst_rank" 0;
  ready ← time_field ready_time "ready_time";
  raise_when (negb (pst_address left =? pst_address right))
    (SemanticError "REDUCE inputs must have the same logical address");;
  raise_when (negb (bool_decide (pst_contributors left ∩ pst_contributors right = ∅)))
    (SemanticError "REDUCE contributors must be disjoint");;
  raise_when (negb (bool_decide (dst ∈ [pst_rank left; pst_rank right])))
    (SemanticError "REDUCE destination must own one input state");;
  raise_when (ready <? Z.max (pst_ready left) (pst_ready right))
    (SemanticError "REDUCE ready_time precedes an input state");;
  _target_is_available self dst (pst_address left) {[pst_id left; pst_id right]};;
  output ← _new_state self dst (pst_address left)
             (pst_contributors left ∪ pst_contributors right) ready (merged_paths left right);
  self ← _deactivate self left;
  self ← _deactivate self right;
  self ← _register self output;
  Ok (self, output).

Definition set_outbound (self : PayloadLedger) (state_id : string) : PayloadLedger :=
  MkPayloadLedger (pl_states self) (pl_next_versions self) (pl_active_aggregates self)
    (pl_inactive_ids self) (<[state_id := 1]> (pl_incomplete_outbound self)).

Definition send (self : PayloadLedger) (state_id : string) (dst_rank : Z) (ready_time : pyval)
    (required_contributors : gset Z) : res (PayloadLedger * PayloadState) :=
  state self state_id;;
  raise_when (1 <=? default 0 (pl_incomplete_outbound self !! state_id))
    (SemanticError "incomplete state already sent");;
  st ← _active_state self state_id;
  dst ← integer_field (PInt dst_rank) "dst_rank" 0;
  raise_when (dst =? pst_rank st)
    (SemanticError "SEND source and destination ranks must be distinct");;
  ready ← time_field ready_time "ready_time";
  raise_when (ready <? pst_ready st)
    (SemanticError "SEND ready_time precedes the source state");;
  required ← _contributor_set required_contributors "required_contributors";
  raise_when (negb (bool_decide (pst_contributors st ⊆ required)))
    (SemanticError "state contains contributors outside required contributors");;
  let complete := bool_decide (pst_contributors st = required) in
  (if is_aggregate st then _target_is_available self dst (pst_address st) ∅ else Ok tt);;
  output ← _new_state self dst (pst_address st) (pst_contributors st) ready (pst_paths st);
  self ← (if complete then Ok self
          else self ← _deactivate self st; Ok (set_outbound self state_id));
  self ← _register self output;
  Ok (self, output).

Definition merge_local (self : PayloadLedger) (state_id local_state_id : string)
    (ready_time : pyval) : res (PayloadLedger * PayloadState) :=
  st ← _active_state self state_id;
  local_state ← _active_state self local_state_id;
  raise_when (negb (pst_rank st =? pst_rank local_state))
    (SemanticError "local merge inputs must be at the same rank");;
  raise_when (negb (Z.of_nat (size (pst_contributors local_state)) =? 1))
    (SemanticError "local contribution must contain one slice");;
  reduce self state_id local_state_id (pst_rank st) ready_time.
