(* ===== verification/PayloadLaws.v ===== *)
(** * Laws of the payload ledger *)

From S2P Require Import Prelude.
From S2P Require Import Python.
From S2P Require Import Slice.
From S2P Require Import Atom.
From S2P Require Import AtomLaws.
From S2P Require Import PayloadState.
Local Open Scope Z_scope.

(** ** Choosing a version number *)

Lemma string_app_inj_l (p s t : string) : (p +:+ s)%string = (p +:+ t)%string → s = t.
Proof. induction p as [|a p IH]; simpl; [done|]. intros [= H]. by apply IH. Qed.

Lemma state_name_inj rank address v w :
  state_name rank address v = state_name rank address w → v = w.
Proof.
  unfold state_name, str_of_int. intros H.
  repeat apply string_app_inj_l in H. by apply (inj pretty) in H.
Qed.

Lemma fresh_version_cases fuel self rank address version :
  match fresh_version fuel self rank address version with
  | Ok v => version ≤ v ∧ pl_states self !! state_name rank address v = None ∧
      ∀ w, version ≤ w < v → is_Some (pl_states self !! state_name rank address w)
  | Err e => e = OutOfFuel ∧
      ∀ w, version ≤ w < version + Z.of_nat fuel →
        is_Some (pl_states self !! state_name rank address w)
  end.
Proof.
  revert version. induction fuel as [|fuel IH]; intros version; cbn [fresh_version].
  { split; [done|]. lia. }
  case_bool_decide as Hs.
  - specialize (IH (version + 1)).
    destruct (fresh_version fuel self rank address (version + 1)) as [v|e].
    + destruct IH as (? & ? & Hw). split_and!; [lia|done|]. intros w Hw'.
      destruct (decide (w = version)) as [->|]; [done|]. apply Hw. lia.
    + destruct IH as [-> Hw]. split; [done|]. intros w Hw'.
      destruct (decide (w = version)) as [->|]; [done|]. apply Hw. lia.
  - split_and!; [lia| |lia]. by apply eq_None_not_Some.
Qed.

Lemma fresh_version_terminates self rank address version :
  terminates (fresh_version (version_fuel self) self rank address version).
Proof.
  pose proof (fresh_version_cases (version_fuel self) self rank address version) as H.
  destruct (fresh_version _ _ _ _ _) as [v|e]; [done|exfalso].
  destruct H as [_ H].
  set (names := state_name rank address <$> seqZ version (Z.of_nat (version_fuel self))).
  assert (Hnd : NoDup names).
  { apply NoDup_fmap_2_strong; [|apply NoDup_seqZ].
    intros v w _ _. apply state_name_inj. }
  assert (Hsub : (list_to_set names : gset string) ⊆ dom (pl_states self)).
  { intros s Hs. rewrite elem_of_list_to_set in Hs.
    apply list_elem_of_fmap in Hs as (w & -> & Hw). apply elem_of_seqZ in Hw.
    apply elem_of_dom, H. lia. }
  apply subseteq_size in Hsub. rewrite size_list_to_set in Hsub by done.
  rewrite size_dom in Hsub. unfold names, version_fuel in Hsub.
  rewrite length_fmap, length_seqZ in Hsub. lia.
Qed.

(** C34 The search for a version number ends.  On any ledger, whatever version it
    starts from, [_new_state] tries at most one more number than there are
    versions and picks the first one whose name is unused. *)
Theorem fresh_version_total self rank address version :
  ∃ v, fresh_version (version_fuel self) self rank address version = Ok v ∧ version ≤ v ∧
    pl_states self !! state_name rank address v = None ∧
    ∀ w, version ≤ w < v → is_Some (pl_states self !! state_name rank address w).
Proof.
  pose proof (fresh_version_cases (version_fuel self) self rank address version) as H.
  pose proof (fresh_version_terminates self rank address version) as Ht.
  destruct (fresh_version _ _ _ _ _) as [v|e]; [by exists v|].
  destruct H as [-> _]. by destruct Ht.
Qed.

#[export] Hint Resolve fresh_version_terminates : terminates.

(** ** Well-formed states *)

Record pst_wf (s : PayloadState) : Prop := {
  pw_id : pst_id s ≠ EmptyString;
  pw_bounds : 0 ≤ pst_version s ∧ 0 ≤ pst_rank s ∧ 0 ≤ pst_address s ∧ 0 ≤ pst_ready s;
  pw_contributors : pst_contributors s ≠ ∅;
  pw_nonneg x : x ∈ pst_contributors s → 0 ≤ x;
  pw_paths : NoDup (pst_paths s).*1;
  pw_paths_of x : x ∈ (pst_paths s).*1 ↔ x ∈ pst_contributors s;
  pw_sorted : StronglySorted (key_le fst) (pst_paths s);
}.

Lemma contributor_set_Ok c f c' :
  _contributor_set c f = Ok c' ↔ c' = c ∧ c ≠ ∅ ∧ ∀ x, x ∈ c → 0 ≤ x.
Proof.
  unfold _contributor_set. split.
  - intros H. inv_res. subst. bool_prop. split_and!; [done..|].
    intros x Hx. apply elem_of_elements in Hx.
    match goal with H : iterM _ _ = Ok _ |- _ => apply iterM_Ok in H; rewrite Forall_forall in H;
      specialize (H x Hx) end. inv_res.
    match goal with H : integer_field _ _ _ = Ok _ |- _ =>
      apply integer_field_Ok in H as [[= ->] ?] end. done.
  - intros (-> & Hne & Hpos). rewrite bool_decide_eq_false_2 by done. simpl.
    rewrite (proj2 (iterM_Ok _ _ tt)); [done|]. apply Forall_forall. intros x Hx.
    apply elem_of_elements, Hpos in Hx. simpl. by rewrite (proj2 (Z.ltb_ge x 0)).
Qed.

Lemma member_paths_loop l seen r :
  foldM (λ (seen : gset Z) (item : Z * list PathStage),
      slice_id ← integer_field (PInt item.1) "payload_state.member_paths.slice_id" 0;
      raise_when (bool_decide (slice_id ∈ seen))
        (SemanticError "payload_state.member_paths slice IDs must be unique");;
      Ok ({[slice_id]} ∪ seen)) seen l = Ok r ↔
  Forall (Z.le 0) l.*1 ∧ NoDup l.*1 ∧ (∀ x, x ∈ l.*1 → x ∉ seen) ∧ r = list_to_set l.*1 ∪ seen.
Proof.
  revert seen. induction l as [|[k p] l IH]; intros seen; cbn [foldM fmap list_fmap fst].
  - split.
    + intros [= <-]. split_and!; [constructor|constructor|set_solver|set_solver].
    + intros (_ & _ & _ & ->). f_equal. set_solver.
  - rewrite bind_Ok. setoid_rewrite IH. split.
    + intros (s & H & Hpos & Hnd & Hd & ->). inv_res. subst. bool_prop.
      match goal with H : integer_field _ _ _ = Ok _ |- _ =>
        apply integer_field_Ok in H as [[= ->] ?] end.
      split_and!; [by constructor| |set_solver|set_solver]. constructor; [|done].
      intros Hk. apply (Hd _ Hk). set_solver.
    + intros (Hpos & Hnd & Hd & ->). apply Forall_cons in Hpos as [? Hpos].
      apply NoDup_cons in Hnd as [Hk Hnd]. exists ({[k]} ∪ seen). split.
      * rewrite (proj2 (integer_field_Ok _ _ _ k)) by done. simpl.
        rewrite bool_decide_eq_false_2; [done|]. apply Hd. by left.
      * split_and!; try done; [|set_solver]. intros x Hx.
        assert (x ≠ k) by (intros ->; done). set_solver.
Qed.

Lemma sorted_by_NoDup {A K} `{PyOrd K} (key : A → K) l x :
  x ∈ (key <$> sorted_by key l) ↔ x ∈ (key <$> l).
Proof. by rewrite sorted_by_perm. Qed.

Lemma PayloadState_init_wf id v r a c t act paths s :
  PayloadState_init id v r a c t act paths = Ok s →
  pst_wf s ∧ pst_id s = id ∧ pst_version s = v ∧ pst_rank s = r ∧ pst_address s = a ∧
  pst_contributors s = c ∧ time_field t "payload_state.ready_time" = Ok (pst_ready s) ∧
  pst_active s = act ∧ pst_paths s = sorted_by fst paths.
Proof.
  unfold PayloadState_init, _normalized_member_paths. intros H. inv_res. subst.
  repeat match goal with H : integer_field _ _ _ = Ok _ |- _ =>
    apply integer_field_Ok in H as [[= ->] ?] end.
  match goal with H : identifier_field _ _ = Ok _ |- _ => apply identifier_field_Ok in H as [[= ->] ?] end.
  match goal with H : _contributor_set _ _ = Ok _ |- _ => apply contributor_set_Ok in H as (-> & ? & ?) end.
  match goal with H : foldM _ _ _ = Ok _ |- _ => apply member_paths_loop in H as (Hp & Hn & _ & Hs) end.
  match goal with H : time_field _ _ = Ok _ |- _ => pose proof (time_field_Ok _ _ _ H) end.
  bool_prop. simpl. split; [|done]. constructor; simpl; try done.
  - by rewrite sorted_by_perm.
  - intros y. rewrite sorted_by_NoDup. set_solver.
  - apply sorted_by_sorted.
Qed.

Lemma PayloadState_init_Ok s act :
  pst_wf s →
  PayloadState_init (pst_id s) (pst_version s) (pst_rank s) (pst_address s)
    (pst_contributors s) (PFloat (Finite (pst_ready s))) act (pst_paths s) =
  Ok (MkPayloadState (pst_id s) (pst_version s) (pst_rank s) (pst_address s)
    (pst_contributors s) (pst_ready s) act (pst_paths s)).
Proof.
  intros [Hid (Hv & Hr & Ha & Ht) Hc Hn Hp Hpo Hs]. unfold PayloadState_init.
  rewrite (proj2 (identifier_field_Ok _ _ (pst_id s))) by done. cbn [mbind res_bind].
  do 3 (rewrite (proj2 (integer_field_Ok _ _ 0 _)) by (split; [reflexivity|done]);
        cbn [mbind res_bind]).
  rewrite (proj2 (contributor_set_Ok _ _ (pst_contributors s))) by done. cbn [mbind res_bind].
  rewrite (proj2 (time_field_float _ _ (pst_ready s))) by done. cbn [mbind res_bind].
  unfold _normalized_member_paths.
  rewrite (proj2 (member_paths_loop _ ∅ (pst_contributors s))).
  - cbn [mbind res_bind]. rewrite bool_decide_eq_true_2 by done. simpl. by rewrite sorted_by_id.
  - split_and!; [| done|set_solver|].
    + apply Forall_forall. intros x Hx. apply Hn, Hpo, Hx.
    + apply set_eq. intros x. rewrite elem_of_union, elem_of_list_to_set, Hpo. set_solver.
Qed.

Definition with_active (act : bool) (s : PayloadState) : PayloadState :=
  MkPayloadState (pst_id s) (pst_version s) (pst_rank s) (pst_address s)
    (pst_contributors s) (pst_ready s) act (pst_paths s).

Lemma with_active_wf act s : pst_wf s → pst_wf (with_active act s).
Proof. by intros []. Qed.

(** ** The ledger invariant *)

Definition live (l : PayloadLedger) (id : string) (s : PayloadState) : Prop :=
  pl_states l !! id = Some s ∧ pst_active s = true.

Record pledger_wf (l : PayloadLedger) : Prop := {
  pl_wf id s : pl_states l !! id = Some s → pst_id s = id ∧ pst_wf s;
  pl_inactive id : id ∈ pl_inactive_ids l ↔
    ∃ s, pl_states l !! id = Some s ∧ pst_active s = false;
  pl_aggregates k id : pl_active_aggregates l !! k = Some id ↔
    ∃ s, live l id s ∧ is_aggregate s = true ∧ pst_key s = k;
  pl_outbound id n : pl_incomplete_outbound l !! id = Some n → n = 1 ∧ id ∈ pl_inactive_ids l;
}.

Lemma state_Ok l id s :
  state l id = Ok s ↔ id ≠ EmptyString ∧ pl_states l !! id = Some s.
Proof.
  unfold state. rewrite bind_Ok. setoid_rewrite identifier_field_Ok.
  setoid_rewrite of_option_Ok. naive_solver.
Qed.

Lemma active_state_Ok l id s :
  pledger_wf l → _active_state l id = Ok s ↔ live l id s.
Proof.
  intros Hl. unfold _active_state, live. split.
  - intros H. inv_res. subst. bool_prop. by apply state_Ok in H as [_ ?].
  - intros [Hs Ha]. rewrite (proj2 (state_Ok l id s)).
    + simpl. by rewrite Ha.
    + split; [|done]. apply (pl_wf l Hl) in Hs as [<- Hw]. apply Hw.
Qed.

(** Deactivating a live version. *)
Lemma deactivate_spec l s :
  pledger_wf l → live l (pst_id s) s →
  ∃ l', _deactivate l s = Ok l' ∧ pledger_wf l' ∧
    pl_states l' = <[pst_id s := with_active false s]> (pl_states l) ∧
    pl_incomplete_outbound l' = pl_incomplete_outbound l ∧
    pl_next_versions l' = pl_next_versions l ∧
    pl_inactive_ids l' = {[pst_id s]} ∪ pl_inactive_ids l.
Proof.
  intros Hl [Hs Hact]. destruct (pl_wf l Hl _ _ Hs) as [_ Hw].
  unfold _deactivate, deactivated. rewrite PayloadState_init_Ok by done.
  eexists. split; [reflexivity|]. split; [|done].
  change (MkPayloadState _ _ _ _ _ _ false _) with (with_active false s).
  constructor; simpl.
  - intros id t. rewrite lookup_insert_Some.
    intros [[<- <-]|[_ Ht]]; [|by apply (pl_wf l Hl)]. split; [done|by apply with_active_wf].
  - intros id. rewrite elem_of_union, elem_of_singleton, (pl_inactive l Hl id). split.
    + intros [->|(t & Ht & Hf)]; [exists (with_active false s); by rewrite lookup_insert_eq|].
      exists t. rewrite lookup_insert_ne; [done|]. intros <-. congruence.
    + intros (t & Ht & Hf). apply lookup_insert_Some in Ht as [[<- _]|[_ Ht]]; eauto.
  - intros k id.
    assert (Hlive : (∃ t, live (MkPayloadLedger (<[pst_id s := with_active false s]> (pl_states l))
        (pl_next_versions l) ∅ ∅ ∅) id t ∧ is_aggregate t = true ∧ pst_key t = k) ↔
      id ≠ pst_id s ∧ pl_active_aggregates l !! k = Some id).
    { rewrite (pl_aggregates l Hl k id). unfold live; simpl. split.
      - intros (t & [Ht Ha] & ?). apply lookup_insert_Some in Ht as [[<- <-]|[? Ht]]; [done|].
        split; [done|]. by exists t.
      - intros [Hne (t & [Ht Ha] & ?)]. exists t. rewrite lookup_insert_ne by done. done. }
    unfold live in *; simpl in *. rewrite Hlive.
    case_bool_decide as Hagg.
    + rewrite lookup_delete_Some. split.
      * intros [Hk Hid]. split; [|done]. intros ->. apply Hk.
        apply (pl_aggregates l Hl) in Hid as (t & [Ht _] & _ & <-). congruence.
      * intros [Hne Hid]. split; [|done]. intros <-. congruence.
    + split; [|by intros [_ ?]]. intros Hid. split; [|done]. intros ->.
      pose proof Hid as Hid'. apply (pl_aggregates l Hl) in Hid' as (t & [Ht _] & _ & <-).
      congruence.
  - intros id n Hn. apply (pl_outbound l Hl) in Hn. set_solver.
Qed.

Lemma register_spec l s l' :
  pledger_wf l → pst_wf s → _register l s = Ok l' →
  pledger_wf l' ∧ pl_states l !! pst_id s = None ∧
  pl_states l' = <[pst_id s := s]> (pl_states l) ∧
  pl_incomplete_outbound l' = pl_incomplete_outbound l.
Proof.
  intros Hl Hw. unfold _register. intros H. inv_res. subst. bool_prop.
  match goal with H : ¬ is_Some _ |- _ => apply eq_None_not_Some in H; rename H into Hfresh end.
  split; [|done]. match goal with H : (if _ then _ else _) = Ok _ |- _ => rename H into Hagg end.
  assert (Hlive : ∀ id t, (<[pst_id s := s]> (pl_states l)) !! id = Some t ∧ pst_active t = true ↔
    (id = pst_id s ∧ t = s ∧ pst_active s = true) ∨ live l id t).
  { intros id t. unfold live. rewrite lookup_insert_Some. split.
    - intros [[[<- <-]|[? Ht]] Ha]; [by left|by right].
    - intros [(-> & -> & ?)|[Ht Ha]]; [by split; [left|]|].
      split; [|done]. right. split; [|done]. intros <-. congruence. }
  constructor; simpl.
  - intros id t. rewrite lookup_insert_Some. intros [[<- <-]|[_ Ht]]; [done|by apply (pl_wf l Hl)].
  - intros id. assert (Hin : id ∈ (if pst_active s then pl_inactive_ids l
        else {[pst_id s]} ∪ pl_inactive_ids l) ↔
        (id = pst_id s ∧ pst_active s = false) ∨ id ∈ pl_inactive_ids l)
      by (destruct (pst_active s); set_solver).
    rewrite Hin, (pl_inactive l Hl id). split.
    + intros [[-> Ha]|(t & Ht & Ha)]; [exists s; by rewrite lookup_insert_eq|].
      exists t. rewrite lookup_insert_ne; [done|]. intros <-. congruence.
    + intros (t & Ht & Ha). apply lookup_insert_Some in Ht as [[<- <-]|[_ Ht]]; eauto.
  - intros k id. unfold live. simpl.
    setoid_rewrite Hlive. pose proof (pl_aggregates l Hl k id) as Hk.
    destruct (pst_active s && is_aggregate s) eqn:E; inv_res; bool_prop; subst.
    + rewrite lookup_insert_Some.
      match goal with H : ¬ is_Some _ |- _ => apply eq_None_not_Some in H; rename H into Hnone end.
      split.
      * intros [[<- <-]|[Hne Hid]]; [exists s; tauto|]. apply Hk in Hid as (t & ? & ? & ?). eauto.
      * intros (t & [(-> & -> & _)|Ht] & Ht2 & <-); [by left|]. right. split.
        -- intros E'. assert (pl_active_aggregates l !! pst_key t = Some id)
             by (apply (pl_aggregates l Hl); eauto). congruence.
        -- apply (pl_aggregates l Hl). eauto.
    + rewrite Hk. split; [intros (t & ? & ?); eauto|].
      intros (t & [(-> & -> & Ha)|Ht] & Hg & ?); [|by exists t].
      rewrite Ha, Hg in E. by destruct E.
  - intros id n Hn. apply (pl_outbound l Hl) in Hn as [? Hn]. split; [done|].
    destruct (pst_active s); set_solver.
Qed.

Lemma new_state_spec l r a c t paths s :
  _new_state l r a c t paths = Ok s →
  pst_wf s ∧ pst_rank s = r ∧ pst_address s = a ∧ pst_contributors s = c ∧
  pst_ready s = t ∧ pst_active s = true ∧ pl_states l !! pst_id s = None.
Proof.
  unfold _new_state. intros H. inv_res.
  apply PayloadState_init_wf in H0 as (? & -> & ? & ? & ? & ? & Ht & ? & ?).
  apply time_field_float in Ht as [[= ->] _].
  pose proof (fresh_version_cases (version_fuel l) l r a
    (default 0 (pl_next_versions l !! (r, a)))) as Hv.
  rewrite H in Hv. destruct Hv as (_ & ? & _). done.
Qed.

(** ** The operations *)

Lemma payload_reduce_spec l left_id right_id dst t l' out :
  pledger_wf l → reduce l left_id right_id dst t = Ok (l', out) →
  ∃ a b, live l left_id a ∧ live l right_id b ∧ left_id ≠ right_id ∧
    pst_address a = pst_address b ∧ pst_contributors a ## pst_contributors b ∧
    pst_contributors out = pst_contributors a ∪ pst_contributors b ∧
    pst_address out = pst_address a ∧ pst_rank out = dst ∧ dst ∈ [pst_rank a; pst_rank b] ∧
    Z.max (pst_ready a) (pst_ready b) ≤ pst_ready out ∧
    time_field t "ready_time" = Ok (pst_ready out) ∧
    pledger_wf l' ∧ pst_wf out ∧ pl_states l !! pst_id out = None ∧
    (∀ id, is_Some (pl_states l' !! id) ↔ id = pst_id out ∨ is_Some (pl_states l !! id)) ∧
    ∀ id s, live l' id s ↔
      (id = pst_id out ∧ s = out) ∨ (live l id s ∧ id ≠ left_id ∧ id ≠ right_id).
Proof.
  intros Hl. unfold reduce. intros H. inv_res. bool_prop. subst.
  repeat match goal with H : _active_state _ _ = Ok _ |- _ => apply active_state_Ok in H; [|done] end.
  match goal with H : integer_field _ _ _ = Ok _ |- _ => apply integer_field_Ok in H as [[= ->] ?] end.
  match goal with H : _new_state _ _ _ _ _ _ = Ok _ |- _ =>
    apply new_state_spec in H as (Hw & ? & ? & ? & ? & Hact & Hfresh) end.
  match goal with H1 : live l left_id ?u, H2 : live l right_id ?v |- _ =>
    rename u into sa, v into sb; destruct H1 as [Ha Haa], H2 as [Hb Hba] end.
  pose proof (proj1 (pl_wf l Hl _ _ Ha)) as Ia. pose proof (proj1 (pl_wf l Hl _ _ Hb)) as Ib.
  destruct (deactivate_spec l sa) as (l1 & E1 & Hl1 & S1 & _); [done|by rewrite Ia|].
  destruct (deactivate_spec l1 sb) as (l2 & E2 & Hl2 & S2 & _); [done| |].
  { rewrite Ib. split; [|done]. rewrite S1, lookup_insert_ne by congruence. done. }
  match goal with H : _deactivate l _ = Ok ?m |- _ => assert (m = l1) as -> by congruence end.
  match goal with H : _deactivate l1 _ = Ok ?m |- _ => assert (m = l2) as -> by congruence end.
  match goal with H : _register l2 _ = Ok _ |- _ =>
    apply register_spec in H as (Hl' & Hf' & S' & _); [|done|done] end.
  rewrite Ia, Ib in *.
  exists sa, sb. split_and!; try done; try congruence.
  - set_solver.
  - intros id. apply elem_of_dom_2 in Ha, Hb. rewrite <- !elem_of_dom, S', S2, S1, !dom_insert. set_solver.
  - intros id s. unfold live. rewrite S', S2, S1, !lookup_insert_Some. split.
    + intros [[[<- <-]|[? [[<- <-]|[? [[<- <-]|[? Hs]]]]]] Hsa]; try done; [by left|].
      right. split_and!; try done; congruence.
    + intros [[-> ->]|([Hs Hsa] & ? & ?)]; [by split; [left|]|]. split; [|done].
      right. split; [congruence|]. right. split; [done|]. right. done.
Qed.

Lemma set_outbound_wf l id :
  pledger_wf l → id ∈ pl_inactive_ids l → pledger_wf (set_outbound l id).
Proof.
  intros [H1 H2 H3 H4] Hid. constructor; simpl; try done.
  intros i n Hn. apply lookup_insert_Some in Hn as [[<- <-]|[_ Hn]]; [done|by apply H4].
Qed.

Lemma payload_send_spec l id dst t required l' out :
  pledger_wf l → send l id dst t required = Ok (l', out) →
  ∃ a, live l id a ∧ pst_contributors a ⊆ required ∧ dst ≠ pst_rank a ∧
    pst_contributors out = pst_contributors a ∧ pst_address out = pst_address a ∧
    pst_rank out = dst ∧ pst_ready a ≤ pst_ready out ∧
    time_field t "ready_time" = Ok (pst_ready out) ∧
    pledger_wf l' ∧ pst_wf out ∧ pl_states l !! pst_id out = None ∧
    (∀ i, is_Some (pl_states l' !! i) ↔ i = pst_id out ∨ is_Some (pl_states l !! i)) ∧
    ∀ i s, live l' i s ↔
      (i = pst_id out ∧ s = out) ∨ (live l i s ∧ (i = id → pst_contributors a = required)).
Proof.
  intros Hl. unfold send. cbv zeta. intros H. inv_res. bool_prop. subst.
  repeat match goal with H : _active_state _ _ = Ok _ |- _ => apply active_state_Ok in H; [|done] end.
  match goal with H : integer_field _ _ _ = Ok _ |- _ => apply integer_field_Ok in H as [[= ->] ?] end.
  match goal with H : _contributor_set _ _ = Ok _ |- _ => apply contributor_set_Ok in H as (-> & _) end.
  match goal with H : _new_state _ _ _ _ _ _ = Ok _ |- _ =>
    apply new_state_spec in H as (Hw & ? & ? & ? & ? & Hact & Hfresh) end.
  match goal with H : live l id ?u |- _ => rename u into sa; destruct H as [Ha Haa] end.
  pose proof (proj1 (pl_wf l Hl _ _ Ha)) as Ia.
  assert (Hl1 : ∃ l1, _register l1 out = Ok l' ∧ pledger_wf l1 ∧
    (∀ i, is_Some (pl_states l1 !! i) ↔ is_Some (pl_states l !! i)) ∧
    ∀ i s, live l1 i s ↔ live l i s ∧ (i = id → pst_contributors sa = required)).
  { case_bool_decide as Hc; inv_res; subst.
    - eexists. split_and!; try done. naive_solver.
    - destruct (deactivate_spec l sa) as (l1 & E1 & Hl1 & S1 & _ & _ & Hin); [done|done|].
      match goal with H : _deactivate l _ = Ok ?m |- _ => assert (m = l1) as -> by congruence end.
      eexists. split_and!; [done| | |].
      + apply set_outbound_wf; [done|]. rewrite Hin. set_solver.
      + intros i. simpl. rewrite S1. apply elem_of_dom_2 in Ha.
        rewrite <- !elem_of_dom, dom_insert. set_solver.
      + intros i s. unfold live. simpl. rewrite S1, lookup_insert_Some. split.
        * intros [[[<- <-]|[? Hs]] Hsa]; [done|]. split; [done|]. intros ->. done.
        * intros [[Hs Hsa] Hi]. split; [|done]. right. split; [|done].
          intros <-. by apply Hc, Hi. }
  destruct Hl1 as (l1 & Hreg & Hl1 & Hdom & Hlive).
  apply register_spec in Hreg as (Hl' & Hf' & S' & _); [|done|done].
  exists sa. split_and!; try done; try congruence.
  - intros i. rewrite S', <- Hdom, <- !elem_of_dom, dom_insert. set_solver.
  - intros i s. rewrite <- Hlive. unfold live. rewrite S', lookup_insert_Some. split.
    + intros [[[<- <-]|[? Hs]] Hsa]; [by left|by right].
    + intros [[-> ->]|[Hs Hsa]]; [by split; [left|]|]. split; [|done]. right.
      split; [|done]. intros <-. congruence.
Qed.
