(* ===== verification/PayloadRuns.v ===== *)
(** * Runs of the payload ledger: linear partial sums, and their values *)

From S2P Require Import Prelude.
From S2P Require Import Python.
From S2P Require Import Slice.
From S2P Require Import Collective.
From S2P Require Import Atom.
From S2P Require Import PayloadState.
From S2P Require Import PayloadLaws.
Local Open Scope Z_scope.

(** One call that returns, by the versions it used and made. *)
Inductive payload_op : Type :=
  | Reduced (left_id right_id out : string)
  | Sent (src out : string) (required : gset Z).

Inductive payload_step (l : PayloadLedger) : payload_op → PayloadLedger → Prop :=
  | step_reduce a b dst t l' out :
      reduce l a b dst t = Ok (l', out) → payload_step l (Reduced a b (pst_id out)) l'
  | step_send a dst t required l' out :
      send l a dst t required = Ok (l', out) → payload_step l (Sent a (pst_id out) required) l'
  | step_merge a b t l' out :
      merge_local l a b t = Ok (l', out) → payload_step l (Reduced a b (pst_id out)) l'.

Inductive payload_run : PayloadLedger → list payload_op → PayloadLedger → Prop :=
  | payload_nil l : payload_run l [] l
  | payload_cons l op l1 ops l2 :
      payload_step l op l1 → payload_run l1 ops l2 → payload_run l (op :: ops) l2.

Lemma payload_run_app l ops1 l1 ops2 l2 :
  payload_run l ops1 l1 → payload_run l1 ops2 l2 → payload_run l (ops1 ++ ops2) l2.
Proof. induction 1; [done|]. intros. eapply payload_cons; eauto. Qed.

Lemma payload_run_one l op l' : payload_step l op l' → payload_run l [op] l'.
Proof. intros. eapply payload_cons; [done|constructor]. Qed.

Lemma merge_local_reduce l a b t l' out :
  merge_local l a b t = Ok (l', out) → ∃ dst, reduce l a b dst t = Ok (l', out).
Proof. unfold merge_local. intros H. inv_res. eauto. Qed.

(** ** The initial ledger *)

Lemma PayloadLedger_init_spec sts l :
  Forall pst_wf sts → Forall (λ s, pst_active s = true) sts →
  PayloadLedger_init sts = Ok l →
  pledger_wf l ∧ ∀ id s, pl_states l !! id = Some s → s ∈ sts ∧ pst_id s = id.
Proof.
  intros Hw Ha H. unfold PayloadLedger_init in H. rewrite Forall_forall in Hw.
  apply (foldM_ind (λ don l, pledger_wf l ∧
    ∀ id s, pl_states l !! id = Some s → s ∈ don ∧ pst_id s = id)) in H; [done| |].
  - split; [|done]. constructor; simpl.
    + done.
    + intros id. split; [set_solver|]. intros (s & Hs & _). done.
    + intros k id. split; [done|]. intros (s & [Hs _] & _). done.
    + done.
  - intros don x b b' [Hb Hin] Hx Hr.
    apply register_spec in Hr as (Hb' & _ & S & _); [|done|by apply Hw]. split; [done|].
    intros id s. rewrite S, lookup_insert_Some. intros [[<- <-]|[_ Hs]]; [set_solver|].
    apply Hin in Hs. set_solver.
Qed.

(** The state that the code makes for one slice. *)
Record initial_of (P n : Z) (s : PayloadState) : Prop := {
  io_wf : pst_wf s;
  io_active : pst_active s = true;
  io_rank : 0 ≤ pst_rank s < P;
  io_address : 0 ≤ pst_address s < n;
  io_slice : pst_contributors s = {[pst_rank s * n + pst_address s]};
  io_name : pst_id s = state_name (pst_rank s) (pst_address s) 0;
}.

Lemma initial_payload_states_spec P n sts :
  initial_payload_states P n = Ok sts → 1 ≤ P ∧ 1 ≤ n ∧ Forall (initial_of P n) sts.
Proof.
  unfold initial_payload_states. intros H. inv_res.
  repeat match goal with H : integer_field _ _ _ = Ok _ |- _ =>
    apply integer_field_Ok in H as [[= ->] ?] end.
  split; [done|]. split; [done|].
  match goal with H : mapR _ _ = Ok _ |- _ => apply mapR_Ok in H; rename H into Hs end.
  apply Forall_forall. intros s [i Hi]%list_elem_of_lookup.
  destruct (Forall2_lookup_r _ _ _ _ _ Hs Hi) as ([r a] & Hra & Hst).
  apply list_elem_of_lookup_2 in Hra.
  apply list_elem_of_bind in Hra as (r' & Hra & Hr). apply elem_of_seqZ in Hr.
  apply list_elem_of_bind in Hra as (a' & Hra & Ha). apply elem_of_seqZ in Ha.
  apply list_elem_of_singleton in Hra as [= -> ->].
  rewrite logical_slice_index_Ok in Hst by nia. cbn [mbind res_bind] in Hst.
  rewrite slice_mod in Hst by lia.
  apply PayloadState_init_wf in Hst as (? & Hid & ? & Hr' & Ha' & Hc & ? & ? & ?).
  constructor; try done; try lia; by rewrite Hr', Ha'.
Qed.

(** ** Linear use of partial sums *)

Section linear.
Context (P n : Z).

(** All contributions at an address: what an aggregating collective requires. *)
Definition full (a : Z) : gset Z := _aggregate_contributors a P n.

(** Sends ask for the full sum at the address of their source. *)
Definition aggregating (l : PayloadLedger) (op : payload_op) : Prop :=
  match op with
  | Reduced _ _ _ => True
  | Sent src _ required => ∀ s, live l src s → required = full (pst_address s)
  end.

Inductive aggregating_run : PayloadLedger → list payload_op → PayloadLedger → Prop :=
  | agg_nil l : aggregating_run l [] l
  | agg_cons l op l1 ops l2 :
      aggregating l op → payload_step l op l1 → aggregating_run l1 ops l2 →
      aggregating_run l (op :: ops) l2.

Record linear (l : PayloadLedger) : Prop := {
  li_wf : pledger_wf l;
  li_full id s : live l id s → pst_contributors s ⊆ full (pst_address s);
  li_disjoint i j s t : live l i s → live l j t → i ≠ j → pst_address s = pst_address t →
    pst_contributors s ≠ full (pst_address s) → pst_contributors t ≠ full (pst_address t) →
    pst_contributors s ## pst_contributors t;
}.

Lemma linear_reduce l a b dst t l' out :
  linear l → reduce l a b dst t = Ok (l', out) → linear l'.
Proof.
  intros [Hl Hf Hd] H. apply payload_reduce_spec in H as
    (sa & sb & Ha & Hb & Hne & Hab & Hdis & Hc & Haddr & _ & _ & _ & _ & Hl' & Hw & _ & _ & Hlive);
    [|done].
  destruct (pl_wf l Hl _ _ (proj1 Ha)) as [_ Hwa]. destruct (pl_wf l Hl _ _ (proj1 Hb)) as [_ Hwb].
  assert (Hinc : pst_contributors sa ≠ full (pst_address sa) ∧
                 pst_contributors sb ≠ full (pst_address sb)).
  { pose proof (Hf _ _ Ha). pose proof (Hf _ _ Hb).
    pose proof (pw_contributors _ Hwa). pose proof (pw_contributors _ Hwb).
    rewrite <- Hab in *. split; intros E; rewrite E in *; set_solver. }
  assert (Hnew : ∀ i s, live l i s → i ≠ a → i ≠ b → pst_address s = pst_address out →
    pst_contributors s ≠ full (pst_address s) → pst_contributors s ## pst_contributors out).
  { intros i s Hs Hia Hib Hadd Hs'. rewrite Hc, disjoint_union_r.
    split; [apply (Hd i a s sa)|apply (Hd i b s sb)]; try done; try congruence; apply Hinc. }
  constructor; [done| |].
  - intros id s [[-> ->]|[Hs _]]%Hlive; [|by eapply Hf]. rewrite Hc, Haddr.
    pose proof (Hf _ _ Ha). pose proof (Hf _ _ Hb). rewrite <- Hab in *. set_solver.
  - intros i j s u [[-> ->]|(Hs & ? & ?)]%Hlive [[-> ->]|(Hu & ? & ?)]%Hlive Hij Hadd Hs' Hu';
      [done| | |by eapply (Hd i j)].
    + symmetry. eapply (Hnew j); done.
    + eapply (Hnew i); done.
Qed.

Lemma linear_step l op l' : linear l → aggregating l op → payload_step l op l' → linear l'.
Proof.
  intros HL Ha Hs. destruct Hs as [a b dst t l' out H|a dst t R l' out H|a b t l' out H].
  - by eapply linear_reduce.
  - destruct HL as [Hl Hf Hd].
    apply payload_send_spec in H as (sa & Hsa & Hsub & _ & Hc & Haddr & _ & _ & _ & Hl' & _ & _ & _ & Hlive);
      [|done].
    specialize (Ha _ Hsa). subst R.
    assert (Hnew : ∀ i s, live l i s → (i = a → pst_contributors sa = full (pst_address sa)) →
      pst_address s = pst_address out → pst_contributors s ≠ full (pst_address s) →
      pst_contributors out ≠ full (pst_address out) →
      pst_contributors s ## pst_contributors out).
    { intros i s Hs Hi Hadd Hs' Ho. rewrite Hc, Haddr in *.
      destruct (decide (i = a)) as [->|Hia]; [by destruct (Ho (Hi eq_refl))|].
      by apply (Hd i a s sa). }
    constructor; [done| |].
    + intros id s [[-> ->]|[Hs _]]%Hlive; [|by eapply Hf]. rewrite Hc, Haddr. by eapply Hf.
    + intros i j s u [[-> ->]|[Hs Hi]]%Hlive [[-> ->]|[Hu Hj]]%Hlive Hij Hadd Hs' Hu';
        [done| | |by eapply (Hd i j)].
      * symmetry. eapply (Hnew j); done.
      * eapply (Hnew i); done.
  - apply merge_local_reduce in H as [dst H]. by eapply linear_reduce.
Qed.

Lemma initial_linear sts l :
  initial_payload_states P n = Ok sts → PayloadLedger_init sts = Ok l → linear l.
Proof.
  intros (HP & Hn & Hi)%initial_payload_states_spec H.
  rewrite Forall_forall in Hi.
  apply PayloadLedger_init_spec in H as [Hl Hin];
    [|apply Forall_forall; intros s Hs; by destruct (Hi s Hs)..].
  constructor; [done| |].
  - intros id s [[Hs _]%Hin _]. destruct (Hi s Hs) as [_ _ Hr _ -> _].
    intros x ->%elem_of_singleton. apply elem_of_aggregate. eauto.
  - intros i j s t [[Hs <-]%Hin _] [[Ht <-]%Hin _] Hij Hadd _ _.
    destruct (Hi s Hs) as [_ _ _ Ha Es Ns], (Hi t Ht) as [_ _ _ Hb Et Nt].
    rewrite Es, Et. apply disjoint_singleton_l. rewrite elem_of_singleton. intros E.
    apply slice_inj in E as [E _]; [|done..]. apply Hij. rewrite Ns, Nt. congruence.
Qed.

End linear.


(** ** Values *)

Section values.
Context (V : Z → Z).

(** The sum of the values of some slices. *)
Definition sum_of (X : gset Z) : Z := zsum (V <$> elements X).

(** What the operations do to the data of the versions. *)
Definition op_values (vals : string → Z) (op : payload_op) : string → Z :=
  match op with
  | Reduced a b out => λ id, if bool_decide (id = out) then vals a + vals b else vals id
  | Sent a out _ => λ id, if bool_decide (id = out) then vals a else vals id
  end.

Definition valued (l : PayloadLedger) (vals : string → Z) : Prop :=
  ∀ id s, live l id s → vals id = sum_of (pst_contributors s).

Lemma sum_of_union X Y : X ## Y → sum_of (X ∪ Y) = sum_of X + sum_of Y.
Proof.
  intros H. unfold sum_of. rewrite <- zsum_app, <- fmap_app. by rewrite elements_disj_union.
Qed.

Lemma valued_step l op l' vals :
  pledger_wf l → payload_step l op l' → valued l vals →
  pledger_wf l' ∧ valued l' (op_values vals op).
Proof.
  intros Hl Hs Hv.
  assert (Hred : ∀ a b dst t l' out, reduce l a b dst t = Ok (l', out) →
    pledger_wf l' ∧ valued l' (op_values vals (Reduced a b (pst_id out)))).
  { intros a b dst t l2 out H. apply payload_reduce_spec in H as
      (sa & sb & Ha & Hb & _ & _ & Hdis & Hc & _ & _ & _ & _ & _ & Hl' & _ & Hf & _ & Hlive); [|done].
    split; [done|]. intros id s [[-> ->]|(Hs' & _)]%Hlive; simpl.
    - rewrite bool_decide_eq_true_2 by done. rewrite (Hv _ _ Ha), (Hv _ _ Hb), Hc.
      by rewrite sum_of_union.
    - rewrite bool_decide_eq_false_2; [by apply Hv|]. intros ->. destruct Hs'. congruence. }
  destruct Hs as [a b dst t l' out H|a dst t R l' out H|a b t l' out H].
  - by eapply Hred.
  - apply payload_send_spec in H as (sa & Hsa & _ & _ & Hc & _ & _ & _ & _ & Hl' & _ & Hf & _ & Hlive);
      [|done].
    split; [done|]. intros id s [[-> ->]|[Hs' _]]%Hlive; simpl.
    + rewrite bool_decide_eq_true_2 by done. rewrite (Hv _ _ Hsa). by rewrite Hc.
    + rewrite bool_decide_eq_false_2; [by apply Hv|]. intros ->. destruct Hs'. congruence.
  - apply merge_local_reduce in H as [dst H]. by eapply Hred.
Qed.

Lemma valued_run l ops l' vals :
  payload_run l ops l' → pledger_wf l → valued l vals →
  pledger_wf l' ∧ valued l' (foldl op_values vals ops).
Proof.
  intros Hr. revert vals. induction Hr as [l|l op l1 ops l2 Hs _ IH]; intros vals Hl Hv; [done|].
  destruct (valued_step l op l1 vals Hl Hs Hv). by apply IH.
Qed.

End values.

(** ** A concrete run: two ranks, one slice each, summed at rank 1 *)

Definition demo_initial : res PayloadLedger :=
  sts ← initial_payload_states 2 1;
  PayloadLedger_init sts.

Definition demo_reduced (l : PayloadLedger) : res (PayloadLedger * PayloadState) :=
  reduce l "state-r0-a0-v0" "state-r1-a0-v0" 1 (PFloat (Finite 0)).

