(* ===== verification/Checker.v ===== *)
(** * The final-state checker ([vericcl/semantics/checker.py])

    [check_final_states] compares the states a replay ends with to the output
    table of the collective.  It is sound and complete for that table. *)

From S2P Require Import Prelude.
From S2P Require Import Python.
From S2P Require Import Slice.
From S2P Require Import Collective.
From S2P Require Import Atom.
From S2P Require Import PayloadState.
From S2P Require Import PayloadLaws.
Local Open Scope Z_scope.

Definition _logical_address (st : PayloadState) (rank_count slice_count : Z) : res Z :=
  let global_slice_count := rank_count * slice_count in
  iterM (λ slice_id,
    raise_when ((slice_id <? 0) || (global_slice_count <=? slice_id))
      (SemanticError "final state contributor is outside the global range"))
    (elements (pst_contributors st));;
  addresses ← mapR (λ slice_id, py_mod slice_id slice_count) (elements (pst_contributors st));
  match remove_dups addresses with
  | [logical_address] =>
      raise_when (negb (pst_address st =? logical_address))
        (SemanticError "final state has an incorrect logical address");;
      Ok logical_address
  | _ => Err (SemanticError "final state contributors have different logical addresses")
  end.

(** [len(state.contributors) != 1] and [next(iter(state.contributors))]. *)
Definition single_contributor (st : PayloadState) (msg : string) : res Z :=
  match elements (pst_contributors st) with
  | [contributor] => Ok contributor
  | _ => Err (SemanticError msg)
  end.

Definition output_slot_of (spec : CollectiveSpec) (st : PayloadState) (rank_count slice_count : Z)
    (logical_address : Z) : res OutputSlot :=
  match cs_kind spec with
  | BROADCAST | REDUCE | ALL_REDUCE => OutputSlot_init (pst_rank st) logical_address
  | GATHER | ALL_GATHER =>
      contributor ← single_contributor st "gather final state must contain one contributor";
      OutputSlot_init (pst_rank st) contributor
  | ALL_TO_ALL =>
      contributor ← single_contributor st "AllToAll final state must contain one contributor";
      quotient ← py_floordiv slice_count rank_count;
      source_rank ← py_floordiv contributor slice_count;
      rest ← py_mod logical_address quotient;
      OutputSlot_init (pst_rank st) (source_rank * quotient + rest)
  | SCATTER =>
      single_contributor st "scatter final state must contain one contributor";;
      quotient ← py_floordiv slice_count rank_count;
      offset ← py_mod logical_address quotient;
      OutputSlot_init (pst_rank st) offset
  | REDUCE_SCATTER =>
      quotient ← py_floordiv slice_count rank_count;
      offset ← py_mod logical_address quotient;
      OutputSlot_init (pst_rank st) offset
  end.

Definition _actual_output (spec : CollectiveSpec) (st : PayloadState) (rank_count slice_count : Z)
    : res (OutputSlot * gset Z) :=
  raise_when (negb (pst_active st)) (SemanticError "inactive state cannot be a final output");;
  raise_when ((pst_rank st <? 0) || (rank_count <=? pst_rank st))
    (SemanticError "final state rank is outside the rank range");;
  logical_address ← _logical_address st rank_count slice_count;
  slot ← output_slot_of spec st rank_count slice_count logical_address;
  Ok (slot, pst_contributors st).

Definition slot_error (prefix : string) (slot : OutputSlot) : exn :=
  SemanticError (prefix +:+ " rank " +:+ str_of_int (slot_rank slot) +:+ " offset "
                 +:+ str_of_int (slot_offset slot)).

(** One state of the loop: [(actual, state_ids)]. *)
Definition final_state_step (spec : CollectiveSpec) (rank_count slice_count : Z)
    (acc : list (OutputSlot * gset Z) * gset string) (st : PayloadState)
    : res (list (OutputSlot * gset Z) * gset string) :=
  let '(actual, state_ids) := acc in
  raise_when (bool_decide (pst_id st ∈ state_ids))
    (SemanticError "final state IDs must be unique");;
  '(slot, contributors) ← _actual_output spec st rank_count slice_count;
  raise_when (bool_decide (is_Some (dict_get slot actual)))
    (slot_error "duplicate final output at" slot);;
  Ok (dict_set slot contributors actual, {[pst_id st]} ∪ state_ids).

(** The slots of one table that the other lacks, ascending. *)
Definition slots_without (table other : list (OutputSlot * gset Z)) : list OutputSlot :=
  sorted_by id (filter (λ slot, dict_get slot other = None) table.*1).

Definition check_final_states (spec : CollectiveSpec) (rank_count slice_count : Z)
    (sts : list PayloadState) : res unit :=
  expected ← required_outputs spec rank_count slice_count;
  '(actual, _) ← foldM (final_state_step spec rank_count slice_count) ([], ∅) sts;
  match slots_without expected actual with
  | slot :: _ => Err (slot_error "missing final output at" slot)
  | [] => Ok tt
  end;;
  match slots_without actual expected with
  | slot :: _ => Err (slot_error "extra final output at" slot)
  | [] => Ok tt
  end;;
  iterM (λ '(slot, contributors),
    found ← of_option (dict_get slot actual) (KeyError "slot");
    raise_when (negb (bool_decide (found = contributors)))
      (slot_error "final contributors do not match" slot)) expected.

(** ** Specification *)

(** The state is what the slot of a collective must hold. *)
Record fills (spec : CollectiveSpec) (P n : Z) (st : PayloadState) (slot : OutputSlot) : Prop := {
  fl_active : pst_active st = true;
  fl_rank : pst_rank st = slot_rank slot;
  fl_value : collective_value spec P n (slot_rank slot) (slot_offset slot) =
             Some (pst_contributors st);
  fl_address x : x ∈ pst_contributors st → x `mod` n = pst_address st;
}.

(** Each state fills a slot of its own, and every slot is filled. *)
Definition complete_output (spec : CollectiveSpec) (P n : Z) (sts : list PayloadState) : Prop :=
  NoDup (pst_id <$> sts) ∧
  ∃ slots, Forall2 (fills spec P n) sts slots ∧ NoDup slots ∧
    ∀ slot c, collective_value spec P n (slot_rank slot) (slot_offset slot) = Some c →
              slot ∈ slots.

Lemma remove_dups_singleton {A} `{EqDecision A} (l : list A) a :
  remove_dups l = [a] ↔ l ≠ [] ∧ ∀ x, x ∈ l → x = a.
Proof.
  split.
  - intros H. split; [by intros ->|]. intros x Hx. apply elem_of_remove_dups in Hx.
    rewrite H in Hx. by apply list_elem_of_singleton in Hx.
  - intros [Hne Hall]. pose proof (NoDup_remove_dups l) as Hnd.
    assert (Hin : ∀ x, x ∈ remove_dups l ↔ x ∈ l) by (intros; apply elem_of_remove_dups).
    destruct (remove_dups l) as [|x [|y k]] eqn:E.
    + destruct l as [|z l]; [done|]. specialize (Hin z). exfalso.
      apply (not_elem_of_nil z), Hin. by left.
    + f_equal. apply Hall, Hin. by left.
    + exfalso. assert (x = a) as -> by (apply Hall, Hin; by left).
      assert (y = a) as -> by (apply Hall, Hin; right; by left).
      apply NoDup_cons in Hnd as [Hnd _]. apply Hnd. by left.
Qed.

Lemma logical_address_Ok st P n a :
  pst_contributors st ≠ ∅ → 1 ≤ n →
  _logical_address st P n = Ok a ↔
  pst_address st = a ∧
  ∀ x, x ∈ pst_contributors st → 0 ≤ x < P * n ∧ x `mod` n = a.
Proof.
  intros Hne Hn. unfold _logical_address.
  assert (Hmap : mapR (λ slice_id, py_mod slice_id n) (elements (pst_contributors st)) =
    Ok ((λ x, x `mod` n) <$> elements (pst_contributors st))).
  { apply mapR_Ok. apply Forall2_fmap_r, Forall_Forall2_diag. apply Forall_forall.
    intros x _. apply py_mod_Ok. lia. }
  rewrite Hmap. cbv zeta.
  assert (Hel : (λ x, x `mod` n) <$> elements (pst_contributors st) ≠ []).
  { intros E. apply fmap_nil_inv, elements_empty_inv in E. by apply leibniz_equiv in E. }
  split.
  - intros H. inv_res.
    match goal with H : iterM _ _ = Ok _ |- _ => apply iterM_Ok in H; rewrite Forall_forall in H;
      rename H into Hr end.
    destruct (remove_dups _) as [|b []] eqn:E; try done. inv_res. subst. bool_prop.
    apply remove_dups_singleton in E as [_ E]. split; [done|]. intros x Hx.
    apply elem_of_elements in Hx. specialize (Hr x Hx). inv_res. bool_prop.
    split; [lia|]. apply E. apply list_elem_of_fmap. eauto.
  - intros [Ha Hx].
    rewrite (proj2 (iterM_Ok _ _ tt)).
    + cbn [mbind res_bind]. rewrite (proj2 (remove_dups_singleton _ a)).
      * by rewrite (proj2 (Z.eqb_eq _ _) Ha).
      * split; [done|]. intros y (x & -> & Hin)%list_elem_of_fmap.
        apply elem_of_elements in Hin. by apply Hx.
    + apply Forall_forall. intros x Hin%elem_of_elements. destruct (Hx x Hin) as [Hr _].
      by rewrite (proj2 (Z.ltb_ge x 0)), (proj2 (Z.leb_gt _ x)) by lia.
Qed.

Lemma single_contributor_Ok st msg x :
  single_contributor st msg = Ok x ↔ pst_contributors st = {[x]}.
Proof.
  unfold single_contributor. split.
  - destruct (elements _) as [|y []] eqn:E; try done. intros [= ->]. apply set_eq. intros z.
    rewrite <- elem_of_elements, E, list_elem_of_singleton, elem_of_singleton. done.
  - intros ->. by rewrite elements_singleton.
Qed.

(** ** One state *)

Lemma actual_output_Ok spec P n st slot c :
  _actual_output spec st P n = Ok (slot, c) →
  c = pst_contributors st ∧ pst_active st = true ∧ 0 ≤ pst_rank st < P ∧
  pst_rank st = slot_rank slot ∧
  ∃ a, _logical_address st P n = Ok a.
Proof.
  unfold _actual_output. intros H. inv_res. simplify_eq. bool_prop.
  split_and!; try done; [|by eexists].
  match goal with H : output_slot_of _ _ _ _ _ = Ok _ |- _ => unfold output_slot_of in H end.
  destruct (cs_kind spec); inv_res;
    match goal with H : OutputSlot_init _ _ = Ok _ |- _ =>
      apply OutputSlot_init_Ok in H as (_ & _ & ->) end; done.
Qed.

Section fills.
Context (spec : CollectiveSpec) (P n : Z) (Hv : valid_problem spec P n).
Context (st : PayloadState) (Hst : pst_wf st).

Lemma fills_slices slot : fills spec P n st slot →
  0 ≤ slot_rank slot < P ∧ 0 ≤ slot_offset slot ∧
  ∀ x, x ∈ pst_contributors st → 0 ≤ x < P * n ∧ x `mod` n = pst_address st.
Proof.
  intros [_ _ Hval Haddr]. pose proof (collective_value_bounds _ _ _ _ _ _ Hval).
  apply collective_value_slices in Hval as (_ & a & _ & Hs); [|done].
  split_and!; try lia. intros x Hx. split; [by apply Hs|by apply Haddr].
Qed.

(** Where the slot of a filled state lies. *)
Lemma output_slot_fills slot :
  fills spec P n st slot → output_slot_of spec st P n (pst_address st) = Ok slot.
Proof.
  intros Hf. destruct (fills_slices slot Hf) as (Hr & Ho & Hx).
  destruct Hf as [_ Hrank Hval _]. pose proof (quotient_facts spec P n Hv) as Hq.
  pose proof (vp_ranks _ _ _ Hv) as HP. pose proof (vp_slices _ _ _ Hv) as Hn.
  unfold output_slot_of. rewrite Hrank. unfold collective_value in Hval.
  assert (Hslot : ∀ o, o = slot_offset slot → OutputSlot_init (slot_rank slot) o = Ok slot).
  { intros o ->. apply OutputSlot_init_Ok. split_and!; try lia. by destruct slot. }
  assert (Hone : ∀ x, pst_contributors st = {[x]} → x `mod` n = pst_address st ∧ 0 ≤ x < P * n).
  { intros x E. destruct (Hx x); [|done]. rewrite E. by apply elem_of_singleton. }
  assert (Hagg : ∀ o, 0 ≤ o < n → pst_contributors st = _aggregate_contributors o P n →
    pst_address st = o).
  { intros o Ho' E. destruct (Hx o) as [_ <-].
    - rewrite E. apply elem_of_aggregate. exists 0. lia.
    - rewrite Z.mod_small by done. done. }
  destruct (cs_kind spec); simpl in *;
    repeat match goal with H : (if ?b then _ else _) = _ |- _ => destruct b; [|done] end;
    apply within_Some in Hval as (_ & Hoff & Hc);
    try (destruct (Hone _ Hc) as [Ha Hin]; try rewrite (proj2 (single_contributor_Ok _ _ _) Hc));
    try (destruct (Hq eq_refl) as [Hn' Hq1]); cbn [mbind res_bind].
  - apply Hslot. by rewrite <- Ha, slice_mod by done.
  - apply Hslot. by apply Hagg.
  - rewrite py_floordiv_Ok by lia. cbn [mbind res_bind]. rewrite py_mod_Ok by lia.
    cbn [mbind res_bind]. apply Hslot. rewrite <- Ha.
    rewrite <- Z.add_assoc, slice_mod by nia. by rewrite slice_mod.
  - by apply Hslot.
  - by apply Hslot.
  - apply Hslot. by apply Hagg.
  - destruct (slice_split (slot_offset slot) (n / P) ltac:(lia)) as [Eo Hm].
    set (q := n / P) in *. set (o := slot_offset slot) in *. set (r := slot_rank slot) in *.
    assert (Hin' : 0 ≤ r * q + o `mod` q < n) by (rewrite Hn'; nia).
    rewrite <- Z.add_assoc in Ha, Hc. rewrite slice_mod in Ha by done.
    rewrite py_floordiv_Ok by lia. cbn [mbind res_bind]. fold q.
    rewrite py_floordiv_Ok by lia. cbn [mbind res_bind].
    rewrite py_mod_Ok by lia. cbn [mbind res_bind]. apply Hslot.
    rewrite <- Z.add_assoc, slice_div, <- Ha, slice_mod by (done || lia). lia.
  - rewrite py_floordiv_Ok by lia. cbn [mbind res_bind]. rewrite py_mod_Ok by lia.
    cbn [mbind res_bind]. apply Hslot.
    rewrite (Hagg (slot_rank slot * (n / P) + slot_offset slot)); [|nia|done].
    by rewrite slice_mod.
Qed.

Lemma actual_output_fills slot :
  fills spec P n st slot → _actual_output spec st P n = Ok (slot, pst_contributors st).
Proof.
  intros Hf. destruct (fills_slices slot Hf) as (Hr & Ho & Hx).
  unfold _actual_output. rewrite (fl_active _ _ _ _ _ Hf), (fl_rank _ _ _ _ _ Hf).
  rewrite (proj2 (Z.ltb_ge _ 0)), (proj2 (Z.leb_gt P _)) by lia. cbn.
  rewrite (proj2 (logical_address_Ok st P n (pst_address st) (pw_contributors _ Hst)
    (vp_slices _ _ _ Hv))) by done. cbn [mbind res_bind].
  by rewrite (output_slot_fills slot Hf).
Qed.

Lemma actual_output_sound slot c :
  _actual_output spec st P n = Ok (slot, c) →
  collective_value spec P n (slot_rank slot) (slot_offset slot) = Some c →
  c = pst_contributors st ∧ fills spec P n st slot.
Proof.
  intros H Hc. apply actual_output_Ok in H as (-> & Hact & Hr & Hrank & a & Ha).
  split; [done|]. apply logical_address_Ok in Ha as [Haddr Hx];
    [|apply (pw_contributors _ Hst)|apply (vp_slices _ _ _ Hv)].
  constructor; try done. intros x Hin. rewrite Haddr. by apply Hx.
Qed.

End fills.

(** ** The loop over the states *)

Lemma final_state_loop spec P n sts actual ids actual' ids' :
  NoDup actual.*1 →
  foldM (final_state_step spec P n) (actual, ids) sts = Ok (actual', ids') ↔
  ∃ slots, Forall2 (λ st slot, _actual_output spec st P n = Ok (slot, pst_contributors st)) sts slots ∧
    NoDup (actual.*1 ++ slots) ∧ NoDup (pst_id <$> sts) ∧ (∀ st, st ∈ sts → pst_id st ∉ ids) ∧
    actual' = actual ++ zip slots (pst_contributors <$> sts) ∧
    ids' = list_to_set (pst_id <$> sts) ∪ ids.
Proof.
  revert actual ids. induction sts as [|st sts IH]; intros actual ids Hnd; cbn [foldM].
  { split.
    - intros [= <- <-]. exists []. rewrite !app_nil_r. split_and!; csimpl; try done; try constructor; [set_solver|].
      by rewrite union_empty_l_L.
    - intros (slots & H & _ & _ & _ & -> & ->). apply Forall2_nil_inv_l in H as ->.
      rewrite app_nil_r. simpl. by rewrite union_empty_l_L. }
  rewrite bind_Ok. split.
  - intros ([act1 ids1] & H1 & H). unfold final_state_step in H1. inv_res. case_match. inv_res.
    simplify_eq. bool_prop. subst.
    match goal with H : ¬ is_Some _ |- _ => apply eq_None_not_Some in H; rename H into Hnone end.
    match goal with H : _actual_output _ _ _ _ = Ok (?sl, ?c) |- _ =>
      rename H into Ha, sl into slot; pose proof (proj1 (actual_output_Ok _ _ _ _ _ _ Ha)) as -> end.
    apply dict_get_None in Hnone. rewrite dict_set_fresh in H by done.
    apply IH in H as (slots & HF & Hs & Hi & Hid & -> & ->).
    + exists (slot :: slots). rewrite fmap_app, <- app_assoc in Hs. csimpl in Hs.
      split_and!; [by constructor|done| | |by rewrite <- app_assoc|].
      * constructor; [|done]. intros (s & E & Hin)%list_elem_of_fmap.
        apply (Hid s Hin). rewrite <- E. set_solver.
      * intros s [->|Hin]%elem_of_cons; [done|]. specialize (Hid s Hin). set_solver.
      * csimpl. simpl. set_solver.
    + rewrite fmap_app. csimpl. apply NoDup_app. split_and!; [done| |apply NoDup_singleton].
      intros k Hk ->%list_elem_of_singleton. done.
  - intros (slots & HF & Hs & Hi & Hid & -> & ->).
    apply Forall2_cons_inv_l in HF as (slot & slots' & Ha & HF & ->).
    apply NoDup_cons in Hi as [Hi1 Hi].
    assert (Hfresh : slot ∉ actual.*1).
    { apply NoDup_app in Hs as (_ & Hd & _). intros Hk. apply (Hd _ Hk). by left. }
    exists (actual ++ [(slot, pst_contributors st)], {[pst_id st]} ∪ ids). split.
    + unfold final_state_step. rewrite bool_decide_eq_false_2 by (apply Hid; by left).
      cbn [raise_when mbind res_bind]. rewrite Ha. cbn [mbind res_bind].
      apply dict_get_None in Hfresh as Hnone. rewrite Hnone. simpl. by rewrite dict_set_fresh.
    + apply IH.
      * rewrite fmap_app. csimpl. apply NoDup_app. split_and!; [done| |apply NoDup_singleton].
        intros k Hk ->%list_elem_of_singleton. done.
      * exists slots'. rewrite fmap_app, <- !app_assoc. csimpl. split_and!; try done.
        -- intros s Hin. assert (pst_id s ∉ ids) by (apply Hid; by right).
           assert (pst_id s ≠ pst_id st).
           { intros E. apply Hi1. rewrite <- E. by apply list_elem_of_fmap_2. }
           set_solver.
        -- simpl. set_solver.
Qed.

Lemma slots_without_nil table other :
  slots_without table other = [] ↔ ∀ slot, slot ∈ table.*1 → slot ∈ other.*1.
Proof.
  unfold slots_without. rewrite <- length_zero_iff_nil, length_sorted_by, length_zero_iff_nil.
  split.
  - intros H slot Hs. destruct (decide (slot ∈ other.*1)) as [|Hn]; [done|].
    apply dict_get_None in Hn. exfalso. apply (not_elem_of_nil slot). rewrite <- H.
    by apply list_elem_of_filter.
  - intros H. apply list_filter_none. intros slot Hs Hn. apply dict_get_None in Hn. by apply Hn, H.
Qed.

Lemma check_final_states_tail expected actual :
  (match slots_without expected actual with
   | slot :: _ => Err (slot_error "missing final output at" slot)
   | [] => Ok tt
   end;;
   match slots_without actual expected with
   | slot :: _ => Err (slot_error "extra final output at" slot)
   | [] => Ok tt
   end;;
   iterM (λ '(slot, contributors),
     found ← of_option (dict_get slot actual) (KeyError "slot");
     raise_when (negb (bool_decide (found = contributors)))
       (slot_error "final contributors do not match" slot)) expected) = Ok tt ↔
  (∀ slot, slot ∈ expected.*1 ↔ slot ∈ actual.*1) ∧
  ∀ slot c, (slot, c) ∈ expected → dict_get slot actual = Some c.
Proof.
  split.
  - intros H. apply bind_Ok in H as (u & H1 & H). apply bind_Ok in H as (u' & H2 & H).
    destruct (slots_without expected actual) eqn:E1; [|done].
    destruct (slots_without actual expected) eqn:E2; [|done].
    pose proof (proj1 (slots_without_nil _ _) E1) as E1'.
    pose proof (proj1 (slots_without_nil _ _) E2) as E2'.
    apply iterM_Ok in H. rewrite Forall_forall in H. split; [split; [apply E1'|apply E2']|].
    intros slot c Hin. specialize (H _ Hin). simpl in H. inv_res. bool_prop. by subst.
  - intros [Hk Hget].
    rewrite (proj2 (slots_without_nil expected actual)) by (intros ?; apply Hk).
    rewrite (proj2 (slots_without_nil actual expected)) by (intros ?; apply Hk). simpl.
    apply iterM_Ok, Forall_forall. intros [slot c] Hin. rewrite (Hget _ _ Hin). simpl.
    by rewrite bool_decide_eq_true_2.
Qed.

Lemma zip_slots_fst (slots : list OutputSlot) (sts : list PayloadState) :
  length sts = length slots → (zip slots (pst_contributors <$> sts)).*1 = slots.
Proof. intros H. apply fst_zip. rewrite length_fmap. lia. Qed.

Lemma check_loop_Ok spec P n sts :
  check_final_states spec P n sts = Ok tt ↔
  ∃ expected slots, required_outputs spec P n = Ok expected ∧
    Forall2 (λ st slot, _actual_output spec st P n = Ok (slot, pst_contributors st)) sts slots ∧
    NoDup slots ∧ NoDup (pst_id <$> sts) ∧
    (∀ slot, slot ∈ expected.*1 ↔ slot ∈ slots) ∧
    ∀ slot c, (slot, c) ∈ expected →
      dict_get slot (zip slots (pst_contributors <$> sts)) = Some c.
Proof.
  unfold check_final_states. rewrite bind_Ok. split.
  - intros (expected & He & H). apply bind_Ok in H as ([actual ids] & Hf & H).
    apply final_state_loop in Hf as (slots & HF & Hs & Hi & _ & -> & _); [|constructor].
    apply check_final_states_tail in H as [Hk Hg]. exists expected, slots.
    cbn [app fmap list_fmap] in *.
    rewrite zip_slots_fst in Hk by (by eapply Forall2_length). done.
  - intros (expected & slots & He & HF & Hs & Hi & Hk & Hg). exists expected. split; [done|].
    rewrite bind_Ok. exists (zip slots (pst_contributors <$> sts), list_to_set (pst_id <$> sts) ∪ ∅).
    pose proof (zip_slots_fst slots sts (Forall2_length _ _ _ HF)) as Hz. split.
    + apply final_state_loop; [constructor|]. by exists slots.
    + apply check_final_states_tail. by rewrite Hz.
Qed.

(** The entry of a zipped table. *)
Lemma zip_slots_get (slots : list OutputSlot) (sts : list PayloadState) i slot st :
  NoDup slots → slots !! i = Some slot → sts !! i = Some st →
  dict_get slot (zip slots (pst_contributors <$> sts)) = Some (pst_contributors st).
Proof.
  revert sts i. induction slots as [|s slots IH]; intros sts i Hnd Hsl Hst; [done|].
  apply NoDup_cons in Hnd as [Hs Hnd]. destruct sts as [|t sts]; [done|].
  destruct i as [|i]; csimpl; simpl in *; simplify_eq; [by rewrite decide_True|].
  rewrite decide_False; [by eapply IH|]. intros ->. apply Hs. by eapply list_elem_of_lookup_2.
Qed.

(** C35 The final-state check is sound and complete.  It accepts a list of
    constructed states if and only if the collective problem is valid and the
    states, with distinct identities, fill the output table: each is active,
    lies on the rank of a slot of its own, holds exactly the contributions
    this slot requires at their common address, and no slot is left out. *)
Theorem check_final_states_exact spec P n sts :
  Forall pst_wf sts →
  check_final_states spec P n sts = Ok tt ↔
  valid_problem spec P n ∧ complete_output spec P n sts.
Proof.
  intros Hw. rewrite check_loop_Ok. rewrite Forall_forall in Hw. split.
  - intros (expected & slots & He & HF & Hs & Hi & Hk & Hg).
    pose proof (required_outputs_Ok _ _ _ _ He) as Hv.
    destruct (required_outputs_table _ _ _ Hv) as (e & He' & Hnd & Htab).
    assert (e = expected) as -> by congruence. split; [done|]. split; [done|].
    exists slots. split_and!; [|done|].
    + apply Forall2_same_length_lookup_2; [by eapply Forall2_length|].
      intros i st slot Hst Hsl. pose proof (Forall2_lookup_lr _ _ _ _ _ _ HF Hst Hsl) as Ha.
      apply (actual_output_sound spec P n Hv st (Hw st (list_elem_of_lookup_2 _ _ _ Hst)) slot
        (pst_contributors st) Ha).
      assert (Hin : slot ∈ expected.*1) by (apply Hk; by eapply list_elem_of_lookup_2).
      apply list_elem_of_fmap in Hin as ([slot' c] & -> & Hin). simpl in *.
      pose proof (Hg _ _ Hin) as Hc. rewrite (zip_slots_get _ _ _ _ _ Hs Hsl Hst) in Hc.
      injection Hc as ->. rewrite <- Htab. by apply dict_get_Some_2.
    + intros slot c Hc. apply Hk. rewrite <- Htab in Hc. apply dict_get_Some_1 in Hc.
      apply list_elem_of_fmap. by exists (slot, c).
  - intros (Hv & Hi & slots & HF & Hs & Hall).
    destruct (required_outputs_table _ _ _ Hv) as (e & He & Hnd & Htab).
    assert (Hsound : ∀ slot, slot ∈ slots → ∃ c,
      collective_value spec P n (slot_rank slot) (slot_offset slot) = Some c).
    { intros slot [i Hsl]%list_elem_of_lookup.
      destruct (Forall2_lookup_r _ _ _ _ _ HF Hsl) as (st & _ & Hf). eexists. apply Hf. }
    exists e, slots. split_and!; try done.
    + apply Forall2_same_length_lookup_2; [by eapply Forall2_length|].
      intros i st slot Hst Hsl.
      apply (actual_output_fills spec P n Hv st (Hw st (list_elem_of_lookup_2 _ _ _ Hst))).
      by apply (Forall2_lookup_lr _ _ _ _ _ _ HF Hst Hsl).
    + intros slot. split.
      * intros ([s c] & -> & Hin)%list_elem_of_fmap. simpl.
        eapply Hall. rewrite <- Htab. by apply dict_get_Some_2.
      * intros Hsl. destruct (Hsound _ Hsl) as [c Hc]. rewrite <- Htab in Hc.
        apply dict_get_Some_1 in Hc. apply list_elem_of_fmap. by exists (slot, c).
    + intros slot c Hin. apply dict_get_Some_2 in Hin; [|done]. rewrite Htab in Hin.
      pose proof (Hall _ _ Hin) as [i Hsl]%list_elem_of_lookup.
      destruct (Forall2_lookup_r _ _ _ _ _ HF Hsl) as (st & Hst & Hf).
      rewrite (zip_slots_get _ _ _ _ _ Hs Hsl Hst). rewrite <- Hin. symmetry. apply Hf.
Qed.

(** A broadcast to two ranks, each of which holds the root's slice. *)
Definition demo_final (name : string) (rank : Z) : PayloadState :=
  MkPayloadState name 0 rank 0 {[0]} 0 true [(0, [])].

Lemma check_final_states_exact_witness :
  check_final_states (MkCollectiveSpec BROADCAST "float" None (PInt 0) false) 2 1
    [demo_final "x" 0; demo_final "y" 1] = Ok tt ∧
  complete_output (MkCollectiveSpec BROADCAST "float" None (PInt 0) false) 2 1
    [demo_final "x" 0; demo_final "y" 1].
Proof.
  assert (Hw : Forall pst_wf [demo_final "x" 0; demo_final "y" 1]).
  { assert (Hd : ∀ name rank, name ≠ EmptyString → 0 ≤ rank → pst_wf (demo_final name rank)).
    { intros name rank Hn Hr. constructor; simpl; try done; try lia.
      - set_solver.
      - apply NoDup_singleton.
      - set_solver.
      - repeat constructor. }
    repeat (apply Forall_cons; split; [by apply Hd|]). constructor. }
  assert (H : check_final_states (MkCollectiveSpec BROADCAST "float" None (PInt 0) false) 2 1
    [demo_final "x" 0; demo_final "y" 1] = Ok tt) by (vm_compute; reflexivity).
  split; [exact H|]. by apply (check_final_states_exact _ 2 1 _ Hw) in H as [_ H].
Defined.
