(* ===== verification/CheckResult.v ===== *)
(** * Check results and validation reports ([vericcl/verification/model.py])

    The status lattice of a validation report, and when a schedule may be
    selected. *)

From S2P Require Import Prelude.
From S2P Require Import Python.
Local Open Scope Z_scope.

Inductive ValidationStatus : Type :=
  | NOT_RUN | VALID | INVALID | FATAL | WARNING | ANALYSIS_ERROR | FAILED.

#[export] Instance ValidationStatus_eq_dec : EqDecision ValidationStatus.
Proof. solve_decision. Defined.

Record CheckResult : Type := MkCheckResult {
  cr_dimension : string;
  cr_status : ValidationStatus;
  cr_code : string;
  cr_message : string;
  cr_evidence : list (string * pyval);
}.

Definition CheckResult_init (dimension : string) (status : ValidationStatus)
    (code message : string) (evidence : list (string * pyval)) : res CheckResult :=
  identifier_field (PStr dimension) "check_result.dimension";;
  identifier_field (PStr code) "check_result.code";;
  identifier_field (PStr message) "check_result.message";;
  Ok (MkCheckResult dimension status code message evidence).

Definition _DIMENSIONS : list string :=
  ["input"; "semantic"; "state"; "topology"; "timing"; "resource"; "buffer"; "endpoint";
   "deadlock"; "xml"; "bdd"; "simulation"; "runtime"; "online"]%string.

Definition _CORE_DIMENSIONS : list string :=
  ["input"; "semantic"; "state"; "topology"; "timing"; "resource"; "buffer"; "endpoint";
   "deadlock"; "xml"; "simulation"]%string.

(** The fields of a report, by dimension: [getattr(self, dimension)]. *)
Record ValidationReport : Type := MkValidationReport {
  vr_input : CheckResult;
  vr_semantic : CheckResult;
  vr_state : CheckResult;
  vr_topology : CheckResult;
  vr_timing : CheckResult;
  vr_resource : CheckResult;
  vr_buffer : CheckResult;
  vr_endpoint : CheckResult;
  vr_deadlock : CheckResult;
  vr_xml : CheckResult;
  vr_bdd : CheckResult;
  vr_simulation : CheckResult;
  vr_runtime : CheckResult;
  vr_online : CheckResult;
}.

Definition report_fields (self : ValidationReport) : list (string * CheckResult) :=
  [("input", vr_input self); ("semantic", vr_semantic self); ("state", vr_state self);
   ("topology", vr_topology self); ("timing", vr_timing self);
   ("resource", vr_resource self); ("buffer", vr_buffer self);
   ("endpoint", vr_endpoint self); ("deadlock", vr_deadlock self); ("xml", vr_xml self);
   ("bdd", vr_bdd self); ("simulation", vr_simulation self);
   ("runtime", vr_runtime self); ("online", vr_online self)]%string.

Definition report_get (self : ValidationReport) (dimension : string) : res CheckResult :=
  of_option (dict_get dimension (report_fields self))
    (AttributeError ("'ValidationReport' object has no attribute " +:+ dimension)).

Definition ValidationReport_init (self : ValidationReport) : res ValidationReport :=
  iterM (λ dimension,
    result ← report_get self dimension;
    raise_when (negb (bool_decide (cr_dimension result = dimension)))
      (SemanticError ("validation report " +:+ dimension +:+ " dimension does not match")))
    _DIMENSIONS;;
  Ok self.

Definition overall_status (self : ValidationReport) : res ValidationStatus :=
  statuses ← mapR (λ dimension, cr_status <$> report_get self dimension) _CORE_DIMENSIONS;
  Ok (if bool_decide (FATAL ∈ statuses) then FATAL
      else if bool_decide (INVALID ∈ statuses) then INVALID
      else if bool_decide (FAILED ∈ statuses) then FAILED
      else if bool_decide (NOT_RUN ∈ statuses) then NOT_RUN
      else VALID).

Definition runtime_compatible (self : ValidationReport) : bool :=
  bool_decide (cr_status (vr_runtime self) = VALID).

Definition eligible_for_selection (self : ValidationReport) : res bool :=
  status ← overall_status self;
  Ok (bool_decide (status = VALID) && bool_decide (cr_status (vr_bdd self) = VALID) &&
      bool_decide (cr_status (vr_simulation self) = VALID) && runtime_compatible self &&
      bool_decide (cr_status (vr_online self) ∈ [VALID; WARNING; NOT_RUN])).

Definition online_validated (self : ValidationReport) : bool :=
  bool_decide (cr_status (vr_online self) = VALID).

Lemma CheckResult_init_Ok d st c m e r :
  CheckResult_init d st c m e = Ok r → r = MkCheckResult d st c m e.
Proof. unfold CheckResult_init. intros H. by inv_res. Qed.

(** The core dimensions' results. *)
Definition core_results (self : ValidationReport) : list CheckResult :=
  [vr_input self; vr_semantic self; vr_state self; vr_topology self; vr_timing self;
   vr_resource self; vr_buffer self; vr_endpoint self; vr_deadlock self; vr_xml self;
   vr_simulation self].

Lemma overall_status_Ok self :
  overall_status self =
  Ok (if bool_decide (FATAL ∈ cr_status <$> core_results self) then FATAL
      else if bool_decide (INVALID ∈ cr_status <$> core_results self) then INVALID
      else if bool_decide (FAILED ∈ cr_status <$> core_results self) then FAILED
      else if bool_decide (NOT_RUN ∈ cr_status <$> core_results self) then NOT_RUN
      else VALID).
Proof. by destruct self. Qed.

(** Selection needs every check.  Eligibility never raises, and a schedule is
    eligible exactly if no core dimension failed, was invalid, fatal or left
    unrun, the BDD, simulation and runtime results are valid, and the online
    result is valid, a warning or not run. *)
Theorem eligible_exact self :
  ∃ b, eligible_for_selection self = Ok b ∧
  (b = true ↔
    (∀ r, r ∈ core_results self → cr_status r ∉ [FATAL; INVALID; FAILED; NOT_RUN]) ∧
    cr_status (vr_bdd self) = VALID ∧ cr_status (vr_simulation self) = VALID ∧
    cr_status (vr_runtime self) = VALID ∧
    cr_status (vr_online self) ∈ [VALID; WARNING; NOT_RUN]).
Proof.
  unfold eligible_for_selection. rewrite overall_status_Ok. cbn [mbind res_bind].
  eexists. split; [reflexivity|]. unfold runtime_compatible.
  rewrite !andb_true_iff, !bool_decide_eq_true.
  assert (Hnot : ∀ st, st ∉ cr_status <$> core_results self ↔
    ∀ r, r ∈ core_results self → cr_status r ≠ st).
  { intros st. rewrite list_elem_of_fmap. naive_solver. }
  assert (Hcore : (if bool_decide (FATAL ∈ cr_status <$> core_results self) then FATAL
      else if bool_decide (INVALID ∈ cr_status <$> core_results self) then INVALID
      else if bool_decide (FAILED ∈ cr_status <$> core_results self) then FAILED
      else if bool_decide (NOT_RUN ∈ cr_status <$> core_results self) then NOT_RUN
      else VALID) = VALID ↔
    ∀ r, r ∈ core_results self → cr_status r ∉ [FATAL; INVALID; FAILED; NOT_RUN]).
  { setoid_rewrite not_elem_of_cons. setoid_rewrite not_elem_of_cons.
    setoid_rewrite not_elem_of_cons. setoid_rewrite not_elem_of_cons.
    repeat case_bool_decide; try (split; [done|]; intros Hall;
      match goal with H : _ ∈ cr_status <$> _ |- _ =>
        apply list_elem_of_fmap in H as (r & E & Hr) end;
      specialize (Hall r Hr); naive_solver).
    split; [|done]. intros _ r Hr. rewrite !Hnot in *. split_and!; auto. apply not_elem_of_nil. }
  rewrite Hcore. tauto.
Qed.
