(* ===== verification/StateReplay.v ===== *)
(** * Replay of imported schedules ([vericcl/verification/semantics.py])

    [check_semantics] decides whether a schedule computes its collective: it
    aligns dimensions and output metadata with the input, then replays the
    transfers on a payload ledger and checks the states it ends with. *)

From S2P Require Import Prelude.
From S2P Require Import Python.
From S2P Require Import Slice.
From S2P Require Import Collective.
From S2P Require Import InputModels.
From S2P Require Import VersionSchedule.
From S2P Require Import Atom.
From S2P Require Import PayloadState.
From S2P Require Import Checker.
From S2P Require Import CheckResult.
Local Open Scope Z_scope.

Definition _valid (dimension code : string) (evidence : list (string * pyval)) : res CheckResult :=
  CheckResult_init dimension VALID code (dimension +:+ " validation passed") evidence.

Definition _invalid (dimension code message : string) (evidence : list (string * pyval))
    : res CheckResult :=
  CheckResult_init dimension INVALID code message evidence.

Definition py_of_option (o : option Z) : pyval :=
  match o with Some z => PInt z | None => PNone end.

(** ** Alignment and output metadata *)

Definition _alignment_result (schedule : Schedule) (inputs : ResolvedInput) : res CheckResult :=
  if negb (sc_rank_count schedule =? ri_rank_count inputs) then
    _invalid "semantic" "rank_count_mismatch" "schedule and input rank counts differ"
      [("schedule_rank_count"%string, PInt (sc_rank_count schedule));
       ("input_rank_count"%string, PInt (ri_rank_count inputs))]
  else
    expected_slices ← slice_count (ri_hyperparameters inputs);
    if negb (bool_decide (Some (sc_slice_count schedule) = expected_slices)) then
      _invalid "semantic" "slice_count_mismatch" "schedule and input slice counts differ"
        [("schedule_slice_count"%string, PInt (sc_slice_count schedule));
         ("input_slice_count"%string, py_of_option expected_slices)]
    else if negb (bool_decide (Some (sc_slice_size schedule) =
                               slice_size_bytes (ri_hyperparameters inputs))) then
      _invalid "semantic" "slice_size_mismatch" "schedule and input slice sizes differ"
        [("schedule_slice_size_bytes"%string, PInt (sc_slice_size schedule));
         ("input_slice_size_bytes"%string,
          py_of_option (slice_size_bytes (ri_hyperparameters inputs)))]
    else _valid "semantic" "dimensions_valid" [].

(** ["r{:08d}-o{:08d}".format(rank, offset)] *)
Definition output_key (rank offset : Z) : string :=
  "r" +:+ str_of_int_08d rank +:+ "-o" +:+ str_of_int_08d offset.

Definition sorted_set (X : gset Z) : list Z := sorted_by id (elements X).

Definition _expected_output_metadata (schedule : Schedule) (inputs : ResolvedInput)
    : res (gmap string (list Z)) :=
  outputs ← required_outputs (ri_collective inputs) (sc_rank_count schedule)
              (sc_slice_count schedule);
  Ok (list_to_map (rev ((λ '(slot, contributors),
    (output_key (slot_rank slot) (slot_offset slot), sorted_set contributors)) <$> outputs))).

(** [int(digits)] of ASCII digits. *)
Definition digits_value (digits : list Ascii.ascii) : Z :=
  foldl (λ acc a, acc * 10 + (Z.of_nat (Ascii.nat_of_ascii a) - 48)) 0 digits.

(** [_OUTPUT_KEY.fullmatch(key)] with its groups as integers. *)
Definition match_output_key (key : string) : option (Z * Z) :=
  let chars := String.list_ascii_of_string key in
  let rank := take 8 (drop 1 chars) in
  let offset := drop 11 chars in
  if bool_decide (take 1 chars = String.list_ascii_of_string "r") &&
     forallb is_digit rank && (length rank =? 8)%nat &&
     bool_decide (take 2 (drop 9 chars) = String.list_ascii_of_string "-o") &&
     forallb is_digit offset && (length offset =? 8)%nat
  then Some (digits_value rank, digits_value offset) else None.

(** An entry whose key lies at the wrong offset of its rank. *)
Definition wrong_address_entry (expected : gmap string (list Z)) (entry : string * list Z)
    : option (Z * Z) :=
  let '(key, contributors) := entry in
  if bool_decide (is_Some (expected !! key)) then None else
  match match_output_key key with
  | None => None
  | Some (rank, offset) =>
      if existsb (λ '(expected_key, expected_contributors),
           String.prefix ("r" +:+ str_of_int_08d rank +:+ "-") expected_key &&
           bool_decide (expected_contributors = contributors)) (map_to_list expected)
      then Some (rank, offset) else None
  end.

Definition sorted_items (m : gmap string (list Z)) : list (string * list Z) :=
  sorted_by fst (map_to_list m).

Definition _metadata_result (schedule : Schedule) (inputs : ResolvedInput) : res CheckResult :=
  match md_final_outputs (sc_metadata schedule) with
  | None =>
      _invalid "semantic" "final_output_metadata_missing"
        "schedule final_outputs metadata is missing" []
  | Some raw =>
      match mapM (λ '(key, value), pair key ∘ sorted_by id <$> value) raw with
      | None =>
          _invalid "semantic" "final_output_metadata_invalid"
            "schedule final_outputs metadata is invalid" []
      | Some entries =>
          let actual : gmap string (list Z) := list_to_map (rev entries) in
          expected ← _expected_output_metadata schedule inputs;
          if bool_decide (actual = expected) &&
             (Z.of_nat (length (sc_final_state_ids schedule)) =? Z.of_nat (size expected))
          then _valid "semantic" "final_output_metadata_valid"
                 [("final_output_count"%string, PInt (Z.of_nat (size expected)))]
          else
            match head (omap (wrong_address_entry expected) (sorted_items actual)) with
            | Some (rank, offset) =>
                _invalid "semantic" "wrong_logical_address"
                  "final output uses an incorrect logical address"
                  [("rank"%string, PInt rank); ("offset"%string, PInt offset)]
            | None =>
                _invalid "semantic" "final_output_metadata_mismatch"
                  "schedule final_outputs do not match collective semantics"
                  [("actual_keys"%string, PList (PStr <$> (sorted_items actual).*1));
                   ("expected_keys"%string, PList (PStr <$> (sorted_items expected).*1))]
            end
      end
  end.

(** ** The order of replay *)

(** [min(ready, key=lambda item: (item.st_time, item.ed_time, item.transfer_id))] *)
Definition replay_key (t : Transfer) : Z * (Z * string) := (tr_st t, (tr_ed t, tr_id t)).

Fixpoint order_loop (fuel : nat) (pending : list Transfer) (completed : gset string)
    (ordered : list Transfer) : res (list Transfer) :=
  match fuel with
  | O => Err OutOfFuel
  | S fuel =>
      match pending with
      | [] => Ok ordered
      | _ =>
          match min_by replay_key (filter (λ t, tr_preds t ⊆ completed) pending) with
          | None => Err (SemanticError "schedule dependencies contain a cycle")
          | Some transfer =>
              order_loop fuel (filter (λ t, tr_id t ≠ tr_id transfer) pending)
                ({[tr_id transfer]} ∪ completed) (ordered ++ [transfer])
          end
      end
  end.

(** [pending] is a dictionary by transfer identity. *)
Definition _ordered_transfers (schedule : Schedule) : res (list Transfer) :=
  let pending := (dict_of_list ((λ t, (tr_id t, t)) <$> sc_transfers schedule)).*2 in
  order_loop (S (length pending)) pending ∅ [].

(** ** Replay of one transfer *)

(** [max(matches, key=lambda state: state.version)]: the first of the greatest. *)
Definition latest_version (matches : list PayloadState) : option PayloadState :=
  min_by (λ st, - pst_version st) matches.

Definition _source_state (ledger : PayloadLedger) (transfer : Transfer) : res PayloadState :=
  let matches := filter (λ st, pst_rank st = tr_src transfer ∧
                               pst_contributors st = tr_members transfer) (states ledger) in
  match filter (λ st, pst_active st = true) matches with
  | [st] => Ok st
  | _ :: _ => Err (SemanticError "source payload state is ambiguous")
  | [] => of_option (latest_version matches) (SemanticError "source payload state is missing")
  end.

(** [key=lambda state: (-len(state.contributors), state.state_id)] *)
Definition destination_key (st : PayloadState) : Z * string :=
  (- Z.of_nat (size (pst_contributors st)), pst_id st).

Definition _destination_state (ledger : PayloadLedger) (transfer : Transfer)
    (source : PayloadState) : res PayloadState :=
  let candidates := filter (λ st, pst_active st = true ∧ pst_rank st = tr_dst transfer ∧
                                  pst_address st = pst_address source) (states ledger) in
  let disjoint := filter (λ st, pst_contributors st ∩ pst_contributors source = ∅) candidates in
  match min_by destination_key disjoint with
  | Some st => Ok st
  | None =>
      Err (SemanticError (if bool_decide (candidates = [])
                          then "REDUCE destination state is missing"
                          else "REDUCE contributors must be disjoint"))
  end.

Definition _transfer_address (transfer : Transfer) (slice_count : Z) : res Z :=
  addresses ← mapR (λ slice_id, py_mod slice_id slice_count) (elements (tr_members transfer));
  match remove_dups addresses with
  | [address] => Ok address
  | _ => Err (SemanticError "transfer contributors have different logical addresses")
  end.

(** One candidate of [_concurrent_reduce_group]: [(group, group_end)]. *)
Definition group_step (first : Transfer) (address slice_count : Z) (completed_ids : gset string)
    (acc : list Transfer * Z) (candidate : Transfer) : res (list Transfer * Z) :=
  let '(group, group_end) := acc in
  if negb (bool_decide (tr_kind candidate = "REDUCE"%string)) then Ok acc
  else if negb (tr_dst candidate =? tr_dst first) then Ok acc
  else
    candidate_address ← _transfer_address candidate slice_count;
    if negb (candidate_address =? address) then Ok acc
    else if negb (bool_decide (tr_preds candidate ⊆ completed_ids)) then Ok acc
    else if group_end <=? tr_st candidate then Ok acc
    else Ok (group ++ [candidate], Z.max group_end (tr_ed candidate)).

Definition _concurrent_reduce_group (first : Transfer) (candidates : list Transfer)
    (slice_count : Z) (completed_ids : gset string) : res (list Transfer) :=
  address ← _transfer_address first slice_count;
  '(group, _) ← foldM (group_step first address slice_count completed_ids)
                  ([first], tr_ed first) candidates;
  Ok group.

(** One reduction of a group: [(ledger, current, produced)]. *)
Definition reduce_step (group_ready_time : Z)
    (acc : PayloadLedger * PayloadState * list (string * PayloadState))
    (item : Transfer * PayloadState)
    : res (PayloadLedger * PayloadState * list (string * PayloadState)) :=
  let '(ledger, current, produced) := acc in
  let '(transfer, source) := item in
  '(ledger, current) ← reduce ledger (pst_id source) (pst_id current) (tr_dst transfer)
                         (PFloat (Finite group_ready_time));
  Ok (ledger, current, produced ++ [(tr_id transfer, current)]).

Definition _apply_reduce_group (ledger : PayloadLedger) (group : list Transfer)
    : res (PayloadLedger * list (string * PayloadState)) :=
  sources ← mapR (_source_state ledger) group;
  iterM (λ '(transfer, source),
    raise_when (tr_st transfer <? pst_ready source)
      (SemanticError "transfer starts before its source state is ready")) (zip group sources);;
  contributor_union ← foldM (λ (union : gset Z) source,
    raise_when (negb (bool_decide (union ∩ pst_contributors source = ∅)))
      (SemanticError "REDUCE contributors must be disjoint");;
    Ok (union ∪ pst_contributors source)) ∅ sources;
  first ← index_error (head group);
  first_source ← index_error (head sources);
  destination ← _destination_state ledger first first_source;
  raise_when (negb (bool_decide (pst_contributors destination ∩ contributor_union = ∅)))
    (SemanticError "REDUCE contributors must be disjoint");;
  raise_when (existsb (λ transfer, tr_st transfer <? pst_ready destination) group)
    (SemanticError "transfer starts before its destination is ready");;
  let group_ready_time := foldr Z.max (tr_ed first) (tr_ed <$> group) in
  '(ledger, _, produced) ← foldM (reduce_step group_ready_time) (ledger, destination, [])
                             (zip group sources);
  Ok (ledger, produced).

Definition _required_contributors (transfer : Transfer) (outputs : list (OutputSlot * gset Z))
    : res (gset Z) :=
  of_option
    (min_by (λ value, (Z.of_nat (size value), sorted_set value))
       (filter (λ contributors, tr_members transfer ⊆ contributors) outputs.*2))
    (SemanticError "transfer contributors do not belong to a required output").

Definition contains (needle message : string) : bool :=
  bool_decide (is_Some (String.index 0 needle message)).

Definition _failure_code (message : string) : string :=
  if contains "contributors must be disjoint" message then "duplicate_reduction_contributor"
  else if contains "state version is inactive" message
       || contains "incomplete state already sent" message then "inactive_state_reuse"
  else if contains "logical address" message then "wrong_logical_address"
  else "state_replay_failed".

(** [try: m] whose [except SemanticError as error] returns [handler str(error)]. *)
Definition try_semantic {A} (m : res A) (handler : string → res CheckResult)
    : res (CheckResult + A) :=
  match m with
  | Ok a => Ok (inr a)
  | Err (SemanticError message) => result ← handler message; Ok (inl result)
  | Err e => Err e
  end.

Definition replay_failure (ids : list string) (message : string) : res CheckResult :=
  _invalid "state" (_failure_code message) message
    [("transfer_ids"%string, PList (PStr <$> ids))].

Definition apply_send (ledger : PayloadLedger) (outputs : list (OutputSlot * gset Z))
    (transfer : Transfer) : res (PayloadLedger * list (string * PayloadState)) :=
  source ← _source_state ledger transfer;
  raise_when (tr_st transfer <? pst_ready source)
    (SemanticError "transfer starts before its source state is ready");;
  required ← _required_contributors transfer outputs;
  '(ledger, output) ← send ledger (pst_id source) (tr_dst transfer)
                        (PFloat (Finite (tr_ed transfer))) required;
  Ok (ledger, [(tr_id transfer, output)]).

(** The transfers that one round of the loop performs together. *)
Definition round_group (schedule : Schedule) (transfer : Transfer) (remaining : list Transfer)
    (completed_ids : gset string) : res (list Transfer) :=
  if bool_decide (tr_kind transfer = "SEND"%string) then Ok [transfer]
  else _concurrent_reduce_group transfer remaining (sc_slice_count schedule) completed_ids.

Definition apply_round (ledger : PayloadLedger) (outputs : list (OutputSlot * gset Z))
    (transfer : Transfer) (group : list Transfer)
    : res (PayloadLedger * list (string * PayloadState)) :=
  if bool_decide (tr_kind transfer = "SEND"%string) then apply_send ledger outputs transfer
  else _apply_reduce_group ledger group.

(** The [while remaining] loop: a result that ends the check, or the final
    ledger and the states the transfers produced. *)
Fixpoint replay_loop (fuel : nat) (schedule : Schedule) (outputs : list (OutputSlot * gset Z))
    (remaining : list Transfer) (ledger : PayloadLedger) (completed_ids : gset string)
    (produced : gmap string string)
    : res (CheckResult + PayloadLedger * gmap string string) :=
  match fuel with
  | O => Err OutOfFuel
  | S fuel =>
      match remaining with
      | [] => Ok (inr (ledger, produced))
      | transfer :: remaining =>
          grouped ← try_semantic (round_group schedule transfer remaining completed_ids)
                      (replay_failure [tr_id transfer]);
          match grouped with
          | inl result => Ok (inl result)
          | inr group =>
              applied ← try_semantic (apply_round ledger outputs transfer group)
                          (replay_failure (tr_id <$> group));
              match applied with
              | inl result => Ok (inl result)
              | inr (ledger, made) =>
                  replay_loop fuel schedule outputs
                    (filter (λ t, tr_id t ∉ drop 1 (tr_id <$> group)) remaining)
                    ledger (list_to_set (tr_id <$> group) ∪ completed_ids)
                    (list_to_map (rev (prod_map id pst_id <$> made)) ∪ produced)
              end
          end
      end
  end.

(** ** The final states *)

Definition slot_evidence (slot : OutputSlot) : list (string * pyval) :=
  [("rank"%string, PInt (slot_rank slot)); ("offset"%string, PInt (slot_offset slot))].

(** The active states that hold a slot's contributors on its rank. *)
Definition slot_matches (ledger : PayloadLedger) (slot : OutputSlot) (contributors : gset Z)
    : list PayloadState :=
  filter (λ st, pst_active st = true ∧ pst_rank st = slot_rank slot ∧
                pst_contributors st = contributors) (states ledger).

(** Among several matches, the one that the declared final transfer made. *)
Definition declared_matches (schedule : Schedule) (produced : gmap string string)
    (slot : OutputSlot) (matches : list PayloadState) : list PayloadState :=
  match default [] (dict_get (output_key (slot_rank slot) (slot_offset slot))
                      (md_final_dependencies (sc_metadata schedule))) with
  | [PStr transfer_id] => filter (λ st, Some (pst_id st) = produced !! transfer_id) matches
  | _ => []
  end.

Definition select_final (schedule : Schedule) (ledger : PayloadLedger)
    (produced : gmap string string) (slot : OutputSlot) (contributors : gset Z)
    : res (CheckResult + PayloadState) :=
  match slot_matches ledger slot contributors with
  | [] =>
      inl <$> _invalid "state" "missing_final_contributor"
        ("missing final output at rank " +:+ str_of_int (slot_rank slot) +:+ " offset "
         +:+ str_of_int (slot_offset slot))
        (slot_evidence slot ++
           [("contributors"%string, PList (PInt <$> sorted_set contributors))])
  | [st] => Ok (inr st)
  | matches =>
      match declared_matches schedule produced slot matches with
      | [st] => Ok (inr st)
      | _ => inl <$> _invalid "state" "duplicate_final_state"
               "multiple final states match one output slot" (slot_evidence slot)
      end
  end.

Fixpoint select_finals (schedule : Schedule) (ledger : PayloadLedger)
    (produced : gmap string string) (outputs : list (OutputSlot * gset Z))
    : res (CheckResult + list PayloadState) :=
  match outputs with
  | [] => Ok (inr [])
  | (slot, contributors) :: outputs =>
      selected ← select_final schedule ledger produced slot contributors;
      match selected with
      | inl result => Ok (inl result)
      | inr st =>
          rest ← select_finals schedule ledger produced outputs;
          Ok (match rest with inl result => inl result | inr sts => inr (st :: sts) end)
      end
  end.

Definition _state_result (schedule : Schedule) (inputs : ResolvedInput) : res CheckResult :=
  outputs ← required_outputs (ri_collective inputs) (sc_rank_count schedule)
              (sc_slice_count schedule);
  initial ← initial_payload_states (sc_rank_count schedule) (sc_slice_count schedule);
  ledger ← PayloadLedger_init initial;
  ordering ← try_semantic (_ordered_transfers schedule)
               (λ message, _invalid "state" "state_replay_failed" message []);
  match ordering with
  | inl result => Ok result
  | inr ordered =>
      replayed ← replay_loop (S (length ordered)) schedule outputs ordered ledger ∅ ∅;
      match replayed with
      | inl result => Ok result
      | inr (ledger, produced) =>
          finals ← select_finals schedule ledger produced (sorted_by fst outputs);
          match finals with
          | inl result => Ok result
          | inr final_states =>
              checked ← try_semantic
                (check_final_states (ri_collective inputs) (sc_rank_count schedule)
                   (sc_slice_count schedule) final_states)
                (λ message, _invalid "state" (_failure_code message) message []);
              match checked with
              | inl result => Ok result
              | inr _ =>
                  _valid "state" "state_replay_valid"
                    [("final_state_count"%string, PInt (Z.of_nat (length final_states)));
                     ("ledger_state_count"%string, PInt (Z.of_nat (length (states ledger))))]
              end
          end
      end
  end.

Definition semantic_check_results (schedule : Schedule) (inputs : ResolvedInput)
    : res (CheckResult * CheckResult) :=
  alignment ← _alignment_result schedule inputs;
  semantic ← (if bool_decide (cr_status alignment = VALID)
              then _metadata_result schedule inputs else Ok alignment);
  state ← (if bool_decide (cr_status semantic = VALID) then _state_result schedule inputs
           else CheckResult_init "state" NOT_RUN "semantic_prerequisite_failed"
                  "state replay requires valid collective semantics"
                  [("semantic_code"%string, PStr (cr_code semantic))]);
  Ok (semantic, state).

Definition verify_schedule_semantics (schedule : Schedule) (inputs : ResolvedInput)
    : res CheckResult :=
  '(semantic, state) ← semantic_check_results schedule inputs;
  if negb (bool_decide (cr_status semantic = VALID)) then Ok semantic
  else if negb (bool_decide (cr_status state = VALID)) then
    CheckResult_init "semantic" (cr_status state) (cr_code state) (cr_message state)
      (cr_evidence state)
  else
    count ← of_option (dict_get "final_state_count"%string (cr_evidence state))
              (KeyError "final_state_count");
    _valid "semantic" "schedule_semantics_valid"
      [("final_state_count"%string, count);
       ("transfer_count"%string, PInt (Z.of_nat (length (sc_transfers schedule))))].

(** A v5 version schedule, or an imported schedule. *)
Inductive any_schedule : Type :=
  | Versioned (schedule : VersionSchedule)
  | Imported (schedule : Schedule).

Definition replay_evidence (evidence : ReplayEvidence) : list (string * pyval) :=
  [("output_bytes"%string,
    PDict (prod_map str_of_int PInt <$> re_output_bytes evidence));
   ("state_versions"%string, PInt (re_state_versions evidence));
   ("operations"%string, PInt (re_operations evidence));
   ("scope"%string, PStr "data semantics and declared storage lifetimes")].

Definition check_semantics (schedule : any_schedule) (inputs : ResolvedInput) : res CheckResult :=
  match schedule with
  | Versioned schedule =>
      match replay_version_schedule schedule inputs with
      | Ok (_, evidence) => _valid "semantic" "versioned_schedule_valid" (replay_evidence evidence)
      | Err (SemanticError message) | Err (KeyError message) =>
          _invalid "semantic" "versioned_schedule_invalid" message
            [("counterexample"%string, PStr message);
             ("scope"%string, PStr "versioned schedule replay")]
      | Err e => Err e
      end
  | Imported schedule =>
      '(semantic, state) ← semantic_check_results schedule inputs;
      if negb (bool_decide (cr_status semantic = VALID)) then Ok semantic
      else if negb (bool_decide (cr_status state = VALID)) then Ok state
      else _valid "semantic" "imported_schedule_valid" []
  end.
