(* ===== verification/StateReplaySound.v ===== *)
(** * What a valid state replay proves

    A valid result of [_state_result] means that the transfers, performed once
    each in an order that respects their predecessors, leave the required
    contributions at every output slot. *)

From S2P Require Import Prelude.
From S2P Require Import Python.
From S2P Require Import Slice.
From S2P Require Import Collective.
From S2P Require Import InputModels.
From S2P Require Import Atom.
From S2P Require Import PayloadState.
From S2P Require Import PayloadLaws.
From S2P Require Import PayloadRuns.
From S2P Require Import Checker.
From S2P Require Import CheckResult.
From S2P Require Import StateReplay.
Local Open Scope Z_scope.

(** * Soundness of the replay of imported schedules *)

(** ** The replay order *)

(** Each transfer's predecessors come before it or are in [completed]. *)
Fixpoint topological (completed : gset string) (l : list Transfer) : Prop :=
  match l with
  | [] => True
  | t :: l => tr_preds t ⊆ completed ∧ topological ({[tr_id t]} ∪ completed) l
  end.

Lemma topological_weaken c c' l : c ⊆ c' → topological c l → topological c' l.
Proof.
  revert c c'. induction l as [|t l IH]; intros c c' Hs; [done|]. simpl. intros [Ht Hl].
  split; [set_solver|]. eapply IH; [|done]. set_solver.
Qed.

Lemma topological_app c l1 l2 :
  topological c (l1 ++ l2) ↔ topological c l1 ∧ topological (list_to_set (tr_id <$> l1) ∪ c) l2.
Proof.
  revert c. induction l1 as [|t l1 IH]; intros c; csimpl.
  - rewrite union_empty_l_L. tauto.
  - rewrite IH.
    replace (list_to_set (tr_id <$> l1) ∪ ({[tr_id t]} ∪ c))
      with ({[tr_id t]} ∪ list_to_set (tr_id <$> l1) ∪ c) by set_solver. tauto.
Qed.

(** A finished transfer may leave the list. *)
Lemma topological_filter c t l :
  topological c l → topological ({[t]} ∪ c) (filter (λ x, tr_id x ≠ t) l).
Proof.
  revert c. induction l as [|x l IH]; intros c; [done|]. simpl. intros [Hx Hl].
  rewrite filter_cons. case_decide; simpl.
  - split; [set_solver|]. eapply topological_weaken; [|apply IH, Hl]. set_solver.
  - eapply topological_weaken; [|apply IH, Hl]. set_solver.
Qed.

Lemma filter_other_id t (l : list Transfer) :
  NoDup (tr_id <$> l) → t ∈ l → l ≡ₚ t :: filter (λ x, tr_id x ≠ tr_id t) l.
Proof.
  induction l as [|x l IH]; [by intros _ ?%elem_of_nil|]. csimpl.
  intros [Hx Hnd]%NoDup_cons [->|Ht]%elem_of_cons.
  - rewrite filter_cons_False by (intros H; by apply H). f_equiv.
    rewrite list_filter_all; [done|]. apply Forall_forall. intros y Hy E. apply Hx.
    rewrite <- E. by apply list_elem_of_fmap_2.
  - rewrite filter_cons_True.
    + rewrite Permutation_swap. f_equiv. by apply IH.
    + intros E. apply Hx. rewrite E. by apply list_elem_of_fmap_2.
Qed.

Lemma order_loop_cases fuel pending completed ordered :
  NoDup (tr_id <$> pending) → (length pending < fuel)%nat →
  match order_loop fuel pending completed ordered with
  | Ok r => ∃ l, r = ordered ++ l ∧ l ≡ₚ pending ∧ topological completed l
  | Err e => e = SemanticError "schedule dependencies contain a cycle" ∧
      ¬ ∃ l, l ≡ₚ pending ∧ topological completed l
  end.
Proof.
  revert pending completed ordered.
  induction fuel as [|fuel IH]; intros pending completed ordered Hnd Hf; [lia|].
  cbn [order_loop]. destruct pending as [|p pending'] eqn:Ep.
  { exists []. by rewrite app_nil_r. }
  rewrite <- Ep in *. destruct (min_by _ _) as [t|] eqn:Em.
  - apply min_by_Some in Em as [Ht _]. apply list_elem_of_filter in Ht as [Hpre Ht].
    pose proof (filter_other_id t pending Hnd Ht) as Hperm.
    set (rest := filter (λ x, tr_id x ≠ tr_id t) pending) in *.
    assert (Hnd' : NoDup (tr_id <$> rest)).
    { rewrite Hperm in Hnd. csimpl in Hnd. by apply NoDup_cons in Hnd as [_ ?]. }
    assert (Hlen : (length rest < fuel)%nat).
    { apply Permutation_length in Hperm. simpl in Hperm. lia. }
    specialize (IH rest ({[tr_id t]} ∪ completed) (ordered ++ [t]) Hnd' Hlen).
    destruct (order_loop fuel rest _ _) as [r|e].
    + destruct IH as (l & -> & Hl & Htop). exists (t :: l). split; [by rewrite <- app_assoc|].
      split; [by rewrite Hperm, Hl|done].
    + destruct IH as [-> Hno]. split; [done|]. intros (l & Hl & Htop). apply Hno.
      exists (filter (λ x, tr_id x ≠ tr_id t) l). split; [by rewrite Hl|].
      by apply topological_filter.
  - split; [done|]. intros (l & Hl & Htop). apply min_by_None in Em.
    destruct l as [|t l]; [apply Permutation_nil in Hl; congruence|].
    destruct Htop as [Hpre _]. apply (not_elem_of_nil t). rewrite <- Em.
    apply list_elem_of_filter. split; [done|]. rewrite <- Hl. by left.
Qed.

Lemma pending_values (ts : list Transfer) :
  NoDup (tr_id <$> ts) → (dict_of_list ((λ t, (tr_id t, t)) <$> ts)).*2 = ts.
Proof.
  intros Hnd. rewrite dict_of_list_nodup.
  - rewrite <- list_fmap_compose. apply list_fmap_id.
  - rewrite <- list_fmap_compose. done.
Qed.

(** C32 The replay order is a topological order, if there is one.  For distinct
    transfer identities [_ordered_transfers] always ends: it returns all
    transfers, each after its predecessors, exactly when such an order
    exists, and otherwise raises the cycle error. *)
Theorem ordered_transfers_exact schedule :
  NoDup (tr_id <$> sc_transfers schedule) →
  match _ordered_transfers schedule with
  | Ok r => r ≡ₚ sc_transfers schedule ∧ topological ∅ r
  | Err e => e = SemanticError "schedule dependencies contain a cycle" ∧
      ¬ ∃ l, l ≡ₚ sc_transfers schedule ∧ topological ∅ l
  end.
Proof.
  intros Hnd. unfold _ordered_transfers. cbv zeta. rewrite pending_values by done.
  pose proof (order_loop_cases (S (length (sc_transfers schedule))) (sc_transfers schedule) ∅ []
    Hnd ltac:(lia)) as H.
  destruct (order_loop _ _ _ _); [|done]. destruct H as (l & -> & ? & ?). done.
Qed.

Lemma ordered_transfers_sound schedule r :
  NoDup (tr_id <$> sc_transfers schedule) → _ordered_transfers schedule = Ok r →
  r ≡ₚ sc_transfers schedule ∧ topological ∅ r.
Proof.
  unfold _ordered_transfers. cbv zeta. intros Hnd H. rewrite pending_values in H by done.
  pose proof (order_loop_cases (S (length (sc_transfers schedule))) (sc_transfers schedule) ∅ []
    Hnd ltac:(lia)) as Hc. rewrite H in Hc. destruct Hc as (l & -> & ? & ?). done.
Qed.

(** ** A concrete run: one slice sent from rank 0 to rank 1 *)

Definition demo_send : Transfer :=
  MkTransfer "t0" "SEND" 0 1 0 0 {[0]} [] 0 one_us ∅.

Definition demo_send_schedule : Schedule :=
  MkSchedule "demo" [demo_send] [] 2 1 4 (MkMetadata None None None [] None).

Definition demo_send_input : ResolvedInput :=
  MkResolvedInput (MkCollectiveSpec BROADCAST "float" None (PInt 0) false)
    (MkHyperparameters 4 (Some 4) LATENCY None) (MkSolverConfig 8) (MkAtomConstraints None []) 2 PNone PNone.

Lemma demo_send_ids : NoDup (tr_id <$> sc_transfers demo_send_schedule).
Proof. apply NoDup_singleton. Qed.

Lemma ordered_transfers_exact_witness :
  match _ordered_transfers demo_send_schedule with
  | Ok r => topological ∅ r
  | Err _ => False
  end.
Proof.
  pose proof (ordered_transfers_exact demo_send_schedule demo_send_ids) as H.
  destruct (_ordered_transfers demo_send_schedule) as [r|e] eqn:E; [apply H|].
  vm_compute in E. discriminate E.
Defined.

(** The state that a transfer takes its payload from. *)
Definition payload_source (l : PayloadLedger) (t : Transfer) (a : PayloadState) : Prop :=
  live l (pst_id a) a ∧ pst_rank a = tr_src t ∧ pst_contributors a = tr_members t.

(** One transfer as one call of the ledger. *)
Inductive transfer_runs (l : PayloadLedger) (t : Transfer)
    : payload_op → PayloadLedger → Prop :=
  | tr_send a time R l' out :
      tr_kind t = "SEND"%string → payload_source l t a →
      send l (pst_id a) (tr_dst t) time R = Ok (l', out) →
      transfer_runs l t (Sent (pst_id a) (pst_id out) R) l'
  | tr_reduce a into time l' out :
      tr_kind t ≠ "SEND"%string → payload_source l t a →
      reduce l (pst_id a) into (tr_dst t) time = Ok (l', out) →
      transfer_runs l t (Reduced (pst_id a) into (pst_id out)) l'.

Inductive transfers_run : PayloadLedger → list Transfer → list payload_op → PayloadLedger → Prop :=
  | transfers_nil l : transfers_run l [] [] l
  | transfers_cons l t op l1 ts ops l2 :
      transfer_runs l t op l1 → transfers_run l1 ts ops l2 →
      transfers_run l (t :: ts) (op :: ops) l2.

Lemma transfers_run_app l ts1 ops1 l1 ts2 ops2 l2 :
  transfers_run l ts1 ops1 l1 → transfers_run l1 ts2 ops2 l2 →
  transfers_run l (ts1 ++ ts2) (ops1 ++ ops2) l2.
Proof. induction 1; [done|]. intros. eapply transfers_cons; eauto. Qed.

Lemma transfer_runs_step l t op l' : transfer_runs l t op l' → payload_step l op l'.
Proof. intros []; [by eapply step_send|by eapply step_reduce]. Qed.

Lemma transfers_run_payload l ts ops l' : transfers_run l ts ops l' → payload_run l ops l'.
Proof.
  induction 1; [constructor|]. eapply payload_cons; [by eapply transfer_runs_step|done].
Qed.

Lemma elem_of_states l s : pledger_wf l → s ∈ states l ↔ pl_states l !! pst_id s = Some s.
Proof.
  intros Hl. unfold states. rewrite list_elem_of_fmap. split.
  - intros ([id t] & -> & H). rewrite elem_of_sorted_by, elem_of_map_to_list in H. simpl.
    by rewrite (proj1 (pl_wf l Hl _ _ H)).
  - intros H. exists (pst_id s, s). split; [done|]. by rewrite elem_of_sorted_by, elem_of_map_to_list.
Qed.

Lemma source_state_Ok l t a :
  pledger_wf l → _source_state l t = Ok a →
  pl_states l !! pst_id a = Some a ∧ pst_rank a = tr_src t ∧ pst_contributors a = tr_members t.
Proof.
  intros Hl. unfold _source_state. cbv zeta.
  set (matches := filter _ (states l)). intros H.
  assert (Ha : a ∈ matches).
  { destruct (filter (λ st, pst_active st = true) matches) as [|x [|]] eqn:E; [| |done].
    - apply of_option_Ok, min_by_Some in H as [? _]. done.
    - injection H as ->. assert (Hin : a ∈ [a]) by (by left). rewrite <- E in Hin.
      by apply list_elem_of_filter in Hin as [_ ?]. }
  apply list_elem_of_filter in Ha as [[? ?] Ha]. by apply elem_of_states in Ha.
Qed.

(** ** A group of reductions *)

(** The versions of [l0] that are still live in [l] have not changed. *)
Definition extends (l0 l : PayloadLedger) : Prop :=
  ∀ id s, is_Some (pl_states l0 !! id) →
    is_Some (pl_states l !! id) ∧ (live l id s → pl_states l0 !! id = Some s).

Lemma extends_refl l : extends l l.
Proof. intros id s H. split; [done|]. by intros [? _]. Qed.

Lemma reduce_extends l0 l a b dst t l' out :
  pledger_wf l → extends l0 l → reduce l a b dst t = Ok (l', out) → extends l0 l'.
Proof.
  intros Hl He H. apply payload_reduce_spec in H as
    (sa & sb & _ & _ & _ & _ & _ & _ & _ & _ & _ & _ & _ & _ & _ & Hf & Hdom & Hlive); [|done].
  intros id s Hid. destruct (He id s Hid) as [Hin Hs]. split; [apply Hdom; by right|].
  intros [[-> ->]|[Hl' _]]%Hlive; [|by apply Hs]. rewrite Hf in Hin. by destruct Hin.
Qed.

Lemma reduce_group_run l0 rt items l cur prod l' cur' prod' :
  pledger_wf l → extends l0 l →
  Forall (λ '(t, a), tr_kind t ≠ "SEND"%string ∧ pl_states l0 !! pst_id a = Some a ∧
            pst_rank a = tr_src t ∧ pst_contributors a = tr_members t) items →
  foldM (reduce_step rt) (l, cur, prod) items = Ok (l', cur', prod') →
  ∃ ops, transfers_run l items.*1 ops l' ∧ pledger_wf l'.
Proof.
  revert l cur prod. induction items as [|[t a] items IH]; intros l cur prod Hl He Hit H.
  { injection H as <- <- <-. exists []. split; [constructor|done]. }
  apply Forall_cons in Hit as [(Hk & Ha & Hr & Hc) Hit]. cbn [foldM] in H.
  apply bind_Ok in H as ([[l1 cur1] prod1] & H1 & H). unfold reduce_step in H1.
  apply bind_Ok in H1 as ([l2 out] & H1 & H2). injection H2 as <- <- <-.
  pose proof H1 as Hspec. apply payload_reduce_spec in Hspec as
    (sa & sb & Hsa & _ & _ & _ & _ & _ & _ & _ & _ & _ & _ & Hl1 & _); [|done].
  pose proof (reduce_extends _ _ _ _ _ _ _ _ Hl He H1) as He1.
  destruct (IH l2 out _ Hl1 He1 Hit H) as (ops & Hrun & Hl'). csimpl.
  eexists. split; [|done]. eapply transfers_cons; [|exact Hrun].
  assert (sa = a) as ->.
  { destruct (He (pst_id a) sa) as [_ Hs]; [by eexists|]. apply Hs in Hsa. congruence. }
  by eapply tr_reduce.
Qed.

Lemma apply_reduce_group_run l group l' made :
  pledger_wf l → Forall (λ t, tr_kind t ≠ "SEND"%string) group →
  _apply_reduce_group l group = Ok (l', made) →
  ∃ ops, transfers_run l group ops l' ∧ pledger_wf l'.
Proof.
  intros Hl Hk. unfold _apply_reduce_group. cbv zeta. intros H. inv_res.
  match goal with H : foldM (reduce_step _) _ _ = Ok ?r |- _ => destruct r as [[l2 cur2] made2] end.
  inv_res. simplify_eq.
  match goal with H : mapR _ _ = Ok ?s |- _ => apply mapR_Ok in H; rename H into Hs, s into sources end.
  match goal with H : foldM (reduce_step _) _ _ = Ok _ |- _ => rename H into Hf end.
  pose proof (Forall2_length _ _ _ Hs) as Hlen.
  eapply reduce_group_run in Hf as (ops & Hrun & Hl'); [|done|apply (extends_refl l)|].
  - exists ops. by rewrite fst_zip in Hrun by lia.
  - apply Forall_forall. intros [t a] [i Hi]%list_elem_of_lookup.
    apply lookup_zip_Some in Hi as [Ht Ha].
    pose proof (Forall2_lookup_lr _ _ _ _ _ _ Hs Ht Ha) as Hsrc. simpl in Hsrc.
    apply source_state_Ok in Hsrc; [|done]. split; [|done].
    rewrite Forall_forall in Hk. apply Hk. by eapply list_elem_of_lookup_2.
Qed.

Lemma apply_send_run l outputs t l' made :
  pledger_wf l → tr_kind t = "SEND"%string → apply_send l outputs t = Ok (l', made) →
  ∃ op, transfer_runs l t op l' ∧ pledger_wf l'.
Proof.
  intros Hl Hk. unfold apply_send. intros H. inv_res. case_match. inv_res. simplify_eq.
  match goal with H : _source_state _ _ = Ok ?a |- _ =>
    apply source_state_Ok in H as (Ha & Hr & Hc); [|done]; rename a into src end.
  match goal with H : send _ _ _ _ _ = Ok _ |- _ => pose proof H as Hspec; rename H into Hsend end.
  apply payload_send_spec in Hspec as (sa & Hsa & _ & _ & _ & _ & _ & _ & _ & Hl' & _); [|done].
  assert (sa = src) as -> by (destruct Hsa; congruence).
  eexists. split; [|done]. by eapply tr_send.
Qed.

(** ** Rounds *)

Lemma concurrent_group_spec first cands n completed g :
  _concurrent_reduce_group first cands n completed = Ok g →
  ∃ extra, g = first :: extra ∧ extra `sublist_of` cands ∧
    Forall (λ t, tr_kind t = "REDUCE"%string ∧ tr_preds t ⊆ completed) extra.
Proof.
  unfold _concurrent_reduce_group. intros H. inv_res.
  match goal with H : foldM _ _ _ = Ok ?r |- _ => destruct r as [g' e']; rename H into Hf end.
  inv_res. simplify_eq.
  apply (foldM_ind (λ don (acc : list Transfer * Z), ∃ extra, acc.1 = first :: extra ∧
    extra `sublist_of` don ∧
    Forall (λ t, tr_kind t = "REDUCE"%string ∧ tr_preds t ⊆ completed) extra)) in Hf; [done| |].
  - exists []. split_and!; constructor.
  - intros don t [g1 e1] [g2 e2] (extra & Eg & Hsub & Hall) _ Hs. simpl in *. subst.
    unfold group_step in Hs.
    assert (Hskip : ∃ extra', first :: extra = first :: extra' ∧ extra' `sublist_of` don ++ [t] ∧
      Forall (λ t, tr_kind t = "REDUCE"%string ∧ tr_preds t ⊆ completed) extra').
    { exists extra. split_and!; [done|by apply sublist_inserts_r|done]. }
    destruct (negb (bool_decide (tr_kind t = _))) eqn:Ek; [by simplify_eq|].
    destruct (negb (tr_dst t =? _)); [by simplify_eq|]. inv_res.
    destruct (negb (_ =? x)); [by simplify_eq|].
    destruct (negb (bool_decide (tr_preds t ⊆ completed))) eqn:Ep; [by simplify_eq|].
    destruct (e1 <=? tr_st t); [by simplify_eq|]. simplify_eq. bool_prop.
    exists (extra ++ [t]). split_and!; [done|by apply sublist_app|].
    apply Forall_app. split; [done|]. by apply Forall_singleton.
Qed.

Lemma topological_filter_set c X l :
  topological c l → topological (X ∪ c) (filter (λ x, tr_id x ∉ X) l).
Proof.
  revert c. induction l as [|x l IH]; intros c; [done|]. simpl. intros [Hx Hl].
  rewrite filter_cons. case_decide; simpl.
  - split; [set_solver|]. eapply topological_weaken; [|apply IH, Hl]. set_solver.
  - eapply topological_weaken; [|apply IH, Hl]. set_solver.
Qed.

Lemma topological_ready c l : Forall (λ t, tr_preds t ⊆ c) l → topological c l.
Proof.
  intros Hl. revert c Hl. induction l as [|t l IH]; intros c Hl; [done|].
  apply Forall_cons in Hl as [Ht Hl]. split; [done|]. apply IH.
  eapply Forall_impl; [exact Hl|]. simpl. set_solver.
Qed.

Lemma NoDup_key_inj {A B} (f : A → B) l x y :
  NoDup (f <$> l) → x ∈ l → y ∈ l → f x = f y → x = y.
Proof.
  induction l as [|z l IH]; [by intros _ ?%elem_of_nil|]. csimpl.
  intros [Hz Hnd]%NoDup_cons [->|Hx]%elem_of_cons [->|Hy]%elem_of_cons E; try done.
  - exfalso. apply Hz. rewrite E. by apply list_elem_of_fmap_2.
  - exfalso. apply Hz. rewrite <- E. by apply list_elem_of_fmap_2.
  - by apply IH.
Qed.

(** What a round takes out of the remaining transfers. *)
Lemma sublist_filter_ids extra (l : list Transfer) :
  NoDup (tr_id <$> l) → extra `sublist_of` l →
  l ≡ₚ extra ++ filter (λ t, tr_id t ∉ tr_id <$> extra) l.
Proof.
  intros Hnd Hsub. pose proof (NoDup_fmap_1 _ _ Hnd) as Hl.
  assert (Hin : ∀ t, t ∈ extra → t ∈ l) by (intros t; by apply sublist_subseteq).
  apply NoDup_Permutation; [done| |].
  - apply NoDup_app. split_and!.
    + by eapply sublist_NoDup.
    + intros t Ht [Hn _]%list_elem_of_filter. apply Hn. by apply list_elem_of_fmap_2.
    + by apply NoDup_filter.
  - intros t. rewrite elem_of_app, list_elem_of_filter. split; [|naive_solver].
    intros Ht. destruct (decide (tr_id t ∈ tr_id <$> extra)) as [He|]; [|by right]. left.
    apply list_elem_of_fmap in He as (u & E & Hu).
    by rewrite (NoDup_key_inj tr_id l t u Hnd Ht (Hin u Hu) E).
Qed.

Lemma try_semantic_inr {A} (m : res A) h a : try_semantic m h = Ok (inr a) → m = Ok a.
Proof. destruct m as [|[]]; simpl; intros H; inv_res; congruence. Qed.

Lemma round_run schedule outputs t remaining l completed group l1 made :
  pledger_wf l → NoDup (tr_id <$> t :: remaining) → topological completed (t :: remaining) →
  round_group schedule t remaining completed = Ok group →
  apply_round l outputs t group = Ok (l1, made) →
  ∃ extra ops, group = t :: extra ∧ transfers_run l group ops l1 ∧ pledger_wf l1 ∧
    t :: remaining ≡ₚ group ++ filter (λ x, tr_id x ∉ tr_id <$> extra) remaining ∧
    topological completed group ∧
    topological (list_to_set (tr_id <$> group) ∪ completed)
      (filter (λ x, tr_id x ∉ tr_id <$> extra) remaining).
Proof.
  intros Hl Hnd [Hp Htop] Hg Ha. csimpl in Hnd. apply NoDup_cons in Hnd as [_ Hnd].
  assert (Hshape : ∃ extra, group = t :: extra ∧ extra `sublist_of` remaining ∧
    Forall (λ x, tr_kind x = "REDUCE"%string ∧ tr_preds x ⊆ completed) extra ∧
    ∃ ops, transfers_run l group ops l1 ∧ pledger_wf l1).
  { unfold round_group, apply_round in *. case_bool_decide as Hk.
    - injection Hg as <-. exists []. split_and!; [done|apply sublist_nil_l|done|].
      apply apply_send_run in Ha as (op & Hr & Hl1); [|done|done].
      exists [op]. split; [|done]. eapply transfers_cons; [done|constructor].
    - apply concurrent_group_spec in Hg as (extra & -> & Hsub & Hall).
      exists extra. split_and!; [done..|]. eapply apply_reduce_group_run; [done| |done].
      constructor; [done|]. eapply Forall_impl; [exact Hall|]. by intros x [-> _]. }
  destruct Hshape as (extra & -> & Hsub & Hall & ops & Hrun & Hl1).
  exists extra, ops. split_and!; try done.
  - simpl. f_equiv. by apply sublist_filter_ids.
  - split; [done|]. apply topological_ready. eapply Forall_impl; [exact Hall|]. simpl. set_solver.
  - apply (topological_filter_set _ (list_to_set (tr_id <$> extra))) in Htop.
    rewrite (list_filter_iff _ (λ x, tr_id x ∉ tr_id <$> extra)) in Htop
      by (intros x; by rewrite elem_of_list_to_set).
    eapply topological_weaken; [|exact Htop]. csimpl. simpl. set_solver.
Qed.

Lemma replay_loop_run fuel schedule outputs remaining l completed produced l' produced' :
  pledger_wf l → NoDup (tr_id <$> remaining) → topological completed remaining →
  replay_loop fuel schedule outputs remaining l completed produced = Ok (inr (l', produced')) →
  ∃ executed ops, executed ≡ₚ remaining ∧ topological completed executed ∧
    transfers_run l executed ops l' ∧ pledger_wf l'.
Proof.
  revert remaining l completed produced.
  induction fuel as [|fuel IH]; intros remaining l completed produced Hl Hnd Htop H; [done|].
  cbn [replay_loop] in H. destruct remaining as [|t remaining].
  { injection H as <- <-. exists [], []. split_and!; [done|done|constructor|done]. }
  apply bind_Ok in H as ([r|group] & Hg & H); [done|]. apply try_semantic_inr in Hg.
  apply bind_Ok in H as ([r|[l1 made]] & Ha & H); [done|]. apply try_semantic_inr in Ha.
  destruct (round_run _ _ _ _ _ _ _ _ _ Hl Hnd Htop Hg Ha)
    as (extra & ops & -> & Hrun & Hl1 & Hperm & Htg & Htr).
  csimpl in H. rewrite drop_0 in H.
  apply IH in H as (executed & ops' & Hex & Htop' & Hrun' & Hl'); [|done| |done].
  - exists ((t :: extra) ++ executed), (ops ++ ops'). split_and!; try done.
    + by rewrite Hperm, Hex.
    + apply topological_app. done.
    + by eapply transfers_run_app.
  - rewrite Hperm, fmap_app in Hnd. by apply NoDup_app in Hnd as (_ & _ & ?).
Qed.

(** ** The final states *)

Lemma slot_matches_live l slot c st :
  pledger_wf l → st ∈ slot_matches l slot c → live l (pst_id st) st.
Proof.
  intros Hl [(Ha & _) Hs]%list_elem_of_filter. apply elem_of_states in Hs; [|done]. done.
Qed.

Lemma select_final_live schedule l produced slot c st :
  pledger_wf l → select_final schedule l produced slot c = Ok (inr st) →
  live l (pst_id st) st.
Proof.
  intros Hl H. apply (slot_matches_live l slot c); [done|]. unfold select_final in H.
  assert (Hinl : ∀ (m : res CheckResult) x, inl <$> m ≠ Ok (inr x : CheckResult + PayloadState)).
  { intros [] x; simpl; congruence. }
  destruct (slot_matches l slot c) as [|x [|y k]] eqn:E.
  - by apply Hinl in H.
  - injection H as ->. by left.
  - rewrite <- E in *. assert (Hsub : ∀ z, z ∈ declared_matches schedule produced slot
      (slot_matches l slot c) → z ∈ slot_matches l slot c).
    { intros z. unfold declared_matches.
      destruct (default _ _) as [|[] []]; try by intros ?%elem_of_nil.
      by intros [_ ?]%list_elem_of_filter. }
    destruct (declared_matches schedule produced slot _) as [|z []] eqn:Ed;
      [by apply Hinl in H| |by apply Hinl in H].
    injection H as ->. apply Hsub. by left.
Qed.

Lemma select_finals_live schedule l produced outputs sts :
  pledger_wf l → select_finals schedule l produced outputs = Ok (inr sts) →
  Forall (λ st, live l (pst_id st) st) sts.
Proof.
  intros Hl. revert sts. induction outputs as [|[slot c] outputs IH]; intros sts H; simpl in H.
  { injection H as <-. constructor. }
  apply bind_Ok in H as ([r|st] & Hs & H); [done|].
  apply bind_Ok in H as ([r|rest] & Hr & H); [done|]. injection H as <-.
  constructor; [by eapply select_final_live|by apply IH].
Qed.

(** The parts of a valid state result. *)
Lemma state_result_inv schedule inputs r :
  _state_result schedule inputs = Ok r → cr_status r = VALID →
  ∃ outputs initial l0 ordered l produced finals,
    required_outputs (ri_collective inputs) (sc_rank_count schedule) (sc_slice_count schedule)
      = Ok outputs ∧
    initial_payload_states (sc_rank_count schedule) (sc_slice_count schedule) = Ok initial ∧
    PayloadLedger_init initial = Ok l0 ∧ _ordered_transfers schedule = Ok ordered ∧
    replay_loop (S (length ordered)) schedule outputs ordered l0 ∅ ∅ = Ok (inr (l, produced)) ∧
    select_finals schedule l produced (sorted_by fst outputs) = Ok (inr finals) ∧
    check_final_states (ri_collective inputs) (sc_rank_count schedule) (sc_slice_count schedule)
      finals = Ok tt.
Proof.
  intros H Hvalid. unfold _state_result in H.
  assert (Hinv : ∀ d c m e x, _invalid d c m e = Ok x → cr_status x ≠ VALID).
  { intros d c m e x Hx. apply CheckResult_init_Ok in Hx as ->. done. }
  assert (Htry : ∀ A (m : res A) h x, (∀ msg y, h msg = Ok y → cr_status y ≠ VALID) →
    try_semantic m h = Ok (inl x) → cr_status x ≠ VALID).
  { intros A m h x Hh Hx. destruct m as [|[]]; simpl in Hx; inv_res; try done.
    simplify_eq. by eapply Hh. }
  apply bind_Ok in H as (outputs & Ho & H). apply bind_Ok in H as (initial & Hi & H).
  apply bind_Ok in H as (l0 & H0 & H). apply bind_Ok in H as ([x|ordered] & Hord & H).
  { injection H as ->. by apply Htry in Hord; [|intros; by eapply Hinv]. }
  apply try_semantic_inr in Hord.
  apply bind_Ok in H as ([x|[l produced]] & Hrep & H).
  { injection H as ->. exfalso. revert Hrep. generalize (S (length ordered)).
    intros fuel. clear Hord H0 Hi Ho.
    generalize (∅ : gset string), (∅ : gmap string string). revert ordered l0.
    induction fuel as [|fuel IH]; intros rem l0 c p Hr; cbn [replay_loop] in Hr; [done|].
    destruct rem as [|t rem]; [done|].
    apply bind_Ok in Hr as ([x|g] & Hg & Hr).
    { injection Hr as ->. apply Htry in Hg; [done|]. intros; by eapply Hinv. }
    apply bind_Ok in Hr as ([x|[l1 made]] & Ha & Hr).
    { injection Hr as ->. apply Htry in Ha; [done|]. intros; by eapply Hinv. }
    by apply IH in Hr. }
  apply bind_Ok in H as ([x|finals] & Hf & H).
  { injection H as ->. exfalso. revert Hf. generalize (sorted_by fst outputs) as outs.
    induction outs as [|[slot c] outs IH]; simpl; [done|]. intros Hf.
    apply bind_Ok in Hf as ([x|st] & Hs & Hf).
    - injection Hf as ->. unfold select_final in Hs.
      destruct (slot_matches l slot c) as [|? []]; [|done|destruct (declared_matches _ _ _ _) as [|? []]];
        try done; destruct (_invalid _ _ _ _) as [y|] eqn:Ey; try done; injection Hs as ->;
        by apply Hinv in Ey.
    - apply bind_Ok in Hf as ([x|rest] & Hr & Hf); [|done]. injection Hf as ->. by apply IH. }
  apply bind_Ok in H as ([x|[]] & Hc & H).
  { injection H as ->. by apply Htry in Hc; [|intros; by eapply Hinv]. }
  apply try_semantic_inr in Hc. do 7 eexists. split_and!; eassumption.
Qed.

(** C28 A valid state result proves that the schedule computes its collective.
    For distinct transfer identities there is then an order of all transfers
    that respects their predecessors and performs each one exactly once, as a
    send or a reduction of a version that holds exactly the transfer's slices
    on its source rank; the final versions, still valid at the end, fill the
    output table of the collective; and whatever values [V] the input slices
    have, each final version's value is the sum of [V] over the required
    slices. *)
Theorem state_replay_sound schedule inputs r :
  NoDup (tr_id <$> sc_transfers schedule) →
  _state_result schedule inputs = Ok r → cr_status r = VALID →
  ∃ initial l0 executed ops l finals,
    initial_payload_states (sc_rank_count schedule) (sc_slice_count schedule) = Ok initial ∧
    PayloadLedger_init initial = Ok l0 ∧
    executed ≡ₚ sc_transfers schedule ∧ topological ∅ executed ∧
    transfers_run l0 executed ops l ∧
    complete_output (ri_collective inputs) (sc_rank_count schedule) (sc_slice_count schedule)
      finals ∧
    ∀ st, st ∈ finals → live l (pst_id st) st ∧
      ∀ V vals, valued V l0 vals →
        foldl op_values vals ops (pst_id st) = sum_of V (pst_contributors st).
Proof.
  intros Hnd H Hvalid.
  destruct (state_result_inv _ _ _ H Hvalid) as
    (outputs & initial & l0 & ordered & l & produced & finals & _ & Hi & H0 & Hord & Hrep & Hf & Hc).
  apply ordered_transfers_sound in Hord as [Hperm Htop]; [|done].
  pose proof (initial_payload_states_spec _ _ _ Hi) as (_ & _ & Hall).
  assert (Hl0 : pledger_wf l0).
  { apply PayloadLedger_init_spec in H0 as [? _]; [done|..];
      (eapply Forall_impl; [exact Hall|]; by intros s []). }
  assert (Hnd' : NoDup (tr_id <$> ordered)) by (by rewrite Hperm).
  destruct (replay_loop_run _ _ _ _ _ _ _ _ _ Hl0 Hnd' Htop Hrep)
    as (executed & ops & Hex & Htop' & Hrun & Hl).
  apply select_finals_live in Hf; [|done].
  exists initial, l0, executed, ops, l, finals. split_and!; try done.
  - by rewrite Hex.
  - apply check_final_states_exact in Hc; [by destruct Hc|].
    eapply Forall_impl; [exact Hf|]. intros st [Hs _]. by apply (pl_wf l Hl) in Hs as [_ ?].
  - intros st Hst. rewrite Forall_forall in Hf. split; [by apply Hf|].
    intros V vals Hv. apply (valued_run V l0 ops l) in Hv as [_ Hv]; [|by eapply transfers_run_payload|done].
    by apply Hv, Hf.
Qed.

(** ** Termination *)

Lemma PayloadState_init_terminates id v r a c t act p :
  terminates (PayloadState_init id v r a c t act p).
Proof.
  unfold PayloadState_init, _contributor_set, _normalized_member_paths. terminates.
Qed.

#[local] Hint Resolve py_mod_terminates py_floordiv_terminates PayloadState_init_terminates
  : terminates.

Lemma state_terminates l id : terminates (state l id).
Proof. unfold state. terminates. Qed.
#[local] Hint Resolve state_terminates : terminates.

Lemma active_state_terminates l id : terminates (_active_state l id).
Proof. unfold _active_state. terminates. Qed.

Lemma register_terminates l s : terminates (_register l s).
Proof. unfold _register. terminates. Qed.

Lemma deactivate_terminates l s : terminates (_deactivate l s).
Proof. unfold _deactivate, deactivated. terminates. Qed.

Lemma new_state_terminates l r a c t p : terminates (_new_state l r a c t p).
Proof. unfold _new_state. terminates. Qed.

#[local] Hint Resolve active_state_terminates register_terminates deactivate_terminates
  new_state_terminates : terminates.

Lemma reduce_terminates l a b d t : terminates (reduce l a b d t).
Proof. unfold reduce, _target_is_available. terminates. Qed.

Lemma send_terminates l a d t R : terminates (send l a d t R).
Proof. unfold send, _target_is_available, _contributor_set. terminates. Qed.

#[local] Hint Resolve reduce_terminates send_terminates : terminates.

Lemma source_state_terminates l t : terminates (_source_state l t).
Proof. unfold _source_state. terminates. Qed.

Lemma destination_state_terminates l t s : terminates (_destination_state l t s).
Proof. unfold _destination_state. terminates. Qed.

#[local] Hint Resolve source_state_terminates destination_state_terminates : terminates.

Lemma apply_round_terminates l o t g : terminates (apply_round l o t g).
Proof.
  unfold apply_round, apply_send, _required_contributors, _apply_reduce_group, reduce_step.
  terminates.
Qed.

Lemma round_group_terminates s t rem c : terminates (round_group s t rem c).
Proof.
  unfold round_group, _concurrent_reduce_group, group_step, _transfer_address. terminates.
Qed.

Lemma CheckResult_init_terminates d s c m e : terminates (CheckResult_init d s c m e).
Proof. unfold CheckResult_init. terminates. Qed.
#[local] Hint Resolve apply_round_terminates round_group_terminates CheckResult_init_terminates
  : terminates.

Lemma try_semantic_terminates {A} (m : res A) h :
  terminates m → (∀ msg, terminates (h msg)) → terminates (try_semantic m h).
Proof.
  unfold terminates. intros Hm Hh. destruct m as [|e]; [done|]. simpl.
  destruct e; try congruence. specialize (Hh msg). destruct (h msg); simpl; congruence.
Qed.
#[local] Hint Extern 1 (terminates (try_semantic _ _)) =>
  apply try_semantic_terminates; [|intros; unfold replay_failure, _invalid] : terminates.

Lemma replay_loop_terminates fuel s outs rem l c p :
  (length rem < fuel)%nat → terminates (replay_loop fuel s outs rem l c p).
Proof.
  revert rem l c p. induction fuel as [|fuel IH]; intros rem l c p Hf; [lia|].
  cbn [replay_loop]. destruct rem as [|t rem]; [done|]. simpl in Hf. terminates.
  apply IH.
  match goal with |- context [filter ?P rem] => pose proof (length_filter P rem) end. lia.
Qed.

#[local] Hint Resolve replay_loop_terminates : terminates.

Lemma initial_payload_states_terminates P n : terminates (initial_payload_states P n).
Proof. unfold initial_payload_states. terminates. Qed.

Lemma PayloadLedger_init_terminates sts : terminates (PayloadLedger_init sts).
Proof. unfold PayloadLedger_init. terminates. Qed.

Lemma single_contributor_terminates st msg : terminates (single_contributor st msg).
Proof. unfold single_contributor. terminates. Qed.
#[local] Hint Resolve initial_payload_states_terminates
  PayloadLedger_init_terminates single_contributor_terminates : terminates.

Lemma check_final_states_terminates spec P n sts : terminates (check_final_states spec P n sts).
Proof.
  unfold check_final_states, final_state_step, _actual_output, output_slot_of, _logical_address.
  terminates.
Qed.

Lemma ordered_transfers_terminates s :
  NoDup (tr_id <$> sc_transfers s) → terminates (_ordered_transfers s).
Proof.
  intros Hnd. unfold _ordered_transfers. cbv zeta. rewrite pending_values by done.
  pose proof (order_loop_cases (S (length (sc_transfers s))) (sc_transfers s) ∅ []
    Hnd ltac:(lia)) as H.
  destruct (order_loop _ _ _ _) as [|e]; [done|]. by destruct H as [-> _].
Qed.

Lemma select_final_terminates s l p slot c : terminates (select_final s l p slot c).
Proof.
  assert (Hi : ∀ d k m e, terminates (inl <$> _invalid d k m e : res (CheckResult + PayloadState))).
  { intros d k m e. pose proof (CheckResult_init_terminates d INVALID k m e) as H.
    unfold _invalid. unfold terminates in *. destruct (CheckResult_init _ _ _ _ _); simpl; congruence. }
  unfold select_final. destruct (slot_matches _ _ _) as [|? []]; [apply Hi|done|].
  destruct (declared_matches _ _ _ _) as [|? []]; [apply Hi|done|apply Hi].
Qed.

Lemma select_finals_terminates s l p outs : terminates (select_finals s l p outs).
Proof.
  pose proof select_final_terminates.
  induction outs as [|[slot c] outs IH]; [done|]. cbn [select_finals]. terminates; auto.
Qed.
#[local] Hint Resolve check_final_states_terminates select_finals_terminates : terminates.

(** C31 The state replay ends.  For distinct transfer identities, which every
    constructed schedule has, none of its loops is cut off by the model's
    bounds (the ordering loop, the loop over remaining transfers with its
    reduction groups, and each search for a version name): whatever
    [_state_result] returns or raises is what the program returns or raises. *)
Theorem state_result_terminates schedule inputs :
  NoDup (tr_id <$> sc_transfers schedule) →
  _state_result schedule inputs ≠ Err OutOfFuel.
Proof.
  intros Hnd. change (terminates (_state_result schedule inputs)).
  pose proof (ordered_transfers_terminates schedule Hnd).
  unfold _state_result, _invalid, _valid. terminates.
Qed.

Lemma state_result_terminates_witness :
  is_ok (_state_result demo_send_schedule demo_send_input) = true ∧
  _state_result demo_send_schedule demo_send_input ≠ Err OutOfFuel.
Proof.
  split; [vm_compute; reflexivity|].
  exact (state_result_terminates demo_send_schedule demo_send_input demo_send_ids).
Defined.

Lemma state_replay_sound_witness :
  ∃ r, _state_result demo_send_schedule demo_send_input = Ok r ∧ cr_status r = VALID ∧
    ∃ executed finals, executed ≡ₚ [demo_send] ∧ topological ∅ executed ∧
      complete_output (ri_collective demo_send_input) 2 1 finals.
Proof.
  destruct (_state_result demo_send_schedule demo_send_input) as [r|] eqn:E;
    [|vm_compute in E; discriminate E].
  assert (Hv : cr_status r = VALID) by (vm_compute in E; injection E as <-; reflexivity).
  exists r. split; [reflexivity|]. split; [exact Hv|].
  destruct (state_replay_sound demo_send_schedule demo_send_input r demo_send_ids E Hv)
    as (initial & l0 & executed & ops & l & finals & _ & _ & H1 & H2 & _ & H3 & _).
  exists executed, finals. split; [exact H1|]. split; [exact H2|exact H3].
Defined.
