(* ===== verification/XmlModel.v ===== *)
(** * Buffer plans ([vericcl/xml/model.py])

    The values, physical references and local copies of a buffer plan, with
    their constructors, and [final_ref], which finds the output reference a
    slice ends in. *)

From S2P Require Import Prelude.
From S2P Require Import Python.
From S2P Require Import Slice.
From S2P Require Import Collective.
Local Open Scope Z_scope.

(** [x < y] and [x > y] on floats: false when either is NaN. *)
Definition float_ltb (x y : pyfloat) : bool :=
  match x, y with
  | Finite a, Finite b => a <? b
  | NegInf, Finite _ | NegInf, PosInf | Finite _, PosInf => true
  | _, _ => false
  end.

#[export] Instance pyfloat_eq_dec : EqDecision pyfloat.
Proof. solve_decision. Defined.

(** [x is not None] *)
Definition present {A} (o : option A) : bool := match o with Some _ => true | None => false end.

(** [_time]: any non-negative number, infinity included. *)
Definition _time (value : pyval) (field : string) : res pyfloat :=
  normalized ← match value with
    | PInt z => Finite <$> float_of_int z
    | PFloat f => Ok f
    | _ => Err (SemanticError (field +:+ " must be a number"))
    end;
  raise_when (bool_decide (normalized = NaN) || float_ltb normalized (Finite 0))
    (SemanticError (field +:+ " must be non-negative"));;
  Ok normalized.

Record RawValue : Type := MkRawValue { rv_slice_id : Z }.

Definition RawValue_init (slice_id : Z) : res RawValue :=
  integer_field (PInt slice_id) "raw_value.slice_id" 0;; Ok (MkRawValue slice_id).

Record AggregateValue : Type := MkAggregateValue {
  av_logical_slice_index : Z;
  av_contributors : gset Z;
  av_state_version : Z;
}.

Definition AggregateValue_init (logical_slice_index : Z) (contributors : gset Z)
    (state_version : Z) : res AggregateValue :=
  integer_field (PInt logical_slice_index) "aggregate_value.logical_slice_index" 0;;
  raise_when (size contributors <? 2)%nat (SemanticError
    "aggregate_value.contributors must contain at least two slices");;
  iterM (λ contributor,
    integer_field (PInt contributor) "aggregate_value.contributors" 0;; Ok tt)
    (elements contributors);;
  integer_field (PInt state_version) "aggregate_value.state_version" 0;;
  Ok (MkAggregateValue logical_slice_index contributors state_version).

(** [ValueKey = Union[RawValue, AggregateValue]] *)
Inductive ValueKey : Type :=
  | VRaw (v : RawValue)
  | VAggregate (v : AggregateValue).

#[export] Instance RawValue_eq_dec : EqDecision RawValue.
Proof. solve_decision. Defined.
#[export] Instance AggregateValue_eq_dec : EqDecision AggregateValue.
Proof. solve_decision. Defined.
#[export] Instance ValueKey_eq_dec : EqDecision ValueKey.
Proof. solve_decision. Defined.

Record PhysicalRef : Type := MkPhysicalRef {
  pr_rank : Z;
  pr_buffer : string;
  pr_offset : Z;
  pr_valid_from : pyfloat;
  pr_valid_until : pyfloat;
}.

#[export] Instance PhysicalRef_eq_dec : EqDecision PhysicalRef.
Proof. solve_decision. Defined.

Definition PhysicalRef_init (rank : Z) (buffer : string) (offset : Z)
    (valid_from valid_until : pyval) : res PhysicalRef :=
  integer_field (PInt rank) "physical_ref.rank" 0;;
  raise_when (negb (bool_decide (buffer ∈ ["i"; "o"; "s"]%string)))
    (SemanticError "physical_ref.buffer must be i, o, or s");;
  integer_field (PInt offset) "physical_ref.offset" 0;;
  from ← _time valid_from "physical_ref.valid_from";
  until ← _time valid_until "physical_ref.valid_until";
  raise_when (float_ltb until from)
    (SemanticError "physical_ref.valid_from must not exceed valid_until");;
  Ok (MkPhysicalRef rank buffer offset from until).

Definition buffer_offset (self : PhysicalRef) : string * Z := (pr_buffer self, pr_offset self).

Record LocalCopy : Type := MkLocalCopy {
  lc_copy_id : string;
  lc_rank : Z;
  lc_src_ref : PhysicalRef;
  lc_dst_ref : PhysicalRef;
  lc_predecessor_state_id : string;
  lc_st_time : pyfloat;
  lc_ed_time : pyfloat;
  lc_reason : string;
}.

Definition LocalCopy_init (copy_id : string) (rank : Z) (src_ref dst_ref : PhysicalRef)
    (predecessor_state_id : string) (st_time ed_time : pyval) (reason : string)
    : res LocalCopy :=
  identifier_field (PStr copy_id) "local_copy.copy_id";;
  integer_field (PInt rank) "local_copy.rank" 0;;
  raise_when (negb (pr_rank src_ref =? rank) || negb (pr_rank dst_ref =? rank))
    (SemanticError "local copy references must use the copy rank");;
  identifier_field (PStr predecessor_state_id) "local_copy.predecessor_state_id";;
  st ← _time st_time "local_copy.st_time";
  ed ← _time ed_time "local_copy.ed_time";
  raise_when (float_ltb ed st) (SemanticError "local copy start must not exceed end");;
  identifier_field (PStr reason) "local_copy.reason";;
  Ok (MkLocalCopy copy_id rank src_ref dst_ref predecessor_state_id st ed reason).

(** The mappings are dictionaries in insertion order, of the declared types. *)
Record BufferPlan : Type := MkBufferPlan {
  bp_value_locations : list (ValueKey * list PhysicalRef);
  bp_aliases : list (PhysicalRef * PhysicalRef);
  bp_local_copies : list LocalCopy;
  bp_i_chunks : list (Z * Z);
  bp_o_chunks : list (Z * Z);
  bp_s_chunks : list (Z * Z);
  bp_slice_count : Z;
  bp_initial_refs : list (Z * PhysicalRef);
  bp_final_output_refs : list (OutputSlot * PhysicalRef);
  bp_final_values : list (OutputSlot * ValueKey);
  bp_final_value_refs : list (OutputSlot * PhysicalRef);
  bp_transfer_src_refs : list (string * PhysicalRef);
  bp_transfer_dst_refs : list (string * PhysicalRef);
  bp_transfer_accumulator_refs : list (string * PhysicalRef);
  bp_transfer_input_values : list (string * ValueKey);
  bp_transfer_accumulator_values : list (string * ValueKey);
  bp_transfer_output_values : list (string * ValueKey);
  bp_transfer_effective_times : list (string * (pyfloat * pyfloat));
}.

(** The one check of [__post_init__] that the declared types leave open. *)
Definition BufferPlan_init (self : BufferPlan) : res BufferPlan :=
  integer_field (PInt (bp_slice_count self)) "buffer_plan.slice_count" 1;; Ok self.

(** Whether a final value combines the slice [contributor]. *)
Definition value_contains (contributor : Z) (value : ValueKey) : bool :=
  match value with
  | VRaw v => rv_slice_id v =? contributor
  | VAggregate v => bool_decide (contributor ∈ av_contributors v)
  end.

Definition final_ref (self : BufferPlan) (rank source_rank logical_slice_index : Z)
    : res PhysicalRef :=
  integer_field (PInt rank) "final_ref.rank" 0;;
  integer_field (PInt source_rank) "final_ref.source_rank" 0;;
  integer_field (PInt logical_slice_index) "final_ref.logical_slice_index" 0;;
  let contributor := source_rank * bp_slice_count self + logical_slice_index in
  matches ← mapR (λ '(slot, _),
      of_option (dict_get slot (bp_final_output_refs self)) (KeyError "OutputSlot"))
    (filter (λ sv, Is_true ((slot_rank sv.1 =? rank) && value_contains contributor sv.2))
      (bp_final_values self));
  match matches with
  | [ref] => Ok ref
  | _ => Err (SemanticError "final value does not map to exactly one output")
  end.

(** ** Values of a collective *)

(** The slices that a value combines. *)
Definition value_contributors (value : ValueKey) : gset Z :=
  match value with
  | VRaw v => {[ rv_slice_id v ]}
  | VAggregate v => av_contributors v
  end.

Lemma value_contains_spec c v : value_contains c v = bool_decide (c ∈ value_contributors v).
Proof.
  destruct v as [[s]|a]; simpl; [|done].
  destruct (Z.eqb_spec s c); symmetry;
    [apply bool_decide_eq_true_2|apply bool_decide_eq_false_2]; set_solver.
Qed.

(** On one rank a slice ends in at most one output slot. *)
Lemma output_slot_unique spec P n rank o1 o2 c1 c2 x :
  valid_problem spec P n →
  collective_value spec P n rank o1 = Some c1 → x ∈ c1 →
  collective_value spec P n rank o2 = Some c2 → x ∈ c2 → o1 = o2.
Proof.
  intros Hv. pose proof (quotient_facts spec P n Hv) as Hq. destruct Hv as [HP Hn Hr _].
  assert (Hagg : ∀ a, 0 ≤ a < n → x ∈ _aggregate_contributors a P n → a = x `mod` n).
  { intros a Ha. unfold _aggregate_contributors.
    rewrite elem_of_list_to_set, list_elem_of_fmap. intros (s & -> & _).
    by rewrite slice_mod. }
  unfold collective_value.
  destruct (cs_kind spec) eqn:K; simpl in Hr, Hq;
    repeat case_match; rewrite ?within_Some; intros; dest_all; subst; try done;
    repeat match goal with H : x ∈ {[ _ ]} |- _ => apply elem_of_singleton in H end;
    try (destruct (Hq eq_refl) as [Hn' Hq1]; set (q := n / P) in *; clearbody q);
    try lia;
    repeat match goal with H : x ∈ _aggregate_contributors _ _ _ |- _ =>
      apply Hagg in H; [|nia] end; try lia.
  (* ALL_TO_ALL *)
  subst x.
  destruct (slice_split o1 q) as [E1 B1]; [lia|].
  destruct (slice_split o2 q) as [E2 B2]; [lia|].
  assert (rank * q + o1 `mod` q < n) by nia. assert (rank * q + o2 `mod` q < n) by nia.
  match goal with H : _ * n + _ + _ = _ |- _ => rename H into E | H : _ = _ * n + _ + _ |- _ => rename H into E end.
  assert (o1 / q = o2 / q) by nia. nia.
Qed.

(** A plan whose final values are the outputs of a collective problem: the
    contract that the buffer planner meets. *)
Record plan_realises (self : BufferPlan) (outputs : list (OutputSlot * gset Z)) (n : Z)
    : Prop := {
  pl_slices : bp_slice_count self = n;
  pl_keys : NoDup (bp_final_values self).*1;
  pl_values slot c : dict_get slot outputs = Some c ↔
    ∃ v, dict_get slot (bp_final_values self) = Some v ∧ value_contributors v = c;
  pl_refs slot : slot ∈ (bp_final_values self).*1 →
    is_Some (dict_get slot (bp_final_output_refs self));
}.

Section final_refs.
Context (self : BufferPlan) (spec : CollectiveSpec) (P n : Z).
Context (outputs : list (OutputSlot * gset Z)).
Context (Hout : required_outputs spec P n = Ok outputs).
Context (Hpl : plan_realises self outputs n).

Definition final_match (rank contributor : Z) (sv : OutputSlot * ValueKey) : Prop :=
  Is_true ((slot_rank sv.1 =? rank) && value_contains contributor sv.2).

Lemma final_match_spec rank x slot v :
  (slot, v) ∈ filter (final_match rank x) (bp_final_values self) ↔
  dict_get slot (bp_final_values self) = Some v ∧ slot_rank slot = rank ∧
  x ∈ value_contributors v.
Proof.
  rewrite list_elem_of_filter. unfold final_match. simpl.
  rewrite value_contains_spec, Is_true_true, andb_true_iff, Z.eqb_eq, bool_decide_eq_true.
  assert ((slot, v) ∈ bp_final_values self ↔
    dict_get slot (bp_final_values self) = Some v) as ->; [|naive_solver].
  split; [apply dict_get_Some_2, (pl_keys _ _ _ Hpl)|apply dict_get_Some_1].
Qed.

Lemma final_match_unique rank x sv1 sv2 :
  sv1 ∈ filter (final_match rank x) (bp_final_values self) →
  sv2 ∈ filter (final_match rank x) (bp_final_values self) → sv1 = sv2.
Proof.
  destruct sv1 as [[r1 o1] v1], sv2 as [[r2 o2] v2]. rewrite !final_match_spec; simpl.
  intros (H1 & -> & X1) (H2 & -> & X2).
  pose proof (required_outputs_Ok _ _ _ _ Hout) as Hv.
  destruct (required_outputs_table spec P n Hv) as (t & Ht & _ & Hval).
  rewrite Hout in Ht. injection Ht as <-.
  assert (Hof : ∀ o v, dict_get (MkOutputSlot rank o) (bp_final_values self) = Some v →
    collective_value spec P n rank o = Some (value_contributors v)).
  { intros o v Hd. pose proof (Hval (MkOutputSlot rank o)) as E. simpl in E. rewrite <- E. apply (pl_values _ _ _ Hpl). eauto. }
  assert (o1 = o2) as -> by eauto using output_slot_unique. congruence.
Qed.

(** At most one entry matches. *)
Lemma final_matches_short rank x :
  (length (filter (final_match rank x) (bp_final_values self)) ≤ 1)%nat.
Proof.
  assert (Hnd : NoDup (filter (final_match rank x) (bp_final_values self))).
  { apply NoDup_filter, (NoDup_fmap_1 fst), (pl_keys _ _ _ Hpl). }
  pose proof (final_match_unique rank x) as Hu.
  destruct (filter _ _) as [|a [|b l]]; simpl; [lia..|].
  exfalso. apply NoDup_cons in Hnd as [Ha _]. apply Ha.
  rewrite (Hu a b) by (by repeat constructor). by left.
Qed.

(** On a plan that realises a collective, [final_ref] is total and exact:
    it returns the output reference of the one slot on the rank that holds
    the contribution of the requested slice, and raises exactly when no slot
    of the rank holds it. *)
Theorem final_ref_exact rank source_rank index :
  0 ≤ rank → 0 ≤ source_rank → 0 ≤ index →
  let holds slot := ∃ c, dict_get slot outputs = Some c ∧ slot_rank slot = rank ∧
                         source_rank * n + index ∈ c in
  (∀ slot, holds slot → ∃ ref, final_ref self rank source_rank index = Ok ref ∧
     dict_get slot (bp_final_output_refs self) = Some ref) ∧
  ((∀ slot, ¬ holds slot) →
     final_ref self rank source_rank index =
     Err (SemanticError "final value does not map to exactly one output")).
Proof.
  intros H1 H2 H3 holds.
  pose proof (final_matches_short rank (source_rank * n + index)) as Hs.
  pose proof (final_match_spec rank (source_rank * n + index)) as Hm.
  assert (Hh : ∀ slot, holds slot ↔ ∃ v,
    (slot, v) ∈ filter (final_match rank (source_rank * n + index)) (bp_final_values self)).
  { intros slot. unfold holds. setoid_rewrite Hm. setoid_rewrite (pl_values _ _ _ Hpl).
    naive_solver. }
  clearbody holds. unfold final_ref.
  rewrite !integer_field_int by done.
  cbn [mbind res_bind]. rewrite (pl_slices _ _ _ Hpl).
  change (filter (λ sv, _) (bp_final_values self)) with
    (filter (final_match rank (source_rank * n + index)) (bp_final_values self)).
  destruct (filter _ _) as [|[slot v] [|]]; simpl in Hs; [| |lia].
  - split; [|done]. intros slot [v Hv]%Hh. by apply elem_of_nil in Hv.
  - destruct (proj1 (Hm slot v)) as (Hd & _); [by left|].
    destruct (pl_refs _ _ _ Hpl slot) as [ref Href].
    { apply list_elem_of_fmap. exists (slot, v). by apply dict_get_Some_1 in Hd. }
    cbn [mapR]. rewrite Href. simpl. split.
    + intros slot' [v' Hv']%Hh. apply list_elem_of_singleton in Hv' as [= -> ->]. eauto.
    + intros Hno. exfalso. apply (Hno slot), Hh. exists v. by left.
Qed.
End final_refs.

(** ** A plan for a reduction over two ranks *)

Definition example_spec : CollectiveSpec := MkCollectiveSpec REDUCE "fp32" (Some "sum"%string) (PInt 0) false.
Definition example_ref : PhysicalRef := MkPhysicalRef 0 "o" 0 (Finite 0) PosInf.
Definition example_plan : BufferPlan :=
  MkBufferPlan [] [] [] [] [] [] 1 []
    [(MkOutputSlot 0 0, example_ref)]
    [(MkOutputSlot 0 0, VAggregate (MkAggregateValue 0 {[0; 1]} 1))]
    [] [] [] [] [] [] [] [].

Lemma example_plan_realises :
  plan_realises example_plan [(MkOutputSlot 0 0, {[0; 1]})] 1.
Proof.
  split; simpl.
  - done.
  - apply NoDup_singleton.
  - intros slot c. case_decide; naive_solver.
  - intros slot ->%list_elem_of_singleton. by rewrite decide_True.
Qed.

Lemma final_ref_exact_witness :
  final_ref example_plan 0 1 0 = Ok example_ref ∧
  final_ref example_plan 1 1 0 =
    Err (SemanticError "final value does not map to exactly one output").
Proof.
  assert (Hout : required_outputs example_spec 2 1 = Ok [(MkOutputSlot 0 0, {[0; 1]})]).
  { by vm_compute. }
  split.
  - destruct (final_ref_exact example_plan example_spec 2 1 _ Hout example_plan_realises 0 1 0)
      as [H _]; [lia..|].
    destruct (H (MkOutputSlot 0 0)) as (ref & -> & Href).
    + exists {[0; 1]}. split_and!; [done|done|set_solver].
    + simpl in Href. by injection Href as <-.
  - destruct (final_ref_exact example_plan example_spec 2 1 _ Hout example_plan_realises 1 1 0)
      as [_ H]; [lia..|].
    apply H. intros slot (c & Hc & Hr & _). simpl in Hc. case_decide; [|done].
    subst. simpl in Hr. lia.
Defined.
