(* ===== verification/Endpoints.v ===== *)
(** * Endpoints ([vericcl/xml/endpoints.py])

    Every physical transfer becomes a send and a receive, every local copy a
    copy; the constructors check that the two ends of a transfer match. *)

From S2P Require Import Prelude.
From S2P Require Import Python.
From S2P Require Import Atom.
From S2P Require Import XmlModel.
Local Open Scope Z_scope.

Inductive EndpointType : Type :=
  | SEND | RECV | RECV_REDUCE_COPY | COPY | NOP.

#[export] Instance EndpointType_eq_dec : EqDecision EndpointType.
Proof. solve_decision. Defined.
#[export] Instance Atom_eq_dec : EqDecision Atom.
Proof. solve_decision. Defined.

Record EndpointAtom : Type := MkEndpointAtom {
  ep_endpoint_id : string;
  ep_atom : option Atom;
  ep_member_atoms : list Atom;
  ep_transfer_id : string;
  ep_transfer_kind : string;
  ep_xml_type : EndpointType;
  ep_rank : Z;
  ep_peer : Z;
  ep_channel : Z;
  ep_stage_id : Z;
  ep_member_slice_ids : gset Z;
  ep_src_ref : option PhysicalRef;
  ep_dst_ref : option PhysicalRef;
  ep_st_time : Z;
  ep_ed_time : Z;
}.

Definition ref_on (rank : Z) (ref : option PhysicalRef) : bool :=
  match ref with Some ref => pr_rank ref =? rank | None => false end.

(** The part of [EndpointAtom.__post_init__] on copies. *)
Definition check_copy_endpoint (self : EndpointAtom) : res unit :=
  raise_when (present (ep_atom self) || negb (bool_decide (ep_member_atoms self = [])) ||
              negb (bool_decide (ep_member_slice_ids self = ∅)))
    (SemanticError "copy endpoint must not contain transfer atoms");;
  raise_when (negb (ep_peer self =? -1) || negb (ep_channel self =? -1) ||
              negb (ep_stage_id self =? -1))
    (SemanticError "copy endpoint must use local sentinel fields");;
  raise_when (negb (present (ep_src_ref self)) || negb (present (ep_dst_ref self)))
    (SemanticError "copy endpoint requires both references");;
  raise_when (negb (ref_on (ep_rank self) (ep_src_ref self)) ||
              negb (ref_on (ep_rank self) (ep_dst_ref self)))
    (SemanticError "copy endpoint references use an incorrect rank").

(** The references of the two ends of a transfer, by their type. *)
Definition check_communication_refs (self : EndpointAtom) : res unit :=
  match ep_xml_type self with
  | SEND =>
      raise_when (negb (present (ep_src_ref self)) || present (ep_dst_ref self))
        (SemanticError "send endpoint references are invalid");;
      raise_when (negb (ref_on (ep_rank self) (ep_src_ref self)))
        (SemanticError "send source reference uses an incorrect rank")
  | RECV | RECV_REDUCE_COPY =>
      raise_when (present (ep_src_ref self) || negb (present (ep_dst_ref self)))
        (SemanticError "receive endpoint references are invalid");;
      raise_when (negb (ref_on (ep_rank self) (ep_dst_ref self)))
        (SemanticError "receive destination reference uses an incorrect rank")
  | _ => Err (SemanticError "unsupported communication endpoint type")
  end.

(** The part on the two ends of a transfer. *)
Definition check_communication_endpoint (self : EndpointAtom) : res unit :=
  raise_when (negb (bool_decide (ep_transfer_kind self ∈ ["SEND"; "REDUCE"]%string)))
    (SemanticError "communication endpoint kind is invalid");;
  integer_field (PInt (ep_peer self)) "endpoint.peer" 0;;
  integer_field (PInt (ep_channel self)) "endpoint.channel" 0;;
  integer_field (PInt (ep_stage_id self)) "endpoint.stage_id" 0;;
  raise_when (ep_peer self =? ep_rank self)
    (SemanticError "communication endpoint peer equals its rank");;
  raise_when (bool_decide (ep_member_atoms self = []) ||
              negb (bool_decide (ep_atom self = head (ep_member_atoms self))))
    (SemanticError "communication endpoint requires canonical atoms");;
  raise_when (negb (bool_decide
      (list_to_set (at_slice_id <$> ep_member_atoms self) = ep_member_slice_ids self)))
    (SemanticError "endpoint atoms do not match member slices");;
  check_communication_refs self.

Definition EndpointAtom_init (endpoint_id : string) (atom : option Atom)
    (member_atoms : list Atom) (transfer_id transfer_kind : string) (xml_type : EndpointType)
    (rank peer channel stage_id : Z) (member_slice_ids : gset Z)
    (src_ref dst_ref : option PhysicalRef) (st_time ed_time : pyval) : res EndpointAtom :=
  identifier_field (PStr endpoint_id) "endpoint.endpoint_id";;
  identifier_field (PStr transfer_id) "endpoint.transfer_id";;
  integer_field (PInt rank) "endpoint.rank" 0;;
  st ← time_field st_time "endpoint.st_time";
  ed ← time_field ed_time "endpoint.ed_time";
  raise_when (ed <? st) (SemanticError "endpoint start must not exceed end");;
  let self := MkEndpointAtom endpoint_id atom member_atoms transfer_id transfer_kind xml_type
                rank peer channel stage_id member_slice_ids src_ref dst_ref st ed in
  (if decide (xml_type = COPY) then check_copy_endpoint self
   else check_communication_endpoint self);;
  Ok self.

Definition is_receive (t : EndpointType) : bool :=
  match t with RECV | RECV_REDUCE_COPY => true | _ => false end.

Definition find_endpoint (p : EndpointType → bool) (pair : list EndpointAtom)
    : option EndpointAtom :=
  head (filter (λ endpoint, Is_true (p (ep_xml_type endpoint))) pair).

(** The fields that the two ends of a transfer share. *)
Definition comparable (e : EndpointAtom) : string * Z * Z * gset Z * list Atom * Z * Z :=
  (ep_transfer_kind e, ep_channel e, ep_stage_id e, ep_member_slice_ids e,
   ep_member_atoms e, ep_st_time e, ep_ed_time e).

(** The receive type that goes with a transfer kind. *)
Definition expected_recv (kind : string) : EndpointType :=
  if decide (kind = "REDUCE"%string) then RECV_REDUCE_COPY else RECV.

Definition _validate_pair (transfer_id : string) (pair : list EndpointAtom) : res unit :=
  raise_when (negb (length pair =? 2)%nat)
    (SemanticError "physical transfer must have exactly two endpoints");;
  match find_endpoint (λ t, bool_decide (t = SEND)) pair, find_endpoint is_receive pair with
  | Some send, Some recv =>
      raise_when (negb (bool_decide (ep_transfer_id send = transfer_id)) ||
                  negb (bool_decide (ep_transfer_id recv = transfer_id)))
        (SemanticError "endpoint pair transfer IDs differ");;
      raise_when (negb (ep_rank send =? ep_peer recv) || negb (ep_rank recv =? ep_peer send))
        (SemanticError "endpoint pair ranks are not opposite");;
      raise_when (negb (bool_decide (comparable send = comparable recv)))
        (SemanticError "endpoint pair metadata differs");;
      raise_when (negb (bool_decide (ep_xml_type recv = expected_recv (ep_transfer_kind send))))
        (SemanticError "endpoint pair receive type is incorrect")
  | _, _ => Err (SemanticError "physical transfer endpoint types are incompatible")
  end.

Record EndpointProgram : Type := MkEndpointProgram {
  epp_endpoints : list EndpointAtom;
  epp_by_transfer_id : list (string * list EndpointAtom);
  epp_local_endpoints : list (string * EndpointAtom);
}.

Definition EndpointProgram_init (endpoints : list EndpointAtom)
    (by_transfer_id : list (string * list EndpointAtom))
    (local_endpoints : list (string * EndpointAtom)) : res EndpointProgram :=
  raise_when (negb (bool_decide (NoDup (ep_endpoint_id <$> endpoints))))
    (SemanticError "endpoint IDs must be unique");;
  iterM (λ '(transfer_id, ends), _validate_pair transfer_id ends) by_transfer_id;;
  raise_when (negb (bool_decide
      ((list_to_set by_transfer_id.*1 : gset string) ∩ list_to_set local_endpoints.*1 = ∅)))
    (SemanticError "transfer and local endpoint IDs must be disjoint");;
  iterM (λ '(copy_id, endpoint),
    raise_when (negb (bool_decide (ep_transfer_id endpoint = copy_id)) ||
                negb (bool_decide (ep_xml_type endpoint = COPY)))
      (SemanticError "local endpoint mapping is invalid")) local_endpoints;;
  raise_when (negb (bool_decide
      ((list_to_set (ep_endpoint_id <$> endpoints) : gset string) =
       list_to_set (ep_endpoint_id <$> concat by_transfer_id.*2) ∪
       list_to_set (ep_endpoint_id <$> local_endpoints.*2))))
    (SemanticError "endpoint program mappings do not cover endpoints");;
  Ok (MkEndpointProgram endpoints by_transfer_id local_endpoints).

(** One pass of the loop of [lower_endpoints] over the transfers. *)
Definition lower_transfer (buffers : BufferPlan)
    (st : list (string * list EndpointAtom) * list EndpointAtom) (transfer : Transfer)
    : res (list (string * list EndpointAtom) * list EndpointAtom) :=
  let '(pairs, endpoints) := st in
  let transfer_id := tr_id transfer in
  src_ref ← of_option (dict_get transfer_id (bp_transfer_src_refs buffers))
    (SemanticError "transfer source reference is missing");
  dst_ref ← of_option (dict_get transfer_id (bp_transfer_dst_refs buffers))
    (SemanticError "transfer destination reference is missing");
  let atoms := tr_atoms transfer in
  atom ← index_error (head atoms);
  send ← EndpointAtom_init (transfer_id +:+ ":s") (Some atom) atoms transfer_id
    (tr_kind transfer) SEND (tr_src transfer) (tr_dst transfer) (tr_channel transfer)
    (tr_stage transfer) (tr_members transfer) (Some src_ref) None
    (PFloat (Finite (tr_st transfer))) (PFloat (Finite (tr_ed transfer)));
  recv ← EndpointAtom_init (transfer_id +:+ ":recv") (Some atom) atoms transfer_id
    (tr_kind transfer)
    (if decide (tr_kind transfer = "REDUCE"%string) then RECV_REDUCE_COPY else RECV)
    (tr_dst transfer) (tr_src transfer) (tr_channel transfer)
    (tr_stage transfer) (tr_members transfer) None (Some dst_ref)
    (PFloat (Finite (tr_st transfer))) (PFloat (Finite (tr_ed transfer)));
  let pair := [send; recv] in
  _validate_pair transfer_id pair;;
  Ok (dict_set transfer_id pair pairs, endpoints ++ pair).

(** One pass of the loop over the local copies. *)
Definition lower_copy (st : list (string * EndpointAtom) * list EndpointAtom)
    (copy : LocalCopy) : res (list (string * EndpointAtom) * list EndpointAtom) :=
  let '(local, endpoints) := st in
  endpoint ← EndpointAtom_init (lc_copy_id copy +:+ ":copy") None [] (lc_copy_id copy) "COPY"
    COPY (lc_rank copy) (-1) (-1) (-1) ∅ (Some (lc_src_ref copy)) (Some (lc_dst_ref copy))
    (PFloat (lc_st_time copy)) (PFloat (lc_ed_time copy));
  Ok (dict_set (lc_copy_id copy) endpoint local, endpoints ++ [endpoint]).

Definition lower_endpoints (schedule : Schedule) (buffers : BufferPlan)
    : res EndpointProgram :=
  '(pairs, endpoints) ← foldM (lower_transfer buffers) ([], []) (sc_transfers schedule);
  '(local, endpoints) ← foldM lower_copy ([], endpoints) (bp_local_copies buffers);
  EndpointProgram_init endpoints pairs local.
