(* ===== verification/EndpointLaws.v ===== *)
(** * Laws of endpoint lowering

    [lower_endpoints] against a declarative description of the program it
    builds, and what every endpoint program satisfies. *)

From S2P Require Import Prelude.
From S2P Require Import Python.
From S2P Require Import Atom.
From S2P Require Import AtomLaws.
From S2P Require Import XmlModel.
From S2P Require Import Endpoints.
Local Open Scope Z_scope.

(** ** Endpoint identifiers *)

Lemma ascii_list_app (s t : string) :
  String.list_ascii_of_string (s +:+ t) =
  String.list_ascii_of_string s ++ String.list_ascii_of_string t.
Proof. induction s as [|a s IH]; simpl; [done|]. by rewrite IH. Qed.

Lemma ascii_list_inj (s t : string) :
  String.list_ascii_of_string s = String.list_ascii_of_string t → s = t.
Proof.
  intros H. by rewrite <- (String.string_of_list_ascii_of_string s), H,
    String.string_of_list_ascii_of_string.
Qed.

Lemma suffix_inj (u s t : string) : s +:+ u = t +:+ u → s = t.
Proof.
  intros H. apply ascii_list_inj. apply (f_equal String.list_ascii_of_string) in H.
  rewrite !ascii_list_app in H. by apply app_inv_tail in H.
Qed.

#[export] Instance suffix_Inj u : Inj (=) (=) (λ s, s +:+ u).
Proof. intros s t. apply suffix_inj. Qed.

Lemma suffix_last (s t u v : string) :
  s +:+ u = t +:+ v → u ≠ EmptyString → v ≠ EmptyString →
  last (String.list_ascii_of_string u) = last (String.list_ascii_of_string v).
Proof.
  intros H Hu Hv. apply (f_equal (λ s, last (String.list_ascii_of_string s))) in H.
  rewrite !ascii_list_app, !last_app in H.
  destruct (last (String.list_ascii_of_string u)) eqn:E1;
    [|apply last_None in E1; by destruct u].
  destruct (last (String.list_ascii_of_string v)) eqn:E2;
    [congruence|apply last_None in E2; by destruct v].
Qed.

(** The identifiers of a program: two per transfer, one per copy. *)
Definition endpoint_ids (transfer_ids copy_ids : list string) : list string :=
  (i ← transfer_ids; [i +:+ ":s"; i +:+ ":recv"]) ++ ((λ i, i +:+ ":copy") <$> copy_ids).

Lemma endpoint_ids_NoDup ts cs : NoDup ts → NoDup (endpoint_ids ts cs) ↔ NoDup cs.
Proof.
  intros Hts. unfold endpoint_ids. rewrite NoDup_app. split.
  - intros (_ & _ & H). by apply NoDup_fmap_1 in H.
  - intros Hcs. split_and!.
    + induction Hts as [|i ts Hi Hts IH]; csimpl; [constructor|].
      assert (H : ∀ j u, j = ":s"%string ∨ j = ":recv"%string → i +:+ j = u →
        u ∉ (i ← ts; [i +:+ ":s"; i +:+ ":recv"])).
      { intros j u Hj <- (k & Hk & Hin)%list_elem_of_bind.
        rewrite !elem_of_cons, elem_of_nil in Hk. destruct Hk as [Hk|[Hk|[]]]; destruct Hj as [-> | ->];
          try (apply suffix_inj in Hk; congruence);
          apply suffix_last in Hk; by vm_compute in Hk. }
      constructor.
      * rewrite elem_of_cons. intros [Hk|Hk]; [by apply suffix_last in Hk|].
        by apply (H ":s"%string _) in Hk; auto.
      * constructor; [|done]. apply (H ":recv"%string); auto.
    + intros x (i & Hx & _)%list_elem_of_bind (j & -> & _)%list_elem_of_fmap.
      rewrite !elem_of_cons, elem_of_nil in Hx.
      destruct Hx as [Hx|[Hx|[]]]; apply suffix_last in Hx; by vm_compute in Hx.
    + by apply NoDup_fmap_2; [apply _|].
Qed.

(** ** The program that a schedule and a buffer plan describe *)

Definition send_of (t : Transfer) (ref : PhysicalRef) : EndpointAtom :=
  MkEndpointAtom (tr_id t +:+ ":s") (head (tr_atoms t)) (tr_atoms t) (tr_id t) (tr_kind t)
    SEND (tr_src t) (tr_dst t) (tr_channel t) (tr_stage t) (tr_members t) (Some ref) None
    (tr_st t) (tr_ed t).

Definition recv_of (t : Transfer) (ref : PhysicalRef) : EndpointAtom :=
  MkEndpointAtom (tr_id t +:+ ":recv") (head (tr_atoms t)) (tr_atoms t) (tr_id t) (tr_kind t)
    (expected_recv (tr_kind t)) (tr_dst t) (tr_src t) (tr_channel t) (tr_stage t)
    (tr_members t) None (Some ref) (tr_st t) (tr_ed t).

Definition copy_of (c : LocalCopy) (st ed : Z) : EndpointAtom :=
  MkEndpointAtom (lc_copy_id c +:+ ":copy") None [] (lc_copy_id c) "COPY" COPY (lc_rank c)
    (-1) (-1) (-1) ∅ (Some (lc_src_ref c)) (Some (lc_dst_ref c)) st ed.

(** The two ends of a transfer: its references exist and lie on its ranks. *)
Definition transfer_ends (b : BufferPlan) (t : Transfer) (ends : list EndpointAtom) : Prop :=
  ∃ src dst,
    dict_get (tr_id t) (bp_transfer_src_refs b) = Some src ∧ pr_rank src = tr_src t ∧
    dict_get (tr_id t) (bp_transfer_dst_refs b) = Some dst ∧ pr_rank dst = tr_dst t ∧
    ends = [send_of t src; recv_of t dst].

(** The endpoint of a copy, whose times must be finite. *)
Definition copy_end (c : LocalCopy) (e : EndpointAtom) : Prop :=
  ∃ st ed, lc_st_time c = Finite st ∧ lc_ed_time c = Finite ed ∧ e = copy_of c st ed.

(** What [LocalCopy_init] guarantees. *)
Record copy_wf (c : LocalCopy) : Prop := {
  cw_id : lc_copy_id c ≠ EmptyString;
  cw_rank : 0 ≤ lc_rank c;
  cw_src : pr_rank (lc_src_ref c) = lc_rank c;
  cw_dst : pr_rank (lc_dst_ref c) = lc_rank c;
  cw_nonneg st : lc_st_time c = Finite st → 0 ≤ st;
  cw_nonneg_ed ed : lc_ed_time c = Finite ed → 0 ≤ ed;
  cw_order : float_ltb (lc_ed_time c) (lc_st_time c) = false;
}.

Lemma xml_time_nonneg v f t : _time v f = Ok (Finite t) → 0 ≤ t.
Proof.
  unfold _time. intros H. inv_res. bool_prop. subst. simpl in *. by bool_prop.
Qed.

Lemma LocalCopy_init_wf id rank src dst pred st ed reason c :
  LocalCopy_init id rank src dst pred st ed reason = Ok c →
  copy_wf c ∧ lc_copy_id c = id ∧ lc_rank c = rank ∧ lc_src_ref c = src ∧ lc_dst_ref c = dst.
Proof.
  unfold LocalCopy_init. intros H. inv_res. subst. bool_prop.
  repeat match goal with
  | H : identifier_field _ _ = Ok _ |- _ => apply identifier_field_Ok in H as [[= <-] ?]
  | H : integer_field _ _ _ = Ok _ |- _ => apply integer_field_Ok in H as [[= <-] ?]
  end.
  split; [|done]. constructor; simpl; try done.
  all: intros t ->; by eapply xml_time_nonneg.
Qed.

(** ** The constructors on these endpoints *)

Lemma append_nonempty (s t : string) : s ≠ EmptyString → s +:+ t ≠ EmptyString.
Proof. by destruct s. Qed.

Lemma identifier_field_str s f : s ≠ EmptyString → identifier_field (PStr s) f = Ok s.
Proof. intros. by apply identifier_field_Ok. Qed.

Lemma time_field_finite t f : 0 ≤ t → time_field (PFloat (Finite t)) f = Ok t.
Proof. intros. by apply time_field_float. Qed.

Lemma transfer_wf_kind t : transfer_wf t → tr_kind t ∈ ["SEND"; "REDUCE"]%string.
Proof. intros Hw. pose proof (tw_kind t Hw) as Hk. revert Hk. unfold _TRANSFER_KINDS. rewrite !elem_of_cons. tauto. Qed.

(** A communication endpoint of a transfer passes every check but the one on
    its references. *)
Lemma communication_endpoint_init t suffix ty rank peer src dst :
  transfer_wf t → (rank, peer) = (tr_src t, tr_dst t) ∨ (rank, peer) = (tr_dst t, tr_src t) →
  ty ≠ COPY →
  EndpointAtom_init (tr_id t +:+ suffix) (head (tr_atoms t)) (tr_atoms t) (tr_id t) (tr_kind t)
    ty rank peer (tr_channel t) (tr_stage t) (tr_members t) src dst
    (PFloat (Finite (tr_st t))) (PFloat (Finite (tr_ed t))) =
  let self := MkEndpointAtom (tr_id t +:+ suffix) (head (tr_atoms t)) (tr_atoms t) (tr_id t)
    (tr_kind t) ty rank peer (tr_channel t) (tr_stage t) (tr_members t) src dst
    (tr_st t) (tr_ed t) in
  check_communication_refs self;; Ok self.
Proof.
  intros Hw Hr Hty. destruct (Hw) as [Hid _ (Hs & Hd & Hsd) Hch Hst Ht _ _ Hm Hne _ _ _].
  pose proof (transfer_wf_kind t Hw) as Hk.
  assert (0 ≤ rank ∧ 0 ≤ peer ∧ peer ≠ rank) as (? & ? & ?)
    by (destruct Hr as [[= -> ->]|[= -> ->]]; auto).
  unfold EndpointAtom_init. cbv zeta.
  rewrite !identifier_field_str by (try apply append_nonempty; done).
  rewrite !integer_field_int, !time_field_finite by lia. cbn [mbind res_bind].
  rewrite (proj2 (Z.ltb_ge _ _)) by lia. cbn [raise_when mbind res_bind].
  rewrite decide_False by done. unfold check_communication_endpoint; cbn -[check_communication_refs integer_field raise_when].
  rewrite !integer_field_int, (bool_decide_eq_true_2 _ Hk), (bool_decide_eq_false_2 _ Hne) by done.
  cbn -[check_communication_refs]. rewrite (proj2 (Z.eqb_neq peer rank)) by done.
  rewrite !bool_decide_eq_true_2; [done|reflexivity|].
  apply set_eq. intros s. rewrite elem_of_list_to_set, list_elem_of_fmap, Hm. naive_solver.
Qed.

Lemma send_init t ref :
  transfer_wf t →
  EndpointAtom_init (tr_id t +:+ ":s") (head (tr_atoms t)) (tr_atoms t) (tr_id t) (tr_kind t)
    SEND (tr_src t) (tr_dst t) (tr_channel t) (tr_stage t) (tr_members t) (Some ref) None
    (PFloat (Finite (tr_st t))) (PFloat (Finite (tr_ed t))) =
  if pr_rank ref =? tr_src t then Ok (send_of t ref)
  else Err (SemanticError "send source reference uses an incorrect rank").
Proof.
  intros Hw. rewrite communication_endpoint_init by auto. cbn.
  by destruct (pr_rank ref =? tr_src t).
Qed.

Lemma recv_init t ref :
  transfer_wf t →
  EndpointAtom_init (tr_id t +:+ ":recv") (head (tr_atoms t)) (tr_atoms t) (tr_id t) (tr_kind t)
    (expected_recv (tr_kind t)) (tr_dst t) (tr_src t) (tr_channel t) (tr_stage t)
    (tr_members t) None (Some ref)
    (PFloat (Finite (tr_st t))) (PFloat (Finite (tr_ed t))) =
  if pr_rank ref =? tr_dst t then Ok (recv_of t ref)
  else Err (SemanticError "receive destination reference uses an incorrect rank").
Proof.
  intros Hw. rewrite communication_endpoint_init; [|done|auto|unfold expected_recv; by case_decide].
  unfold recv_of, check_communication_refs, expected_recv. case_decide; cbn;
    by destruct (pr_rank ref =? tr_dst t).
Qed.

Lemma copy_init c e :
  copy_wf c →
  EndpointAtom_init (lc_copy_id c +:+ ":copy") None [] (lc_copy_id c) "COPY" COPY (lc_rank c)
    (-1) (-1) (-1) ∅ (Some (lc_src_ref c)) (Some (lc_dst_ref c))
    (PFloat (lc_st_time c)) (PFloat (lc_ed_time c)) = Ok e ↔ copy_end c e.
Proof.
  intros [Hid Hr Hs Hd Hn1 Hn2 Ho]. unfold EndpointAtom_init, copy_end. cbv zeta.
  rewrite !identifier_field_str, integer_field_int by (try apply append_nonempty; done).
  cbn [mbind res_bind]. split.
  - intros H. inv_res. repeat match goal with H : time_field _ _ = Ok _ |- _ =>
      apply time_field_float in H as [? ?] end. subst. eauto.
  - intros (st & ed & Est & Eed & ->). rewrite Est, Eed in *.
    rewrite !time_field_finite by eauto. simpl in Ho. cbn -[copy_of].
    rewrite Ho. cbn -[copy_of]. unfold check_copy_endpoint; cbn.
    by rewrite Hs, Hd, !Z.eqb_refl.
Qed.

Lemma validate_pair_ends t src dst :
  _validate_pair (tr_id t) [send_of t src; recv_of t dst] = Ok tt.
Proof.
  assert (Hrec : expected_recv (tr_kind t) ≠ SEND ∧ is_receive (expected_recv (tr_kind t)) = true)
    by (unfold expected_recv; by case_decide).
  destruct Hrec as [Hns Hrec].
  assert (find_endpoint (λ x, bool_decide (x = SEND)) [send_of t src; recv_of t dst]
    = Some (send_of t src)) as E1.
  { unfold find_endpoint. by rewrite filter_cons_True. }
  assert (find_endpoint is_receive [send_of t src; recv_of t dst] = Some (recv_of t dst)) as E2.
  { unfold find_endpoint. rewrite filter_cons_False by (by intros []).
    rewrite filter_cons_True; [done|]. simpl. by rewrite Hrec. }
  unfold _validate_pair. rewrite E1, E2. cbn -[comparable].
  rewrite !Z.eqb_refl, !bool_decide_eq_true_2 by done. done.
Qed.

(** ** The loops *)

Lemma lower_transfer_Ok b pairs eps t st :
  transfer_wf t →
  lower_transfer b (pairs, eps) t = Ok st ↔
  ∃ ends, transfer_ends b t ends ∧ st = (dict_set (tr_id t) ends pairs, eps ++ ends).
Proof.
  intros Hw. unfold lower_transfer, transfer_ends.
  destruct (tr_atoms t) as [|a l] eqn:Ha; [by apply (tw_nonempty t Hw) in Ha|].
  rewrite <- Ha. cbv zeta.
  replace (if decide (tr_kind t = "REDUCE"%string) then RECV_REDUCE_COPY else RECV)
    with (expected_recv (tr_kind t)) by reflexivity.
  assert (index_error (head (tr_atoms t)) = Ok a) as -> by (by rewrite Ha).
  destruct (dict_get _ (bp_transfer_src_refs b)) as [src|] eqn:Es;
    cbn [of_option mbind res_bind]; [|by split; [|naive_solver]].
  destruct (dict_get _ (bp_transfer_dst_refs b)) as [dst|] eqn:Ed;
    cbn [of_option mbind res_bind]; [|by split; [|naive_solver]].
  replace (Some a) with (head (tr_atoms t)) by (by rewrite Ha).
  rewrite send_init, recv_init by done. split.
  - intros H. destruct (Z.eqb_spec (pr_rank src) (tr_src t)); [|done].
    destruct (Z.eqb_spec (pr_rank dst) (tr_dst t)); [|done].
    cbn [mbind res_bind] in H. rewrite validate_pair_ends in H. injection H as <-. eauto 10.
  - intros (ends & (src' & dst' & [= <-] & E1 & [= <-] & E2 & ->) & ->).
    rewrite (proj2 (Z.eqb_eq _ _) E1), (proj2 (Z.eqb_eq _ _) E2). cbn [mbind res_bind].
    by rewrite validate_pair_ends.
Qed.

Lemma lower_copy_Ok local eps c st :
  copy_wf c →
  lower_copy (local, eps) c = Ok st ↔
  ∃ e, copy_end c e ∧ st = (dict_set (lc_copy_id c) e local, eps ++ [e]).
Proof.
  intros Hw. unfold lower_copy. rewrite bind_Ok. setoid_rewrite copy_init; [|done].
  naive_solver.
Qed.

(** Both loops fill a dictionary and a list, one element at a time. *)
Lemma lower_loop {A V} (P : A → Prop) (key : A → string) (f : A → V → Prop)
    (flat : V → list EndpointAtom)
    (step : list (string * V) * list EndpointAtom → A →
            res (list (string * V) * list EndpointAtom)) :
  (∀ x d eps st, P x → step (d, eps) x = Ok st ↔
     ∃ v, f x v ∧ st = (dict_set (key x) v d, eps ++ flat v)) →
  ∀ l d eps st, Forall P l → foldM step (d, eps) l = Ok st ↔
    ∃ vs, Forall2 f l vs ∧
      st = (foldl (λ d kv, dict_set kv.1 kv.2 d) d (zip (key <$> l) vs), eps ++ (vs ≫= flat)).
Proof.
  intros Hstep l. induction l as [|x l IH]; intros d eps st Hl; cbn [foldM].
  - split.
    + intros [= <-]. exists []. split; [constructor|]. by rewrite app_nil_r.
    + intros (vs & ->%Forall2_nil_inv_l & ->). csimpl. by rewrite app_nil_r.
  - apply Forall_cons in Hl as [Hx Hl]. rewrite bind_Ok. split.
    + intros ([d1 e1] & H1 & H2). apply Hstep in H1 as (v & Hv & [= -> ->]); [|done].
      apply IH in H2 as (vs & Hvs & ->); [|done]. exists (v :: vs). split; [by constructor|].
      csimpl. by rewrite <- app_assoc.
    + intros (vs' & (v & vs & Hv & Hvs & ->)%Forall2_cons_inv_l & ->).
      exists (dict_set (key x) v d, eps ++ flat v). split; [apply Hstep; eauto|].
      apply IH; [done|]. exists vs. split; [done|]. csimpl. by rewrite <- app_assoc.
Qed.

(** ** The program *)

(** What lowering must build: the ends of the transfers in order, then the
    copies, with identifiers that do not clash. *)
Definition lowering (s : Schedule) (b : BufferPlan) (p : EndpointProgram) : Prop :=
  ∃ ends copies,
    Forall2 (transfer_ends b) (sc_transfers s) ends ∧
    Forall2 copy_end (bp_local_copies b) copies ∧
    NoDup (lc_copy_id <$> bp_local_copies b) ∧
    (∀ i, i ∈ tr_id <$> sc_transfers s → i ∉ lc_copy_id <$> bp_local_copies b) ∧
    p = MkEndpointProgram (concat ends ++ copies) (zip (tr_id <$> sc_transfers s) ends)
          (zip (lc_copy_id <$> bp_local_copies b) copies).

Lemma bind_id_concat {A} (l : list (list A)) : l ≫= id = concat l.
Proof. induction l as [|x l IH]; csimpl; [done|]. by rewrite IH. Qed.

Lemma bind_singleton {A} (l : list A) : (l ≫= λ x, [x]) = l.
Proof. induction l as [|x l IH]; csimpl; [done|]. by rewrite IH. Qed.

Lemma zip_fst {A B} (l : list A) (k : list B) : length l = length k → (zip l k).*1 = l.
Proof. intros. apply fst_zip. lia. Qed.
Lemma zip_snd {A B} (l : list A) (k : list B) : length l = length k → (zip l k).*2 = k.
Proof. intros. apply snd_zip. lia. Qed.

Lemma elem_of_zip_map {A B C} (f : A → B) (R : A → C → Prop) l k x y :
  Forall2 R l k → (x, y) ∈ zip (f <$> l) k → ∃ a, a ∈ l ∧ x = f a ∧ R a y.
Proof.
  induction 1 as [|a c l k Hac Hlk IH]; csimpl; [by rewrite elem_of_nil|].
  rewrite elem_of_cons. intros [[= -> ->]|Hin].
  - exists a. split; [by left|done].
  - destruct (IH Hin) as (a' & ? & ? & ?). exists a'. split; [by right|done].
Qed.

Lemma ends_ids b ts ends :
  Forall2 (transfer_ends b) ts ends →
  ep_endpoint_id <$> concat ends = (i ← tr_id <$> ts; [i +:+ ":s"; i +:+ ":recv"]).
Proof.
  induction 1 as [|t e ts ends (src & dst & _ & _ & _ & _ & ->) _ IH]; csimpl; [done|].
  by rewrite IH.
Qed.

Lemma copies_ids cs copies :
  Forall2 copy_end cs copies →
  ep_endpoint_id <$> copies = (λ i, i +:+ ":copy") <$> (lc_copy_id <$> cs).
Proof.
  induction 1 as [|c e cs copies (st & ed & _ & _ & ->) _ IH]; csimpl; [done|]. by rewrite IH.
Qed.

Section program.
Context (b : BufferPlan) (ts : list Transfer) (cs : list LocalCopy).
Context (ends : list (list EndpointAtom)) (copies : list EndpointAtom).
Context (Hts : NoDup (tr_id <$> ts)).
Context (He : Forall2 (transfer_ends b) ts ends) (Hc : Forall2 copy_end cs copies).

Let tids := tr_id <$> ts.
Let cids := lc_copy_id <$> cs.

Lemma zip_tids : length tids = length ends.
Proof. unfold tids. rewrite length_fmap. by eapply Forall2_length. Qed.

Lemma zip_cids : length cids = length copies.
Proof. unfold cids. rewrite length_fmap. by eapply Forall2_length. Qed.

Lemma program_ids :
  ep_endpoint_id <$> (concat ends ++ copies) = endpoint_ids tids cids.
Proof. rewrite fmap_app, (ends_ids _ _ _ He), (copies_ids _ _ Hc). done. Qed.

Lemma pairs_valid :
  iterM (λ '(transfer_id, ends), _validate_pair transfer_id ends) (zip tids ends) = Ok tt.
Proof.
  apply iterM_Ok, Forall_forall. intros [i e] Hi.
  destruct (elem_of_zip_map _ _ _ _ _ _ He Hi) as (t & _ & -> & src & dst & _ & _ & _ & _ & ->).
  apply validate_pair_ends.
Qed.

Lemma locals_valid :
  iterM (λ '(copy_id, endpoint),
    raise_when (negb (bool_decide (ep_transfer_id endpoint = copy_id)) ||
                negb (bool_decide (ep_xml_type endpoint = COPY)))
      (SemanticError "local endpoint mapping is invalid")) (zip cids copies) = Ok tt.
Proof.
  apply iterM_Ok, Forall_forall. intros [i e] Hi.
  destruct (elem_of_zip_map _ _ _ _ _ _ Hc Hi) as (c & _ & -> & st & ed & _ & _ & ->).
  cbn. by rewrite bool_decide_eq_true_2.
Qed.

Lemma program_init_Ok p :
  EndpointProgram_init (concat ends ++ copies) (zip tids ends)
    (dict_of_list (zip cids copies)) = Ok p ↔
  NoDup cids ∧ (∀ i, i ∈ tids → i ∉ cids) ∧
  p = MkEndpointProgram (concat ends ++ copies) (zip tids ends) (zip cids copies).
Proof.
  unfold EndpointProgram_init. rewrite program_ids, pairs_valid. split.
  - intros H. inv_res. bool_prop. apply (endpoint_ids_NoDup tids cids Hts) in H.
    rewrite dict_of_list_nodup in * by (by rewrite (zip_fst cids copies zip_cids)).
    split; [done|]. split; [|congruence].
    rewrite !zip_fst in * by (apply zip_tids || apply zip_cids).
    intros i Hi Hi'. assert (i ∈ (∅ : gset string)); [|set_solver].
    match goal with H : _ ∩ _ = ∅ |- _ => rewrite <- H end.
    rewrite elem_of_intersection, !elem_of_list_to_set. done.
  - intros (Hnd & Hdis & ->).
    rewrite (bool_decide_eq_true_2 (NoDup (endpoint_ids _ _)))
      by (by apply (endpoint_ids_NoDup tids cids Hts)).
    rewrite dict_of_list_nodup by (by rewrite (zip_fst cids copies zip_cids)).
    rewrite !zip_fst, !zip_snd by (apply zip_tids || apply zip_cids).
    cbn [negb raise_when mbind res_bind]. rewrite locals_valid. cbn [mbind res_bind].
    rewrite !bool_decide_eq_true_2; [done| |].
    + apply set_eq. intros i. rewrite elem_of_intersection, !elem_of_list_to_set.
      set_solver.
    + rewrite <- program_ids, fmap_app, list_to_set_app_L. done.
Qed.
End program.

Lemma lower_endpoints_lowering s b p :
  NoDup (tr_id <$> sc_transfers s) → Forall transfer_wf (sc_transfers s) →
  Forall copy_wf (bp_local_copies b) →
  lower_endpoints s b = Ok p ↔ lowering s b p.
Proof.
  intros Hnd Hts Hcs. unfold lower_endpoints, lowering. rewrite bind_Ok.
  pose proof (lower_loop transfer_wf tr_id (transfer_ends b) id (lower_transfer b)
    (λ x d eps st Hx, lower_transfer_Ok b d eps x st Hx)) as L1.
  pose proof (lower_loop copy_wf lc_copy_id copy_end (λ e, [e]) lower_copy
    (λ x d eps st Hx, lower_copy_Ok d eps x st Hx)) as L2.
  assert (Hzip : ∀ ends, Forall2 (transfer_ends b) (sc_transfers s) ends →
    dict_of_list (zip (tr_id <$> sc_transfers s) ends) = zip (tr_id <$> sc_transfers s) ends).
  { intros ends He. apply dict_of_list_nodup. rewrite zip_fst; [done|].
    rewrite length_fmap. by eapply Forall2_length. }
  split.
  - intros ([pairs eps] & H1 & H2). apply L1 in H1 as (ends & He & [= -> ->]); [|done].
    apply bind_Ok in H2 as ([local eps'] & H2 & H3).
    apply L2 in H2 as (copies & Hc & [= -> ->]); [|done].
    fold (dict_of_list (zip (tr_id <$> sc_transfers s) ends)) in H3.
    rewrite Hzip, bind_id_concat, bind_singleton in H3 by done.
    apply (program_init_Ok _ _ _ _ _ Hnd He Hc) in H3 as (? & ? & ->). eauto 10.
  - intros (ends & copies & He & Hc & Hcn & Hdis & ->).
    eexists. split; [apply L1; eauto|]. cbv beta iota. rewrite bind_Ok.
    eexists. split; [apply L2; eauto|]. cbv beta iota.
    fold (dict_of_list (zip (tr_id <$> sc_transfers s) ends)).
    rewrite Hzip, bind_id_concat, bind_singleton by done.
    by apply (program_init_Ok _ _ _ _ _ Hnd He Hc).
Qed.

(** C38 Lowering a constructed schedule returns exactly when every transfer
    has a source reference on its source rank and a destination reference on
    its destination rank, every local copy has finite times, and copy
    identifiers are unique and name no transfer; and then the program is the
    one described by [lowering]: one send and one matching receive per
    transfer, in schedule order, then one copy endpoint per local copy. *)
Theorem lower_endpoints_exact s b p :
  NoDup (tr_id <$> sc_transfers s) → Forall transfer_wf (sc_transfers s) →
  Forall copy_wf (bp_local_copies b) →
  lower_endpoints s b = Ok p ↔ lowering s b p.
Proof. apply lower_endpoints_lowering. Qed.

(** ** A schedule of one transfer and one copy *)

Definition demo_copy : LocalCopy :=
  MkLocalCopy "c0" 1 (MkPhysicalRef 1 "s" 0 (Finite 0) PosInf)
    (MkPhysicalRef 1 "o" 0 (Finite 0) PosInf) "state" (Finite one_us) (Finite one_us) "output".

Definition demo_src : PhysicalRef := MkPhysicalRef 0 "i" 0 (Finite 0) PosInf.
Definition demo_dst : PhysicalRef := MkPhysicalRef 1 "s" 0 (Finite 0) PosInf.

Definition demo_buffers : BufferPlan :=
  MkBufferPlan [] [] [demo_copy] [] [] [] 1 [] [] [] []
    [("t0"%string, demo_src)] [("t0"%string, demo_dst)] [] [] [] [] [].

Lemma demo_copy_wf : copy_wf demo_copy.
Proof.
  refine (proj1 (LocalCopy_init_wf "c0" 1 (lc_src_ref demo_copy) (lc_dst_ref demo_copy) "state"
    (PInt 1) (PInt 1) "output" demo_copy _)). vm_compute. reflexivity.
Qed.

Lemma lower_endpoints_exact_witness :
  NoDup (tr_id <$> sc_transfers demo_schedule) ∧
  lower_endpoints demo_schedule demo_buffers = Ok (MkEndpointProgram
    [send_of demo_transfer demo_src; recv_of demo_transfer demo_dst;
     copy_of demo_copy one_us one_us]
    [("t0"%string, [send_of demo_transfer demo_src; recv_of demo_transfer demo_dst])]
    [("c0"%string, copy_of demo_copy one_us one_us)]).
Proof.
  assert (Hn : NoDup (tr_id <$> sc_transfers demo_schedule)) by apply NoDup_singleton.
  split; [exact Hn|].
  apply (lower_endpoints_exact demo_schedule demo_buffers).
  - exact Hn.
  - apply Forall_singleton. exact (proj1 demo_transfer_built).
  - apply Forall_singleton. exact demo_copy_wf.
  - exists [[send_of demo_transfer demo_src; recv_of demo_transfer demo_dst]],
      [copy_of demo_copy one_us one_us].
    split_and!.
    + apply Forall2_cons. split; [|constructor]. exists demo_src, demo_dst. split_and!; reflexivity.
    + apply Forall2_cons. split; [|constructor]. exists one_us, one_us. split_and!; reflexivity.
    + apply NoDup_singleton.
    + intros i ->%list_elem_of_singleton. vm_compute. by intros ?%list_elem_of_singleton.
    + reflexivity.
Defined.
