(* ===== verification/Threadblocks.v ===== *)
(** * Threadblocks ([vericcl/xml/threadblocks.py])

    Steps, the threadblocks that execute them in order, and the program of all
    threadblocks, with the checks of their constructors. *)

From S2P Require Import Prelude.
From S2P Require Import Python.
From S2P Require Import XmlModel.
From S2P Require Import Endpoints.
Local Open Scope Z_scope.

Record ThreadblockKey : Type := MkThreadblockKey {
  tk_rank : Z;
  tk_direction : string;
  tk_peer : Z;
  tk_channel : Z;
}.

Definition ThreadblockKey_init (rank : Z) (direction : string) (peer channel : Z)
    : res ThreadblockKey :=
  raise_when (rank <? 0) (SemanticError "threadblock rank must be a non-negative integer");;
  raise_when (negb (bool_decide (direction ∈ ["send"; "recv"; "copy"]%string)))
    (SemanticError "threadblock direction is invalid");;
  (if decide (direction = "copy"%string) then
     raise_when (negb (peer =? -1) || negb (channel =? -1))
       (SemanticError "copy threadblock must use local sentinels")
   else
     raise_when ((peer <? 0) || (channel <? 0) || (peer =? rank))
       (SemanticError "communication threadblock key is invalid"));;
  Ok (MkThreadblockKey rank direction peer channel).

Record XmlStep : Type := MkXmlStep {
  xs_step_id : string;
  xs_node_id : string;
  xs_transfer_id : string;
  xs_endpoint_id : option string;
  xs_xml_type : EndpointType;
  xs_rank : Z;
  xs_peer : Z;
  xs_channel : Z;
  xs_src_ref : option PhysicalRef;
  xs_dst_ref : option PhysicalRef;
  xs_dependency_step_id : option string;
  xs_has_dependence : bool;
  xs_semantic_predecessor_node_ids : list string;
  xs_member_slice_ids : gset Z;
  xs_solver_st_time : pyfloat;
  xs_solver_ed_time : pyfloat;
  xs_effective_st_time : pyfloat;
  xs_effective_ed_time : pyfloat;
}.

#[export] Instance XmlStep_eq_dec : EqDecision XmlStep.
Proof. solve_decision. Defined.

Definition XmlStep_init (self : XmlStep) : res XmlStep :=
  identifier_field (PStr (xs_step_id self)) "step_id";;
  identifier_field (PStr (xs_node_id self)) "node_id";;
  identifier_field (PStr (xs_transfer_id self)) "transfer_id";;
  (if decide (xs_xml_type self = NOP) then
     raise_when (present (xs_endpoint_id self) || present (xs_src_ref self) ||
                 present (xs_dst_ref self))
       (SemanticError "NOP must not contain an endpoint or buffer reference")
   else
     raise_when (negb (present (xs_endpoint_id self)))
       (SemanticError "non-NOP step requires an endpoint ID"));;
  Ok self.

Record Threadblock : Type := MkThreadblock {
  tb_key : ThreadblockKey;
  tb_tb_id : Z;
  tb_steps : list XmlStep;
}.

Definition allowed_types (direction : string) : res (list EndpointType) :=
  of_option (dict_get direction
    [("copy"%string, [COPY; NOP]); ("send"%string, [SEND; NOP]);
     ("recv"%string, [RECV; RECV_REDUCE_COPY; NOP])]) (KeyError direction).

Definition Threadblock_init (key : ThreadblockKey) (tb_id : Z) (steps : list XmlStep)
    : res Threadblock :=
  raise_when (tb_id <? 0) (SemanticError "threadblock ID must be a non-negative integer");;
  raise_when (existsb (λ step, negb (xs_rank step =? tk_rank key)) steps)
    (SemanticError "threadblock step rank is incorrect");;
  raise_when (existsb (λ step, negb (xs_peer step =? tk_peer key) ||
                               negb (xs_channel step =? tk_channel key)) steps)
    (SemanticError "threadblock step lane is incorrect");;
  allowed ← allowed_types (tk_direction key);
  raise_when (existsb (λ step, negb (bool_decide (xs_xml_type step ∈ allowed))) steps)
    (SemanticError "threadblock step direction is incorrect");;
  Ok (MkThreadblock key tb_id steps).

Definition send_peer (self : Threadblock) : Z :=
  if decide (tk_direction (tb_key self) = "send"%string) then tk_peer (tb_key self) else -1.

Definition recv_peer (self : Threadblock) : Z :=
  if decide (tk_direction (tb_key self) = "recv"%string) then tk_peer (tb_key self) else -1.

Record ThreadblockProgram : Type := MkThreadblockProgram {
  tp_threadblocks : list Threadblock;
  tp_steps_by_id : list (string * XmlStep);
  tp_transfer_steps : list (string * list string);
  tp_node_steps : list (string * list string);
  tp_referenced_step_ids : gset string;
  tp_inversion_count : Z;
}.

Definition block_id (tb : Threadblock) : Z * Z := (tk_rank (tb_key tb), tb_tb_id tb).

(** All steps, in program order. *)
Definition program_steps (threadblocks : list Threadblock) : list XmlStep :=
  tb ← threadblocks; tb_steps tb.

Definition check_step (actual_steps : list (string * XmlStep)) (referenced : gset string)
    (step : XmlStep) : res unit :=
  match xs_dependency_step_id step with
  | None => Ok tt
  | Some dependency_step_id =>
      dependency ← of_option (dict_get dependency_step_id actual_steps)
        (SemanticError "step dependency is missing");
      raise_when (negb (xs_rank dependency =? xs_rank step))
        (SemanticError "XML dependency crosses ranks")
  end;;
  raise_when (negb (eqb (xs_has_dependence step) (bool_decide (xs_step_id step ∈ referenced))))
    (SemanticError "step completion flag metadata is inconsistent").

(** Dictionaries compare as maps: [steps_by_id] is one here. *)
Definition ThreadblockProgram_init (threadblocks : list Threadblock)
    (steps_by_id : gmap string XmlStep) (transfer_steps node_steps : list (string * list string))
    (referenced_step_ids : gset string) (inversion_count : Z) : res ThreadblockProgram :=
  raise_when (negb (bool_decide (NoDup (block_id <$> threadblocks))))
    (SemanticError "threadblock IDs must be unique per rank");;
  let actual_steps :=
    dict_of_list ((λ step, (xs_step_id step, step)) <$> program_steps threadblocks) in
  raise_when (negb (length actual_steps =? sum_list (length ∘ tb_steps <$> threadblocks))%nat)
    (SemanticError "step IDs must be unique");;
  raise_when (negb (bool_decide (steps_by_id = list_to_map actual_steps)))
    (SemanticError "steps_by_id does not match threadblocks");;
  let known (step_ids : list string) :=
    bool_decide (list_to_set step_ids ⊆@{gset string} list_to_set actual_steps.*1) in
  iterM (λ step_ids, raise_when (negb (length step_ids =? 2)%nat || negb (known step_ids))
    (SemanticError "physical transfer must map to two steps")) transfer_steps.*2;;
  raise_when (existsb (λ step_ids, negb (known step_ids)) node_steps.*2)
    (SemanticError "node step mapping references a missing step");;
  raise_when (negb (bool_decide (referenced_step_ids ⊆ list_to_set actual_steps.*1)))
    (SemanticError "referenced step is missing");;
  iterM (check_step actual_steps referenced_step_ids) actual_steps.*2;;
  raise_when (inversion_count <? 0)
    (SemanticError "inversion_count must be a non-negative integer");;
  Ok (MkThreadblockProgram threadblocks actual_steps transfer_steps node_steps
        referenced_step_ids inversion_count).

Definition threadblock_for_step (self : ThreadblockProgram) (step_id : string)
    : res Threadblock :=
  raise_when (negb (present (dict_get step_id (tp_steps_by_id self))))
    (SemanticError "unknown step ID");;
  of_option (head (filter (λ tb,
      Is_true (existsb (λ step, bool_decide (xs_step_id step = step_id)) (tb_steps tb)))
    (tp_threadblocks self))) (ValueError "StopIteration").

(** ** What the constructor guarantees *)

Record program_wf (p : ThreadblockProgram) : Prop := {
  pw_blocks : NoDup (block_id <$> tp_threadblocks p);
  pw_steps : NoDup (xs_step_id <$> program_steps (tp_threadblocks p));
  pw_table : tp_steps_by_id p =
    (λ step, (xs_step_id step, step)) <$> program_steps (tp_threadblocks p);
  pw_transfers tid ids : (tid, ids) ∈ tp_transfer_steps p →
    ∃ s1 s2, ids = [s1; s2] ∧ is_Some (dict_get s1 (tp_steps_by_id p)) ∧
             is_Some (dict_get s2 (tp_steps_by_id p));
  pw_dependency step d :
    step ∈ program_steps (tp_threadblocks p) → xs_dependency_step_id step = Some d →
    ∃ dep, dict_get d (tp_steps_by_id p) = Some dep ∧ xs_rank dep = xs_rank step;
  pw_completion step : step ∈ program_steps (tp_threadblocks p) →
    xs_has_dependence step = true ↔ xs_step_id step ∈ tp_referenced_step_ids p;
}.

Lemma Threadblock_init_Ok key tb_id steps tb :
  Threadblock_init key tb_id steps = Ok tb →
  tb = MkThreadblock key tb_id steps ∧ ∀ step, step ∈ steps → xs_rank step = tk_rank key.
Proof.
  unfold Threadblock_init. intros H. inv_res. subst. split; [done|]. intros step Hin.
  match goal with H : existsb (λ step, negb (xs_rank step =? _)) _ = false |- _ => rename H into Hex end.
  destruct (Z.eq_dec (xs_rank step) (tk_rank key)) as [|Hne]; [done|]. exfalso.
  apply Z.eqb_neq in Hne. rewrite <- not_true_iff_false in Hex. apply Hex, existsb_exists.
  exists step. split; [by apply list_elem_of_In|by rewrite Hne].
Qed.

Lemma length_program_steps tbs :
  length (program_steps tbs) = sum_list (length ∘ tb_steps <$> tbs).
Proof. induction tbs as [|tb tbs IH]; csimpl; [done|]. by rewrite length_app, IH. Qed.

Lemma ThreadblockProgram_init_Ok tbs m ts ns refs inv p :
  ThreadblockProgram_init tbs m ts ns refs inv = Ok p →
  program_wf p ∧ tp_threadblocks p = tbs ∧ tp_transfer_steps p = ts.
Proof.
  unfold ThreadblockProgram_init. cbv zeta. intros H. inv_res. bool_prop. subst p; simpl.
  match goal with H : (_ =? _)%nat = true |- _ => apply Nat.eqb_eq in H;
    rewrite <- length_program_steps in H; rename H into Hlen end.
  assert (Hnd : NoDup (xs_step_id <$> program_steps tbs)).
  { rewrite <- (length_fmap (λ step, (xs_step_id step, step))) in Hlen.
    apply dict_of_list_full_length in Hlen. by rewrite <- list_fmap_compose in Hlen. }
  rewrite dict_of_list_nodup in * by (by rewrite <- list_fmap_compose).
  repeat match goal with H : iterM _ _ = Ok _ |- _ =>
    apply iterM_Ok in H; rewrite Forall_forall in H end.
  split; [|done]. constructor; simpl; [done..| | |].
  - intros tid ids Hin.
    assert (Hids : ids ∈ ts.*2) by (apply list_elem_of_fmap; by exists (tid, ids)).
    match goal with H : ∀ x, x ∈ ts.*2 → _ |- _ => pose proof (H ids Hids) as E end.
    inv_res. bool_prop.
    destruct ids as [|s1 [|s2 [|]]]; try done.
    exists s1, s2. rewrite !dict_get_is_Some. set_solver.
  - intros step d Hin Hd.
    match goal with H : ∀ x, x ∈ _ → check_step _ _ _ = _ |- _ =>
      specialize (H step ltac:(by rewrite <- list_fmap_compose, list_fmap_id));
      unfold check_step in H; rewrite Hd in H; rename H into Hst end.
    inv_res. bool_prop. eauto.
  - intros step Hin.
    match goal with H : ∀ x, x ∈ _ → check_step _ _ _ = _ |- _ =>
      specialize (H step ltac:(by rewrite <- list_fmap_compose, list_fmap_id));
      unfold check_step in H; apply bind_Ok in H as ([] & _ & Hst) end.
    inv_res. bool_prop. apply eqb_prop in Hst. rewrite Hst. apply bool_decide_eq_true.
Qed.
