(* ===== verification/Deadlock.v ===== *)
(** * Endpoint execution and deadlock ([vericcl/xml/deadlock.py])

    [simulate_endpoint_execution] runs the threadblocks of a program in
    rounds.  [exec_step] is the execution it stands for: any threadblock may
    perform a local head, and the two ends of a transfer fire together. *)

From stdpp Require Import relations.
From S2P Require Import Prelude.
From S2P Require Import Python.
From S2P Require Import Endpoints.
From S2P Require Import Threadblocks.
Local Open Scope Z_scope.

Record DeadlockResult : Type := MkDeadlockResult {
  dr_deadlocked : bool;
  dr_completed_step_ids : gset string;
  dr_blocked_transfer_ids : gset string;
  dr_tb_heads : list ((Z * Z) * string);
}.

(** The mutable locals [positions] and [completed]. *)
Record ExecState : Type := MkExecState {
  es_positions : gmap (Z * Z) nat;
  es_completed : gset string;
}.

Section simulation.
Context (program : ThreadblockProgram).

Definition blocks : list ((Z * Z) * Threadblock) :=
  dict_of_list ((λ tb, (block_id tb, tb)) <$> tp_threadblocks program).

Definition initial_state : ExecState :=
  MkExecState (list_to_map ((λ tb, (block_id tb, 0%nat)) <$> tp_threadblocks program)) ∅.

(** [block.steps[positions[key]]], when there is a step left. *)
Definition head_step (s : ExecState) (block : (Z * Z) * Threadblock) : option XmlStep :=
  position ← es_positions s !! block.1;
  tb_steps block.2 !! position.

Definition heads (s : ExecState) : list ((Z * Z) * XmlStep) :=
  omap (λ block, step ← head_step s block; Some (block.1, step)) blocks.

Definition dependency_ready (s : ExecState) (step : XmlStep) : bool :=
  match xs_dependency_step_id step with
  | None => true
  | Some d => bool_decide (d ∈ es_completed s)
  end.

Definition is_local (step : XmlStep) : bool :=
  match xs_xml_type step with COPY | NOP => true | _ => false end.

Definition is_communication (step : XmlStep) : bool :=
  match xs_xml_type step with SEND | RECV | RECV_REDUCE_COPY => true | _ => false end.

(** [completed.add(step.step_id); positions[key] += 1] *)
Definition advance (s : ExecState) (head : (Z * Z) * XmlStep) : ExecState :=
  MkExecState (alter S head.1 (es_positions s)) ({[xs_step_id head.2]} ∪ es_completed s).

(** The loop over local heads. *)
Definition local_step (st : ExecState * bool) (head : (Z * Z) * XmlStep) : ExecState * bool :=
  let '(s, progressed) := st in
  if is_local head.2 && dependency_ready s head.2 then (advance s head, true)
  else (s, progressed).

(** [all(dependency_ready(program.steps_by_id[step_id]) for ...)] *)
Fixpoint all_ready (s : ExecState) (step_ids : list string) : res bool :=
  match step_ids with
  | [] => Ok true
  | step_id :: step_ids =>
      step ← of_option (dict_get step_id (tp_steps_by_id program)) (KeyError step_id);
      if dependency_ready s step then all_ready s step_ids else Ok false
  end.

(** The loop over transfers, on the heads [current]. *)
Definition transfer_step (current : list ((Z * Z) * XmlStep)) (st : ExecState * bool)
    (transfer : string * list string) : res (ExecState * bool) :=
  let '(s, progressed) := st in
  let '(_, step_ids) := transfer in
  ready ← (if bool_decide (list_to_set step_ids ⊆@{gset string}
                             list_to_set ((λ head, xs_step_id head.2) <$> current))
           then all_ready s step_ids else Ok false);
  if (ready : bool) then
    Ok (foldl advance s
          (filter (λ head, xs_step_id head.2 ∈ step_ids) current), true)
  else Ok (s, progressed).

Fixpoint simulate_loop (fuel : nat) (s : ExecState) : res DeadlockResult :=
  match fuel with
  | O => Err OutOfFuel
  | S fuel =>
      if decide (heads s = []) then
        Ok (MkDeadlockResult false (es_completed s) ∅ [])
      else
        let '(s, progressed) := foldl local_step (s, false) (sorted_by fst (heads s)) in
        if progressed then simulate_loop fuel s
        else
          let current := heads s in
          '(s, progressed) ← foldM (transfer_step current) (s, false)
                               (sorted_by fst (tp_transfer_steps program));
          if (progressed : bool) then simulate_loop fuel s
          else
            Ok (MkDeadlockResult true (es_completed s)
                  (list_to_set (xs_transfer_id <$>
                     filter (λ step, Is_true (is_communication step)) current.*2))
                  ((λ head, (head.1, xs_step_id head.2)) <$> current))
  end.

(** Every round but the last performs a step. *)
Definition simulation_fuel : nat := S (length (program_steps (tp_threadblocks program))).

Definition simulate_endpoint_execution : res DeadlockResult :=
  simulate_loop simulation_fuel initial_state.

(** ** The execution that the simulation stands for *)

Definition head_of (s : ExecState) (key : Z * Z) : option XmlStep :=
  tb ← dict_get key blocks; head_step s (key, tb).

Inductive exec_step : ExecState → ExecState → Prop :=
  | exec_local s key step :
      head_of s key = Some step → is_local step = true → dependency_ready s step = true →
      exec_step s (advance s (key, step))
  | exec_transfer s tid s1 s2 k1 k2 step1 step2 :
      (tid, [s1; s2]) ∈ tp_transfer_steps program →
      head_of s k1 = Some step1 → xs_step_id step1 = s1 →
      head_of s k2 = Some step2 → xs_step_id step2 = s2 →
      dependency_ready s step1 = true → dependency_ready s step2 = true →
      exec_step s (advance (advance s (k1, step1)) (k2, step2)).

(** Nothing is left to execute. *)
Definition finished (s : ExecState) : Prop := ∀ key, head_of s key = None.

(** The contract of the transfer table: each entry names two different
    communication steps, and no step belongs to two transfers. *)
Record paired : Prop := {
  pa_keys : NoDup (tp_transfer_steps program).*1;
  pa_distinct tid s1 s2 : (tid, [s1; s2]) ∈ tp_transfer_steps program → s1 ≠ s2;
  pa_communication tid ids id step : (tid, ids) ∈ tp_transfer_steps program → id ∈ ids →
    dict_get id (tp_steps_by_id program) = Some step → is_local step = false;
  pa_disjoint tid ids tid' ids' id : (tid, ids) ∈ tp_transfer_steps program →
    (tid', ids') ∈ tp_transfer_steps program → id ∈ ids → id ∈ ids' → tid = tid';
}.
End simulation.

(** * Laws of endpoint execution

    Execution terminates and is confluent, and the simulation runs one
    maximal execution; so its verdict holds for every interleaving. *)

Section laws.
Context (p : ThreadblockProgram) (Hwf : program_wf p) (Hpa : paired p).

Notation exec := (exec_step p).
Notation head_of := (head_of p).

(** ** Heads *)

Lemma blocks_eq : blocks p = (λ tb, (block_id tb, tb)) <$> tp_threadblocks p.
Proof.
  apply dict_of_list_nodup. rewrite <- list_fmap_compose. apply (pw_blocks p Hwf).
Qed.

Lemma blocks_keys : NoDup (blocks p).*1.
Proof. apply dict_of_list_NoDup. Qed.

Lemma block_in key tb :
  dict_get key (blocks p) = Some tb → tb ∈ tp_threadblocks p ∧ key = block_id tb.
Proof.
  intros H. apply dict_get_Some_1 in H. rewrite blocks_eq in H.
  apply list_elem_of_fmap in H as (? & [= -> ->] & ?). done.
Qed.

Lemma elem_of_heads s key step : (key, step) ∈ heads p s ↔ head_of s key = Some step.
Proof.
  unfold heads, Deadlock.head_of. rewrite list_elem_of_omap. split.
  - intros ([k tb] & Hin & Hh). simpl in Hh.
    destruct (head_step s (k, tb)) as [st|] eqn:E; [|done]. injection Hh as -> ->.
    rewrite (dict_get_Some_2 key tb); [done|apply blocks_keys|done].
  - destruct (dict_get key (blocks p)) as [tb|] eqn:E; [|done]. simpl. intros Hh.
    exists (key, tb). split; [by apply dict_get_Some_1|]. by rewrite Hh.
Qed.

Lemma heads_keys s : NoDup (heads p s).*1.
Proof.
  unfold heads. pose proof blocks_keys as H. induction (blocks p) as [|[k tb] l IH]; csimpl;
    [constructor|].
  apply NoDup_cons in H as [Hk Hl]. specialize (IH Hl).
  destruct (head_step s (k, tb)) as [st|]; [|done]. csimpl. constructor; [|done].
  intros (x & -> & ([k' tb'] & Hin & Hx)%list_elem_of_omap)%list_elem_of_fmap. apply Hk.
  destruct (head_step s (k', tb')); [|done]. injection Hx as <-. simpl.
  apply list_elem_of_fmap. by exists (k', tb').
Qed.

Lemma head_of_program s key step :
  head_of s key = Some step → ∃ tb, tb ∈ tp_threadblocks p ∧ block_id tb = key ∧
    step ∈ tb_steps tb.
Proof.
  unfold Deadlock.head_of. destruct (dict_get key (blocks p)) as [tb|] eqn:E; [|done].
  apply block_in in E as [Htb ->]. unfold head_step; simpl.
  destruct (es_positions s !! block_id tb) as [n|]; [|done]. simpl. intros Hs.
  exists tb. split_and!; [done..|]. by apply list_elem_of_lookup_2 in Hs.
Qed.

Lemma elem_of_program_steps step :
  step ∈ program_steps (tp_threadblocks p) ↔
  ∃ tb, tb ∈ tp_threadblocks p ∧ step ∈ tb_steps tb.
Proof. unfold program_steps. rewrite list_elem_of_bind. naive_solver. Qed.

(** Step identifiers name one step of one threadblock. *)
Lemma step_unique tbs tb1 tb2 st1 st2 :
  NoDup (xs_step_id <$> program_steps tbs) → tb1 ∈ tbs → tb2 ∈ tbs →
  st1 ∈ tb_steps tb1 → st2 ∈ tb_steps tb2 → xs_step_id st1 = xs_step_id st2 →
  tb1 = tb2 ∧ st1 = st2.
Proof.
  induction tbs as [|tb tbs IH]; [by rewrite elem_of_nil|].
  unfold program_steps; csimpl. rewrite fmap_app, NoDup_app, !elem_of_cons.
  intros (Hn1 & Hd & Hn2) H1 H2 S1 S2 E.
  assert (Hin : ∀ tb' st', tb' ∈ tbs → st' ∈ tb_steps tb' →
    xs_step_id st' ∈ xs_step_id <$> (tbs ≫= tb_steps)).
  { intros tb' st' ??. apply list_elem_of_fmap_2, list_elem_of_bind. eauto. }
  destruct H1 as [-> |H1], H2 as [-> |H2].
  - split; [done|]. revert S1 S2 E Hn1. clear.
    induction (tb_steps tb) as [|x l IH]; [by rewrite elem_of_nil|]. csimpl.
    rewrite NoDup_cons, !elem_of_cons.
    intros [->|H1] [->|H2] E [Hx Hl]; [done|exfalso; apply Hx..|by apply IH].
    + rewrite E. by apply list_elem_of_fmap_2.
    + rewrite <- E. by apply list_elem_of_fmap_2.
  - exfalso. apply (Hd (xs_step_id st1)); [by apply list_elem_of_fmap_2|]. rewrite E. eauto.
  - exfalso. apply (Hd (xs_step_id st2)); [by apply list_elem_of_fmap_2|]. rewrite <- E. eauto.
  - apply IH; eauto.
Qed.

Lemma head_unique s k1 k2 st1 st2 :
  head_of s k1 = Some st1 → head_of s k2 = Some st2 → xs_step_id st1 = xs_step_id st2 → k1 = k2.
Proof.
  intros (tb1 & ? & <- & ?)%head_of_program (tb2 & ? & <- & ?)%head_of_program E.
  f_equal. by eapply step_unique; [apply (pw_steps p Hwf)|..].
Qed.

Lemma step_table step :
  step ∈ program_steps (tp_threadblocks p) →
  dict_get (xs_step_id step) (tp_steps_by_id p) = Some step.
Proof.
  intros Hin. rewrite (pw_table p Hwf). apply dict_get_Some_2.
  - rewrite <- list_fmap_compose. apply (pw_steps p Hwf).
  - by apply (list_elem_of_fmap_2 (λ step, (xs_step_id step, step))).
Qed.

Lemma head_table s key step :
  head_of s key = Some step → dict_get (xs_step_id step) (tp_steps_by_id p) = Some step.
Proof.
  intros (tb & ? & _ & ?)%head_of_program. apply step_table, elem_of_program_steps. eauto.
Qed.

(** ** Advancing *)

Lemma head_of_advance_ne s k k' st : k ≠ k' → head_of (advance s (k, st)) k' = head_of s k'.
Proof.
  intros Hk. unfold Deadlock.head_of, head_step. destruct (dict_get k' _); [|done]. simpl.
  by rewrite lookup_alter_ne.
Qed.

Lemma ready_advance s x st : dependency_ready s st = true → dependency_ready (advance s x) st = true.
Proof.
  unfold dependency_ready. destruct (xs_dependency_step_id st); [|done].
  rewrite !bool_decide_eq_true. simpl. clear Hwf Hpa. set_solver.
Qed.

Lemma advance_comm s x y :
  x.1 ≠ y.1 → advance (advance s x) y = advance (advance s y) x.
Proof.
  intros Hk. unfold advance; simpl. f_equal; [by rewrite alter_alter_ne|clear Hwf Hpa; set_solver].
Qed.

(** ** Termination *)

Definition remaining (s : ExecState) (block : (Z * Z) * Threadblock) : nat :=
  length (tb_steps block.2) - default 0%nat (es_positions s !! block.1).

Definition measure (s : ExecState) : nat := sum_list (remaining s <$> blocks p).

Lemma remaining_advance s x block : (remaining (advance s x) block ≤ remaining s block)%nat.
Proof.
  unfold remaining; simpl. destruct (decide (x.1 = block.1)) as [->|Hne].
  - rewrite lookup_alter_eq. destruct (es_positions s !! block.1); simpl; lia.
  - by rewrite lookup_alter_ne.
Qed.

Lemma sum_list_le {A} (f g : A → nat) l :
  (∀ x, (f x ≤ g x)%nat) → (sum_list (f <$> l) ≤ sum_list (g <$> l))%nat.
Proof. intros H. induction l as [|x l IH]; csimpl; [lia|]. specialize (H x). lia. Qed.

Lemma sum_list_lt {A} (f g : A → nat) l y :
  (∀ x, (f x ≤ g x)%nat) → y ∈ l → (f y < g y)%nat →
  (sum_list (f <$> l) < sum_list (g <$> l))%nat.
Proof.
  intros H. induction 1 as [y l|y x l Hy IH]; csimpl; intros Hlt.
  - pose proof (sum_list_le f g l H). lia.
  - specialize (IH Hlt). specialize (H x). lia.
Qed.

Lemma measure_advance_le s x : (measure (advance s x) ≤ measure s)%nat.
Proof. apply sum_list_le, remaining_advance. Qed.

Lemma measure_advance s key step :
  head_of s key = Some step → (measure (advance s (key, step)) < measure s)%nat.
Proof.
  unfold Deadlock.head_of. destruct (dict_get key (blocks p)) as [tb|] eqn:E; [|done].
  unfold head_step; simpl. destruct (es_positions s !! key) as [n|] eqn:En; [|done].
  simpl. intros Hs. apply sum_list_lt with (y := (key, tb)).
  - apply remaining_advance.
  - by apply dict_get_Some_1.
  - unfold remaining; simpl. rewrite lookup_alter_eq, En. simpl.
    apply lookup_lt_Some in Hs. lia.
Qed.

Lemma exec_measure s s' : exec s s' → (measure s' < measure s)%nat.
Proof.
  destruct 1 as [s key step Hh _ _|s tid s1 s2 k1 k2 st1 st2 _ H1 _ _ _ _ _].
  - by apply measure_advance.
  - pose proof (measure_advance _ _ _ H1).
    pose proof (measure_advance_le (advance s (k1, st1)) (k2, st2)). lia.
Qed.

Lemma tc_exec_measure s s' : tc exec s s' → (measure s' < measure s)%nat.
Proof. induction 1 as [? ? H|? ? ? H]; apply exec_measure in H; lia. Qed.

Lemma exec_sn s : sn exec s.
Proof.
  remember (measure s) as n eqn:Hn. revert s Hn.
  induction (lt_wf n) as [n _ IH]. intros s ->. constructor. intros s' Hs'.
  apply (IH (measure s')); [by apply exec_measure|done].
Qed.

(** ** Confluence *)

(** The heads that one step advances. *)
Inductive enabled (s : ExecState) : list ((Z * Z) * XmlStep) → Prop :=
  | enabled_local key step :
      head_of s key = Some step → is_local step = true → dependency_ready s step = true →
      enabled s [(key, step)]
  | enabled_transfer tid k1 k2 step1 step2 :
      (tid, [xs_step_id step1; xs_step_id step2]) ∈ tp_transfer_steps p →
      head_of s k1 = Some step1 → head_of s k2 = Some step2 →
      dependency_ready s step1 = true → dependency_ready s step2 = true →
      enabled s [(k1, step1); (k2, step2)].

Lemma exec_enabled s s' : exec s s' ↔ ∃ l, enabled s l ∧ s' = foldl advance s l.
Proof.
  split.
  - intros [? key step ? ? ?|? tid s1 s2 k1 k2 st1 st2 ? ? <- ? <- ? ?].
    + exists [(key, step)]. split; [by constructor|done].
    + exists [(k1, st1); (k2, st2)]. split; [by econstructor|done].
  - intros (l & [key step ? ? ?|tid k1 k2 st1 st2 ? ? ? ? ?] & ->); simpl.
    + by constructor.
    + by econstructor.
Qed.

Lemma enabled_head s l k st : enabled s l → (k, st) ∈ l → head_of s k = Some st.
Proof.
  intros [? ? ? ? ?|? ? ? ? ? ? ? ? ? ?]; rewrite !elem_of_cons, elem_of_nil; naive_solver.
Qed.

Lemma transfer_keys_distinct s tid k1 k2 st1 st2 :
  (tid, [xs_step_id st1; xs_step_id st2]) ∈ tp_transfer_steps p →
  head_of s k1 = Some st1 → head_of s k2 = Some st2 → k1 ≠ k2.
Proof. intros Ht H1 H2 ->. apply (pa_distinct p Hpa _ _ _ Ht). congruence. Qed.

Lemma enabled_advance s l x : enabled s l → x.1 ∉ l.*1 → enabled (advance s x) l.
Proof.
  destruct x as [k st]. intros [? ? ? ? ?|? ? ? ? ? ? ? ? ? ?]; simpl;
    rewrite !not_elem_of_cons; intros Hk; dest_all; econstructor; eauto using ready_advance;
    by rewrite head_of_advance_ne.
Qed.

Lemma enabled_advance_all s l l' :
  enabled s l → (∀ k, k ∈ l'.*1 → k ∉ l.*1) → enabled (foldl advance s l') l.
Proof.
  revert s. induction l' as [|x l' IH]; intros s He Hd; simpl; [done|].
  csimpl in Hd. apply IH; [apply enabled_advance; [done|apply Hd; by left]|].
  intros k ?. apply Hd. by right.
Qed.

Lemma advance_all_comm s x l :
  x.1 ∉ l.*1 → foldl advance (advance s x) l = advance (foldl advance s l) x.
Proof.
  revert s. induction l as [|y l IH]; intros s; simpl; [done|].
  rewrite not_elem_of_cons. intros [??]. rewrite advance_comm by done. by apply IH.
Qed.

Lemma advance_all_all_comm s l l' :
  (∀ k, k ∈ l'.*1 → k ∉ l.*1) →
  foldl advance (foldl advance s l') l = foldl advance (foldl advance s l) l'.
Proof.
  revert s. induction l' as [|x l' IH]; intros s Hd; simpl; [done|]. csimpl in Hd.
  rewrite IH by (intros; apply Hd; by right). by rewrite advance_all_comm by (apply Hd; by left).
Qed.

Lemma transfer_same_ids tid ids ids' :
  (tid, ids) ∈ tp_transfer_steps p → (tid, ids') ∈ tp_transfer_steps p → ids = ids'.
Proof.
  intros H1 H2. pose proof (dict_get_Some_2 _ _ _ (pa_keys p Hpa) H1).
  pose proof (dict_get_Some_2 _ _ _ (pa_keys p Hpa) H2). congruence.
Qed.

Lemma pair_head_id s k1 k2 st1 st2 q st :
  head_of s k1 = Some st1 → head_of s k2 = Some st2 → q ∈ [k1; k2] →
  head_of s q = Some st → xs_step_id st ∈ [xs_step_id st1; xs_step_id st2].
Proof.
  intros H1 H2 Hq Hst. rewrite !elem_of_cons, elem_of_nil in Hq.
  rewrite !elem_of_cons. destruct Hq as [->|[->|[]]]; [left|right; left]; congruence.
Qed.

Lemma enabled_disjoint s l l' :
  enabled s l → enabled s l' → l = l' ∨ ∀ k, k ∈ l'.*1 → k ∉ l.*1.
Proof.
  assert (Hmix : ∀ key step tid ids, head_of s key = Some step → is_local step = true →
    (tid, ids) ∈ tp_transfer_steps p → xs_step_id step ∉ ids).
  { intros key step tid ids Hh Hl Ht Hin. apply head_table in Hh.
    rewrite (pa_communication p Hpa _ _ _ _ Ht Hin Hh) in Hl. done. }
  intros [k st Hh Hl _|tid k1 k2 st1 st2 Ht H1 H2 _ _]
    [k' st' Hh' Hl' _|tid' k1' k2' st1' st2' Ht' H1' H2' _ _]; simpl.
  - destruct (decide (k = k')) as [<-|Hne]; [left; congruence|right].
    intros q ->%list_elem_of_singleton. rewrite list_elem_of_singleton. congruence.
  - right. intros q Hq ->%list_elem_of_singleton.
    apply (Hmix _ _ _ _ Hh Hl Ht'). by eapply pair_head_id.
  - right. intros q ->%list_elem_of_singleton Hq.
    apply (Hmix _ _ _ _ Hh' Hl' Ht). by eapply pair_head_id.
  - destruct (decide (tid = tid')) as [<-|Hne].
    + left. pose proof (transfer_same_ids _ _ _ Ht Ht') as [= E1 E2].
      pose proof (head_unique _ _ _ _ _ H1 H1' E1) as <-.
      pose proof (head_unique _ _ _ _ _ H2 H2' E2) as <-. congruence.
    + right. intros q Hq' Hq. apply Hne.
      assert (∃ st, head_of s q = Some st) as [st Hst].
      { rewrite !elem_of_cons, elem_of_nil in Hq. destruct Hq as [->|[->|[]]]; eauto. }
      pose proof (pair_head_id _ _ _ _ _ _ _ H1 H2 Hq Hst) as Hi.
      pose proof (pair_head_id _ _ _ _ _ _ _ H1' H2' Hq' Hst) as Hi'.
      by eapply (pa_disjoint p Hpa).
Qed.

Lemma exec_confluent : confluent exec.
Proof.
  apply locally_confluent_confluent; [apply exec_sn|].
  intros s s1 s2 (l1 & E1 & ->)%exec_enabled (l2 & E2 & ->)%exec_enabled.
  destruct (enabled_disjoint _ _ _ E1 E2) as [->|Hd]; [eauto using rtc_refl|].
  exists (foldl advance (foldl advance s l1) l2). split; apply rtc_once, exec_enabled.
  - exists l2. split; [|done]. apply enabled_advance_all; [done|].
    intros k Hk Hk'. by apply (Hd k).
  - exists l1. split; [by apply enabled_advance_all|]. symmetry. by apply advance_all_all_comm.
Qed.
End laws.
