(* ===== verification/DeadlockSound.v ===== *)
(** * The simulation decides deadlock

    [simulate_endpoint_execution] follows [exec_step] to a state where nothing
    can execute; by confluence that state is the end of every execution. *)

From stdpp Require Import relations.
From S2P Require Import Prelude.
From S2P Require Import Python.
From S2P Require Import Endpoints.
From S2P Require Import Threadblocks.
From S2P Require Import Deadlock.
Local Open Scope Z_scope.

Section simulation.
Context (p : ThreadblockProgram) (Hwf : program_wf p) (Hpa : paired p).

Notation exec := (exec_step p).
Notation head_of := (head_of p).

(** ** The loop over local heads *)

Definition heads_valid (s : ExecState) (l : list ((Z * Z) * XmlStep)) : Prop :=
  ∀ k st, (k, st) ∈ l → head_of s k = Some st.

Lemma local_pass s b l s' b' :
  NoDup l.*1 → heads_valid s l → foldl local_step (s, b) l = (s', b') →
  (b' = b ∧ s' = s ∧ ∀ k st, (k, st) ∈ l → is_local st && dependency_ready s st = false) ∨
  (b' = true ∧ tc exec s s').
Proof.
  revert s b. induction l as [|[k st] l IH]; intros s b Hnd Hv; cbn [foldl].
  { intros [= <- <-]. left. split_and!; [done..|]. by intros ?? ?%elem_of_nil. }
  csimpl in Hnd. apply NoDup_cons in Hnd as [Hk Hnd]. unfold local_step at 2; simpl.
  destruct (is_local st && dependency_ready s st) eqn:E; intros Hf.
  - right. bool_prop.
    assert (Hex : exec s (advance s (k, st))) by (constructor; [apply Hv; by left|done..]).
    assert (Hv' : heads_valid (advance s (k, st)) l).
    { intros k' st' Hin. rewrite head_of_advance_ne; [apply Hv; by right|].
      intros ->. apply Hk, list_elem_of_fmap. by exists (k', st'). }
    apply IH in Hf as [(-> & -> & _)|(-> & Htc)]; [..|done|done].
    + split; [done|]. by apply tc_once.
    + split; [done|]. by eapply tc_l.
  - apply IH in Hf; [|done|intros ???; apply Hv; by right].
    destruct Hf as [(-> & -> & Hn)|?]; [left|by right]. split_and!; [done..|].
    intros k' st'. rewrite elem_of_cons. intros [[= -> ->]|?]; [done|eauto].
Qed.

(** ** The loop over transfers *)

Section pass.
Context (current : list ((Z * Z) * XmlStep)) (Hck : NoDup current.*1).
Context (s0 : ExecState) (Hc0 : heads_valid s0 current).

(** The heads of a transfer that is ready to fire. *)
Lemma transfer_heads id1 id2 :
  id1 ≠ id2 →
  list_to_set [id1; id2] ⊆@{gset string} list_to_set ((λ head, xs_step_id head.2) <$> current) →
  ∃ k1 st1 k2 st2, (k1, st1) ∈ current ∧ xs_step_id st1 = id1 ∧
    (k2, st2) ∈ current ∧ xs_step_id st2 = id2 ∧
    filter (λ head, xs_step_id head.2 ∈ [id1; id2]) current ≡ₚ [(k1, st1); (k2, st2)].
Proof.
  intros Hne Hsub.
  assert (Hget : ∀ id, id ∈ [id1; id2] → ∃ k st, (k, st) ∈ current ∧ xs_step_id st = id).
  { intros id Hid. apply (elem_of_list_to_set (C := gset string)) in Hid.
    apply Hsub, elem_of_list_to_set, list_elem_of_fmap in Hid as ([k st] & -> & ?). eauto. }
  destruct (Hget id1) as (k1 & st1 & I1 & E1); [by left|].
  destruct (Hget id2) as (k2 & st2 & I2 & E2); [by right; left|].
  exists k1, st1, k2, st2. split_and!; [done..|].
  assert (Hu : ∀ k st k' st', (k, st) ∈ current → (k', st') ∈ current →
    xs_step_id st = xs_step_id st' → (k, st) = (k', st')).
  { intros k st k' st' H H' E. pose proof (Hc0 _ _ H) as Hh. pose proof (Hc0 _ _ H') as Hh'.
    pose proof (head_unique p Hwf _ _ _ _ _ Hh Hh' E) as <-. congruence. }
  apply NoDup_Permutation.
  - apply NoDup_filter. by apply NoDup_fmap_1 in Hck.
  - apply NoDup_cons. split; [|apply NoDup_singleton].
    rewrite list_elem_of_singleton. congruence.
  - intros [k st]. rewrite list_elem_of_filter, !elem_of_cons, !elem_of_nil. simpl. split.
    + intros [[E|[E|[]]] Hin]; [left|right; left]; apply Hu; congruence.
    + intros [[= -> ->]|[[= -> ->]|[]]]; auto.
Qed.

(** Heads of current that a list of transfers waits for are still heads. *)
Definition waiting (s : ExecState) (l : list (string * list string)) : Prop :=
  ∀ tid ids k st, (tid, ids) ∈ l → (k, st) ∈ current → xs_step_id st ∈ ids →
    head_of s k = Some st.

Lemma all_ready_pair s id1 id2 st1 st2 :
  dict_get id1 (tp_steps_by_id p) = Some st1 → dict_get id2 (tp_steps_by_id p) = Some st2 →
  all_ready p s [id1; id2] = Ok (dependency_ready s st1 && dependency_ready s st2).
Proof.
  intros H1 H2. cbn [all_ready]. rewrite H1, H2. simpl.
  destruct (dependency_ready s st1); [|done]. by destruct (dependency_ready s st2).
Qed.

(** One transfer: it fires, or it is not enabled. *)
Lemma transfer_step_cases s b tid ids :
  (tid, ids) ∈ tp_transfer_steps p → waiting s [(tid, ids)] →
  (∃ s', transfer_step p current (s, b) (tid, ids) = Ok (s', true) ∧ exec s s' ∧
     ∀ k, head_of s' k = head_of s k ∨ ∃ st, (k, st) ∈ current ∧ xs_step_id st ∈ ids) ∨
  (transfer_step p current (s, b) (tid, ids) = Ok (s, b) ∧
   ∀ k1 k2 st1 st2, ids = [xs_step_id st1; xs_step_id st2] → (k1, st1) ∈ current →
     (k2, st2) ∈ current → dependency_ready s st1 = true → dependency_ready s st2 = true → False).
Proof.
  intros Ht Hw. destruct (pw_transfers p Hwf _ _ Ht) as (id1 & id2 & -> & [x1 X1] & [x2 X2]).
  unfold transfer_step. destruct (bool_decide _) eqn:Hsub; bool_prop.
  2:{ right. split; [done|]. intros k1 k2 st1 st2 [= -> ->] I1 I2 _ _. apply Hsub.
      intros id. rewrite !elem_of_list_to_set, list_elem_of_fmap, !elem_of_cons, elem_of_nil.
      intros [->|[->|[]]]; [by exists (k1, st1)|by exists (k2, st2)]. }
  rewrite (all_ready_pair _ _ _ _ _ X1 X2). cbn [mbind res_bind].
  destruct (transfer_heads id1 id2) as (k1 & st1 & k2 & st2 & I1 & <- & I2 & <- & Hperm);
    [by eapply (pa_distinct p Hpa)|done|].
  assert (x1 = st1) as -> by (pose proof (head_table p Hwf _ _ _ (Hc0 _ _ I1)); congruence).
  assert (x2 = st2) as -> by (pose proof (head_table p Hwf _ _ _ (Hc0 _ _ I2)); congruence).
  assert (H1 : head_of s k1 = Some st1) by (eapply Hw; [by left|done|by left]).
  assert (H2 : head_of s k2 = Some st2) by (eapply Hw; [by left|done|by right; left]).
  pose proof (transfer_keys_distinct p Hpa _ _ _ _ _ _ Ht H1 H2) as Hne.
  destruct (dependency_ready s st1 && dependency_ready s st2) eqn:Hr; bool_prop.
  - left. exists (advance (advance s (k1, st1)) (k2, st2)).
    split; [|split; [by econstructor|]].
    + do 2 f_equal. symmetry in Hperm.
      apply Permutation_length_2_inv in Hperm as [-> | ->]; [done|]. simpl.
      by apply advance_comm.
    + intros k. destruct (decide (k = k1)) as [->|]; [right; exists st1; split; [done|by left]|].
      destruct (decide (k = k2)) as [->|]; [right; exists st2; split; [done|by right; left]|].
      left. by rewrite !head_of_advance_ne.
  - right. split; [done|]. intros k1' k2' st1' st2' [= E1 E2] I1' I2' R1 R2.
    pose proof (head_table p Hwf _ _ _ (Hc0 _ _ I1')) as T1.
    pose proof (head_table p Hwf _ _ _ (Hc0 _ _ I2')) as T2.
    assert (st1' = st1 ∧ st2' = st2) as [-> ->] by (split; congruence).
    rewrite R1, R2 in Hr. naive_solver.
Qed.

Lemma transfer_pass s b l :
  NoDup l.*1 → l ⊆ tp_transfer_steps p → waiting s l →
  ∃ s' b', foldM (transfer_step p current) (s, b) l = Ok (s', b') ∧
    ((b' = b ∧ s' = s ∧ ∀ tid k1 k2 st1 st2, (tid, [xs_step_id st1; xs_step_id st2]) ∈ l →
        (k1, st1) ∈ current → (k2, st2) ∈ current → dependency_ready s st1 = true →
        dependency_ready s st2 = true → False) ∨
     (b' = true ∧ tc exec s s')).
Proof.
  revert s b. induction l as [|[tid ids] l IH]; intros s b Hnd Hsub Hw; cbn [foldM].
  { exists s, b. split; [done|]. left. split_and!; [done..|]. by intros ????? ?%elem_of_nil. }
  csimpl in Hnd. apply NoDup_cons in Hnd as [Htid Hnd].
  assert (Hin : (tid, ids) ∈ tp_transfer_steps p) by (apply Hsub; by left).
  assert (Hsub' : l ⊆ tp_transfer_steps p) by (intros x Hx; apply Hsub; by right).
  destruct (transfer_step_cases s b tid ids Hin) as [(s1 & -> & Hex & Hk)|[-> Hno]].
  { intros t i k st [= -> ->]%list_elem_of_singleton ??. eapply Hw; [by left|done..]. }
  - destruct (IH s1 true) as (s' & b' & Hf & Hres); [done..| |].
    { intros t i k st Ht Hc Hid. destruct (Hk k) as [->|(st' & Hc' & Hid')].
      { eapply Hw; [by right|done..]. }
      exfalso. assert (st' = st) as ->.
      { pose proof (dict_get_Some_2 _ _ _ Hck Hc). pose proof (dict_get_Some_2 _ _ _ Hck Hc').
        congruence. }
      apply Htid. rewrite (pa_disjoint p Hpa _ _ _ _ _ Hin (Hsub' _ Ht) Hid' Hid).
      apply list_elem_of_fmap. by exists (t, i). }
    exists s', b'. split; [done|]. right. destruct Hres as [(-> & -> & _)|[-> Htc]].
    + split; [done|]. by apply tc_once.
    + split; [done|]. by eapply tc_l.
  - destruct (IH s b) as (s' & b' & Hf & Hres); [done..| |].
    { intros t i k st Ht. eapply Hw. by right. }
    exists s', b'. split; [done|]. destruct Hres as [(-> & -> & Hn)|?]; [left|by right].
    split_and!; [done..|]. intros t k1 k2 st1 st2. rewrite elem_of_cons.
    intros [[= -> <-]|Ht]; [by apply Hno|by eapply Hn].
Qed.
End pass.

(** ** The rounds *)

(** The verdict of the simulation in a state where nothing can execute. *)
Definition verdict (s : ExecState) : DeadlockResult :=
  if decide (heads p s = []) then MkDeadlockResult false (es_completed s) ∅ []
  else MkDeadlockResult true (es_completed s)
         (list_to_set (xs_transfer_id <$>
            filter (λ step, Is_true (is_communication step)) (heads p s).*2))
         ((λ head, (head.1, xs_step_id head.2)) <$> heads p s).

Lemma finished_heads s : heads p s = [] ↔ finished p s.
Proof.
  split.
  - intros H key. destruct (head_of s key) as [st|] eqn:E; [|done].
    apply elem_of_heads in E. rewrite H in E. by apply elem_of_nil in E.
  - intros H. destruct (heads p s) as [|[k st] l] eqn:E; [done|].
    assert (Hin : (k, st) ∈ heads p s) by (rewrite E; by left).
    apply elem_of_heads in Hin. by rewrite H in Hin.
Qed.

Lemma finished_nf s : finished p s → nf exec s.
Proof. intros H [s' Hs]. destruct Hs; by rewrite H in *. Qed.

Lemma sorted_heads s :
  NoDup (sorted_by fst (heads p s)).*1 ∧ heads_valid s (sorted_by fst (heads p s)).
Proof.
  split.
  - rewrite sorted_by_perm. apply heads_keys.
  - intros k st. rewrite elem_of_sorted_by. by rewrite elem_of_heads.
Qed.

Lemma simulate_loop_spec fuel s :
  (measure p s < fuel)%nat →
  ∃ s', simulate_loop p fuel s = Ok (verdict s') ∧ rtc exec s s' ∧ nf exec s'.
Proof.
  revert s. induction fuel as [|fuel IH]; intros s Hf; [lia|]. cbn [simulate_loop].
  assert (Hnext : ∀ s1, tc exec s s1 → ∃ s', simulate_loop p fuel s1 = Ok (verdict s') ∧
    rtc exec s s' ∧ nf exec s').
  { intros s1 Htc. pose proof (tc_exec_measure p _ _ Htc) as Hm.
    destruct (IH s1) as (s' & Hs' & Hr & Hn); [lia|]. exists s'. split_and!; [done| |done].
    etrans; [|done]. by apply tc_rtc. }
  destruct (decide (heads p s = [])) as [Hh|Hh].
  { exists s. unfold verdict. rewrite decide_True by done. split_and!; [done..|].
    by apply finished_nf, finished_heads. }
  destruct (foldl local_step (s, false) (sorted_by fst (heads p s))) as [s1 b1] eqn:E1.
  destruct (sorted_heads s) as [Hnd Hv].
  destruct (local_pass _ _ _ _ _ Hnd Hv E1) as [(-> & -> & Hloc)|[-> Htc]]; [|by apply Hnext].
  destruct (transfer_pass (heads p s) (heads_keys p s) s (λ k st, proj1 (elem_of_heads p s k st))
    s false (sorted_by fst (tp_transfer_steps p))) as (s2 & b2 & -> & Hres).
  { rewrite sorted_by_perm. apply (pa_keys p Hpa). }
  { intros x. by rewrite elem_of_sorted_by. }
  { intros ? ? k st _ Hin _. by apply elem_of_heads. }
  cbn [mbind res_bind]. destruct Hres as [(-> & -> & Htr)|[-> Htc]]; [|by apply Hnext].
  exists s. unfold verdict. rewrite decide_False by done. split_and!; [done..|].
  intros [s' Hs']. destruct Hs' as [s key st H1 H2 H3|s tid s1 s2 k1 k2 st1 st2 Ht H1 <- H2 <- R1 R2].
  - rewrite <- elem_of_heads, <- (elem_of_sorted_by fst) in H1. specialize (Hloc _ _ H1).
    by rewrite H2, H3 in Hloc.
  - eapply (Htr tid k1 k2 st1 st2); try done; [|by apply elem_of_heads..].
    by rewrite elem_of_sorted_by.
Qed.

(** ** Completed steps *)

(** [completed] holds the steps before each position. *)
Definition completed_inv (s : ExecState) : Prop :=
  ∀ id, id ∈ es_completed s ↔ ∃ tb n position step,
    tb ∈ tp_threadblocks p ∧ es_positions s !! block_id tb = Some position ∧
    (n < position)%nat ∧ tb_steps tb !! n = Some step ∧ xs_step_id step = id.

Lemma head_position s key st :
  head_of s key = Some st → ∃ tb n, tb ∈ tp_threadblocks p ∧ key = block_id tb ∧
    es_positions s !! key = Some n ∧ tb_steps tb !! n = Some st.
Proof.
  unfold Deadlock.head_of. destruct (dict_get key (blocks p)) as [tb|] eqn:E; [|done].
  destruct (block_in p Hwf _ _ E) as [Htb ->]. unfold head_step; simpl.
  destruct (es_positions s !! block_id tb) as [n|] eqn:En; [|done]. simpl. eauto 10.
Qed.

Lemma block_id_inj tb tb' :
  tb ∈ tp_threadblocks p → tb' ∈ tp_threadblocks p → block_id tb = block_id tb' → tb = tb'.
Proof. apply NoDup_fmap_elem, (pw_blocks p Hwf). Qed.

Lemma completed_advance s key st :
  head_of s key = Some st → completed_inv s → completed_inv (advance s (key, st)).
Proof.
  intros Hh Hinv id. destruct (head_position _ _ _ Hh) as (tb & m & Htb & -> & Hm & Hst).
  simpl. rewrite elem_of_union, elem_of_singleton, (Hinv id). split.
  - intros [->|(tb' & n & pos & step & H1 & H2 & H3 & H4 & H5)].
    + exists tb, m, (S m), st. rewrite lookup_alter_eq, Hm. split_and!; try done. lia.
    + destruct (decide (block_id tb = block_id tb')) as [E|E].
      * exists tb', n, (S pos), step. rewrite <- E, lookup_alter_eq, E, H2.
        split_and!; try done. lia.
      * exists tb', n, pos, step. by rewrite lookup_alter_ne.
  - intros (tb' & n & pos & step & H1 & H2 & H3 & H4 & H5).
    destruct (decide (block_id tb = block_id tb')) as [E|E].
    + apply block_id_inj in E as <-; [|done..]. rewrite lookup_alter_eq, Hm in H2.
      injection H2 as <-. destruct (decide (n = m)) as [->|]; [left; congruence|].
      right. exists tb, n, m, step. split_and!; try done. lia.
    + rewrite lookup_alter_ne in H2 by done. right. by exists tb', n, pos, step.
Qed.

Lemma completed_exec s s' : exec s s' → completed_inv s → completed_inv s'.
Proof.
  destruct 1 as [s key st ? _ _|s tid s1 s2 k1 k2 st1 st2 Ht H1 <- H2 <- _ _].
  - by apply completed_advance.
  - intros. apply completed_advance; [|by apply completed_advance].
    rewrite head_of_advance_ne; [done|]. by eapply transfer_keys_distinct.
Qed.

Lemma completed_rtc s s' : rtc exec s s' → completed_inv s → completed_inv s'.
Proof. induction 1; [done|]. intros. eauto using completed_exec. Qed.

(** Every threadblock has a position. *)
Lemma positions_rtc s s' : rtc exec s s' → dom (es_positions s') = dom (es_positions s).
Proof.
  induction 1 as [|? ? ? Hs _ IH]; [done|]. rewrite IH.
  destruct Hs; simpl; by rewrite !dom_alter_L.
Qed.

Lemma initial_position tb :
  tb ∈ tp_threadblocks p → es_positions (initial_state p) !! block_id tb = Some 0%nat.
Proof.
  intros Htb. simpl. apply elem_of_list_to_map.
  - rewrite <- list_fmap_compose. apply (pw_blocks p Hwf).
  - by apply (list_elem_of_fmap_2 (λ tb, (block_id tb, 0%nat))).
Qed.

Lemma initial_completed : completed_inv (initial_state p).
Proof.
  intros id. split; [by intros ?%elem_of_empty|].
  intros (tb & n & pos & step & Htb & Hp & Hn & _). rewrite initial_position in Hp by done.
  injection Hp as <-. lia.
Qed.

Lemma initial_measure : (measure p (initial_state p) < simulation_fuel p)%nat.
Proof.
  unfold simulation_fuel, measure. rewrite length_program_steps.
  rewrite (blocks_eq p Hwf), <- list_fmap_compose.
  enough (∀ l, (sum_list ((remaining (initial_state p) ∘ (λ tb, (block_id tb, tb))) <$> l) ≤
    sum_list (length ∘ tb_steps <$> l))%nat) by (pose proof (H (tp_threadblocks p)); lia).
  intros l. apply sum_list_le. intros tb. unfold remaining; simpl. lia.
Qed.

Lemma tb_steps_ids tb : tb ∈ tp_threadblocks p → NoDup (xs_step_id <$> tb_steps tb).
Proof.
  pose proof (pw_steps p Hwf) as Hnd. revert Hnd. generalize (tp_threadblocks p) as tbs.
  induction tbs as [|x tbs IH]; [by intros _ ?%elem_of_nil|].
  unfold program_steps; csimpl. rewrite fmap_app, NoDup_app, elem_of_cons.
  intros (H1 & _ & H2) [->|H]; [done|by apply IH].
Qed.

Lemma head_incomplete s key h :
  rtc exec (initial_state p) s → head_of s key = Some h → xs_step_id h ∉ es_completed s.
Proof.
  intros Hr Hh Hc. pose proof (completed_rtc _ _ Hr initial_completed) as Hinv.
  destruct (head_position _ _ _ Hh) as (tb & m & Htb & -> & Hm & Hst).
  apply Hinv in Hc as (tb' & n & pos & step & Htb' & Hpos & Hn & Hstep & Eid).
  destruct (step_unique _ _ _ _ _ (pw_steps p Hwf) Htb' Htb
    (list_elem_of_lookup_2 _ _ _ Hstep) (list_elem_of_lookup_2 _ _ _ Hst) Eid) as [-> ->].
  rewrite Hm in Hpos. injection Hpos as ->.
  assert (n = pos); [|lia]. eapply NoDup_lookup; [by apply (tb_steps_ids tb)| |];
    rewrite list_lookup_fmap; [by rewrite Hstep|by rewrite Hst].
Qed.

(** In a reachable state everything is completed exactly when nothing is
    left. *)
Lemma finished_completed s :
  rtc exec (initial_state p) s →
  finished p s ↔
  es_completed s = list_to_set (xs_step_id <$> program_steps (tp_threadblocks p)).
Proof.
  intros Hr. pose proof (completed_rtc _ _ Hr initial_completed) as Hinv. split.
  - intros Hfin. apply set_eq. intros id. rewrite elem_of_list_to_set, (Hinv id).
    rewrite list_elem_of_fmap. setoid_rewrite elem_of_program_steps. split.
    + intros (tb & n & pos & step & H1 & _ & _ & H4 & <-).
      exists step. split; [done|]. exists tb. by apply list_elem_of_lookup_2 in H4.
    + intros (step & -> & tb & Htb & (n & Hn)%list_elem_of_lookup).
      assert (is_Some (es_positions s !! block_id tb)) as [pos Hpos].
      { apply elem_of_dom. rewrite (positions_rtc _ _ Hr). apply elem_of_dom.
        rewrite initial_position by done. eauto. }
      exists tb, n, pos, step. split_and!; try done.
      specialize (Hfin (block_id tb)). unfold Deadlock.head_of in Hfin.
      rewrite (dict_get_Some_2 (block_id tb) tb) in Hfin; [|apply blocks_keys|].
      2:{ rewrite (blocks_eq p Hwf). by apply (list_elem_of_fmap_2 (λ tb, (block_id tb, tb))). }
      unfold head_step in Hfin; simpl in Hfin. rewrite Hpos in Hfin. simpl in Hfin.
      apply lookup_ge_None in Hfin. apply lookup_lt_Some in Hn. lia.
  - intros E key. destruct (head_of s key) as [st|] eqn:Hh; [|done]. exfalso.
    apply (head_incomplete _ _ _ Hr Hh). rewrite E, elem_of_list_to_set.
    destruct (head_of_program p Hwf _ _ _ Hh) as (tb & Htb & _ & Hin).
    apply list_elem_of_fmap_2, elem_of_program_steps. eauto.
Qed.

Lemma verdict_heads s key id :
  (key, id) ∈ dr_tb_heads (verdict s) ↔ ∃ st, head_of s key = Some st ∧ xs_step_id st = id.
Proof.
  setoid_rewrite <- elem_of_heads. unfold verdict.
  assert (H : (key, id) ∈ (λ head : Z * Z * XmlStep, (head.1, xs_step_id head.2)) <$> heads p s ↔
    ∃ st, (key, st) ∈ heads p s ∧ xs_step_id st = id).
  { rewrite list_elem_of_fmap. split.
    - intros ([k st] & [= -> ->] & ?). eauto.
    - intros (st & ? & <-). by exists (key, st). }
  case_decide as E; simpl; [|exact H]. rewrite <- H, E. done.
Qed.

Lemma verdict_blocked s tid :
  tid ∈ dr_blocked_transfer_ids (verdict s) ↔
  ∃ key st, head_of s key = Some st ∧ is_communication st = true ∧ xs_transfer_id st = tid.
Proof.
  setoid_rewrite <- elem_of_heads. unfold verdict.
  assert (H : tid ∈@{gset string} list_to_set (xs_transfer_id <$>
    filter (λ step, Is_true (is_communication step)) (heads p s).*2) ↔
    ∃ key st, (key, st) ∈ heads p s ∧ is_communication st = true ∧ xs_transfer_id st = tid).
  { rewrite elem_of_list_to_set, list_elem_of_fmap. setoid_rewrite list_elem_of_filter.
    setoid_rewrite list_elem_of_fmap. split.
    - intros (st & -> & Hc & [k st'] & -> & ?). simpl. exists k, st'. split_and!; [done| |done].
      by apply Is_true_true.
    - intros (k & st & ? & Hc & <-). exists st. split; [done|]. split; [by apply Is_true_true|].
      by exists (k, st). }
  case_decide as E; simpl; [|exact H]. rewrite <- H, E. done.
Qed.
End simulation.

(** C37 Deadlock detection is exact for every interleaving.  On a program that
    its constructor accepted, whose transfers pair different communication
    steps, the simulation returns, and it returns the state in which every
    execution ends: each partial execution, in any order of local steps and
    transfers, can be continued to it and no further.  The program is reported
    free of deadlock exactly when every step of every threadblock is completed
    there; the reported heads and blocked transfers are those of that state. *)
Theorem deadlock_exact tbs table ts ns refs inv p :
  ThreadblockProgram_init tbs table ts ns refs inv = Ok p → paired p →
  ∃ r s, simulate_endpoint_execution p = Ok r ∧
    nf (exec_step p) s ∧
    (∀ s', rtc (exec_step p) (initial_state p) s' → rtc (exec_step p) s' s) ∧
    dr_completed_step_ids r = es_completed s ∧
    (dr_deadlocked r = false ↔
       es_completed s = list_to_set (xs_step_id <$> program_steps tbs)) ∧
    (∀ key id, (key, id) ∈ dr_tb_heads r ↔
       ∃ step, head_of p s key = Some step ∧ xs_step_id step = id) ∧
    (∀ tid, tid ∈ dr_blocked_transfer_ids r ↔ ∃ key step, head_of p s key = Some step ∧
       is_communication step = true ∧ xs_transfer_id step = tid).
Proof.
  intros Hinit Hpa. destruct (ThreadblockProgram_init_Ok _ _ _ _ _ _ _ Hinit) as (Hwf & <- & _).
  destruct (simulate_loop_spec p Hwf Hpa _ _ (initial_measure p Hwf)) as (s & Hs & Hr & Hn).
  exists (verdict p s), s. split_and!; [exact Hs|done| | | | |].
  - intros s' Hr'. destruct (exec_confluent p Hwf Hpa _ _ _ Hr Hr') as (z & Hz & Hz').
    apply rtc_nf in Hz; [by subst|done].
  - unfold verdict. by case_decide.
  - rewrite <- (finished_completed p Hwf Hpa s Hr), <- finished_heads.
    unfold verdict. by case_decide.
  - apply verdict_heads.
  - apply verdict_blocked.
Qed.

(** ** A transfer between two ranks *)

Definition demo_step (id : string) (ty : EndpointType) (rank peer : Z) : XmlStep :=
  MkXmlStep id "n" "t" (Some id) ty rank peer 0 None None None false [] {[0]}
    (Finite 0) (Finite 0) (Finite 0) (Finite 0).

Definition demo_blocks : list Threadblock :=
  [MkThreadblock (MkThreadblockKey 0 "send" 1 0) 0 [demo_step "a" SEND 0 1];
   MkThreadblock (MkThreadblockKey 1 "recv" 0 0) 0 [demo_step "b" RECV 1 0]].

Definition demo_program : ThreadblockProgram :=
  MkThreadblockProgram demo_blocks
    [("a"%string, demo_step "a" SEND 0 1); ("b"%string, demo_step "b" RECV 1 0)]
    [("t"%string, ["a"; "b"]%string)] [] ∅ 0.

Lemma demo_paired : paired demo_program.
Proof.
  constructor; simpl.
  - apply NoDup_singleton.
  - intros tid s1 s2 [= -> -> ->]%list_elem_of_singleton. done.
  - intros tid ids id step [= -> ->]%list_elem_of_singleton. rewrite !elem_of_cons, elem_of_nil.
    intros [->|[->|[]]]; simpl; by intros [= <-].
  - by intros tid ids tid' ids' id [= -> ->]%list_elem_of_singleton
      [= -> ->]%list_elem_of_singleton.
Qed.

Lemma deadlock_exact_witness :
  ∃ r s, simulate_endpoint_execution demo_program = Ok r ∧ dr_deadlocked r = false ∧
    (∀ s', rtc (exec_step demo_program) (initial_state demo_program) s' →
           rtc (exec_step demo_program) s' s) ∧
    es_completed s = {["a"; "b"]}%string.
Proof.
  assert (Hi : ThreadblockProgram_init demo_blocks
    (list_to_map (tp_steps_by_id demo_program)) (tp_transfer_steps demo_program) [] ∅ 0
    = Ok demo_program) by (vm_compute; reflexivity).
  destruct (deadlock_exact _ _ _ _ _ _ _ Hi demo_paired)
    as (r & s & Hr & _ & Hall & _ & Hd & _).
  assert (Hf : dr_deadlocked r = false).
  { assert (is_ok (simulate_endpoint_execution demo_program) = true ∧
      match simulate_endpoint_execution demo_program with
      | Ok r => dr_deadlocked r | Err _ => true end = false) as [_ E] by (vm_compute; done).
    by rewrite Hr in E. }
  exists r, s. split_and!; [done..|]. rewrite (proj1 Hd Hf). vm_compute. reflexivity.
Defined.
