(* ===== verification/Capacity.v ===== *)
(** * Capacity checks ([vericcl/xml/capacity.py], [vericcl/xml/granularity.py])

    The limits of the runtime, the shape of an execution program, and the
    report of every limit the program exceeds. *)

From S2P Require Import Prelude.
From S2P Require Import Python.
Local Open Scope Z_scope.

Definition XML_MAX_RETAINED_NODES : Z := 4095.

Record RuntimeLimits : Type := MkRuntimeLimits {
  rl_steps_per_tb : Z;
  rl_tbs_per_rank : Z;
  rl_send_tbs_per_channel : Z;
  rl_recv_tbs_per_channel : Z;
  rl_dependency_id : Z;
  rl_buffer_offset : Z;
  rl_max_channels : Z;
}.

(** The rows of [maxima], with the minimum and the value of each field. *)
Definition limit_rows (self : RuntimeLimits) : list (string * Z * Z * Z) :=
  [("steps_per_tb"%string, 1, 256, rl_steps_per_tb self);
   ("tbs_per_rank"%string, 1, 216, rl_tbs_per_rank self);
   ("send_tbs_per_channel"%string, 1, 32, rl_send_tbs_per_channel self);
   ("recv_tbs_per_channel"%string, 1, 32, rl_recv_tbs_per_channel self);
   ("dependency_id"%string, 0, 127, rl_dependency_id self);
   ("buffer_offset"%string, 0, 32767, rl_buffer_offset self);
   ("max_channels"%string, 1, 16, rl_max_channels self)].

Definition RuntimeLimits_init (self : RuntimeLimits) : res RuntimeLimits :=
  iterM (λ '(name, minimum, maximum, value),
    raise_when (negb ((minimum <=? value) && (value <=? maximum)))
      (SemanticError (name +:+ " is outside the supported runtime limit"))) (limit_rows self);;
  Ok self.

(** The defaults of the dataclass. *)
Definition default_limits : RuntimeLimits := MkRuntimeLimits 256 216 32 32 127 32767 16.

Definition simple_payload_capacity (buffsize_bytes datatype_bytes : Z) : res Z :=
  raise_when (negb ((8 <=? buffsize_bytes) && (buffsize_bytes <=? 2 ^ 31 - 1)))
    (SemanticError "NCCL_BUFFSIZE must be a signed 32-bit byte count of at least 8");;
  raise_when (negb (bool_decide (datatype_bytes ∈ [1; 2; 4; 8])))
    (SemanticError "unsupported datatype byte width");;
  Ok (buffsize_bytes / 8 / datatype_bytes * datatype_bytes * 4).

Definition MSCCL_SIMPLE_COPY_THREADS : Z := 512.

Definition simple_chunk_granule (datatype_bytes : Z) : res Z :=
  raise_when (negb (bool_decide (datatype_bytes ∈ [1; 2; 4; 8])))
    (SemanticError "unsupported datatype byte width");;
  Ok (MSCCL_SIMPLE_COPY_THREADS * 8 / datatype_bytes).

Definition simple_chunk_geometry (buffsize_bytes datatype_bytes : Z) : res (Z * Z * bool) :=
  simple_payload_capacity buffsize_bytes datatype_bytes;;
  let chunk := buffsize_bytes / 8 * 4 in
  granule ← simple_chunk_granule datatype_bytes;
  remainder ← py_mod chunk granule;
  Ok (chunk, granule, remainder =? 0).

Record StepCapacity : Type := MkStepCapacity {
  st_kind : string;
  st_src_offset : Z;
  st_dst_offset : Z;
  st_dependency_tb : Z;
  st_dependency_step : Z;
  st_count : Z;
}.

Record BlockCapacity : Type := MkBlockCapacity {
  bc_rank : Z;
  bc_tb_id : Z;
  bc_channel : Z;
  bc_send_peer : Z;
  bc_recv_peer : Z;
  bc_steps : list StepCapacity;
}.

Record ExecutionShape : Type := MkExecutionShape {
  es_rank_count : Z;
  es_channels : Z;
  es_blocks : list BlockCapacity;
  es_scratch_slots : list (Z * Z);
  es_chunks_per_loop : option Z;
}.

Record CapacityViolation : Type := MkCapacityViolation {
  cv_code : string;
  cv_rank : option Z;
  cv_tb_id : option Z;
  cv_current : Z;
  cv_limit : Z;
  cv_detail : string;
}.

Definition CapacityReport : Type := list CapacityViolation.

Definition compatible (violations : CapacityReport) : bool := bool_decide (violations = []).

Definition repairable_by_slice_only (violations : CapacityReport) : bool :=
  negb (bool_decide (violations = [])) &&
  forallb (λ issue, bool_decide
    (cv_code issue ∈ ["steps_per_tb"; "buffer_offset"; "chunks_per_loop"]%string)) violations.

(** [if not ok: issue(code, block, current, limit, detail)] *)
Definition issue_unless (ok : bool) (code : string) (block : option BlockCapacity)
    (current limit : Z) (detail : string) : list CapacityViolation :=
  if ok then []
  else [MkCapacityViolation code (bc_rank <$> block) (bc_tb_id <$> block) current limit detail].

Definition between (low x high : Z) : bool := (low <=? x) && (x <=? high).

(** [counter[key] += n] *)
Definition counter_add {K} `{EqDecision K} (key : K) (n : Z) (counter : list (K * Z))
    : list (K * Z) :=
  dict_set key (default 0 (dict_get key counter) + n) counter.

(** The locals of the loop over blocks. *)
Record CapacityScan : Type := MkCapacityScan {
  sn_issues : list CapacityViolation;
  sn_by_id : list ((Z * Z) * BlockCapacity);
  sn_rank_blocks : list (Z * Z);
  sn_rank_xml_nodes : list (Z * Z);
  sn_directions : list ((Z * Z * string) * Z);
  sn_owners : gset (Z * Z * Z * string);
}.

Section check.
Context (shape : ExecutionShape) (limits : RuntimeLimits).

Definition peer_limit : Z := Z.min 32767 (es_rank_count shape - 1).

(** The body of [for direction in ('send', 'recv')]. *)
Definition scan_direction (block : BlockCapacity) (s : CapacityScan) (dir : string * Z)
    : CapacityScan :=
  let '(direction, peer) := dir in
  if peer =? -1 then s
  else
    let owner := (bc_rank block, peer, bc_channel block, direction) in
    MkCapacityScan
      (sn_issues s ++
       issue_unless (between 0 peer peer_limit && negb (peer =? bc_rank block))
         "peer_id" (Some block) peer peer_limit "" ++
       issue_unless (negb (bool_decide (owner ∈ sn_owners s)))
         "connection_owner" (Some block) 2 1 direction)
      (sn_by_id s) (sn_rank_blocks s) (sn_rank_xml_nodes s)
      (counter_add (bc_rank block, bc_channel block, direction) 1 (sn_directions s))
      ({[owner]} ∪ sn_owners s).

Definition step_issues (block : BlockCapacity) (step : StepCapacity) : list CapacityViolation :=
  issue_unless (st_count step =? 1) "runtime_count" (Some block) (st_count step) 1 "" ++
  (offset ← [st_src_offset step; st_dst_offset step];
   issue_unless (between (-1) offset (rl_buffer_offset limits))
     "buffer_offset" (Some block) offset (rl_buffer_offset limits) "") ++
  issue_unless (between (-1) (st_dependency_tb step) (rl_dependency_id limits))
    "dependency_id" (Some block) (st_dependency_tb step) (rl_dependency_id limits) "" ++
  issue_unless ((-1 <=? st_dependency_step step) &&
                (st_dependency_step step <? rl_steps_per_tb limits))
    "dependency_step" (Some block) (st_dependency_step step) (rl_steps_per_tb limits - 1) "".

(** The body of the loop over blocks, up to the loop over directions. *)
Definition scan_header (s : CapacityScan) (block : BlockCapacity) : CapacityScan :=
  let key := (bc_rank block, bc_tb_id block) in
  let is_local := (bc_send_peer block =? bc_recv_peer block) && (bc_recv_peer block =? -1) in
  let steps := Z.of_nat (length (bc_steps block)) in
  let issues :=
    sn_issues s ++
    issue_unless ((0 <=? bc_rank block) && (bc_rank block <? es_rank_count shape))
      "rank_id" (Some block) (bc_rank block) (es_rank_count shape - 1) "" ++
    issue_unless ((0 <=? bc_tb_id block) && (bc_tb_id block <? rl_tbs_per_rank limits))
      "tb_id" (Some block) (bc_tb_id block) (rl_tbs_per_rank limits - 1) "" ++
    issue_unless (negb (bool_decide (is_Some (dict_get key (sn_by_id s)))))
      "duplicate_tb_id" (Some block) (bc_tb_id block) (rl_tbs_per_rank limits - 1) "" ++
    issue_unless ((is_local && (bc_channel block =? -1)) ||
                  ((0 <=? bc_channel block) && (bc_channel block <? es_channels shape)))
      "channel_id" (Some block) (bc_channel block) (es_channels shape - 1) "" ++
    issue_unless (steps <=? rl_steps_per_tb limits)
      "steps_per_tb" (Some block) steps (rl_steps_per_tb limits) "" in
  MkCapacityScan issues (dict_set key block (sn_by_id s))
    (counter_add (bc_rank block) 1 (sn_rank_blocks s))
    (counter_add (bc_rank block) (1 + steps) (sn_rank_xml_nodes s))
    (sn_directions s) (sn_owners s).

(** The body of the loop over blocks. *)
Definition scan_block (s : CapacityScan) (block : BlockCapacity) : CapacityScan :=
  let s := foldl (scan_direction block) (scan_header s block)
    [("send"%string, bc_send_peer block); ("recv"%string, bc_recv_peer block)] in
  MkCapacityScan (sn_issues s ++ (bc_steps block ≫= step_issues block))
    (sn_by_id s) (sn_rank_blocks s) (sn_rank_xml_nodes s) (sn_directions s) (sn_owners s).

Definition scan_blocks (initial : list CapacityViolation) : CapacityScan :=
  foldl scan_block (MkCapacityScan initial [] [] [] [] ∅) (es_blocks shape).

Definition header_issues : list CapacityViolation :=
  issue_unless (between 1 (es_channels shape) (rl_max_channels limits))
    "channels" None (es_channels shape) (rl_max_channels limits) "" ++
  match es_chunks_per_loop shape with
  | None => []
  | Some chunks =>
      issue_unless (between 1 chunks (2 ^ 31 - 1)) "chunks_per_loop" None chunks (2 ^ 31 - 1) ""
  end.

Definition rank_issue (ok : bool) (code : string) (rank current limit : Z) (detail : string)
    : list CapacityViolation :=
  if ok then [] else [MkCapacityViolation code (Some rank) None current limit detail].

Definition node_issues (s : CapacityScan) : list CapacityViolation :=
  let header_nodes := 1 + es_rank_count shape in
  if XML_MAX_RETAINED_NODES <? header_nodes then
    issue_unless false "xml_nodes" None header_nodes XML_MAX_RETAINED_NODES
      "algo and all GPU headers alone exceed the fixed parser capacity"
  else
    '(rank, nodes) ← sn_rank_xml_nodes s;
    rank_issue (header_nodes + nodes <=? XML_MAX_RETAINED_NODES) "xml_nodes" rank
      (header_nodes + nodes) XML_MAX_RETAINED_NODES
      "algo + all GPU headers + this rank TB headers and all steps, including NOP".

(** [{block.tb_id for block in shape.blocks if block.rank == rank}] *)
Definition rank_ids (rank : Z) : list Z :=
  bc_tb_id <$> filter (λ block, bc_rank block = rank) (es_blocks shape).

Definition list_max (l : list Z) : Z := foldr Z.max (default 0 (head l)) l.

Definition rank_issues (s : CapacityScan) : list CapacityViolation :=
  '(rank, count) ← sn_rank_blocks s;
  let ids := rank_ids rank in
  rank_issue (count <=? rl_tbs_per_rank limits) "tbs_per_rank" rank count
    (rl_tbs_per_rank limits) "" ++
  rank_issue (bool_decide ((list_to_set ids : gset Z) = list_to_set (seqZ 0 count)))
    "dense_tb_ids" rank (list_max ids) (count - 1) "".

Definition direction_limit (direction : string) : Z :=
  if decide (direction = "send"%string) then rl_send_tbs_per_channel limits
  else rl_recv_tbs_per_channel limits.

Definition direction_issues (s : CapacityScan) : list CapacityViolation :=
  '((rank, channel, direction), count) ← sn_directions s;
  rank_issue (count <=? direction_limit direction) (direction +:+ "_tbs_per_channel") rank
    count (direction_limit direction) ("channel=" +:+ str_of_int channel).

(** Whether the dependency of a step names a step of a block. *)
Definition target_ok (by_id : list ((Z * Z) * BlockCapacity)) (block : BlockCapacity)
    (step : StepCapacity) : bool :=
  ((st_dependency_tb step =? -1) && (st_dependency_step step =? -1)) ||
  match dict_get (bc_rank block, st_dependency_tb step) by_id with
  | None => false
  | Some target => (0 <=? st_dependency_step step) &&
                   (st_dependency_step step <? Z.of_nat (length (bc_steps target)))
  end.

Definition target_issues (s : CapacityScan) : list CapacityViolation :=
  block ← es_blocks shape;
  step ← bc_steps block;
  issue_unless (target_ok (sn_by_id s) block step)
    "dependency_target" (Some block) (st_dependency_tb step) (rl_dependency_id limits) "".

(** [scratch_bytes_per_rank]: one budget, or one per rank. *)
Inductive scratch_budget : Type :=
  | SharedBudget (bytes : Z)
  | RankBudgets (bytes : list (Z * Z)).

Definition budget_of (b : scratch_budget) (rank : Z) : Z :=
  match b with
  | SharedBudget bytes => bytes
  | RankBudgets bytes => default 0 (dict_get rank bytes)
  end.

Definition scratch_step (slice_bytes : Z) (b : scratch_budget)
    (issues : list CapacityViolation) (entry : Z * Z) : res (list CapacityViolation) :=
  let '(rank, slots) := entry in
  let budget := budget_of b rank in
  raise_when (negb ((0 <=? rank) && (rank <? es_rank_count shape)) || (slots <? 0) ||
              (budget <? 0))
    (SemanticError "invalid scratch allocation or budget");;
  Ok (issues ++ rank_issue (slots * slice_bytes <=? budget) "scratch_bytes" rank
                  (slots * slice_bytes) budget "").

Definition check_capacity (slice_bytes : option Z) (scratch_bytes_per_rank : option scratch_budget)
    : res CapacityReport :=
  raise_when (es_rank_count shape <? 1)
    (SemanticError "execution shape needs a positive rank count");;
  let s := scan_blocks header_issues in
  let issues := sn_issues s ++ node_issues s ++ rank_issues s ++ direction_issues s ++
                target_issues s in
  match slice_bytes, scratch_bytes_per_rank with
  | Some slice_bytes, Some budget =>
      raise_when (slice_bytes <? 1)
        (SemanticError "scratch accounting needs a positive slice size");;
      foldM (scratch_step slice_bytes budget) issues (es_scratch_slots shape)
  | _, _ => Ok issues
  end.
End check.

(** ** Granularity *)

Definition _positive_integer (value : pyval) (field : string) : res Z :=
  match value with
  | PInt z => raise_when (z <? 1) (SemanticError (field +:+ " must be a positive integer"));; Ok z
  | _ => Err (SemanticError (field +:+ " must be a positive integer"))
  end.

Definition verify_atom_granularity (runtime_count size_multiplier datatype_size_bytes
    nchunks_per_loop slice_size_bytes nccl_buffsize_bytes : pyval) : res unit :=
  runtime_count ← _positive_integer runtime_count "runtime_count";
  size_multiplier ← _positive_integer size_multiplier "size_multiplier";
  datatype_size_bytes ← _positive_integer datatype_size_bytes "datatype_size_bytes";
  nchunks_per_loop ← _positive_integer nchunks_per_loop "nchunks_per_loop";
  slice_size_bytes ← _positive_integer slice_size_bytes "slice_size_bytes";
  nccl_buffsize_bytes ← _positive_integer nccl_buffsize_bytes "nccl_buffsize_bytes";
  let runtime_bytes := runtime_count * size_multiplier * datatype_size_bytes in
  remainder ← py_mod runtime_bytes nchunks_per_loop;
  raise_when (negb (remainder =? 0))
    (SemanticError "runtime bytes must be divisible by nchunks_per_loop");;
  chunk ← py_floordiv runtime_bytes nchunks_per_loop;
  raise_when (negb (chunk =? slice_size_bytes))
    (SemanticError "runtime chunk size does not equal the slice size");;
  partial ← py_mod slice_size_bytes datatype_size_bytes;
  raise_when (negb (partial =? 0))
    (SemanticError "slice size must contain whole datatype elements");;
  raise_when (2 ^ 31 - 1 <? nchunks_per_loop)
    (SemanticError "nchunks_per_loop exceeds its signed 32-bit field");;
  capacity ← simple_payload_capacity nccl_buffsize_bytes datatype_size_bytes;
  raise_when (capacity <? slice_size_bytes)
    (SemanticError "NCCL_BUFFSIZE has insufficient Simple payload capacity for one slice").
