(* ===== verification/CapacityLaws.v ===== *)
(** * The capacity report is exact

    [check_capacity] reports no violation exactly for the shapes that fit the
    limits, and [verify_atom_granularity] accepts exactly the runtime sizes
    whose chunk is the slice and fits the protocol buffer. *)

From S2P Require Import Prelude.
From S2P Require Import Python.
From S2P Require Import Capacity.
Local Open Scope Z_scope.

(** ** Counters *)

Section counters.
Context {K : Type} `{EqDecision K}.

Definition counter (l : list (K * Z)) : list (K * Z) :=
  foldl (λ c kn, counter_add kn.1 kn.2 c) [] l.

(** The sum of the contributions to a key. *)
Definition total (k : K) (l : list (K * Z)) : Z :=
  zsum (snd <$> filter (λ kn, kn.1 = k) l).

Lemma counter_snoc l k n : counter (l ++ [(k, n)]) = counter_add k n (counter l).
Proof. unfold counter. by rewrite foldl_snoc. Qed.

Lemma total_snoc k l k' n : total k (l ++ [(k', n)]) = total k l + if decide (k' = k) then n else 0.
Proof.
  unfold total. rewrite filter_app, fmap_app, zsum_app. f_equal.
  rewrite filter_cons, filter_nil; simpl. case_decide; csimpl; lia.
Qed.

Lemma counter_get k l :
  dict_get k (counter l) = if decide (k ∈ l.*1) then Some (total k l) else None.
Proof.
  induction l as [|[k' n] l IH] using rev_ind; [done|].
  rewrite counter_snoc, total_snoc. unfold counter_add. rewrite dict_get_set, IH.
  rewrite fmap_app. simpl. destruct (decide (k = k')) as [<-|Hne].
  - rewrite decide_True by (apply elem_of_app; right; by left). rewrite (decide_True (P := k = k)) by done.
    destruct (decide (k ∈ l.*1)) as [|Hk]; rewrite IH; simpl; [done|]. f_equal.
    assert (total k l = 0) as ->; [|lia]. unfold total.
    rewrite list_filter_none; [done|]. intros [q m] Hin Hq. simpl in Hq. subst q. apply Hk, list_elem_of_fmap.
    by exists (k, m).
  - rewrite (decide_False (P := k' = k)) by congruence. rewrite Z.add_0_r.
    destruct (decide (k ∈ l.*1)) as [Hk|Hk].
    + by rewrite decide_True by (apply elem_of_app; by left).
    + rewrite decide_False; [done|]. rewrite elem_of_app, list_elem_of_singleton. naive_solver.
Qed.

Lemma counter_NoDup l : NoDup (counter l).*1.
Proof.
  induction l as [|[k n] l IH] using rev_ind; [constructor|].
  rewrite counter_snoc. by apply dict_set_NoDup.
Qed.

Lemma elem_of_counter k n l : (k, n) ∈ counter l ↔ k ∈ l.*1 ∧ n = total k l.
Proof.
  assert ((k, n) ∈ counter l ↔ dict_get k (counter l) = Some n) as ->.
  { split; [apply dict_get_Some_2, counter_NoDup|apply dict_get_Some_1]. }
  rewrite counter_get. case_decide; naive_solver.
Qed.
End counters.

(** ** Issues *)

Lemma issue_unless_nil ok code block current limit detail :
  issue_unless ok code block current limit detail = [] ↔ ok = true.
Proof. by destruct ok. Qed.

Lemma rank_issue_nil ok code rank current limit detail :
  rank_issue ok code rank current limit detail = [] ↔ ok = true.
Proof. by destruct ok. Qed.

Lemma bind_nil {A B} (f : A → list B) l : l ≫= f = [] ↔ ∀ x, x ∈ l → f x = [].
Proof.
  induction l as [|x l IH]; csimpl; [split; [by intros _ ? ?%elem_of_nil|done]|].
  rewrite app_nil, IH. setoid_rewrite elem_of_cons. naive_solver.
Qed.

Lemma between_true a x b : between a x b = true ↔ a ≤ x ≤ b.
Proof. unfold between. rewrite andb_true_iff, !Z.leb_le. done. Qed.

(** ** The limits *)

Section limits.
Context (shape : ExecutionShape) (limits : RuntimeLimits).

Definition key_of (block : BlockCapacity) : Z * Z := (bc_rank block, bc_tb_id block).

(** The connections a block owns. *)
Definition connection (block : BlockCapacity) (direction : string) (peer : Z)
    : list (Z * Z * Z * string) :=
  if decide (peer = -1) then [] else [(bc_rank block, peer, bc_channel block, direction)].

Definition connections (block : BlockCapacity) : list (Z * Z * Z * string) :=
  connection block "send" (bc_send_peer block) ++ connection block "recv" (bc_recv_peer block).

Definition connection_lane (c : Z * Z * Z * string) : Z * Z * string :=
  (c.1.1.1, c.1.2, c.2).

(** A step that the runtime can encode. *)
Definition step_fits (step : StepCapacity) : Prop :=
  st_count step = 1 ∧
  -1 ≤ st_src_offset step ≤ rl_buffer_offset limits ∧
  -1 ≤ st_dst_offset step ≤ rl_buffer_offset limits ∧
  -1 ≤ st_dependency_tb step ≤ rl_dependency_id limits ∧
  -1 ≤ st_dependency_step step < rl_steps_per_tb limits.

Definition peer_fits (block : BlockCapacity) (peer : Z) : Prop :=
  peer = -1 ∨ (0 ≤ peer ≤ 32767 ∧ peer < es_rank_count shape ∧ peer ≠ bc_rank block).

Definition block_fits (block : BlockCapacity) : Prop :=
  0 ≤ bc_rank block < es_rank_count shape ∧
  0 ≤ bc_tb_id block < rl_tbs_per_rank limits ∧
  ((bc_send_peer block = -1 ∧ bc_recv_peer block = -1 ∧ bc_channel block = -1) ∨
   0 ≤ bc_channel block < es_channels shape) ∧
  Z.of_nat (length (bc_steps block)) ≤ rl_steps_per_tb limits ∧
  peer_fits block (bc_send_peer block) ∧ peer_fits block (bc_recv_peer block) ∧
  ∀ step, step ∈ bc_steps block → step_fits step.

(** The dependency of a step of [block] names a step of its rank. *)
Definition target_exists (block : BlockCapacity) (step : StepCapacity) : Prop :=
  (st_dependency_tb step = -1 ∧ st_dependency_step step = -1) ∨
  ∃ target, target ∈ es_blocks shape ∧ bc_rank target = bc_rank block ∧
    bc_tb_id target = st_dependency_tb step ∧
    0 ≤ st_dependency_step step < Z.of_nat (length (bc_steps target)).

Definition blocks_on (rank : Z) : list BlockCapacity :=
  filter (λ block, bc_rank block = rank) (es_blocks shape).

(** The retained XML nodes of a rank's own threadblocks. *)
Definition nodes_on (rank : Z) : Z :=
  zsum ((λ block, 1 + Z.of_nat (length (bc_steps block))) <$> blocks_on rank).

(** The connections of a rank on a channel in one direction. *)
Definition lane_load (lane : Z * Z * string) : Z :=
  Z.of_nat (length (filter (λ c, connection_lane c = lane) (es_blocks shape ≫= connections))).

Record fits : Prop := {
  ft_channels : 1 ≤ es_channels shape ≤ rl_max_channels limits;
  ft_chunks chunks : es_chunks_per_loop shape = Some chunks → 1 ≤ chunks < 2 ^ 31;
  ft_blocks block : block ∈ es_blocks shape → block_fits block;
  ft_keys : NoDup (key_of <$> es_blocks shape);
  ft_connections : NoDup (es_blocks shape ≫= connections);
  ft_header : 1 + es_rank_count shape ≤ XML_MAX_RETAINED_NODES;
  ft_nodes block : block ∈ es_blocks shape →
    1 + es_rank_count shape + nodes_on (bc_rank block) ≤ XML_MAX_RETAINED_NODES;
  ft_per_rank block : block ∈ es_blocks shape →
    Z.of_nat (length (blocks_on (bc_rank block))) ≤ rl_tbs_per_rank limits;
  ft_dense block id : block ∈ es_blocks shape →
    (∃ b, b ∈ blocks_on (bc_rank block) ∧ bc_tb_id b = id) ↔
    0 ≤ id < Z.of_nat (length (blocks_on (bc_rank block)));
  ft_lanes rank peer channel direction :
    (rank, peer, channel, direction) ∈ es_blocks shape ≫= connections →
    lane_load (rank, channel, direction) ≤ direction_limit limits direction;
  ft_targets block step : block ∈ es_blocks shape → step ∈ bc_steps block →
    target_exists block step;
}.

(** ** The scan *)

Lemma step_issues_nil block step : step_issues limits block step = [] ↔ step_fits step.
Proof.
  unfold step_issues, step_fits. rewrite !app_nil, !issue_unless_nil, bind_nil.
  setoid_rewrite issue_unless_nil. rewrite Z.eqb_eq, andb_true_iff, Z.leb_le, Z.ltb_lt.
  setoid_rewrite between_true. setoid_rewrite elem_of_cons. setoid_rewrite list_elem_of_singleton.
  naive_solver.
Qed.

(** What the scan of a list of blocks has computed. *)
Record scanned (blocks : list BlockCapacity) (initial : list CapacityViolation)
    (s : CapacityScan) : Prop := {
  sd_issues : sn_issues s = [] ↔
    initial = [] ∧ (∀ block, block ∈ blocks → block_fits block) ∧
    NoDup (key_of <$> blocks) ∧ NoDup (blocks ≫= connections);
  sd_by_id : sn_by_id s = dict_of_list ((λ block, (key_of block, block)) <$> blocks);
  sd_rank_blocks : sn_rank_blocks s = counter ((λ block, (bc_rank block, 1)) <$> blocks);
  sd_nodes : sn_rank_xml_nodes s =
    counter ((λ block, (bc_rank block, 1 + Z.of_nat (length (bc_steps block)))) <$> blocks);
  sd_directions : sn_directions s =
    counter ((λ c, (connection_lane c, 1)) <$> (blocks ≫= connections));
  sd_owners : sn_owners s = list_to_set (blocks ≫= connections);
}.

Definition lanes (l : list (Z * Z * Z * string)) : list ((Z * Z * string) * Z) :=
  (λ c, (connection_lane c, 1)) <$> l.

Lemma NoDup_snoc {A} (l : list A) x : NoDup (l ++ [x]) ↔ NoDup l ∧ x ∉ l.
Proof.
  rewrite NoDup_app. split.
  - intros (? & Hd & _). split; [done|]. intros Hx. by apply (Hd x Hx); left.
  - intros [? Hx]. split_and!; [done| |apply NoDup_singleton].
    by intros y Hy ->%list_elem_of_singleton.
Qed.

Lemma peer_issue_nil block peer :
  peer ≠ -1 →
  between 0 peer (peer_limit shape) && negb (peer =? bc_rank block) = true ↔ peer_fits block peer.
Proof.
  intros Hp. unfold peer_fits, peer_limit.
  rewrite andb_true_iff, between_true, negb_true_iff, Z.eqb_neq. lia.
Qed.

Lemma scan_direction_spec block s direction peer L (I : Prop) :
  sn_owners s = list_to_set L → sn_directions s = counter (lanes L) →
  (sn_issues s = [] ↔ I ∧ NoDup L) →
  let s' := scan_direction shape block s (direction, peer) in
  let L' := L ++ connection block direction peer in
  sn_owners s' = list_to_set L' ∧ sn_directions s' = counter (lanes L') ∧
  (sn_issues s' = [] ↔ (I ∧ peer_fits block peer) ∧ NoDup L') ∧
  sn_by_id s' = sn_by_id s ∧ sn_rank_blocks s' = sn_rank_blocks s ∧
  sn_rank_xml_nodes s' = sn_rank_xml_nodes s.
Proof.
  intros Ho Hd Hi. cbv zeta. unfold scan_direction, connection.
  destruct (Z.eqb_spec peer (-1)) as [->|Hp].
  - rewrite decide_True, app_nil_r by done. split_and!; try done.
    rewrite Hi. unfold peer_fits. tauto.
  - rewrite decide_False by done. simpl. split_and!; try done.
    + rewrite Ho, list_to_set_app_L. simpl. set_solver.
    + rewrite Hd. unfold lanes. rewrite fmap_app. csimpl. by rewrite counter_snoc.
    + rewrite !app_nil, !issue_unless_nil, Hi, NoDup_snoc, peer_issue_nil by done.
      rewrite negb_true_iff, bool_decide_eq_false, Ho, elem_of_list_to_set. tauto.
Qed.

Lemma block_head_issues block :
  (0 <=? bc_rank block) && (bc_rank block <? es_rank_count shape) = true ∧
  (0 <=? bc_tb_id block) && (bc_tb_id block <? rl_tbs_per_rank limits) = true ∧
  ((bc_send_peer block =? bc_recv_peer block) && (bc_recv_peer block =? -1) &&
     (bc_channel block =? -1)) ||
   ((0 <=? bc_channel block) && (bc_channel block <? es_channels shape)) = true ∧
  (Z.of_nat (length (bc_steps block)) <=? rl_steps_per_tb limits) = true ∧
  peer_fits block (bc_send_peer block) ∧ peer_fits block (bc_recv_peer block) ∧
  (bc_steps block ≫= step_issues limits block) = [] ↔ block_fits block.
Proof.
  unfold block_fits. rewrite bind_nil. setoid_rewrite step_issues_nil.
  rewrite orb_true_iff, !andb_true_iff, !Z.eqb_eq, !Z.leb_le, !Z.ltb_lt.
  assert ((bc_send_peer block = bc_recv_peer block ∧ bc_recv_peer block = -1) ↔
    (bc_send_peer block = -1 ∧ bc_recv_peer block = -1)) by lia.
  tauto.
Qed.

Lemma key_fresh blocks block :
  bool_decide (is_Some (dict_get (key_of block)
    (dict_of_list ((λ block, (key_of block, block)) <$> blocks)))) =
  bool_decide (key_of block ∈ key_of <$> blocks).
Proof.
  apply bool_decide_ext. rewrite dict_of_list_keys, <- list_fmap_compose. done.
Qed.

Lemma scan_block_spec blocks initial s block :
  scanned blocks initial s → scanned (blocks ++ [block]) initial (scan_block shape limits s block).
Proof.
  intros [Hi Hb Hr Hn Hd Ho]. unfold scan_block. cbv zeta.
  set (s0 := scan_header shape limits s block). cbn [foldl].
  set (s1 := scan_direction shape block s0 ("send"%string, bc_send_peer block)).
  set (s2 := scan_direction shape block s1 ("recv"%string, bc_recv_peer block)).
  destruct (scan_direction_spec block s0 "send" (bc_send_peer block) (blocks ≫= connections)
    ((initial = [] ∧ (∀ b, b ∈ blocks → block_fits b) ∧ NoDup (key_of <$> blocks)) ∧
     (0 <=? bc_rank block) && (bc_rank block <? es_rank_count shape) = true ∧
     (0 <=? bc_tb_id block) && (bc_tb_id block <? rl_tbs_per_rank limits) = true ∧
     key_of block ∉ key_of <$> blocks ∧
     ((bc_send_peer block =? bc_recv_peer block) && (bc_recv_peer block =? -1) &&
        (bc_channel block =? -1)) ||
      ((0 <=? bc_channel block) && (bc_channel block <? es_channels shape)) = true ∧
     (Z.of_nat (length (bc_steps block)) <=? rl_steps_per_tb limits) = true))
    as (Ho1 & Hd1 & Hi1 & Hb1 & Hr1 & Hn1); [done|done| |].
  { unfold s0; simpl. rewrite !app_nil, !issue_unless_nil, Hi, negb_true_iff, Hb.
    fold (key_of block). rewrite key_fresh, bool_decide_eq_false. tauto. }
  destruct (scan_direction_spec block s1 "recv" (bc_recv_peer block) _ _ Ho1 Hd1 Hi1)
    as (Ho2 & Hd2 & Hi2 & Hb2 & Hr2 & Hn2).
  assert (EL : (blocks ++ [block]) ≫= connections =
    ((blocks ≫= connections) ++ connection block "send" (bc_send_peer block)) ++
    connection block "recv" (bc_recv_peer block)).
  { rewrite bind_app. csimpl. unfold connections. by rewrite app_nil_r, app_assoc. }
  fold s1 in Hb1, Hr1, Hn1. fold s2 in Ho2, Hd2, Hi2, Hb2, Hr2, Hn2. split; simpl.
  - rewrite app_nil, Hi2, EL, fmap_app. csimpl. rewrite NoDup_snoc.
    setoid_rewrite elem_of_app. setoid_rewrite list_elem_of_singleton.
    assert ((∀ b, b ∈ blocks ∨ b = block → block_fits b) ↔
      (∀ b, b ∈ blocks → block_fits b) ∧ block_fits block) as -> by naive_solver.
    rewrite <- (block_head_issues block). tauto.
  - rewrite Hb2, Hb1. unfold s0; simpl. rewrite Hb, fmap_app. csimpl.
    unfold dict_of_list. by rewrite foldl_snoc.
  - rewrite Hr2, Hr1. unfold s0; simpl. rewrite Hr, fmap_app. csimpl. by rewrite counter_snoc.
  - rewrite Hn2, Hn1. unfold s0; simpl. rewrite Hn, fmap_app. csimpl. by rewrite counter_snoc.
  - by rewrite Hd2, EL.
  - by rewrite Ho2, EL.
Qed.

Lemma scan_blocks_spec initial :
  scanned (es_blocks shape) initial (scan_blocks shape limits initial).
Proof.
  unfold scan_blocks. induction (es_blocks shape) as [|block blocks IH] using rev_ind.
  - split; simpl; try done. split; [|tauto]. intros ->. split_and!; [done| |constructor..].
    by intros ? ?%elem_of_nil.
  - rewrite foldl_snoc. by apply scan_block_spec.
Qed.

(** ** The checks after the scan *)

Lemma total_map {A K} `{EqDecision K} (f : A → K) (g : A → Z) k l :
  total k ((λ x, (f x, g x)) <$> l) = zsum (g <$> filter (λ x, f x = k) l).
Proof.
  unfold total. induction l as [|x l IH]; csimpl; [done|].
  rewrite !filter_cons; simpl. case_decide; csimpl; by rewrite IH.
Qed.

Lemma zsum_ones {A} (l : list A) : zsum ((λ _, 1) <$> l) = Z.of_nat (length l).
Proof. induction l as [|x l IH]; csimpl; [done|]. rewrite IH. lia. Qed.

Lemma header_issues_nil :
  header_issues shape limits = [] ↔
  1 ≤ es_channels shape ≤ rl_max_channels limits ∧
  ∀ chunks, es_chunks_per_loop shape = Some chunks → 1 ≤ chunks < 2 ^ 31.
Proof.
  unfold header_issues. rewrite app_nil, issue_unless_nil, between_true.
  destruct (es_chunks_per_loop shape) as [c|]; [|naive_solver].
  rewrite issue_unless_nil, between_true. naive_solver lia.
Qed.

Lemma fmap_fst_pairs {A B C} (f : A → B) (g : A → C) (l : list A) :
  ((λ x, (f x, g x)) <$> l).*1 = f <$> l.
Proof. by rewrite <- list_fmap_compose. Qed.

(** A check on every entry of a counter is one on every key counted. *)
Lemma counter_entries {A K} `{EqDecision K} (f : A → K) (g : A → Z) l (P : K → Z → Prop) :
  (∀ kn, kn ∈ counter ((λ x, (f x, g x)) <$> l) → P kn.1 kn.2) ↔
  ∀ x, x ∈ l → P (f x) (zsum (g <$> filter (λ y, f y = f x) l)).
Proof.
  split.
  - intros H x Hx. rewrite <- (total_map f g (f x) l).
    apply (H (f x, total (f x) ((λ x, (f x, g x)) <$> l))), elem_of_counter.
    rewrite fmap_fst_pairs. split; [by apply list_elem_of_fmap_2|done].
  - intros H [k n]. rewrite elem_of_counter, fmap_fst_pairs, list_elem_of_fmap.
    intros ((x & -> & Hx) & ->). simpl. rewrite total_map. by apply H.
Qed.

Section after_scan.
Context (initial : list CapacityViolation) (s : CapacityScan).
Context (Hs : scanned (es_blocks shape) initial s).

Lemma node_issues_nil :
  node_issues shape s = [] ↔
  1 + es_rank_count shape ≤ XML_MAX_RETAINED_NODES ∧
  ∀ block, block ∈ es_blocks shape →
    1 + es_rank_count shape + nodes_on (bc_rank block) ≤ XML_MAX_RETAINED_NODES.
Proof.
  unfold node_issues. cbv zeta. rewrite (sd_nodes _ _ _ Hs).
  destruct (Z.ltb_spec XML_MAX_RETAINED_NODES (1 + es_rank_count shape)); [naive_solver lia|].
  rewrite bind_nil. unfold nodes_on, blocks_on.
  rewrite <- (counter_entries bc_rank (λ block, 1 + Z.of_nat (length (bc_steps block)))
    (es_blocks shape) (λ _ n, 1 + es_rank_count shape + n ≤ XML_MAX_RETAINED_NODES)).
  split.
  - intros Hn. split; [lia|]. intros [k n] Hk. specialize (Hn _ Hk). simpl in Hn.
    apply rank_issue_nil in Hn. by bool_prop.
  - intros [_ Hn] [k n] Hk. apply rank_issue_nil, Z.leb_le, (Hn _ Hk).
Qed.

Lemma rank_issues_nil :
  rank_issues shape limits s = [] ↔
  (∀ block, block ∈ es_blocks shape →
    Z.of_nat (length (blocks_on (bc_rank block))) ≤ rl_tbs_per_rank limits) ∧
  (∀ block id, block ∈ es_blocks shape →
    (∃ b, b ∈ blocks_on (bc_rank block) ∧ bc_tb_id b = id) ↔
    0 ≤ id < Z.of_nat (length (blocks_on (bc_rank block)))).
Proof.
  unfold rank_issues. rewrite bind_nil, (sd_rank_blocks _ _ _ Hs).
  transitivity (∀ kn, kn ∈ counter ((λ block, (bc_rank block, 1)) <$> es_blocks shape) →
    kn.2 ≤ rl_tbs_per_rank limits ∧
    ∀ id, (∃ b, b ∈ blocks_on kn.1 ∧ bc_tb_id b = id) ↔ 0 ≤ id < kn.2).
  { apply forall_proper. intros [k n].
    match goal with |- (?A → ?B) ↔ (?A → ?C) => cut (B ↔ C); [tauto|] end. cbv zeta.
    rewrite app_nil, !rank_issue_nil, Z.leb_le, bool_decide_eq_true, set_eq. simpl.
    apply and_iff_compat_l, forall_proper. intros id.
    rewrite !elem_of_list_to_set, elem_of_seqZ. unfold rank_ids, blocks_on.
    rewrite list_elem_of_fmap.
    assert ((∃ y, id = bc_tb_id y ∧ y ∈ filter (λ block, bc_rank block = k) (es_blocks shape)) ↔
      (∃ b, b ∈ filter (λ block, bc_rank block = k) (es_blocks shape) ∧ bc_tb_id b = id)) as ->
      by naive_solver.
    rewrite Z.add_0_l. done. }
  rewrite (counter_entries bc_rank (λ _, 1) (es_blocks shape) (λ k n,
    n ≤ rl_tbs_per_rank limits ∧
    ∀ id, (∃ b, b ∈ blocks_on k ∧ bc_tb_id b = id) ↔ 0 ≤ id < n)).
  setoid_rewrite zsum_ones. unfold blocks_on. naive_solver.
Qed.

Lemma direction_issues_nil :
  direction_issues limits s = [] ↔
  ∀ rank peer channel direction,
    (rank, peer, channel, direction) ∈ es_blocks shape ≫= connections →
    lane_load (rank, channel, direction) ≤ direction_limit limits direction.
Proof.
  unfold direction_issues. rewrite bind_nil, (sd_directions _ _ _ Hs).
  transitivity (∀ kn, kn ∈ counter ((λ c, (connection_lane c, 1)) <$>
      (es_blocks shape ≫= connections)) → kn.2 ≤ direction_limit limits kn.1.2).
  { apply forall_proper. intros [[[r c] d] n].
    match goal with |- (?A → ?B) ↔ (?A → ?C) => cut (B ↔ C); [tauto|] end.
    by rewrite rank_issue_nil, Z.leb_le. }
  rewrite (counter_entries connection_lane (λ _, 1) _
    (λ k n, n ≤ direction_limit limits k.2)).
  setoid_rewrite zsum_ones. unfold lane_load. split.
  - intros H r p c d Hin. apply (H _ Hin).
  - intros H [[[r p] c] d] Hin. apply (H _ _ _ _ Hin).
Qed.

Lemma target_issues_nil :
  NoDup (key_of <$> es_blocks shape) →
  target_issues shape limits s = [] ↔
  ∀ block step, block ∈ es_blocks shape → step ∈ bc_steps block → target_exists block step.
Proof.
  intros Hnd. unfold target_issues. rewrite bind_nil. setoid_rewrite bind_nil.
  setoid_rewrite issue_unless_nil.
  assert (Hget : ∀ k target, dict_get k (sn_by_id s) = Some target ↔
    target ∈ es_blocks shape ∧ key_of target = k).
  { intros k target. rewrite (sd_by_id _ _ _ Hs), dict_of_list_nodup
      by (by rewrite fmap_fst_pairs).
    split.
    - intros (b & [= -> ->] & Hb)%dict_get_Some_1%list_elem_of_fmap. done.
    - intros [Hb <-]. apply dict_get_Some_2; [by rewrite fmap_fst_pairs|].
      by apply (list_elem_of_fmap_2 (λ b, (key_of b, b))). }
  assert (Ht : ∀ block step, target_ok (sn_by_id s) block step = true ↔ target_exists block step).
  { intros block step. unfold target_ok, target_exists.
    rewrite orb_true_iff, andb_true_iff, !Z.eqb_eq.
    match goal with |- ?A ∨ ?B ↔ ?A ∨ ?C => cut (B ↔ C); [tauto|] end.
    destruct (dict_get _ (sn_by_id s)) as [target|] eqn:E.
    - rewrite andb_true_iff, Z.leb_le, Z.ltb_lt. apply Hget in E as [Hin [= E1 E2]].
      split; [eauto 10|]. intros (t & Ht & Er & Ei & Hr).
      assert (t = target) as <-; [|done]. assert (Hk : key_of t = key_of target)
        by (unfold key_of; congruence).
      pose proof (proj2 (Hget _ _) (conj Ht eq_refl)) as G1.
      pose proof (proj2 (Hget _ _) (conj Hin eq_refl)) as G2. congruence.
    - split; [done|]. intros (t & Ht & Er & Ei & _).
      assert (dict_get (bc_rank block, st_dependency_tb step) (sn_by_id s) = Some t); [|congruence].
      apply Hget. split; [done|]. unfold key_of. congruence. }
  setoid_rewrite Ht. naive_solver.
Qed.
End after_scan.

Lemma scan_issues_fit :
  sn_issues (scan_blocks shape limits (header_issues shape limits)) ++
    node_issues shape (scan_blocks shape limits (header_issues shape limits)) ++
    rank_issues shape limits (scan_blocks shape limits (header_issues shape limits)) ++
    direction_issues limits (scan_blocks shape limits (header_issues shape limits)) ++
    target_issues shape limits (scan_blocks shape limits (header_issues shape limits)) = [] ↔
  fits.
Proof.
  pose proof (scan_blocks_spec (header_issues shape limits)) as Hs.
  rewrite !app_nil, (sd_issues _ _ _ Hs), header_issues_nil, (node_issues_nil _ _ Hs),
    (rank_issues_nil _ _ Hs), (direction_issues_nil _ _ Hs).
  split.
  - intros (([? ?] & ? & Hnd & ?) & (? & ?) & (? & ?) & ? & Ht).
    pose proof (proj1 (target_issues_nil _ _ Hs Hnd) Ht). by constructor.
  - intros [? ? ? ? ? ? ? ? ? ? ?]. split_and!; try done.
    3: by apply (proj2 (target_issues_nil _ _ Hs ltac:(done))).
    all: lia.
Qed.

(** The scratch arguments are well formed, and the scratch fits its budget. *)
Definition scratch_valid (slice : option Z) (budget : option scratch_budget) : Prop :=
  match slice, budget with
  | Some slice, Some budget => 1 ≤ slice ∧ ∀ rank slots, (rank, slots) ∈ es_scratch_slots shape →
      0 ≤ rank < es_rank_count shape ∧ 0 ≤ slots ∧ 0 ≤ budget_of budget rank
  | _, _ => True
  end.

Definition scratch_fits (slice : option Z) (budget : option scratch_budget) : Prop :=
  match slice, budget with
  | Some slice, Some budget => ∀ rank slots, (rank, slots) ∈ es_scratch_slots shape →
      slots * slice ≤ budget_of budget rank
  | _, _ => True
  end.

Lemma scratch_loop slice budget issues l :
  (∀ rank slots, (rank, slots) ∈ l →
     0 ≤ rank < es_rank_count shape ∧ 0 ≤ slots ∧ 0 ≤ budget_of budget rank) →
  ∃ r, foldM (scratch_step shape slice budget) issues l = Ok r ∧
    (r = [] ↔ issues = [] ∧ ∀ rank slots, (rank, slots) ∈ l →
       slots * slice ≤ budget_of budget rank).
Proof.
  revert issues. induction l as [|[rank slots] l IH]; intros issues Hv; cbn [foldM].
  { exists issues. split; [done|]. split; [|by intros []]. intros ->. split; [done|].
    by intros ?? ?%elem_of_nil. }
  destruct (Hv rank slots) as ([H1 H2] & H3 & H4); [by left|].
  assert (scratch_step shape slice budget issues (rank, slots) =
    Ok (issues ++ rank_issue (slots * slice <=? budget_of budget rank) "scratch_bytes" rank
          (slots * slice) (budget_of budget rank) "")) as ->.
  { unfold scratch_step. rewrite (proj2 (Z.leb_le _ _) H1), (proj2 (Z.ltb_lt _ _) H2),
      (proj2 (Z.ltb_ge _ _) H3), (proj2 (Z.ltb_ge _ _) H4). done. }
  cbn [mbind res_bind].
  edestruct IH as (r & -> & Hr); [intros ???; apply Hv; by right|].
  exists r. split; [done|]. rewrite Hr, app_nil, rank_issue_nil, Z.leb_le.
  setoid_rewrite elem_of_cons. naive_solver.
Qed.
End limits.

Lemma scratch_loop_nil shape slice budget issues l r :
  foldM (scratch_step shape slice budget) issues l = Ok r → r = [] → issues = [].
Proof.
  revert issues. induction l as [|[rank slots] l IH]; intros issues H Hr; cbn [foldM] in H.
  { by injection H as ->. }
  apply bind_Ok in H as (issues' & H1 & H). specialize (IH _ H Hr). subst issues'.
  unfold scratch_step in H1. apply bind_Ok in H1 as ([] & _ & [= H1]).
  by apply app_eq_nil in H1 as [-> _].
Qed.

(** An accepted program fits the limits. *)
Lemma capacity_fits shape limits slice budget report :
  check_capacity shape limits slice budget = Ok report → compatible report = true → fits shape limits.
Proof.
  unfold check_capacity, compatible. intros H ->%bool_decide_eq_true.
  apply bind_Ok in H as ([] & _ & H). cbv zeta in H. apply scan_issues_fit.
  destruct slice, budget; try (by injection H).
  apply bind_Ok in H as ([] & _ & H). by eapply scratch_loop_nil.
Qed.

(** C39 The capacity check is exact: on a positive rank count and well-formed
    scratch arguments it returns a report, and the report is compatible
    exactly when the program fits the runtime: channels, ranks, threadblock
    and step counts, unique and dense threadblock identifiers, connection
    owners and their load per channel, offsets, dependencies on existing
    steps, retained XML nodes per rank, and scratch bytes. *)
Theorem check_capacity_exact shape limits slice budget :
  1 ≤ es_rank_count shape → scratch_valid shape slice budget →
  ∃ report, check_capacity shape limits slice budget = Ok report ∧
    (compatible report = true ↔ fits shape limits ∧ scratch_fits shape slice budget).
Proof.
  intros Hr Hv. unfold check_capacity. rewrite (proj2 (Z.ltb_ge _ _)) by lia.
  cbn [raise_when mbind res_bind]. cbv zeta. unfold compatible.
  pose proof (scan_issues_fit shape limits) as E. destruct slice as [slice|], budget as [budget|]; simpl in *;
    try (eexists; split; [done|]; rewrite bool_decide_eq_true, E; tauto).
  destruct Hv as [Hs Hv]. rewrite (proj2 (Z.ltb_ge _ _)) by lia. cbn [raise_when mbind res_bind].
  edestruct scratch_loop as (r & -> & Hr'); [exact Hv|].
  exists r. split; [done|]. by rewrite bool_decide_eq_true, Hr', E.
Qed.

(** ** Granularity *)

Lemma positive_integer_Ok v f z : _positive_integer v f = Ok z ↔ v = PInt z ∧ 1 ≤ z.
Proof.
  destruct v; simpl; try (split; [done|naive_solver]).
  split.
  - intros H. inv_res. bool_prop. by subst.
  - intros [[= ->] ?]. by rewrite (proj2 (Z.ltb_ge _ _)).
Qed.

Lemma positive_integer_int z f : 1 ≤ z → _positive_integer (PInt z) f = Ok z.
Proof. intros. by apply positive_integer_Ok. Qed.

Lemma simple_payload_capacity_Ok b d c :
  simple_payload_capacity b d = Ok c ↔
  8 ≤ b < 2 ^ 31 ∧ d ∈ [1; 2; 4; 8] ∧ c = b / 8 / d * d * 4.
Proof.
  unfold simple_payload_capacity. split.
  - intros H. inv_res. bool_prop. subst. split_and!; try done; lia.
  - intros (H1 & H2 & ->). rewrite bool_decide_eq_true_2 by done.
    rewrite (proj2 (Z.leb_le 8 b)), (proj2 (Z.leb_le b (2 ^ 31 - 1))) by lia. done.
Qed.

(** The payload of a step: four steps of whole elements, in 32 bits. *)
Lemma payload_capacity_bounds b d c :
  simple_payload_capacity b d = Ok c →
  0 ≤ c < 2 ^ 30 ∧ 2 * c ≤ b ∧ (4 * d | c) ∧ (∀ m, m * d ≤ b / 8 → 4 * (m * d) ≤ c).
Proof.
  intros (Hb & Hd & ->)%simple_payload_capacity_Ok.
  assert (0 < d) by (rewrite !elem_of_cons, elem_of_nil in Hd; lia).
  pose proof (Z.mul_div_le b 8). pose proof (Z.div_pos b 8).
  pose proof (Z.mul_div_le (b / 8) d). pose proof (Z.div_pos (b / 8) d).
  split_and!; try lia.
  - exists (b / 8 / d). ring.
  - intros m Hm. assert (m ≤ b / 8 / d) by (apply Z.div_le_lower_bound; lia). nia.
Qed.

(** C40 The granularity check accepts exactly the runtime sizes whose bytes
    split into [nchunks] chunks of one slice, whole elements of a supported
    width, a chunk count in 32 bits, and a slice within the four steps of the
    protocol buffer; an accepted slice is below [2^30] bytes and fits twice in
    the buffer. *)
Theorem verify_atom_granularity_exact count mult width chunks slice buffsize :
  let accepted := verify_atom_granularity (PInt count) (PInt mult) (PInt width) (PInt chunks)
                    (PInt slice) (PInt buffsize) = Ok tt in
  (accepted ↔
     1 ≤ count ∧ 1 ≤ mult ∧ 1 ≤ slice ∧ 1 ≤ chunks < 2 ^ 31 ∧
     width ∈ [1; 2; 4; 8] ∧ 8 ≤ buffsize < 2 ^ 31 ∧
     count * mult * width = chunks * slice ∧ (width | slice) ∧
     ∃ m, m * width ≤ buffsize / 8 ∧ slice ≤ 4 * (m * width)) ∧
  (accepted → slice < 2 ^ 30 ∧ 2 * slice ≤ buffsize).
Proof.
  cbv zeta. unfold verify_atom_granularity.
  match goal with |- (?A ↔ ?B) ∧ (?A → ?C) => cut ((A → B ∧ C) ∧ (B → A)); [tauto|] end.
  split.
  - intros H. inv_res. repeat match goal with H : _positive_integer _ _ = Ok _ |- _ =>
      apply positive_integer_Ok in H as [[= <-] ?] end.
    rewrite !py_mod_Ok, !py_floordiv_Ok in * by lia. inv_res. subst. bool_prop.
    match goal with H : simple_payload_capacity _ _ = Ok _ |- _ =>
      pose proof (payload_capacity_bounds _ _ _ H) as (Hc & Hc2 & _ & _);
      apply simple_payload_capacity_Ok in H as (Hb & Hd & ->) end.
    split; [|lia]. split_and!; try done; try lia.
    + match goal with H : _ / chunks = slice |- _ => rewrite <- H end.
      apply Z.div_exact; [lia|done].
    + by apply Z.mod_divide; [lia|].
    + exists (buffsize / 8 / width). split; [|lia].
      pose proof (Z.mul_div_le (buffsize / 8) width). lia.
  - intros (H1 & H2 & H3 & H4 & H5 & H6 & E & Hdiv & m & Hm & Hs).
    assert (Hw : 1 ≤ width) by (rewrite !elem_of_cons, elem_of_nil in H5; lia).
    rewrite !positive_integer_int by lia. cbn [mbind res_bind].
    rewrite !py_mod_Ok, py_floordiv_Ok by lia. cbn [mbind res_bind].
    rewrite E, Z.mul_comm, Z.mod_mul, Z.div_mul by lia. cbn [Z.eqb negb raise_when mbind res_bind].
    rewrite Z.eqb_refl, (proj2 (Z.mod_divide slice width ltac:(lia)) Hdiv).
    cbn [Z.eqb negb raise_when mbind res_bind].
    rewrite (proj2 (Z.ltb_ge _ _)) by lia. cbn [raise_when mbind res_bind].
    rewrite (proj2 (simple_payload_capacity_Ok buffsize width _)) by (split_and!; [lia..|done|reflexivity]).
    cbn [mbind res_bind].
    destruct (payload_capacity_bounds buffsize width (buffsize / 8 / width * width * 4))
      as (_ & _ & _ & Hmax); [by apply simple_payload_capacity_Ok|].
    specialize (Hmax m Hm). by rewrite (proj2 (Z.ltb_ge _ _)) by lia.
Qed.

Lemma verify_atom_granularity_exact_witness :
  verify_atom_granularity (PInt 1024) (PInt 2) (PInt 4) (PInt 8) (PInt 1024) (PInt 4194304)
    = Ok tt ∧ 1024 < 2 ^ 30 ∧ 2 * 1024 ≤ 4194304.
Proof.
  assert (H : verify_atom_granularity (PInt 1024) (PInt 2) (PInt 4) (PInt 8) (PInt 1024)
    (PInt 4194304) = Ok tt) by (vm_compute; reflexivity).
  split; [exact H|]. exact (proj2 (verify_atom_granularity_exact 1024 2 4 8 1024 4194304) H).
Defined.

(** ** A shape of two connected ranks *)

Definition demo_shape : ExecutionShape :=
  MkExecutionShape 2 1
    [MkBlockCapacity 0 0 0 1 (-1) [MkStepCapacity "s" 0 (-1) (-1) (-1) 1];
     MkBlockCapacity 1 0 0 (-1) 0 [MkStepCapacity "r" (-1) 0 (-1) (-1) 1]]
    [(0, 2); (1, 0)] (Some 2).

Lemma check_capacity_exact_witness :
  check_capacity demo_shape default_limits (Some 1024) (Some (SharedBudget 2048)) = Ok [] ∧
  fits demo_shape default_limits.
Proof.
  assert (E : check_capacity demo_shape default_limits (Some 1024) (Some (SharedBudget 2048))
    = Ok []) by (vm_compute; reflexivity).
  split; [exact E|].
  destruct (check_capacity_exact demo_shape default_limits (Some 1024) (Some (SharedBudget 2048)))
    as (r & Hr & Hc).
  - simpl. lia.
  - split; [lia|]. simpl. intros rank slots. rewrite !elem_of_cons, elem_of_nil.
    intros [[= -> ->]|[[= -> ->]|[]]]; lia.
  - rewrite E in Hr. injection Hr as <-. apply Hc. reflexivity.
Defined.
