(* ===== verification/Floats.v ===== *)
(** * Arithmetic on floating point times

    A finite double is a number of ticks of [2^-1074] with at most 53
    significant bits ([Python.pyfloat]); sums and differences of ticks are
    exact, and [round_ticks] rounds them to the nearest double, ties to even.
    Subnormal results are exact. *)

From S2P Require Import Prelude.
From S2P Require Import Python.
From S2P Require Import XmlModel.
Local Open Scope Z_scope.

(** Rounding of a magnitude to 53 significant bits, ties to even. *)
Definition round_magnitude (a : Z) : Z :=
  let bits := Z.log2 a + 1 in
  if bits <=? 53 then a
  else
    let sh := bits - 53 in
    let q := Z.shiftr a sh in
    let r := a - Z.shiftl q sh in
    let half := Z.shiftl 1 (sh - 1) in
    Z.shiftl (if (half <? r) || ((half =? r) && Z.odd q) then q + 1 else q) sh.

(** The first tick count past the largest finite double. *)
Definition overflow_ticks : Z := 2 ^ 1024 * one_us.

(** The double nearest to a number of ticks. *)
Definition float_of_ticks (z : Z) : pyfloat :=
  let v := round_magnitude (Z.abs z) in
  if overflow_ticks <=? v then (if z <? 0 then NegInf else PosInf) else Finite (Z.sgn z * v).

(** [x + y], [-x] and [x - y]. *)
Definition float_add (x y : pyfloat) : pyfloat :=
  match x, y with
  | NaN, _ | _, NaN => NaN
  | Finite a, Finite b => float_of_ticks (a + b)
  | PosInf, NegInf | NegInf, PosInf => NaN
  | PosInf, _ | _, PosInf => PosInf
  | NegInf, _ | _, NegInf => NegInf
  end.

Definition float_neg (x : pyfloat) : pyfloat :=
  match x with
  | Finite a => Finite (- a)
  | PosInf => NegInf
  | NegInf => PosInf
  | NaN => NaN
  end.

Definition float_sub (x y : pyfloat) : pyfloat := float_add x (float_neg y).

(** [max(x, y)] keeps the first argument unless the second is greater. *)
Definition float_max (x y : pyfloat) : pyfloat := if float_ltb x y then y else x.

(** [x <= y] and [x == y]: false when either is NaN. *)
Definition float_eqb (x y : pyfloat) : bool :=
  match x, y with
  | Finite a, Finite b => a =? b
  | PosInf, PosInf | NegInf, NegInf => true
  | _, _ => false
  end.
Definition float_leb (x y : pyfloat) : bool := float_ltb x y || float_eqb x y.

(** The order of floats inside tuples.  No constructor of the program lets a
    NaN into a time; the instance places it last. *)
Definition float_class (x : pyfloat) : Z :=
  match x with NegInf => 0 | Finite _ => 1 | PosInf => 2 | NaN => 3 end.
Definition float_ticks (x : pyfloat) : Z := match x with Finite a => a | _ => 0 end.

#[export] Program Instance pyfloat_PyOrd : PyOrd pyfloat :=
  {| pcmp x y := pcmp (float_class x, float_ticks x) (float_class y, float_ticks y) |}.
Next Obligation.
  intros x y. rewrite pcmp_eq. destruct x, y; simpl; naive_solver.
Qed.
Next Obligation. intros. apply pcmp_sym. Qed.
Next Obligation. intros x y z. apply pcmp_trans. Qed.

Lemma pltb_float x y : x ≠ NaN → y ≠ NaN → pltb x y = float_ltb x y.
Proof.
  intros Hx Hy. destruct x as [a| | |], y as [b| | |]; done.
Qed.

(** ** Bounds of rounding *)

Lemma round_magnitude_nonneg a : 0 ≤ a → 0 ≤ round_magnitude a.
Proof.
  intros Ha. unfold round_magnitude. cbv zeta. destruct (_ <=? 53) eqn:E; [done|].
  apply Z.shiftl_nonneg. assert (0 ≤ Z.shiftr a (Z.log2 a + 1 - 53)) by by apply Z.shiftr_nonneg.
  case_match; lia.
Qed.

Lemma round_magnitude_0 : round_magnitude 0 = 0.
Proof. reflexivity. Qed.

(** [x - x == 0.0] for finite times, and differences keep their sign. *)
Lemma float_sub_self a : float_sub (Finite a) (Finite a) = Finite 0.
Proof. unfold float_sub; simpl. by rewrite Z.add_opp_diag_r. Qed.

Lemma float_sub_sign a b c : float_sub (Finite a) (Finite b) = Finite c → b ≤ a → 0 ≤ c.
Proof.
  unfold float_sub; simpl. unfold float_of_ticks. cbv zeta. intros H Hle.
  destruct (_ <=? _); [by destruct (_ <? 0)|]. injection H as <-.
  pose proof (round_magnitude_nonneg (Z.abs (a + - b)) ltac:(lia)). nia.
Qed.
