(* ===== verification/Aliases.v ===== *)
(** * Address aliases ([_Aliases] of [vericcl/xml/liveness.py])

    A union-find over buffer addresses, with the path compression of [find]
    and the union by least address; [vericcl/xml/dependencies.py] has the same
    functions as closures.  It decides the equivalence that the alias pairs
    generate. *)

From stdpp Require Import relations.
From S2P Require Import Prelude.
From S2P Require Import Python.
From S2P Require Import XmlModel.
Local Open Scope Z_scope.

(** [(rank, buffer, offset)] *)
Notation Address := (Z * string * Z)%type.

Definition address (ref : PhysicalRef) : Address := (pr_rank ref, pr_buffer ref, pr_offset ref).

Notation parents := (gmap Address Address).

(** [self._parent.setdefault(a, a)] *)
Definition setdefault (a : Address) (p : parents) : parents :=
  match p !! a with Some _ => p | None => <[a:=a]> p end.

(** [find], with fuel for the recursion along the parents. *)
Fixpoint find_loop (fuel : nat) (p : parents) (a : Address) : res (parents * Address) :=
  match fuel with
  | O => Err OutOfFuel
  | S fuel =>
      let p := setdefault a p in
      let parent := default a (p !! a) in
      if decide (parent ≠ a) then
        '(p, root) ← find_loop fuel p parent;
        Ok (<[a:=root]> p, root)
      else Ok (p, parent)
  end.

(** A chain of parents passes each address once. *)
Definition find (p : parents) (a : Address) : res (parents * Address) :=
  find_loop (S (S (size p))) p a.

Definition union (p : parents) (left right : Address) : res parents :=
  '(p, left_root) ← find p left;
  '(p, right_root) ← find p right;
  if decide (left_root = right_root) then Ok p
  else
    let '(root, child) := if pltb left_root right_root then (left_root, right_root)
                          else (right_root, left_root) in
    Ok (<[child:=root]> p).

(** The loop over the alias pairs of a plan. *)
Definition Aliases_init (aliases : list (PhysicalRef * PhysicalRef)) : res parents :=
  foldM (λ p '(left_ref, right_ref), union p (address left_ref) (address right_ref)) ∅ aliases.

Definition canonical (p : parents) (ref : PhysicalRef) : res (parents * Address) :=
  find p (address ref).

(** * The union-find decides the alias equivalence

    Every parent is at most its child in the order of addresses, so [find]
    terminates; compression keeps representatives, union joins two classes. *)

(** [x] is the end of its chain of parents. *)
Definition is_root (p : parents) (x : Address) : Prop := default x (p !! x) = x.

(** The representative that following the parents reaches. *)
Inductive rep (p : parents) : Address → Address → Prop :=
  | rep_root x : is_root p x → rep p x x
  | rep_step x y r : p !! x = Some y → y ≠ x → rep p y r → rep p x r.

Record uf_inv (p : parents) : Prop := {
  ui_closed x y : p !! x = Some y → y ∈ dom p;
  ui_order x y : p !! x = Some y → y ≠ x → pltb y x = true;
}.

Lemma rep_fun p x r r' : rep p x r → rep p x r' → r = r'.
Proof.
  intros H. revert r'. induction H as [x Hx|x y r Hy Hne _ IH]; intros r' H'.
  - destruct H' as [|? y ? Hy Hne _]; [done|]. unfold is_root in Hx. rewrite Hy in Hx. done.
  - destruct H' as [? Hx|? y' ? Hy' _ H']; [unfold is_root in Hx; by rewrite Hy in Hx|].
    apply IH. congruence.
Qed.

Lemma rep_is_root p x r : rep p x r → is_root p r.
Proof. by induction 1. Qed.

(** The addresses below one bound the length of its chain. *)
Definition below (p : parents) (x : Address) : nat :=
  size (filter (λ y, pltb y x = true) (dom p)).

Lemma below_lt p x y : y ∈ dom p → pltb y x = true → (below p y < below p x)%nat.
Proof.
  intros Hy Hlt. unfold below. apply subset_size. split.
  - intros z. rewrite !elem_of_filter. intros [Hz ?]. split; [|done].
    eapply pltb_leb_trans; [exact Hz|]. by apply pltb_le.
  - intros Hsub. specialize (Hsub y). rewrite !elem_of_filter in Hsub.
    destruct Hsub as [Hyy _]; [done|]. by rewrite pltb_irrefl in Hyy.
Qed.

Lemma below_size p x : (below p x ≤ size p)%nat.
Proof.
  unfold below. rewrite <- (size_dom (D:=gset Address) p). apply subseteq_size. intros z. rewrite elem_of_filter. by intros [_ ?].
Qed.

Lemma rep_total p x : uf_inv p → ∃ r, rep p x r.
Proof.
  intros Hi. remember (below p x) as n eqn:Hn. revert x Hn.
  induction (lt_wf n) as [n _ IH]. intros x ->.
  destruct (p !! x) as [y|] eqn:E; [|exists x; constructor; unfold is_root; by rewrite E].
  destruct (decide (y = x)) as [->|Hne]; [exists x; constructor; unfold is_root; by rewrite E|].
  destruct (IH (below p y)) with (x := y) as [r Hr]; [|done|exists r; by eapply rep_step].
  apply below_lt; [by eapply ui_closed|by eapply ui_order].
Qed.

Lemma rep_le p x r : uf_inv p → rep p x r → pleb r x = true.
Proof.
  intros Hi. induction 1 as [|x y r Hy Hne _ IH]; [apply pleb_refl|].
  eapply pleb_trans; [exact IH|]. apply pltb_le. by eapply ui_order.
Qed.

(** ** Changes that keep representatives *)

Lemma setdefault_inv p x : uf_inv p → uf_inv (setdefault x p).
Proof.
  intros Hi. unfold setdefault. destruct (p !! x) eqn:E; [done|]. split.
  - intros y z. rewrite lookup_insert_Some, dom_insert_L, elem_of_union, elem_of_singleton.
    intros [[-> ->]|[_ Hz]]; [by left|right; by eapply ui_closed].
  - intros y z. rewrite lookup_insert_Some. intros [[-> ->]|[_ Hz]]; [done|by eapply ui_order].
Qed.

Lemma setdefault_lookup p x y : default y (setdefault x p !! y) = default y (p !! y).
Proof.
  unfold setdefault. destruct (p !! x) eqn:E; [done|].
  destruct (decide (x = y)) as [->|]; [by rewrite lookup_insert_eq, E|by rewrite lookup_insert_ne].
Qed.

Lemma rep_default p q x r :
  (∀ y, default y (q !! y) = default y (p !! y)) → rep p x r → rep q x r.
Proof.
  intros H. induction 1 as [x Hx|x y r Hy Hne _ IH].
  - constructor. unfold is_root. by rewrite H.
  - specialize (H x). rewrite Hy in H. simpl in H. eapply rep_step; [|done..].
    destruct (q !! x); simpl in H; congruence.
Qed.

Lemma setdefault_rep p x y r : rep (setdefault x p) y r ↔ rep p y r.
Proof.
  split; apply rep_default; intros z; by rewrite setdefault_lookup.
Qed.

Lemma setdefault_dom p x : dom (setdefault x p) = {[x]} ∪ dom p.
Proof.
  unfold setdefault. destruct (p !! x) eqn:E; [|by rewrite dom_insert_L].
  apply elem_of_dom_2 in E. set_solver.
Qed.

(** Path compression. *)
Lemma compress_inv p a r :
  uf_inv p → rep p a r → r ∈ dom p → uf_inv (<[a:=r]> p).
Proof.
  intros Hi Hr Hd. split.
  - intros x y. rewrite lookup_insert_Some, dom_insert_L, elem_of_union.
    intros [[_ <-]|[_ Hy]]; [by right|right; by eapply ui_closed].
  - intros x y. rewrite lookup_insert_Some. intros [[<- <-]|[_ Hy]] Hne; [|by eapply ui_order].
    pose proof (rep_le _ _ _ Hi Hr) as Hle.
    destruct (pltb r a) eqn:E; [done|]. exfalso. apply Hne.
    apply pleb_antisym; [exact Hle|]. rewrite pleb_pltb. by rewrite E.
Qed.

Lemma compress_rep_1 p a r x y :
  uf_inv p → rep p a r → rep p x y → rep (<[a:=r]> p) x y.
Proof.
  intros Hi Ha Hx. pose proof (rep_is_root _ _ _ Ha) as Hroot.
  assert (Hroot' : is_root (<[a:=r]> p) r).
  { unfold is_root. destruct (decide (a = r)) as [->|]; [by rewrite lookup_insert_eq|].
    by rewrite lookup_insert_ne. }
  induction Hx as [x Hx|x z y Hz Hne Hzy IH].
  - destruct (decide (a = x)) as [->|Hax].
    + pose proof (rep_fun _ _ _ _ (rep_root p x Hx) Ha) as E. subst r. by apply rep_root.
    + constructor. unfold is_root. by rewrite lookup_insert_ne.
  - destruct (decide (a = x)) as [->|Hax].
    + pose proof (rep_fun _ _ _ _ (rep_step p x z y Hz Hne Hzy) Ha) as E. subst y.
      destruct (decide (r = x)) as [->|]; [by apply rep_root|].
      eapply rep_step; [by rewrite lookup_insert_eq|done|by apply rep_root].
    + eapply rep_step; [by rewrite lookup_insert_ne|done..].
Qed.

Lemma rep_iff p q :
  uf_inv p → (∀ x r, rep p x r → rep q x r) → ∀ x r, rep q x r ↔ rep p x r.
Proof.
  intros Hi H x r. split; [|apply H]. intros Hq. destruct (rep_total p x Hi) as [r' Hr'].
  by rewrite (rep_fun _ _ _ _ Hq (H _ _ Hr')).
Qed.

(** ** [find] *)

(** Two stores of parents that agree on every representative. *)
Definition same_reps (p q : parents) : Prop := ∀ x r, rep q x r ↔ rep p x r.

Lemma find_loop_spec fuel p a :
  uf_inv p → (S (below p a) < fuel)%nat →
  ∃ p' r, find_loop fuel p a = Ok (p', r) ∧ uf_inv p' ∧ same_reps p p' ∧ rep p a r ∧
    r ∈ dom p' ∧ dom p ⊆ dom p'.
Proof.
  revert p a. induction fuel as [|fuel IH]; intros p a Hi Hf; [lia|]. cbn [find_loop]. cbv zeta.
  pose proof (setdefault_inv p a Hi) as Hi1. set (p1 := setdefault a p) in *.
  assert (Ha : a ∈ dom p1) by (unfold p1; rewrite setdefault_dom; set_solver).
  assert (Hsub : dom p ⊆ dom p1) by (unfold p1; rewrite setdefault_dom; set_solver).
  apply elem_of_dom in Ha as [b Hb]. rewrite Hb. simpl. case_decide as Hne.
  - assert (Hb0 : p !! a = Some b).
    { pose proof (setdefault_lookup p a a) as E. fold p1 in E. rewrite Hb in E. simpl in E.
      destruct (p !! a); simpl in E; congruence. }
    assert (E1 : p1 = p) by (unfold p1, setdefault; by rewrite Hb0). rewrite E1 in *. clear E1.
    pose proof (ui_order _ Hi _ _ Hb0 Hne) as Hlt.
    pose proof (ui_closed _ Hi _ _ Hb0) as Hbd. pose proof (below_lt p a b Hbd Hlt).
    destruct (IH p b Hi) as (p' & r & -> & Hi' & Hs & Hr & Hrd & Hd); [lia|]. simpl.
    assert (Har : rep p a r) by (by eapply rep_step).
    exists (<[a:=r]> p'), r. split; [done|]. split; [apply compress_inv; [done| |done]; by apply Hs|].
    split; [|split; [done|split; set_solver]].
    intros x y. rewrite <- (Hs x y). apply rep_iff; [done|].
    intros z w. apply compress_rep_1; [done|]. by apply Hs.
  - assert (b = a) as -> by (destruct (decide (b = a)); [done|tauto]).
    exists p1, a. split; [done|]. split; [done|]. split; [intros x y; apply setdefault_rep|].
    split; [|split; [by eapply elem_of_dom_2|done]].
    apply (setdefault_rep p a). constructor. unfold is_root. fold p1. by rewrite Hb.
Qed.

Lemma find_spec p a :
  uf_inv p →
  ∃ p' r, find p a = Ok (p', r) ∧ uf_inv p' ∧ same_reps p p' ∧ rep p a r ∧ r ∈ dom p' ∧
    dom p ⊆ dom p'.
Proof. intros Hi. apply find_loop_spec; [done|]. pose proof (below_size p a). lia. Qed.

(** ** [union] *)

(** Having the same representative. *)
Definition equivalent (p : parents) (x y : Address) : Prop := ∃ r, rep p x r ∧ rep p y r.

Lemma equivalent_refl p x : uf_inv p → equivalent p x x.
Proof. intros Hi. destruct (rep_total p x Hi) as [r Hr]. by exists r. Qed.

Lemma equivalent_sym p x y : equivalent p x y → equivalent p y x.
Proof. intros (r & ? & ?). by exists r. Qed.

Lemma equivalent_trans p x y z : equivalent p x y → equivalent p y z → equivalent p x z.
Proof. intros (r & ? & H) (s & H' & ?). pose proof (rep_fun _ _ _ _ H H'). subst s. by exists r. Qed.

Lemma same_reps_equivalent p q x y : same_reps p q → equivalent q x y ↔ equivalent p x y.
Proof. intros H. split; intros (r & ? & ?); exists r; split; by apply H. Qed.

(** Hanging one root below another. *)
Lemma link_rep (p : parents) (child root x y : Address) :
  is_root p child → is_root p root → child ≠ root → rep p x y →
  rep (<[child:=root]> p) x (if decide (y = child) then root else y).
Proof.
  intros Hc Hr Hne Hx.
  assert (Hroot : is_root (<[child:=root]> p) root)
    by (unfold is_root; by rewrite lookup_insert_ne).
  induction Hx as [x Hx|x z y Hz Hxz _ IH].
  - case_decide as E.
    + subst. eapply rep_step; [by rewrite lookup_insert_eq|done|by constructor].
    + constructor. unfold is_root. by rewrite lookup_insert_ne.
  - eapply rep_step; [|done|exact IH]. rewrite lookup_insert_ne; [done|].
    intros <-. unfold is_root in Hc. by rewrite Hz in Hc.
Qed.

Lemma link_inv (p : parents) (child root : Address) :
  uf_inv p → root ∈ dom p → pltb root child = true → uf_inv (<[child:=root]> p).
Proof.
  intros Hi Hd Hlt. split.
  - intros x y. rewrite lookup_insert_Some, dom_insert_L, elem_of_union.
    intros [[_ <-]|[_ Hy]]; [by right|right; by eapply ui_closed].
  - intros x y. rewrite lookup_insert_Some. intros [[<- <-]|[_ Hy]] Hne; [done|by eapply ui_order].
Qed.

Lemma link_equivalent (p : parents) (child root x y : Address) :
  uf_inv p → is_root p child → is_root p root → child ≠ root →
  uf_inv (<[child:=root]> p) →
  equivalent (<[child:=root]> p) x y ↔
  equivalent p x y ∨ (equivalent p x child ∧ equivalent p y root) ∨
  (equivalent p x root ∧ equivalent p y child).
Proof.
  intros Hi Hc Hr Hne Hi'.
  destruct (rep_total p x Hi) as [a Ha], (rep_total p y Hi) as [b Hb].
  pose proof (link_rep _ _ _ _ _ Hc Hr Hne Ha) as Ha'.
  pose proof (link_rep _ _ _ _ _ Hc Hr Hne Hb) as Hb'.
  assert (Heq : ∀ q u v ru rv, rep q u ru → rep q v rv → equivalent q u v ↔ ru = rv).
  { intros q u v ru rv Hu Hv. split; [|intros ->; by exists rv].
    intros (w & Hu' & Hv'). by rewrite (rep_fun _ _ _ _ Hu Hu'), (rep_fun _ _ _ _ Hv Hv'). }
  rewrite (Heq _ _ _ _ _ Ha' Hb'), (Heq _ _ _ _ _ Ha Hb),
    !(Heq _ _ _ _ _ Ha (rep_root _ _ Hc)), !(Heq _ _ _ _ _ Hb (rep_root _ _ Hr)),
    !(Heq _ _ _ _ _ Ha (rep_root _ _ Hr)), !(Heq _ _ _ _ _ Hb (rep_root _ _ Hc)).
  repeat case_decide; naive_solver.
Qed.

Lemma union_spec (p : parents) (x y : Address) :
  uf_inv p →
  ∃ p', union p x y = Ok p' ∧ uf_inv p' ∧
    ∀ u v, equivalent p' u v ↔ equivalent p u v ∨
      (equivalent p u x ∧ equivalent p v y) ∨ (equivalent p u y ∧ equivalent p v x).
Proof.
  intros Hi. unfold union.
  destruct (find_spec p x Hi) as (p1 & rx & -> & Hi1 & Hs1 & Hx & Hdx & _). simpl.
  destruct (find_spec p1 y Hi1) as (p2 & ry & -> & Hi2 & Hs2 & Hy & Hdy & Hsub). simpl.
  assert (Hs : same_reps p p2) by (intros a b; rewrite (Hs2 a b); apply Hs1).
  apply Hs1 in Hy.
  assert (Rx : is_root p2 rx) by (apply (rep_is_root p2 x), Hs, Hx).
  assert (Ry : is_root p2 ry) by (apply (rep_is_root p2 y), Hs, Hy).
  assert (Ex : ∀ u, equivalent p2 u rx ↔ equivalent p u x).
  { intros u. rewrite (same_reps_equivalent _ _ _ _ Hs). split; intros H.
    - eapply equivalent_trans; [exact H|]. exists rx. split; [|done].
      constructor. by eapply rep_is_root.
    - eapply equivalent_trans; [exact H|]. exists rx. split; [done|].
      constructor. by eapply rep_is_root. }
  assert (Ey : ∀ u, equivalent p2 u ry ↔ equivalent p u y).
  { intros u. rewrite (same_reps_equivalent _ _ _ _ Hs). split; intros H.
    - eapply equivalent_trans; [exact H|]. exists ry. split; [|done].
      constructor. by eapply rep_is_root.
    - eapply equivalent_trans; [exact H|]. exists ry. split; [done|].
      constructor. by eapply rep_is_root. }
  case_decide as E.
  - subst ry. exists p2. split; [done|]. split; [done|]. intros u v.
    rewrite (same_reps_equivalent _ _ _ _ Hs).
    assert (Hxy : equivalent p x y) by (by exists rx).
    split; [by left|]. intros [H|[[H1 H2]|[H1 H2]]]; [done|..].
    + eapply equivalent_trans; [exact H1|]. eapply equivalent_trans; [exact Hxy|].
      by apply equivalent_sym.
    + eapply equivalent_trans; [exact H1|]. eapply equivalent_trans; [|by apply equivalent_sym].
      by apply equivalent_sym.
  - destruct (pltb rx ry) eqn:Hlt.
    + assert (uf_inv (<[ry:=rx]> p2)) by (apply link_inv; [done|set_solver|done]).
      eexists. split; [done|]. split; [done|]. intros u v.
      rewrite link_equivalent, !Ex, !Ey, (same_reps_equivalent _ _ _ _ Hs) by done. tauto.
    + assert (pltb ry rx = true).
      { rewrite pltb_pleb. apply negb_true_iff. destruct (pleb rx ry) eqn:Hle; [|done].
        exfalso. apply E, pleb_antisym; [done|]. by rewrite pleb_pltb, Hlt. }
      assert (uf_inv (<[rx:=ry]> p2)) by (by apply link_inv).
      eexists. split; [done|]. split; [done|]. intros u v.
      rewrite link_equivalent, !Ex, !Ey, (same_reps_equivalent _ _ _ _ Hs) by done. tauto.
Qed.

(** ** The whole structure *)

(** The equivalence generated by the alias pairs. *)
Definition aliased (aliases : list (PhysicalRef * PhysicalRef)) : relation Address :=
  rtsc (λ x y, ∃ l r, (l, r) ∈ aliases ∧ x = address l ∧ y = address r).

Lemma empty_inv : uf_inv ∅.
Proof. split; intros x y H; by rewrite lookup_empty in H. Qed.

Lemma rtsc_least {A} (R E : relation A) :
  (∀ x, E x x) → (∀ x y, E x y → E y x) → (∀ x y z, E x y → E y z → E x z) →
  (∀ x y, R x y → E x y) → ∀ x y, rtsc R x y → E x y.
Proof.
  intros Hr Hs Ht HR x y. induction 1 as [|x y z [H|H] _ IH]; [done|..]; eauto.
Qed.

Lemma rtsc_mono {A} (R S : relation A) x y :
  (∀ x y, R x y → S x y) → rtsc R x y → rtsc S x y.
Proof.
  intros H. apply rtsc_least; [apply rtc_refl|intros ? ? ?; by symmetry|
    intros ? ? ?; by etrans|]. intros. apply rtc_once. left. auto.
Qed.

Lemma init_loop p done aliases :
  uf_inv p → (∀ x y, equivalent p x y ↔ aliased done x y) →
  ∃ p', foldM (λ p '(left_ref, right_ref), union p (address left_ref) (address right_ref))
          p aliases = Ok p' ∧ uf_inv p' ∧
    ∀ x y, equivalent p' x y ↔ aliased (done ++ aliases) x y.
Proof.
  revert p done. induction aliases as [|[l r] aliases IH]; intros p don Hi He; cbn [foldM].
  { exists p. by rewrite app_nil_r. }
  destruct (union_spec p (address l) (address r) Hi) as (p1 & -> & Hi1 & He1).
  destruct (IH p1 (don ++ [(l, r)]) Hi1) as (p' & Hf & Hi' & He').
  2:{ exists p'. rewrite <- app_assoc in He'. done. }
  assert (Hmono : ∀ x y, equivalent p x y → equivalent p1 x y) by (intros; apply He1; by left).
  assert (Hlr : aliased (don ++ [(l, r)]) (address l) (address r)).
  { apply rtc_once. left. exists l, r. split; [|done]. apply elem_of_app. right. by left. }
  assert (Hold : ∀ x y, equivalent p x y → aliased (don ++ [(l, r)]) x y).
  { intros x y H. apply He in H. revert H. apply rtsc_mono. intros a b (u & v & ? & ? & ?).
    exists u, v. split; [|done]. apply elem_of_app. by left. }
  intros x y. split.
  - intros H. apply He1 in H. destruct H as [H|[[H1 H2]|[H1 H2]]]; [by apply Hold|..];
      apply Hold in H1; apply Hold in H2.
    + etrans; [exact H1|]. etrans; [exact Hlr|]. by symmetry.
    + etrans; [exact H1|]. etrans; [symmetry; exact Hlr|]. by symmetry.
  - apply rtsc_least.
    + intros a. by apply equivalent_refl.
    + intros ? ?. apply equivalent_sym.
    + intros ? ? ?. apply equivalent_trans.
    + intros a b (u & v & Hin & -> & ->). apply elem_of_app in Hin as [Hin|Hin].
      * apply Hmono, He, rtc_once. left. eauto.
      * apply list_elem_of_singleton in Hin as [= -> ->]. apply He1. right; left.
        split; by apply equivalent_refl.
Qed.

Lemma Aliases_init_Ok aliases :
  ∃ p, Aliases_init aliases = Ok p ∧ uf_inv p ∧ ∀ x y, equivalent p x y ↔ aliased aliases x y.
Proof.
  apply (init_loop ∅ []); [apply empty_inv|]. intros x y. split.
  - intros (r & H1 & H2). assert (Hid : ∀ a b, rep ∅ a b → a = b)
      by (intros a b [|? ? ? H _ _]; [done|by rewrite lookup_empty in H]).
    apply Hid in H1 as ->, H2 as ->. apply rtc_refl.
  - intros H. assert (x = y) as ->; [|apply equivalent_refl, empty_inv].
    revert x y H. apply rtsc_least; [done|done|congruence|].
    intros x y (l & r & Hin & _). by apply elem_of_nil in Hin.
Qed.

(** C18 The union-find of buffer addresses is total and exact: building it from
    the alias pairs and asking for two canonical addresses always returns,
    and the two are equal exactly when the addresses are related by the
    equivalence that the pairs generate. *)
Theorem aliases_exact aliases a b :
  ∃ p p1 p2 ra rb,
    Aliases_init aliases = Ok p ∧ canonical p a = Ok (p1, ra) ∧ canonical p1 b = Ok (p2, rb) ∧
    (ra = rb ↔ aliased aliases (address a) (address b)).
Proof.
  destruct (Aliases_init_Ok aliases) as (p & Hp & Hi & He). unfold canonical.
  destruct (find_spec p (address a) Hi) as (p1 & ra & Ha & Hi1 & Hs1 & Hra & _).
  destruct (find_spec p1 (address b) Hi1) as (p2 & rb & Hb & _ & _ & Hrb & _).
  exists p, p1, p2, ra, rb. split_and!; [done..|]. rewrite <- He. apply Hs1 in Hrb. split.
  - intros ->. by exists rb.
  - intros (r & H1 & H2). by rewrite (rep_fun _ _ _ _ Hra H1), (rep_fun _ _ _ _ Hrb H2).
Qed.
