(* ===== verification/Liveness.v ===== *)
(** * Buffer liveness ([vericcl/xml/liveness.py])

    The checks that a buffer plan must pass before it is lowered: references
    inside the declared chunks, no two live values at one location, transfers
    and copies that read and write live locations, and final outputs at their
    addresses. *)

From S2P Require Import Prelude.
From S2P Require Import Python.
From S2P Require Import Collective.
From S2P Require Import InputModels.
From S2P Require Import Atom.
From S2P Require Import XmlModel.
From S2P Require Import Floats.
From S2P Require Import Aliases.
Local Open Scope Z_scope.

Definition _contributors (value : ValueKey) : gset Z :=
  match value with VRaw v => {[ rv_slice_id v ]} | VAggregate v => av_contributors v end.

Definition _all_refs (plan : BufferPlan) : list PhysicalRef :=
  concat (bp_value_locations plan).*2 ++
  (bp_aliases plan ≫= λ pair_, [pair_.1; pair_.2]) ++
  (bp_local_copies plan ≫= λ copy, [lc_src_ref copy; lc_dst_ref copy]) ++
  (bp_initial_refs plan).*2 ++ (bp_final_output_refs plan).*2 ++ (bp_final_value_refs plan).*2 ++
  (bp_transfer_src_refs plan).*2 ++ (bp_transfer_dst_refs plan).*2 ++
  (bp_transfer_accumulator_refs plan).*2.

(** [{"i": ..., "o": ..., "s": ...}[buffer]] *)
Definition chunk_counts (plan : BufferPlan) (buffer : string) : res (list (Z * Z)) :=
  of_option (dict_get buffer
    [("i"%string, bp_i_chunks plan); ("o"%string, bp_o_chunks plan);
     ("s"%string, bp_s_chunks plan)]) (KeyError buffer).

Definition _verify_bounds (plan : BufferPlan) (ref : PhysicalRef) : res unit :=
  counts ← chunk_counts plan (pr_buffer ref);
  raise_when match dict_get (pr_rank ref) counts with
             | None => true
             | Some n => n <=? pr_offset ref
             end (SemanticError "buffer offset is outside declared chunks").

Definition _overlap (l r : PhysicalRef) : bool :=
  float_ltb (pr_valid_from l) (pr_valid_until r) && float_ltb (pr_valid_from r) (pr_valid_until l).

Definition _covers (ref : PhysicalRef) (start end_ : pyfloat) : bool :=
  float_leb (pr_valid_from ref) start && float_leb end_ (pr_valid_until ref).

Definition Locations : Type := list (Address * list (ValueKey * PhysicalRef)).

(** [locations[key].append(entry)] *)
Definition append_location (key : Address) (entry : ValueKey * PhysicalRef)
    (locations : Locations) : Locations :=
  dict_set key (default [] (dict_get key locations) ++ [entry]) locations.

Definition place_ref (value : ValueKey) (st : parents * Locations) (ref : PhysicalRef)
    : res (parents * Locations) :=
  let '(p, locations) := st in
  '(p, key) ← canonical p ref;
  Ok (p, append_location key (value, ref) locations).

Definition build_locations (p : parents) (plan : BufferPlan) : res (parents * Locations) :=
  foldM (λ st '(value, refs), foldM (place_ref value) st refs) (p, []) (bp_value_locations plan).

(** The nested loops over the entries of one location. *)
Fixpoint check_entries (entries : list (ValueKey * PhysicalRef)) : res unit :=
  match entries with
  | [] => Ok tt
  | (left_value, left_ref) :: rest =>
      iterM (λ '(right_value, right_ref),
        raise_when (negb (bool_decide (left_value = right_value)) && _overlap left_ref right_ref)
          (SemanticError "live values share a physical location")) rest;;
      check_entries rest
  end.

Definition same_keys {V} (d : list (string * V)) (ids : gset string) : bool :=
  bool_decide (list_to_set d.*1 = ids).

Section verify.
Context (schedule : Schedule) (plan : BufferPlan) (inputs : ResolvedInput).

Definition transfers : list (string * Transfer) :=
  dict_of_list ((λ t, (tr_id t, t)) <$> sc_transfers schedule).

Definition transfer_id_set : gset string := list_to_set transfers.*1.

Definition lookup_in {V} (id : string) (d : list (string * V)) : res V :=
  of_option (dict_get id d) (KeyError id).

(** The checks on a REDUCE transfer. *)
Definition check_reduce (p : parents) (id : string) (transfer : Transfer) (dst_ref : PhysicalRef)
    (output_value : ValueKey) (effective_start effective_end : pyfloat) : res parents :=
  accumulator ← of_option (dict_get id (bp_transfer_accumulator_refs plan))
    (SemanticError "REDUCE requires an initialized accumulator");
  '(p, accumulator_address) ← canonical p accumulator;
  '(p, destination_address) ← canonical p dst_ref;
  raise_when (negb (bool_decide (accumulator_address = destination_address)))
    (SemanticError "REDUCE accumulator and destination addresses differ");;
  raise_when (negb (_covers accumulator effective_start effective_end))
    (SemanticError "rrc destination accumulator is not live before reduction");;
  accumulator_value ← of_option (dict_get id (bp_transfer_accumulator_values plan))
    (SemanticError "REDUCE requires an accumulator value");
  match output_value with
  | VRaw _ => Err (SemanticError "REDUCE must produce an aggregate value")
  | VAggregate output =>
      raise_when
        (negb (bool_decide (_contributors accumulator_value ∩ tr_members transfer = ∅)) ||
         negb (bool_decide (_contributors accumulator_value ∪ tr_members transfer =
                            av_contributors output)))
        (SemanticError "REDUCE output must add disjoint accumulator contributors");;
      Ok p
  end.

(** The first loop over transfers. *)
Definition check_transfer (p : parents) (item : string * Transfer) : res parents :=
  let '(id, transfer) := item in
  '(effective_start, effective_end) ← lookup_in id (bp_transfer_effective_times plan);
  raise_when (float_ltb effective_start (Finite (tr_st transfer)) ||
              float_ltb effective_end effective_start ||
              negb (float_eqb (float_sub effective_end effective_start)
                     (float_sub (Finite (tr_ed transfer)) (Finite (tr_st transfer)))))
    (SemanticError "transfer effective timing is invalid");;
  src_ref ← lookup_in id (bp_transfer_src_refs plan);
  dst_ref ← lookup_in id (bp_transfer_dst_refs plan);
  raise_when (negb (pr_rank src_ref =? tr_src transfer) || negb (pr_rank dst_ref =? tr_dst transfer))
    (SemanticError "transfer reference rank is incorrect");;
  raise_when (negb (_covers src_ref effective_start effective_end))
    (SemanticError "transfer reads a value outside its live interval");;
  raise_when (float_ltb effective_end (pr_valid_from dst_ref))
    (SemanticError "transfer destination becomes valid too late");;
  input_value ← lookup_in id (bp_transfer_input_values plan);
  raise_when (negb (bool_decide (_contributors input_value = tr_members transfer)))
    (SemanticError "transfer input contributors are incorrect");;
  output_value ← lookup_in id (bp_transfer_output_values plan);
  if decide (tr_kind transfer = "SEND"%string) then
    raise_when (negb (bool_decide (output_value = input_value)))
      (SemanticError "SEND must preserve its value identity");;
    raise_when (present (dict_get id (bp_transfer_accumulator_refs plan)))
      (SemanticError "SEND must not define an accumulator");;
    raise_when (present (dict_get id (bp_transfer_accumulator_values plan)))
      (SemanticError "SEND must not define an accumulator value");;
    Ok p
  else check_reduce p id transfer dst_ref output_value effective_start effective_end.

Definition check_copy (copy : LocalCopy) : res unit :=
  raise_when (negb (_covers (lc_src_ref copy) (lc_st_time copy) (lc_ed_time copy)))
    (SemanticError "local copy source is not live");;
  raise_when (float_ltb (lc_ed_time copy) (pr_valid_from (lc_dst_ref copy)))
    (SemanticError "local copy destination becomes valid too late").

(** Whether a transfer may write over a value at its destination. *)
Definition write_allowed (accumulator : option PhysicalRef) (transfer : Transfer)
    (output_value : ValueKey) (effective_start effective_end : pyfloat)
    (entry : ValueKey * PhysicalRef) : bool :=
  let '(value, live_ref) := entry in
  match accumulator with
  | Some ref =>
      bool_decide (live_ref = ref) ||
      (bool_decide (_contributors value ∩ tr_members transfer = ∅) &&
       bool_decide (_contributors value ∪ tr_members transfer = _contributors output_value))
  | None => false
  end ||
  bool_decide (value = output_value) ||
  negb (float_ltb (pr_valid_from live_ref) effective_end &&
        float_ltb effective_start (pr_valid_until live_ref)).

(** The second loop over transfers. *)
Definition check_write (locations : Locations) (p : parents) (item : string * Transfer)
    : res parents :=
  let '(id, transfer) := item in
  '(effective_start, effective_end) ← lookup_in id (bp_transfer_effective_times plan);
  dst_ref ← lookup_in id (bp_transfer_dst_refs plan);
  '(p, key) ← canonical p dst_ref;
  let accumulator := dict_get id (bp_transfer_accumulator_refs plan) in
  iterM (λ entry,
    output_value ← lookup_in id (bp_transfer_output_values plan);
    raise_when (negb (write_allowed accumulator transfer output_value
                        effective_start effective_end entry))
      (SemanticError "transfer write overlaps a live value"))
    (default [] (dict_get key locations));;
  Ok p.

Definition same_slots {V} (d : list (OutputSlot * V)) (expected : list (OutputSlot * gset Z))
    : bool :=
  forallb (λ slot, present (dict_get slot expected)) d.*1 &&
  forallb (λ slot, present (dict_get slot d)) expected.*1.

Definition check_final (item : OutputSlot * gset Z) : res unit :=
  let '(slot, contributors) := item in
  contract_ref ← of_option (dict_get slot (bp_final_output_refs plan)) (KeyError "slot");
  actual_ref ← of_option (dict_get slot (bp_final_value_refs plan)) (KeyError "slot");
  raise_when (negb (bool_decide (buffer_offset contract_ref = ("o"%string, slot_offset slot))))
    (SemanticError "final output contract address is incorrect");;
  raise_when (negb (pr_rank actual_ref =? slot_rank slot) ||
              negb (bool_decide (buffer_offset actual_ref = ("o"%string, slot_offset slot))))
    (SemanticError "final value is stored at an incorrect address");;
  value ← of_option (dict_get slot (bp_final_values plan)) (KeyError "slot");
  raise_when (negb (bool_decide (_contributors value = contributors)))
    (SemanticError "final output contributors are incorrect").

Definition check_inplace : res unit :=
  if cs_inplace (ri_collective inputs) then Ok tt
  else
    raise_when (existsb (λ ref, bool_decide (pr_buffer ref = "i"%string))
                  (bp_transfer_dst_refs plan).*2)
      (SemanticError "out-of-place input buffer is modified");;
    raise_when (existsb (λ copy, bool_decide (pr_buffer (lc_dst_ref copy) = "i"%string))
                  (bp_local_copies plan))
      (SemanticError "out-of-place input buffer is modified").

Definition check_coverage : res unit :=
  raise_when (negb (same_keys (bp_transfer_src_refs plan) transfer_id_set))
    (SemanticError "every transfer requires one source reference");;
  raise_when (negb (same_keys (bp_transfer_dst_refs plan) transfer_id_set))
    (SemanticError "every transfer requires one destination reference");;
  raise_when (negb (same_keys (bp_transfer_input_values plan) transfer_id_set))
    (SemanticError "every transfer requires one input value");;
  raise_when (negb (same_keys (bp_transfer_output_values plan) transfer_id_set))
    (SemanticError "every transfer requires one output value");;
  raise_when (negb (same_keys (bp_transfer_effective_times plan) transfer_id_set))
    (SemanticError "every transfer requires effective timing").

Definition check_finals : res unit :=
  expected ← required_outputs (ri_collective inputs) (sc_rank_count schedule)
               (sc_slice_count schedule);
  raise_when (negb (same_slots (bp_final_output_refs plan) expected))
    (SemanticError "final output references do not match the collective");;
  raise_when (negb (same_slots (bp_final_values plan) expected))
    (SemanticError "final values do not match the collective");;
  raise_when (negb (same_slots (bp_final_value_refs plan) expected))
    (SemanticError "a final output value is uninitialized");;
  iterM check_final expected.

Definition verify_buffer_liveness : res unit :=
  raise_when (negb (sc_rank_count schedule =? ri_rank_count inputs))
    (SemanticError "schedule and input rank counts differ");;
  raise_when (negb (sc_slice_count schedule =? bp_slice_count plan))
    (SemanticError "schedule and buffer plan slice counts differ");;
  iterM (_verify_bounds plan) (_all_refs plan);;
  p ← Aliases_init (bp_aliases plan);
  '(p, locations) ← build_locations p plan;
  iterM check_entries locations.*2;;
  check_coverage;;
  p ← foldM check_transfer p transfers;
  iterM check_copy (bp_local_copies plan);;
  check_inplace;;
  foldM (check_write locations) p transfers;;
  check_finals.
End verify.
