(* ===== verification/LivenessLaws.v ===== *)
(** * What an accepted buffer plan guarantees

    [plan_safe] collects the properties; the theorem shows that
    [verify_buffer_liveness] only accepts plans that have them. *)

From stdpp Require Import relations.
From S2P Require Import Prelude.
From S2P Require Import Python.
From S2P Require Import Collective.
From S2P Require Import InputModels.
From S2P Require Import Atom.
From S2P Require Import AtomLaws.
From S2P Require Import XmlModel.
From S2P Require Import Floats.
From S2P Require Import Aliases.
From S2P Require Import Liveness.
Local Open Scope Z_scope.

(** ** Locations *)

Lemma overlap_comm l r : _overlap l r = _overlap r l.
Proof. unfold _overlap. by rewrite andb_comm. Qed.

Lemma check_entries_Ok entries :
  check_entries entries = Ok tt →
  ∀ e f, e ∈ entries → f ∈ entries → e.1 ≠ f.1 → _overlap e.2 f.2 = false.
Proof.
  induction entries as [|[v r] rest IH]; simpl; [by intros _ ? ? ?%elem_of_nil|].
  intros H. apply bind_Ok in H as ([] & H1 & H2). apply iterM_Ok in H1.
  rewrite Forall_forall in H1. specialize (IH H2).
  assert (Hhead : ∀ f, f ∈ rest → v ≠ f.1 → _overlap r f.2 = false).
  { intros [w q] Hf Hne. specialize (H1 _ Hf). simpl in *. apply raise_when_Ok in H1.
    by rewrite bool_decide_eq_false_2 in H1 by done. }
  intros e f. rewrite !elem_of_cons. intros [->|He] [->|Hf] Hne; simpl in *.
  - done.
  - by apply Hhead.
  - rewrite overlap_comm. by apply Hhead.
  - by apply IH.
Qed.

(** The store [p] after calls of [find] has the representatives of [p0]. *)
Definition grown (p0 p : parents) : Prop := uf_inv p ∧ same_reps p0 p.

Lemma canonical_grown p0 p ref p' key :
  grown p0 p → canonical p ref = Ok (p', key) → grown p0 p' ∧ rep p0 (address ref) key.
Proof.
  intros [Hi Hs] H. unfold canonical in H.
  destruct (find_spec p (address ref) Hi) as (q & r & E & Hi' & Hs' & Hr & _).
  rewrite E in H. injection H as -> ->. split; [|by apply Hs].
  split; [done|]. intros x y. rewrite (Hs' x y). apply Hs.
Qed.

(** Locations are keyed by the representatives of their references. *)
Definition placed (p0 : parents) (locations : Locations) : Prop :=
  ∀ key entries e, dict_get key locations = Some entries → e ∈ entries →
    rep p0 (address e.2) key.

Definition located (p0 : parents) (locations : Locations) (e : ValueKey * PhysicalRef) : Prop :=
  ∀ key, rep p0 (address e.2) key → ∃ entries, dict_get key locations = Some entries ∧ e ∈ entries.

Lemma append_located p0 locations key entry e :
  located p0 locations e → located p0 (append_location key entry locations) e.
Proof.
  intros H k Hk. destruct (H k Hk) as (entries & Hg & He). unfold append_location.
  rewrite dict_get_set. case_decide; [subst|eauto]. rewrite Hg. simpl.
  eexists. split; [done|]. apply elem_of_app. by left.
Qed.

Lemma place_ref_Ok p0 value p locations ref p' locations' :
  grown p0 p → placed p0 locations →
  place_ref value (p, locations) ref = Ok (p', locations') →
  grown p0 p' ∧ placed p0 locations' ∧ located p0 locations' (value, ref) ∧
  ∀ e, located p0 locations e → located p0 locations' e.
Proof.
  intros Hg Hp H. unfold place_ref in H. apply bind_Ok in H as ([q key] & Hc & [= -> <-]).
  destruct (canonical_grown _ _ _ _ _ Hg Hc) as [Hg' Hr]. split_and!; [done| | |].
  - intros k entries e. unfold append_location. rewrite dict_get_set. case_decide; [|apply Hp].
    intros [= <-]. subst. rewrite elem_of_app, list_elem_of_singleton.
    intros [He| ->]; [|done]. destruct (dict_get key locations) eqn:E; [|by apply elem_of_nil in He].
    by eapply Hp.
  - intros k Hk. simpl in Hk. rewrite (rep_fun _ _ _ _ Hk Hr). unfold append_location.
    rewrite dict_get_set, decide_True by done. eexists. split; [done|].
    apply elem_of_app. right. by left.
  - intros e. apply append_located.
Qed.

Lemma place_refs_Ok p0 value refs p locations p' locations' :
  grown p0 p → placed p0 locations →
  foldM (place_ref value) (p, locations) refs = Ok (p', locations') →
  grown p0 p' ∧ placed p0 locations' ∧ (∀ ref, ref ∈ refs → located p0 locations' (value, ref)) ∧
  ∀ e, located p0 locations e → located p0 locations' e.
Proof.
  revert p locations. induction refs as [|ref refs IH]; intros p locations Hg Hp H; simpl in H.
  { injection H as <- <-. split_and!; [done..|by intros ? ?%elem_of_nil|done]. }
  apply bind_Ok in H as ([q locs] & H1 & H2).
  destruct (place_ref_Ok _ _ _ _ _ _ _ Hg Hp H1) as (Hg1 & Hp1 & Hl1 & Hk1).
  destruct (IH _ _ Hg1 Hp1 H2) as (Hg2 & Hp2 & Hl2 & Hk2). split_and!; [done..| |eauto].
  intros r. rewrite elem_of_cons. intros [->|Hr]; eauto.
Qed.

Lemma build_locations_Ok p0 plan p' locations' :
  uf_inv p0 → build_locations p0 plan = Ok (p', locations') →
  grown p0 p' ∧ placed p0 locations' ∧
  ∀ value refs ref, (value, refs) ∈ bp_value_locations plan → ref ∈ refs →
    located p0 locations' (value, ref).
Proof.
  intros Hi. unfold build_locations.
  assert (Hgen : ∀ l p locations, grown p0 p → placed p0 locations →
    foldM (λ st '(value, refs), foldM (place_ref value) st refs) (p, locations) l =
      Ok (p', locations') →
    grown p0 p' ∧ placed p0 locations' ∧ (∀ value refs ref, (value, refs) ∈ l → ref ∈ refs →
      located p0 locations' (value, ref)) ∧ ∀ e, located p0 locations e → located p0 locations' e).
  { induction l as [|[value refs] l IH]; intros p locations Hg Hp H; simpl in H.
    { injection H as <- <-. split_and!; [done..|by intros ? ? ? ?%elem_of_nil|done]. }
    apply bind_Ok in H as ([q locs] & H1 & H2).
    destruct (place_refs_Ok _ _ _ _ _ _ _ Hg Hp H1) as (Hg1 & Hp1 & Hl1 & Hk1).
    destruct (IH _ _ Hg1 Hp1 H2) as (Hg2 & Hp2 & Hl2 & Hk2). split_and!; [done..| |eauto].
    intros v rs r. rewrite elem_of_cons. intros [[= -> ->]|Hv] Hr; eauto. }
  intros H. apply Hgen in H as (? & ? & ? & _); [done|split; [done|by intros ??]|].
  by intros ??? [=].
Qed.

(** A loop that threads the store checks each of its items. *)
Lemma fold_grown {A : Type} (p0 : parents) (f : parents → A → res parents) (Q : A → Prop) l p p' :
  (∀ p x p', x ∈ l → grown p0 p → f p x = Ok p' → grown p0 p' ∧ Q x) →
  grown p0 p → foldM f p l = Ok p' → grown p0 p' ∧ ∀ x, x ∈ l → Q x.
Proof.
  intros Hf. revert p. induction l as [|x l IH]; intros p Hg H; simpl in H.
  { injection H as <-. split; [done|]. by intros ? ?%elem_of_nil. }
  apply bind_Ok in H as (q & H1 & H2). destruct (Hf _ _ _ ltac:(by left) Hg H1) as [Hg1 Hq].
  destruct (IH (λ q x q' Hx, Hf q x q' ltac:(by right)) _ Hg1 H2) as [? Hl]. split; [done|]. intros y. rewrite elem_of_cons.
  intros [->|?]; eauto.
Qed.

Section plan.
Context (s : Schedule) (plan : BufferPlan) (inputs : ResolvedInput).

Notation alias := (aliased (bp_aliases plan)).

(** A reference is inside the chunks declared for its buffer and rank. *)
Definition in_bounds (ref : PhysicalRef) : Prop :=
  ∃ counts n, chunk_counts plan (pr_buffer ref) = Ok counts ∧
    dict_get (pr_rank ref) counts = Some n ∧ pr_offset ref < n.

(** The operands of a transfer are in place while it runs. *)
Definition transfer_safe (t : Transfer) : Prop :=
  ∃ st ed src dst input output,
    dict_get (tr_id t) (bp_transfer_effective_times plan) = Some (st, ed) ∧
    dict_get (tr_id t) (bp_transfer_src_refs plan) = Some src ∧ pr_rank src = tr_src t ∧
    dict_get (tr_id t) (bp_transfer_dst_refs plan) = Some dst ∧ pr_rank dst = tr_dst t ∧
    dict_get (tr_id t) (bp_transfer_input_values plan) = Some input ∧
    dict_get (tr_id t) (bp_transfer_output_values plan) = Some output ∧
    float_ltb st (Finite (tr_st t)) = false ∧ _covers src st ed = true ∧
    _contributors input = tr_members t ∧
    (tr_kind t = "SEND"%string → output = input) ∧
    (tr_kind t ≠ "SEND"%string → ∃ acc acc_value,
       dict_get (tr_id t) (bp_transfer_accumulator_refs plan) = Some acc ∧
       dict_get (tr_id t) (bp_transfer_accumulator_values plan) = Some acc_value ∧
       alias (address acc) (address dst) ∧ _covers acc st ed = true ∧
       _contributors acc_value ∩ tr_members t = ∅ ∧
       _contributors output = _contributors acc_value ∪ tr_members t).

(** A transfer only writes over values that it may replace. *)
Definition write_safe (t : Transfer) : Prop :=
  ∃ st ed dst output,
    dict_get (tr_id t) (bp_transfer_effective_times plan) = Some (st, ed) ∧
    dict_get (tr_id t) (bp_transfer_dst_refs plan) = Some dst ∧
    dict_get (tr_id t) (bp_transfer_output_values plan) = Some output ∧
    ∀ value refs ref, (value, refs) ∈ bp_value_locations plan → ref ∈ refs →
      alias (address ref) (address dst) →
      float_ltb (pr_valid_from ref) ed = true → float_ltb st (pr_valid_until ref) = true →
      value = output ∨ dict_get (tr_id t) (bp_transfer_accumulator_refs plan) = Some ref ∨
      (_contributors value ∩ tr_members t = ∅ ∧
       _contributors value ∪ tr_members t = _contributors output).

Record plan_safe : Prop := {
  ps_bounds ref : ref ∈ _all_refs plan → in_bounds ref;
  ps_exclusive v1 refs1 r1 v2 refs2 r2 :
    (v1, refs1) ∈ bp_value_locations plan → r1 ∈ refs1 →
    (v2, refs2) ∈ bp_value_locations plan → r2 ∈ refs2 →
    alias (address r1) (address r2) → v1 ≠ v2 → _overlap r1 r2 = false;
  ps_transfers t : t ∈ sc_transfers s → transfer_safe t;
  ps_writes t : t ∈ sc_transfers s → write_safe t;
  ps_outputs outputs slot contributors :
    required_outputs (ri_collective inputs) (sc_rank_count s) (sc_slice_count s) = Ok outputs →
    (slot, contributors) ∈ outputs →
    ∃ ref value, dict_get slot (bp_final_value_refs plan) = Some ref ∧
      pr_rank ref = slot_rank slot ∧ buffer_offset ref = ("o"%string, slot_offset slot) ∧
      dict_get slot (bp_final_values plan) = Some value ∧ _contributors value = contributors;
}.

(** ** Each check *)

Lemma verify_bounds_Ok ref : _verify_bounds plan ref = Ok tt → in_bounds ref.
Proof.
  unfold _verify_bounds, in_bounds. intros H. apply bind_Ok in H as (counts & Hc & H).
  exists counts. destruct (dict_get (pr_rank ref) counts) as [n|]; [|done].
  exists n. split_and!; [done..|]. inv_res. by bool_prop.
Qed.

Context (p0 : parents) (Hi : uf_inv p0).
Context (Halias : ∀ x y, equivalent p0 x y ↔ alias x y).

Lemma rep_alias x y r : rep p0 x r → rep p0 y r → alias x y.
Proof. intros. apply Halias. by exists r. Qed.

Lemma check_transfer_Ok p id t p' :
  id = tr_id t → grown p0 p → check_transfer plan p (id, t) = Ok p' →
  grown p0 p' ∧ transfer_safe t.
Proof.
  intros -> Hg H. unfold check_transfer in H.
  apply bind_Ok in H as ([st ed] & Htime & H). apply bind_Ok in H as ([] & Hv & H).
  apply bind_Ok in H as (src & Hsrc & H). apply bind_Ok in H as (dst & Hdst & H).
  apply bind_Ok in H as ([] & Hrank & H). apply bind_Ok in H as ([] & Hcov & H).
  apply bind_Ok in H as ([] & Hlate & H). apply bind_Ok in H as (input & Hin & H).
  apply bind_Ok in H as ([] & Hcon & H). apply bind_Ok in H as (output & Hout & H).
  unfold lookup_in in *. inv_res. bool_prop.
  assert (Hgoal : grown p0 p' ∧
    (tr_kind t = "SEND"%string → output = input) ∧
    (tr_kind t ≠ "SEND"%string → ∃ acc acc_value,
       dict_get (tr_id t) (bp_transfer_accumulator_refs plan) = Some acc ∧
       dict_get (tr_id t) (bp_transfer_accumulator_values plan) = Some acc_value ∧
       alias (address acc) (address dst) ∧ _covers acc st ed = true ∧
       _contributors acc_value ∩ tr_members t = ∅ ∧
       _contributors output = _contributors acc_value ∪ tr_members t)).
  { destruct (decide (tr_kind t = "SEND"%string)) as [Hk|Hk].
    - inv_res. bool_prop. subst. split; [done|]. split; [done|tauto].
    - unfold check_reduce in H. apply bind_Ok in H as (acc & Hacc & H).
      apply bind_Ok in H as ([q ka] & Ha & H). apply bind_Ok in H as ([q' kd] & Hd & H).
      apply bind_Ok in H as ([] & Heq & H). apply bind_Ok in H as ([] & Hc & H).
      apply bind_Ok in H as (accv & Haccv & H). destruct output as [|output]; [done|].
      inv_res. bool_prop. subst.
      destruct (canonical_grown _ _ _ _ _ Hg Ha) as [Hg1 Hra].
      destruct (canonical_grown _ _ _ _ _ Hg1 Hd) as [Hg2 Hrd].
      split; [done|]. split; [tauto|]. intros _. exists acc, accv.
      split_and!; try done. by eapply rep_alias. }
  destruct Hgoal as (Hg' & ? & ?). split; [done|]. exists st, ed, src, dst, input, output.
  split_and!; done.
Qed.

Lemma check_write_Ok locations p id t p' :
  id = tr_id t → placed p0 locations →
  (∀ value refs ref, (value, refs) ∈ bp_value_locations plan → ref ∈ refs →
     located p0 locations (value, ref)) →
  is_Some (dict_get (tr_id t) (bp_transfer_output_values plan)) →
  grown p0 p → check_write plan locations p (id, t) = Ok p' →
  grown p0 p' ∧ write_safe t.
Proof.
  intros -> Hp Hl [output Hout] Hg H. unfold check_write in H.
  apply bind_Ok in H as ([st ed] & Htime & H). apply bind_Ok in H as (dst & Hdst & H).
  apply bind_Ok in H as ([q key] & Hc & H). cbv zeta in H.
  apply bind_Ok in H as ([] & Hw & [= ->]). unfold lookup_in in *. inv_res.
  destruct (canonical_grown _ _ _ _ _ Hg Hc) as [Hg1 Hr]. split; [done|].
  exists st, ed, dst, output. split_and!; [done..|].
  intros value refs ref Hv Href Ha Hfrom Huntil.
  assert (Hrep : rep p0 (address ref) key).
  { apply Halias in Ha as (r & H1 & H2). by rewrite (rep_fun _ _ _ _ Hr H2). }
  destruct (Hl _ _ _ Hv Href key Hrep) as (entries & Hent & Hin).
  rewrite Hent in Hw. apply iterM_Ok in Hw. rewrite Forall_forall in Hw. specialize (Hw _ Hin).
  rewrite Hout in Hw. cbn [of_option mbind res_bind] in Hw. apply raise_when_Ok in Hw.
  apply negb_false_iff in Hw. unfold write_allowed in Hw. rewrite Hfrom, Huntil in Hw.
  rewrite !orb_true_iff in Hw. destruct Hw as [[Hw|Hw]|Hw]; [| |done].
  - destruct (dict_get (tr_id t) (bp_transfer_accumulator_refs plan)) as [acc|] eqn:E; [|done].
    apply orb_true_iff in Hw as [Hw|Hw]; bool_prop; [subst; auto|auto].
  - bool_prop. auto.
Qed.

(** ** No loop is cut off *)

Lemma canonical_terminates p ref : grown p0 p → terminates (canonical p ref).
Proof.
  intros [Hip _]. unfold canonical. destruct (find_spec p (address ref) Hip) as (q & r & -> & _).
  done.
Qed.

Lemma build_locations_terminates : terminates (build_locations p0 plan).
Proof.
  unfold build_locations.
  apply (terminates_foldM_inv (λ st, grown p0 st.1)); [by split|].
  intros [p locs] [value refs] _ Hg. simpl in *.
  assert (Hstep : ∀ st ref, grown p0 st.1 → terminates (place_ref value st ref) ∧
    ∀ st', place_ref value st ref = Ok st' → grown p0 st'.1).
  { intros [q l] ref Hq. unfold place_ref. simpl in *. split.
    - apply terminates_bind; [by apply canonical_terminates|]. by intros [? ?] _.
    - intros st' H. apply bind_Ok in H as ([q' k] & Hc & [= <-]).
      by destruct (canonical_grown _ _ _ _ _ Hq Hc). }
  split; [by apply (terminates_foldM_inv (λ st, grown p0 st.1)); auto|].
  intros st' H. apply (foldM_ind (λ _ st, grown p0 st.1)) in H; [done|done|].
  intros ? ? ? ? ? _ E. by apply Hstep in E.
Qed.

Lemma check_transfer_terminates p item : grown p0 p → terminates (check_transfer plan p item).
Proof.
  intros Hg. destruct item as [id t]. unfold check_transfer, lookup_in, check_reduce.
  repeat (cbv zeta; match goal with
  | |- terminates (mbind _ (canonical _ _)) =>
      apply terminates_bind; [by apply canonical_terminates|intros [? ?] Hc;
        eapply canonical_grown in Hc as [? _]; [|eassumption]]
  | _ => terminates_step
  end).
Qed.

Lemma check_write_terminates locations p item :
  grown p0 p → terminates (check_write plan locations p item).
Proof.
  intros Hg. destruct item as [id t]. unfold check_write, lookup_in.
  repeat (cbv zeta; match goal with
  | |- terminates (mbind _ (canonical _ _)) =>
      apply terminates_bind; [by apply canonical_terminates|intros [? ?] Hc]
  | _ => terminates_step
  end).
Qed.

End plan.

(** ** The verdict *)

Lemma transfers_eq s :
  NoDup (tr_id <$> sc_transfers s) → transfers s = (λ t, (tr_id t, t)) <$> sc_transfers s.
Proof. intros H. apply dict_of_list_nodup. by rewrite <- list_fmap_compose. Qed.

Lemma check_transfers_grown s plan p0 p p' :
  NoDup (tr_id <$> sc_transfers s) → uf_inv p0 →
  (∀ x y, equivalent p0 x y ↔ aliased (bp_aliases plan) x y) → grown p0 p →
  foldM (check_transfer plan) p (transfers s) = Ok p' →
  grown p0 p' ∧ ∀ t, t ∈ sc_transfers s → transfer_safe plan t.
Proof.
  intros Hnd Hi Ha Hg. rewrite transfers_eq by done. intros H.
  destruct (fold_grown p0 (check_transfer plan) (λ x, transfer_safe plan x.2)
    ((λ t, (tr_id t, t)) <$> sc_transfers s) p p') as [Hg' Hall]; [|done|done|].
  - intros q [id t] q' (t' & [= -> ->] & _)%list_elem_of_fmap Hq. by apply check_transfer_Ok.
  - split; [done|]. intros t Ht. apply (Hall (tr_id t, t)).
    by apply (list_elem_of_fmap_2 (λ t, (tr_id t, t))).
Qed.

Lemma check_write_grown plan locations p0 p item p' :
  grown p0 p → check_write plan locations p item = Ok p' → grown p0 p'.
Proof.
  intros Hg H. destruct item as [id t]. unfold check_write in H.
  apply bind_Ok in H as ([st ed] & _ & H). apply bind_Ok in H as (dst & _ & H).
  apply bind_Ok in H as ([q key] & Hc & H). apply bind_Ok in H as (? & _ & [= <-]).
  by apply (canonical_grown p0) in Hc as [? _].
Qed.

Lemma verify_terminates s plan inputs :
  NoDup (tr_id <$> sc_transfers s) → terminates (verify_buffer_liveness s plan inputs).
Proof.
  intros Hnd. destruct (Aliases_init_Ok (bp_aliases plan)) as (p0 & Hp0 & Hi & Ha).
  assert (Hg0 : grown p0 p0) by done. unfold verify_buffer_liveness. rewrite Hp0.
  apply terminates_bind; [by apply terminates_raise_when|intros _ _].
  apply terminates_bind; [by apply terminates_raise_when|intros _ _].
  apply terminates_bind; [unfold _verify_bounds, chunk_counts; terminates|intros _ _].
  cbn [mbind res_bind]. apply terminates_bind; [by apply build_locations_terminates|].
  intros [p1 locs] Hb. destruct (build_locations_Ok _ _ _ _ Hi Hb) as (Hg1 & _).
  apply terminates_bind; [|intros _ _].
  { apply terminates_iterM. intros l. induction l as [|[v r] l IH]; simpl; [done|].
    apply terminates_bind; [terminates|done]. }
  apply terminates_bind; [unfold check_coverage; terminates|intros _ _].
  apply terminates_bind.
  { rewrite transfers_eq by done. apply (terminates_foldM_inv (grown p0)); [done|].
    intros p x (t & -> & _)%list_elem_of_fmap Hg.
    split; [by apply (check_transfer_terminates plan p0)|].
    intros p' H. by apply (check_transfer_Ok plan p0 Ha) in H as [? _]. }
  intros p2 H2. destruct (check_transfers_grown _ _ _ _ _ Hnd Hi Ha Hg1 H2) as [Hg2 _].
  apply terminates_bind; [unfold check_copy; terminates|intros _ _].
  apply terminates_bind; [unfold check_inplace; terminates|intros _ _].
  apply terminates_bind; [|intros _ _; unfold check_finals, check_final; terminates].
  apply (terminates_foldM_inv (grown p0)); [done|]. intros p x _ Hg.
  split; [by apply (check_write_terminates plan p0)|]. intros p'. by apply check_write_grown.
Qed.

Lemma final_outputs_safe s plan inputs outputs slot contributors :
  check_finals s plan inputs = Ok tt →
  required_outputs (ri_collective inputs) (sc_rank_count s) (sc_slice_count s) = Ok outputs →
  (slot, contributors) ∈ outputs →
  ∃ ref value, dict_get slot (bp_final_value_refs plan) = Some ref ∧
    pr_rank ref = slot_rank slot ∧ buffer_offset ref = ("o"%string, slot_offset slot) ∧
    dict_get slot (bp_final_values plan) = Some value ∧ _contributors value = contributors.
Proof.
  intros H Ho Hin. unfold check_finals in H. rewrite Ho in H. cbn [mbind res_bind] in H.
  do 3 (apply bind_Ok in H as ([] & _ & H)). apply iterM_Ok in H.
  rewrite Forall_forall in H. specialize (H _ Hin). unfold check_final in H.
  apply bind_Ok in H as (contract & _ & H). apply bind_Ok in H as (ref & Href & H).
  apply bind_Ok in H as ([] & _ & H). apply bind_Ok in H as ([] & Haddr & H).
  apply bind_Ok in H as (value & Hv & H). inv_res. bool_prop. exists ref, value. done.
Qed.

Lemma verify_safe s plan inputs :
  NoDup (tr_id <$> sc_transfers s) → verify_buffer_liveness s plan inputs = Ok tt →
  plan_safe s plan inputs.
Proof.
  intros Hnd H. destruct (Aliases_init_Ok (bp_aliases plan)) as (p0 & Hp0 & Hi & Ha).
  unfold verify_buffer_liveness in H. rewrite Hp0 in H.
  apply bind_Ok in H as ([] & _ & H). apply bind_Ok in H as ([] & _ & H).
  apply bind_Ok in H as ([] & Hbounds & H). cbn [mbind res_bind] in H.
  apply bind_Ok in H as ([p1 locs] & Hb & H). apply bind_Ok in H as ([] & Hent & H).
  apply bind_Ok in H as ([] & _ & H). apply bind_Ok in H as (p2 & H2 & H).
  apply bind_Ok in H as ([] & _ & H). apply bind_Ok in H as ([] & _ & H).
  apply bind_Ok in H as (p3 & H3 & Hfin).
  destruct (build_locations_Ok _ _ _ _ Hi Hb) as (Hg1 & Hpl & Hloc).
  destruct (check_transfers_grown _ _ _ _ _ Hnd Hi Ha Hg1 H2) as [Hg2 Ht].
  constructor; [| |done| |intros; by eapply final_outputs_safe].
  - intros ref Href. apply iterM_Ok in Hbounds. rewrite Forall_forall in Hbounds.
    by apply verify_bounds_Ok, Hbounds.
  - intros v1 refs1 r1 v2 refs2 r2 I1 J1 I2 J2 Hal Hne.
    apply Ha in Hal as (key & K1 & K2).
    destruct (Hloc _ _ _ I1 J1 key K1) as (e1 & G1 & E1).
    destruct (Hloc _ _ _ I2 J2 key K2) as (e2 & G2 & E2).
    assert (e1 = e2) as <- by congruence.
    apply iterM_Ok in Hent. rewrite Forall_forall in Hent.
    assert (Hc : check_entries e1 = Ok tt).
    { apply Hent, list_elem_of_fmap. exists (key, e1). split; [done|].
      by apply dict_get_Some_1. }
    exact (check_entries_Ok _ Hc (v1, r1) (v2, r2) E1 E2 Hne).
  - intros t Hin. rewrite transfers_eq in H3 by done.
    destruct (fold_grown p0 (check_write plan locs) (λ x, write_safe plan x.2)
      ((λ t, (tr_id t, t)) <$> sc_transfers s) p2 p3) as [_ Hall]; [|done|done|].
    + intros q [id t'] q' (t'' & [= -> ->] & Ht'')%list_elem_of_fmap Hq. simpl.
      apply (check_write_Ok plan p0 Ha); [done|done|exact Hloc| |done].
      destruct (Ht _ Ht'') as (? & ? & ? & ? & ? & output & ? & ? & ? & ? & ? & ? & Ho & _). eauto.
    + apply (Hall (tr_id t, t)). by apply (list_elem_of_fmap_2 (λ t, (tr_id t, t))).
Qed.


(** ** A broadcast to one other rank *)

Section demo.
Let from_start (rank : Z) (buffer : string) : PhysicalRef :=
  MkPhysicalRef rank buffer 0 (Finite 0) PosInf.
Let received : PhysicalRef := MkPhysicalRef 1 "o" 0 (Finite one_us) PosInf.
Let chunks : list (Z * Z) := [(0, 1); (1, 1)].
Let value : ValueKey := VRaw (MkRawValue 0).
Let out0 : OutputSlot := MkOutputSlot 0 0.
Let out1 : OutputSlot := MkOutputSlot 1 0.
Let t0 : string := "t0".

Definition demo_plan : BufferPlan :=
  MkBufferPlan
    [(value, [from_start 0 "i"; from_start 0 "o"; received])] []
    [MkLocalCopy "c0" 0 (from_start 0 "i") (from_start 0 "o") "init" (Finite 0) (Finite 0) "output"]
    chunks chunks chunks 1 [(0, from_start 0 "i")]
    [(out0, from_start 0 "o"); (out1, received)] [(out0, value); (out1, value)]
    [(out0, from_start 0 "o"); (out1, received)]
    [(t0, from_start 0 "i")] [(t0, received)] [] [(t0, value)] [] [(t0, value)]
    [(t0, (Finite 0, Finite one_us))].

Definition demo_inputs : ResolvedInput :=
  MkResolvedInput (MkCollectiveSpec BROADCAST "fp32" None (PInt 0) false)
    (MkHyperparameters 4 (Some 4) AUTO None) (MkSolverConfig 8) (MkAtomConstraints None []) 2 PNone PNone.
End demo.

