(* ===== verification/Dependencies.v ===== *)
(** * Transfer dependencies ([vericcl/xml/dependencies.py])

    The graph of transfers and local copies, the reasons of its edges, and its
    topological order. *)

From S2P Require Import Prelude.
From S2P Require Import Python.
From S2P Require Import Slice.
From S2P Require Import Atom.
From S2P Require Import XmlModel.
From S2P Require Import Endpoints.
From S2P Require Import Floats.
From S2P Require Import Aliases.
From S2P Require Import Liveness.
Local Open Scope Z_scope.

Record TransferNode : Type := MkTransferNode {
  nd_node_id : string;
  nd_kind : string;
  nd_endpoint_ids : list string;
  nd_member_slice_ids : gset Z;
  nd_stage_id : Z;
  nd_logical_slice_index : Z;
  nd_src_rank : Z;
  nd_dst_rank : Z;
  nd_channel : Z;
  nd_st_time : pyfloat;
  nd_ed_time : pyfloat;
  nd_effective_st_time : pyfloat;
  nd_effective_ed_time : pyfloat;
}.

Notation Nodes := (list (string * TransferNode)).
Notation Predecessors := (gmap string (gset string)).
Notation Reasons := (gmap (string * string) (gset string)).

Record TransferDAG : Type := MkTransferDAG {
  dag_nodes : Nodes;
  dag_predecessors : Predecessors;
  dag_edge_reasons : Reasons;
  dag_topological_order : list string;
}.

(** [{(p, n) for n, values in predecessors.items() for p in values}] *)
Definition edge_list (predecessors : Predecessors) : list (string * string) :=
  '(node_id, values) ← map_to_list predecessors;
  (λ predecessor, (predecessor, node_id)) <$> elements values.

Definition position_of (order : list string) (id : string) : res nat :=
  of_option (fst <$> list_find (id =.) order) (KeyError id).

Definition TransferDAG_init (nodes : Nodes) (predecessors : Predecessors) (reasons : Reasons)
    (order : list string) : res TransferDAG :=
  let node_set : gset string := list_to_set nodes.*1 in
  raise_when (negb (bool_decide (node_set = dom predecessors)))
    (SemanticError "dependency graph must cover every node");;
  iterM (λ '(node_id, values),
    raise_when (bool_decide (node_id ∈ values) || negb (bool_decide (values ⊆ node_set)))
      (SemanticError "dependency graph contains an invalid edge")) (map_to_list predecessors);;
  raise_when
    (existsb (λ '(edge, values),
       negb (bool_decide (edge.1 ∈ node_set)) || negb (bool_decide (edge.2 ∈ node_set)) ||
       negb (bool_decide (edge.1 ∈ default ∅ (predecessors !! edge.2))) ||
       bool_decide (values = (∅ : gset string))) (map_to_list reasons) ||
     negb (bool_decide (dom reasons = list_to_set (edge_list predecessors))))
    (SemanticError "dependency reason does not match an edge");;
  raise_when (negb (bool_decide ((list_to_set order : gset string) = node_set)) ||
              negb (length order =? length nodes)%nat)
    (SemanticError "dependency topological order is incomplete");;
  iterM (λ '(predecessor, node_id),
    i ← position_of order predecessor;
    j ← position_of order node_id;
    raise_when (j <=? i)%nat (SemanticError "dependency graph contains a cycle"))
    (edge_list predecessors);;
  Ok (MkTransferDAG nodes predecessors reasons order).

Definition _logical (value : ValueKey) (slice_count : Z) : res Z :=
  match value with
  | VRaw v => logical_slice_index (PInt (rv_slice_id v)) (PInt slice_count)
  | VAggregate v => Ok (av_logical_slice_index v)
  end.

(** ** Topological order *)

Definition node_key (node : TransferNode) : pyfloat * pyfloat * Z * string :=
  (nd_st_time node, nd_ed_time node, nd_stage_id node, nd_node_id node).

(** Nodes whose predecessors are all completed. *)
Definition ready_ids (predecessors : Predecessors) (completed remaining : gset string)
    : list string :=
  filter (λ id, default ∅ (predecessors !! id) ⊆ completed) (elements remaining).

Fixpoint topological_loop (fuel : nat) (nodes : Nodes) (predecessors : Predecessors)
    (completed remaining : gset string) (ordered : list string) : res (list string) :=
  match fuel with
  | O => Err OutOfFuel
  | S fuel =>
      if decide (remaining = ∅) then Ok ordered
      else
        ready ← mapR (λ id, of_option (dict_get id nodes) (KeyError id))
                  (ready_ids predecessors completed remaining);
        selected ← of_option (min_by node_key ready)
          (SemanticError "transfer dependency graph contains a cycle");
        let id := nd_node_id selected in
        raise_when (negb (bool_decide (id ∈ remaining))) (KeyError id);;
        topological_loop fuel nodes predecessors ({[id]} ∪ completed) (remaining ∖ {[id]})
          (ordered ++ [id])
  end.

Definition _topological_order (nodes : Nodes) (predecessors : Predecessors)
    : res (list string) :=
  topological_loop (S (length nodes)) nodes predecessors ∅ (list_to_set nodes.*1) [].

(** ** Construction *)

Record Edges : Type := MkEdges { ed_predecessors : Predecessors; ed_reasons : Reasons }.

Section build.
Context (program : EndpointProgram) (schedule : Schedule) (buffers : BufferPlan).

Definition schedule_ids : gset string := list_to_set (tr_id <$> sc_transfers schedule).

Definition reduce_ids : gset string :=
  list_to_set (tr_id <$> filter (λ t, tr_kind t = "REDUCE"%string) (sc_transfers schedule)).

Definition check_mappings : res unit :=
  raise_when (negb (same_keys (epp_by_transfer_id program) schedule_ids))
    (SemanticError "endpoint program does not match schedule transfers");;
  raise_when (negb (same_keys (bp_transfer_src_refs buffers) schedule_ids) ||
              negb (same_keys (bp_transfer_dst_refs buffers) schedule_ids) ||
              negb (same_keys (bp_transfer_input_values buffers) schedule_ids) ||
              negb (same_keys (bp_transfer_output_values buffers) schedule_ids) ||
              negb (same_keys (bp_transfer_effective_times buffers) schedule_ids))
    (SemanticError "buffer plan does not cover schedule transfers");;
  raise_when (negb (same_keys (bp_transfer_accumulator_refs buffers) reduce_ids) ||
              negb (same_keys (bp_transfer_accumulator_values buffers) reduce_ids))
    (SemanticError "buffer plan reduction state is incomplete").

Definition transfer_node (transfer : Transfer) : res TransferNode :=
  let id := tr_id transfer in
  '(effective_start, effective_end) ←
    of_option (dict_get id (bp_transfer_effective_times buffers))
      (SemanticError "transfer effective timing is missing");
  endpoints ← of_option (dict_get id (epp_by_transfer_id program)) (KeyError id);
  indices ← mapR (λ member, logical_slice_index (PInt member) (PInt (sc_slice_count schedule)))
              (elements (tr_members transfer));
  index ← of_option (min_by (λ x : Z, x) indices) (ValueError "min() arg is an empty sequence");
  Ok (MkTransferNode id (tr_kind transfer) (ep_endpoint_id <$> endpoints) (tr_members transfer)
        (tr_stage transfer) index (tr_src transfer) (tr_dst transfer) (tr_channel transfer)
        (Finite (tr_st transfer)) (Finite (tr_ed transfer)) effective_start effective_end).

Definition copy_node (copy_id : string) (copy : LocalCopy) : res TransferNode :=
  endpoint ← of_option (dict_get copy_id (epp_local_endpoints program)) (KeyError copy_id);
  Ok (MkTransferNode copy_id "COPY" [ep_endpoint_id endpoint] ∅ (-1) (-1) (lc_rank copy)
        (lc_rank copy) (-1) (lc_st_time copy) (lc_ed_time copy) (lc_st_time copy)
        (lc_ed_time copy)).

Definition copies : list (string * LocalCopy) :=
  dict_of_list ((λ copy, (lc_copy_id copy, copy)) <$> bp_local_copies buffers).

Definition build_nodes : res Nodes :=
  nodes ← foldM (λ nodes transfer,
      node ← transfer_node transfer; Ok (dict_set (tr_id transfer) node nodes))
    [] (sc_transfers schedule);
  raise_when (negb (bool_decide (schedule_ids ∩ list_to_set copies.*1 = ∅)))
    (SemanticError "transfer and local copy IDs must be disjoint");;
  raise_when (negb (same_keys (epp_local_endpoints program) (list_to_set copies.*1)))
    (SemanticError "endpoint program does not match local copies");;
  foldM (λ nodes '(copy_id, copy),
      node ← copy_node copy_id copy; Ok (dict_set copy_id node nodes)) nodes copies.

Definition no_edges (nodes : Nodes) : Edges :=
  MkEdges (list_to_map ((λ id, (id, ∅)) <$> nodes.*1)) ∅.

Definition add_edge (nodes : Nodes) (e : Edges) (predecessor consumer reason : string)
    : res Edges :=
  raise_when (negb (present (dict_get predecessor nodes)) ||
              negb (present (dict_get consumer nodes)))
    (SemanticError "dependency references a missing node");;
  raise_when (bool_decide (predecessor = consumer))
    (SemanticError "dependency node must not depend on itself");;
  Ok (MkEdges
        (<[consumer := {[predecessor]} ∪ default ∅ (ed_predecessors e !! consumer)]>
           (ed_predecessors e))
        (<[(predecessor, consumer) :=
             {[reason]} ∪ default ∅ (ed_reasons e !! (predecessor, consumer))]>
           (ed_reasons e))).

(** [for p in producers: add_edge(p, consumer, reason)] *)
Definition add_edges (nodes : Nodes) (e : Edges) (producers : list string)
    (consumer reason : string) : res Edges :=
  foldM (λ e producer, add_edge nodes e producer consumer reason) e producers.

(** [tuple(raw_semantic.get(transfer_id, ()))] *)
Definition semantic_predecessors (raw : list (string * pyval)) (id : string)
    : res (list pyval) :=
  match dict_get id raw with
  | None => Ok []
  | Some v =>
      match py_iter v with
      | Ok l => Ok l
      | Err (TypeError _) => Err (SemanticError "semantic predecessor IDs must be iterable")
      | Err e => Err e
      end
  end.

(** [add_edge] on an identifier of any type. *)
Definition add_value_edge (nodes : Nodes) (e : Edges) (predecessor : pyval)
    (consumer reason : string) : res Edges :=
  match predecessor with
  | PStr id => add_edge nodes e id consumer reason
  | _ => if py_hashable predecessor
         then Err (SemanticError "dependency references a missing node")
         else Err (TypeError "unhashable type")
  end.

Definition schedule_edges (nodes : Nodes) (e : Edges) : res Edges :=
  raw ← match md_semantic_predecessors (sc_metadata schedule) with
        | None => Ok []
        | Some (PDict d) => Ok d
        | Some _ => Err (SemanticError "semantic_predecessors metadata must be a mapping")
        end;
  foldM (λ e transfer,
    e ← add_edges nodes e (elements (tr_preds transfer)) (tr_id transfer) "schedule";
    semantic ← semantic_predecessors raw (tr_id transfer);
    foldM (λ e predecessor, add_value_edge nodes e predecessor (tr_id transfer) "semantic")
      e semantic) e (sc_transfers schedule).

(** [output_producers[value]] and [exact_producers[(value, ref)]] *)
Definition output_producers (value : ValueKey) : list string :=
  fst <$> filter (λ item, item.2 = value) (bp_transfer_output_values buffers).

Definition exact_producers (value : ValueKey) (ref : PhysicalRef) : list string :=
  filter (λ id, dict_get id (bp_transfer_dst_refs buffers) = Some ref) (output_producers value).

Definition path_key : Type := Z * Z * string * Z * Z * Z.

#[local] Instance path_key_eq_dec : EqDecision path_key.
Proof. unfold path_key. apply _. Defined.

Definition symbol_key (slice stage : Z) (operator : string) (symbol : Symbol_) : path_key :=
  (slice, stage, operator, sy_src symbol, sy_dst symbol, sy_ready symbol).

Definition index_atom (transfer : Transfer) (path_index : list (path_key * string))
    (atom : Atom) : res (list (path_key * string)) :=
  symbol ← current_symbol atom;
  let key := symbol_key (at_slice_id atom) (tr_stage transfer) (tr_kind transfer) symbol in
  raise_when (present (dict_get key path_index))
    (SemanticError "path operation maps to multiple transfers");;
  Ok (dict_set key (tr_id transfer) path_index).

Definition build_path_index : res (list (path_key * string)) :=
  foldM (λ path_index transfer, foldM (index_atom transfer) path_index (tr_atoms transfer))
    [] (sc_transfers schedule).

(** The symbols of an atom's path, with their stages. *)
Definition flattened (atom : Atom) : list (Z * string * Symbol_) :=
  stage ← at_path atom;
  (λ symbol, (ps_stage_id stage, ps_operator stage, symbol)) <$> ps_symbols stage.

Definition path_predecessor (path_index : list (path_key * string)) (atom : Atom)
    : res (option string) :=
  foldM (λ _ '(stage_id, operator, symbol),
    predecessor ← of_option
      (dict_get (symbol_key (at_slice_id atom) stage_id operator symbol) path_index)
      (SemanticError "atom path predecessor is missing");
    Ok (Some predecessor)) None (removelast (flattened atom)).

Definition atom_edge (nodes : Nodes) (path_index : list (path_key * string))
    (transfer : Transfer) (e : Edges) (atom : Atom) : res Edges :=
  if (length (flattened atom) =? 1)%nat then Ok e
  else
    immediate ← path_predecessor path_index atom;
    match immediate with
    | None => Err (SemanticError "dependency references a missing node")
    | Some predecessor => add_edge nodes e predecessor (tr_id transfer) "path"
    end.

Definition path_edges (nodes : Nodes) (path_index : list (path_key * string)) (e : Edges)
    : res Edges :=
  foldM (λ e transfer,
    let id := tr_id transfer in
    input_value ← of_option (dict_get id (bp_transfer_input_values buffers)) (KeyError id);
    match input_value with
    | VAggregate _ =>
        source_ref ← of_option (dict_get id (bp_transfer_src_refs buffers)) (KeyError id);
        add_edges nodes e (exact_producers input_value source_ref) id "path"
    | VRaw _ => foldM (atom_edge nodes path_index transfer) e (tr_atoms transfer)
    end) e (sc_transfers schedule).

(** The copies that write [ref]. *)
Definition copies_to (ref : PhysicalRef) : list string :=
  lc_copy_id <$> filter (λ copy, lc_dst_ref copy = ref) (bp_local_copies buffers).

Definition copy_edges (nodes : Nodes) (e : Edges) : res Edges :=
  e ← foldM (λ e copy,
      if present (dict_get (lc_predecessor_state_id copy) nodes)
      then add_edge nodes e (lc_predecessor_state_id copy) (lc_copy_id copy) "copy_source"
      else Ok e) e (bp_local_copies buffers);
  foldM (λ e '(transfer_id, value),
    source_ref ← of_option (dict_get transfer_id (bp_transfer_src_refs buffers))
      (KeyError transfer_id);
    e ← add_edges nodes e (exact_producers value source_ref) transfer_id "buffer_state";
    add_edges nodes e (copies_to source_ref) transfer_id "buffer_init")
    e (bp_transfer_input_values buffers).

(** The consistency of a reduction with its accumulator. *)
Definition reduce_crosses (input_value accumulator output_value : ValueKey) : res bool :=
  input_index ← _logical input_value (sc_slice_count schedule);
  accumulator_index ← _logical accumulator (sc_slice_count schedule);
  Ok (negb (input_index =? accumulator_index) ||
      negb (bool_decide (_contributors input_value ∩ _contributors accumulator = ∅)) ||
      match output_value with
      | VRaw _ => true
      | VAggregate output =>
          negb (bool_decide (av_contributors output =
                             _contributors input_value ∪ _contributors accumulator)) ||
          negb (av_logical_slice_index output =? input_index) ||
          match accumulator with
          | VAggregate acc => av_state_version output <=? av_state_version acc
          | VRaw _ => false
          end
      end).

Definition state_edges (nodes : Nodes) (e : Edges) : res Edges :=
  foldM (λ e transfer,
    let id := tr_id transfer in
    input_value ← of_option (dict_get id (bp_transfer_input_values buffers)) (KeyError id);
    output_value ← of_option (dict_get id (bp_transfer_output_values buffers)) (KeyError id);
    if decide (tr_kind transfer = "SEND"%string) then
      raise_when (negb (bool_decide (input_value = output_value)))
        (SemanticError "SEND crosses value state versions");;
      Ok e
    else
      accumulator ← of_option (dict_get id (bp_transfer_accumulator_values buffers))
        (SemanticError "REDUCE accumulator state is missing");
      crosses ← reduce_crosses input_value accumulator output_value;
      raise_when crosses (SemanticError "REDUCE crosses an accumulator state version");;
      e ← add_edges nodes e (output_producers accumulator) id "buffer_state";
      accumulator_ref ← of_option (dict_get id (bp_transfer_accumulator_refs buffers))
        (SemanticError "REDUCE accumulator reference is missing");
      add_edges nodes e (copies_to accumulator_ref) id "buffer_init") e (sc_transfers schedule).

(** The edges from a copy that saves a value to the transfers that overwrite
    the saved address later. *)
Definition overwrite_edge (nodes : Nodes) (copy : LocalCopy) (source_address : Address)
    (st : parents * Edges) (transfer : Transfer) : res (parents * Edges) :=
  let '(p, e) := st in
  let id := tr_id transfer in
  if negb (tr_dst transfer =? lc_rank copy) then Ok (p, e)
  else
    dst_ref ← of_option (dict_get id (bp_transfer_dst_refs buffers)) (KeyError id);
    '(p, target) ← find p (address dst_ref);
    if negb (bool_decide (target = source_address)) then Ok (p, e)
    else
      '(effective_start, _) ←
        of_option (dict_get id (bp_transfer_effective_times buffers)) (KeyError id);
      if float_leb (lc_ed_time copy) effective_start then
        e ← add_edge nodes e (lc_copy_id copy) id "buffer_antidependency"; Ok (p, e)
      else Ok (p, e).

Definition antidependency_edges (nodes : Nodes) (e : Edges) : res Edges :=
  p ← Aliases_init (bp_aliases buffers);
  '(_, e) ← foldM (λ st copy,
    let '(p, e) := st in
    if decide (lc_reason copy ≠ "preserve live in-place input"%string) then Ok (p, e)
    else
      '(p, source_address) ← find p (address (lc_src_ref copy));
      foldM (overwrite_edge nodes copy source_address) (p, e) (sc_transfers schedule))
    (p, e) (bp_local_copies buffers);
  Ok e.

Definition build_transfer_dag : res TransferDAG :=
  check_mappings;;
  nodes ← build_nodes;
  e ← schedule_edges nodes (no_edges nodes);
  path_index ← build_path_index;
  e ← path_edges nodes path_index e;
  e ← copy_edges nodes e;
  e ← state_edges nodes e;
  e ← antidependency_edges nodes e;
  order ← _topological_order nodes (ed_predecessors e);
  TransferDAG_init nodes (ed_predecessors e) (ed_reasons e) order.
End build.
