(* ===== verification/DependencyLaws.v ===== *)
(** * Laws of the transfer graph

    The graph has one node per transfer and per copy, an edge for every
    dependency the schedule and the buffer plan declare, and a topological
    order of all of it. *)

From S2P Require Import Prelude.
From S2P Require Import Python.
From S2P Require Import Slice.
From S2P Require Import Atom.
From S2P Require Import AtomLaws.
From S2P Require Import XmlModel.
From S2P Require Import Endpoints.
From S2P Require Import Floats.
From S2P Require Import Aliases.
From S2P Require Import Liveness.
From S2P Require Import LivenessLaws.
From S2P Require Import Dependencies.
Local Open Scope Z_scope.

(** ** Edges *)

Definition has_edge (e : Edges) (predecessor consumer : string) : Prop :=
  predecessor ∈ default ∅ (ed_predecessors e !! consumer).

(** [e'] has the edges of [e] and maybe more. *)
Definition grows (e e' : Edges) : Prop := ∀ p c, has_edge e p c → has_edge e' p c.

#[export] Instance grows_preorder : PreOrder grows.
Proof. split; [by intros e p c|]. intros e1 e2 e3 H1 H2 p c H. by apply H2, H1. Qed.

Lemma add_edge_Ok nodes e p c reason e' :
  add_edge nodes e p c reason = Ok e' → grows e e' ∧ has_edge e' p c.
Proof.
  unfold add_edge. intros H. inv_res. bool_prop. subst. unfold grows, has_edge; simpl.
  rewrite lookup_insert_eq. split; [|set_solver].
  intros q d Hq. destruct (decide (d = c)) as [->|]; [rewrite lookup_insert_eq; set_solver|].
  by rewrite lookup_insert_ne.
Qed.

(** A loop whose body only adds edges. *)
Lemma fold_grows {A} (f : Edges → A → res Edges) (Q : A → Edges → Prop) l e e' :
  (∀ x e1 e2, Q x e1 → grows e1 e2 → Q x e2) →
  (∀ e x e', x ∈ l → f e x = Ok e' → grows e e' ∧ Q x e') →
  foldM f e l = Ok e' → grows e e' ∧ ∀ x, x ∈ l → Q x e'.
Proof.
  intros HQ. revert e. induction l as [|x l IH]; intros e Hf H; simpl in H.
  { injection H as <-. split; [done|]. by intros ? ?%elem_of_nil. }
  apply bind_Ok in H as (e1 & H1 & H2).
  destruct (Hf _ _ _ ltac:(by left) H1) as [Hg1 Hq].
  destruct (IH _ (λ e y e' Hy, Hf e y e' ltac:(by right)) H2) as [Hg2 Hl].
  split; [by etrans|]. intros y. rewrite elem_of_cons. intros [->|?]; eauto.
Qed.

Lemma add_edges_Ok nodes e producers c reason e' :
  add_edges nodes e producers c reason = Ok e' →
  grows e e' ∧ ∀ p, p ∈ producers → has_edge e' p c.
Proof.
  apply (fold_grows _ (λ p e, has_edge e p c)).
  - intros p e1 e2 H Hg. by apply Hg.
  - intros ? ? ? _. apply add_edge_Ok.
Qed.

Section dag.
Context (program : EndpointProgram) (s : Schedule) (b : BufferPlan).

(** ** The dependencies that the graph must contain *)

Record edges_complete (has : string → string → Prop) : Prop := {
  ec_schedule t p : t ∈ sc_transfers s → p ∈ tr_preds t → has p (tr_id t);
  ec_source_producer t value ref p : t ∈ sc_transfers s →
    dict_get (tr_id t) (bp_transfer_input_values b) = Some value →
    dict_get (tr_id t) (bp_transfer_src_refs b) = Some ref →
    p ∈ exact_producers b value ref → has p (tr_id t);
  ec_source_copy t value ref copy : t ∈ sc_transfers s →
    dict_get (tr_id t) (bp_transfer_input_values b) = Some value →
    dict_get (tr_id t) (bp_transfer_src_refs b) = Some ref →
    copy ∈ bp_local_copies b → lc_dst_ref copy = ref → has (lc_copy_id copy) (tr_id t);
  ec_accumulator t value p : t ∈ sc_transfers s → tr_kind t ≠ "SEND"%string →
    dict_get (tr_id t) (bp_transfer_accumulator_values b) = Some value →
    p ∈ output_producers b value → has p (tr_id t);
  ec_accumulator_copy t ref copy : t ∈ sc_transfers s → tr_kind t ≠ "SEND"%string →
    dict_get (tr_id t) (bp_transfer_accumulator_refs b) = Some ref →
    copy ∈ bp_local_copies b → lc_dst_ref copy = ref → has (lc_copy_id copy) (tr_id t);
}.

Lemma add_value_edge_grows nodes e v c reason e' :
  add_value_edge nodes e v c reason = Ok e' → grows e e'.
Proof.
  unfold add_value_edge. destruct v; simpl; try done.
  intros H. by apply add_edge_Ok in H as [? _].
Qed.

Lemma schedule_edges_Ok nodes e e' :
  schedule_edges s nodes e = Ok e' →
  grows e e' ∧ ∀ t, t ∈ sc_transfers s → ∀ p, p ∈ tr_preds t → has_edge e' p (tr_id t).
Proof.
  unfold schedule_edges. intros H. apply bind_Ok in H as (raw & _ & H). revert H.
  apply (fold_grows _ (λ t e, ∀ p, p ∈ tr_preds t → has_edge e p (tr_id t))).
  - intros t e1 e2 H Hg p Hp. by apply Hg, H.
  - intros e0 t e2 _ H. apply bind_Ok in H as (e1 & H1 & H).
    apply bind_Ok in H as (sem & _ & H2). apply add_edges_Ok in H1 as [Hg1 Hp1].
    assert (Hg2 : grows e1 e2).
    { apply (fold_grows _ (λ _ _, True)) in H2 as [? _]; [done|done|].
      intros ? ? ? _ E. split; [by eapply add_value_edge_grows|done]. }
    split; [by etrans|]. intros p Hp. apply Hg2, Hp1. by apply elem_of_elements.
Qed.

Lemma path_edges_grows nodes idx e e' : path_edges s b nodes idx e = Ok e' → grows e e'.
Proof.
  unfold path_edges. intros H. apply (fold_grows _ (λ _ _, True)) in H as [? _]; [done|done|].
  intros e0 t e1 _ E. cbv zeta in E. apply bind_Ok in E as (v & _ & E). split; [|done].
  destruct v as [v|v].
  - apply (fold_grows _ (λ _ _, True)) in E as [? _]; [done|done|].
    intros e2 a e3 _ E'. split; [|done]. unfold atom_edge in E'.
    destruct (_ =? 1)%nat; [by injection E' as <-|].
    apply bind_Ok in E' as ([pred|] & _ & E'); [|done]. by apply add_edge_Ok in E' as [? _].
  - apply bind_Ok in E as (ref & _ & E). by apply add_edges_Ok in E as [? _].
Qed.

Lemma copy_edges_Ok nodes e e' :
  copy_edges b nodes e = Ok e' →
  grows e e' ∧ ∀ item, item ∈ bp_transfer_input_values b → ∀ ref,
    dict_get item.1 (bp_transfer_src_refs b) = Some ref →
    (∀ p, p ∈ exact_producers b item.2 ref → has_edge e' p item.1) ∧
    (∀ p, p ∈ copies_to b ref → has_edge e' p item.1).
Proof.
  unfold copy_edges. intros H. apply bind_Ok in H as (e1 & H1 & H2).
  assert (Hg1 : grows e e1).
  { apply (fold_grows _ (λ _ _, True)) in H1 as [? _]; [done|done|].
    intros ? ? ? _ E. split; [|done]. destruct (present _); [|by injection E as <-].
    by apply add_edge_Ok in E as [? _]. }
  revert H2. intros H2.
  apply (fold_grows _ (λ item e', ∀ ref,
    dict_get item.1 (bp_transfer_src_refs b) = Some ref →
    (∀ p, p ∈ exact_producers b item.2 ref → has_edge e' p item.1) ∧
    (∀ p, p ∈ copies_to b ref → has_edge e' p item.1))) in H2 as [Hg2 Hq].
  - split; [by etrans|done].
  - intros x a1 a2 Hx Hg ref Href. destruct (Hx ref Href). split; intros; apply Hg; auto.
  - intros e2 [id v] e3 _ E. apply bind_Ok in E as (ref & Href & E).
    apply bind_Ok in E as (e4 & E1 & E2). apply of_option_Ok in Href.
    apply add_edges_Ok in E1 as [G1 P1], E2 as [G2 P2]. split; [by etrans|].
    intros ref' Href'. simpl in *. assert (ref' = ref) as -> by congruence.
    split; [intros; apply G2; auto|done].
Qed.

Lemma state_edges_Ok nodes e e' :
  state_edges s b nodes e = Ok e' →
  grows e e' ∧ ∀ t, t ∈ sc_transfers s → tr_kind t ≠ "SEND"%string →
    (∀ value, dict_get (tr_id t) (bp_transfer_accumulator_values b) = Some value →
       ∀ p, p ∈ output_producers b value → has_edge e' p (tr_id t)) ∧
    (∀ ref, dict_get (tr_id t) (bp_transfer_accumulator_refs b) = Some ref →
       ∀ p, p ∈ copies_to b ref → has_edge e' p (tr_id t)).
Proof.
  unfold state_edges.
  apply (fold_grows _ (λ t e', tr_kind t ≠ "SEND"%string →
    (∀ value, dict_get (tr_id t) (bp_transfer_accumulator_values b) = Some value →
       ∀ p, p ∈ output_producers b value → has_edge e' p (tr_id t)) ∧
    (∀ ref, dict_get (tr_id t) (bp_transfer_accumulator_refs b) = Some ref →
       ∀ p, p ∈ copies_to b ref → has_edge e' p (tr_id t)))).
  - intros t e1 e2 Hx Hg Hk. destruct (Hx Hk) as [H1 H2]. split; intros; apply Hg; eauto.
  - intros e0 t e2 _ E. cbv zeta in E. apply bind_Ok in E as (iv & _ & E).
    apply bind_Ok in E as (ov & _ & E). destruct (decide (tr_kind t = "SEND"%string)).
    { apply bind_Ok in E as (? & _ & [= <-]). done. }
    apply bind_Ok in E as (acc & Hacc & E). apply bind_Ok in E as (crosses & _ & E).
    apply bind_Ok in E as (? & _ & E). apply bind_Ok in E as (e1 & E1 & E).
    apply bind_Ok in E as (ref & Href & E). apply of_option_Ok in Hacc, Href.
    apply add_edges_Ok in E1 as [G1 P1], E as [G2 P2]. split; [by etrans|].
    intros _. split.
    + intros value Hv p Hp. assert (value = acc) as -> by congruence. by apply G2, P1.
    + intros ref' Hr p Hp. assert (ref' = ref) as -> by congruence. by apply P2.
Qed.

Lemma overwrite_edge_grows nodes copy a p e t p' e' :
  overwrite_edge b nodes copy a (p, e) t = Ok (p', e') → grows e e'.
Proof.
  unfold overwrite_edge. cbv zeta. intros H. destruct (negb _); [by injection H as <- <-|].
  apply bind_Ok in H as (dst & _ & H). apply bind_Ok in H as ([q target] & _ & H).
  destruct (negb _); [by injection H as <- <-|].
  apply bind_Ok in H as ([st ed] & _ & H). destruct (float_leb _ _); [|by injection H as <- <-].
  apply bind_Ok in H as (e1 & H1 & [= <- <-]). by apply add_edge_Ok in H1 as [? _].
Qed.

Lemma antidependency_edges_grows nodes e e' :
  antidependency_edges s b nodes e = Ok e' → grows e e'.
Proof.
  unfold antidependency_edges. intros H. apply bind_Ok in H as (p & _ & H).
  apply bind_Ok in H as ([p' e1] & H & [= <-]).
  apply (foldM_ind (λ _ st, grows e st.2)) in H; [done|done|].
  intros _ copy [p1 e2] [p2 e3] Hg _ E. simpl in *.
  destruct (decide _); [by injection E as <- <-|].
  apply bind_Ok in E as ([q a] & _ & E).
  apply (foldM_ind (λ _ st, grows e st.2)) in E; [done|done|].
  intros _ t [p3 e4] [p4 e5] Hg' _ E'. simpl in *. etrans; [exact Hg'|].
  by eapply overwrite_edge_grows.
Qed.

(** ** Nodes *)

Lemma dict_fold {A V} (key : A → string) (f : A → res V) l d d' :
  NoDup (d.*1 ++ (key <$> l)) →
  foldM (λ d x, v ← f x; Ok (dict_set (key x) v d)) d l = Ok d' →
  ∃ vs, Forall2 (λ x v, f x = Ok v) l vs ∧ d' = d ++ zip (key <$> l) vs.
Proof.
  revert d. induction l as [|x l IH]; intros d Hnd H; simpl in H.
  { injection H as <-. exists []. split; [constructor|by rewrite app_nil_r]. }
  apply bind_Ok in H as (d1 & H1 & H2). apply bind_Ok in H1 as (v & Hv & [= <-]).
  csimpl in Hnd. assert (Hx : key x ∉ d.*1).
  { apply NoDup_app in Hnd as (_ & Hd & _). intros Hin. apply (Hd _ Hin). by left. }
  rewrite dict_set_fresh in H2 by done. apply IH in H2 as (vs & Hvs & ->).
  - exists (v :: vs). split; [by constructor|]. csimpl. by rewrite <- app_assoc.
  - rewrite fmap_app. csimpl. by rewrite <- app_assoc.
Qed.

Definition copy_ids : list string := (copies b).*1.

Lemma copy_ids_NoDup : NoDup copy_ids.
Proof. apply dict_of_list_NoDup. Qed.

Lemma build_nodes_Ok nodes :
  NoDup (tr_id <$> sc_transfers s) → build_nodes program s b = Ok nodes →
  ∃ ts cs,
    Forall2 (λ t n, transfer_node program s b t = Ok n) (sc_transfers s) ts ∧
    Forall2 (λ c n, copy_node program c.1 c.2 = Ok n) (copies b) cs ∧
    nodes = zip (tr_id <$> sc_transfers s) ts ++ zip copy_ids cs ∧
    NoDup ((tr_id <$> sc_transfers s) ++ copy_ids).
Proof.
  intros Hnd H. unfold build_nodes in H. apply bind_Ok in H as (n1 & H1 & H).
  apply bind_Ok in H as ([] & Hdis & H). apply bind_Ok in H as ([] & _ & H).
  apply (dict_fold tr_id) in H1 as (ts & Hts & ->); [|done].
  assert (Hall : NoDup ((tr_id <$> sc_transfers s) ++ copy_ids)).
  { apply NoDup_app. split_and!; [done| |apply copy_ids_NoDup]. intros i Hi Hc.
    apply raise_when_Ok in Hdis. bool_prop. unfold schedule_ids in Hdis. set_solver. }
  assert (Hlen : (zip (tr_id <$> sc_transfers s) ts).*1 = tr_id <$> sc_transfers s).
  { apply fst_zip. rewrite length_fmap. apply Forall2_length in Hts. lia. }
  assert (H' : foldM (λ d c, v ← copy_node program c.1 c.2; Ok (dict_set c.1 v d))
    ([] ++ zip (tr_id <$> sc_transfers s) ts) (copies b) = Ok nodes).
  { rewrite <- H. clear. simpl. generalize (zip (tr_id <$> sc_transfers s) ts).
    induction (copies b) as [|[i c] l IH]; intros d; simpl; [done|].
    destruct (copy_node program i c); simpl; [apply IH|done]. }
  apply (dict_fold fst) in H' as (cs & Hcs & ->); [|simpl; by rewrite Hlen].
  exists ts, cs. done.
Qed.
End dag.

(** ** Topological orders *)

(** [p] comes before [c] in [order]. *)
Definition precedes (order : list string) (p c : string) : Prop :=
  ∃ i j, order !! i = Some p ∧ order !! j = Some c ∧ (i < j)%nat.

Lemma position_of_Ok order id i : position_of order id = Ok i → order !! i = Some id.
Proof.
  unfold position_of. intros H. apply of_option_Ok, fmap_Some in H as ([k x] & H & ->).
  apply list_find_Some in H as (H & <- & _). done.
Qed.

Lemma elem_of_edge_list predecessors p c :
  (p, c) ∈ edge_list predecessors ↔ p ∈ default ∅ (predecessors !! c).
Proof.
  unfold edge_list. rewrite list_elem_of_bind. split.
  - intros ([c' vs] & Hin & Hm). apply list_elem_of_fmap in Hin as (q & [= <- <-] & Hq).
    apply elem_of_map_to_list in Hm. rewrite Hm. by apply elem_of_elements.
  - destruct (predecessors !! c) as [vs|] eqn:E; simpl; [|by intros ?%elem_of_empty].
    intros Hp. exists (c, vs). split; [|by apply elem_of_map_to_list].
    apply list_elem_of_fmap. exists p. split; [done|]. by apply elem_of_elements.
Qed.

Lemma TransferDAG_init_Ok nodes predecessors reasons order dag :
  NoDup nodes.*1 → TransferDAG_init nodes predecessors reasons order = Ok dag →
  dag = MkTransferDAG nodes predecessors reasons order ∧ order ≡ₚ nodes.*1 ∧
  dom predecessors = list_to_set nodes.*1 ∧
  (∀ p c, p ∈ default ∅ (predecessors !! c) → p ∈ nodes.*1 ∧ precedes order p c) ∧
  (∀ p c, is_Some (reasons !! (p, c)) ↔ p ∈ default ∅ (predecessors !! c)).
Proof.
  intros Hnd H. unfold TransferDAG_init in H. cbv zeta in H.
  apply bind_Ok in H as ([] & Hdom & H). apply bind_Ok in H as ([] & Hin & H).
  apply bind_Ok in H as ([] & Hre & H). apply bind_Ok in H as ([] & Hord & H).
  apply bind_Ok in H as ([] & Hpos & [= <-]).
  apply raise_when_Ok in Hdom, Hre, Hord. bool_prop.
  match goal with H : (_ =? _)%nat = true |- _ => apply Nat.eqb_eq in H; rename H into Hlen end.
  match goal with H : list_to_set order = _ |- _ => rename H into Hset end.
  match goal with H : dom reasons = _ |- _ => rename H into Hdr end.
  clear Hin. apply iterM_Ok in Hpos. rewrite Forall_forall in Hpos. split; [done|].
  split_and!.
  - apply NoDup_Permutation; [|done|].
    + apply NoDup_of_size. rewrite Hset, Hlen, size_list_to_set, length_fmap by done. done.
    + intros x. by rewrite <- !(elem_of_list_to_set (C := gset string)), Hset.
  - done.
  - intros p c Hp. assert (He : (p, c) ∈ edge_list predecessors) by (by apply elem_of_edge_list).
    specialize (Hpos _ He). simpl in Hpos. apply bind_Ok in Hpos as (i & Hi & Hpos).
    apply bind_Ok in Hpos as (j & Hj & Hpos). apply raise_when_Ok, Nat.leb_gt in Hpos.
    split; [|exists i, j; split_and!; [by apply position_of_Ok..|done]].
    apply position_of_Ok, list_elem_of_lookup_2 in Hi.
    apply (elem_of_list_to_set (C := gset string)). rewrite <- Hset.
    by apply elem_of_list_to_set.
  - intros p c. rewrite <- elem_of_dom, Hdr, elem_of_list_to_set. apply elem_of_edge_list.
Qed.

Lemma topological_loop_terminates fuel nodes predecessors completed remaining ordered :
  (size remaining < fuel)%nat →
  terminates (topological_loop fuel nodes predecessors completed remaining ordered).
Proof.
  revert completed remaining ordered. induction fuel as [|fuel IH]; intros c r o Hs; [lia|].
  simpl. destruct (decide (r = ∅)) as [->|Hne]; [done|].
  apply terminates_bind; [terminates|intros ready _].
  apply terminates_bind; [terminates|intros selected _].
  apply terminates_bind; [terminates|intros [] Hin].
  apply raise_when_Ok in Hin. bool_prop. apply IH.
  assert (size (r ∖ {[nd_node_id selected]}) < size r)%nat; [|lia].
  apply subset_size. set_solver.
Qed.

Lemma topological_order_terminates nodes predecessors :
  terminates (_topological_order nodes predecessors).
Proof.
  apply topological_loop_terminates.
  pose proof (size_list_to_set_le nodes.*1) as Hle. rewrite length_fmap in Hle. lia.
Qed.

#[export] Hint Resolve topological_order_terminates : terminates.

Section termination.
Context (program : EndpointProgram) (s : Schedule) (b : BufferPlan).

Lemma add_edge_terminates nodes e p c reason : terminates (add_edge nodes e p c reason).
Proof. unfold add_edge. terminates. Qed.
#[local] Hint Resolve add_edge_terminates : terminates.

Lemma add_edges_terminates nodes e ps c reason : terminates (add_edges nodes e ps c reason).
Proof. unfold add_edges. terminates. Qed.
#[local] Hint Resolve add_edges_terminates : terminates.

Lemma build_nodes_terminates : terminates (build_nodes program s b).
Proof. unfold build_nodes, transfer_node, copy_node. terminates. Qed.

Lemma semantic_predecessors_terminates raw id : terminates (semantic_predecessors raw id).
Proof.
  unfold semantic_predecessors. destruct (dict_get id raw) as [v|]; [|done].
  destruct v; simpl; done.
Qed.

Lemma schedule_edges_terminates nodes e : terminates (schedule_edges s nodes e).
Proof.
  pose proof semantic_predecessors_terminates.
  unfold schedule_edges, add_value_edge. terminates.
Qed.

Lemma path_terminates nodes e :
  terminates (build_path_index s) ∧ ∀ idx, terminates (path_edges s b nodes idx e).
Proof.
  unfold build_path_index, index_atom, current_symbol, path_edges, atom_edge, path_predecessor.
  split; intros; terminates.
Qed.

Lemma copy_edges_terminates nodes e : terminates (copy_edges b nodes e).
Proof. unfold copy_edges. terminates. Qed.

Lemma state_edges_terminates nodes e : terminates (state_edges s b nodes e).
Proof. unfold state_edges, reduce_crosses, _logical. terminates. Qed.

Lemma overwrite_edge_terminates p0 nodes copy a st t :
  grown p0 st.1 →
  terminates (overwrite_edge b nodes copy a st t) ∧
  ∀ st', overwrite_edge b nodes copy a st t = Ok st' → grown p0 st'.1.
Proof.
  destruct st as [p e]. simpl. intros Hg. cbv beta iota zeta delta [overwrite_edge].
  destruct (negb _); [by split; [|intros ? [= <-]]|].
  destruct (dict_get (tr_id t) (bp_transfer_dst_refs b)) as [ref|]; cbn [of_option mbind res_bind]; [|by split; [apply terminates_Err|]].
  pose proof (canonical_terminates p0 p ref Hg) as Ht. unfold canonical in Ht.
  destruct (find p (address ref)) as [[q target]|x] eqn:Hf; [|split; [by simpl; unfold terminates in *; congruence|done]].
  destruct (canonical_grown p0 p ref q target Hg Hf) as [Hq _].
  cbn [mbind res_bind].
  destruct (negb _); [by split; [|intros ? [= <-]]|].
  destruct (dict_get (tr_id t) _) as [[st ed]|]; cbn [of_option mbind res_bind]; [|by split; [apply terminates_Err|]].
  destruct (float_leb _ _); [|by split; [|intros ? [= <-]]].
  split; [terminates|]. intros st' H. by apply bind_Ok in H as (e' & _ & [= <-]).
Qed.

Lemma antidependency_edges_terminates nodes e : terminates (antidependency_edges s b nodes e).
Proof.
  unfold antidependency_edges. destruct (Aliases_init_Ok (bp_aliases b)) as (p0 & -> & Hi & _).
  cbn [mbind res_bind]. apply terminates_bind; [|by intros [? ?] _].
  apply (terminates_foldM_inv (λ st, grown p0 st.1)); [by split|].
  intros [p e0] copy _ Hg. simpl in Hg.
  destruct (decide _); [by split; [|intros ? [= <-]]|].
  pose proof (canonical_terminates p0 p (lc_src_ref copy) Hg) as Ht. unfold canonical in Ht.
  destruct (find p _) as [[q a]|x] eqn:Hf; [|split; [by simpl; unfold terminates in *; congruence|done]].
  destruct (canonical_grown p0 p _ q a Hg Hf) as [Hq _]. cbn [mbind res_bind]. split.
  - apply (terminates_foldM_inv (λ st, grown p0 st.1)); [done|].
    intros st t _ Hst. by apply overwrite_edge_terminates.
  - intros st' H. apply (foldM_ind (λ _ st, grown p0 st.1)) in H; [done|done|].
    intros ? t st1 st2 Hst _ E. by apply (overwrite_edge_terminates p0) in E.
Qed.

Lemma TransferDAG_init_terminates nodes predecessors reasons order :
  terminates (TransferDAG_init nodes predecessors reasons order).
Proof. unfold TransferDAG_init, position_of. terminates. Qed.

Lemma build_transfer_dag_terminates : terminates (build_transfer_dag program s b).
Proof.
  unfold build_transfer_dag, check_mappings.
  pose proof build_nodes_terminates. pose proof schedule_edges_terminates.
  pose proof copy_edges_terminates. pose proof state_edges_terminates.
  pose proof antidependency_edges_terminates. pose proof TransferDAG_init_terminates.
  pose proof (λ nodes e, proj1 (path_terminates nodes e)).
  pose proof (λ nodes e, proj2 (path_terminates nodes e)).
  terminates.
Qed.
End termination.

(** ** The graph of a schedule *)

(** [p] is a predecessor of [c]. *)
Definition depends (dag : TransferDAG) (p c : string) : Prop :=
  p ∈ default ∅ (dag_predecessors dag !! c).

Record dag_sound (program : EndpointProgram) (s : Schedule) (b : BufferPlan)
    (dag : TransferDAG) : Prop := {
  ds_nodes : ∃ ts cs,
    Forall2 (λ t n, transfer_node program s b t = Ok n) (sc_transfers s) ts ∧
    Forall2 (λ c n, copy_node program c.1 c.2 = Ok n) (copies b) cs ∧
    dag_nodes dag = zip (tr_id <$> sc_transfers s) ts ++ zip (copy_ids b) cs;
  ds_complete : edges_complete s b (depends dag);
  ds_order : dag_topological_order dag ≡ₚ (tr_id <$> sc_transfers s) ++ copy_ids b;
  ds_distinct : NoDup (dag_topological_order dag);
  ds_acyclic p c : depends dag p c → precedes (dag_topological_order dag) p c;
  ds_reasons p c : is_Some (dag_edge_reasons dag !! (p, c)) ↔ depends dag p c;
}.

Lemma edges_complete_of s b e1 e2 e3 e4 nodes idx :
  NoDup (tr_id <$> sc_transfers s) →
  schedule_edges s nodes (no_edges nodes) = Ok e1 →
  path_edges s b nodes idx e1 = Ok e2 → copy_edges b nodes e2 = Ok e3 →
  state_edges s b nodes e3 = Ok e4 → edges_complete s b (has_edge e4).
Proof.
  intros Hnd H1 H2 H3 H4. apply schedule_edges_Ok in H1 as [_ P1].
  apply path_edges_grows in H2. apply copy_edges_Ok in H3 as [G3 P3].
  apply state_edges_Ok in H4 as [G4 P4].
  assert (Hcopy : ∀ t value ref, dict_get (tr_id t) (bp_transfer_input_values b) = Some value →
    dict_get (tr_id t) (bp_transfer_src_refs b) = Some ref →
    (∀ p, p ∈ exact_producers b value ref → has_edge e4 p (tr_id t)) ∧
    (∀ p, p ∈ copies_to b ref → has_edge e4 p (tr_id t))).
  { intros t value ref Hv Hr. apply dict_get_Some_1 in Hv.
    destruct (P3 _ Hv ref Hr) as [Q1 Q2]. split; intros; apply G4; auto. }
  assert (Hto : ∀ ref copy, copy ∈ bp_local_copies b → lc_dst_ref copy = ref →
    lc_copy_id copy ∈ copies_to b ref).
  { intros ref copy Hc Hr. apply list_elem_of_fmap_2, list_elem_of_filter. done. }
  constructor.
  - intros t p Ht Hp. apply G4, G3, H2. by apply P1.
  - intros t value ref p _ Hv Hr Hp. by apply (proj1 (Hcopy t value ref Hv Hr)).
  - intros t value ref copy _ Hv Hr Hc Hd. apply (proj2 (Hcopy t value ref Hv Hr)); auto.
  - intros t value p Ht Hk Hv Hp. destruct (P4 t Ht Hk) as [Q _]. by apply (Q value).
  - intros t ref copy Ht Hk Hr Hc Hd. destruct (P4 t Ht Hk) as [_ Q]. apply (Q ref); auto.
Qed.

Lemma edges_complete_mono s b (R1 R2 : string → string → Prop) :
  (∀ p c, R1 p c → R2 p c) → edges_complete s b R1 → edges_complete s b R2.
Proof. intros Hle [? ? ? ? ?]. constructor; intros; eauto. Qed.

Lemma build_transfer_dag_sound program s b dag :
  NoDup (tr_id <$> sc_transfers s) → build_transfer_dag program s b = Ok dag →
  dag_sound program s b dag.
Proof.
  intros Hnd H. unfold build_transfer_dag in H. apply bind_Ok in H as ([] & _ & H).
  apply bind_Ok in H as (nodes & Hn & H). apply bind_Ok in H as (e1 & H1 & H).
  apply bind_Ok in H as (idx & _ & H). apply bind_Ok in H as (e2 & H2 & H).
  apply bind_Ok in H as (e3 & H3 & H). apply bind_Ok in H as (e4 & H4 & H).
  apply bind_Ok in H as (e5 & H5 & H). apply bind_Ok in H as (order & _ & H).
  apply build_nodes_Ok in Hn as (ts & cs & Hts & Hcs & -> & Hids); [|done].
  assert (Hfst : (zip (tr_id <$> sc_transfers s) ts ++ zip (copy_ids b) cs).*1 =
    (tr_id <$> sc_transfers s) ++ copy_ids b).
  { pose proof (Forall2_length _ _ _ Hts). pose proof (Forall2_length _ _ _ Hcs).
    rewrite fmap_app, !fst_zip; [done|..]; unfold copy_ids; rewrite length_fmap; lia. }
  apply TransferDAG_init_Ok in H as (-> & Hperm & _ & Hedge & Hreasons); [|by rewrite Hfst].
  rewrite Hfst in Hperm. apply antidependency_edges_grows in H5.
  constructor; simpl.
  - eauto.
  - eapply edges_complete_mono; [exact H5|]. by eapply edges_complete_of.
  - done.
  - by rewrite Hperm.
  - intros p c Hp. by apply (Hedge p c).
  - done.
Qed.


