(* ===== verification/DeadlockFree.v ===== *)
(** * Programs without deadlock

    A program whose steps can be numbered so that every threadblock runs in
    order, dependencies go to smaller numbers, and the two ends of a transfer
    have a number of their own, never stops before it is finished. *)

From stdpp Require Import relations.
From S2P Require Import Prelude.
From S2P Require Import Python.
From S2P Require Import Endpoints.
From S2P Require Import Threadblocks.
From S2P Require Import Deadlock.
From S2P Require Import DeadlockSound.
Local Open Scope Z_scope.

Record ordered (p : ThreadblockProgram) (index : XmlStep → nat) : Prop := {
  od_blocks tb i j a b : tb ∈ tp_threadblocks p → (i ≤ j)%nat →
    tb_steps tb !! i = Some a → tb_steps tb !! j = Some b → (index a ≤ index b)%nat;
  od_dependency step d dep : step ∈ program_steps (tp_threadblocks p) →
    xs_dependency_step_id step = Some d → dict_get d (tp_steps_by_id p) = Some dep →
    (index dep < index step)%nat;
  od_transfer step : step ∈ program_steps (tp_threadblocks p) → is_local step = false →
    ∃ tid st1 st2, (tid, [xs_step_id st1; xs_step_id st2]) ∈ tp_transfer_steps p ∧
      st1 ∈ program_steps (tp_threadblocks p) ∧ st2 ∈ program_steps (tp_threadblocks p) ∧
      (step = st1 ∨ step = st2) ∧ index st1 = index step ∧ index st2 = index step ∧
      (∀ tb, tb ∈ tp_threadblocks p → st1 ∈ tb_steps tb → st2 ∉ tb_steps tb) ∧
      ∀ step', step' ∈ program_steps (tp_threadblocks p) → is_local step' = false →
        index step' = index step → step' = st1 ∨ step' = st2;
}.

Section free.
Context (p : ThreadblockProgram) (Hwf : program_wf p) (Hpa : paired p).

Notation exec := (exec_step p).
Notation steps := (program_steps (tp_threadblocks p)).

(** ** The ends of a transfer complete together *)

Definition together (s : ExecState) : Prop := ∀ tid s1 s2,
  (tid, [s1; s2]) ∈ tp_transfer_steps p → s1 ∈ es_completed s ↔ s2 ∈ es_completed s.

Lemma together_exec s s' : exec s s' → together s → together s'.
Proof.
  intros Hs Ht tid s1 s2 Hin. specialize (Ht _ _ _ Hin).
  destruct Hs as [s key st Hh Hloc _|s tid' a1 a2 k1 k2 st1 st2 Hin' H1 E1 H2 E2 _ _]; simpl.
  - assert (Hne : ∀ id, id ∈ [s1; s2] → id ≠ xs_step_id st).
    { intros id Hid ->. pose proof (pa_communication p Hpa _ _ _ st Hin Hid
        (head_table p Hwf _ _ _ Hh)). congruence. }
    pose proof (Hne s1 ltac:(by left)). pose proof (Hne s2 ltac:(by right; left)).
    clear Hwf Hpa. set_solver.
  - destruct (decide (tid = tid')) as [->|Hd].
    + pose proof (transfer_same_ids p Hpa _ _ _ Hin Hin') as [= -> ->]. rewrite E1, E2.
      clear Hwf Hpa. set_solver.
    + assert (Hne : ∀ id, id ∈ [s1; s2] → id ∉ [a1; a2])
        by (intros id Hi Hi'; by apply Hd, (pa_disjoint p Hpa _ _ _ _ id Hin Hin')).
      pose proof (Hne s1 ltac:(by left)) as N1. pose proof (Hne s2 ltac:(by right; left)) as N2.
      rewrite E1, E2. clear Hwf Hpa. set_solver.
Qed.

Lemma together_reachable s : rtc exec (initial_state p) s → together s.
Proof.
  intros Hr. assert (H0 : together (initial_state p)) by (by intros tid s1 s2 _).
  induction Hr as [|? ? ? Hs _ IH]; [done|]. apply IH. by eapply together_exec.
Qed.

(** ** Heads and incomplete steps *)

Lemma incomplete_head s tb n st :
  rtc exec (initial_state p) s → tb ∈ tp_threadblocks p → tb_steps tb !! n = Some st →
  xs_step_id st ∉ es_completed s →
  ∃ m h, (m ≤ n)%nat ∧ head_of p s (block_id tb) = Some h ∧ tb_steps tb !! m = Some h.
Proof.
  intros Hr Htb Hn Hc. pose proof (completed_rtc p Hwf Hpa _ _ Hr (initial_completed p Hwf)) as Hinv.
  assert (is_Some (es_positions s !! block_id tb)) as [pos Hpos].
  { apply elem_of_dom. rewrite (positions_rtc p _ _ Hr). apply elem_of_dom.
    rewrite (initial_position p Hwf) by done. eauto. }
  assert (Hle : (pos ≤ n)%nat).
  { destruct (decide (pos ≤ n)%nat) as [?|Hlt]; [done|]. exfalso. apply Hc, Hinv.
    exists tb, n, pos, st. split_and!; try done. lia. }
  assert (is_Some (tb_steps tb !! pos)) as [h Hh].
  { apply lookup_lt_is_Some. apply lookup_lt_Some in Hn. lia. }
  exists pos, h. split_and!; [done| |done]. unfold head_of.
  rewrite (dict_get_Some_2 (block_id tb) tb); [|apply blocks_keys|].
  - unfold head_step; simpl. by rewrite Hpos.
  - rewrite (blocks_eq p Hwf). by apply (list_elem_of_fmap_2 (λ tb, (block_id tb, tb))).
Qed.

(** ** Progress *)

Context (index : XmlStep → nat) (Hord : ordered p index).

(** A state that a step of number [k] is waiting in. *)
Section progress.
Context (s : ExecState) (Hr : rtc exec (initial_state p) s) (Hnf : nf exec s).

Definition no_head_below (k : nat) : Prop :=
  ∀ key h, head_of p s key = Some h → (k ≤ index h)%nat.

Lemma completed_below k step :
  no_head_below k → step ∈ steps → (index step < k)%nat → xs_step_id step ∈ es_completed s.
Proof.
  intros Hk (tb & Htb & Hin)%elem_of_program_steps Hlt.
  destruct (decide (xs_step_id step ∈ es_completed s)) as [|Hc]; [done|]. exfalso.
  apply list_elem_of_lookup in Hin as [n Hn].
  destruct (incomplete_head _ _ _ _ Hr Htb Hn Hc) as (m & h & Hle & Hh & Hm).
  pose proof (od_blocks p index Hord tb m n h step Htb Hle Hm Hn). specialize (Hk _ _ Hh). lia.
Qed.

Lemma head_ready k key h :
  no_head_below k → head_of p s key = Some h → index h = k → dependency_ready s h = true.
Proof.
  intros Hk Hh Hi. unfold dependency_ready. destruct (xs_dependency_step_id h) as [d|] eqn:Hd; [|done].
  apply bool_decide_eq_true.
  destruct (head_of_program p Hwf _ _ _ Hh) as (tb & Htb & _ & Hin).
  assert (Hst : h ∈ steps) by (apply elem_of_program_steps; eauto).
  destruct (pw_dependency p Hwf h d Hst Hd) as (dep & Hdep & _).
  pose proof (od_dependency p index Hord h d dep Hst Hd Hdep) as Hlt.
  rewrite (pw_table p Hwf) in Hdep. apply dict_get_Some_1, list_elem_of_fmap in Hdep
    as (dep' & [= -> <-] & Hin').
  apply (completed_below k); [done..|lia].
Qed.

(** A lowest head that waits for its partner gives the partner's block a head
    that can run. *)
Lemma partner_head k key h key' other :
  no_head_below k → head_of p s key = Some h → index h = k → is_local h = false →
  (∃ tb n, tb ∈ tp_threadblocks p ∧ key' = block_id tb ∧ tb_steps tb !! n = Some other) →
  index other = k → xs_step_id other ∉ es_completed s →
  ∃ h', head_of p s key' = Some h' ∧ index h' = k ∧ is_local h' = false.
Proof.
  intros Hk Hh Hi Hl (tb & n & Htb & -> & Hn) Ho Hc.
  destruct (incomplete_head _ _ _ _ Hr Htb Hn Hc) as (m & h' & Hle & Hh' & Hm).
  pose proof (od_blocks p index Hord tb m n h' other Htb Hle Hm Hn) as Hle'.
  specialize (Hk _ _ Hh') as Hge. exists h'. split; [done|]. split; [lia|].
  destruct (is_local h') eqn:Hl'; [|done]. exfalso. apply Hnf. eexists.
  eapply exec_local; [exact Hh'|done|]. eapply head_ready; [exact Hk|exact Hh'|lia].
Qed.

Lemma lowest_head_runs k key h :
  no_head_below k → head_of p s key = Some h → index h = k → False.
Proof.
  intros Hk Hh Hi. pose proof (head_ready _ _ _ Hk Hh Hi) as Hready.
  destruct (is_local h) eqn:Hl; [apply Hnf; eexists; by eapply exec_local|].
  destruct (head_of_program p Hwf _ _ _ Hh) as (tb & Htb & Hkey & Hin).
  assert (Hst : h ∈ steps) by (apply elem_of_program_steps; eauto).
  destruct (od_transfer p index Hord h Hst Hl)
    as (tid & st1 & st2 & Ht & S1 & S2 & Hor & I1 & I2 & Hapart & Huniq).
  pose proof (head_incomplete p Hwf Hpa _ _ _ Hr Hh) as Hc.
  pose proof (together_reachable _ Hr _ _ _ Ht) as Htog.
  assert (C1 : xs_step_id st1 ∉ es_completed s) by (destruct Hor; subst; naive_solver).
  assert (C2 : xs_step_id st2 ∉ es_completed s) by (destruct Hor; subst; naive_solver).
  apply elem_of_program_steps in S1 as (tb1 & B1 & (n1 & N1)%list_elem_of_lookup).
  apply elem_of_program_steps in S2 as (tb2 & B2 & (n2 & N2)%list_elem_of_lookup).
  destruct (partner_head k key h (block_id tb1) st1) as (h1 & H1 & K1 & L1);
    [done..|by eauto|lia|done|].
  destruct (partner_head k key h (block_id tb2) st2) as (h2 & H2 & K2 & L2);
    [done..|by eauto|lia|done|].
  assert (Hin_block : ∀ b hd, b ∈ tp_threadblocks p → head_of p s (block_id b) = Some hd →
    hd ∈ tb_steps b).
  { intros b hd Hb Hhd. destruct (head_of_program p Hwf _ _ _ Hhd) as (b' & Hb' & E & Hx).
    by apply (block_id_inj p Hwf) in E as ->. }
  pose proof (Hin_block _ _ B1 H1) as M1. pose proof (Hin_block _ _ B2 H2) as M2.
  pose proof (list_elem_of_lookup_2 _ _ _ N1) as P1.
  pose proof (list_elem_of_lookup_2 _ _ _ N2) as P2.
  assert (h1 = st1) as ->.
  { destruct (Huniq h1) as [| ->]; [apply elem_of_program_steps; by eauto|done|lia|done|].
    by destruct (Hapart tb1 B1 P1). }
  assert (h2 = st2) as ->.
  { destruct (Huniq h2) as [-> |]; [apply elem_of_program_steps; by eauto|done|lia| |done].
    by destruct (Hapart tb2 B2 M2). }
  apply Hnf. eexists. eapply exec_transfer; [exact Ht|exact H1|done|exact H2|done|..];
    eapply head_ready; eauto.
Qed.

Lemma stuck_finished : finished p s.
Proof.
  assert (Hall : ∀ k, no_head_below k).
  { induction k as [|k IH]; intros key h Hh; [lia|].
    specialize (IH _ _ Hh) as Hle. destruct (decide (index h = k)) as [E|]; [|lia].
    exfalso. by eapply (lowest_head_runs k). }
  intros key. destruct (head_of p s key) as [h|] eqn:Hh; [|done].
  specialize (Hall (S (index h)) _ _ Hh). lia.
Qed.
End progress.

Lemma ordered_deadlock_free :
  ∃ r, simulate_endpoint_execution p = Ok r ∧ dr_deadlocked r = false ∧
    dr_completed_step_ids r = list_to_set (xs_step_id <$> steps).
Proof.
  destruct (simulate_loop_spec p Hwf Hpa _ _ (initial_measure p Hwf)) as (s & Hs & Hr & Hn).
  pose proof (stuck_finished s Hr Hn) as Hfin. exists (verdict p s). split; [exact Hs|].
  unfold verdict. rewrite decide_True by (by apply finished_heads). split; [done|].
  simpl. by apply finished_completed.
Qed.
End free.
