(* ===== verification/ListScheduler.v ===== *)
(** * Threadblock scheduling ([vericcl/xml/list_scheduler.py])

    The nodes of the transfer graph are appended to the threadblocks of their
    endpoints one at a time, most urgent first; a step that waits for several
    others gets one no-operation step per extra dependency. *)

From S2P Require Import Prelude.
From S2P Require Import Python.
From S2P Require Import XmlModel.
From S2P Require Import Endpoints.
From S2P Require Import Threadblocks.
From S2P Require Import Floats.
From S2P Require Import Dependencies.
Local Open Scope Z_scope.

#[export] Instance ThreadblockKey_eq_dec : EqDecision ThreadblockKey.
Proof. solve_decision. Defined.

Definition _threadblock_key (endpoint : EndpointAtom) : res ThreadblockKey :=
  if decide (ep_xml_type endpoint = COPY) then
    ThreadblockKey_init (ep_rank endpoint) "copy" (-1) (-1)
  else
    let direction := if decide (ep_xml_type endpoint = SEND) then "send"%string else "recv"%string in
    ThreadblockKey_init (ep_rank endpoint) direction (ep_peer endpoint) (ep_channel endpoint).

(** ** Priorities *)

Notation Lengths := (list (string * pyfloat)).

(** [successors[node_id]] *)
Definition successors (dag : TransferDAG) (id : string) : list string :=
  (filter (λ item : string * gset string, id ∈ item.2) (map_to_list (dag_predecessors dag))).*1.

(** [max(values, default=0.0)] *)
Definition max_default (values : list pyfloat) : pyfloat :=
  match values with
  | [] => Finite 0
  | value :: values => foldl float_max value values
  end.

Definition critical_path (dag : TransferDAG) (lengths : Lengths) (id : string) : res Lengths :=
  node ← of_option (dict_get id (dag_nodes dag)) (KeyError id);
  let duration := float_max (Finite 0)
                    (float_sub (nd_effective_ed_time node) (nd_effective_st_time node)) in
  tails ← mapR (λ successor, of_option (dict_get successor lengths) (KeyError successor))
            (successors dag id);
  Ok (dict_set id (float_add duration (max_default tails)) lengths).

Definition _critical_paths (dag : TransferDAG) : res Lengths :=
  foldM (critical_path dag) [] (reverse (dag_topological_order dag)).

Definition priority : Type :=
  pyfloat * pyfloat * pyfloat * Z * Z * Z * Z * Z * string.

Definition _node_priority (node : TransferNode) (critical_path : pyfloat) : priority :=
  (nd_st_time node, float_neg critical_path, nd_ed_time node, nd_stage_id node,
   nd_logical_slice_index node, nd_src_rank node, nd_dst_rank node, nd_channel node,
   nd_node_id node).

(** ** Inversions *)

Notation BlockSteps := (list (ThreadblockKey * list XmlStep)).

(** The pairs of positions [left < right] of a list. *)
Fixpoint pairs_of {A} (l : list A) : list (A * A) :=
  match l with
  | [] => []
  | x :: l => (pair x <$> l) ++ pairs_of l
  end.

Definition block_inversions (dag : TransferDAG) (steps : list XmlStep) : res Z :=
  let node_ids := xs_node_id <$> filter (λ step, xs_xml_type step ≠ NOP) steps in
  nodes ← mapR (λ id, node ← of_option (dict_get id (dag_nodes dag)) (KeyError id); Ok (id, node))
            node_ids;
  let expected := (sorted_by (λ item, _node_priority item.2 (Finite 0)) nodes).*1 in
  let position := dict_of_list (zip expected (seq 0 (length expected))) in
  inverted ← mapR (λ '(before, after),
      i ← of_option (dict_get before position) (KeyError before);
      j ← of_option (dict_get after position) (KeyError after);
      Ok (if (j <? i)%nat then 1 else 0)) (pairs_of node_ids);
  Ok (zsum inverted).

Definition _inversion_count (threadblocks : BlockSteps) (dag : TransferDAG) : res Z :=
  counts ← mapR (block_inversions dag) threadblocks.*2;
  Ok (zsum counts).

(** ** The graph of steps *)

Definition step_edge (predecessors : Predecessors) (after before : string) : Predecessors :=
  <[after := {[before]} ∪ default ∅ (predecessors !! after)]> predecessors.

Definition step_predecessors (program : ThreadblockProgram) : Predecessors :=
  let p := list_to_map ((λ id, (id, ∅)) <$> (tp_steps_by_id program).*1) in
  let p := foldl (λ p tb,
      foldl (λ p '(before, after), step_edge p (xs_step_id after) (xs_step_id before)) p
        (zip (tb_steps tb) (tail (tb_steps tb)))) p (tp_threadblocks program) in
  foldl (λ p step,
      match xs_dependency_step_id step with
      | Some d => step_edge p (xs_step_id step) d
      | None => p
      end) p (tp_steps_by_id program).*2.

Fixpoint verify_loop (fuel : nat) (predecessors : Predecessors) (completed remaining : gset string)
    : res unit :=
  match fuel with
  | O => Err OutOfFuel
  | S fuel =>
      if decide (remaining = ∅) then Ok tt
      else
        let ready : gset string := list_to_set (ready_ids predecessors completed remaining) in
        if decide (ready = ∅)
        then Err (SemanticError "threadblock lowering introduces a dependency cycle")
        else verify_loop fuel predecessors (completed ∪ ready) (remaining ∖ ready)
  end.

Definition _verify_step_graph (program : ThreadblockProgram) : res unit :=
  let predecessors := step_predecessors program in
  verify_loop (S (size (dom predecessors))) predecessors ∅ (dom predecessors).

(** ** Scheduling *)

(** The mutable locals of [schedule_threadblocks]. *)
Record Lowering : Type := MkLowering {
  lo_steps : BlockSteps;
  lo_node_rank_steps : gmap string (gmap Z string);
  lo_node_steps : list (string * list string);
  lo_nop_index : Z;
}.

Notation Assignments := (list (string * list (string * string))).

Section schedule.
Context (program : EndpointProgram) (dag : TransferDAG).

Definition endpoint_by_id : list (string * EndpointAtom) :=
  dict_of_list ((λ endpoint, (ep_endpoint_id endpoint, endpoint)) <$> epp_endpoints program).

(** [node_rank_steps[predecessor].get(rank)] *)
Definition rank_step (self : Lowering) (predecessor : string) (rank : Z) : option string :=
  default ∅ (lo_node_rank_steps self !! predecessor) !! rank.

Definition predecessors_of (id : string) : res (list string) :=
  values ← of_option (dag_predecessors dag !! id) (KeyError id); Ok (elements values).

(** [assignments[id].append(dependency)] *)
Definition assign (id : string) (dependency : string * string) (assignments : Assignments)
    : Assignments :=
  dict_set id (default [] (dict_get id assignments) ++ [dependency]) assignments.

Definition local_assignment (self : Lowering) (endpoint : EndpointAtom) (assignments : Assignments)
    (predecessor : string) : res Assignments :=
  match rank_step self predecessor (ep_rank endpoint) with
  | None => Err (SemanticError "local dependency has no same-rank step")
  | Some step_id => Ok (assign (ep_endpoint_id endpoint) (predecessor, step_id) assignments)
  end.

Definition pair_assignment (self : Lowering) (node_id : string) (send recv : EndpointAtom)
    (assignments : Assignments) (predecessor : string) : res Assignments :=
  reasons ← of_option (dag_edge_reasons dag !! (predecessor, node_id)) (KeyError predecessor);
  match rank_step self predecessor (ep_rank send), rank_step self predecessor (ep_rank recv) with
  | Some send_step, _ =>
      Ok (assign (ep_endpoint_id send) (predecessor, send_step) assignments)
  | None, recv_step =>
      let buffered := negb (bool_decide
        (reasons ∩ {["buffer_state"; "buffer_init"; "buffer_antidependency"]} = (∅ : gset string))) in
      match recv_step, buffered with
      | Some recv_step, true =>
          Ok (assign (ep_endpoint_id recv) (predecessor, recv_step) assignments)
      | _, _ =>
          raise_when (negb (bool_decide (reasons ∖ {["schedule"]} = (∅ : gset string))))
            (SemanticError "semantic dependency cannot be represented on one rank");;
          Ok assignments
      end
  end.

Definition predecessor_assignments (self : Lowering) (node_id : string)
    (endpoints : list EndpointAtom) : res Assignments :=
  let assignments := dict_of_list ((λ endpoint, (ep_endpoint_id endpoint, [])) <$> endpoints) in
  match endpoints with
  | [endpoint] =>
      predecessors ← predecessors_of node_id;
      foldM (local_assignment self endpoint) assignments predecessors
  | _ =>
      send ← of_option (find_endpoint (λ t, bool_decide (t = SEND)) endpoints)
        (ValueError "StopIteration");
      recv ← of_option
        (head (filter (λ e, ep_endpoint_id e ≠ ep_endpoint_id send) endpoints))
        (ValueError "StopIteration");
      predecessors ← predecessors_of node_id;
      foldM (pair_assignment self node_id send recv) assignments predecessors
  end.

(** The dependencies that the threadblock has not yet executed: a dictionary
    from steps to the nodes they belong to. *)
Definition unique_dependencies (existing : gset string) (dependencies : list (string * string))
    : list (string * string) :=
  foldl (λ unique '(predecessor, step_id),
      if decide (step_id ∈ existing) then unique else dict_set step_id predecessor unique)
    [] dependencies.

Definition dependency_key (lengths : Lengths) (item : string * string)
    : res (pyfloat * pyfloat * string * string) :=
  node ← of_option (dict_get item.2 (dag_nodes dag)) (KeyError item.2);
  length ← of_option (dict_get item.2 lengths) (KeyError item.2);
  Ok (float_neg (nd_effective_ed_time node), float_neg length, item.2, item.1).

Definition nop_step (endpoint : EndpointAtom) (node : TransferNode) (nop_index : Z)
    (step_id predecessor : string) : res XmlStep :=
  XmlStep_init (MkXmlStep
    ("nop:" +:+ nd_node_id node +:+ ":" +:+ str_of_int_08d nop_index)
    (nd_node_id node) (nd_node_id node) None NOP (ep_rank endpoint) (ep_peer endpoint)
    (ep_channel endpoint) None None (Some step_id) false [predecessor]
    (nd_member_slice_ids node) (nd_st_time node) (nd_ed_time node)
    (nd_effective_st_time node) (nd_effective_ed_time node)).

Definition endpoint_step (endpoint : EndpointAtom) (node : TransferNode)
    (dependency : option string) (predecessors : list string) : res XmlStep :=
  XmlStep_init (MkXmlStep (ep_endpoint_id endpoint) (nd_node_id node) (ep_transfer_id endpoint)
    (Some (ep_endpoint_id endpoint)) (ep_xml_type endpoint) (ep_rank endpoint) (ep_peer endpoint)
    (ep_channel endpoint) (ep_src_ref endpoint) (ep_dst_ref endpoint) dependency false predecessors
    (nd_member_slice_ids node) (nd_st_time node) (nd_ed_time node)
    (nd_effective_st_time node) (nd_effective_ed_time node)).

(** [threadblock_steps[key].append(step)] *)
Definition append_step (key : ThreadblockKey) (self : Lowering) (step : XmlStep) : Lowering :=
  MkLowering
    (dict_set key (default [] (dict_get key (lo_steps self)) ++ [step]) (lo_steps self))
    (lo_node_rank_steps self) (lo_node_steps self) (lo_nop_index self).

Definition append_nop (key : ThreadblockKey) (endpoint : EndpointAtom) (node : TransferNode)
    (self : Lowering) (item : string * string) : res Lowering :=
  nop ← nop_step endpoint node (lo_nop_index self) item.1 item.2;
  let self := append_step key self nop in
  Ok (MkLowering (lo_steps self) (lo_node_rank_steps self) (lo_node_steps self)
        (lo_nop_index self + 1)).

Definition append_endpoint (lengths : Lengths) (self : Lowering) (endpoint : EndpointAtom)
    (node : TransferNode) (dependencies : list (string * string)) : res (Lowering * string) :=
  key ← _threadblock_key endpoint;
  let existing : gset string :=
    list_to_set (xs_step_id <$> default [] (dict_get key (lo_steps self))) in
  keyed ← mapR (λ item, k ← dependency_key lengths item; Ok (k, item))
            (unique_dependencies existing dependencies);
  let ordered := (sorted_by fst keyed).*2 in
  self ← foldM (append_nop key endpoint node) self (tail ordered);
  predecessors ← predecessors_of (nd_node_id node);
  step ← endpoint_step endpoint node (fst <$> head ordered) (sorted_by id predecessors);
  Ok (append_step key self step, xs_step_id step).

(** One endpoint of the selected node. *)
Definition schedule_endpoint (lengths : Lengths) (node : TransferNode) (assignments : Assignments)
    (st : Lowering * list string) (endpoint : EndpointAtom) : res (Lowering * list string) :=
  let '(self, actual_step_ids) := st in
  dependencies ← of_option (dict_get (ep_endpoint_id endpoint) assignments)
    (KeyError (ep_endpoint_id endpoint));
  '(self, step_id) ← append_endpoint lengths self endpoint node dependencies;
  let rank_steps := default ∅ (lo_node_rank_steps self !! nd_node_id node) in
  Ok (MkLowering (lo_steps self)
        (<[nd_node_id node := <[ep_rank endpoint := step_id]> rank_steps]>
           (lo_node_rank_steps self))
        (lo_node_steps self) (lo_nop_index self), actual_step_ids ++ [step_id]).

Definition schedule_node (lengths : Lengths) (self : Lowering) (node : TransferNode)
    : res Lowering :=
  endpoints ← mapR (λ id, of_option (dict_get id endpoint_by_id) (KeyError id))
                (nd_endpoint_ids node);
  assignments ← predecessor_assignments self (nd_node_id node) endpoints;
  '(self, actual_step_ids) ←
    foldM (schedule_endpoint lengths node assignments) (self, []) endpoints;
  Ok (MkLowering (lo_steps self) (lo_node_rank_steps self)
        (dict_set (nd_node_id node) actual_step_ids (lo_node_steps self)) (lo_nop_index self)).

(** The dependency-ready nodes, with the lengths of their critical paths. *)
Definition ready_nodes (lengths : Lengths) (completed remaining : gset string)
    : res (list (TransferNode * pyfloat)) :=
  ids ← mapR (λ id,
      predecessors ← of_option (dag_predecessors dag !! id) (KeyError id);
      Ok (id, bool_decide (predecessors ⊆ completed))) (elements remaining);
  nodes ← mapR (λ id, of_option (dict_get id (dag_nodes dag)) (KeyError id))
            (filter (λ item, Is_true item.2) ids).*1;
  raise_when (bool_decide (nodes = [])) (SemanticError "no dependency-ready TransferNode is available");;
  mapR (λ node, length ← of_option (dict_get (nd_node_id node) lengths) (KeyError (nd_node_id node));
                Ok (node, length)) nodes.

Fixpoint schedule_loop (fuel : nat) (lengths : Lengths) (completed remaining : gset string)
    (self : Lowering) : res Lowering :=
  match fuel with
  | O => Err OutOfFuel
  | S fuel =>
      if decide (remaining = ∅) then Ok self
      else
        ready ← ready_nodes lengths completed remaining;
        selected ← of_option (min_by (λ item, _node_priority item.1 item.2) ready)
          (ValueError "min() arg is an empty sequence");
        self ← schedule_node lengths self selected.1;
        let id := nd_node_id selected.1 in
        raise_when (negb (bool_decide (id ∈ remaining))) (KeyError id);;
        schedule_loop fuel lengths ({[id]} ∪ completed) (remaining ∖ {[id]}) self
  end.

Definition referenced_steps (threadblock_steps : BlockSteps) : gset string :=
  list_to_set (omap xs_dependency_step_id (concat threadblock_steps.*2)).

(** [replace(step, has_dependence=...)] *)
Definition flag_step (referenced : gset string) (step : XmlStep) : res XmlStep :=
  XmlStep_init (MkXmlStep (xs_step_id step) (xs_node_id step) (xs_transfer_id step)
    (xs_endpoint_id step) (xs_xml_type step) (xs_rank step) (xs_peer step) (xs_channel step)
    (xs_src_ref step) (xs_dst_ref step) (xs_dependency_step_id step)
    (bool_decide (xs_step_id step ∈ referenced))
    (xs_semantic_predecessor_node_ids step) (xs_member_slice_ids step)
    (xs_solver_st_time step) (xs_solver_ed_time step)
    (xs_effective_st_time step) (xs_effective_ed_time step)).

Definition direction_order (direction : string) : res Z :=
  of_option (dict_get direction [("copy"%string, 0); ("recv"%string, 1); ("send"%string, 2)])
    (KeyError direction).

Definition block_key (item : ThreadblockKey * list XmlStep)
    : res ((Z * Z * Z * Z) * (ThreadblockKey * list XmlStep)) :=
  let key := item.1 in
  order ← direction_order (tk_direction key);
  Ok ((tk_rank key, order, tk_peer key, tk_channel key), item).

(** [Threadblock(key, next_id[key.rank], steps); next_id[key.rank] += 1] *)
Definition number_block (st : gmap Z Z * list Threadblock)
    (item : ThreadblockKey * list XmlStep) : res (gmap Z Z * list Threadblock) :=
  let '(next_id, threadblocks) := st in
  let rank := tk_rank item.1 in
  let tb_id := default 0 (next_id !! rank) in
  threadblock ← Threadblock_init item.1 tb_id item.2;
  Ok (<[rank := tb_id + 1]> next_id, threadblocks ++ [threadblock]).

Definition check_endpoints : res unit :=
  raise_when (existsb (λ id, negb (present (dict_get id endpoint_by_id)))
      (concat (nd_endpoint_ids <$> (dag_nodes dag).*2)))
    (SemanticError "DAG endpoint is missing from the endpoint program").

Definition flag_blocks (referenced : gset string) (threadblock_steps : BlockSteps)
    : res BlockSteps :=
  mapR (λ item, steps ← mapR (flag_step referenced) item.2; Ok (item.1, steps)) threadblock_steps.

(** [sorted(threadblock_steps, key=...)] *)
Definition ordered_blocks (threadblock_steps : BlockSteps) : res BlockSteps :=
  keyed ← mapR block_key threadblock_steps;
  Ok (sorted_by fst keyed).*2.

Definition number_blocks (threadblock_steps : BlockSteps) : res (list Threadblock) :=
  '(_, threadblocks) ← foldM number_block (∅, []) threadblock_steps; Ok threadblocks.

Definition steps_table (threadblocks : list Threadblock) : gmap string XmlStep :=
  list_to_map (dict_of_list
    ((λ step, (xs_step_id step, step)) <$> program_steps threadblocks)).

Definition transfer_step_ids : list (string * list string) :=
  (λ item : string * list EndpointAtom, (item.1, ep_endpoint_id <$> item.2)) <$>
    epp_by_transfer_id program.

Definition schedule_threadblocks : res ThreadblockProgram :=
  check_endpoints;;
  lengths ← _critical_paths dag;
  final ← schedule_loop (S (length (dag_nodes dag))) lengths ∅ (list_to_set (dag_nodes dag).*1)
            (MkLowering [] ∅ [] 0);
  let referenced := referenced_steps (lo_steps final) in
  flagged ← flag_blocks referenced (lo_steps final);
  ordered ← ordered_blocks flagged;
  threadblocks ← number_blocks ordered;
  inversions ← _inversion_count flagged dag;
  lowered ← ThreadblockProgram_init threadblocks (steps_table threadblocks) transfer_step_ids
              (lo_node_steps final) referenced inversions;
  _verify_step_graph lowered;;
  Ok lowered.
End schedule.
