(* ===== verification/Compatibility.v ===== *)
(** * Threadblock numbering ([vericcl/xml/compatibility.py])

    The runtime only lets low-numbered threadblocks be waited for, so those
    that others depend on come first on their rank. *)

From S2P Require Import Prelude.
From S2P Require Import Python.
From S2P Require Import XmlModel.
From S2P Require Import Endpoints.
From S2P Require Import Threadblocks.
From S2P Require Import ListScheduler.
Local Open Scope Z_scope.

#[export] Instance Threadblock_eq_dec : EqDecision Threadblock.
Proof. solve_decision. Defined.

(** [any(step.step_id in program.referenced_step_ids for step in tb.steps)] *)
Definition is_dependent (referenced : gset string) (tb : Threadblock) : bool :=
  existsb (λ step, bool_decide (xs_step_id step ∈ referenced)) (tb_steps tb).

(** The threadblocks of a rank, those that others wait for first. *)
Definition rank_order (program : ThreadblockProgram) (rank : Z) : list Threadblock :=
  let blocks := sorted_by tb_tb_id
                  (filter (λ tb, tk_rank (tb_key tb) = rank) (tp_threadblocks program)) in
  let dependent :=
    filter (λ tb, Is_true (is_dependent (tp_referenced_step_ids program) tb)) blocks in
  let independent := filter (λ tb, tb ∉ dependent) blocks in
  dependent ++ independent.

(** [replace(threadblock, tb_id=tb_id)] for [tb_id, threadblock] enumerated. *)
Definition renumber_rank (blocks : list Threadblock) : res (list Threadblock) :=
  mapR (λ '(tb_id, tb), Threadblock_init (tb_key tb) (Z.of_nat tb_id) (tb_steps tb))
    (zip (seq 0 (length blocks)) blocks).

Definition renumber_dependent_threadblocks (program : ThreadblockProgram)
    : res ThreadblockProgram :=
  let ranks := sorted_by id (elements
    (list_to_set ((λ tb, tk_rank (tb_key tb)) <$> tp_threadblocks program) : gset Z)) in
  ordered ← mapR (λ rank, renumber_rank (rank_order program rank)) ranks;
  ThreadblockProgram_init (concat ordered) (list_to_map (tp_steps_by_id program))
    (tp_transfer_steps program) (tp_node_steps program) (tp_referenced_step_ids program)
    (tp_inversion_count program).

(** ** Laws *)

Lemma elem_of_rank_order program rank tb :
  tb ∈ rank_order program rank ↔ tb ∈ tp_threadblocks program ∧ tk_rank (tb_key tb) = rank.
Proof.
  unfold rank_order. rewrite elem_of_app, !list_elem_of_filter, elem_of_sorted_by,
    list_elem_of_filter.
  destruct (is_dependent (tp_referenced_step_ids program) tb) eqn:E; naive_solver.
Qed.

Lemma renumber_rank_Ok blocks blocks' :
  renumber_rank blocks = Ok blocks' →
  Forall2 (λ tb tb', tb_key tb' = tb_key tb ∧ tb_steps tb' = tb_steps tb) blocks blocks'.
Proof.
  unfold renumber_rank. generalize 0%nat. revert blocks'.
  induction blocks as [|tb blocks IH]; intros blocks' n H; simpl in H; [by injection H as <-|].
  apply bind_Ok in H as (tb' & Htb & H). apply bind_Ok in H as (rest & Hr & [= <-]).
  apply Threadblock_init_Ok in Htb as [-> _]. constructor; [done|]. by eapply IH.
Qed.

(** The blocks keep their keys and steps. *)
Lemma renumber_Ok program program' :
  renumber_dependent_threadblocks program = Ok program' →
  program_wf program' ∧ tp_transfer_steps program' = tp_transfer_steps program ∧
  (∀ tb', tb' ∈ tp_threadblocks program' → ∃ tb, tb ∈ tp_threadblocks program ∧
    tb_key tb' = tb_key tb ∧ tb_steps tb' = tb_steps tb) ∧
  (∀ tb, tb ∈ tp_threadblocks program → ∃ tb', tb' ∈ tp_threadblocks program' ∧
    tb_key tb' = tb_key tb ∧ tb_steps tb' = tb_steps tb).
Proof.
  unfold renumber_dependent_threadblocks. cbv zeta. intros H.
  apply bind_Ok in H as (ordered & Ho & H). apply mapR_Ok in Ho.
  apply ThreadblockProgram_init_Ok in H as (Hwf & Htb & Hts). split; [done|]. split; [done|].
  rewrite Htb. setoid_rewrite elem_of_concat. split.
  - intros tb' (blocks & Hb & Hin). destruct (Forall2_elem_r _ _ _ _ Ho Hb) as (rank & _ & E).
    apply renumber_rank_Ok in E. destruct (Forall2_elem_r _ _ _ _ E Hin) as (tb & Hin' & ? & ?).
    apply elem_of_rank_order in Hin' as [? _]. by exists tb.
  - intros tb Hin.
    assert (Hrank : tk_rank (tb_key tb) ∈ sorted_by id (elements (list_to_set
      ((λ tb, tk_rank (tb_key tb)) <$> tp_threadblocks program) : gset Z))).
    { rewrite elem_of_sorted_by, elem_of_elements, elem_of_list_to_set.
      by apply (list_elem_of_fmap_2 (λ tb, tk_rank (tb_key tb))). }
    destruct (Forall2_elem_l _ _ _ _ Ho Hrank) as (blocks & Hb & E). apply renumber_rank_Ok in E.
    assert (Hin' : tb ∈ rank_order program (tk_rank (tb_key tb)))
      by (by apply elem_of_rank_order).
    destruct (Forall2_elem_l _ _ _ _ E Hin') as (tb' & ? & ? & ?). exists tb'. eauto.
Qed.
