(* ===== verification/ListSchedulerLaws.v ===== *)
(** * Laws of threadblock scheduling

    The scheduler visits the nodes in an order that respects the graph; every
    threadblock lists its steps in that order, and the dependency of a step
    belongs to an earlier node. *)

From S2P Require Import Prelude.
From S2P Require Import Python.
From S2P Require Import XmlModel.
From S2P Require Import Endpoints.
From S2P Require Import Threadblocks.
From S2P Require Import Floats.
From S2P Require Import Dependencies.
From S2P Require Import DependencyLaws.
From S2P Require Import ListScheduler.
Local Open Scope Z_scope.

(** ** Orders *)

Lemma precedes_app o x p c : precedes o p c → precedes (o ++ [x]) p c.
Proof.
  intros (i & j & Hi & Hj & Hlt). exists i, j.
  rewrite !lookup_app_l by (by eapply lookup_lt_Some). done.
Qed.

Lemma precedes_last o x p : p ∈ o → precedes (o ++ [x]) p x.
Proof.
  intros [i Hi]%list_elem_of_lookup. pose proof (lookup_lt_Some _ _ _ Hi).
  exists i, (length o). rewrite lookup_app_l by done. split_and!; [done| |done].
  by rewrite lookup_app_r, Nat.sub_diag.
Qed.

(** Equal or earlier. *)
Definition before (o : list string) (p c : string) : Prop := p = c ∨ precedes o p c.

(** ** Threadblocks under construction *)

Definition block (self : Lowering) (key : ThreadblockKey) : list XmlStep :=
  default [] (dict_get key (lo_steps self)).

Lemma block_append key self step key' :
  block (append_step key self step) key' =
  if decide (key = key') then block self key ++ [step] else block self key'.
Proof.
  unfold block, append_step; simpl. rewrite dict_get_set. repeat case_decide; by subst.
Qed.

(** [self'] has the steps of [self] and maybe more behind them. *)
Definition has_more (self self' : Lowering) : Prop :=
  ∀ key, block self key `prefix_of` block self' key.

#[export] Instance has_more_preorder : PreOrder has_more.
Proof. split; [by intros ? ?|]. intros a b c H1 H2 key. by transitivity (block b key). Qed.

Lemma has_more_elem self self' key step :
  has_more self self' → step ∈ block self key → step ∈ block self' key.
Proof. intros Hm. destruct (Hm key) as [l ->]. rewrite elem_of_app. by left. Qed.

Lemma append_has_more key self step : has_more self (append_step key self step).
Proof.
  intros key'. rewrite block_append. case_decide; [subst; by apply prefix_app_r|reflexivity].
Qed.

(** A step of the node [node] is called [id]. *)
Definition has_step (self : Lowering) (id node : string) : Prop :=
  ∃ key step, step ∈ block self key ∧ xs_step_id step = id ∧ xs_node_id step = node.

Lemma has_step_more self self' id node :
  has_more self self' → has_step self id node → has_step self' id node.
Proof.
  intros Hm (key & step & Hin & ? & ?). exists key, step. by apply (has_more_elem _ self') in Hin.
Qed.

(** Before [step] there is, in its threadblock, either the step [id] or one
    that depends on it; or [step] itself depends on it. *)
Definition waits (self : Lowering) (step : XmlStep) (id : string) : Prop :=
  ∃ key i j st, (i ≤ j)%nat ∧ block self key !! i = Some st ∧ block self key !! j = Some step ∧
    (((i < j)%nat ∧ xs_step_id st = id) ∨ xs_dependency_step_id st = Some id).

Lemma waits_more self self' step id : has_more self self' → waits self step id → waits self' step id.
Proof.
  intros Hm (key & i & j & st & ? & ? & ? & ?). exists key, i, j, st.
  split_and!; try done; by eapply prefix_lookup_Some.
Qed.

Lemma waits_append_earlier key self step st id :
  st ∈ block self key → xs_step_id st = id ∨ xs_dependency_step_id st = Some id →
  waits (append_step key self step) step id.
Proof.
  intros [i Hi]%list_elem_of_lookup Hor. pose proof (lookup_lt_Some _ _ _ Hi).
  exists key, i, (length (block self key)), st. rewrite block_append, decide_True by done.
  rewrite lookup_app_l, list_lookup_middle by done.
  split_and!; [lia|done|done|]. destruct Hor; [left|right]; auto.
Qed.

Lemma waits_append_self key self step id :
  xs_dependency_step_id step = Some id → waits (append_step key self step) step id.
Proof.
  intros Hd. exists key, (length (block self key)), (length (block self key)), step.
  rewrite block_append, decide_True, list_lookup_middle by done. split_and!; auto.
Qed.

Section laws.
Context (program : EndpointProgram) (dag : TransferDAG).

(** What a step takes over from its endpoint unchanged. *)
Definition step_payload (step : XmlStep) : string * option PhysicalRef * option PhysicalRef :=
  (xs_transfer_id step, xs_src_ref step, xs_dst_ref step).
Definition endpoint_payload (e : EndpointAtom)
    : string * option PhysicalRef * option PhysicalRef :=
  (ep_transfer_id e, ep_src_ref e, ep_dst_ref e).

(** [step] executes the endpoint [e]. *)
Definition executes (step : XmlStep) (e : EndpointAtom) : Prop :=
  xs_step_id step = ep_endpoint_id e ∧ xs_xml_type step = ep_xml_type e ∧
  xs_rank step = ep_rank e ∧ step_payload step = endpoint_payload e.

(** What [ThreadblockKey_init] guarantees. *)
Definition key_wf (key : ThreadblockKey) : Prop :=
  0 ≤ tk_rank key ∧ (tk_direction key ≠ "copy"%string → 0 ≤ tk_channel key).

Lemma threadblock_key_wf e key : _threadblock_key e = Ok key → key_wf key.
Proof.
  intros H. assert (Hk : ∃ r d q c, ThreadblockKey_init r d q c = Ok key).
  { unfold _threadblock_key in H. repeat case_match; eauto. }
  destruct Hk as (r & d & q & c & Hk). unfold ThreadblockKey_init in Hk. inv_res. bool_prop.
  subst key. unfold key_wf; simpl. split; [lia|]. intros Hd.
  match goal with H : (if decide _ then _ else _) = Ok _ |- _ =>
    rewrite decide_False in H by done; rename H into Hc end.
  inv_res. bool_prop. lia.
Qed.

Definition node_endpoint (id : string) (e : EndpointAtom) : Prop :=
  e ∈ epp_endpoints program ∧
  ∃ n, dict_get id (dag_nodes dag) = Some n ∧ ep_endpoint_id e ∈ nd_endpoint_ids n.

(** The step [id] executes an endpoint of [node] on [rank]. *)
Definition has_rank_step (self : Lowering) (id node : string) (rank : Z) : Prop :=
  ∃ key step e, step ∈ block self key ∧ executes step e ∧ node_endpoint node e ∧
    xs_node_id step = node ∧ xs_step_id step = id ∧ xs_rank step = rank.

Lemma has_rank_step_more self self' id node rank :
  has_more self self' → has_rank_step self id node rank → has_rank_step self' id node rank.
Proof.
  intros Hm (key & step & e & Hin & H). exists key, step, e.
  by apply (has_more_elem _ self') in Hin.
Qed.

Lemma has_rank_step_has self id node rank : has_rank_step self id node rank → has_step self id node.
Proof. intros (key & step & e & ? & _ & _ & ? & ? & _). by exists key, step. Qed.

Record step_inv (o : list string) (self : Lowering) (step : XmlStep) : Prop := {
  si_node : xs_node_id step ∈ o;
  si_dependency d : xs_dependency_step_id step = Some d →
    ∃ node, has_step self d node ∧ precedes o node (xs_node_id step);
  si_endpoint : xs_xml_type step = NOP ∨
    ∃ e, node_endpoint (xs_node_id step) e ∧ executes step e;
}.

(** What holds of the mutable locals when the nodes [o] have been visited. *)
Record lowering_inv (o : list string) (self : Lowering) : Prop := {
  li_keys : NoDup (lo_steps self).*1;
  li_valid key : key ∈ (lo_steps self).*1 → key_wf key;
  li_order key i j a b : (i ≤ j)%nat → block self key !! i = Some a →
    block self key !! j = Some b → before o (xs_node_id a) (xs_node_id b);
  li_step key step : step ∈ block self key → step_inv o self step;
  li_rank node rank id : rank_step self node rank = Some id → has_rank_step self id node rank;
}.

Lemma step_inv_more o self self' step :
  has_more self self' → step_inv o self step → step_inv o self' step.
Proof.
  intros Hm [Hn Hd He]. constructor; [done| |done].
  intros d Hs. destruct (Hd d Hs) as (node & ? & ?). exists node. eauto using has_step_more.
Qed.

Lemma step_inv_app o x self step : step_inv o self step → step_inv (o ++ [x]) self step.
Proof.
  intros [Hn Hd He]. constructor; [|intros d Hs|done].
  - apply elem_of_app. by left.
  - destruct (Hd d Hs) as (node & ? & ?). exists node. eauto using precedes_app.
Qed.

Lemma lowering_inv_app o x self : lowering_inv o self → lowering_inv (o ++ [x]) self.
Proof.
  intros [Hk Hv Ho Hs Hr]. constructor; [done|done| | |done].
  - intros key i j a b Hij Ha Hb. destruct (Ho key i j a b Hij Ha Hb) as [|]; [by left|].
    right. by apply precedes_app.
  - intros key step H. apply step_inv_app. by eapply Hs.
Qed.

(** The rest of the state does not matter. *)
Lemma lowering_inv_same o self self' :
  lo_steps self' = lo_steps self →
  (∀ node rank id, rank_step self' node rank = Some id → has_rank_step self id node rank) →
  lowering_inv o self → lowering_inv o self'.
Proof.
  intros E Hr [Hk Hv Ho Hs _]. assert (Eb : ∀ key, block self' key = block self key)
    by (intros; unfold block; by rewrite E).
  assert (Hm : has_more self self') by (intros key; by rewrite Eb).
  constructor.
  - by rewrite E.
  - by rewrite E.
  - intros key i j a b. rewrite Eb. by apply Ho.
  - intros key step. rewrite Eb. intros H. eapply step_inv_more; [exact Hm|]. by eapply Hs.
  - intros node rank id H. eapply has_rank_step_more; [exact Hm|]. by eapply Hr.
Qed.

(** Appending a step of the last node. *)
Lemma append_step_inv o x key self step :
  lowering_inv (o ++ [x]) self → xs_node_id step = x → step_inv (o ++ [x]) self step →
  key_wf key →
  lowering_inv (o ++ [x]) (append_step key self step).
Proof.
  intros [Hk Hv Ho Hs Hr] Hx Hst Hkey. pose proof (append_has_more key self step) as Hm. constructor.
  - simpl. by apply dict_set_NoDup.
  - intros key' ([k l] & -> & [[= -> ->]|Hin]%elem_of_dict_set)%list_elem_of_fmap; [done|].
    by apply Hv, (list_elem_of_fmap_2 fst _ (k, l)).
  - intros key' i j a b Hij. rewrite block_append. case_decide as E; [subst key'|by apply Ho].
    intros Ha Hb. apply lookup_app_Some in Hb as [Hb|[Hge Hb]].
    + apply lookup_app_Some in Ha as [Ha|[Hge _]]; [by eapply (Ho key i j)|].
      apply lookup_lt_Some in Hb. lia.
    + apply list_lookup_singleton_Some in Hb as [_ <-].
      apply lookup_app_Some in Ha as [Ha|[_ Ha]].
      * apply list_elem_of_lookup_2, Hs, si_node in Ha. rewrite Hx.
        apply elem_of_app in Ha as [Ha|Ha%list_elem_of_singleton]; [right|by left].
        by apply precedes_last.
      * apply list_lookup_singleton_Some in Ha as [_ <-]. by left.
  - intros key' step'. rewrite block_append. intros Hin. apply (step_inv_more _ _ _ _ Hm).
    case_decide; [|by eapply Hs]. apply elem_of_app in Hin as [Hin|Hin]; [by eapply Hs|].
    by apply list_elem_of_singleton in Hin as ->.
  - intros node rank id H. eapply has_rank_step_more; [exact Hm|]. by eapply Hr.
Qed.

(** ** One endpoint *)

Lemma XmlStep_init_Ok step step' : XmlStep_init step = Ok step' → step' = step.
Proof. unfold XmlStep_init. intros H. inv_res. done. Qed.

Lemma unique_dependencies_Ok existing dependencies step_id predecessor :
  (step_id, predecessor) ∈ unique_dependencies existing dependencies →
  (predecessor, step_id) ∈ dependencies.
Proof.
  unfold unique_dependencies. induction dependencies as [|[p s] l IH] using rev_ind; simpl.
  { by intros ?%elem_of_nil. }
  rewrite foldl_snoc, elem_of_app, list_elem_of_singleton. case_decide; [by auto|].
  intros [[= -> ->]|Hin]%elem_of_dict_set; [by right|left; auto].
Qed.

(** Every dependency is kept unless the threadblock already runs the step. *)
Lemma unique_dependencies_complete existing dependencies step_id predecessor :
  (predecessor, step_id) ∈ dependencies →
  step_id ∈ existing ∨ ∃ q, (step_id, q) ∈ unique_dependencies existing dependencies.
Proof.
  unfold unique_dependencies. induction dependencies as [|[p s] l IH] using rev_ind; simpl.
  { by intros ?%elem_of_nil. }
  rewrite foldl_snoc, elem_of_app, list_elem_of_singleton.
  intros [Hin|[= -> ->]]; case_decide as Hs; try by auto.
  - destruct (IH Hin) as [|[q Hq]]; [by left|right].
    destruct (decide (step_id = s)) as [->|Hne].
    + exists p. apply dict_get_Some_1. by rewrite dict_get_set, decide_True.
    + apply (list_elem_of_fmap_2 fst) in Hq. simpl in Hq. apply dict_get_is_Some in Hq as [q' Hq].
      exists q'. apply dict_get_Some_1. by rewrite dict_get_set, decide_False.
  - right. exists p. apply dict_get_Some_1. by rewrite dict_get_set, decide_True.
Qed.

(** The dependencies that the scheduler may give to a step of [x]. *)
Definition dependencies_ok (o : list string) (x : string) (self : Lowering)
    (dependencies : list (string * string)) : Prop :=
  ∀ predecessor step_id, (predecessor, step_id) ∈ dependencies →
    has_step self step_id predecessor ∧ precedes o predecessor x.

Lemma append_nop_Ok o x key endpoint node self item self' :
  key_wf key → nd_node_id node = x → lowering_inv (o ++ [x]) self →
  has_step self item.1 item.2 → precedes (o ++ [x]) item.2 x →
  append_nop key endpoint node self item = Ok self' →
  lowering_inv (o ++ [x]) self' ∧ has_more self self' ∧
  lo_node_rank_steps self' = lo_node_rank_steps self ∧
  ∃ st, st ∈ block self' key ∧ xs_dependency_step_id st = Some item.1.
Proof.
  intros Hkey Hx Hinv Hst Hp H. unfold append_nop, nop_step in H.
  apply bind_Ok in H as (nop & Hnop & [= <-]). apply XmlStep_init_Ok in Hnop.
  assert (Hi : lowering_inv (o ++ [x]) (append_step key self nop)).
  { apply append_step_inv; [done|by subst nop| |done]. subst nop. constructor; simpl;
      [|intros d [= <-]|by left].
    - rewrite Hx. apply elem_of_app. right. by left.
    - exists item.2. by rewrite Hx. }
  split; [by apply (lowering_inv_same _ (append_step key self nop)); [|apply Hi|]|].
  split; [exact (append_has_more key self nop)|]. split; [done|]. exists nop.
  split; [|by subst nop]. change (nop ∈ block (append_step key self nop) key).
  rewrite block_append, decide_True by done. apply elem_of_app. right. by left.
Qed.

Lemma append_endpoint_Ok o x lengths self endpoint node dependencies self' id :
  nd_node_id node = x → lowering_inv (o ++ [x]) self → node_endpoint x endpoint →
  dependencies_ok (o ++ [x]) x self dependencies →
  append_endpoint dag lengths self endpoint node dependencies = Ok (self', id) →
  lowering_inv (o ++ [x]) self' ∧ has_more self self' ∧ id = ep_endpoint_id endpoint ∧
  lo_node_rank_steps self' = lo_node_rank_steps self ∧
  ∃ key step, step ∈ block self' key ∧ executes step endpoint ∧ xs_node_id step = x ∧
    ∀ predecessor step_id, (predecessor, step_id) ∈ dependencies → waits self' step step_id.
Proof.
  intros Hx Hinv Hne Hdeps H. unfold append_endpoint in H. cbv zeta in H.
  apply bind_Ok in H as (key & Hkey%threadblock_key_wf & H). apply bind_Ok in H as (keyed & Hkeyed & H).
  apply bind_Ok in H as (self1 & Hnops & H). apply bind_Ok in H as (preds & _ & H).
  apply bind_Ok in H as (step & Hstep & [= <- <-]). unfold endpoint_step in Hstep.
  apply XmlStep_init_Ok in Hstep.
  set (sorted := (sorted_by fst keyed).*2) in *.
  assert (Hok : ∀ item, item ∈ sorted → has_step self item.1 item.2 ∧ precedes (o ++ [x]) item.2 x).
  { intros [s p] ([k item] & -> & Hin)%list_elem_of_fmap. rewrite elem_of_sorted_by in Hin. simpl.
    apply mapR_Ok in Hkeyed. destruct (Forall2_elem_r _ _ _ _ Hkeyed Hin) as (item' & Hin' & E).
    apply bind_Ok in E as (? & _ & [= _ <-]). destruct item' as [s' p'].
    apply unique_dependencies_Ok in Hin'. by apply Hdeps in Hin'. }
  assert (Hloop : lowering_inv (o ++ [x]) self1 ∧ has_more self self1 ∧
    lo_node_rank_steps self1 = lo_node_rank_steps self ∧
    ∀ item, item ∈ tail sorted → ∃ st, st ∈ block self1 key ∧ xs_dependency_step_id st = Some item.1).
  { revert Hnops. apply (foldM_ind (λ don l, lowering_inv (o ++ [x]) l ∧ has_more self l ∧
      lo_node_rank_steps l = lo_node_rank_steps self ∧
      ∀ item, item ∈ don → ∃ st, st ∈ block l key ∧ xs_dependency_step_id st = Some item.1)).
    { split_and!; try done. by intros ? ?%elem_of_nil. }
    intros don item l l' (Hl & Hm & Hr & Hd) Hin E.
    destruct (Hok item) as [S1 S2]; [destruct sorted; [done|by right]|].
    apply (append_nop_Ok o x) in E as (Hi' & Hm' & Hr' & Hst); [|done|done|done| |done].
    - split_and!; [done|by etrans|congruence|].
      intros item' [Hin'|Hin'%list_elem_of_singleton]%elem_of_app; [|by subst].
      destruct (Hd _ Hin') as (st & ? & ?). exists st. split; [|done]. by eapply has_more_elem.
    - by eapply has_step_more. }
  destruct Hloop as (Hi1 & Hm1 & Hr1 & Hnop).
  assert (Hex : executes step endpoint) by (by subst step).
  assert (Hnode : xs_node_id step = x) by (by subst step).
  split_and!.
  - apply append_step_inv; [done|done| |done]. constructor.
    + rewrite Hnode. apply elem_of_app. right. by left.
    + intros d Hd. assert (Hhd : fst <$> head sorted = Some d) by (by subst step).
      destruct sorted as [|item l]; [done|]. injection Hhd as <-.
      destruct (Hok item ltac:(by left)) as [S1 S2]. exists item.2. rewrite Hnode.
      split; [by eapply has_step_more|done].
    + right. exists endpoint. by rewrite Hnode.
  - etrans; [exact Hm1|apply append_has_more].
  - by apply Hex.
  - done.
  - exists key, step. rewrite block_append, decide_True by done.
    split; [apply elem_of_app; right; by left|]. split_and!; [done..|]. intros p s Hps.
    apply (unique_dependencies_complete (list_to_set (xs_step_id <$> block self key)))
      in Hps as [Hex'|[q Hq]].
    + apply elem_of_list_to_set in Hex'. apply list_elem_of_fmap in Hex' as (st & -> & Hst).
      apply (waits_append_earlier _ _ _ st); [by eapply has_more_elem|by left].
    + assert (Hs : (s, q) ∈ sorted).
      { apply mapR_Ok in Hkeyed. destruct (Forall2_elem_l _ _ _ _ Hkeyed Hq) as (ki & Hki & E).
        apply bind_Ok in E as (? & _ & [= <-]). apply list_elem_of_fmap.
        eexists (_, (s, q)). split; [done|]. by rewrite elem_of_sorted_by. }
      destruct sorted as [|item l] eqn:Esorted; [by apply elem_of_nil in Hs|].
      apply elem_of_cons in Hs as [<-|Hs]; [apply waits_append_self; by subst step|].
      destruct (Hnop (s, q) Hs) as (st & Hst & Hd).
      by apply (waits_append_earlier _ _ _ st); [|right].
Qed.

(** ** Dependencies of a node *)

Definition assigned (self : Lowering) (predecessors : list string) (assignments : Assignments)
    : Prop :=
  ∀ id dependencies predecessor step_id, (id, dependencies) ∈ assignments →
    (predecessor, step_id) ∈ dependencies →
    predecessor ∈ predecessors ∧ ∃ rank, rank_step self predecessor rank = Some step_id.

Lemma assign_Ok self predecessors id predecessor step_id rank assignments :
  assigned self predecessors assignments → predecessor ∈ predecessors →
  rank_step self predecessor rank = Some step_id →
  assigned self predecessors (assign id (predecessor, step_id) assignments).
Proof.
  intros Ha Hp Hr i deps p s Hin Hd. unfold assign in Hin.
  apply elem_of_dict_set in Hin as [[= -> ->]|Hin]; [|by eapply Ha].
  apply elem_of_app in Hd as [Hd|Hd%list_elem_of_singleton]; [|simplify_eq; eauto].
  destruct (dict_get id assignments) as [l|] eqn:E; [|by apply elem_of_nil in Hd].
  apply dict_get_Some_1 in E. by eapply Ha.
Qed.

(** [d[id]] contains the dependency. *)
Definition has_assignment (assignments : Assignments) (id : string) (dependency : string * string)
    : Prop := ∃ l, dict_get id assignments = Some l ∧ dependency ∈ l.

Lemma has_assignment_new id d assignments : has_assignment (assign id d assignments) id d.
Proof.
  unfold has_assignment, assign. rewrite dict_get_set, decide_True by done. eexists.
  split; [done|]. apply elem_of_app. right. by left.
Qed.

Lemma has_assignment_old id d id' d' assignments :
  has_assignment assignments id d → has_assignment (assign id' d' assignments) id d.
Proof.
  intros (l & Hl & Hin). unfold has_assignment, assign. rewrite dict_get_set. case_decide; [|eauto].
  subst id'. rewrite Hl. eexists. split; [done|]. apply elem_of_app. by left.
Qed.

(** The only reason of an edge is the order of the schedule. *)
Definition schedule_only (predecessor id : string) : Prop :=
  ∃ reasons, dag_edge_reasons dag !! (predecessor, id) = Some reasons ∧
    reasons ⊆ {["schedule"%string]}.

Definition covered (self : Lowering) (id : string) (endpoints : list EndpointAtom)
    (assignments : Assignments) (predecessor : string) : Prop :=
  (∃ e step_id, e ∈ endpoints ∧ rank_step self predecessor (ep_rank e) = Some step_id ∧
     has_assignment assignments (ep_endpoint_id e) (predecessor, step_id)) ∨
  schedule_only predecessor id.

Lemma covered_assign self id endpoints assignments p id' d :
  covered self id endpoints assignments p →
  covered self id endpoints (assign id' d assignments) p.
Proof.
  intros [(e & s & ? & ? & ?)|?]; [left|by right]. exists e, s. eauto using has_assignment_old.
Qed.

Lemma covered_new self id endpoints assignments p e s :
  e ∈ endpoints → rank_step self p (ep_rank e) = Some s →
  covered self id endpoints (assign (ep_endpoint_id e) (p, s) assignments) p.
Proof. intros. left. exists e, s. eauto using has_assignment_new. Qed.

(** The invariant of the loops over the predecessors. *)
Definition assigning (self : Lowering) (id : string) (endpoints : list EndpointAtom)
    (predecessors don : list string) (assignments : Assignments) : Prop :=
  assigned self predecessors assignments ∧
  ∀ p, p ∈ don → covered self id endpoints assignments p.

Lemma assigning_step self id endpoints predecessors don a p e s :
  assigning self id endpoints predecessors don a → p ∈ predecessors → e ∈ endpoints →
  rank_step self p (ep_rank e) = Some s →
  assigning self id endpoints predecessors (don ++ [p]) (assign (ep_endpoint_id e) (p, s) a).
Proof.
  intros [Ha Hc] Hp He Hr. split; [by eapply assign_Ok|].
  intros q [Hq|Hq%list_elem_of_singleton]%elem_of_app; [by apply covered_assign, Hc|subst q].
  by apply covered_new.
Qed.

Lemma pair_assignment_Ok self id endpoints predecessors don send recv a p a' :
  assigning self id endpoints predecessors don a → p ∈ predecessors →
  send ∈ endpoints → recv ∈ endpoints →
  pair_assignment dag self id send recv a p = Ok a' →
  assigning self id endpoints predecessors (don ++ [p]) a'.
Proof.
  intros Ha Hp Hs Hr E. unfold pair_assignment in E. apply bind_Ok in E as (reasons & Hre & E).
  apply of_option_Ok in Hre. cbv zeta in E.
  assert (Hskip : ∀ b, (raise_when (negb (bool_decide (reasons ∖ {["schedule"%string]} = (∅ : gset string)))) b;;
    Ok a) = Ok a' → assigning self id endpoints predecessors (don ++ [p]) a').
  { intros b H. inv_res. bool_prop. subst a'. destruct Ha as [Ha Hc]. split; [done|].
    intros q [Hq|Hq%list_elem_of_singleton]%elem_of_app; [by apply Hc|subst q].
    right. exists reasons. split; [done|]. by apply empty_difference_subseteq_L. }
  destruct (rank_step self p (ep_rank send)) as [s|] eqn:E1.
  { injection E as <-. by apply assigning_step. }
  destruct (rank_step self p (ep_rank recv)) as [s|] eqn:E2; [|by eapply Hskip].
  destruct (negb _); [|by eapply Hskip]. injection E as <-. by apply assigning_step.
Qed.

Lemma predecessor_assignments_Ok self id endpoints assignments :
  predecessor_assignments dag self id endpoints = Ok assignments →
  ∃ predecessors, predecessors_of dag id = Ok predecessors ∧
    assigning self id endpoints predecessors predecessors assignments.
Proof.
  set (start := dict_of_list ((λ endpoint, (ep_endpoint_id endpoint, [])) <$> endpoints)
    : Assignments).
  assert (Hstart : ∀ preds, assigning self id endpoints preds [] start).
  { intros preds. split; [|by intros ? ?%elem_of_nil]. intros i deps p s Hin Hd.
    apply elem_of_dict_of_list, list_elem_of_fmap in Hin as (e & [= -> ->] & _).
    by apply elem_of_nil in Hd. }
  unfold predecessor_assignments. fold start. cbv zeta.
  assert (Hmany : ∀ p m, (send ← of_option (find_endpoint p endpoints) m;
      recv ← of_option (head (filter (λ e, ep_endpoint_id e ≠ ep_endpoint_id send) endpoints)) m;
      predecessors ← predecessors_of dag id;
      foldM (pair_assignment dag self id send recv) start predecessors) = Ok assignments →
    ∃ predecessors, predecessors_of dag id = Ok predecessors ∧
      assigning self id endpoints predecessors predecessors assignments).
  { intros p m H. apply bind_Ok in H as (send & Hs & H). apply bind_Ok in H as (recv & Hr & H).
    apply of_option_Ok, head_Some_elem_of, list_elem_of_filter in Hs as [_ Hs].
    apply of_option_Ok, head_Some_elem_of, list_elem_of_filter in Hr as [_ Hr].
    apply bind_Ok in H as (preds & Hp & H). exists preds. split; [done|]. revert H.
    apply (foldM_ind (λ don a, assigning self id endpoints preds don a)); [done|].
    intros don q a a' Ha Hq E. by apply (pair_assignment_Ok _ _ _ _ _ send recv a). }
  destruct endpoints as [|e [|e2 l]]; [apply Hmany| |apply Hmany].
  intros H. apply bind_Ok in H as (preds & Hp & H). exists preds. split; [done|]. revert H.
  apply (foldM_ind (λ don a, assigning self id [e] preds don a)); [done|].
  intros don q a a' Ha Hq E. unfold local_assignment in E. case_match; [|done].
  injection E as <-. apply assigning_step; [done|done|by left|done].
Qed.

(** ** One node *)

(** Every endpoint of the node [x] has its step. *)
Definition node_complete (self : Lowering) (x : string) : Prop :=
  ∀ n id, dict_get x (dag_nodes dag) = Some n → id ∈ nd_endpoint_ids n →
    ∃ key step e, e ∈ epp_endpoints program ∧ ep_endpoint_id e = id ∧
      step ∈ block self key ∧ executes step e ∧ xs_node_id step = x.

Lemma node_complete_more self self' x :
  has_more self self' → node_complete self x → node_complete self' x.
Proof.
  intros Hm Hc n id Hn Hid. destruct (Hc n id Hn Hid) as (key & step & e & ? & ? & Hin & ?).
  exists key, step, e. by apply (has_more_elem _ self') in Hin.
Qed.

(** The step of the endpoint [e] waits for all its dependencies. *)
Definition endpoint_scheduled (self : Lowering) (x : string) (assignments : Assignments)
    (e : EndpointAtom) : Prop :=
  ∃ key step, step ∈ block self key ∧ executes step e ∧ xs_node_id step = x ∧
    ∀ d, has_assignment assignments (ep_endpoint_id e) d → waits self step d.2.

Lemma endpoint_scheduled_more self self' x assignments e :
  has_more self self' → endpoint_scheduled self x assignments e →
  endpoint_scheduled self' x assignments e.
Proof.
  intros Hm (key & step & Hin & Hex & Hx & Hw). exists key, step.
  split_and!; [by eapply has_more_elem|done..|]. intros d Hd. eapply waits_more; eauto.
Qed.

Lemma schedule_endpoint_Ok o x lengths node assignments preds self0 self ids e self' ids' :
  dict_get x (dag_nodes dag) = Some node → nd_node_id node = x →
  (∀ p, p ∈ preds → p ∈ o) → assigned self0 preds assignments → lowering_inv o self0 →
  has_more self0 self → lowering_inv (o ++ [x]) self →
  e ∈ epp_endpoints program → ep_endpoint_id e ∈ nd_endpoint_ids node →
  schedule_endpoint dag lengths node assignments (self, ids) e = Ok (self', ids') →
  lowering_inv (o ++ [x]) self' ∧ has_more self self' ∧ endpoint_scheduled self' x assignments e.
Proof.
  intros Hget Hx Hpreds Hass Hinv0 Hm0 Hinv He Hid H. unfold schedule_endpoint in H.
  apply bind_Ok in H as (deps & Hdeps & H). apply of_option_Ok in Hdeps.
  pose proof (dict_get_Some_1 _ _ _ Hdeps) as Hdeps'.
  apply bind_Ok in H as ([self1 id] & H1 & H). cbv zeta in H. injection H as <- <-.
  assert (Hne : node_endpoint x e) by (split; [done|by exists node]).
  apply (append_endpoint_Ok o x) in H1 as (Hi1 & Hm1 & -> & Hr1 & key & step & Hst & Hex & Hnode & Hw);
    [|done|done|done|].
  - assert (Hnew : has_rank_step self1 (ep_endpoint_id e) x (ep_rank e)).
    { exists key, step, e. destruct Hex as (? & ? & ? & ?). done. }
    split; [|split; [exact Hm1|]].
    2:{ exists key, step. split_and!; [done..|]. intros [p s] (l & Hl & Hin).
        assert (l = deps) as -> by congruence. by apply (Hw p s). }
    apply (lowering_inv_same _ self1); [done| |done]. intros n r i Hr.
    unfold rank_step in Hr; simpl in Hr. destruct (decide (n = nd_node_id node)) as [->|Hn].
    + rewrite lookup_insert_eq in Hr. simpl in Hr. rewrite Hx in *.
      destruct (decide (r = ep_rank e)) as [->|Hr0].
      * rewrite lookup_insert_eq in Hr. injection Hr as <-. exact Hnew.
      * rewrite lookup_insert_ne in Hr by done. by apply (li_rank _ _ Hi1 _ r).
    + rewrite lookup_insert_ne in Hr by done. by apply (li_rank _ _ Hi1 _ r).
  - intros p s Hp. destruct (Hass _ _ _ _ Hdeps' Hp) as [Hin [rank Hrank]]. split.
    + eapply has_step_more; [exact Hm0|]. eapply has_rank_step_has. by eapply (li_rank _ _ Hinv0).
    + apply precedes_last. by apply Hpreds.
Qed.

Lemma endpoint_by_id_Ok id e :
  dict_get id (endpoint_by_id program) = Some e → e ∈ epp_endpoints program ∧ ep_endpoint_id e = id.
Proof.
  unfold endpoint_by_id. intros H. apply dict_get_Some_1, elem_of_dict_of_list in H.
  by apply list_elem_of_fmap in H as (e' & [= -> ->] & ?).
Qed.

(** The step of an endpoint of [x] waits for a step of [predecessor] on its
    rank, unless only the schedule orders the two nodes. *)
Definition edge_enforced (self : Lowering) (x predecessor : string) : Prop :=
  (∃ key step e id, step ∈ block self key ∧ executes step e ∧ node_endpoint x e ∧
     xs_node_id step = x ∧ has_rank_step self id predecessor (xs_rank step) ∧
     waits self step id) ∨
  schedule_only predecessor x.

Definition node_enforced (self : Lowering) (x : string) : Prop :=
  ∀ predecessors, predecessors_of dag x = Ok predecessors →
    ∀ p, p ∈ predecessors → edge_enforced self x p.

Lemma node_enforced_more self self' x :
  has_more self self' → node_enforced self x → node_enforced self' x.
Proof.
  intros Hm Hn preds Hp p Hin.
  destruct (Hn preds Hp p Hin) as [(key & step & e & id & H1 & ? & ? & ? & H2 & H3)|?]; [left|by right].
  exists key, step, e, id.
  split_and!; eauto using has_more_elem, has_rank_step_more, waits_more.
Qed.

Lemma schedule_endpoints_Ok o x lengths self node preds endpoints assignments self' ids :
  dict_get x (dag_nodes dag) = Some node → nd_node_id node = x → (∀ p, p ∈ preds → p ∈ o) →
  assigned self preds assignments → lowering_inv o self →
  (∀ e, e ∈ endpoints → e ∈ epp_endpoints program ∧ ep_endpoint_id e ∈ nd_endpoint_ids node) →
  foldM (schedule_endpoint dag lengths node assignments) (self, []) endpoints = Ok (self', ids) →
  lowering_inv (o ++ [x]) self' ∧ has_more self self' ∧
  ∀ e, e ∈ endpoints → endpoint_scheduled self' x assignments e.
Proof.
  intros Hget Hx Hpreds Ha Hinv Hends H.
  apply (foldM_ind (λ don st, lowering_inv (o ++ [x]) st.1 ∧ has_more self st.1 ∧
    ∀ e, e ∈ don → endpoint_scheduled st.1 x assignments e)) in H; [done| |].
  - split; [by apply lowering_inv_app|]. split; [done|]. by intros ? ?%elem_of_nil.
  - intros don e [self2 ids2] [self3 ids3] (Hi & Hm & Hall) Hin E. destruct (Hends _ Hin).
    simpl in *.
    apply (schedule_endpoint_Ok o x _ _ _ preds self) in E as (Hi3 & Hm3 & Hst); [|done..].
    split; [done|]. split; [by etrans|]. intros e' [Hin'|Hin'%list_elem_of_singleton]%elem_of_app.
    + eapply endpoint_scheduled_more; [exact Hm3|]. by apply Hall.
    + by subst.
Qed.

(** Forgets the book-keeping of the node that was just visited. *)
Lemma covered_enforced o self0 self x n endpoints assignments p :
  dict_get x (dag_nodes dag) = Some n →
  lowering_inv o self0 → has_more self0 self →
  (∀ e, e ∈ endpoints → e ∈ epp_endpoints program ∧ ep_endpoint_id e ∈ nd_endpoint_ids n) →
  (∀ e, e ∈ endpoints → endpoint_scheduled self x assignments e) →
  covered self0 x endpoints assignments p → edge_enforced self x p.
Proof.
  intros Hget Hinv Hm Hends Hsched [(e & id & He & Hr & Ha)|?]; [left|by right].
  destruct (Hsched e He) as (key & step & Hin & Hex & Hx & Hw). destruct (Hends e He) as [He' Hid].
  exists key, step, e, id. split; [done|]. split; [done|]. split; [split; [done|by exists n]|].
  split; [done|]. split; [|by apply (Hw (p, id))].
  destruct Hex as (_ & _ & -> & _). eapply has_rank_step_more; [exact Hm|]. by eapply (li_rank _ _ Hinv).
Qed.

Lemma schedule_node_Ok o x lengths self node self' :
  dict_get x (dag_nodes dag) = Some node → nd_node_id node = x →
  (∀ preds, predecessors_of dag x = Ok preds → ∀ p, p ∈ preds → p ∈ o) →
  lowering_inv o self → schedule_node program dag lengths self node = Ok self' →
  lowering_inv (o ++ [x]) self' ∧ has_more self self' ∧ node_complete self' x ∧
  node_enforced self' x.
Proof.
  intros Hget Hx Hpreds Hinv H. unfold schedule_node in H.
  apply bind_Ok in H as (endpoints & He & H). apply bind_Ok in H as (assignments & Ha & H).
  apply bind_Ok in H as ([self1 ids] & H1 & [= <-]).
  rewrite Hx in Ha. apply predecessor_assignments_Ok in Ha as (preds & Hp & Ha & Hcov).
  apply mapR_Ok in He.
  assert (Hends : ∀ e, e ∈ endpoints → e ∈ epp_endpoints program ∧
    ep_endpoint_id e ∈ nd_endpoint_ids node).
  { intros e Hin. destruct (Forall2_elem_r _ _ _ _ He Hin) as (id & Hid & E).
    apply of_option_Ok, endpoint_by_id_Ok in E as [? <-]. done. }
  apply (schedule_endpoints_Ok o x _ _ _ preds) in H1 as (Hi & Hm & Hall);
    [|done|done|by apply (Hpreds preds)|done..].
  assert (Hm' : has_more self1 (MkLowering (lo_steps self1) (lo_node_rank_steps self1)
    (dict_set (nd_node_id node) ids (lo_node_steps self1)) (lo_nop_index self1)))
    by (intros key; reflexivity).
  split; [|split; [|split]].
  - apply (lowering_inv_same _ self1); [done| |done]. intros n r i Hr.
    by apply (li_rank _ _ Hi _ r).
  - by etrans.
  - intros n id Hn Hid. assert (n = node) as -> by congruence.
    destruct (Forall2_elem_l _ _ _ _ He Hid) as (e & Hin & E).
    apply of_option_Ok, endpoint_by_id_Ok in E as [? <-].
    destruct (Hall e Hin) as (key & step & ? & ? & ? & _). by exists key, step, e.
  - eapply node_enforced_more; [exact Hm'|]. intros preds' Hp' p Hin.
    assert (preds' = preds) as -> by congruence.
    eapply covered_enforced; [done|exact Hinv|done..|by apply Hcov].
Qed.

(** ** The loop *)

Section loop.
Context (Hids : ∀ id n, dict_get id (dag_nodes dag) = Some n → nd_node_id n = id).

Lemma ready_nodes_Ok lengths completed remaining ready node length :
  ready_nodes dag lengths completed remaining = Ok ready → (node, length) ∈ ready →
  let x := nd_node_id node in
  dict_get x (dag_nodes dag) = Some node ∧ x ∈ remaining ∧
  ∃ preds, dag_predecessors dag !! x = Some preds ∧ preds ⊆ completed.
Proof.
  intros H Hin. unfold ready_nodes in H. apply bind_Ok in H as (ids & Hi & H).
  apply bind_Ok in H as (nodes & Hn & H). apply bind_Ok in H as ([] & _ & H).
  apply mapR_Ok in Hi, Hn, H.
  destruct (Forall2_elem_r _ _ _ _ H Hin) as (node' & Hnode & E).
  apply bind_Ok in E as (? & _ & [= -> _]).
  destruct (Forall2_elem_r _ _ _ _ Hn Hnode) as (id & Hid & E). apply of_option_Ok in E.
  cbv zeta. rewrite (Hids _ _ E). split; [done|].
  apply list_elem_of_fmap in Hid as ([id' b] & -> & Hid).
  apply list_elem_of_filter in Hid as [Hb Hid].
  destruct (Forall2_elem_r _ _ _ _ Hi Hid) as (id2 & Hid2 & E2).
  apply bind_Ok in E2 as (preds & Hpreds & [= -> <-]). apply of_option_Ok in Hpreds.
  split; [by apply elem_of_elements|]. exists preds. split; [done|].
  simpl in Hb. by apply bool_decide_unpack in Hb.
Qed.

(** The visited nodes, in order. *)
Definition visited (o : list string) (self : Lowering) : Prop :=
  NoDup o ∧ lowering_inv o self ∧ ∀ x, x ∈ o → node_complete self x ∧ node_enforced self x.

Lemma schedule_loop_Ok fuel lengths o remaining self self' :
  visited o self → (∀ x, x ∈ o → x ∉ remaining) →
  schedule_loop program dag fuel lengths (list_to_set o) remaining self = Ok self' →
  ∃ o', visited o' self' ∧ ∀ x, x ∈ o' ↔ x ∈ o ∨ x ∈ remaining.
Proof.
  revert o remaining self. induction fuel as [|fuel IH]; intros o remaining self Hv Hd H; [done|].
  simpl in H. destruct (decide (remaining = ∅)) as [->|_].
  { injection H as <-. exists o. split; [done|]. set_solver. }
  apply bind_Ok in H as (ready & Hready & H). apply bind_Ok in H as ([node length] & Hmin & H).
  apply bind_Ok in H as (self1 & Hnode & H). apply bind_Ok in H as ([] & _ & H). simpl in *.
  apply of_option_Ok, min_by_Some in Hmin as [Hin _].
  destruct (ready_nodes_Ok _ _ _ _ _ _ Hready Hin) as (Hget & Hrem & preds & Hpreds & Hsub).
  destruct Hv as (Hnd & Hinv & Hall).
  apply (schedule_node_Ok o (nd_node_id node)) in Hnode as (Hi & Hm & Hc & Hw); [|done|done| |done].
  2:{ intros l Hl p Hp. unfold predecessors_of in Hl. rewrite Hpreds in Hl. injection Hl as <-.
      apply elem_of_elements, Hsub in Hp. by apply elem_of_list_to_set in Hp. }
  replace ({[nd_node_id node]} ∪ list_to_set o : gset string)
    with (list_to_set (o ++ [nd_node_id node]) : gset string) in H by set_solver.
  apply IH in H as (o' & Hv' & Ho').
  - exists o'. split; [done|]. intros x. rewrite Ho'.
    destruct (decide (x = nd_node_id node)); set_solver.
  - split; [|split; [done|]].
    + apply NoDup_app. split_and!; [done| |apply NoDup_singleton].
      intros x Hx ->%list_elem_of_singleton. by apply (Hd _ Hx).
    + intros x [Hx| ->%list_elem_of_singleton]%elem_of_app; [|done].
      destruct (Hall x Hx). eauto using node_complete_more, node_enforced_more.
  - intros x [Hx| ->%list_elem_of_singleton]%elem_of_app; [|set_solver].
    specialize (Hd _ Hx). set_solver.
Qed.

Lemma schedule_all_Ok fuel lengths self' :
  schedule_loop program dag fuel lengths ∅ (list_to_set (dag_nodes dag).*1) (MkLowering [] ∅ [] 0)
    = Ok self' →
  ∃ o, visited o self' ∧ ∀ x, x ∈ o ↔ x ∈ (dag_nodes dag).*1.
Proof.
  intros H. apply (schedule_loop_Ok _ _ []) in H as (o & Hv & Ho).
  - exists o. split; [done|]. intros x. rewrite Ho, elem_of_nil, elem_of_list_to_set. naive_solver.
  - split; [constructor|]. split; [|by intros ? ?%elem_of_nil]. constructor; simpl.
    + constructor.
    + by intros ? ?%elem_of_nil.
    + done.
    + by intros ? ? ?%elem_of_nil.
    + intros n r i Hr. unfold rank_step in Hr; simpl in Hr. by rewrite !lookup_empty in Hr.
  - by intros ? ?%elem_of_nil.
Qed.
End loop.
End laws.
