(* ===== verification/SchedulerSound.v ===== *)
(** * Scheduled programs do not deadlock

    The order in which the scheduler visits the nodes numbers the steps of the
    program it returns ([DeadlockFree.ordered]). *)

From stdpp Require Import relations.
From S2P Require Import Prelude.
From S2P Require Import Python.
From S2P Require Import XmlModel.
From S2P Require Import Endpoints.
From S2P Require Import Threadblocks.
From S2P Require Import Deadlock.
From S2P Require Import DeadlockSound.
From S2P Require Import DeadlockFree.

From S2P Require Import Dependencies.
From S2P Require Import DependencyLaws.
From S2P Require Import ListScheduler.
From S2P Require Import ListSchedulerLaws.
Local Open Scope Z_scope.

(** ** Positions *)

Definition index_of (o : list string) (x : string) : nat :=
  default 0%nat (fst <$> list_find (x =.) o).

Lemma index_of_lookup o i x : NoDup o → o !! i = Some x → index_of o x = i.
Proof.
  intros Hnd Hi. unfold index_of. destruct (list_find (x =.) o) as [[j y]|] eqn:E; simpl.
  - apply list_find_Some in E as (Hj & <- & _). by eapply NoDup_lookup.
  - apply list_find_None in E. rewrite Forall_forall in E.
    by destruct (E x (list_elem_of_lookup_2 _ _ _ Hi)).
Qed.

Lemma index_of_precedes o p c : NoDup o → precedes o p c → (index_of o p < index_of o c)%nat.
Proof.
  intros Hnd (i & j & Hi & Hj & Hlt).
  by rewrite (index_of_lookup _ _ _ Hnd Hi), (index_of_lookup _ _ _ Hnd Hj).
Qed.

Lemma index_of_inj o x y : NoDup o → x ∈ o → y ∈ o → index_of o x = index_of o y → x = y.
Proof.
  intros Hnd [i Hi]%list_elem_of_lookup [j Hj]%list_elem_of_lookup.
  rewrite (index_of_lookup _ _ _ Hnd Hi), (index_of_lookup _ _ _ Hnd Hj). congruence.
Qed.

(** ** From the scheduler's blocks to threadblocks *)

(** [b] is [a] with another completion flag. *)
Definition same_step (a b : XmlStep) : Prop :=
  xs_step_id b = xs_step_id a ∧ xs_node_id b = xs_node_id a ∧ xs_xml_type b = xs_xml_type a ∧
  xs_rank b = xs_rank a ∧ xs_dependency_step_id b = xs_dependency_step_id a ∧
  step_payload b = step_payload a.

Lemma flag_step_Ok refs a b : flag_step refs a = Ok b → same_step a b.
Proof. unfold flag_step. intros H. by apply XmlStep_init_Ok in H as ->. Qed.

Definition same_block (item : ThreadblockKey * list XmlStep) (tb : Threadblock) : Prop :=
  tb_key tb = item.1 ∧ Forall2 same_step item.2 (tb_steps tb) ∧
  ∀ step, step ∈ tb_steps tb → xs_rank step = tk_rank (tb_key tb).

Lemma flag_blocks_Ok refs blocks flagged :
  flag_blocks refs blocks = Ok flagged →
  Forall2 (λ a b, b.1 = a.1 ∧ Forall2 same_step a.2 b.2) blocks flagged.
Proof.
  unfold flag_blocks. intros H. apply mapR_Ok in H. eapply Forall2_impl; [exact H|].
  intros [k a] [k' b] E. apply bind_Ok in E as (steps & Hs & [= <- <-]). split; [done|].
  apply mapR_Ok in Hs. eapply Forall2_impl; [exact Hs|]. intros ? ? E. by apply flag_step_Ok in E.
Qed.

Lemma ordered_blocks_Ok blocks ordered : ordered_blocks blocks = Ok ordered → ordered ≡ₚ blocks.
Proof.
  unfold ordered_blocks. intros H. apply bind_Ok in H as (keyed & Hk & [= <-]).
  rewrite sorted_by_perm. apply mapR_Ok in Hk.
  enough (keyed.*2 = blocks) as -> by done. induction Hk as [|x [k y] l l' E _ IH]; [done|].
  csimpl. rewrite IH. apply bind_Ok in E as (? & _ & [= _ ->]). done.
Qed.

Lemma number_blocks_Ok blocks tbs :
  number_blocks blocks = Ok tbs →
  Forall2 (λ item tb, tb_key tb = item.1 ∧ tb_steps tb = item.2 ∧
    ∀ step, step ∈ tb_steps tb → xs_rank step = tk_rank (tb_key tb)) blocks tbs.
Proof.
  unfold number_blocks. intros H. apply bind_Ok in H as ([next tbs'] & H & [= <-]).
  apply (foldM_ind (λ don st, Forall2 (λ item tb, tb_key tb = item.1 ∧ tb_steps tb = item.2 ∧
    ∀ step, step ∈ tb_steps tb → xs_rank step = tk_rank (tb_key tb)) don st.2)) in H; [done|constructor|].
  intros don [k steps] [n1 l1] [n2 l2] Hl _ E. unfold number_block in E. cbv zeta in E.
  apply bind_Ok in E as (tb & Htb & [= _ <-]). simpl. apply Forall2_app; [done|].
  constructor; [|constructor]. by apply Threadblock_init_Ok in Htb as [-> ?].
Qed.

(** The blocks of the program are those of the final state. *)
Lemma blocks_same self refs flagged ordered tbs :
  NoDup (lo_steps self).*1 →
  flag_blocks refs (lo_steps self) = Ok flagged → ordered_blocks flagged = Ok ordered →
  number_blocks ordered = Ok tbs →
  (∀ tb, tb ∈ tbs → Forall2 same_step (block self (tb_key tb)) (tb_steps tb) ∧
    (∀ step, step ∈ tb_steps tb → xs_rank step = tk_rank (tb_key tb)) ∧
    tb_key tb ∈ (lo_steps self).*1) ∧
  (∀ key, block self key ≠ [] → ∃ tb, tb ∈ tbs ∧ tb_key tb = key).
Proof.
  intros Hnd Hf Ho Hn.
  apply flag_blocks_Ok in Hf. apply ordered_blocks_Ok in Ho. apply number_blocks_Ok in Hn.
  split.
  - intros tb Htb. destruct (Forall2_elem_r _ _ _ _ Hn Htb) as ([k steps] & Hin & -> & -> & Hr).
    rewrite Ho in Hin. destruct (Forall2_elem_r _ _ _ _ Hf Hin) as ([k' steps'] & Hin' & E & Hs).
    simpl in *. subst k'. split; [|split; [done|by apply (list_elem_of_fmap_2 fst _ (k, steps'))]].
    unfold block. by rewrite (dict_get_Some_2 k steps').
  - intros key Hne. unfold block in Hne.
    destruct (dict_get key (lo_steps self)) as [steps|] eqn:E; [|done].
    apply dict_get_Some_1 in E. destruct (Forall2_elem_l _ _ _ _ Hf E) as ([k f] & Hf1 & Ek & Hs).
    rewrite <- Ho in Hf1. destruct (Forall2_elem_l _ _ _ _ Hn Hf1) as (tb & Htb & Hk & _).
    exists tb. simpl in *. split; [done|congruence].
Qed.

(** ** What the graph and the endpoints have in common *)

(** Every transfer is a node with a send and a receive on another rank, and
    every node with a communication endpoint is a transfer. *)
Record nodes_paired (program : EndpointProgram) (dag : TransferDAG) : Prop := {
  np_endpoints : NoDup (ep_endpoint_id <$> epp_endpoints program);
  np_transfers : NoDup (epp_by_transfer_id program).*1;
  np_ids id n : dict_get id (dag_nodes dag) = Some n → nd_node_id n = id;
  np_transfer tid ends : (tid, ends) ∈ epp_by_transfer_id program →
    ∃ send recv n, ends = [send; recv] ∧
      send ∈ epp_endpoints program ∧ recv ∈ epp_endpoints program ∧
      ep_transfer_id send = tid ∧ ep_transfer_id recv = tid ∧
      ep_xml_type send = SEND ∧ is_receive (ep_xml_type recv) = true ∧
      ep_rank send ≠ ep_rank recv ∧ dict_get tid (dag_nodes dag) = Some n ∧
      nd_endpoint_ids n = [ep_endpoint_id send; ep_endpoint_id recv];
  np_types e : e ∈ epp_endpoints program → ep_xml_type e ≠ NOP;
  np_node id e : node_endpoint program dag id e → ep_xml_type e ≠ COPY →
    id ∈ (epp_by_transfer_id program).*1;
}.

Record lowered (program : EndpointProgram) (dag : TransferDAG) (p : ThreadblockProgram)
    (o : list string) (self : Lowering) : Prop := {
  lw_visited : visited program dag o self;
  lw_nodes x : x ∈ o ↔ x ∈ (dag_nodes dag).*1;
  lw_wf : program_wf p;
  lw_transfers : tp_transfer_steps p = transfer_step_ids program;
  lw_blocks tb : tb ∈ tp_threadblocks p →
    Forall2 same_step (block self (tb_key tb)) (tb_steps tb) ∧
    (∀ step, step ∈ tb_steps tb → xs_rank step = tk_rank (tb_key tb)) ∧
    tb_key tb ∈ (lo_steps self).*1;
  lw_keys key : block self key ≠ [] → ∃ tb, tb ∈ tp_threadblocks p ∧ tb_key tb = key;
}.

Lemma schedule_threadblocks_Ok program dag p :
  (∀ id n, dict_get id (dag_nodes dag) = Some n → nd_node_id n = id) →
  schedule_threadblocks program dag = Ok p → ∃ o self, lowered program dag p o self.
Proof.
  intros Hids H. unfold schedule_threadblocks in H. cbv zeta in H.
  apply bind_Ok in H as ([] & _ & H). apply bind_Ok in H as (lengths & _ & H).
  apply bind_Ok in H as (self & Hself & H). apply bind_Ok in H as (flagged & Hf & H).
  apply bind_Ok in H as (ord & Ho & H). apply bind_Ok in H as (tbs & Htb & H).
  apply bind_Ok in H as (inv & _ & H). apply bind_Ok in H as (p' & Hp & H).
  apply bind_Ok in H as ([] & _ & [= <-]).
  destruct (schedule_all_Ok program dag Hids _ _ _ Hself) as (o & Hv & Hn).
  apply ThreadblockProgram_init_Ok in Hp as (Hwf & <- & Hts).
  destruct (blocks_same self _ _ _ _ (li_keys _ _ _ _ (proj1 (proj2 Hv))) Hf Ho Htb) as [Hb Hs].
  by exists o, self.
Qed.

Section sound.
Context (program : EndpointProgram) (dag : TransferDAG) (p : ThreadblockProgram).
Context (o : list string) (self : Lowering).
Context (Hnp : nodes_paired program dag) (Hlw : lowered program dag p o self).

Notation steps := (program_steps (tp_threadblocks p)).

Definition step_index (step : XmlStep) : nat := index_of o (xs_node_id step).

Lemma o_NoDup : NoDup o.
Proof. apply (lw_visited _ _ _ _ _ Hlw). Qed.

Lemma self_inv : lowering_inv program dag o self.
Proof. apply (lw_visited _ _ _ _ _ Hlw). Qed.

(** A step of the final state is a step of the program. *)
Lemma lowered_step key i step :
  block self key !! i = Some step → ∃ tb step', tb ∈ tp_threadblocks p ∧ tb_key tb = key ∧
    tb_steps tb !! i = Some step' ∧ same_step step step'.
Proof.
  intros Hi. destruct (lw_keys _ _ _ _ _ Hlw key) as (tb & Htb & Hk); [by intros E; rewrite E in Hi|].
  destruct (lw_blocks _ _ _ _ _ Hlw tb Htb) as (Hs & _ & _). rewrite Hk in Hs.
  destruct (Forall2_lookup_l _ _ _ _ _ Hs Hi) as (step' & ? & ?). by exists tb, step'.
Qed.

Lemma lowered_elem key step :
  step ∈ block self key → ∃ step', step' ∈ steps ∧ same_step step step'.
Proof.
  intros [i Hi]%list_elem_of_lookup. destruct (lowered_step _ _ _ Hi) as (tb & step' & ? & _ & Hl & ?).
  exists step'. split; [|done]. apply elem_of_program_steps. exists tb.
  by apply list_elem_of_lookup_2 in Hl.
Qed.

(** A step of the program comes from a step of the final state. *)
Lemma step_origin step :
  step ∈ steps → ∃ step0, step_inv program dag o self step0 ∧ same_step step0 step.
Proof.
  intros (tb & Htb & Hin)%elem_of_program_steps. destruct (lw_blocks _ _ _ _ _ Hlw tb Htb) as (Hs & _ & _).
  destruct (Forall2_elem_r _ _ _ _ Hs Hin) as (step0 & Hin0 & Hss). exists step0.
  split; [|done]. by apply (li_step _ _ _ _ self_inv (tb_key tb)).
Qed.

Lemma step_node step : step ∈ steps → xs_node_id step ∈ o.
Proof.
  intros (step0 & [Hn _ _] & _ & -> & _)%step_origin. done.
Qed.

Lemma step_by_id st1 st2 : st1 ∈ steps → st2 ∈ steps → xs_step_id st1 = xs_step_id st2 → st1 = st2.
Proof.
  intros (tb1 & ? & ?)%elem_of_program_steps (tb2 & ? & ?)%elem_of_program_steps E.
  by eapply (step_unique _ tb1 tb2); [apply (pw_steps p (lw_wf _ _ _ _ _ Hlw))|..].
Qed.

Lemma dependency_earlier step d dep :
  step ∈ steps → xs_dependency_step_id step = Some d → dict_get d (tp_steps_by_id p) = Some dep →
  (step_index dep < step_index step)%nat.
Proof.
  intros Hin Hd Hdep. destruct (step_origin step Hin) as (step0 & [_ Hdeps _] & Hss).
  destruct Hss as (_ & En & _ & _ & Ed & _). rewrite Ed in Hd.
  destruct (Hdeps d Hd) as (node & (key & st & Hst & <- & <-) & Hp).
  destruct (lowered_elem key st Hst) as (st' & Hst' & Hid & Hnode & _).
  rewrite <- Hid, (step_table p (lw_wf _ _ _ _ _ Hlw) _ Hst') in Hdep. injection Hdep as <-.
  unfold step_index. rewrite Hnode, En. apply index_of_precedes; [apply o_NoDup|done].
Qed.

Lemma blocks_ordered tb i j a b :
  tb ∈ tp_threadblocks p → (i ≤ j)%nat → tb_steps tb !! i = Some a → tb_steps tb !! j = Some b →
  (step_index a ≤ step_index b)%nat.
Proof.
  intros Htb Hij Ha Hb. destruct (lw_blocks _ _ _ _ _ Hlw tb Htb) as (Hs & _ & _).
  destruct (Forall2_lookup_r _ _ _ _ _ Hs Ha) as (a0 & Ha0 & _ & Ea & _).
  destruct (Forall2_lookup_r _ _ _ _ _ Hs Hb) as (b0 & Hb0 & _ & Eb & _).
  unfold step_index. rewrite Ea, Eb.
  destruct (li_order _ _ _ _ self_inv _ _ _ _ _ Hij Ha0 Hb0) as [->|Hp]; [done|].
  apply index_of_precedes in Hp; [lia|apply o_NoDup].
Qed.

(** ** Endpoints and their steps *)

Lemma endpoint_unique e1 e2 :
  e1 ∈ epp_endpoints program → e2 ∈ epp_endpoints program →
  ep_endpoint_id e1 = ep_endpoint_id e2 → e1 = e2.
Proof. apply NoDup_fmap_elem, (np_endpoints _ _ Hnp). Qed.

(** Both ends of a transfer have their step. *)
Lemma endpoint_has_step id e :
  node_endpoint program dag id e →
  ∃ step, step ∈ steps ∧ executes step e ∧ xs_node_id step = id.
Proof.
  intros (He & n & Hn & Hid). destruct (lw_visited _ _ _ _ _ Hlw) as (_ & _ & Hc).
  assert (Hin : id ∈ o).
  { apply (lw_nodes _ _ _ _ _ Hlw), list_elem_of_fmap. exists (id, n).
    split; [done|by apply dict_get_Some_1]. }
  destruct (proj1 (Hc id Hin) n _ Hn Hid) as (key & st & e' & He' & Eid & Hst & (E1 & E2 & E3 & E4) & Hnode).
  apply endpoint_unique in Eid as ->; [|done..].
  destruct (lowered_elem key st Hst) as (st' & Hst' & Ei & En & Et & Er & _ & Ep).
  exists st'. unfold executes. split_and!; congruence.
Qed.

(** A communication step executes an end of a transfer. *)
Lemma communication_step step :
  step ∈ steps → is_local step = false →
  ∃ e, node_endpoint program dag (xs_node_id step) e ∧ executes step e ∧
    ep_xml_type e ≠ COPY.
Proof.
  intros Hin Hl. destruct (step_origin step Hin) as (step0 & [_ _ He] & Hss).
  destruct Hss as (Ei & En & Et & Er & _ & Ep). unfold is_local in Hl. rewrite Et in Hl.
  destruct He as [He|(e & Hne & E1 & E2 & E3 & E4)]; [by rewrite He in Hl|].
  exists e. rewrite En. split; [done|]. split; [unfold executes; split_and!; congruence|].
  rewrite E2 in Hl. intros E; by rewrite E in Hl.
Qed.

(** The two steps of a transfer. *)
Lemma transfer_pair tid ends :
  (tid, ends) ∈ epp_by_transfer_id program →
  ∃ send recv st1 st2 n, ends = [send; recv] ∧ st1 ∈ steps ∧ st2 ∈ steps ∧
    executes st1 send ∧ executes st2 recv ∧ xs_node_id st1 = tid ∧ xs_node_id st2 = tid ∧
    is_local st1 = false ∧ is_local st2 = false ∧ xs_rank st1 ≠ xs_rank st2 ∧
    dict_get tid (dag_nodes dag) = Some n ∧
    nd_endpoint_ids n = [xs_step_id st1; xs_step_id st2].
Proof.
  intros Hin. destruct (np_transfer _ _ Hnp tid ends Hin)
    as (send & recv & n & -> & Hs & Hr & _ & _ & Ts & Tr & Hrank & Hn & Hids).
  destruct (endpoint_has_step tid send) as (st1 & S1 & (I1 & T1 & R1 & P1) & N1).
  { split; [done|]. exists n. rewrite Hids. split; [done|by left]. }
  destruct (endpoint_has_step tid recv) as (st2 & S2 & (I2 & T2 & R2 & P2) & N2).
  { split; [done|]. exists n. rewrite Hids. split; [done|right; by left]. }
  exists send, recv, st1, st2, n. unfold executes, is_local. rewrite T1, T2, Ts, Hids, I1, I2, P1, P2.
  split_and!; try done; [by destruct (ep_xml_type recv)|congruence].
Qed.

Lemma lowered_ordered : ordered p step_index.
Proof.
  constructor; [by apply blocks_ordered|by apply dependency_earlier|].
  intros step Hin Hl. destruct (communication_step step Hin Hl) as (e & Hne & (E1 & E2 & E3 & _) & Hc).
  pose proof (np_node _ _ Hnp _ _ Hne Hc) as Htid.
  apply list_elem_of_fmap in Htid as ([tid ends] & Htid & Hends). simpl in Htid. subst tid.
  destruct (transfer_pair _ _ Hends) as (send & recv & st1 & st2 & n & -> & S1 & S2 & (I1 & _) &
    (I2 & _) & N1 & N2 & _ & _ & Hr & Hget & Hids).
  assert (Hone : ∀ step', step' ∈ steps → is_local step' = false →
    xs_node_id step' = xs_node_id step → step' = st1 ∨ step' = st2).
  { intros step' Hin' Hl' En.
    destruct (communication_step step' Hin' Hl') as (e' & (He' & n' & Hn' & Hid') & (E' & _) & _).
    rewrite En, Hget in Hn'. injection Hn' as <-. rewrite Hids, <- E' in Hid'.
    apply elem_of_cons in Hid' as [Hid'|Hid'%list_elem_of_singleton]; [left|right];
      by apply step_by_id. }
  exists (xs_node_id step), st1, st2. unfold step_index. rewrite N1, N2.
  split_and!; try done.
  - rewrite (lw_transfers _ _ _ _ _ Hlw), I1, I2. unfold transfer_step_ids.
    apply list_elem_of_fmap. by exists (xs_node_id step, [send; recv]).
  - by apply Hone.
  - intros tb Htb M1 M2. destruct (lw_blocks _ _ _ _ _ Hlw tb Htb) as (_ & Hrank & _).
    apply Hr. by rewrite (Hrank _ M1), (Hrank _ M2).
  - intros step' Hin' Hl' E. apply Hone; [done..|].
    apply (index_of_inj o); [apply o_NoDup|by apply step_node..|done].
Qed.

Lemma lowered_paired : paired p.
Proof.
  assert (Hts : ∀ tid ids, (tid, ids) ∈ tp_transfer_steps p → ∃ st1 st2,
    ids = [xs_step_id st1; xs_step_id st2] ∧ st1 ∈ steps ∧ st2 ∈ steps ∧
    is_local st1 = false ∧ is_local st2 = false ∧ xs_node_id st1 = tid ∧ xs_node_id st2 = tid ∧
    xs_rank st1 ≠ xs_rank st2).
  { intros tid ids Hin. rewrite (lw_transfers _ _ _ _ _ Hlw) in Hin.
    apply list_elem_of_fmap in Hin as ([tid' ends] & [= -> ->] & Hin).
    destruct (transfer_pair _ _ Hin) as (send & recv & st1 & st2 & n & -> & S1 & S2 & (I1 & _) &
      (I2 & _) & N1 & N2 & L1 & L2 & Hr & _). exists st1, st2. csimpl. by rewrite I1, I2. }
  constructor.
  - rewrite (lw_transfers _ _ _ _ _ Hlw). unfold transfer_step_ids.
    rewrite <- list_fmap_compose. apply (np_transfers _ _ Hnp).
  - intros tid s1 s2 Hin ->. destruct (Hts _ _ Hin) as (st1 & st2 & [= -> E] & S1 & S2 & ? & ? & ? & ? & Hr).
    by apply step_by_id in E as ->.
  - intros tid ids id step Hin Hid Hget.
    destruct (Hts _ _ Hin) as (st1 & st2 & -> & S1 & S2 & L1 & L2 & _).
    apply elem_of_cons in Hid as [->| ->%list_elem_of_singleton];
      rewrite (step_table p (lw_wf _ _ _ _ _ Hlw)) in Hget by done; by injection Hget as <-.
  - intros tid ids tid' ids' id H1 H2 Hi Hi'.
    destruct (Hts _ _ H1) as (a1 & a2 & -> & A1 & A2 & _ & _ & NA1 & NA2 & _).
    destruct (Hts _ _ H2) as (b1 & b2 & -> & B1 & B2 & _ & _ & NB1 & NB2 & _).
    assert (Hfind : ∀ x y tid, id ∈ [xs_step_id x; xs_step_id y] → x ∈ steps → y ∈ steps →
      xs_node_id x = tid → xs_node_id y = tid → ∃ z, z ∈ steps ∧ xs_step_id z = id ∧ xs_node_id z = tid).
    { intros x y t [->| ->%list_elem_of_singleton]%elem_of_cons ? ? ? ?; eauto. }
    destruct (Hfind a1 a2 tid) as (z1 & Z1 & E1 & <-); [done..|].
    destruct (Hfind b1 b2 tid') as (z2 & Z2 & E2 & <-); [done..|].
    assert (z1 = z2) as -> by (apply step_by_id; [done..|congruence]). done.
Qed.

(** ** Dependencies are enforced *)

(** Whenever a step is completed, so is its dependency. *)
Lemma dependencies_closed s :
  rtc (exec_step p) (initial_state p) s → ∀ step d, step ∈ steps →
    xs_step_id step ∈ es_completed s → xs_dependency_step_id step = Some d → d ∈ es_completed s.
Proof.
  assert (Hadv : ∀ s key h, head_of p s key = Some h → dependency_ready s h = true →
    (∀ step d, step ∈ steps → xs_step_id step ∈ es_completed s →
       xs_dependency_step_id step = Some d → d ∈ es_completed s) →
    ∀ step d, step ∈ steps → xs_step_id step ∈ es_completed (advance s (key, h)) →
      xs_dependency_step_id step = Some d → d ∈ es_completed (advance s (key, h))).
  { intros s0 key h Hh Hready Hc step d Hin Hid Hd. simpl in *. apply elem_of_union. right.
    apply elem_of_union in Hid as [Hid%elem_of_singleton|Hid]; [|by eapply Hc].
    destruct (head_of_program p (lw_wf _ _ _ _ _ Hlw) _ _ _ Hh) as (tb & Htb & _ & Hin').
    assert (step = h) as -> by (apply step_by_id; [done|apply elem_of_program_steps; eauto|done]).
    unfold dependency_ready in Hready. rewrite Hd in Hready. by apply bool_decide_eq_true in Hready. }
  assert (H0 : ∀ step d, step ∈ steps → xs_step_id step ∈ es_completed (initial_state p) →
    xs_dependency_step_id step = Some d → d ∈ es_completed (initial_state p))
    by (by intros step d _ ?%elem_of_empty).
  intros Hr. induction Hr as [|s1 s2 s3 Hs _ IH]; [done|]. apply IH. clear IH.
  destruct Hs as [s key h Hh _ Hready|s tid i1 i2 k1 k2 h1 h2 Ht H1 <- H2 <- R1 R2].
  - by apply Hadv.
  - apply Hadv; [|by apply ready_advance|by apply Hadv].
    rewrite head_of_advance_ne; [done|].
    eapply transfer_keys_distinct; [apply lowered_paired|exact Ht|done..].
Qed.

Lemma completed_earlier s tb i j a c :
  rtc (exec_step p) (initial_state p) s → tb ∈ tp_threadblocks p → (i ≤ j)%nat →
  tb_steps tb !! i = Some a → tb_steps tb !! j = Some c →
  xs_step_id c ∈ es_completed s → xs_step_id a ∈ es_completed s.
Proof.
  pose proof (lw_wf _ _ _ _ _ Hlw) as Hwf. intros Hr Htb Hij Ha Hc Hin.
  pose proof (completed_rtc p Hwf lowered_paired _ _ Hr (initial_completed p Hwf)) as Hinv.
  apply Hinv in Hin as (tb' & n & pos & step & Htb' & Hpos & Hn & Hstep & Eid).
  destruct (step_unique _ _ _ _ _ (pw_steps p Hwf) Htb' Htb
    (list_elem_of_lookup_2 _ _ _ Hstep) (list_elem_of_lookup_2 _ _ _ Hc) Eid) as [-> ->].
  assert (n = j) as ->.
  { eapply NoDup_lookup; [by apply (tb_steps_ids p Hwf tb)| |]; rewrite list_lookup_fmap;
      [by rewrite Hstep|by rewrite Hc]. }
  apply Hinv. exists tb, i, pos, a. split_and!; try done. lia.
Qed.

(** [first] completes before [second] in every execution. *)
Definition enforced (q : ThreadblockProgram) (first second : string) : Prop :=
  ∀ s, rtc (exec_step q) (initial_state q) s → second ∈ es_completed s → first ∈ es_completed s.

Lemma waits_enforced step id : waits self step id → enforced p id (xs_step_id step).
Proof.
  intros (key & i & j & st & Hij & Hi & Hj & Hor) s Hr Hin.
  destruct (lowered_step _ _ _ Hi) as (tb & st' & Htb & Hk & Hi' & Eid & _ & _ & _ & Ed & _).
  destruct (lw_blocks _ _ _ _ _ Hlw tb Htb) as (Hs & _ & _). rewrite Hk in Hs.
  destruct (Forall2_lookup_l _ _ _ _ _ Hs Hj) as (step' & Hj' & Eid' & _).
  rewrite <- Eid' in Hin.
  pose proof (completed_earlier s tb i j st' step' Hr Htb Hij Hi' Hj' Hin) as Hst.
  destruct Hor as [[_ <-]|Hd]; [by rewrite <- Eid|].
  eapply (dependencies_closed s Hr st'); [|done|by rewrite Ed].
  apply elem_of_program_steps. exists tb. by apply list_elem_of_lookup_2 in Hi'.
Qed.

Lemma lowered_enforced pred c :
  is_Some (dag_predecessors dag !! c) → depends dag pred c → c ∈ (dag_nodes dag).*1 →
  (∃ first second, first ∈ steps ∧ second ∈ steps ∧
     xs_node_id first = pred ∧ xs_node_id second = c ∧
     xs_xml_type first ≠ NOP ∧ xs_xml_type second ≠ NOP ∧
     xs_rank first = xs_rank second ∧ enforced p (xs_step_id first) (xs_step_id second)) ∨
  schedule_only dag pred c.
Proof.
  intros [preds Hp] Hd Hc. unfold depends in Hd. rewrite Hp in Hd. simpl in Hd.
  destruct (lw_visited _ _ _ _ _ Hlw) as (_ & _ & Hall).
  apply (lw_nodes _ _ _ _ _ Hlw) in Hc. destruct (Hall c Hc) as [_ Hn].
  destruct (Hn (elements preds)) with (p := pred) as [H|]; [|by apply elem_of_elements| |by right].
  { unfold predecessors_of. by rewrite Hp. }
  left. destruct H as (key & step & e & id & Hin & (I1 & T1 & R1 & P1) & [He _] & <- & Hrank & Hw).
  destruct Hrank as (key' & st & e' & Hst & (I2 & T2 & R2 & P2) & [He' _] & <- & <- & Hr).
  destruct (lowered_elem _ _ Hin) as (second & S2 & E1 & E2 & E3 & E4 & _).
  destruct (lowered_elem _ _ Hst) as (first & S1 & F1 & F2 & F3 & F4 & _).
  pose proof (np_types _ _ Hnp _ He). pose proof (np_types _ _ Hnp _ He').
  exists first, second. split_and!; try congruence.
  rewrite E1, F1. by apply waits_enforced.
Qed.
End sound.
