(* ===== verification/Lower.v ===== *)
(** * Lowering ([vericcl/xml/lower.py])

    From a schedule and its buffer plan to numbered threadblocks: the part of
    [lower_to_xml] between the buffer plan and the text. *)

From S2P Require Import Prelude.
From S2P Require Import Python.
From S2P Require Import Atom.
From S2P Require Import XmlModel.
From S2P Require Import Endpoints.
From S2P Require Import Threadblocks.
From S2P Require Import Deadlock.
From S2P Require Import Dependencies.
From S2P Require Import ListScheduler.
From S2P Require Import Compatibility.
From S2P Require Import AtomLaws.
From S2P Require Import EndpointLaws.
From S2P Require Import DeadlockFree.
From S2P Require Import LivenessLaws.
From S2P Require Import DependencyLaws.
From S2P Require Import ListSchedulerLaws.
From S2P Require Import SchedulerSound.
Local Open Scope Z_scope.

(** [lower_endpoints], [build_transfer_dag], [schedule_threadblocks] and
    [renumber_dependent_threadblocks]. *)
Definition lower_threadblocks (schedule : Schedule) (buffers : BufferPlan)
    : res ThreadblockProgram :=
  endpoints ← lower_endpoints schedule buffers;
  dag ← build_transfer_dag endpoints schedule buffers;
  threadblocks ← schedule_threadblocks endpoints dag;
  renumber_dependent_threadblocks threadblocks.

(** The same, with the check that follows. *)
Definition lower_checked (schedule : Schedule) (buffers : BufferPlan)
    : res ThreadblockProgram :=
  threadblocks ← lower_threadblocks schedule buffers;
  deadlock ← simulate_endpoint_execution threadblocks;
  raise_when (dr_deadlocked deadlock) (SemanticError "threadblock program is deadlocked");;
  Ok threadblocks.

(** * Laws of lowering

    Lowering a schedule never produces a program that deadlocks. *)

Lemma zip_elem_l {A B C} (f : A → B) (R : A → C → Prop) l k x :
  Forall2 R l k → x ∈ l → ∃ y, (f x, y) ∈ zip (f <$> l) k ∧ R x y.
Proof.
  induction 1 as [|a c l k Hac Hlk IH]; csimpl; [by rewrite elem_of_nil|].
  rewrite elem_of_cons. intros [->|Hin].
  - exists c. split; [by left|done].
  - destruct (IH Hin) as (y & ? & ?). exists y. split; [by right|done].
Qed.

Lemma zip_elem_r {A B C} (f : A → B) (R : A → C → Prop) l k y :
  Forall2 R l k → y ∈ k → ∃ x, x ∈ l ∧ (f x, y) ∈ zip (f <$> l) k ∧ R x y.
Proof.
  induction 1 as [|a c l k Hac Hlk IH]; csimpl; [by rewrite elem_of_nil|].
  rewrite elem_of_cons. intros [->|Hin].
  - exists a. split; [by left|]. split; [by left|done].
  - destruct (IH Hin) as (x & ? & ? & ?). exists x. split; [by right|]. split; [by right|done].
Qed.

Section nodes.
Context (s : Schedule) (b : BufferPlan) (program : EndpointProgram) (dag : TransferDAG).
Context (Hnd : NoDup (tr_id <$> sc_transfers s)) (Hts : Forall transfer_wf (sc_transfers s)).
Context (Hl : lowering s b program) (Hdag : dag_sound program s b dag).

Lemma lowering_ids : NoDup (ep_endpoint_id <$> epp_endpoints program).
Proof.
  destruct Hl as (ends & cs & He & Hc & Hcn & Hdis & ->). simpl.
  rewrite (program_ids b _ _ _ _ He Hc). by apply endpoint_ids_NoDup.
Qed.

Lemma by_transfer_keys : (epp_by_transfer_id program).*1 = tr_id <$> sc_transfers s.
Proof.
  destruct Hl as (ends & cs & He & Hc & Hcn & Hdis & ->). simpl.
  apply zip_fst. rewrite length_fmap. by eapply Forall2_length.
Qed.

(** The nodes of the graph, by their kind. *)
Lemma node_cases id n :
  dict_get id (dag_nodes dag) = Some n →
  (∃ t, t ∈ sc_transfers s ∧ id = tr_id t ∧ transfer_node program s b t = Ok n) ∨
  (∃ c, c ∈ copies b ∧ id = c.1 ∧ copy_node program c.1 c.2 = Ok n).
Proof.
  destruct (ds_nodes _ _ _ _ Hdag) as (ts & cs & H1 & H2 & ->).
  intros [H|H]%dict_get_Some_1%elem_of_app; [left|right].
  - destruct (elem_of_zip_map _ _ _ _ _ _ H1 H) as (t & ? & ? & ?). by exists t.
  - destruct (elem_of_zip_map _ _ _ _ _ _ H2 H) as (c & ? & ? & ?). by exists c.
Qed.

Lemma node_keys : (dag_nodes dag).*1 = (tr_id <$> sc_transfers s) ++ copy_ids b.
Proof.
  destruct (ds_nodes _ _ _ _ Hdag) as (ts & cs & H1 & H2 & E).
  pose proof (Forall2_length _ _ _ H1). pose proof (Forall2_length _ _ _ H2).
  rewrite E, fmap_app, !fst_zip; [done|..]; unfold copy_ids; rewrite length_fmap; lia.
Qed.

Lemma node_of_elem id n : (id, n) ∈ dag_nodes dag → dict_get id (dag_nodes dag) = Some n.
Proof.
  apply dict_get_Some_2. rewrite node_keys, <- (ds_order _ _ _ _ Hdag).
  apply (ds_distinct _ _ _ _ Hdag).
Qed.

Lemma transfer_has_node t :
  t ∈ sc_transfers s → ∃ n, dict_get (tr_id t) (dag_nodes dag) = Some n ∧
    transfer_node program s b t = Ok n.
Proof.
  intros Ht. destruct (ds_nodes _ _ _ _ Hdag) as (ts & cs & H1 & H2 & E).
  destruct (zip_elem_l tr_id _ _ _ _ H1 Ht) as (n & Hin & Hn). exists n. split; [|done].
  apply node_of_elem. rewrite E. apply elem_of_app. by left.
Qed.

Lemma copy_has_node c :
  c ∈ copies b → ∃ n, dict_get c.1 (dag_nodes dag) = Some n ∧ copy_node program c.1 c.2 = Ok n.
Proof.
  intros Hc. destruct (ds_nodes _ _ _ _ Hdag) as (ts & cs & H1 & H2 & E).
  destruct (zip_elem_l fst _ _ _ _ H2 Hc) as (n & Hin & Hn). exists n. split; [|done].
  apply node_of_elem. rewrite E. apply elem_of_app. by right.
Qed.

Lemma transfer_node_Ok t n :
  transfer_node program s b t = Ok n →
  nd_node_id n = tr_id t ∧ ∃ ends, dict_get (tr_id t) (epp_by_transfer_id program) = Some ends ∧
    nd_endpoint_ids n = ep_endpoint_id <$> ends.
Proof.
  unfold transfer_node. cbv zeta. intros H. apply bind_Ok in H as ([st ed] & _ & H).
  apply bind_Ok in H as (ends & He & H). apply bind_Ok in H as (idx & _ & H).
  apply bind_Ok in H as (i & _ & [= <-]). apply of_option_Ok in He. simpl. split; [done|].
  by exists ends.
Qed.

Lemma copy_node_Ok id c n :
  copy_node program id c = Ok n →
  nd_node_id n = id ∧ ∃ e, dict_get id (epp_local_endpoints program) = Some e ∧
    nd_endpoint_ids n = [ep_endpoint_id e].
Proof.
  unfold copy_node. intros H. apply bind_Ok in H as (e & He & [= <-]).
  apply of_option_Ok in He. simpl. split; [done|]. by exists e.
Qed.

Lemma local_endpoint id e :
  (id, e) ∈ epp_local_endpoints program → e ∈ epp_endpoints program ∧ ep_xml_type e = COPY.
Proof.
  destruct Hl as (ends & cs & He & Hc & Hcn & Hdis & ->). simpl. intros Hin. split.
  - apply elem_of_zip_r in Hin. apply elem_of_app. by right.
  - by destruct (elem_of_zip_map _ _ _ _ _ _ Hc Hin) as (c & _ & _ & st & ed & _ & _ & ->).
Qed.

Lemma by_transfer_ends tid ends :
  (tid, ends) ∈ epp_by_transfer_id program →
  ∃ t src dst, t ∈ sc_transfers s ∧ tid = tr_id t ∧ ends = [send_of t src; recv_of t dst] ∧
    ∀ e, e ∈ ends → e ∈ epp_endpoints program.
Proof.
  destruct Hl as (l & cs & He & Hc & Hcn & Hdis & ->). simpl. intros Hin.
  destruct (elem_of_zip_map _ _ _ _ _ _ He Hin) as (t & Ht & -> & src & dst & _ & _ & _ & _ & ->).
  exists t, src, dst. split_and!; try done. intros e Hin'. apply elem_of_app. left.
  apply elem_of_concat. exists [send_of t src; recv_of t dst]. split; [|done].
  by apply elem_of_zip_r in Hin.
Qed.

Lemma lowering_paired : nodes_paired program dag.
Proof.
  constructor.
  - apply lowering_ids.
  - by rewrite by_transfer_keys.
  - intros id n [(t & _ & -> & H)|(c & _ & -> & H)]%node_cases.
    + by apply transfer_node_Ok in H as [? _].
    + by apply copy_node_Ok in H as [? _].
  - intros tid ends Hin. destruct (by_transfer_ends _ _ Hin) as (t & src & dst & Ht & -> & -> & Hall).
    destruct (transfer_has_node t Ht) as (n & Hget & Hn).
    apply transfer_node_Ok in Hn as (_ & ends & He & Hids).
    assert (ends = [send_of t src; recv_of t dst]) as ->.
    { apply dict_get_Some_2 in Hin; [congruence|by rewrite by_transfer_keys]. }
    exists (send_of t src), (recv_of t dst), n. rewrite Forall_forall in Hts.
    destruct (tw_ranks t (Hts t Ht)) as (_ & _ & Hne).
    split_and!; try done; try (apply Hall; set_solver).
    simpl. unfold expected_recv. by case_decide.
  - intros e He. destruct Hl as (ends & cs & H1 & H2 & _ & _ & ->). simpl in He.
    apply elem_of_app in He as [(l & Hin & He)%elem_of_concat|He].
    + destruct (Forall2_elem_r _ _ _ _ H1 Hin) as (t & _ & src & dst & _ & _ & _ & _ & ->).
      apply elem_of_cons in He as [->| ->%list_elem_of_singleton]; [done|].
      simpl. unfold expected_recv. by case_decide.
    + by destruct (Forall2_elem_r _ _ _ _ H2 He) as (c & _ & st & ed & _ & _ & ->).
  - intros id e (He & n & Hn & Hid) Hc. rewrite by_transfer_keys.
    apply node_cases in Hn as [(t & Ht & -> & _)|(c & _ & -> & H)]; [by apply list_elem_of_fmap_2|].
    apply copy_node_Ok in H as (_ & e' & He' & Hids). rewrite Hids in Hid.
    apply list_elem_of_singleton in Hid. apply dict_get_Some_1, local_endpoint in He' as [Hin' Hty].
    exfalso. apply Hc. enough (e = e') as -> by done.
    eapply NoDup_fmap_elem; [apply lowering_ids|done..].
Qed.

(** Every endpoint belongs to a node. *)
Lemma endpoint_node e : e ∈ epp_endpoints program → ∃ id, node_endpoint program dag id e.
Proof.
  intros He. pose proof Hl as (ends & cs & H1 & H2 & Hcn & _ & E).
  pose proof He as Hcase. rewrite E in Hcase.
  apply elem_of_app in Hcase as [(l & Hin & He')%elem_of_concat|He'].
  - destruct (zip_elem_r tr_id _ _ _ _ H1 Hin) as (t & Ht & Hz & _).
    destruct (transfer_has_node t Ht) as (n & Hget & Hn).
    apply transfer_node_Ok in Hn as (_ & l' & Hg & Hids).
    assert (l' = l) as ->.
    { rewrite (dict_get_Some_2 (tr_id t) l) in Hg; [congruence|by rewrite by_transfer_keys|].
      by rewrite E. }
    exists (tr_id t). split; [done|]. exists n. split; [done|]. rewrite Hids.
    by apply list_elem_of_fmap_2.
  - destruct (zip_elem_r lc_copy_id _ _ _ _ H2 He') as (c & Hc & Hz & _).
    assert (Hcopies : copies b = (λ c, (lc_copy_id c, c)) <$> bp_local_copies b).
    { apply dict_of_list_nodup. by rewrite <- list_fmap_compose. }
    destruct (copy_has_node (lc_copy_id c, c)) as (n & Hget & Hn).
    { rewrite Hcopies. by apply (list_elem_of_fmap_2 (λ c, (lc_copy_id c, c))). }
    apply copy_node_Ok in Hn as (_ & e' & Hg & Hids). simpl in *.
    rewrite E in Hg. simpl in Hg. rewrite (dict_get_Some_2 (lc_copy_id c) e) in Hg; [|..|exact Hz].
    + injection Hg as <-. exists (lc_copy_id c). split; [done|]. exists n. rewrite Hids.
      split; [done|by left].
    + rewrite fst_zip; [done|]. rewrite length_fmap. apply Forall2_length in H2. lia.
Qed.
End nodes.

(** ** Numbering keeps the steps *)

Lemma renumber_lowered program dag p p' o self :
  lowered program dag p o self → renumber_dependent_threadblocks p = Ok p' →
  lowered program dag p' o self.
Proof.
  intros [Hv Hn Hwf Ht Hb Hk] H. apply renumber_Ok in H as (Hwf' & Ht' & H1 & H2).
  constructor; [done|done|done|congruence| |].
  - intros tb' Hin. destruct (H1 tb' Hin) as (tb & Htb & -> & ->). by apply Hb.
  - intros key Hne. destruct (Hk key Hne) as (tb & Htb & <-). destruct (H2 tb Htb) as (tb' & ? & E & _).
    by exists tb'.
Qed.

(** What lowering goes through. *)
Lemma lower_threadblocks_Ok s b p :
  NoDup (tr_id <$> sc_transfers s) → Forall transfer_wf (sc_transfers s) →
  Forall copy_wf (bp_local_copies b) → lower_threadblocks s b = Ok p →
  ∃ program dag o self, lower_endpoints s b = Ok program ∧
    build_transfer_dag program s b = Ok dag ∧ dag_sound program s b dag ∧
    nodes_paired program dag ∧ lowered program dag p o self.
Proof.
  intros Hnd Hts Hcs H. unfold lower_threadblocks in H.
  apply bind_Ok in H as (program & Hp & H). apply bind_Ok in H as (dag & Hd & H).
  apply bind_Ok in H as (q & Hq & H).
  pose proof (proj1 (lower_endpoints_lowering s b program Hnd Hts Hcs) Hp) as Hl.
  pose proof (build_transfer_dag_sound program s b dag Hnd Hd) as Hdag.
  pose proof (lowering_paired s b program dag Hnd Hts Hl Hdag) as Hnp.
  apply schedule_threadblocks_Ok in Hq as (o & self & Hlw); [|apply (np_ids _ _ Hnp)].
  exists program, dag, o, self. eauto 10 using renumber_lowered.
Qed.

(** ** Termination *)

Lemma critical_paths_terminates dag : terminates (_critical_paths dag).
Proof. unfold _critical_paths, critical_path. terminates. Qed.

Lemma key_init_terminates e : terminates (_threadblock_key e).
Proof. unfold _threadblock_key, ThreadblockKey_init. terminates. Qed.

Lemma step_init_terminates st : terminates (XmlStep_init st).
Proof. unfold XmlStep_init. terminates. Qed.

#[local] Hint Resolve critical_paths_terminates key_init_terminates step_init_terminates : terminates.

Lemma schedule_node_terminates program dag lengths self node :
  terminates (schedule_node program dag lengths self node).
Proof.
  unfold schedule_node, predecessor_assignments, local_assignment, pair_assignment,
    predecessors_of, schedule_endpoint, append_endpoint, append_nop, nop_step, endpoint_step,
    dependency_key, predecessors_of. terminates.
Qed.
#[local] Hint Resolve schedule_node_terminates : terminates.

Lemma schedule_loop_terminates program dag fuel lengths completed remaining self :
  (size remaining < fuel)%nat →
  terminates (schedule_loop program dag fuel lengths completed remaining self).
Proof.
  revert completed remaining self. induction fuel as [|fuel IH]; intros c r self Hs; [lia|].
  simpl. destruct (decide (r = ∅)) as [->|Hne]; [done|].
  apply terminates_bind; [unfold ready_nodes; terminates|intros ready _].
  apply terminates_bind; [terminates|intros selected _].
  apply terminates_bind; [terminates|intros self' _].
  apply terminates_bind; [terminates|intros [] Hin].
  apply raise_when_Ok in Hin. bool_prop. apply IH.
  assert (size (r ∖ {[nd_node_id selected.1]}) < size r)%nat; [|lia].
  apply subset_size. set_solver.
Qed.

Lemma verify_loop_terminates fuel predecessors completed remaining :
  (size remaining < fuel)%nat → terminates (verify_loop fuel predecessors completed remaining).
Proof.
  revert completed remaining. induction fuel as [|fuel IH]; intros c r Hs; [lia|].
  simpl. destruct (decide (r = ∅)) as [->|Hne]; [done|]. destruct (decide _) as [|Hready]; [done|].
  apply IH. match goal with |- (size (r ∖ ?x) < _)%nat => assert (size (r ∖ x) < size r)%nat; [|lia] end.
  apply subset_size. apply set_choose_L in Hready as [id Hid].
  assert (id ∈ r).
  { apply elem_of_list_to_set, list_elem_of_filter in Hid as [_ Hid]. by apply elem_of_elements. }
  set_solver.
Qed.

Lemma program_init_terminates tbs m ts ns refs inv :
  terminates (ThreadblockProgram_init tbs m ts ns refs inv).
Proof. unfold ThreadblockProgram_init, check_step. terminates. Qed.

Lemma threadblock_init_terminates key id steps : terminates (Threadblock_init key id steps).
Proof. unfold Threadblock_init, allowed_types. terminates. Qed.

#[local] Hint Resolve verify_loop_terminates program_init_terminates threadblock_init_terminates
  : terminates.

Lemma schedule_threadblocks_terminates program dag :
  terminates (schedule_threadblocks program dag).
Proof.
  unfold schedule_threadblocks, check_endpoints. terminates.
  - apply schedule_loop_terminates. pose proof (size_list_to_set_le (dag_nodes dag).*1) as Hle.
    rewrite length_fmap in Hle. lia.
  - unfold flag_blocks, flag_step. terminates.
  - unfold ordered_blocks, block_key, direction_order. terminates.
  - unfold number_blocks, number_block. terminates.
  - unfold _inversion_count, block_inversions. terminates.
  - unfold _verify_step_graph. apply verify_loop_terminates. lia.
Qed.

Lemma lower_endpoints_terminates s b : terminates (lower_endpoints s b).
Proof.
  unfold lower_endpoints, lower_transfer, lower_copy, EndpointProgram_init, EndpointAtom_init,
    check_copy_endpoint, check_communication_endpoint, check_communication_refs, _validate_pair.
  terminates.
Qed.

Lemma lower_threadblocks_terminates s b : terminates (lower_threadblocks s b).
Proof.
  unfold lower_threadblocks, renumber_dependent_threadblocks, renumber_rank.
  pose proof lower_endpoints_terminates. pose proof build_transfer_dag_terminates.
  pose proof schedule_threadblocks_terminates. terminates.
Qed.

(** ** The theorems *)

(** C5 Lowering never deadlocks.  For every schedule with well-formed transfers
    and every buffer plan with well-formed copies, lowering ends for its own
    reasons; and whenever it returns a threadblock program, the program passes
    the deadlock check that follows: its simulation returns, is not
    deadlocked, and has completed every step of every threadblock. *)
Theorem lowering_deadlock_free s b :
  NoDup (tr_id <$> sc_transfers s) → Forall transfer_wf (sc_transfers s) →
  Forall copy_wf (bp_local_copies b) →
  lower_threadblocks s b ≠ Err OutOfFuel ∧
  ∀ p, lower_threadblocks s b = Ok p →
    lower_checked s b = Ok p ∧
    ∃ r, simulate_endpoint_execution p = Ok r ∧ dr_deadlocked r = false ∧
      dr_completed_step_ids r =
        list_to_set (xs_step_id <$> program_steps (tp_threadblocks p)).
Proof.
  intros Hnd Hts Hcs. split; [apply lower_threadblocks_terminates|]. intros p Hp.
  destruct (lower_threadblocks_Ok s b p Hnd Hts Hcs Hp) as
    (program & dag & o & self & _ & _ & _ & Hnp & Hlw).
  destruct (ordered_deadlock_free p (lw_wf _ _ _ _ _ Hlw)
    (lowered_paired _ _ _ _ _ Hnp Hlw) _ (lowered_ordered _ _ _ _ _ Hnp Hlw))
    as (r & Hr & Hd & Hc).
  split; [|by exists r]. unfold lower_checked. rewrite Hp. cbn [mbind res_bind].
  rewrite Hr. cbn [mbind res_bind]. by rewrite Hd.
Qed.


(** ** A copy that fills what a transfer reads *)

Section demo.
Let from_start (rank : Z) (buffer : string) : PhysicalRef :=
  MkPhysicalRef rank buffer 0 (Finite 0) PosInf.
Let received : PhysicalRef := MkPhysicalRef 1 "o" 0 (Finite one_us) PosInf.
Let chunks : list (Z * Z) := [(0, 1); (1, 1)].
Let value : ValueKey := VRaw (MkRawValue 0).
Let t0 : string := "t0".

Definition demo_staged : BufferPlan :=
  MkBufferPlan
    [(value, [from_start 0 "i"; from_start 0 "s"; received])] []
    [MkLocalCopy "c0" 0 (from_start 0 "i") (from_start 0 "s") "init" (Finite 0) (Finite 0) "stage"]
    chunks chunks chunks 1 [(0, from_start 0 "i")] [] [] []
    [(t0, from_start 0 "s")] [(t0, received)] [] [(t0, value)] [] [(t0, value)]
    [(t0, (Finite 0, Finite one_us))].
End demo.

Lemma demo_staged_wf :
  NoDup (tr_id <$> sc_transfers demo_schedule) ∧ Forall transfer_wf (sc_transfers demo_schedule) ∧
  Forall copy_wf (bp_local_copies demo_staged).
Proof.
  split; [apply NoDup_singleton|]. split.
  - apply Forall_singleton. exact (proj1 demo_transfer_built).
  - apply Forall_singleton.
    refine (proj1 (LocalCopy_init_wf "c0" 0 (MkPhysicalRef 0 "i" 0 (Finite 0) PosInf)
      (MkPhysicalRef 0 "s" 0 (Finite 0) PosInf) "init" (PInt 0) (PInt 0) "stage" _ _)).
    vm_compute. reflexivity.
Qed.

Lemma lowering_deadlock_free_witness :
  ∃ p r, lower_threadblocks demo_schedule demo_staged = Ok p ∧
    lower_checked demo_schedule demo_staged = Ok p ∧
    simulate_endpoint_execution p = Ok r ∧ dr_deadlocked r = false ∧
    dr_completed_step_ids r = {["c0:copy"; "t0:s"; "t0:recv"]}%string.
Proof.
  destruct demo_staged_wf as (H1 & H2 & H3).
  destruct (lowering_deadlock_free demo_schedule demo_staged H1 H2 H3) as [_ H].
  destruct (lower_threadblocks demo_schedule demo_staged) as [p|] eqn:E;
    [|vm_compute in E; discriminate E].
  destruct (H p eq_refl) as (Hc & r & Hr & Hd & Hs). exists p, r.
  split_and!; [done..|]. rewrite Hs. vm_compute in E. injection E as <-. vm_compute. reflexivity.
Defined.

(** The graph of [demo_staged] has one edge, from the copy to the transfer. *)
Lemma demo_staged_edge program dag :
  lower_endpoints demo_schedule demo_staged = Ok program →
  build_transfer_dag program demo_schedule demo_staged = Ok dag →
  depends dag "c0" "t0" ∧ ¬ schedule_only dag "c0" "t0".
Proof.
  intros E1 E2.
  assert (H : match lower_endpoints demo_schedule demo_staged with
    | Ok program => match build_transfer_dag program demo_schedule demo_staged with
      | Ok dag => bool_decide ("c0"%string ∈ default ∅ (dag_predecessors dag !! "t0"%string)) &&
          match dag_edge_reasons dag !! ("c0"%string, "t0"%string) with
          | Some reasons => bool_decide ("buffer_init"%string ∈ reasons)
          | None => false
          end
      | Err _ => false end
    | Err _ => false end = true) by (vm_compute; reflexivity).
  rewrite E1, E2 in H. apply andb_true_iff in H as [Hd Hr]. apply bool_decide_eq_true in Hd.
  split; [exact Hd|]. intros (reasons & Hre & Hsub). rewrite Hre in Hr.
  apply bool_decide_eq_true, Hsub, elem_of_singleton in Hr. discriminate Hr.
Qed.

