(* ===== verification/Xml.v ===== *)
(** * XML documents

    Element trees, and the interface of the XML library: the code parses with
    [lxml.etree.fromstring] (blank text removed) and serializes with
    [lxml.etree.tostring]. *)

From Stdlib Require Import Ascii.
From S2P Require Import Prelude.
From S2P Require Import Python.
From S2P Require Import PyInt.
Local Open Scope Z_scope.

(** A node of a parsed document; [Other] is a comment, a processing instruction
    or an entity reference.  Attributes form a dictionary. *)
#[universes(template=no)]
Inductive xml : Type :=
  | Element (tag : string) (attrib : list (string * string)) (children : list xml)
  | Other.

Definition xml_tag (x : xml) : option string :=
  match x with Element tag _ _ => Some tag | Other => None end.
Definition xml_attrib (x : xml) : list (string * string) :=
  match x with Element _ attrib _ => attrib | Other => [] end.
Definition xml_children (x : xml) : list xml :=
  match x with Element _ _ children => children | Other => [] end.

Definition has_tag (tag : string) (x : xml) : bool := bool_decide (xml_tag x = Some tag).

(** [element.xpath("./tag")] *)
Definition child_elements (tag : string) (x : xml) : list xml :=
  filter (λ c, Is_true (has_tag tag c)) (xml_children x).

(** [bool(element.xpath(".//tag"))] *)
Fixpoint has_descendant (tag : string) (x : xml) : bool :=
  match x with
  | Element _ _ children => existsb (λ c, has_tag tag c || has_descendant tag c) children
  | Other => false
  end.

(** [element.attrib.get(name)] *)
Definition attribute (name : string) (x : xml) : option string := dict_get name (xml_attrib x).

(** Trees made of printable ASCII, with one value per attribute. *)
Fixpoint plain_xml (x : xml) : bool :=
  match x with
  | Element tag attrib children =>
      bool_decide (tag ≠ ""%string) && plain_string tag &&
      bool_decide (NoDup attrib.*1) &&
      forallb (λ '(k, v), bool_decide (k ≠ ""%string) && plain_string k && plain_string v) attrib &&
      forallb plain_xml children
  | Other => false
  end.

(** The two operations of the library that the code relies on. *)
Class XmlLibrary : Type := {
  xml_tostring : xml → string;
  xml_fromstring : string → option xml;
}.

(** Parsing a serialized plain tree, with trailing white space, gives it back. *)
Class XmlRoundTrip (L : XmlLibrary) : Prop :=
  xml_fromstring_tostring x :
    plain_xml x = true → xml_fromstring (xml_tostring x +:+ String "010"%char "") = Some x.
