(* ===== verification/Emitter.v ===== *)
(** * Emitting XML ([vericcl/xml/emitter.py])

    The element tree of a threadblock program and its text. *)

From Stdlib Require Import Ascii.
From S2P Require Import Prelude.
From S2P Require Import Python.
From S2P Require Import Collective.
From S2P Require Import InputModels.
From S2P Require Import XmlModel.
From S2P Require Import Endpoints.
From S2P Require Import Threadblocks.
From S2P Require Import Xml.
Local Open Scope Z_scope.

(** The values of [EndpointType]. *)
Definition type_value (t : EndpointType) : string :=
  match t with
  | SEND => "s" | RECV => "r" | RECV_REDUCE_COPY => "rrc" | COPY => "cpy" | NOP => "nop"
  end.

(** [str(value)] of an integer or [None] *)
Definition str_of_optional (value : option Z) : string :=
  match value with Some z => str_of_int z | None => "None" end.

(** Chunks per loop and bytes at run time; [rank_count * None] raises. *)
Definition _geometry (inputs : ResolvedInput) : res (option Z * Z) :=
  let rank_count := ri_rank_count inputs in
  let total := total_size_bytes (ri_hyperparameters inputs) in
  slices ← slice_count (ri_hyperparameters inputs);
  if decide (cs_kind (ri_collective inputs) = ALL_GATHER) then
    match slices with
    | None => Err (TypeError "unsupported operand type(s) for *")
    | Some slices => Ok (Some (rank_count * slices), rank_count * total)
    end
  else Ok (slices, total).

Notation TransferRefs := (list (string * (PhysicalRef * PhysicalRef))).

(** [next((ref(step) for step in steps if ref(step)), None)] *)
Definition first_ref (ref : XmlStep → option PhysicalRef) (steps : list XmlStep)
    : option PhysicalRef := head (omap ref steps).

(** [result[transfer_id] = source, destination] *)
Definition add_transfer_refs (message : string) (program : ThreadblockProgram)
    (result : TransferRefs) (item : string * list string) : res TransferRefs :=
  let '(transfer_id, step_ids) := item in
  steps ← mapR (λ id, of_option (dict_get id (tp_steps_by_id program)) (KeyError id)) step_ids;
  match first_ref xs_src_ref steps, first_ref xs_dst_ref steps with
  | Some source, Some destination => Ok (dict_set transfer_id (source, destination) result)
  | _, _ => Err (SemanticError message)
  end.

Definition transfer_refs (message : string) (program : ThreadblockProgram) : res TransferRefs :=
  foldM (add_transfer_refs message program) [] (tp_transfer_steps program).

Definition _communication_refs (program : ThreadblockProgram) : res TransferRefs :=
  transfer_refs "communication transfer references are incomplete" program.

Definition ref_pair (source destination : PhysicalRef) : string * Z * string * Z :=
  (pr_buffer source, pr_offset source, pr_buffer destination, pr_offset destination).

(** The addresses of a step. *)
Definition step_refs (copy_message accumulator_message : string) (step : XmlStep)
    (communication_refs : TransferRefs) (buffers : BufferPlan) : res (string * Z * string * Z) :=
  match xs_xml_type step with
  | NOP => Ok ("i"%string, -1, "o"%string, -1)
  | COPY =>
      match xs_src_ref step, xs_dst_ref step with
      | Some source, Some destination => Ok (ref_pair source destination)
      | _, _ => Err (SemanticError copy_message)
      end
  | _ =>
      '(source, destination) ←
        of_option (dict_get (xs_transfer_id step) communication_refs) (KeyError (xs_transfer_id step));
      source ← (if decide (xs_xml_type step = RECV_REDUCE_COPY) then
          of_option (dict_get (xs_transfer_id step) (bp_transfer_accumulator_refs buffers))
            (SemanticError accumulator_message)
        else Ok source);
      Ok (ref_pair source destination)
  end.

Definition _step_refs : XmlStep → TransferRefs → BufferPlan → res (string * Z * string * Z) :=
  step_refs "copy step references are incomplete" "reduction accumulator reference is missing".

(** [step_locations] *)
Definition step_locations (program : ThreadblockProgram) : list (string * (Z * Z)) :=
  dict_of_list (tb ← tp_threadblocks program;
    imap (λ index step, (xs_step_id step, (tb_tb_id tb, Z.of_nat index))) (tb_steps tb)).

(** [depid, deps] *)
Definition dependency_location (program : ThreadblockProgram) (step : XmlStep) : res (Z * Z) :=
  match xs_dependency_step_id step with
  | None => Ok (-1, -1)
  | Some id => of_option (dict_get id (step_locations program)) (KeyError id)
  end.

Definition flag (b : bool) : string := if b then "1" else "0".

Section emit.
Context (program : ThreadblockProgram) (buffers : BufferPlan) (inputs : ResolvedInput).

Definition emit_step (communication_refs : TransferRefs) (index : nat) (step : XmlStep) : res xml :=
  '(srcbuf, srcoff, dstbuf, dstoff) ← _step_refs step communication_refs buffers;
  '(depid, deps) ← dependency_location program step;
  Ok (Element "step"
    [("s"%string, str_of_int (Z.of_nat index)); ("type"%string, type_value (xs_xml_type step));
     ("srcbuf"%string, srcbuf); ("srcoff"%string, str_of_int srcoff);
     ("dstbuf"%string, dstbuf); ("dstoff"%string, str_of_int dstoff); ("cnt"%string, "1"%string);
     ("depid"%string, str_of_int depid); ("deps"%string, str_of_int deps);
     ("hasdep"%string, flag (xs_has_dependence step))] []).

(** The channel a threadblock is serialized with. *)
Definition serialized_channel (tb : Threadblock) : Z :=
  if decide (tk_direction (tb_key tb) = "copy"%string) then 0 else tk_channel (tb_key tb).

Definition emit_block (communication_refs : TransferRefs) (tb : Threadblock) : res xml :=
  steps ← mapR (λ '(index, step), emit_step communication_refs index step)
            (zip (seq 0 (length (tb_steps tb))) (tb_steps tb));
  Ok (Element "tb"
    [("id"%string, str_of_int (tb_tb_id tb)); ("send"%string, str_of_int (send_peer tb));
     ("recv"%string, str_of_int (recv_peer tb));
     ("chan"%string, str_of_int (serialized_channel tb))] steps).

(** [blocks_by_rank[rank]] *)
Definition rank_blocks (rank : Z) : list Threadblock :=
  sorted_by tb_tb_id (filter (λ tb, tk_rank (tb_key tb) = rank) (tp_threadblocks program)).

Definition chunk_attribute (name : string) (chunks : list (Z * Z)) (rank : Z)
    : res (string * string) :=
  count ← of_option (dict_get rank chunks) (KeyError name); Ok (name, str_of_int count).

Definition emit_gpu (communication_refs : TransferRefs) (rank : Z) : res xml :=
  i ← chunk_attribute "i_chunks" (bp_i_chunks buffers) rank;
  o ← chunk_attribute "o_chunks" (bp_o_chunks buffers) rank;
  s ← chunk_attribute "s_chunks" (bp_s_chunks buffers) rank;
  blocks ← mapR (emit_block communication_refs) (rank_blocks rank);
  Ok (Element "gpu" [("id"%string, str_of_int rank); i; o; s] blocks).

Definition ranks : list Z := seqZ 0 (ri_rank_count inputs).

(** [max(communication_channels, default=0) + 1] *)
Definition channel_count : Z :=
  match tk_channel ∘ tb_key <$>
        filter (λ tb, tk_direction (tb_key tb) ≠ "copy"%string) (tp_threadblocks program) with
  | [] => 0
  | c :: l => foldl Z.max c l
  end + 1.

(** The attributes of the root, without [nchannels]. *)
Definition root_attributes (chunks : option Z) (bytes : Z) : list (string * string) :=
  [("name"%string, "vericcl"%string); ("nchunksperloop"%string, str_of_optional chunks);
   ("proto"%string, "Simple"%string);
   ("coll"%string, kind_value (cs_kind (ri_collective inputs)));
   ("inplace"%string, flag (cs_inplace (ri_collective inputs))); ("redop"%string, "nop"%string);
   ("ngpus"%string, str_of_int (ri_rank_count inputs)); ("minBytes"%string, str_of_int bytes);
   ("maxBytes"%string, str_of_int (bytes + 1))].

Definition check_chunks : res unit :=
  iterM (λ field,
    raise_when (negb (bool_decide ((list_to_set field.*1 : gset Z) = list_to_set ranks)))
      (SemanticError "buffer chunk declarations must cover every rank"))
    [bp_i_chunks buffers; bp_o_chunks buffers; bp_s_chunks buffers].

(** The tree that [emit_xml] builds; attributes are in the order of the
    source, [nchannels] second. *)
Definition emit_tree : res xml :=
  check_chunks;;
  raise_when (existsb (λ tb, ri_rank_count inputs <=? tk_rank (tb_key tb)) (tp_threadblocks program))
    (SemanticError "threadblock rank is outside the input rank range");;
  '(chunks, bytes) ← _geometry inputs;
  communication_refs ← _communication_refs program;
  gpus ← mapR (emit_gpu communication_refs) ranks;
  let attributes := root_attributes chunks bytes in
  Ok (Element "algo"
    (take 1 attributes ++ [("nchannels"%string, str_of_int channel_count)] ++ drop 1 attributes)
    gpus).

Definition emit_xml `{XmlLibrary} : res string :=
  root ← emit_tree; Ok (xml_tostring root +:+ String "010"%char "").
End emit.
