(* ===== verification/Parser.v ===== *)
(** * Validating XML ([vericcl/xml/parser.py])

    [validate_xml] parses a document and compares it with the threadblock
    program and the buffer plan it was emitted from. *)

From S2P Require Import Prelude.
From S2P Require Import Python.
From S2P Require Import PyInt.
From S2P Require Import Collective.
From S2P Require Import InputModels.
From S2P Require Import XmlModel.
From S2P Require Import Endpoints.
From S2P Require Import Threadblocks.
From S2P Require Import Xml.
From S2P Require Import Emitter.
Local Open Scope Z_scope.

Definition _STEP_ATTRIBUTES : gset string :=
  {["s"; "type"; "srcbuf"; "srcoff"; "dstbuf"; "dstoff"; "cnt"; "depid"; "deps"; "hasdep"]}.

Definition _KNOWN_TYPES : list string :=
  type_value <$> [SEND; RECV; RECV_REDUCE_COPY; COPY; NOP].

Definition _parse `{XmlLibrary} (xml_text : string) : res xml :=
  raise_when (bool_decide (xml_text = ""%string))
    (SemanticError "xml_text must be a non-empty string");;
  root ← of_option (xml_fromstring xml_text) (SemanticError "XML is not well formed");
  raise_when (negb (has_tag "algo" root)) (SemanticError "XML root must be algo");;
  Ok root.

Definition _integer (element : xml) (name : string) : res Z :=
  value ← of_option (attribute name element)
    (SemanticError ("XML attribute " +:+ name +:+ " is missing"));
  of_option (py_int value) (SemanticError ("XML attribute " +:+ name +:+ " must be an integer")).

(** [node.attrib[name]] *)
Definition attribute_of (name : string) (element : xml) : res string :=
  of_option (attribute name element) (KeyError name).

Definition _buffer_limit (buffers : BufferPlan) (rank : Z) (buffer : string) : res Z :=
  chunks ← of_option (dict_get buffer
      [("i"%string, bp_i_chunks buffers); ("o"%string, bp_o_chunks buffers);
       ("s"%string, bp_s_chunks buffers)])
    (SemanticError "XML step uses an unknown buffer");
  of_option (dict_get rank chunks) (KeyError buffer).

Definition _sidecar_refs (program : ThreadblockProgram) : res TransferRefs :=
  transfer_refs "XML transfer sidecar references are incomplete" program.

Definition _expected_step_refs
    : XmlStep → TransferRefs → BufferPlan → res (string * Z * string * Z) :=
  step_refs "XML copy sidecar references are incomplete"
    "XML reduction accumulator sidecar reference is missing".

Definition checks_source (t : EndpointType) : bool :=
  bool_decide (t ∈ [SEND; RECV_REDUCE_COPY; COPY]).
Definition checks_destination (t : EndpointType) : bool :=
  bool_decide (t ∈ [RECV; RECV_REDUCE_COPY; COPY]).

(** [0 <= offset < _buffer_limit(...)], where the check applies. *)
Definition check_offset (buffers : BufferPlan) (rank : Z) (applies : bool) (buffer : string)
    (offset : Z) (message : string) : res unit :=
  if applies then
    if 0 <=? offset then
      limit ← _buffer_limit buffers rank buffer;
      raise_when (negb (offset <? limit)) (SemanticError message)
    else Err (SemanticError message)
  else Ok tt.

Notation Coordinate := (Z * Z * Z)%type.

(** The mutable locals of the traversal. *)
Record Scan : Type := MkScan {
  sn_represented : list (string * Coordinate);
  sn_coordinates : list (Coordinate * (Z * Z * XmlStep));
  sn_maximum_channel : Z;
}.

Section validate.
Context (program : ThreadblockProgram) (buffers : BufferPlan) (inputs : ResolvedInput).

(** The addresses of a step node. *)
Definition check_addresses (sidecar_refs : TransferRefs) (rank : Z) (node : xml) (step : XmlStep)
    : res unit :=
  srcbuf ← attribute_of "srcbuf" node;
  dstbuf ← attribute_of "dstbuf" node;
  srcoff ← _integer node "srcoff";
  dstoff ← _integer node "dstoff";
  _buffer_limit buffers rank srcbuf;;
  _buffer_limit buffers rank dstbuf;;
  expected ← _expected_step_refs step sidecar_refs buffers;
  raise_when (negb (bool_decide ((srcbuf, srcoff, dstbuf, dstoff) = expected)))
    (SemanticError "XML step address differs from the sidecar");;
  if decide (xs_xml_type step = NOP) then
    raise_when (negb (srcoff =? -1) || negb (dstoff =? -1))
      (SemanticError "XML NOP offsets must equal minus one")
  else
    check_offset buffers rank (checks_source (xs_xml_type step)) srcbuf srcoff
      "XML source offset is out of bounds";;
    check_offset buffers rank (checks_destination (xs_xml_type step)) dstbuf dstoff
      "XML destination offset is out of bounds".

Definition check_header (index : nat) (node : xml) (step : XmlStep) : res unit :=
  raise_when (negb (bool_decide
      ((list_to_set (xml_attrib node).*1 : gset string) = _STEP_ATTRIBUTES)))
    (SemanticError "XML step attributes are incomplete");;
  s ← _integer node "s";
  raise_when (negb (s =? Z.of_nat index)) (SemanticError "XML step IDs must be contiguous");;
  type ← attribute_of "type" node;
  raise_when (negb (bool_decide (type ∈ _KNOWN_TYPES)))
    (SemanticError "XML step type is unsupported");;
  raise_when (negb (bool_decide (type = type_value (xs_xml_type step))))
    (SemanticError "XML step type differs from the sidecar");;
  cnt ← _integer node "cnt";
  raise_when (negb (cnt =? 1)) (SemanticError "XML step cnt must equal one").

Definition validate_step (sidecar_refs : TransferRefs) (rank tb_id : Z) (st : Scan)
    (item : nat * (xml * XmlStep)) : res Scan :=
  let '(index, (node, step)) := item in
  check_header index node step;;
  check_addresses sidecar_refs rank node step;;
  depid ← _integer node "depid";
  deps ← _integer node "deps";
  raise_when (negb (eqb (depid <? 0) (deps <? 0)))
    (SemanticError "XML dependency coordinates are incomplete");;
  hasdep ← _integer node "hasdep";
  raise_when (negb (hasdep =? Z.b2z (xs_has_dependence step)))
    (SemanticError "XML completion flag differs from the sidecar");;
  let coordinate := (rank, tb_id, Z.of_nat index) in
  Ok (MkScan (dict_set (xs_step_id step) coordinate (sn_represented st))
        (dict_set coordinate (depid, deps, step) (sn_coordinates st)) (sn_maximum_channel st)).

(** [program_blocks] *)
Definition program_blocks : list ((Z * Z) * Threadblock) :=
  dict_of_list ((λ tb, (block_id tb, tb)) <$> tp_threadblocks program).

Definition validate_block (sidecar_refs : TransferRefs) (nchannels rank : Z) (st : Scan)
    (tb_node : xml) : res Scan :=
  tb_id ← _integer tb_node "id";
  tb ← of_option (dict_get (rank, tb_id) program_blocks)
    (SemanticError "XML contains an unknown threadblock");
  send ← _integer tb_node "send";
  recv ← _integer tb_node "recv";
  channel ← _integer tb_node "chan";
  raise_when (negb (send =? send_peer tb) || negb (recv =? recv_peer tb) ||
              negb (channel =? serialized_channel tb))
    (SemanticError "XML threadblock lane metadata is incorrect");;
  raise_when ((channel <? 0) || (nchannels <=? channel))
    (SemanticError "XML threadblock channel is out of range");;
  let step_nodes := child_elements "step" tb_node in
  raise_when (negb (length step_nodes =? length (tb_steps tb))%nat)
    (SemanticError "XML threadblock step count is incorrect");;
  foldM (validate_step sidecar_refs rank tb_id)
    (MkScan (sn_represented st) (sn_coordinates st) (sn_maximum_channel st `max` channel))
    (zip (seq 0 (length step_nodes)) (zip step_nodes (tb_steps tb))).

(** [expected_counts] *)
Definition expected_counts (rank : Z) : res (list (string * Z)) :=
  mapR (λ '(name, chunks),
      count ← of_option (dict_get rank chunks) (KeyError name); Ok (name, count))
    [("i_chunks"%string, bp_i_chunks buffers); ("o_chunks"%string, bp_o_chunks buffers);
     ("s_chunks"%string, bp_s_chunks buffers)].

Definition check_count (gpu : xml) (item : string * Z) : res unit :=
  actual ← _integer gpu item.1;
  raise_when (negb (actual =? item.2)) (SemanticError "XML GPU chunk declaration is incorrect").

Definition validate_gpu (sidecar_refs : TransferRefs) (nchannels : Z) (st : Scan) (gpu : xml)
    : res Scan :=
  rank ← _integer gpu "id";
  counts ← expected_counts rank;
  iterM (check_count gpu) counts;;
  raise_when (existsb (λ child, negb (has_tag "tb" child)) (xml_children gpu))
    (SemanticError "XML GPU contains an unsupported child");;
  let tb_nodes := child_elements "tb" gpu in
  tb_ids ← mapR (λ tb, _integer tb "id") tb_nodes;
  raise_when (negb (bool_decide (tb_ids = seqZ 0 (Z.of_nat (length tb_ids)))))
    (SemanticError "XML TB IDs must be contiguous per rank");;
  foldM (validate_block sidecar_refs nchannels rank) st tb_nodes.

Definition check_root (root : xml) : res Z :=
  '(chunks, bytes) ← _geometry inputs;
  iterM (λ '(name, value),
    raise_when (negb (bool_decide (attribute name root = Some value)))
      (SemanticError ("XML root attribute " +:+ name +:+ " is incorrect")))
    (root_attributes inputs chunks bytes);;
  nchannels ← _integer root "nchannels";
  raise_when (nchannels <? 1) (SemanticError "XML nchannels must be positive");;
  raise_when (has_descendant "copy" root) (SemanticError "XML must not contain a top-level copy");;
  raise_when (existsb (λ child, negb (has_tag "gpu" child)) (xml_children root))
    (SemanticError "XML algo contains an unsupported child");;
  gpu_ids ← mapR (λ gpu, _integer gpu "id") (child_elements "gpu" root);
  raise_when (negb (bool_decide (gpu_ids = ranks inputs)))
    (SemanticError "XML GPU IDs must be sorted and contiguous");;
  Ok nchannels.

(** The dependency that a coordinate declares, against the represented steps. *)
Definition check_dependency (st : Scan) (item : Coordinate * (Z * Z * XmlStep)) : res unit :=
  let '((rank, _, _), (depid, deps, step)) := item in
  expected ← match xs_dependency_step_id step with
    | None => Ok (-1, -1)
    | Some id =>
        '(dep_rank, dep_tb, dep_index) ← of_option (dict_get id (sn_represented st)) (KeyError id);
        raise_when (negb (dep_rank =? rank)) (SemanticError "XML dependency crosses ranks");;
        Ok (dep_tb, dep_index)
    end;
  raise_when (negb (bool_decide ((depid, deps) = expected)))
    (SemanticError "XML dependency differs from the sidecar");;
  raise_when ((0 <=? depid) && negb (present (dict_get (rank, depid, deps) (sn_coordinates st))))
    (SemanticError "XML dependency references a missing step").

Definition check_pair (st : Scan) (item : string * list string) : res unit :=
  let '(transfer_id, step_ids) := item in
  raise_when (negb (length step_ids =? 2)%nat ||
              negb (bool_decide ((list_to_set step_ids : gset string) ⊆
                                 list_to_set (sn_represented st).*1)))
    (SemanticError "XML transfer sidecar is incomplete");;
  types ← mapR (λ id, step ← of_option (dict_get id (tp_steps_by_id program)) (KeyError id);
                      Ok (xs_xml_type step)) step_ids;
  raise_when (negb (bool_decide (SEND ∈ types)) ||
              negb (existsb is_receive types))
    (SemanticError ("XML transfer " +:+ transfer_id +:+ " has incompatible endpoints")).

(** The comparison of a parsed document. *)
Definition validate_tree (root : xml) : res unit :=
  nchannels ← check_root root;
  sidecar_refs ← _sidecar_refs program;
  st ← foldM (validate_gpu sidecar_refs nchannels) (MkScan [] [] 0) (child_elements "gpu" root);
  raise_when (negb (sn_maximum_channel st + 1 =? nchannels))
    (SemanticError "XML nchannels does not match its threadblocks");;
  raise_when (negb (bool_decide ((list_to_set (sn_represented st).*1 : gset string) =
                                 list_to_set (tp_steps_by_id program).*1)))
    (SemanticError "XML steps do not match the sidecar");;
  iterM (check_dependency st) (sn_coordinates st);;
  iterM (check_pair st) (tp_transfer_steps program).

Definition validate_xml `{XmlLibrary} (xml_text : string) : res xml :=
  root ← _parse xml_text;
  validate_tree root;;
  Ok root.
End validate.
