(* ===== verification/EmitLaws.v ===== *)
(** * Emitted documents are valid

    [validate_xml] accepts the text of [emit_xml] whenever the threadblocks are
    numbered without gaps and every address lies inside its buffer. *)

From Stdlib Require Import Ascii.
From S2P Require Import Prelude.
From S2P Require Import Python.
From S2P Require Import PyInt.
From S2P Require Import Collective.
From S2P Require Import InputModels.
From S2P Require Import XmlModel.
From S2P Require Import Endpoints.
From S2P Require Import Threadblocks.
From S2P Require Import Xml.
From S2P Require Import Emitter.
From S2P Require Import Parser.
Local Open Scope Z_scope.

(** ** Reading what was written *)

Lemma integer_of x name z :
  attribute name x = Some (str_of_int z) → _integer x name = Ok z.
Proof. intros H. unfold _integer. rewrite H. simpl. by rewrite py_int_str. Qed.

Lemma integer_flag x name b :
  attribute name x = Some (flag b) → _integer x name = Ok (Z.b2z b).
Proof. intros H. unfold _integer. rewrite H. by destruct b. Qed.

(** The two readers of the sidecar differ in their messages only. *)
Lemma transfer_refs_message m m' program refs :
  transfer_refs m program = Ok refs → transfer_refs m' program = Ok refs.
Proof.
  unfold transfer_refs. generalize (tp_transfer_steps program).
  intros l. generalize ([] : TransferRefs). induction l as [|[id ids] l IH]; intros d H; simpl in *; [done|].
  apply bind_Ok in H as (d' & H1 & H2). apply bind_Ok in H1 as (steps & -> & H1).
  cbn [mbind res_bind]. destruct (first_ref xs_src_ref steps), (first_ref xs_dst_ref steps); try done.
  injection H1 as <-. cbn [mbind res_bind]. by apply IH.
Qed.

Lemma step_refs_message m1 m2 m1' m2' step refs buffers r :
  step_refs m1 m2 step refs buffers = Ok r → step_refs m1' m2' step refs buffers = Ok r.
Proof.
  unfold step_refs. intros H. destruct (xs_xml_type step); simpl in *; try done.
  - destruct (dict_get _ refs) as [[source destination]|]; [|done]. simpl in *.
    by destruct (dict_get _ (bp_transfer_accumulator_refs _)).
  - by destruct (xs_src_ref step), (xs_dst_ref step).
Qed.

Section emitted.
Context (p : ThreadblockProgram) (b : BufferPlan) (inputs : ResolvedInput).

(** The addresses of a step exist and, where they are used, fit the rank it
    runs on. *)
Definition address_ready (rank : Z) (refs : TransferRefs) (step : XmlStep) : Prop :=
  ∀ srcbuf srcoff dstbuf dstoff,
    _step_refs step refs b = Ok (srcbuf, srcoff, dstbuf, dstoff) →
    ∃ ls ld, _buffer_limit b rank srcbuf = Ok ls ∧ _buffer_limit b rank dstbuf = Ok ld ∧
      (checks_source (xs_xml_type step) = true → 0 ≤ srcoff < ls) ∧
      (checks_destination (xs_xml_type step) = true → 0 ≤ dstoff < ld).

Lemma check_offset_ready rank applies buffer offset limit message :
  _buffer_limit b rank buffer = Ok limit → (applies = true → 0 ≤ offset < limit) →
  check_offset b rank applies buffer offset message = Ok tt.
Proof.
  intros Hl Ha. unfold check_offset. destruct applies; [|done]. specialize (Ha eq_refl).
  rewrite (proj2 (Z.leb_le 0 offset)) by lia. rewrite Hl. cbn [mbind res_bind].
  by rewrite (proj2 (Z.ltb_lt offset limit)) by lia.
Qed.

(** ** Steps *)

(** Where [step] depends. *)
Definition dependency_of (step : XmlStep) : Z * Z :=
  match dependency_location p step with Ok d => d | Err _ => (-1, -1) end.

Definition add_step (rank tb_id : Z) (st : Scan) (item : nat * XmlStep) : Scan :=
  let '(index, step) := item in
  let coordinate := (rank, tb_id, Z.of_nat index) in
  MkScan (dict_set (xs_step_id step) coordinate (sn_represented st))
    (dict_set coordinate (dependency_of step, step) (sn_coordinates st)) (sn_maximum_channel st).

Lemma type_known t : type_value t ∈ _KNOWN_TYPES.
Proof. unfold _KNOWN_TYPES. apply list_elem_of_fmap_2. destruct t; set_solver. Qed.

Definition step_node (index : nat) (step : XmlStep) (address : string * Z * string * Z)
    (dependency : Z * Z) : xml :=
  let '(srcbuf, srcoff, dstbuf, dstoff) := address in
  Element "step"
    [("s"%string, str_of_int (Z.of_nat index)); ("type"%string, type_value (xs_xml_type step));
     ("srcbuf"%string, srcbuf); ("srcoff"%string, str_of_int srcoff);
     ("dstbuf"%string, dstbuf); ("dstoff"%string, str_of_int dstoff); ("cnt"%string, "1"%string);
     ("depid"%string, str_of_int dependency.1); ("deps"%string, str_of_int dependency.2);
     ("hasdep"%string, flag (xs_has_dependence step))] [].

Lemma check_header_emitted index step address dependency :
  check_header index (step_node index step address dependency) step = Ok tt.
Proof.
  destruct address as [[[srcbuf srcoff] dstbuf] dstoff]. unfold check_header.
  rewrite bool_decide_eq_true_2 by (vm_compute; reflexivity).
  rewrite (integer_of _ "s" (Z.of_nat index)) by reflexivity. cbn [negb raise_when mbind res_bind].
  rewrite Z.eqb_refl. cbn [negb raise_when mbind res_bind].
  change (attribute_of "type" _) with (Ok (type_value (xs_xml_type step))).
  cbn [mbind res_bind]. rewrite (bool_decide_eq_true_2 (_ ∈ _KNOWN_TYPES) (type_known _)).
  by rewrite bool_decide_eq_true_2.
Qed.

Lemma check_addresses_emitted refs rank index step address dependency :
  _step_refs step refs b = Ok address → address_ready rank refs step →
  check_addresses b refs rank (step_node index step address dependency) step = Ok tt.
Proof.
  destruct address as [[[srcbuf srcoff] dstbuf] dstoff]. intros Hrefs Hready.
  destruct (Hready _ _ _ _ Hrefs) as (ls & ld & Hls & Hld & Hsrc & Hdst). unfold check_addresses.
  change (attribute_of "srcbuf" _) with (Ok srcbuf). change (attribute_of "dstbuf" _) with (Ok dstbuf).
  rewrite (integer_of _ "srcoff" srcoff), (integer_of _ "dstoff" dstoff) by reflexivity.
  cbn [mbind res_bind]. rewrite Hls, Hld. cbn [mbind res_bind].
  unfold _expected_step_refs. erewrite step_refs_message by exact Hrefs. cbn [mbind res_bind].
  rewrite bool_decide_eq_true_2 by done. cbn [negb raise_when mbind res_bind].
  case_decide as Hnop.
  - unfold _step_refs, step_refs in Hrefs. rewrite Hnop in Hrefs. by injection Hrefs as <- <- <- <-.
  - rewrite (check_offset_ready rank _ srcbuf srcoff ls) by done. cbn [mbind res_bind].
    by apply (check_offset_ready rank _ dstbuf dstoff ld).
Qed.

Lemma validate_emitted_step refs rank tb_id st index step node :
  emit_step p b refs index step = Ok node → address_ready rank refs step →
  ((dependency_of step).1 < 0 ↔ (dependency_of step).2 < 0) →
  validate_step b refs rank tb_id st (index, (node, step)) =
    Ok (add_step rank tb_id st (index, step)).
Proof.
  intros H Hready Hsign. unfold emit_step in H. apply bind_Ok in H as (address & Hrefs & H).
  assert (Hnode : ∃ d, dependency_location p step = Ok d ∧ node = step_node index step address d).
  { destruct address as [[[srcbuf srcoff] dstbuf] dstoff].
    apply bind_Ok in H as ([depid deps] & -> & [= <-]). by eexists. }
  clear H. destruct Hnode as (d & Hdep & ->).
  assert (Hd : dependency_of step = d) by (unfold dependency_of; by rewrite Hdep).
  rewrite Hd in Hsign. unfold validate_step. rewrite check_header_emitted. cbn [mbind res_bind].
  rewrite check_addresses_emitted by done. cbn [mbind res_bind].
  rewrite (integer_of _ "depid" d.1), (integer_of _ "deps" d.2)
    by (by destruct address as [[[? ?] ?] ?]).
  cbn [mbind res_bind].
  assert (Heq : eqb (d.1 <? 0) (d.2 <? 0) = true).
  { destruct (Z.ltb_spec d.1 0), (Z.ltb_spec d.2 0); simpl; lia. }
  rewrite Heq. cbn [negb raise_when mbind res_bind].
  rewrite (integer_flag _ "hasdep" (xs_has_dependence step)) by (by destruct address as [[[? ?] ?] ?]).
  cbn [mbind res_bind]. rewrite Z.eqb_refl. cbn [negb raise_when mbind res_bind].
  unfold add_step. rewrite Hd. by destruct d.
Qed.

(** ** Threadblocks *)

Lemma validate_emitted_steps refs rank tb_id st k steps nodes :
  mapR (λ '(index, step), emit_step p b refs index step) (zip (seq k (length steps)) steps) = Ok nodes →
  (∀ step, step ∈ steps → address_ready rank refs step ∧
    ((dependency_of step).1 < 0 ↔ (dependency_of step).2 < 0)) →
  length nodes = length steps ∧ Forall (λ n, has_tag "step" n = true) nodes ∧
  foldM (validate_step b refs rank tb_id) st (zip (seq k (length steps)) (zip nodes steps)) =
    Ok (foldl (add_step rank tb_id) st (zip (seq k (length steps)) steps)).
Proof.
  revert k st nodes. induction steps as [|step steps IH]; intros k st nodes H Hall; simpl in *.
  { injection H as <-. done. }
  apply bind_Ok in H as (node & Hn & H). apply bind_Ok in H as (rest & Hr & [= <-]).
  destruct (Hall step) as [H1 H2]; [by left|].
  destruct (IH (S k) (add_step rank tb_id st (k, step)) rest Hr) as (L & T & F).
  { intros x Hx. apply Hall. by right. }
  cbn [length seq zip zip_with foldM foldl]. split; [by f_equal|]. split.
  - constructor; [|done]. unfold emit_step in Hn. apply bind_Ok in Hn as ([[[? ?] ?] ?] & _ & Hn).
    by apply bind_Ok in Hn as ([? ?] & _ & [= <-]).
  - rewrite (validate_emitted_step _ _ _ _ _ _ _ Hn H1 H2). cbn [mbind res_bind]. exact F.
Qed.

Definition add_block (rank : Z) (st : Scan) (tb : Threadblock) : Scan :=
  foldl (add_step rank (tb_tb_id tb))
    (MkScan (sn_represented st) (sn_coordinates st)
       (sn_maximum_channel st `max` serialized_channel tb))
    (zip (seq 0 (length (tb_steps tb))) (tb_steps tb)).

(** What the validator needs to know of a threadblock. *)
Record block_ready (refs : TransferRefs) (nchannels rank : Z) (tb : Threadblock) : Prop := {
  br_known : dict_get (rank, tb_tb_id tb) (program_blocks p) = Some tb;
  br_channel : 0 ≤ serialized_channel tb < nchannels;
  br_steps step : step ∈ tb_steps tb → address_ready rank refs step ∧
    ((dependency_of step).1 < 0 ↔ (dependency_of step).2 < 0);
}.

Lemma child_elements_all tag attrib nodes name :
  Forall (λ n, has_tag name n = true) nodes → child_elements name (Element tag attrib nodes) = nodes.
Proof.
  intros H. unfold child_elements. apply list_filter_all. eapply Forall_impl; [exact H|].
  intros n Hn. by apply Is_true_true.
Qed.

Lemma validate_emitted_block refs nchannels rank st tb node :
  emit_block p b refs tb = Ok node → block_ready refs nchannels rank tb →
  has_tag "tb" node = true ∧ _integer node "id" = Ok (tb_tb_id tb) ∧
  has_descendant "copy" node = false ∧
  validate_block p b refs nchannels rank st node = Ok (add_block rank st tb).
Proof.
  intros H [Hk Hc Hs]. unfold emit_block in H. apply bind_Ok in H as (nodes & Hn & [= <-]).
  destruct (validate_emitted_steps refs rank (tb_tb_id tb)
    (MkScan (sn_represented st) (sn_coordinates st)
       (sn_maximum_channel st `max` serialized_channel tb)) 0 (tb_steps tb) nodes Hn Hs)
    as (Hlen & Htags & Hfold).
  set (node := Element "tb" _ nodes).
  assert (Hid : _integer node "id" = Ok (tb_tb_id tb)) by (by apply integer_of).
  split; [done|]. split; [done|]. split.
  { apply existsb_none. apply mapR_Ok in Hn. intros n Hin.
    destruct (Forall2_elem_r _ _ _ _ Hn Hin) as ([i step] & _ & E). unfold emit_step in E.
    apply bind_Ok in E as ([[[? ?] ?] ?] & _ & E). by apply bind_Ok in E as ([? ?] & _ & [= <-]). }
  unfold validate_block. rewrite Hid. cbn [mbind res_bind]. rewrite Hk.
  cbn [of_option mbind res_bind].
  rewrite (integer_of node "send" (send_peer tb)), (integer_of node "recv" (recv_peer tb)),
    (integer_of node "chan" (serialized_channel tb)) by reflexivity.
  cbn [mbind res_bind]. rewrite !Z.eqb_refl. cbn [negb orb raise_when mbind res_bind].
  rewrite (proj2 (Z.ltb_ge _ 0)), (proj2 (Z.leb_gt nchannels _)) by lia.
  cbn [orb raise_when mbind res_bind]. unfold node. rewrite child_elements_all by done.
  rewrite Hlen, Nat.eqb_refl. cbn [negb raise_when mbind res_bind]. exact Hfold.
Qed.

(** ** GPUs *)

Definition add_gpu (st : Scan) (rank : Z) : Scan :=
  foldl (add_block rank) st (rank_blocks p rank).

Record gpu_ready (refs : TransferRefs) (nchannels rank : Z) : Prop := {
  gr_blocks tb : tb ∈ rank_blocks p rank → block_ready refs nchannels rank tb;
  gr_numbered : tb_tb_id <$> rank_blocks p rank = seqZ 0 (Z.of_nat (length (rank_blocks p rank)));
}.

Lemma validate_emitted_blocks refs nchannels rank st blocks nodes :
  mapR (emit_block p b refs) blocks = Ok nodes →
  (∀ tb, tb ∈ blocks → block_ready refs nchannels rank tb) →
  Forall (λ n, has_tag "tb" n = true) nodes ∧
  existsb (λ n, has_tag "copy" n || has_descendant "copy" n) nodes = false ∧
  mapR (λ n, _integer n "id") nodes = Ok (tb_tb_id <$> blocks) ∧
  foldM (validate_block p b refs nchannels rank) st nodes = Ok (foldl (add_block rank) st blocks).
Proof.
  revert st nodes. induction blocks as [|tb blocks IH]; intros st nodes H Hall; simpl in H.
  { by injection H as <-. }
  apply bind_Ok in H as (node & Hn & H). apply bind_Ok in H as (rest & Hr & [= <-]).
  destruct (validate_emitted_block refs nchannels rank st tb node Hn) as (T & I & D & V);
    [apply Hall; by left|].
  destruct (IH (add_block rank st tb) rest Hr) as (T' & D' & I' & V');
    [intros x Hx; apply Hall; by right|].
  split; [by constructor|]. split; [|split].
  - cbn [existsb]. rewrite D, D'. assert (Hne : has_tag "copy" node = false); [|by rewrite Hne].
    unfold has_tag in *. apply bool_decide_eq_true in T. rewrite T. done.
  - cbn [mapR]. rewrite I. cbn [mbind res_bind]. by rewrite I'.
  - cbn [foldM]. rewrite V. cbn [mbind res_bind]. exact V'.
Qed.

Lemma check_count_emitted gpu name count :
  attribute name gpu = Some (str_of_int count) → check_count gpu (name, count) = Ok tt.
Proof.
  intros H. unfold check_count. cbn [fst snd]. rewrite (integer_of _ _ _ H).
  cbn [mbind res_bind]. by rewrite Z.eqb_refl.
Qed.

Lemma validate_emitted_gpu refs nchannels rank st node :
  emit_gpu p b refs rank = Ok node → gpu_ready refs nchannels rank →
  has_tag "gpu" node = true ∧ _integer node "id" = Ok rank ∧ has_descendant "copy" node = false ∧
  validate_gpu p b refs nchannels st node = Ok (add_gpu st rank).
Proof.
  intros H [Hb Hnum]. unfold emit_gpu, chunk_attribute in H.
  apply bind_Ok in H as (i & Hi & H). apply bind_Ok in H as (o & Ho & H).
  apply bind_Ok in H as (s & Hs & H). apply bind_Ok in H as (nodes & Hn & [= <-]).
  apply bind_Ok in Hi as (ci & Hi & [= <-]). apply bind_Ok in Ho as (co & Ho & [= <-]).
  apply bind_Ok in Hs as (cs & Hs & [= <-]). apply of_option_Ok in Hi, Ho, Hs.
  destruct (validate_emitted_blocks refs nchannels rank st _ nodes Hn Hb) as (T & D & I & V).
  set (node := Element "gpu" _ nodes).
  assert (Hid : _integer node "id" = Ok rank) by (by apply integer_of).
  split; [done|]. split; [done|]. split; [exact D|].
  unfold validate_gpu, expected_counts. rewrite Hid. cbn [mbind res_bind mapR].
  rewrite Hi, Ho, Hs. cbn [of_option mbind res_bind iterM].
  rewrite (check_count_emitted node "i_chunks" ci), (check_count_emitted node "o_chunks" co),
    (check_count_emitted node "s_chunks" cs) by reflexivity.
  cbn [mbind res_bind]. assert (Hex : existsb (λ child, negb (has_tag "tb" child)) nodes = false).
  { apply existsb_none. rewrite Forall_forall in T. intros n Hn'. by rewrite (T n Hn'). }
  change (xml_children node) with nodes. rewrite Hex. cbn [raise_when mbind res_bind].
  assert (Hch : child_elements "tb" node = nodes) by (by apply child_elements_all).
  rewrite Hch, I. cbn [mbind res_bind].
  rewrite length_fmap, bool_decide_eq_true_2 by done. exact V.
Qed.

(** ** All steps *)

Definition block_entries (rank : Z) (tb : Threadblock) : list (XmlStep * Coordinate) :=
  (λ '(index, step), (step, (rank, tb_tb_id tb, Z.of_nat index))) <$>
    zip (seq 0 (length (tb_steps tb))) (tb_steps tb).

Definition gpu_entries (rank : Z) : list (XmlStep * Coordinate) :=
  rank_blocks p rank ≫= block_entries rank.

Definition represent (e : XmlStep * Coordinate) : string * Coordinate := (xs_step_id e.1, e.2).
Definition locate (e : XmlStep * Coordinate) : Coordinate * (Z * Z * XmlStep) :=
  (e.2, (dependency_of e.1, e.1)).

Definition set_all {K V} `{EqDecision K} (l d : list (K * V)) : list (K * V) :=
  foldl (λ d kv, dict_set kv.1 kv.2 d) d l.

(** [st'] is [st] with the steps of [entries] added. *)
Definition extends (entries : list (XmlStep * Coordinate)) (st st' : Scan) : Prop :=
  sn_represented st' = set_all (represent <$> entries) (sn_represented st) ∧
  sn_coordinates st' = set_all (locate <$> entries) (sn_coordinates st).

Lemma extends_app l1 l2 st1 st2 st3 :
  extends l1 st1 st2 → extends l2 st2 st3 → extends (l1 ++ l2) st1 st3.
Proof.
  intros [H1 H2] [H3 H4]. unfold extends, set_all in *.
  by rewrite !fmap_app, !foldl_app, <- H1, <- H2.
Qed.

Lemma add_steps_extends rank tb_id st items :
  extends ((λ '(index, step), (step, (rank, tb_id, Z.of_nat index))) <$> items) st
    (foldl (add_step rank tb_id) st items) ∧
  sn_maximum_channel (foldl (add_step rank tb_id) st items) = sn_maximum_channel st.
Proof.
  revert st. induction items as [|[k step] items IH]; intros st; [done|].
  destruct (IH (add_step rank tb_id st (k, step))) as [H Hm]. split; [|exact Hm].
  apply (extends_app [_] _ st (add_step rank tb_id st (k, step))); [done|exact H].
Qed.

Lemma add_block_extends rank st tb :
  extends (block_entries rank tb) st (add_block rank st tb) ∧
  sn_maximum_channel (add_block rank st tb) = sn_maximum_channel st `max` serialized_channel tb.
Proof.
  destruct (add_steps_extends rank (tb_tb_id tb)
    (MkScan (sn_represented st) (sn_coordinates st)
       (sn_maximum_channel st `max` serialized_channel tb))
    (zip (seq 0 (length (tb_steps tb))) (tb_steps tb))) as [H Hm].
  split; [exact H|exact Hm].
Qed.

Lemma add_gpu_extends st rank :
  extends (gpu_entries rank) st (add_gpu st rank) ∧
  sn_maximum_channel (add_gpu st rank) =
    foldl Z.max (sn_maximum_channel st) (serialized_channel <$> rank_blocks p rank).
Proof.
  unfold add_gpu, gpu_entries. revert st. generalize (rank_blocks p rank) as blocks.
  induction blocks as [|tb blocks IH]; intros st; [done|].
  destruct (add_block_extends rank st tb) as [H1 H2].
  destruct (IH (add_block rank st tb)) as [H3 H4]. csimpl. rewrite H4, H2. split; [|done].
  by eapply extends_app.
Qed.

Definition scanned (l : list Z) : Scan := foldl add_gpu (MkScan [] [] 0) l.
Definition scan_entries (l : list Z) : list (XmlStep * Coordinate) := l ≫= gpu_entries.

Lemma add_gpus_extends l st :
  extends (scan_entries l) st (foldl add_gpu st l) ∧
  sn_maximum_channel (foldl add_gpu st l) =
    foldl Z.max (sn_maximum_channel st) (serialized_channel <$> (l ≫= rank_blocks p)).
Proof.
  revert st. induction l as [|rank l IH]; intros st; [done|].
  destruct (add_gpu_extends st rank) as [H1 H2].
  destruct (IH (add_gpu st rank)) as [H3 H4]. csimpl. rewrite H4, H2, fmap_app, foldl_app.
  split; [|done]. by eapply extends_app.
Qed.

Lemma represented_scanned l : sn_represented (scanned l) = dict_of_list (represent <$> scan_entries l).
Proof. apply (add_gpus_extends l (MkScan [] [] 0)). Qed.

Lemma coordinates_scanned l : sn_coordinates (scanned l) = dict_of_list (locate <$> scan_entries l).
Proof. apply (add_gpus_extends l (MkScan [] [] 0)). Qed.
End emitted.

(** * The scan of an emitted document

    What [validate_tree] collects from an emitted tree is the table of the
    steps with their coordinates, so its last checks succeed as well. *)

Lemma bind_assoc {A B C} (f : A → list B) (g : B → list C) (l : list A) :
  (l ≫= f) ≫= g = l ≫= λ x, f x ≫= g.
Proof. induction l as [|x l IH]; csimpl; [done|]. by rewrite bind_app, IH. Qed.

Lemma fmap_bind {A B C} (f : A → list B) (g : B → C) (l : list A) :
  g <$> (l ≫= f) = l ≫= λ x, g <$> f x.
Proof. induction l as [|x l IH]; csimpl; [done|]. by rewrite fmap_app, IH. Qed.

Lemma zip_seq_snd {A} (l : list A) k : (zip (seq k (length l)) l).*2 = l.
Proof. apply snd_zip. by rewrite length_seq. Qed.

Lemma elem_of_zip_seq {A} (l : list A) i x :
  (i, x) ∈ zip (seq 0 (length l)) l ↔ l !! i = Some x.
Proof.
  rewrite list_elem_of_lookup. setoid_rewrite lookup_zip_with_Some. split.
  - intros (j & ? & ? & [= <- <-] & Hs & Hl). apply lookup_seq in Hs as [-> _]. done.
  - intros H. exists i, i, x. split_and!; [done| |done]. apply lookup_seq.
    by apply lookup_lt_Some in H.
Qed.

(** The least upper bound that [max] computes. *)
Lemma foldl_max_le a l m : foldl Z.max a l ≤ m ↔ a ≤ m ∧ Forall (λ x, x ≤ m) l.
Proof.
  revert a. induction l as [|x l IH]; intros a; simpl.
  - split; [by intros|by intros [??]].
  - rewrite IH, Forall_cons, Z.max_lub_iff. tauto.
Qed.

Section scan.
Context (p : ThreadblockProgram) (inputs : ResolvedInput).
Context (Hwf : program_wf p).
Context (Hranks : ∀ tb, tb ∈ tp_threadblocks p → tk_rank (tb_key tb) ∈ ranks inputs).

Notation blocks := (tp_threadblocks p).
Notation entries := (scan_entries p (ranks inputs)).
Notation final := (scanned p (ranks inputs)).

Lemma elem_of_rank_blocks rank tb :
  tb ∈ rank_blocks p rank ↔ tb ∈ blocks ∧ tk_rank (tb_key tb) = rank.
Proof. unfold rank_blocks. rewrite elem_of_sorted_by, list_elem_of_filter. naive_solver. Qed.

Lemma blocks_NoDup : NoDup blocks.
Proof. eapply NoDup_fmap_1, (pw_blocks p Hwf). Qed.

(** The GPUs partition the threadblocks. *)
Lemma blocks_partition : (ranks inputs ≫= rank_blocks p) ≡ₚ blocks.
Proof.
  apply NoDup_Permutation; [|apply blocks_NoDup|].
  - apply NoDup_bind; [| |apply NoDup_seqZ].
    + intros r1 r2 tb _ _ [_ <-]%elem_of_rank_blocks [_ <-]%elem_of_rank_blocks. done.
    + intros r _. apply NoDup_sorted_by, NoDup_filter, blocks_NoDup.
  - intros tb. rewrite list_elem_of_bind. setoid_rewrite elem_of_rank_blocks. split.
    + by intros (? & [? _] & _).
    + intros H. exists (tk_rank (tb_key tb)). auto.
Qed.

Lemma elem_of_entries step rank tb_id z :
  (step, (rank, tb_id, z)) ∈ entries ↔
  ∃ tb i, tb ∈ blocks ∧ block_id tb = (rank, tb_id) ∧ z = Z.of_nat i ∧ tb_steps tb !! i = Some step.
Proof.
  unfold scan_entries, gpu_entries, block_entries, block_id. rewrite list_elem_of_bind. split.
  - intros (r & (tb & H & Htb)%list_elem_of_bind & _).
    apply list_elem_of_fmap in H as ([i st] & [= -> -> -> ->] & H%elem_of_zip_seq).
    apply elem_of_rank_blocks in Htb as [Htb <-]. by exists tb, i.
  - intros (tb & i & Htb & [= <- <-] & -> & Hi). exists (tk_rank (tb_key tb)).
    split; [|by apply Hranks]. apply list_elem_of_bind. exists tb.
    split; [|by apply elem_of_rank_blocks]. apply list_elem_of_fmap. exists (i, step).
    split; [done|]. by apply elem_of_zip_seq.
Qed.

Lemma entries_steps : entries.*1 ≡ₚ program_steps blocks.
Proof.
  assert (E : entries.*1 = program_steps (ranks inputs ≫= rank_blocks p)).
  { unfold scan_entries, gpu_entries, program_steps. rewrite fmap_bind, bind_assoc.
    apply list_bind_ext; [|done]. intros r. rewrite fmap_bind. apply list_bind_ext; [|done].
    intros tb. unfold block_entries. rewrite <- list_fmap_compose.
    etrans; [|apply zip_seq_snd]. apply list_fmap_ext. by intros _ [i step] _. }
  rewrite E. unfold program_steps. by rewrite blocks_partition.
Qed.

Lemma represent_keys : (represent <$> entries).*1 ≡ₚ (tp_steps_by_id p).*1.
Proof.
  rewrite (pw_table p Hwf), <- entries_steps. rewrite <- !list_fmap_compose. done.
Qed.

Lemma represent_NoDup : NoDup (represent <$> entries).*1.
Proof.
  rewrite represent_keys, (pw_table p Hwf), <- list_fmap_compose. apply (pw_steps p Hwf).
Qed.

Lemma represented_final : sn_represented final = represent <$> entries.
Proof. rewrite represented_scanned. apply dict_of_list_nodup, represent_NoDup. Qed.

Lemma represented_step step coordinate :
  (step, coordinate) ∈ entries →
  dict_get (xs_step_id step) (sn_represented final) = Some coordinate.
Proof.
  intros H. rewrite represented_final. apply dict_get_Some_2; [apply represent_NoDup|].
  by apply (list_elem_of_fmap_2 represent _ (step, coordinate)).
Qed.

Lemma coordinate_present step coordinate :
  (step, coordinate) ∈ entries → present (dict_get coordinate (sn_coordinates final)) = true.
Proof.
  intros H. rewrite coordinates_scanned.
  assert (Hin : coordinate ∈ (locate p <$> entries).*1).
  { rewrite <- list_fmap_compose.
    by apply (list_elem_of_fmap_2 (fst ∘ locate p) _ (step, coordinate)). }
  apply dict_of_list_keys in Hin as [v ->]. done.
Qed.

(** ** Dependencies *)

Lemma step_location tb i step :
  tb ∈ blocks → tb_steps tb !! i = Some step →
  dict_get (xs_step_id step) (step_locations p) = Some (tb_tb_id tb, Z.of_nat i).
Proof.
  intros Htb Hi. unfold step_locations.
  set (l := (x ← blocks; imap (λ index step, (xs_step_id step, (tb_tb_id x, Z.of_nat index)))
    (tb_steps x))).
  assert (Hkeys : l.*1 = xs_step_id <$> program_steps blocks).
  { unfold l, program_steps. rewrite !fmap_bind. apply list_bind_ext; [|done]. intros x.
    rewrite fmap_imap. rewrite <- (imap_const xs_step_id). by apply imap_ext. }
  assert (Hnd : NoDup l.*1) by (rewrite Hkeys; apply (pw_steps p Hwf)).
  change (dict_of_list _) with (dict_of_list l). rewrite dict_of_list_nodup by done.
  apply dict_get_Some_2; [done|]. unfold l. apply list_elem_of_bind. exists tb. split; [|done].
  apply list_elem_of_lookup. exists i. by rewrite list_lookup_imap, Hi.
Qed.

Context (Hrank : ∀ tb step, tb ∈ blocks → step ∈ tb_steps tb → xs_rank step = tk_rank (tb_key tb)).

Lemma table_block d dep :
  dict_get d (tp_steps_by_id p) = Some dep →
  xs_step_id dep = d ∧ ∃ tb i, tb ∈ blocks ∧ tb_steps tb !! i = Some dep.
Proof.
  rewrite (pw_table p Hwf). intros (x & [= -> ->] & Hin)%dict_get_Some_1%list_elem_of_fmap.
  split; [done|]. unfold program_steps in Hin.
  apply list_elem_of_bind in Hin as (tb & Hin & Htb). apply list_elem_of_lookup in Hin as [i Hi].
  by exists tb, i.
Qed.

(** Where a step of [tb] depends: nowhere, or on a step of the same rank. *)
Lemma dependency_cases tb step :
  tb ∈ blocks → step ∈ tb_steps tb →
  (xs_dependency_step_id step = None ∧ dependency_of p step = (-1, -1)) ∨
  ∃ dep tb' i, xs_dependency_step_id step = Some (xs_step_id dep) ∧
    dependency_of p step = (tb_tb_id tb', Z.of_nat i) ∧
    (dep, (tk_rank (tb_key tb), tb_tb_id tb', Z.of_nat i)) ∈ entries.
Proof.
  intros Htb Hstep. unfold dependency_of, dependency_location.
  destruct (xs_dependency_step_id step) as [d|] eqn:Hd; [right|by left].
  assert (Hin : step ∈ program_steps blocks) by (apply list_elem_of_bind; eauto).
  destruct (pw_dependency p Hwf step d Hin Hd) as (dep & Hdep & Hr).
  destruct (table_block d dep Hdep) as (<- & tb' & i & Htb' & Hi).
  exists dep, tb', i. split; [done|]. rewrite (step_location tb' i dep) by done. split; [done|].
  apply elem_of_entries. exists tb', i. split_and!; try done.
  unfold block_id. f_equal. apply list_elem_of_lookup_2 in Hi.
  rewrite <- (Hrank tb' dep), <- (Hrank tb step); done.
Qed.

Lemma dependency_sign tb step :
  tb ∈ blocks → step ∈ tb_steps tb → (∀ tb, tb ∈ blocks → 0 ≤ tb_tb_id tb) →
  (dependency_of p step).1 < 0 ↔ (dependency_of p step).2 < 0.
Proof.
  intros Htb Hstep Hid.
  destruct (dependency_cases tb step Htb Hstep) as [[_ ->]|(dep & tb' & i & _ & -> & H)];
    simpl; [lia|].
  apply elem_of_entries in H as (x & j & Hx & [= _ E] & _). specialize (Hid x Hx). lia.
Qed.

Lemma check_dependency_final item :
  item ∈ sn_coordinates final → check_dependency final item = Ok tt.
Proof.
  rewrite coordinates_scanned.
  intros ([step [[rank tb_id] z]] & -> & Hin)%elem_of_dict_of_list%list_elem_of_fmap.
  apply elem_of_entries in Hin as (tb & k & Htb & [= <- <-] & -> & Hk).
  apply list_elem_of_lookup_2 in Hk. unfold check_dependency, locate. cbn [fst snd].
  destruct (dependency_cases tb step Htb Hk) as [[-> ->]|(dep & tb' & i & -> & -> & H)]; [done|].
  rewrite (represented_step dep _ H). cbn [of_option mbind res_bind].
  rewrite Z.eqb_refl. cbn [negb raise_when mbind res_bind].
  rewrite bool_decide_eq_true_2 by done. cbn [negb raise_when mbind res_bind].
  rewrite (coordinate_present dep _ H). cbn [negb]. by rewrite andb_false_r.
Qed.

(** ** Transfers *)

(** Every transfer maps to a send and a receive. *)
Definition typed_pairs : Prop := ∀ tid ids, (tid, ids) ∈ tp_transfer_steps p →
  ∃ send recv, ids = [xs_step_id send; xs_step_id recv] ∧
    send ∈ program_steps blocks ∧ recv ∈ program_steps blocks ∧
    xs_xml_type send = SEND ∧ is_receive (xs_xml_type recv) = true.

Lemma step_in_table step :
  step ∈ program_steps blocks → dict_get (xs_step_id step) (tp_steps_by_id p) = Some step.
Proof.
  intros H. rewrite (pw_table p Hwf). apply dict_get_Some_2.
  - rewrite <- list_fmap_compose. apply (pw_steps p Hwf).
  - by apply (list_elem_of_fmap_2 (λ step, (xs_step_id step, step))).
Qed.

Lemma check_pair_final item :
  typed_pairs → item ∈ tp_transfer_steps p → check_pair p final item = Ok tt.
Proof.
  destruct item as [tid ids]. intros Ht Hin.
  destruct (Ht tid ids Hin) as (send & recv & -> & Hs & Hr & Ts & Tr). unfold check_pair.
  cbn [length Nat.eqb negb orb]. rewrite bool_decide_eq_true_2.
  2:{ intros x. rewrite !elem_of_list_to_set, represented_final, represent_keys, (pw_table p Hwf).
      rewrite <- list_fmap_compose. intros [->|[->|[]%elem_of_nil]%elem_of_cons]%elem_of_cons;
        by apply (list_elem_of_fmap_2 xs_step_id). }
  cbn [negb raise_when mbind res_bind mapR]. rewrite !step_in_table by done.
  cbn [of_option mbind res_bind]. rewrite Ts. rewrite bool_decide_eq_true_2 by (by left).
  cbn [existsb]. rewrite Tr. by rewrite orb_true_r.
Qed.

(** ** Channels *)

Lemma maximum_channel :
  (∀ tb, tb ∈ blocks → tk_direction (tb_key tb) ≠ "copy"%string → 0 ≤ tk_channel (tb_key tb)) →
  sn_maximum_channel final + 1 = channel_count p.
Proof.
  intros Hpos. destruct (add_gpus_extends p (ranks inputs) (MkScan [] [] 0)) as [_ Hm].
  change (foldl (add_gpu p) _ _) with final in Hm. rewrite Hm. cbn [sn_maximum_channel].
  unfold channel_count. f_equal.
  set (l := filter _ blocks).
  assert (Hl : ∀ tb, tb ∈ l ↔ tk_direction (tb_key tb) ≠ "copy"%string ∧ tb ∈ blocks)
    by (intros tb; unfold l; by rewrite list_elem_of_filter).
  assert (H : ∀ m, foldl Z.max 0 (serialized_channel <$> (ranks inputs ≫= rank_blocks p)) ≤ m ↔
    0 ≤ m ∧ Forall (λ x, x ≤ m) (tk_channel ∘ tb_key <$> l)).
  { intros m. rewrite foldl_max_le, blocks_partition, !Forall_fmap, !Forall_forall.
    split; intros [H0 H]; (split; [done|]).
    - intros tb [Hc Hin]%Hl. specialize (H tb Hin). unfold compose, serialized_channel in *.
      by rewrite decide_False in H.
    - intros tb Hin. unfold compose, serialized_channel. case_decide; [done|].
      by apply (H tb), Hl. }
  assert (Hc : Forall (λ x, 0 ≤ x) (tk_channel ∘ tb_key <$> l)).
  { rewrite Forall_fmap, Forall_forall. intros tb [? ?]%Hl. by apply Hpos. }
  destruct (tk_channel ∘ tb_key <$> l) as [|c cs].
  { pose proof (proj2 (H 0) (conj (Z.le_refl 0) (Forall_nil_2 _))).
    pose proof (proj1 (proj1 (H _) (Z.le_refl _))). lia. }
  apply Forall_cons in Hc as [Hc _]. apply Z.le_antisymm.
  - apply H. rewrite Forall_cons. destruct (proj1 (foldl_max_le c cs _) (Z.le_refl _)).
    split; [lia|done].
  - apply foldl_max_le. pose proof (proj1 (H _) (Z.le_refl _)) as [_ Hf]. by apply Forall_cons in Hf.
Qed.
End scan.
