(* ===== verification/EmitValid.v ===== *)
(** * Emission followed by validation

    [validate_xml] accepts what [emit_xml] writes and reads back the same
    tree. *)

From Stdlib Require Import Ascii.
From S2P Require Import Prelude.
From S2P Require Import Python.
From S2P Require Import PyInt.
From S2P Require Import Collective.
From S2P Require Import InputModels.
From S2P Require Import XmlModel.
From S2P Require Import Endpoints.
From S2P Require Import Threadblocks.
From S2P Require Import Xml.
From S2P Require Import Emitter.
From S2P Require Import Parser.
From S2P Require Import EmitLaws.
Local Open Scope Z_scope.

Definition plain_buffer (name : string) : bool := bool_decide (name ∈ ["i"; "o"; "s"]%string).

(** The addresses of a step name buffers and, where they are used, lie inside
    the chunks of the rank. *)
Definition address_fits (b : BufferPlan) (rank : Z) (refs : TransferRefs) (step : XmlStep)
    : Prop :=
  ∀ srcbuf srcoff dstbuf dstoff,
    _step_refs step refs b = Ok (srcbuf, srcoff, dstbuf, dstoff) →
    plain_buffer srcbuf = true ∧ plain_buffer dstbuf = true ∧
    (checks_source (xs_xml_type step) = true →
       ∃ limit, _buffer_limit b rank srcbuf = Ok limit ∧ 0 ≤ srcoff < limit) ∧
    (checks_destination (xs_xml_type step) = true →
       ∃ limit, _buffer_limit b rank dstbuf = Ok limit ∧ 0 ≤ dstoff < limit).

(** The chunks of every buffer are declared for [rank]. *)
Definition declared (b : BufferPlan) (rank : Z) : Prop :=
  rank ∈ (bp_i_chunks b).*1 ∧ rank ∈ (bp_o_chunks b).*1 ∧ rank ∈ (bp_s_chunks b).*1.

Lemma buffer_limit_declared b rank name :
  declared b rank → plain_buffer name = true → ∃ limit, _buffer_limit b rank name = Ok limit.
Proof.
  intros (Hi & Ho & Hs) Hn. unfold plain_buffer in Hn. apply bool_decide_eq_true in Hn.
  assert (Hget : ∀ (l : list (Z * Z)), rank ∈ l.*1 → ∃ v, dict_get rank l = Some v).
  { intros l Hin. destruct (dict_get rank l) as [v|] eqn:E; [by exists v|].
    by apply dict_get_None in E. }
  apply Hget in Hi as [vi Hi], Ho as [vo Ho], Hs as [vs Hs].
  rewrite !elem_of_cons, elem_of_nil in Hn. destruct Hn as [->|[->|[->|[]]]].
  - exists vi. change (of_option (dict_get rank (bp_i_chunks b)) (KeyError "i") = Ok vi).
    by rewrite Hi.
  - exists vo. change (of_option (dict_get rank (bp_o_chunks b)) (KeyError "o") = Ok vo).
    by rewrite Ho.
  - exists vs. change (of_option (dict_get rank (bp_s_chunks b)) (KeyError "s") = Ok vs).
    by rewrite Hs.
Qed.

Lemma address_fits_ready b rank refs step :
  declared b rank → address_fits b rank refs step → address_ready b rank refs step.
Proof.
  intros Hd Hfit srcbuf srcoff dstbuf dstoff H.
  destruct (Hfit _ _ _ _ H) as (Hs & Hdst & Hsrc & Hdest).
  destruct (buffer_limit_declared b rank srcbuf Hd Hs) as [ls Hls].
  destruct (buffer_limit_declared b rank dstbuf Hd Hdst) as [ld Hld].
  exists ls, ld. split; [done|]. split; [done|]. split; intros Hc.
  - destruct (Hsrc Hc) as (l & Hl & ?). congruence.
  - destruct (Hdest Hc) as (l & Hl & ?). congruence.
Qed.

Section tree.
Context (p : ThreadblockProgram) (b : BufferPlan) (inputs : ResolvedInput).

(** What emission leaves to its caller. *)
Record emit_ready : Prop := {
  er_wf : program_wf p;
  er_ranks tb : tb ∈ tp_threadblocks p → 0 ≤ tk_rank (tb_key tb);
  er_channels tb : tb ∈ tp_threadblocks p → tk_direction (tb_key tb) ≠ "copy"%string →
    0 ≤ tk_channel (tb_key tb);
  er_numbered rank :
    tb_tb_id <$> rank_blocks p rank = seqZ 0 (Z.of_nat (length (rank_blocks p rank)));
  er_rank tb step : tb ∈ tp_threadblocks p → step ∈ tb_steps tb →
    xs_rank step = tk_rank (tb_key tb);
  er_pairs : typed_pairs p;
  er_addresses refs tb step : _communication_refs p = Ok refs →
    tb ∈ tp_threadblocks p → step ∈ tb_steps tb →
    address_fits b (tk_rank (tb_key tb)) refs step;
}.

Context (Hready : emit_ready).

Lemma emit_in_range :
  existsb (λ tb, ri_rank_count inputs <=? tk_rank (tb_key tb)) (tp_threadblocks p) = false →
  ∀ tb, tb ∈ tp_threadblocks p → tk_rank (tb_key tb) ∈ ranks inputs.
Proof.
  intros H tb Hin. unfold ranks. apply elem_of_seqZ.
  rewrite existsb_none in H. specialize (H tb Hin). cbv beta in H.
  apply Z.leb_gt in H. pose proof (er_ranks Hready tb Hin). lia.
Qed.

Lemma tb_id_nonneg tb : tb ∈ tp_threadblocks p → 0 ≤ tb_tb_id tb.
Proof.
  intros Hin. assert (H : tb_tb_id tb ∈ tb_tb_id <$> rank_blocks p (tk_rank (tb_key tb))).
  { apply list_elem_of_fmap_2. by apply elem_of_rank_blocks. }
  rewrite (er_numbered Hready) in H. apply elem_of_seqZ in H. lia.
Qed.

Lemma known_block tb :
  tb ∈ tp_threadblocks p → dict_get (block_id tb) (program_blocks p) = Some tb.
Proof.
  intros Hin. unfold program_blocks.
  assert (Hnd : NoDup ((λ tb, (block_id tb, tb)) <$> tp_threadblocks p).*1).
  { rewrite <- list_fmap_compose. apply (pw_blocks p (er_wf Hready)). }
  rewrite dict_of_list_nodup by done. apply dict_get_Some_2; [done|].
  by apply (list_elem_of_fmap_2 (λ tb, (block_id tb, tb))).
Qed.

Lemma serialized_channel_bounds tb :
  (∀ tb, tb ∈ tp_threadblocks p → tk_rank (tb_key tb) ∈ ranks inputs) →
  tb ∈ tp_threadblocks p → 0 ≤ serialized_channel tb < channel_count p.
Proof.
  intros Hr Hin. rewrite <- (maximum_channel p inputs (er_wf Hready) Hr (er_channels Hready)).
  destruct (add_gpus_extends p (ranks inputs) (MkScan [] [] 0)) as [_ Hm].
  change (foldl (add_gpu p) _ _) with (scanned p (ranks inputs)) in Hm. rewrite Hm.
  cbn [sn_maximum_channel].
  match goal with |- _ ≤ _ < ?m + 1 => destruct (proj1 (foldl_max_le 0 _ m) (Z.le_refl _)) as [H0 H] end.
  rewrite Forall_forall in H. split.
  - unfold serialized_channel. case_decide; [done|]. by apply (er_channels Hready).
  - apply Z.lt_succ_r, H, list_elem_of_fmap_2.
    rewrite (blocks_partition p inputs (er_wf Hready) Hr). done.
Qed.

Lemma gpu_is_ready refs rank :
  (∀ tb, tb ∈ tp_threadblocks p → tk_rank (tb_key tb) ∈ ranks inputs) →
  (∀ rank, rank ∈ ranks inputs → declared b rank) →
  _communication_refs p = Ok refs → gpu_ready p b refs (channel_count p) rank.
Proof.
  intros Hr Hdec Hrefs. constructor; [|apply (er_numbered Hready)].
  intros tb [Hin <-]%elem_of_rank_blocks. constructor.
  - by apply (known_block tb).
  - by apply serialized_channel_bounds.
  - intros step Hs. 
    split; [apply address_fits_ready; [by apply Hdec, Hr|by apply (er_addresses Hready)]|].
    by eapply (dependency_sign p inputs (er_wf Hready) Hr (er_rank Hready)); eauto using tb_id_nonneg.
Qed.

Lemma validate_emitted_gpus refs st l nodes :
  mapR (emit_gpu p b refs) l = Ok nodes →
  (∀ rank, gpu_ready p b refs (channel_count p) rank) →
  Forall (λ n, has_tag "gpu" n = true) nodes ∧
  existsb (λ n, has_tag "copy" n || has_descendant "copy" n) nodes = false ∧
  mapR (λ n, _integer n "id") nodes = Ok l ∧
  foldM (validate_gpu p b refs (channel_count p)) st nodes = Ok (foldl (add_gpu p) st l).
Proof.
  intros H Hall. revert st nodes H. induction l as [|rank l IH]; intros st nodes H; simpl in H.
  { by injection H as <-. }
  apply bind_Ok in H as (node & Hn & H). apply bind_Ok in H as (rest & Hr & [= <-]).
  destruct (validate_emitted_gpu p b refs (channel_count p) rank st node Hn (Hall rank))
    as (T & I & D & V).
  destruct (IH (add_gpu p st rank) rest Hr) as (T' & D' & I' & V').
  split; [by constructor|]. split; [|split].
  - cbn [existsb]. rewrite D, D'. assert (Hne : has_tag "copy" node = false); [|by rewrite Hne].
    unfold has_tag in *. apply bool_decide_eq_true in T. rewrite T. done.
  - cbn [mapR]. rewrite I. cbn [mbind res_bind]. by rewrite I'.
  - cbn [foldM]. rewrite V. cbn [mbind res_bind]. exact V'.
Qed.

Lemma channel_count_pos : 
  (∀ tb, tb ∈ tp_threadblocks p → tk_rank (tb_key tb) ∈ ranks inputs) → 1 ≤ channel_count p.
Proof.
  intros Hr. rewrite <- (maximum_channel p inputs (er_wf Hready) Hr (er_channels Hready)).
  destruct (add_gpus_extends p (ranks inputs) (MkScan [] [] 0)) as [_ Hm].
  change (foldl (add_gpu p) _ _) with (scanned p (ranks inputs)) in Hm. rewrite Hm.
  cbn [sn_maximum_channel].
  match goal with |- _ ≤ ?m + 1 => destruct (proj1 (foldl_max_le 0 _ m) (Z.le_refl _)) as [H0 _] end.
  lia.
Qed.

(** The root of the emitted tree. *)
Definition root_node (chunks : option Z) (bytes : Z) (gpus : list xml) : xml :=
  Element "algo"
    (take 1 (root_attributes inputs chunks bytes) ++
     [("nchannels"%string, str_of_int (channel_count p))] ++
     drop 1 (root_attributes inputs chunks bytes)) gpus.

Lemma check_root_emitted chunks bytes gpus :
  (∀ tb, tb ∈ tp_threadblocks p → tk_rank (tb_key tb) ∈ ranks inputs) →
  _geometry inputs = Ok (chunks, bytes) →
  Forall (λ n, has_tag "gpu" n = true) gpus →
  existsb (λ n, has_tag "copy" n || has_descendant "copy" n) gpus = false →
  mapR (λ n, _integer n "id") gpus = Ok (ranks inputs) →
  child_elements "gpu" (root_node chunks bytes gpus) = gpus ∧
  check_root inputs (root_node chunks bytes gpus) = Ok (channel_count p).
Proof.
  intros Hr Hg Ht Hc Hi. set (root := root_node chunks bytes gpus).
  assert (Hch : child_elements "gpu" root = gpus) by (by apply child_elements_all).
  split; [exact Hch|]. unfold check_root. rewrite Hg. cbn [mbind res_bind].
  assert (Ha : iterM (λ '(name, value), raise_when
      (negb (bool_decide (attribute name root = Some value)))
      (SemanticError ("XML root attribute " +:+ name +:+ " is incorrect")))
    (root_attributes inputs chunks bytes) = Ok tt).
  { unfold root_attributes. cbn [iterM].
    repeat (rewrite bool_decide_eq_true_2 by reflexivity; cbn [negb raise_when mbind res_bind]).
    reflexivity. }
  rewrite Ha. cbn [mbind res_bind].
  rewrite (integer_of root "nchannels" (channel_count p)) by reflexivity. cbn [mbind res_bind].
  rewrite (proj2 (Z.ltb_ge _ 1)) by (by apply channel_count_pos).
  cbn [raise_when mbind res_bind].
  change (has_descendant "copy" root) with
    (existsb (λ n, has_tag "copy" n || has_descendant "copy" n) gpus).
  rewrite Hc. cbn [raise_when mbind res_bind].
  assert (Hex : existsb (λ child, negb (has_tag "gpu" child)) gpus = false).
  { apply existsb_none. rewrite Forall_forall in Ht. intros n Hn. by rewrite (Ht n Hn). }
  change (xml_children root) with gpus. rewrite Hex. cbn [raise_when mbind res_bind].
  rewrite Hch, Hi. cbn [mbind res_bind]. by rewrite bool_decide_eq_true_2.
Qed.

Lemma emit_tree_Ok root :
  emit_tree p b inputs = Ok root →
  ∃ chunks bytes refs gpus, _geometry inputs = Ok (chunks, bytes) ∧
    _communication_refs p = Ok refs ∧ mapR (emit_gpu p b refs) (ranks inputs) = Ok gpus ∧
    root = root_node chunks bytes gpus ∧
    (∀ tb, tb ∈ tp_threadblocks p → tk_rank (tb_key tb) ∈ ranks inputs) ∧
    ∀ rank, rank ∈ ranks inputs → declared b rank.
Proof.
  unfold emit_tree. intros H. apply bind_Ok in H as ([] & Hchunks & H).
  apply bind_Ok in H as ([] & Hr & H). apply raise_when_Ok in Hr.
  apply bind_Ok in H as ([chunks bytes] & Hg & H). apply bind_Ok in H as (refs & Hrefs & H).
  apply bind_Ok in H as (gpus & Hgpus & [= <-]). exists chunks, bytes, refs, gpus.
  split_and!; try done; [by apply emit_in_range|].
  apply iterM_Ok in Hchunks. intros rank Hin.
  repeat (apply Forall_cons in Hchunks as [?Hc Hchunks]). unfold declared.
  repeat match goal with H : raise_when _ _ = Ok _ |- _ => apply raise_when_Ok in H end.
  bool_prop. assert (Hs : rank ∈ (list_to_set (ranks inputs) : gset Z)) by (by apply elem_of_list_to_set).
  split_and!; match goal with |- rank ∈ ?l => apply (elem_of_list_to_set (C := gset Z) rank l) end;
    match goal with H : ?x = list_to_set (ranks inputs) |- rank ∈ ?x => by rewrite H end.
Qed.

Lemma validate_emitted_tree root :
  emit_tree p b inputs = Ok root → validate_tree p b inputs root = Ok tt.
Proof.
  intros (chunks & bytes & refs & gpus & Hg & Hrefs & Hgpus & -> & Hr & Hdec)%emit_tree_Ok.
  destruct (validate_emitted_gpus refs (MkScan [] [] 0) _ _ Hgpus) as (T & D & I & V).
  { intros rank. by apply gpu_is_ready. }
  destruct (check_root_emitted chunks bytes gpus Hr Hg T D I) as [Hch Hroot].
  unfold validate_tree. rewrite Hroot. cbn [mbind res_bind].
  assert (Hs : _sidecar_refs p = Ok refs) by (by eapply transfer_refs_message, Hrefs).
  rewrite Hs, Hch. cbn [mbind res_bind]. rewrite V. cbn [mbind res_bind].
  change (foldl (add_gpu p) _ _) with (scanned p (ranks inputs)).
  rewrite (maximum_channel p inputs (er_wf Hready) Hr (er_channels Hready)), Z.eqb_refl.
  cbn [negb raise_when mbind res_bind].
  rewrite bool_decide_eq_true_2.
  2:{ apply leibniz_equiv. rewrite (represented_final p inputs (er_wf Hready) Hr).
      by rewrite (represent_keys p inputs (er_wf Hready) Hr). }
  cbn [negb raise_when mbind res_bind].
  assert (Hdep : iterM (check_dependency (scanned p (ranks inputs)))
    (sn_coordinates (scanned p (ranks inputs))) = Ok tt).
  { apply iterM_Ok, Forall_forall. intros item Hin.
    by apply (check_dependency_final p inputs (er_wf Hready) Hr (er_rank Hready)). }
  rewrite Hdep. cbn [mbind res_bind]. apply iterM_Ok, Forall_forall. intros item Hin.
  apply (check_pair_final p inputs (er_wf Hready) Hr); [apply (er_pairs Hready)|done].
Qed.
End tree.

(** ** The text *)

Lemma plain_element tag attrib children :
  tag ≠ ""%string → plain_string tag = true → NoDup attrib.*1 →
  Forall (λ '(k, v), k ≠ ""%string ∧ plain_string k = true ∧ plain_string v = true) attrib →
  Forall (λ x, plain_xml x = true) children →
  plain_xml (Element tag attrib children) = true.
Proof.
  intros Ht Hp Hn Ha Hc. cbn [plain_xml]. rewrite !andb_true_iff. split_and!.
  - by apply bool_decide_eq_true.
  - done.
  - by apply bool_decide_eq_true.
  - rewrite forallb_forall. rewrite Forall_forall in Ha.
    intros [k v] Hin%list_elem_of_In. destruct (Ha _ Hin) as (? & -> & ->).
    rewrite !andb_true_r. by apply bool_decide_eq_true.
  - rewrite forallb_forall. rewrite Forall_forall in Hc. intros x Hin%list_elem_of_In. by apply Hc.
Qed.

Lemma plain_flag f : plain_string (flag f) = true.
Proof. by destruct f. Qed.

Lemma plain_type t : plain_string (type_value t) = true.
Proof. by destruct t. Qed.

Lemma plain_kind k : plain_string (kind_value k) = true.
Proof. by destruct k. Qed.

Lemma plain_of_buffer name : plain_buffer name = true → plain_string name = true.
Proof.
  unfold plain_buffer. rewrite bool_decide_eq_true. rewrite !elem_of_cons, elem_of_nil.
  by intros [->|[->|[->|[]]]].
Qed.

Lemma plain_optional z : plain_string (str_of_optional z) = true.
Proof. destruct z; [apply plain_str|done]. Qed.

#[local] Hint Resolve plain_str plain_flag plain_type plain_kind plain_of_buffer plain_optional : plain.

Ltac plain_attributes :=
  repeat (apply Forall_cons; split; [split; [discriminate|split; [reflexivity|eauto with plain]]|]);
  apply Forall_nil_2.

Section text.
Context (p : ThreadblockProgram) (b : BufferPlan) (inputs : ResolvedInput).
Context (Hready : emit_ready p b).

Lemma plain_step refs index step node :
  _communication_refs p = Ok refs → step ∈ program_steps (tp_threadblocks p) →
  emit_step p b refs index step = Ok node → plain_xml node = true.
Proof.
  intros Hrefs Hin H. apply bind_Ok in H as ([[[srcbuf srcoff] dstbuf] dstoff] & Ha & H).
  apply bind_Ok in H as ([depid deps] & _ & [= <-]).
  apply list_elem_of_bind in Hin as (tb & Hin & Htb).
  destruct (er_addresses p b Hready _ _ _ Hrefs Htb Hin _ _ _ _ Ha) as (Hs & Hd & _).
  apply plain_element; [done|done|apply (bool_decide_unpack _); by vm_compute| |done].
  plain_attributes.
Qed.

Lemma plain_block refs tb node :
  _communication_refs p = Ok refs → tb ∈ tp_threadblocks p →
  emit_block p b refs tb = Ok node → plain_xml node = true.
Proof.
  intros Hrefs Hin H. apply bind_Ok in H as (steps & Hs & [= <-]).
  apply plain_element; [done|done|apply (bool_decide_unpack _); by vm_compute|plain_attributes|].
  apply mapR_Ok in Hs. rewrite Forall_forall. intros n Hn.
  destruct (Forall2_elem_r _ _ _ _ Hs Hn) as ([i step] & Hi%elem_of_zip_seq & E).
  eapply plain_step; [done| |exact E]. apply list_elem_of_bind. exists tb.
  split; [by eapply list_elem_of_lookup_2|done].
Qed.

Lemma plain_gpu refs rank node :
  _communication_refs p = Ok refs → emit_gpu p b refs rank = Ok node → plain_xml node = true.
Proof.
  intros Hrefs H. apply bind_Ok in H as (i & Hi & H). apply bind_Ok in H as (o & Ho & H).
  apply bind_Ok in H as (s & Hs & H). apply bind_Ok in H as (nodes & Hn & [= <-]).
  apply bind_Ok in Hi as (ci & _ & [= <-]). apply bind_Ok in Ho as (co & _ & [= <-]).
  apply bind_Ok in Hs as (cs & _ & [= <-]).
  apply plain_element; [done|done|apply (bool_decide_unpack _); by vm_compute|plain_attributes|].
  apply mapR_Ok in Hn. rewrite Forall_forall. intros n Hin.
  destruct (Forall2_elem_r _ _ _ _ Hn Hin) as (tb & [Htb _]%elem_of_rank_blocks & E).
  by eapply plain_block.
Qed.

Lemma plain_tree root : emit_tree p b inputs = Ok root → plain_xml root = true.
Proof.
  intros (chunks & bytes & refs & gpus & _ & Hrefs & Hgpus & -> & _ & _)%(emit_tree_Ok p b inputs Hready).
  unfold root_node, root_attributes. cbn [take drop app].
  apply plain_element; [done|done|apply (bool_decide_unpack _); by vm_compute| |].
  - plain_attributes.
  - apply mapR_Ok in Hgpus. rewrite Forall_forall. intros n Hin.
    destruct (Forall2_elem_r _ _ _ _ Hgpus Hin) as (rank & _ & E). by eapply plain_gpu.
Qed.

Lemma text_nonempty s c : s +:+ String c "" ≠ ""%string.
Proof. by destruct s. Qed.

Lemma emit_ready_validates (L : XmlLibrary) (HL : XmlRoundTrip L) text :
  emit_xml p b inputs = Ok text →
  ∃ root, emit_tree p b inputs = Ok root ∧ validate_xml p b inputs text = Ok root.
Proof.
  unfold emit_xml. intros (root & Hroot & [= <-])%bind_Ok. exists root. split; [done|].
  unfold validate_xml, _parse. rewrite bool_decide_eq_false_2 by apply text_nonempty.
  cbn [raise_when mbind res_bind]. rewrite xml_fromstring_tostring by (by apply plain_tree).
  cbn [of_option mbind res_bind].
  assert (Htag : has_tag "algo" root = true).
  { apply (emit_tree_Ok p b inputs Hready) in Hroot as (? & ? & ? & ? & _ & _ & _ & -> & _ & _). done. }
  rewrite Htag. cbn [negb raise_when mbind res_bind].
  by rewrite (validate_emitted_tree p b inputs Hready root Hroot).
Qed.
End text.
