(* ===== verification/LowerEmit.v ===== *)
(** * From schedules to valid documents

    What lowering returns is ready for emission, so the text of a lowered
    schedule always passes its validation. *)

From Stdlib Require Import Ascii.
From S2P Require Import Prelude.
From S2P Require Import Python.
From S2P Require Import PyInt.
From S2P Require Import Collective.
From S2P Require Import InputModels.
From S2P Require Import Atom.
From S2P Require Import AtomLaws.
From S2P Require Import XmlModel.
From S2P Require Import Endpoints.
From S2P Require Import EndpointLaws.
From S2P Require Import Threadblocks.
From S2P Require Import Deadlock.
From S2P Require Import DeadlockFree.
From S2P Require Import Liveness.
From S2P Require Import LivenessLaws.
From S2P Require Import Dependencies.
From S2P Require Import DependencyLaws.
From S2P Require Import ListScheduler.
From S2P Require Import ListSchedulerLaws.
From S2P Require Import Compatibility.
From S2P Require Import SchedulerSound.
From S2P Require Import Lower.
From S2P Require Import Xml.
From S2P Require Import Emitter.
From S2P Require Import Parser.
From S2P Require Import EmitLaws.
From S2P Require Import EmitValid.
Local Open Scope Z_scope.

(** ** Numbering *)

Lemma renumber_rank_ids blocks blocks' :
  renumber_rank blocks = Ok blocks' →
  tb_tb_id <$> blocks' = seqZ 0 (Z.of_nat (length blocks')).
Proof.
  unfold renumber_rank. change 0 with (Z.of_nat 0). generalize 0%nat. revert blocks'.
  induction blocks as [|tb blocks IH]; intros blocks' n H; simpl in H; [by injection H as <-|].
  apply bind_Ok in H as (tb' & Htb & H). apply bind_Ok in H as (rest & Hr & [= <-]).
  apply Threadblock_init_Ok in Htb as [-> _]. csimpl. rewrite (IH rest (S n) Hr).
  rewrite (seqZ_cons (Z.of_nat n)) by lia. f_equal. f_equal; lia.
Qed.

Notation on_rank rank := (λ tb, tk_rank (tb_key tb) = rank).

Lemma filter_on_rank rank r blocks :
  (∀ tb, tb ∈ blocks → tk_rank (tb_key tb) = r) →
  filter (on_rank rank) blocks = if decide (r = rank) then blocks else [].
Proof.
  intros H. case_decide as E.
  - apply list_filter_all, Forall_forall. intros tb Hin. by rewrite (H tb Hin).
  - induction blocks as [|tb blocks IH]; [done|]. rewrite filter_cons_False.
    + apply IH. intros x Hx. apply H. by right.
    + rewrite (H tb); [done|by left].
Qed.

(** The blocks of a rank after renumbering. *)
Lemma renumbered_rank program rs ordered rank :
  NoDup rs → Forall2 (λ r blocks, renumber_rank (rank_order program r) = Ok blocks) rs ordered →
  (rank ∉ rs → filter (on_rank rank) (concat ordered) = []) ∧
  tb_tb_id <$> filter (on_rank rank) (concat ordered) =
    seqZ 0 (Z.of_nat (length (filter (on_rank rank) (concat ordered)))).
Proof.
  intros Hnd H. induction H as [|r blocks rs ordered Hb _ IH]; [done|].
  apply NoDup_cons in Hnd as [Hr Hnd]. destruct (IH Hnd) as [IH1 IH2]. simpl.
  rewrite filter_app, (filter_on_rank rank r).
  2:{ intros tb' Hin. apply renumber_rank_Ok in Hb as Hb'.
      destruct (Forall2_elem_r _ _ _ _ Hb' Hin) as (tb & Htb & -> & _).
      by apply elem_of_rank_order in Htb as [_ ?]. }
  case_decide as E.
  - subst r. rewrite IH1, app_nil_r by done. split; [|by apply renumber_rank_ids in Hb].
    rewrite elem_of_cons. naive_solver.
  - rewrite app_nil_l. split; [|done]. rewrite elem_of_cons. naive_solver.
Qed.

Lemma seqZ_sorted (blocks : list Threadblock) n m :
  tb_tb_id <$> blocks = seqZ n m → StronglySorted (key_le tb_tb_id) blocks.
Proof.
  revert n m. induction blocks as [|tb blocks IH]; intros n m H; [constructor|]; csimpl in *.
  constructor.
  - destruct (decide (0 < m)) as [Hm|Hm].
    + rewrite seqZ_cons in H by lia. injection H as _ H. by eapply IH.
    + by rewrite seqZ_nil in H by lia.
  - destruct (decide (0 < m)) as [Hm|Hm]; [|by rewrite seqZ_nil in H by lia].
    rewrite seqZ_cons in H by lia. injection H as E H. apply Forall_forall. intros x Hx.
    assert (Hin : tb_tb_id x ∈ seqZ (Z.succ n) (Z.pred m))
      by (rewrite <- H; by apply (list_elem_of_fmap_2 tb_tb_id)).
    apply elem_of_seqZ in Hin.
    unfold key_le. rewrite pleb_pltb, pltb_Z. apply negb_true_iff, Z.ltb_ge. lia.
Qed.

Lemma renumber_numbered program program' rank :
  renumber_dependent_threadblocks program = Ok program' →
  tb_tb_id <$> rank_blocks program' rank =
    seqZ 0 (Z.of_nat (length (rank_blocks program' rank))).
Proof.
  unfold renumber_dependent_threadblocks. cbv zeta. intros H.
  apply bind_Ok in H as (ordered & Ho & H). apply mapR_Ok in Ho.
  apply ThreadblockProgram_init_Ok in H as (_ & Htb & _). unfold rank_blocks. rewrite Htb.
  apply (renumbered_rank program _ ordered rank) in Ho as [_ E];
    [|apply NoDup_sorted_by, NoDup_elements].
  by rewrite (sorted_by_id _ _ (seqZ_sorted _ _ _ E)).
Qed.

(** ** The references of a transfer *)

Lemma transfer_refs_get m p refs tid ids steps src dst :
  transfer_refs m p = Ok refs → NoDup (tp_transfer_steps p).*1 → (tid, ids) ∈ tp_transfer_steps p →
  mapR (λ id, of_option (dict_get id (tp_steps_by_id p)) (KeyError id)) ids = Ok steps →
  first_ref xs_src_ref steps = Some src → first_ref xs_dst_ref steps = Some dst →
  dict_get tid refs = Some (src, dst).
Proof.
  intros H Hnd Hin Hsteps Hsrc Hdst. unfold transfer_refs in H.
  pose proof Hin as Hgoal. revert H Hgoal.
  apply (foldM_ind (λ don d, (tid, ids) ∈ don → dict_get tid d = Some (src, dst)));
    [by intros ?%elem_of_nil|].
  intros don [tid' ids'] d d' IH Hin' E. unfold add_transfer_refs in E.
  apply bind_Ok in E as (steps' & Hs' & E).
  destruct (first_ref xs_src_ref steps') as [src'|] eqn:E1; [|done].
  destruct (first_ref xs_dst_ref steps') as [dst'|] eqn:E2; [|done]. injection E as <-.
  rewrite dict_get_set, elem_of_app, list_elem_of_singleton. case_decide as Heq.
  - subst tid'. intros _. apply (dict_get_Some_2 _ _ _ Hnd) in Hin, Hin'.
    rewrite Hin in Hin'. congruence.
  - intros [?|[= -> _]]; [auto|done].
Qed.

Section lowered.
Context (s : Schedule) (b : BufferPlan) (program : EndpointProgram) (dag : TransferDAG).
Context (p : ThreadblockProgram) (o : list string) (self : Lowering).
Context (Hts : Forall transfer_wf (sc_transfers s)) (Hcs : Forall copy_wf (bp_local_copies b)).
Context (Hl : lowering s b program) (Hnp : nodes_paired program dag).
Context (Hlw : lowered program dag p o self).
Context (Hbounds : ∀ ref, ref ∈ _all_refs b → in_bounds b ref ∧ 0 ≤ pr_offset ref).
Context (Hacc : ∀ t ref, t ∈ sc_transfers s →
  dict_get (tr_id t) (bp_transfer_accumulator_refs b) = Some ref → pr_rank ref = tr_dst t).

Lemma endpoint_cases e :
  e ∈ epp_endpoints program →
  (∃ t src dst, t ∈ sc_transfers s ∧ dict_get (tr_id t) (bp_transfer_src_refs b) = Some src ∧
     pr_rank src = tr_src t ∧ dict_get (tr_id t) (bp_transfer_dst_refs b) = Some dst ∧
     pr_rank dst = tr_dst t ∧ (tr_id t, [send_of t src; recv_of t dst]) ∈ epp_by_transfer_id program ∧
     (e = send_of t src ∨ e = recv_of t dst)) ∨
  (∃ c st ed, c ∈ bp_local_copies b ∧ e = copy_of c st ed).
Proof.
  destruct Hl as (ends & cs & He & Hc & _ & _ & ->). simpl.
  intros [(l & Hin & Hel)%elem_of_concat|Hin]%elem_of_app.
  - left. destruct (zip_elem_r tr_id _ _ _ _ He Hin) as (t & Ht & Hz & src & dst & ? & ? & ? & ? & ->).
    exists t, src, dst. split_and!; try done. set_solver.
  - right. destruct (Forall2_elem_r _ _ _ _ Hc Hin) as (c & Hc' & st & ed & _ & _ & ->). eauto.
Qed.

Lemma communication_refs_of t src dst refs :
  (tr_id t, [send_of t src; recv_of t dst]) ∈ epp_by_transfer_id program →
  _communication_refs p = Ok refs → dict_get (tr_id t) refs = Some (src, dst).
Proof.
  intros Hin Hrefs.
  destruct (transfer_pair program dag p o self Hnp Hlw _ _ Hin)
    as (send & recv & st1 & st2 & n & [= <- <-] & S1 & S2 & (I1 & _ & _ & P1) &
        (I2 & _ & _ & P2) & _).
  pose proof (lw_wf _ _ _ _ _ Hlw) as Hwf.
  eapply (transfer_refs_get _ p refs (tr_id t) [xs_step_id st1; xs_step_id st2] [st1; st2]);
    [exact Hrefs| | | | |].
  - rewrite (lw_transfers _ _ _ _ _ Hlw). unfold transfer_step_ids.
    rewrite <- list_fmap_compose. apply (np_transfers _ _ Hnp).
  - rewrite (lw_transfers _ _ _ _ _ Hlw), I1, I2. unfold transfer_step_ids.
    apply list_elem_of_fmap. by exists (tr_id t, [send_of t src; recv_of t dst]).
  - cbn [mapR]. by rewrite !(step_in_table p Hwf) by done.
  - injection P1 as _ P1 _. injection P2 as _ P2 _. unfold first_ref. simpl. by rewrite P1.
  - injection P1 as _ _ P1. injection P2 as _ _ P2. unfold first_ref. simpl. by rewrite P1, P2.
Qed.

Lemma limit_of ref :
  ref ∈ _all_refs b → plain_buffer (pr_buffer ref) = true ∧
  ∃ limit, _buffer_limit b (pr_rank ref) (pr_buffer ref) = Ok limit ∧ 0 ≤ pr_offset ref < limit.
Proof.
  intros Hin. destruct (Hbounds ref Hin) as [(counts & n & Hc & Hn & Hlt) Hpos].
  unfold chunk_counts in Hc. apply of_option_Ok in Hc. split.
  - apply bool_decide_eq_true. apply dict_get_Some_1 in Hc.
    apply (list_elem_of_fmap_2 fst) in Hc. exact Hc.
  - exists n. unfold _buffer_limit. rewrite Hc. cbn [of_option mbind res_bind]. by rewrite Hn.
Qed.

Lemma transfer_ref_in (d : list (string * PhysicalRef)) id ref :
  dict_get id d = Some ref → ref ∈ d.*2.
Proof. intros H%dict_get_Some_1. by apply (list_elem_of_fmap_2 snd) in H. Qed.

Lemma all_refs_src ref : ref ∈ (bp_transfer_src_refs b).*2 → ref ∈ _all_refs b.
Proof. unfold _all_refs. rewrite !elem_of_app. tauto. Qed.
Lemma all_refs_dst ref : ref ∈ (bp_transfer_dst_refs b).*2 → ref ∈ _all_refs b.
Proof. unfold _all_refs. rewrite !elem_of_app. tauto. Qed.
Lemma all_refs_acc ref : ref ∈ (bp_transfer_accumulator_refs b).*2 → ref ∈ _all_refs b.
Proof. unfold _all_refs. rewrite !elem_of_app. tauto. Qed.
Lemma all_refs_copy c :
  c ∈ bp_local_copies b → lc_src_ref c ∈ _all_refs b ∧ lc_dst_ref c ∈ _all_refs b.
Proof.
  intros H. unfold _all_refs. rewrite !elem_of_app, !list_elem_of_bind.
  split; right; right; left; exists c; (split; [set_solver|done]).
Qed.

(** The addresses of the steps of a rank. *)
Lemma pair_fits refs rank step source destination :
  _step_refs step refs b = Ok (ref_pair source destination) →
  source ∈ _all_refs b → destination ∈ _all_refs b →
  (checks_source (xs_xml_type step) = true → pr_rank source = rank) →
  (checks_destination (xs_xml_type step) = true → pr_rank destination = rank) →
  address_fits b rank refs step.
Proof.
  intros E Hs Hd Rs Rd srcbuf srcoff dstbuf dstoff E'. rewrite E in E'.
  injection E' as <- <- <- <-. destruct (limit_of source Hs) as (Ps & ls & Ls & ?).
  destruct (limit_of destination Hd) as (Pd & ld & Ld & ?).
  split; [done|]. split; [done|]. split; intros Hc.
  - rewrite (Rs Hc) in Ls. by exists ls.
  - rewrite (Rd Hc) in Ld. by exists ld.
Qed.

Lemma step_fits refs step :
  _communication_refs p = Ok refs → step ∈ program_steps (tp_threadblocks p) →
  address_fits b (xs_rank step) refs step.
Proof.
  intros Hrefs Hin. destruct (step_origin program dag p o self Hlw step Hin) as (step0 & [_ _ He] & Hss).
  destruct Hss as (_ & _ & Et & Er & _ & Ep).
  destruct He as [Hnop|(e & [He _] & _ & T & R & P)].
  { intros srcbuf srcoff dstbuf dstoff E. unfold _step_refs, step_refs in E. rewrite Et, Hnop in *.
    injection E as <- <- <- <-. done. }
  rewrite <- Et in T. rewrite <- Er in R. rewrite <- Ep in P. injection P as P1 P2 P3.
  destruct (endpoint_cases e He) as [(t & src & dst & Ht & Hsrc & Rs & Hdst & Rd & Hends & Hor)|
    (c & st & ed & Hc & ->)].
  - pose proof (communication_refs_of t src dst refs Hends Hrefs) as Hget.
    assert (Hs : src ∈ _all_refs b) by (eapply all_refs_src, transfer_ref_in, Hsrc).
    assert (Hd : dst ∈ _all_refs b) by (eapply all_refs_dst, transfer_ref_in, Hdst).
    destruct Hor as [->| ->]; simpl in *.
    + apply (pair_fits _ _ _ src dst); rewrite ?T; [|done|done|congruence|done].
      unfold _step_refs, step_refs. rewrite T, P1, Hget. cbn [of_option mbind res_bind].
      by rewrite decide_False.
    + unfold expected_recv in T. case_decide as Hk.
      * destruct (dict_get (tr_id t) (bp_transfer_accumulator_refs b)) as [acc|] eqn:Ha.
        -- apply (pair_fits _ _ _ acc dst); rewrite ?T.
           ++ unfold _step_refs, step_refs. rewrite T, P1, Hget. cbn [of_option mbind res_bind].
              rewrite decide_True by done. by rewrite Ha.
           ++ eapply all_refs_acc, transfer_ref_in, Ha.
           ++ done.
           ++ intros _. rewrite R. by apply (Hacc t).
           ++ congruence.
        -- intros srcbuf srcoff dstbuf dstoff E. unfold _step_refs, step_refs in E.
           rewrite T, P1, Hget in E. cbn [of_option mbind res_bind] in E.
           rewrite decide_True, Ha in E by done. done.
      * apply (pair_fits _ _ _ src dst); rewrite ?T; [|done|done|done|congruence].
        unfold _step_refs, step_refs. rewrite T, P1, Hget. cbn [of_option mbind res_bind].
        by rewrite decide_False.
  - simpl in *. destruct (all_refs_copy c Hc) as [Hs Hd].
    rewrite Forall_forall in Hcs. destruct (Hcs c Hc) as [_ _ Cs Cd _ _ _].
    apply (pair_fits _ _ _ (lc_src_ref c) (lc_dst_ref c)); rewrite ?T; [|done|done|congruence|congruence].
    unfold _step_refs, step_refs. by rewrite T, P2, P3.
Qed.

Lemma lowered_pairs : typed_pairs p.
Proof.
  intros tid ids Hin. rewrite (lw_transfers _ _ _ _ _ Hlw) in Hin.
  apply list_elem_of_fmap in Hin as ([tid' ends] & [= -> ->] & Hin).
  destruct (transfer_pair program dag p o self Hnp Hlw _ _ Hin)
    as (send & recv & st1 & st2 & n & -> & S1 & S2 & (I1 & T1 & _) & (I2 & T2 & _) & _).
  destruct (np_transfer _ _ Hnp _ _ Hin) as (send' & recv' & n' & [= <- <-] & _ & _ & _ & _ & Ts & Tr & _).
  exists st1, st2. csimpl. rewrite I1, I2, T1, T2. done.
Qed.

Lemma lowered_emit_ready :
  (∀ rank, tb_tb_id <$> rank_blocks p rank = seqZ 0 (Z.of_nat (length (rank_blocks p rank)))) →
  emit_ready p b.
Proof.
  intros Hnum. constructor.
  - apply (lw_wf _ _ _ _ _ Hlw).
  - intros tb Htb. destruct (lw_blocks _ _ _ _ _ Hlw tb Htb) as (_ & _ & Hk).
    by apply (li_valid _ _ _ _ (self_inv _ _ _ _ _ Hlw)) in Hk as [? _].
  - intros tb Htb. destruct (lw_blocks _ _ _ _ _ Hlw tb Htb) as (_ & _ & Hk).
    by apply (li_valid _ _ _ _ (self_inv _ _ _ _ _ Hlw)) in Hk as [_ ?].
  - done.
  - intros tb step Htb. by apply (lw_blocks _ _ _ _ _ Hlw tb Htb).
  - apply lowered_pairs.
  - intros refs tb step Hrefs Htb Hst. destruct (lw_blocks _ _ _ _ _ Hlw tb Htb) as (_ & Hr & _).
    rewrite <- (Hr step Hst). apply step_fits; [done|]. apply list_elem_of_bind. by exists tb.
Qed.
End lowered.

Lemma lower_emit_ready s b inputs p :
  NoDup (tr_id <$> sc_transfers s) → Forall transfer_wf (sc_transfers s) →
  Forall copy_wf (bp_local_copies b) → Forall (λ ref, 0 ≤ pr_offset ref) (_all_refs b) →
  (∀ t ref, t ∈ sc_transfers s →
     dict_get (tr_id t) (bp_transfer_accumulator_refs b) = Some ref → pr_rank ref = tr_dst t) →
  verify_buffer_liveness s b inputs = Ok tt → lower_threadblocks s b = Ok p → emit_ready p b.
Proof.
  intros Hnd Hts Hcs Hpos Hacc Hv Hlow.
  destruct (lower_threadblocks_Ok s b p Hnd Hts Hcs Hlow)
    as (program & dag & o & self & Hp & _ & _ & Hnp & Hlw).
  apply (lower_endpoints_lowering s b program Hnd Hts Hcs) in Hp.
  pose proof (verify_safe s b inputs Hnd Hv) as Hsafe. rewrite Forall_forall in Hpos.
  apply (lowered_emit_ready s b program dag p o self); try done.
  - intros ref Href. split; [by apply (ps_bounds _ _ _ Hsafe)|by apply Hpos].
  - intros rank. unfold lower_threadblocks in Hlow. apply bind_Ok in Hlow as (? & _ & Hlow).
    apply bind_Ok in Hlow as (? & _ & Hlow). apply bind_Ok in Hlow as (q & _ & Hlow).
    by apply (renumber_numbered q).
Qed.

(** ** The theorem *)

(** C16 Emitted documents are valid.  For a schedule and a buffer plan that
    passed their checks, with accumulators on the ranks of their transfers:
    whenever emission of the lowered program returns a text, the text parses
    back to the very tree that was emitted and passes every check of
    [validate_xml] - attributes, addresses and their bounds, threadblock and
    step numbering, dependencies, channels and transfer pairs.  This holds for
    every XML library that parses what it printed. *)
Theorem emitted_document_valid (L : XmlLibrary) (HL : XmlRoundTrip L) s b inputs p text :
  NoDup (tr_id <$> sc_transfers s) → Forall transfer_wf (sc_transfers s) →
  Forall copy_wf (bp_local_copies b) → Forall (λ ref, 0 ≤ pr_offset ref) (_all_refs b) →
  (∀ t ref, t ∈ sc_transfers s →
     dict_get (tr_id t) (bp_transfer_accumulator_refs b) = Some ref → pr_rank ref = tr_dst t) →
  verify_buffer_liveness s b inputs = Ok tt → lower_threadblocks s b = Ok p →
  emit_xml p b inputs = Ok text →
  ∃ root, emit_tree p b inputs = Ok root ∧ validate_xml p b inputs text = Ok root.
Proof.
  intros Hnd Hts Hcs Hpos Hacc Hv Hlow. apply emit_ready_validates; [|done].
  by apply (lower_emit_ready s b inputs).
Qed.

(** ** A library that satisfies the interface

    It prints a tree as the bits of its code. *)

Module Bits.
Fixpoint to_tree (x : xml) : gen_tree (string * list (string * string)) :=
  match x with
  | Element tag attrib children =>
      GenNode 0 (GenLeaf (tag, attrib) :: (to_tree <$> children))
  | Other => GenNode 1 []
  end.

Fixpoint of_tree (t : gen_tree (string * list (string * string))) : xml :=
  match t with
  | GenNode 0 (GenLeaf (tag, attrib) :: children) => Element tag attrib (of_tree <$> children)
  | _ => Other
  end.

Fixpoint of_to (x : xml) : of_tree (to_tree x) = x.
Proof.
  destruct x as [tag attrib children|]; [|reflexivity]. cbn. f_equal.
  induction children as [|c children IH]; [reflexivity|]. cbn. by rewrite of_to, IH.
Qed.

Fixpoint print (n : positive) : string :=
  match n with
  | xH => ""
  | xO n => String "0" (print n)
  | xI n => String "1" (print n)
  end.

Fixpoint scan (s : string) : positive :=
  match s with
  | String c s => if decide (c = "0"%char) then xO (scan s)
                  else if decide (c = "1"%char) then xI (scan s) else xH
  | EmptyString => xH
  end.

Lemma scan_print n : scan (print n +:+ String "010" "") = n.
Proof. induction n as [n IH|n IH|]; simpl; [by rewrite IH..|done]. Qed.

#[local] Instance library : XmlLibrary := {|
  xml_tostring x := print (encode (to_tree x));
  xml_fromstring s := of_tree <$> decode (scan s);
|}.

#[local] Instance round_trip : XmlRoundTrip library.
Proof.
  intros x _. simpl. rewrite scan_print, decode_encode. simpl. by rewrite of_to.
Qed.
End Bits.

Lemma demo_plan_copy : copy_wf
  (MkLocalCopy "c0" 0 (MkPhysicalRef 0 "i" 0 (Finite 0) PosInf)
     (MkPhysicalRef 0 "o" 0 (Finite 0) PosInf) "init" (Finite 0) (Finite 0) "output").
Proof.
  refine (proj1 (LocalCopy_init_wf "c0" 0 (MkPhysicalRef 0 "i" 0 (Finite 0) PosInf)
    (MkPhysicalRef 0 "o" 0 (Finite 0) PosInf) "init" (PInt 0) (PInt 0) "output" _ _)).
  vm_compute. reflexivity.
Qed.

Lemma emitted_document_valid_witness :
  ∃ p root text, lower_threadblocks demo_schedule demo_plan = Ok p ∧
    emit_tree p demo_plan demo_inputs = Ok root ∧
    emit_xml (H := Bits.library) p demo_plan demo_inputs = Ok text ∧
    validate_xml (H := Bits.library) p demo_plan demo_inputs text = Ok root.
Proof.
  destruct (lower_threadblocks demo_schedule demo_plan) as [p|] eqn:Hp;
    [|vm_compute in Hp; discriminate Hp].
  destruct (emit_tree p demo_plan demo_inputs) as [root|] eqn:Hroot.
  2:{ exfalso. vm_compute in Hp. injection Hp as <-. vm_compute in Hroot. discriminate Hroot. }
  eexists p, root, _. split; [reflexivity|]. split; [exact Hroot|].
  assert (Ht : emit_xml (H := Bits.library) p demo_plan demo_inputs =
    Ok (xml_tostring (XmlLibrary := Bits.library) root +:+ String "010" "")).
  { unfold emit_xml. rewrite Hroot. reflexivity. }
  split; [exact Ht|].
  destruct (emitted_document_valid Bits.library Bits.round_trip demo_schedule demo_plan demo_inputs
    p (xml_tostring (XmlLibrary := Bits.library) root +:+ String "010" "")) as (root' & Hr & Hv);
    [| | | | | |exact Hp|exact Ht|].
  - apply NoDup_singleton.
  - apply Forall_singleton. exact (proj1 demo_transfer_built).
  - apply Forall_singleton. exact demo_plan_copy.
  - apply (bool_decide_unpack _). vm_compute. reflexivity.
  - intros t ref _ Hacc. discriminate Hacc.
  - vm_compute. reflexivity.
  - rewrite Hroot in Hr. injection Hr as <-. exact Hv.
Defined.
