(* ===== verification/V5Model.v ===== *)
(** * Records of the native lowering ([vericcl/xml/v5_model.py])

    Network operations, state values, instructions, storage plans and native
    programs. *)

From S2P Require Import Prelude.
From S2P Require Import Python.
From S2P Require Import Collective.
From S2P Require Import InputModels.
From S2P Require Import XmlModel.
From S2P Require Import Floats.
From S2P Require Import Topology.
Local Open Scope Z_scope.

(** The fields of [LoweringContext] that the modelled code reads; the lease
    only interrupts the code. *)
Record LoweringContext : Type := MkLoweringContext {
  cx_inputs : ResolvedInput;
  cx_topology : Topology;
}.

Record Address : Type := MkAddress {
  ad_rank : Z;
  ad_buffer : string;
  ad_offset : Z;
}.
#[export] Instance Address_eq_dec : EqDecision Address.
Proof. solve_decision. Defined.

Record NetworkOperation : Type := MkNetworkOperation {
  no_id : string;
  no_kind : string;
  no_src : Z;
  no_dst : Z;
  no_channel : Z;
  no_stage : Z;
  no_contributors : gset Z;
  no_targets : gset Z;
  no_participants : list Z;
  no_dependencies : gset string;
  no_references : gset string;
  no_priority : pyfloat;
}.

Record Value : Type := MkValue {
  va_state_id : string;
  va_rank : Z;
  va_position : Z;
  va_contributors : gset Z;
  va_producer : option string;
}.

Record Instruction : Type := MkInstruction {
  in_id : string;
  in_kind : string;
  in_inputs : list string;
  in_output : string;
  in_rank : Z;
  in_peer : Z;
  in_channel : Z;
  in_stage : Z;
  in_participants : list Z;
  in_dependencies : gset string;
  in_priority : pyfloat;
}.

(** [replace(op, dependencies=dependencies)] *)
Definition with_dependencies (op : Instruction) (dependencies : gset string) : Instruction :=
  MkInstruction (in_id op) (in_kind op) (in_inputs op) (in_output op) (in_rank op) (in_peer op)
    (in_channel op) (in_stage op) (in_participants op) dependencies (in_priority op).

(** An entry of [StoragePlan.reuse]. *)
Record Reuse : Type := MkReuse {
  re_writer : string;
  re_old_state : string;
  re_new_state : string;
  re_previous_readers : list string;
  re_rank : Z;
  re_offset : Z;
}.

(** The mappings are dictionaries in insertion order. *)
Record StoragePlan : Type := MkStoragePlan {
  sp_values : list (string * Value);
  sp_initial_ids : list string;
  sp_instructions : list Instruction;
  sp_addresses : list (string * Address);
  sp_outputs : list (OutputSlot * string);
  sp_input_slots : list (Z * Z);
  sp_output_slots : list (Z * Z);
  sp_scratch_slots : list (Z * Z);
  sp_reuse : list Reuse;
  sp_stage_count : Z;
  sp_omitted : list (string * string);
}.

Record NativeStep : Type := MkNativeStep {
  ns_step_id : string;
  ns_operation_id : string;
  ns_kind : string;
  ns_src : option Address;
  ns_dst : option Address;
  ns_dependency_tb : Z;
  ns_dependency_step : Z;
  ns_has_dependence : bool;
  ns_count : Z;
}.

Record NativeBlock : Type := MkNativeBlock {
  nb_rank : Z;
  nb_tb_id : Z;
  nb_channel : Z;
  nb_send_peer : Z;
  nb_recv_peer : Z;
  nb_steps : list NativeStep;
}.

Record NativeProgram : Type := MkNativeProgram {
  np_rank_count : Z;
  np_channels : Z;
  np_chunks_per_loop : Z;
  np_blocks : list NativeBlock;
  np_input_slots : list (Z * Z);
  np_output_slots : list (Z * Z);
  np_scratch_slots : list (Z * Z);
}.

Record NetworkCandidate : Type := MkNetworkCandidate {
  nc_rank_count : Z;
  nc_slice_count : Z;
  nc_slice_size_bytes : Z;
  nc_operations : list NetworkOperation;
}.
