(* ===== verification/V5Buffers.v ===== *)
(** * Storage plans ([vericcl/xml/v5_buffers.py])

    Explicit state versions for the operations of a network candidate, and the
    allocation of their storage with read-completion edges. *)

From S2P Require Import Prelude.
From S2P Require Import Python.
From S2P Require Import Collective.
From S2P Require Import InputModels.
From S2P Require Import Ranges.
From S2P Require Import Versions.
From S2P Require Import XmlModel.
From S2P Require Import Floats.
From S2P Require Import Topology.
From S2P Require Import V5Model.
Local Open Scope Z_scope.

(** The number of slices and their size; arithmetic on [None] raises. *)
Definition slices (inputs : ResolvedInput) : res (Z * Z) :=
  count ← slice_count (ri_hyperparameters inputs);
  match count, slice_size_bytes (ri_hyperparameters inputs) with
  | Some count, Some size => Ok (count, size)
  | _, _ => Err (TypeError "unsupported operand type(s) for NoneType")
  end.

Definition inplace_base (inputs : ResolvedInput) (rank : Z) (buffer : string) (n : Z) : res Z :=
  match cs_kind (ri_collective inputs) with
  | ALL_GATHER => Ok (if decide (buffer = "i"%string) then rank * n else 0)
  | REDUCE_SCATTER =>
      if decide (buffer = "o"%string)
      then quotient ← py_floordiv n (ri_rank_count inputs); Ok (rank * quotient)
      else Ok 0
  | _ => Ok 0
  end.

Definition canonical_region (address : Address) (inputs : ResolvedInput) : res BufferRegion :=
  let '(MkAddress rank buffer offset) := address in
  '(n, size) ← slices inputs;
  if decide (buffer = "s"%string) then
    BufferRegion_init rank "scratch" (offset * size) size "scratch"
  else if negb (cs_inplace (ri_collective inputs)) then
    let name := if decide (buffer = "i"%string) then "input"%string else "output"%string in
    BufferRegion_init rank name (offset * size) size name
  else
    base ← inplace_base inputs rank buffer n;
    BufferRegion_init rank "inplace" ((base + offset) * size) size "data".

(** The branch of [normalize_network] for a [NetworkCandidate]. *)
Definition normalize_network (candidate : NetworkCandidate) (context : LoweringContext)
    : res (list NetworkOperation) :=
  let inputs := cx_inputs context in
  count ← slice_count (ri_hyperparameters inputs);
  raise_when (negb (nc_rank_count candidate =? ri_rank_count inputs) ||
              negb (bool_decide (Some (nc_slice_count candidate) = count)) ||
              negb (bool_decide (Some (nc_slice_size_bytes candidate) =
                                 slice_size_bytes (ri_hyperparameters inputs))))
    (SemanticError "network repair dimensions differ from the resolved request");;
  Ok (nc_operations candidate).

(** ** Priority order *)

Section priority_order.
Context {A K : Type} `{PyOrd K} (by_id : list (string * A)) (precedence : list (string * gset string)).
Context (priority : A → K) (cycle_message : string).

(** [successors[key]] *)
Definition successors (key : string) : list string :=
  (filter (λ item, key ∈ item.2) precedence).*1.

(** [heapq.heappush(ready, (priority(by_id[key]), key))] *)
Definition push (ready : list (K * string)) (key : string) : res (list (K * string)) :=
  item ← of_option (dict_get key by_id) (KeyError key);
  Ok (ready ++ [(priority item, key)]).

Definition release (st : gmap string Z * list (K * string)) (follower : string)
    : res (gmap string Z * list (K * string)) :=
  let '(remaining, ready) := st in
  count ← of_option (remaining !! follower) (KeyError follower);
  let remaining := <[follower := count - 1]> remaining in
  if count - 1 =? 0 then ready ← push ready follower; Ok (remaining, ready)
  else Ok (remaining, ready).

(** A heap is the list of its entries; the least one is popped. *)
Fixpoint priority_loop (fuel : nat) (remaining : gmap string Z) (ready : list (K * string))
    (ordered : list A) : res (list A) :=
  match fuel with
  | O => Err OutOfFuel
  | S fuel =>
      match min_by id ready with
      | None => Ok ordered
      | Some entry =>
          item ← of_option (dict_get entry.2 by_id) (KeyError entry.2);
          '(remaining, ready) ←
            foldM release (remaining, filter (λ e, e.2 ≠ entry.2) ready) (successors entry.2);
          priority_loop fuel remaining ready (ordered ++ [item])
      end
  end.

Definition _fixed_priority_order : res (list A) :=
  counts ← mapR (λ key, deps ← of_option (dict_get key precedence) (KeyError key);
                        Ok (key, Z.of_nat (size deps))) by_id.*1;
  raise_when (negb (forallb (λ item, bool_decide (item.2 ⊆ list_to_set by_id.*1)) precedence))
    (SemanticError cycle_message);;
  ready ← foldM push [] (filter (λ item, item.2 = 0) counts).*1;
  ordered ← priority_loop (S (length by_id)) (list_to_map counts) ready [];
  raise_when (negb (length ordered =? length by_id)%nat) (SemanticError cycle_message);;
  Ok ordered.
End priority_order.

(** [{op.operation_id: op for op in operations}] *)
Definition operations_by_id (operations : list NetworkOperation)
    : list (string * NetworkOperation) :=
  dict_of_list ((λ op, (no_id op, op)) <$> operations).

(** Whether two operations have an endpoint on the same rank. *)
Definition shares_rank (a b : NetworkOperation) : bool :=
  negb (bool_decide (({[no_src a; no_dst a]} : gset Z) ∩ {[no_src b; no_dst b]} = ∅)).

Definition reference_precedence (by_id : list (string * NetworkOperation))
    (op : NetworkOperation) : res (string * gset string) :=
  references ← foldM (λ (references : gset string) key,
      other ← of_option (dict_get key by_id)
        (SemanticError "unknown network reference dependency");
      Ok (if shares_rank op other then {[key]} ∪ references else references))
    ∅ (elements (no_references op));
  Ok (no_id op, no_dependencies op ∪ references).

Definition _network_order (operations : list NetworkOperation) : res (list NetworkOperation) :=
  let by_id := operations_by_id operations in
  raise_when (negb (length by_id =? length operations)%nat ||
              existsb (λ op, negb (bool_decide (no_dependencies op ⊆ list_to_set by_id.*1)))
                operations)
    (SemanticError "network dependencies or operation identities are invalid");;
  precedence ← mapR (reference_precedence by_id) operations;
  _fixed_priority_order by_id precedence
    (λ op, (no_priority op, no_stage op, no_id op))
    "network semantic dependencies contain a cycle".

(** ** State versions *)

(** The mutable locals of the first loops of [build_storage_plan]. *)
Record Planning : Type := MkPlanning {
  pl_states : list (string * Value);
  pl_by_position : gmap (Z * Z) (list Value);
  pl_addresses : list (string * Address);
  pl_instructions : list Instruction;
  pl_omitted : list (string * string);
}.

(** [by_position[rank, logical]] *)
Definition at_position (st : Planning) (rank logical : Z) : list Value :=
  default [] (pl_by_position st !! (rank, logical)).

(** [states[identifier] = value; by_position[...].append(value)] *)
Definition add_value (st : Planning) (value : Value) : Planning :=
  let key := (va_rank value, va_position value) in
  MkPlanning (dict_set (va_state_id value) value (pl_states st))
    (<[key := default [] (pl_by_position st !! key) ++ [value]]> (pl_by_position st))
    (pl_addresses st) (pl_instructions st) (pl_omitted st).

Definition input_id (rank logical : Z) : string :=
  "input-r" +:+ str_of_int rank +:+ "-s" +:+ str_of_int logical.

Definition add_input (n : Z) (st : Planning) (position : Z * Z) : Planning :=
  let '(rank, logical) := position in
  let identifier := input_id rank logical in
  let st := add_value st (MkValue identifier rank logical {[rank * n + logical]} None) in
  MkPlanning (pl_states st) (pl_by_position st)
    (dict_set identifier (MkAddress rank "i" logical) (pl_addresses st))
    (pl_instructions st) (pl_omitted st).

(** The ranks that own slices. *)
Definition source_ranks (inputs : ResolvedInput) : list Z :=
  if decide (cs_kind (ri_collective inputs) = BROADCAST)
  then [root_int (ri_collective inputs)] else seqZ 0 (ri_rank_count inputs).

Definition input_positions (inputs : ResolvedInput) (n : Z) : list (Z * Z) :=
  rank ← source_ranks inputs; logical ← seqZ 0 n; [(rank, logical)].

Definition initial_planning (inputs : ResolvedInput) (n : Z) : Planning :=
  foldl (add_input n) (MkPlanning [] ∅ [] [] []) (input_positions inputs n).

(** [initial] *)
Definition initial_ids (inputs : ResolvedInput) (n : Z) : list string :=
  (λ '(rank, logical), input_id rank logical) <$> input_positions inputs n.

(** [min(values)] of a set *)
Definition set_min (values : gset Z) : res Z :=
  match elements values with
  | [] => Err (ValueError "min() arg is an empty sequence")
  | x :: l => Ok (foldr Z.min x l)
  end.

Section plan.
Context (context : LoweringContext) (n size_ : Z).
Let inputs := cx_inputs context.

(** The admission of an operation; returns its slice position. *)
Definition check_operation (constraints : ConstraintSet) (op : NetworkOperation) : res Z :=
  raise_when (bool_decide (no_contributors op = ∅) ||
              negb (size (set_map (λ s, (s `mod` n)%Z) (no_contributors op) : gset Z) =? 1)%nat)
    (SemanticError "a physical transfer must carry one logical slice position");;
  least ← set_min (no_contributors op);
  let logical := least `mod` n in
  key ← LinkKey_init (no_src op) (no_dst op);
  edge ← link (cx_topology context) key;
  raise_when (negb ((0 <=? no_channel op) &&
      (no_channel op <? max_channels (ri_solver inputs) `min` dl_max_channels edge)))
    (SemanticError "candidate channel is outside the selected topology limit");;
  raise_when (negb (bool_decide (no_src op ∈ no_participants op)) ||
              negb (bool_decide (no_dst op ∈ no_participants op)))
    (SemanticError "candidate uses a GPU outside its declared role group");;
  ranges ← mapR (λ s, DataRange_init (s / n) (logical * size_) ((logical + 1) * size_))
             (elements (no_contributors op));
  permitted ← allows constraints ranges (no_src op) (no_dst op) (no_stage op);
  raise_when (negb permitted)
    (SemanticError "candidate violates a source-byte directed-edge constraint");;
  Ok logical.

(** The versions on a position with exactly these contributors. *)
Definition matching (st : Planning) (rank logical : Z) (contributors : gset Z) : list Value :=
  filter (λ value, va_contributors value = contributors) (at_position st rank logical).

(** [max(enumerate(possible), key=...)[1]]: the last of the largest sets. *)
Definition last_largest (possible : list Value) : option Value :=
  foldl (λ best value,
    match best with
    | None => Some value
    | Some b => if (size (va_contributors b) <=? size (va_contributors value))%nat
                then Some value else best
    end) None possible.

(** [read_ids, combined] *)
Definition select_inputs (st : Planning) (op : NetworkOperation) (logical : Z)
    : res (list Value * gset Z) :=
  source ← of_option (last (matching st (no_src op) logical (no_contributors op)))
    (SemanticError ("network source state is unavailable: " +:+ no_id op));
  if decide (no_kind op = "rrc"%string) then
    let possible := filter (λ value, va_contributors value ∩ no_contributors op = ∅ ∧
        va_contributors value ⊆ no_targets op) (at_position st (no_dst op) logical) in
    accumulator ← of_option (last_largest possible)
      (SemanticError "network reduction has no disjoint destination state");
    Ok ([source; accumulator], no_contributors op ∪ va_contributors accumulator)
  else
    raise_when (negb (bool_decide (no_kind op = "send"%string)))
      (SemanticError "network operation must be send or rrc");;
    Ok ([source], no_contributors op).

(** The reference orders that [op] keeps, and those it omits. *)
Definition reference_step (by_id : list (string * NetworkOperation)) (op : NetworkOperation)
    (acc : gset string * list (string * string)) (predecessor : string)
    : res (gset string * list (string * string)) :=
  let '(dependencies, omitted) := acc in
  prior ← of_option (dict_get predecessor by_id)
    (SemanticError "candidate has an unknown reference dependency");
  Ok (if shares_rank prior op then ({[predecessor]} ∪ dependencies, omitted)
      else (dependencies, omitted ++ [(predecessor, no_id op)])).

Definition operation_step (constraints : ConstraintSet) (by_id : list (string * NetworkOperation))
    (st : Planning) (op : NetworkOperation) : res Planning :=
  logical ← check_operation constraints op;
  '(reads, combined) ← select_inputs st op logical;
  let dependencies : gset string :=
    no_dependencies op ∪ list_to_set (omap va_producer reads) in
  '(dependencies, omitted) ← foldM (reference_step by_id op) (dependencies, pl_omitted st)
    (elements (no_references op ∖ dependencies));
  let identifier := "state-" +:+ no_id op in
  let st := add_value st (MkValue identifier (no_dst op) logical combined (Some (no_id op))) in
  Ok (MkPlanning (pl_states st) (pl_by_position st) (pl_addresses st)
        (pl_instructions st ++
           [MkInstruction (no_id op) (no_kind op) (va_state_id <$> reads) identifier (no_dst op)
              (no_src op) (no_channel op) (no_stage op) (no_participants op) dependencies
              (no_priority op)])
        omitted).

(** ** Outputs *)

(** The mutable locals of the loop over the output slots. *)
Record Outputs : Type := MkOutputs {
  ou_planning : Planning;
  ou_outputs : list (OutputSlot * string);
  ou_direct : list (string * Address);
}.

Definition copy_id (slot : OutputSlot) : string :=
  "output-copy-r" +:+ str_of_int (slot_rank slot) +:+ "-o" +:+ str_of_int (slot_offset slot).

(** [initial_address is not None and canonical_region(...) == ...] *)
Definition in_place (st : Planning) (value : Value) (target : Address) : res bool :=
  match dict_get (va_state_id value) (pl_addresses st) with
  | None => Ok false
  | Some address =>
      a ← canonical_region address inputs;
      b ← canonical_region target inputs;
      Ok (bool_decide (a = b))
  end.

(** [frozenset({value.producer}) if value.producer else frozenset()] *)
Definition producer_set (value : Value) : gset string :=
  match va_producer value with
  | Some producer => if decide (producer = ""%string) then ∅ else {[producer]}
  | None => ∅
  end.

Definition place_output (final_stage : Z) (final_priority : pyfloat) (acc : Outputs)
    (item : OutputSlot * gset Z) : res Outputs :=
  let '(MkOutputs st outputs direct) := acc in
  let '(slot, contributors) := item in
  least ← set_min contributors;
  value ← of_option (last (matching st (slot_rank slot) (least `mod` n) contributors))
    (SemanticError "candidate leaves a required collective output unavailable");
  let target := MkAddress (slot_rank slot) "o" (slot_offset slot) in
  placed ← in_place st value target;
  if placed : bool then
    Ok (MkOutputs st (dict_set slot (va_state_id value) outputs) direct)
  else if present (va_producer value) && negb (cs_inplace (ri_collective inputs)) then
    Ok (MkOutputs st (dict_set slot (va_state_id value) outputs)
          (dict_set (va_state_id value) target direct))
  else
    let identifier := copy_id slot in
    let final_id := "state-" +:+ identifier in
    Ok (MkOutputs
      (MkPlanning
         (dict_set final_id (MkValue final_id (va_rank value) (va_position value)
            (va_contributors value) (Some identifier)) (pl_states st))
         (pl_by_position st) (dict_set final_id target (pl_addresses st))
         (pl_instructions st ++
            [MkInstruction identifier "copy" [va_state_id value] final_id (slot_rank slot) (-1) (-1)
               final_stage [slot_rank slot] (producer_set value)
               final_priority])
         (pl_omitted st))
      (dict_set slot final_id outputs) direct).

(** [readers] *)
Definition reader_sets (instructions : list Instruction) : gmap string (gset string) :=
  foldl (λ readers op,
    foldl (λ readers id, <[id := {[in_id op]} ∪ default ∅ (readers !! id)]> readers)
      readers (in_inputs op)) ∅ instructions.

Definition readers_of (readers : gmap string (gset string)) (id : string) : gset string :=
  default ∅ (readers !! id).

Definition region_key (region : BufferRegion) : Z * string * Z :=
  (br_rank region, br_buffer region, br_offset region).

(** A final write waits for the readers of the initial storage it overlaps. *)
Definition protect (readers : gmap string (gset string)) (addresses : list (string * Address))
    (initial_regions : list (string * BufferRegion)) (op : Instruction) : res Instruction :=
  if decide (in_kind op = "copy"%string) then
    address ← of_option (dict_get (in_output op) addresses) (KeyError (in_output op));
    target ← canonical_region address inputs;
    Ok (with_dependencies op (in_dependencies op ∪ ⋃
      ((λ '(id, _), readers_of readers id ∖ {[in_id op]}) <$>
         filter (λ item, region_key item.2 = region_key target ∧
                         Is_true (overlaps target item.2)) initial_regions)))
  else Ok (with_dependencies op (in_dependencies op)).

(** ** Order of execution *)

Definition releases (scratch_states : gset string) (remaining_reads : gmap string Z)
    (op : Instruction) : Z :=
  zsum ((λ key, Z.b2z (bool_decide (key ∈ scratch_states) &&
                       (default 0 (remaining_reads !! key) =? 1))) <$> in_inputs op).

Definition read_done (remaining_reads : gmap string Z) (key : string) : res (gmap string Z) :=
  count ← of_option (remaining_reads !! key) (KeyError key);
  Ok (<[key := count - 1]> remaining_reads).

(** With a tight budget existing intermediates are consumed first. *)
Fixpoint tight_loop (fuel : nat) (scratch_states : gset string) (pending : list (string * Instruction))
    (done : gset string) (remaining_reads : gmap string Z) (ordered : list Instruction)
    : res (list Instruction) :=
  match fuel with
  | O => Err OutOfFuel
  | S fuel =>
      if decide (pending = []) then Ok ordered
      else
        op ← of_option (min_by (λ op, (- releases scratch_states remaining_reads op, in_priority op, in_id op))
               (filter (λ op, in_dependencies op ⊆ done) pending.*2))
          (SemanticError "storage and reference orders contain a dependency cycle");
        remaining_reads ← foldM read_done remaining_reads (in_inputs op);
        tight_loop fuel scratch_states (filter (λ item, item.1 ≠ in_id op) pending)
          ({[in_id op]} ∪ done) remaining_reads (ordered ++ [op])
  end.

(** [ordered] *)
Definition storage_order (tight : bool) (scratch_states : gset string)
    (readers : gmap string (gset string)) (instructions : list Instruction)
    : res (list Instruction) :=
  let pending := dict_of_list ((λ op, (in_id op, op)) <$> instructions) in
  if tight then
    tight_loop (S (length pending)) scratch_states pending ∅
      ((λ s, Z.of_nat (size s)) <$> readers) []
  else
    _fixed_priority_order pending ((λ item, (item.1, in_dependencies item.2)) <$> pending)
      (λ op, (in_priority op, in_id op))
      "storage and reference orders contain a dependency cycle".

(** ** Allocation *)

(** The mutable locals of the allocation loop; the slots of a rank are the
    states that occupy them. *)
Record Allocation : Type := MkAllocation {
  al_addresses : list (string * Address);
  al_ancestors : gmap string (gset string);
  al_slots : gmap Z (list string);
  al_reuse : list Reuse;
  al_final : list Instruction;
}.

Section allocation.
Context (capacity : Z) (direct : list (string * Address)) (readers : gmap string (gset string)).
Context (position : list (string * Z)).

(** [(not previous_readers <= upstream, index, prior, previous_readers)] *)
Notation Choice := (bool * Z * string * gset string)%type.

Definition choice (upstream : gset string) (op : Instruction) (item : Z * string)
    : res (option Choice) :=
  let '(index, prior) := item in
  let consumers := readers_of readers prior in
  let overwrite_input :=
    bool_decide (prior ∈ in_inputs op) && bool_decide (in_kind op = "rrc"%string) in
  let previous_readers := if overwrite_input then consumers ∖ {[in_id op]} else consumers in
  own ← of_option (dict_get (in_id op) position) (KeyError (in_id op));
  places ← mapR (λ reader, of_option (dict_get reader position) (KeyError reader))
             (elements previous_readers);
  Ok (if forallb (λ place, place <? own) places
      then Some (negb (bool_decide (previous_readers ⊆ upstream)), index, prior, previous_readers)
      else None).

Definition choice_key (c : Choice) : bool * Z := (c.1.1.1, c.1.1.2).

(** The slot of the output of [op], the readers it waits for and the record of
    the reuse. *)
Definition find_slot (pool : list string) (upstream : gset string) (op : Instruction)
    : res (Z * gset string * list Reuse) :=
  choices ← mapR (choice upstream op) (zip (seqZ 0 (Z.of_nat (length pool))) pool);
  let available := omap id choices in
  let causal := filter (λ c, c.1.1.1 = false) available in
  let full := capacity <=? Z.of_nat (length pool) in
  match min_by choice_key (if decide (causal ≠ []) then causal
                           else if full then available else []) with
  | Some (_, index, prior, consumers) =>
      Ok (index, consumers,
        [MkReuse (in_id op) prior (in_output op) (sorted_by id (elements consumers)) (in_rank op) index])
  | None =>
      if full then Err (SemanticError "scratch storage budget cannot fit this execution order")
      else Ok (Z.of_nat (length pool), ∅, [])
  end.

(** [pool[index] = state], for an index of the pool or the next one. *)
Definition set_slot (pool : list string) (index : Z) (state : string) : list string :=
  if index =? Z.of_nat (length pool) then pool ++ [state] else <[Z.to_nat index := state]> pool.

(** [dependencies] with the ancestors of each. *)
Definition with_ancestors (ancestors : gmap string (gset string)) (dependencies : gset string)
    : res (gset string) :=
  sets ← mapR (λ dep, of_option (ancestors !! dep) (KeyError dep)) (elements dependencies);
  Ok (dependencies ∪ ⋃ sets).

Definition allocate (st : Allocation) (op : Instruction) : res Allocation :=
  upstream ← with_ancestors (al_ancestors st) (in_dependencies op);
  '(addresses, slots, dependencies, reuse) ←
    match dict_get (in_output op) direct, dict_get (in_output op) (al_addresses st) with
    | Some target, _ =>
        Ok (dict_set (in_output op) target (al_addresses st), al_slots st, in_dependencies op, [])
    | None, Some _ => Ok (al_addresses st, al_slots st, in_dependencies op, [])
    | None, None =>
        let pool := default [] (al_slots st !! in_rank op) in
        '(index, consumers, reuse) ← find_slot pool upstream op;
        Ok (dict_set (in_output op) (MkAddress (in_rank op) "s" index) (al_addresses st),
            <[in_rank op := set_slot pool index (in_output op)]> (al_slots st),
            in_dependencies op ∪ consumers, reuse)
    end;
  all_ancestors ← with_ancestors (al_ancestors st) dependencies;
  Ok (MkAllocation addresses (<[in_id op := all_ancestors]> (al_ancestors st)) slots
        (al_reuse st ++ reuse) (al_final st ++ [with_dependencies op dependencies])).
End allocation.
End plan.

(** [inputs.request_config["runtime"][key]], an integer *)
Definition runtime_int (inputs : ResolvedInput) (key : string) : res Z :=
  runtime ← py_getitem (ri_request_config inputs) "runtime";
  value ← py_getitem runtime key;
  match value with
  | PInt z => Ok z
  | _ => Err (TypeError "unsupported operand type(s)")
  end.

(** [max((slot.offset + 1 for slot in expected if slot.rank == rank), default=0)] *)
Definition output_count (expected : list (OutputSlot * gset Z)) (rank : Z) : Z :=
  foldr Z.max 0 ((λ slot, slot_offset slot + 1) <$> filter (λ slot, slot_rank slot = rank) expected.*1).

Definition max_stage (operations : list NetworkOperation) : Z :=
  match no_stage <$> operations with [] => 0 | s :: l => foldl Z.max s l end.

(** [max((op.priority_time for op in operations), default=0.) + 1.] *)
Definition final_priority (operations : list NetworkOperation) : pyfloat :=
  float_add (match no_priority <$> operations with
             | [] => Finite 0
             | t :: l => foldl float_max t l
             end) (Finite one_us).

Definition scratch_state_ids (states : list (string * Value)) (direct addresses : list (string * Address))
    : gset string :=
  list_to_set (filter (λ item, present (va_producer item.2) = true ∧
    present (dict_get item.1 direct) = false ∧ present (dict_get item.1 addresses) = false) states).*1.

Definition build_storage_plan (candidate : NetworkCandidate) (context : LoweringContext)
    : res StoragePlan :=
  let inputs := cx_inputs context in
  let ranks := ri_rank_count inputs in
  operations ← normalize_network candidate context;
  '(n, size_) ← slices inputs;
  operations ← _network_order operations;
  expected ← required_outputs (ri_collective inputs) ranks n;
  constraints ← bind_constraints inputs;
  planning ← foldM (operation_step context n size_ constraints (operations_by_id operations))
    (initial_planning inputs n) operations;
  outputs ← foldM (place_output context n (max_stage operations) (final_priority operations))
    (MkOutputs planning [] []) (sorted_by fst expected);
  let planning := ou_planning outputs in
  let readers := reader_sets (pl_instructions planning) in
  initial_regions ← mapR (λ id,
      address ← of_option (dict_get id (pl_addresses planning)) (KeyError id);
      region ← canonical_region address inputs;
      Ok (id, region)) (initial_ids inputs n);
  instructions ← mapR (protect context readers (pl_addresses planning) initial_regions)
    (pl_instructions planning);
  budget ← runtime_int inputs "scratch_bytes_per_rank";
  capacity ← py_floordiv budget size_;
  let scratch_states := scratch_state_ids (pl_states planning) (ou_direct outputs)
                          (pl_addresses planning) in
  ordered ← storage_order (capacity <? 1 `max` Z.of_nat (size scratch_states)) scratch_states
    readers instructions;
  let position := dict_of_list (zip (in_id <$> ordered) (seqZ 0 (Z.of_nat (length ordered)))) in
  allocation ← foldM (allocate capacity (ou_direct outputs) readers position)
    (MkAllocation (pl_addresses planning) ∅ ∅ [] []) ordered;
  Ok (MkStoragePlan (pl_states planning) (initial_ids inputs n) (al_final allocation)
        (al_addresses allocation) (ou_outputs outputs)
        ((λ rank, (rank, n)) <$> seqZ 0 ranks)
        ((λ rank, (rank, output_count expected rank)) <$> seqZ 0 ranks)
        ((λ rank, (rank, Z.of_nat (length (default [] (al_slots allocation !! rank))))) <$> seqZ 0 ranks)
        (al_reuse allocation)
        (match or_int (stage_num (ri_atom_constraints inputs)) (Some (max_stage operations + 1)) with
         | Some count => count
         | None => max_stage operations + 1
         end)
        (pl_omitted planning)).
