(* ===== verification/V5Program.v ===== *)
(** * Native programs ([vericcl/xml/v5_program.py])

    Lowering of the instructions of a storage plan to threadblocks, the
    dependencies that a native program enforces, and its element tree. *)

From Stdlib Require Import Ascii.
From S2P Require Import Prelude.
From S2P Require Import Python.
From S2P Require Import Collective.
From S2P Require Import InputModels.
From S2P Require Import XmlModel.
From S2P Require Import Topology.
From S2P Require Import Xml.
From S2P Require Import Emitter.
From S2P Require Import V5Model.
From S2P Require Import V5Buffers.
Local Open Scope Z_scope.

(** [(rank, direction, peer, channel, kind, source, destination)] *)
Record NativeEndpoint : Type := MkNativeEndpoint {
  ne_rank : Z;
  ne_direction : string;
  ne_peer : Z;
  ne_channel : Z;
  ne_kind : string;
  ne_source : Address;
  ne_destination : Address;
}.

(** [storage.addresses[key]] *)
Definition address_of (storage : StoragePlan) (key : string) : res Address :=
  of_option (dict_get key (sp_addresses storage)) (KeyError key).

(** [op.inputs[index]] *)
Definition input_of (op : Instruction) (index : nat) : res string :=
  of_option (in_inputs op !! index) (IndexError "tuple index out of range").

Definition _endpoints (op : Instruction) (storage : StoragePlan) : res (list NativeEndpoint) :=
  key ← input_of op 0;
  source ← address_of storage key;
  destination ← address_of storage (in_output op);
  if decide (in_kind op = "copy"%string) then
    Ok [MkNativeEndpoint (in_rank op) "copy" (-1) (-1) "cpy" source destination]
  else
    receiver_source ←
      (if decide (in_kind op = "rrc"%string) then key ← input_of op 1; address_of storage key
       else Ok source);
    Ok [MkNativeEndpoint (ad_rank source) "send" (ad_rank destination) (in_channel op) "s"
          source destination;
        MkNativeEndpoint (ad_rank destination) "recv" (ad_rank source) (in_channel op)
          (if decide (in_kind op = "rrc"%string) then "rrc" else "r")
          receiver_source destination].

(** ** Lowering *)

(** [(rank, direction, peer, channel)] *)
Notation BlockKey := (Z * string * Z * Z)%type.

(** The mutable locals of [lower_program]. *)
Record NativeLowering : Type := MkNativeLowering {
  nl_blocks : list (BlockKey * list NativeStep);
  nl_locations : gmap (string * Z) string;
  nl_step_owner : gmap string BlockKey;
  nl_dependencies : gmap string string;
  nl_bits : gmap string Z;
  nl_ancestors : gmap string Z;
  nl_order : gmap string Z;
  nl_block_ancestors : gmap BlockKey Z;
  nl_rank_sequence : gmap Z Z;
}.

(** [blocks[key]] *)
Definition block_steps (blocks : list (BlockKey * list NativeStep)) (key : BlockKey)
    : list NativeStep := default [] (dict_get key blocks).

(** [blocks[key].append(step); step_owner[step.step_id] = key] *)
Definition append_native (st : NativeLowering) (key : BlockKey) (step : NativeStep)
    : NativeLowering :=
  MkNativeLowering (dict_set key (block_steps (nl_blocks st) key ++ [step]) (nl_blocks st))
    (nl_locations st) (<[ns_step_id step := key]> (nl_step_owner st)) (nl_dependencies st)
    (nl_bits st) (nl_ancestors st) (nl_order st) (nl_block_ancestors st) (nl_rank_sequence st).

(** [dependencies_by_step[step_id] = target] *)
Definition set_target (st : NativeLowering) (step_id target : string) : NativeLowering :=
  MkNativeLowering (nl_blocks st) (nl_locations st) (nl_step_owner st)
    (<[step_id := target]> (nl_dependencies st))
    (nl_bits st) (nl_ancestors st) (nl_order st) (nl_block_ancestors st) (nl_rank_sequence st).

(** The ranks of [ranks] on which [predecessor] has an endpoint; it must have
    one. *)
Definition assign_predecessor (st : NativeLowering) (ranks : list Z) (op_id : string)
    (assigned : list (Z * string)) (predecessor : string) : res (list (Z * string)) :=
  let candidates := omap (λ rank,
      target ← nl_locations st !! (predecessor, rank); Some (rank, target)) ranks in
  raise_when (bool_decide (candidates = []))
    (SemanticError ("a required dependency has no same-rank endpoint: " +:+
                    predecessor +:+ " -> " +:+ op_id));;
  Ok (assigned ++ candidates).

(** [if not covered & endpoint_bits[target]: ...] *)
Definition select_wait (st : NativeLowering) (acc : list string * Z) (target : string)
    : res (list string * Z) :=
  let '(waits, covered) := acc in
  bit ← of_option (nl_bits st !! target) (KeyError target);
  if Z.land covered bit =? 0 then
    mask ← of_option (nl_ancestors st !! target) (KeyError target);
    Ok (waits ++ [target], Z.lor covered mask)
  else Ok (waits, covered).

Definition lower_key (layout : string) (endpoint : NativeEndpoint) : BlockKey :=
  (ne_rank endpoint,
   if decide (layout = "fused"%string ∧ ne_direction endpoint ≠ "copy"%string)
   then "fused"%string else ne_direction endpoint,
   ne_peer endpoint, ne_channel endpoint).

Definition nop_id (op_id : string) (rank index : Z) : string :=
  "nop:" +:+ op_id +:+ ":" +:+ str_of_int rank +:+ ":" +:+ str_of_int index.

Definition native_id (op_id direction : string) (rank : Z) : string :=
  op_id +:+ ":" +:+ direction +:+ ":" +:+ str_of_int rank.

Definition add_nop (op_id : string) (rank : Z) (key : BlockKey) (st : NativeLowering)
    (item : Z * string) : NativeLowering :=
  let identifier := nop_id op_id rank item.1 in
  set_target (append_native st key
      (MkNativeStep identifier op_id "nop" None None (-1) (-1) false 1))
    identifier item.2.

(** [sorted(set(assigned[rank]), key=endpoint_order.__getitem__, reverse=True)] *)
Definition newest_first (st : NativeLowering) (targets : list string) : res (list string) :=
  keyed ← mapR (λ target,
      place ← of_option (nl_order st !! target) (KeyError target); Ok (- place, target))
    (remove_dups targets);
  Ok (sorted_by fst keyed).*2.

Definition lower_endpoint (layout op_id : string) (assigned : list (Z * string))
    (st : NativeLowering) (endpoint : NativeEndpoint) : res NativeLowering :=
  let rank := ne_rank endpoint in
  let key := lower_key layout endpoint in
  targets ← newest_first st (filter (λ item, item.1 = rank) assigned).*2;
  '(waits, covered) ←
    foldM (select_wait st) ([], default 0 (nl_block_ancestors st !! key)) targets;
  let st := foldl (add_nop op_id rank key) st
              (zip (seqZ 0 (Z.of_nat (length waits) - 1)) waits) in
  let identifier := native_id op_id (ne_direction endpoint) rank in
  let st := append_native st key (MkNativeStep identifier op_id (ne_kind endpoint)
              (Some (ne_source endpoint)) (Some (ne_destination endpoint)) (-1) (-1) false 1) in
  let st := match last waits with
            | Some target => set_target st identifier target
            | None => st
            end in
  let sequence := default 0 (nl_rank_sequence st !! rank) in
  let bit := Z.shiftl 1 sequence in
  let mask := Z.lor covered bit in
  Ok (MkNativeLowering (nl_blocks st) (<[(op_id, rank) := identifier]> (nl_locations st))
        (nl_step_owner st) (nl_dependencies st) (<[identifier := bit]> (nl_bits st))
        (<[identifier := mask]> (nl_ancestors st)) (<[identifier := sequence]> (nl_order st))
        (<[key := mask]> (nl_block_ancestors st)) (<[rank := sequence + 1]> (nl_rank_sequence st))).

Definition lower_instruction (layout : string) (storage : StoragePlan) (st : NativeLowering)
    (op : Instruction) : res NativeLowering :=
  endpoints ← _endpoints op storage;
  assigned ← foldM (assign_predecessor st (remove_dups (ne_rank <$> endpoints)) (in_id op)) []
    (sorted_by id (elements (in_dependencies op)));
  foldM (lower_endpoint layout (in_id op) assigned) st endpoints.

Definition empty_lowering : NativeLowering := MkNativeLowering [] ∅ ∅ ∅ ∅ ∅ ∅ ∅ ∅.

(** [block_ids]: on every rank the threadblocks that others wait for first. *)
Definition block_ids (rank_count : Z) (target_blocks : gset BlockKey) (keys : list BlockKey)
    : list (BlockKey * Z) :=
  dict_of_list (rank ← seqZ 0 rank_count;
    let mine := sorted_by (λ key, (bool_decide (key ∉ target_blocks), key))
                  (filter (λ key : BlockKey, key.1.1.1 = rank) keys) in
    zip mine (seqZ 0 (Z.of_nat (length mine)))).

Definition native_locations (ids : list (BlockKey * Z)) (blocks : list (BlockKey * list NativeStep))
    : res (gmap string (Z * Z)) :=
  foldM (λ locations '(key, steps),
    tb ← of_option (dict_get key ids) (KeyError "block");
    Ok (foldl (λ locations '(index, step), <[ns_step_id step := (tb, index)]> locations) locations
          (zip (seqZ 0 (Z.of_nat (length steps))) steps))) ∅ blocks.

(** [replace(step, dependency_tb=..., dependency_step=..., has_dependence=...)] *)
Definition locate_step (st : NativeLowering) (locations : gmap string (Z * Z))
    (depended : gset string) (step : NativeStep) : res NativeStep :=
  '(tb, index) ← match nl_dependencies st !! ns_step_id step with
    | Some target => of_option (locations !! target) (KeyError target)
    | None => Ok (-1, -1)
    end;
  Ok (MkNativeStep (ns_step_id step) (ns_operation_id step) (ns_kind step) (ns_src step)
        (ns_dst step) tb index (bool_decide (ns_step_id step ∈ depended)) (ns_count step)).

Definition native_block (st : NativeLowering) (ids : list (BlockKey * Z))
    (locations : gmap string (Z * Z)) (depended : gset string) (key : BlockKey)
    : res NativeBlock :=
  let '(rank, direction, peer, channel) := key in
  steps ← mapR (locate_step st locations depended) (block_steps (nl_blocks st) key);
  let some_kind kinds := existsb (λ step, bool_decide (ns_kind step ∈ kinds)) steps in
  let in_directions directions := bool_decide (direction ∈ directions) in
  tb ← of_option (dict_get key ids) (KeyError "block");
  Ok (MkNativeBlock rank tb (Z.max channel 0)
        (if in_directions ["send"; "fused"]%string && some_kind ["s"]%string then peer else -1)
        (if in_directions ["recv"; "fused"]%string && some_kind ["r"; "rrc"]%string then peer else -1)
        steps).

(** [n * rank_count] for an all-gather, [n] otherwise *)
Definition chunks_per_loop (inputs : ResolvedInput) (n : Z) : Z :=
  if decide (cs_kind (ri_collective inputs) = ALL_GATHER) then n * ri_rank_count inputs else n.

Definition runtime_string (inputs : ResolvedInput) (key : string) : res string :=
  runtime ← py_getitem (ri_request_config inputs) "runtime";
  value ← py_getitem runtime key;
  Ok match value with PStr s => s | _ => ""%string end.

(** The threadblocks of the final state. *)
Definition native_blocks (rank_count : Z) (st : NativeLowering) : res (list NativeBlock) :=
  target_blocks ← mapR (λ item, of_option (nl_step_owner st !! item.2) (KeyError item.2))
    (map_to_list (nl_dependencies st));
  let ids := block_ids rank_count (list_to_set target_blocks) (nl_blocks st).*1 in
  locations ← native_locations ids (nl_blocks st);
  let depended : gset string := list_to_set (map_to_list (nl_dependencies st)).*2 in
  keyed ← mapR (λ key : BlockKey,
      tb ← of_option (dict_get key ids) (KeyError "block"); Ok ((key.1.1.1, tb), key))
    (nl_blocks st).*1;
  mapR (native_block st ids locations depended) (sorted_by fst keyed).*2.

Definition lower_program (storage : StoragePlan) (context : LoweringContext)
    : res NativeProgram :=
  let inputs := cx_inputs context in
  layout ← runtime_string inputs "tb_layout";
  st ← foldM (lower_instruction layout storage) empty_lowering (sp_instructions storage);
  blocks ← native_blocks (ri_rank_count inputs) st;
  '(n, _) ← slices inputs;
  Ok (MkNativeProgram (ri_rank_count inputs)
        (match nb_channel <$> blocks with [] => 0 | c :: l => foldl Z.max c l end + 1)
        (chunks_per_loop inputs n) blocks
        (sp_input_slots storage) (sp_output_slots storage) (sp_scratch_slots storage)).

(** ** Dependency graphs *)

Section graph.
Context {K : Type} `{Countable K}.

(** [for follower in successors[key]: ...] *)
Definition dependency_release (st : gmap K Z * list K) (follower : K) : gmap K Z * list K :=
  let '(degrees, ready) := st in
  let degree := default 0 (degrees !! follower) - 1 in
  (<[follower := degree]> degrees, if degree =? 0 then ready ++ [follower] else ready).

Fixpoint dependency_loop (fuel : nat) (dependencies : list (K * gset K)) (degrees : gmap K Z)
    (ready : list K) (order : list K) : res (list K) :=
  match fuel with
  | O => Err OutOfFuel
  | S fuel =>
      match ready with
      | [] => Ok order
      | key :: ready =>
          let '(degrees, ready) := foldl dependency_release (degrees, ready)
            (filter (λ item, key ∈ item.2) dependencies).*1 in
          dependency_loop fuel dependencies degrees ready (order ++ [key])
      end
  end.

(** A dictionary of distinct keys; the queue is first in, first out. *)
Definition _dependency_order (dependencies : list (K * gset K)) : res (list K) :=
  raise_when (negb (forallb (λ item, bool_decide (item.2 ⊆ list_to_set dependencies.*1)) dependencies))
    (SemanticError "native dependency names an unknown operation");;
  order ← dependency_loop (S (length dependencies)) dependencies
    (list_to_map ((λ item, (item.1, Z.of_nat (size item.2))) <$> dependencies))
    (filter (λ item, item.2 = ∅) dependencies).*1 [];
  raise_when (negb (length order =? length dependencies)%nat)
    (SemanticError "native endpoint/TB dependency graph is deadlocked");;
  Ok order.

(** [mask |= bits[predecessor] | ancestors[predecessor]] *)
Definition ancestor_step (dependencies : list (K * gset K)) (bits ancestors : gmap K Z) (key : K)
    : res (gmap K Z) :=
  predecessors ← of_option (dict_get key dependencies) (KeyError "dependency");
  mask ← foldM (λ mask predecessor,
      bit ← of_option (bits !! predecessor) (KeyError "bit");
      ancestor ← of_option (ancestors !! predecessor) (KeyError "ancestor");
      Ok (Z.lor mask (Z.lor bit ancestor))) 0 (elements predecessors);
  Ok (<[key := mask]> ancestors).

(** Exact reachability using one bit per vertex. *)
Definition _dependency_ancestors (dependencies : list (K * gset K))
    : res (gmap K Z * gmap K Z) :=
  order ← _dependency_order dependencies;
  let bits : gmap K Z := list_to_map
    ((λ '(index, key), (key, Z.shiftl 1 index)) <$> zip (seqZ 0 (Z.of_nat (length order))) order) in
  ancestors ← foldM (ancestor_step dependencies bits) ∅ order;
  Ok (ancestors, bits).
End graph.

(** ** The dependencies of a native program *)

Notation StepCoordinate := (Z * Z * Z)%type.

Definition block_coordinates (block : NativeBlock) : list (StepCoordinate * NativeStep) :=
  (λ '(index, step), ((nb_rank block, nb_tb_id block, index), step)) <$>
    zip (seqZ 0 (Z.of_nat (length (nb_steps block)))) (nb_steps block).

(** [steps] *)
Definition native_steps (program : NativeProgram) : list (StepCoordinate * NativeStep) :=
  dict_of_list (block ← np_blocks program; block_coordinates block).

(** The mutable locals of [execution_dependencies]; [by_op] and
    [endpoint_counts] are equal. *)
Record Execution : Type := MkExecution {
  ex_dependencies : list (string * gset string);
  ex_by_op : list (string * list (NativeBlock * NativeStep));
  ex_previous : option string;
  ex_waiting : gset string;
}.

(** [dependencies[key].update(values)] *)
Definition add_dependencies (key : string) (values : gset string)
    (dependencies : list (string * gset string)) : list (string * gset string) :=
  dict_set key (default ∅ (dict_get key dependencies) ∪ values) dependencies.

(** What a step waits for. *)
Definition native_wait (steps : list (StepCoordinate * NativeStep)) (block : NativeBlock)
    (index : Z) (step : NativeStep) : res (gset string) :=
  raise_when (negb (eqb (ns_dependency_tb step =? -1) (ns_dependency_step step =? -1)))
    (SemanticError "native dependency must name both TB and step");;
  if 0 <=? ns_dependency_tb step then
    target ← match dict_get (nb_rank block, ns_dependency_tb step, ns_dependency_step step) steps with
      | Some target =>
          raise_when (bool_decide (ns_kind target = "nop"%string) || negb (ns_has_dependence target))
            (SemanticError "native dependency target is absent or does not publish completion");;
          Ok target
      | None =>
          Err (SemanticError "native dependency target is absent or does not publish completion")
      end;
    raise_when ((ns_dependency_tb step =? nb_tb_id block) && (index <=? ns_dependency_step step))
      (SemanticError "native dependency points to the same or a later step");;
    Ok {[ns_operation_id target]}
  else Ok ∅.

Definition execution_step (steps : list (StepCoordinate * NativeStep)) (block : NativeBlock)
    (st : Execution) (item : Z * NativeStep) : res Execution :=
  let '(index, step) := item in
  wait ← native_wait steps block index step;
  let waiting := ex_waiting st ∪ wait in
  if decide (ns_kind step = "nop"%string) then
    raise_when (ns_dependency_tb step <? 0)
      (SemanticError "dependency-only NOP must carry a dependency");;
    Ok (MkExecution (ex_dependencies st) (ex_by_op st) (ex_previous st) waiting)
  else
    raise_when (negb (bool_decide (waiting = ∅)) && (ns_dependency_tb step <? 0))
      (SemanticError "the final instruction of a NOP dependency chain must also carry a dependency");;
    let key := ns_operation_id step in
    let before : gset string := match ex_previous st with
      | Some previous => if decide (previous = key) then ∅ else {[previous]}
      | None => ∅
      end in
    let dependencies := add_dependencies key (before ∪ waiting) (ex_dependencies st) in
    raise_when (bool_decide (key ∈ default ∅ (dict_get key dependencies)))
      (SemanticError "native operation depends on its own completion");;
    Ok (MkExecution dependencies
          (dict_set key (default [] (dict_get key (ex_by_op st)) ++ [(block, step)]) (ex_by_op st))
          (Some key) ∅).

Definition execution_block (steps : list (StepCoordinate * NativeStep)) (st : Execution)
    (block : NativeBlock) : res Execution :=
  st ← foldM (execution_step steps block)
    (MkExecution (ex_dependencies st) (ex_by_op st) None ∅)
    (zip (seqZ 0 (Z.of_nat (length (nb_steps block)))) (nb_steps block));
  raise_when (negb (bool_decide (ex_waiting st = ∅)))
    (SemanticError "a trailing NOP dependency chain has no native operation");;
  Ok st.

(** Every operation is one local step, or one send and its receive. *)
Definition check_members (item : string * list (NativeBlock * NativeStep)) : res unit :=
  let members := item.2 in
  let local := match members with
    | [(_, step)] => bool_decide (ns_kind step ∈ ["cpy"; "re"]%string)
    | _ => false
    end in
  if local : bool then Ok tt
  else
    match members, filter (λ m, ns_kind m.2 = "s"%string) members,
          filter (λ m, ns_kind m.2 ∈ ["r"; "rrc"]%string) members with
    | [_; _], [(sb, _)], [(rb, _)] =>
        raise_when (negb (nb_send_peer sb =? nb_rank rb) || negb (nb_recv_peer rb =? nb_rank sb) ||
                    negb (nb_channel sb =? nb_channel rb))
          (SemanticError "physical endpoint peers or channels do not match")
    | _, _, _ =>
        Err (SemanticError "physical transfer must have exactly one send and one matching receive")
    end.

(** Native NOP chains collapse onto the work that follows them. *)
Definition execution_dependencies (program : NativeProgram)
    : res (list (string * gset string) * list (string * list (NativeBlock * NativeStep))) :=
  st ← foldM (execution_block (native_steps program)) (MkExecution [] [] None ∅)
         (np_blocks program);
  iterM check_members (ex_by_op st);;
  let dependencies := (λ key, (key, default ∅ (dict_get key (ex_dependencies st)))) <$>
                        (ex_by_op st).*1 in
  _dependency_order dependencies;;
  Ok (dependencies, ex_by_op st).

(** ** Emission *)

Definition native_step_node (index : Z) (step : NativeStep) : xml :=
  let buffer (address : option Address) (none : string) :=
    match address with Some a => ad_buffer a | None => none end in
  let offset (address : option Address) :=
    match address with Some a => ad_offset a | None => -1 end in
  Element "step"
    [("s"%string, str_of_int index); ("type"%string, ns_kind step);
     ("srcbuf"%string, buffer (ns_src step) "i"%string); ("srcoff"%string, str_of_int (offset (ns_src step)));
     ("dstbuf"%string, buffer (ns_dst step) "o"%string); ("dstoff"%string, str_of_int (offset (ns_dst step)));
     ("cnt"%string, str_of_int (ns_count step)); ("depid"%string, str_of_int (ns_dependency_tb step));
     ("deps"%string, str_of_int (ns_dependency_step step));
     ("hasdep"%string, flag (ns_has_dependence step))] [].

Definition native_block_node (block : NativeBlock) : xml :=
  Element "tb"
    [("id"%string, str_of_int (nb_tb_id block)); ("send"%string, str_of_int (nb_send_peer block));
     ("recv"%string, str_of_int (nb_recv_peer block)); ("chan"%string, str_of_int (nb_channel block))]
    ((λ '(index, step), native_step_node index step) <$>
       zip (seqZ 0 (Z.of_nat (length (nb_steps block)))) (nb_steps block)).

Definition native_gpu_node (program : NativeProgram) (rank : Z) : res xml :=
  i ← chunk_attribute "i_chunks" (np_input_slots program) rank;
  o ← chunk_attribute "o_chunks" (np_output_slots program) rank;
  s ← chunk_attribute "s_chunks" (np_scratch_slots program) rank;
  Ok (Element "gpu" [("id"%string, str_of_int rank); i; o; s]
        (native_block_node <$> filter (λ block, nb_rank block = rank) (np_blocks program))).

Definition native_tree (program : NativeProgram) (inputs : ResolvedInput) : res xml :=
  let factor := if decide (cs_kind (ri_collective inputs) = ALL_GATHER)
                then ri_rank_count inputs else 1 in
  let bytes := total_size_bytes (ri_hyperparameters inputs) * factor in
  gpus ← mapR (native_gpu_node program) (seqZ 0 (np_rank_count program));
  Ok (Element "algo"
    [("name"%string, "vericcl"%string); ("nchannels"%string, str_of_int (np_channels program));
     ("nchunksperloop"%string, str_of_int (np_chunks_per_loop program)); ("proto"%string, "Simple"%string);
     ("coll"%string, kind_value (cs_kind (ri_collective inputs)));
     ("inplace"%string, flag (cs_inplace (ri_collective inputs))); ("redop"%string, "nop"%string);
     ("ngpus"%string, str_of_int (np_rank_count program)); ("minBytes"%string, str_of_int bytes);
     ("maxBytes"%string, str_of_int (bytes + 1))] gpus).

Definition emit_native_xml `{XmlLibrary} (program : NativeProgram) (inputs : ResolvedInput)
    : res string :=
  root ← native_tree program inputs;
  Ok (xml_tostring root +:+ String "010"%char "").
