(* ===== verification/V5Order.v ===== *)
(** * Topological orders of the native lowering

    The two work lists of the native lowering, [_fixed_priority_order] with its
    heap and [_dependency_order] with its queue, are instances of one algorithm:
    a vertex becomes ready when its last predecessor is emitted.  The reachability
    masks of [_dependency_ancestors] are built over such an order. *)

From S2P Require Import Prelude.
From S2P Require Import Python.
From S2P Require Import V5Model.
From S2P Require Import V5Buffers.
From S2P Require Import V5Program.
Local Open Scope Z_scope.

Section kahn.
Context {K : Type} `{Countable K} (dependencies : list (K * gset K)).

(** Every vertex of the list is declared and comes after its predecessors. *)
Definition dependency_ordered (l : list K) : Prop :=
  ∀ before k after, l = before ++ k :: after →
    ∃ d, (k, d) ∈ dependencies ∧ d ⊆ list_to_set before.

Lemma dependency_ordered_snoc l k d :
  dependency_ordered l → (k, d) ∈ dependencies → d ⊆ list_to_set l →
  dependency_ordered (l ++ [k]).
Proof.
  intros Hl Hk Hd before k' after E.
  destruct after as [|x after _] using rev_ind.
  - apply app_inj_tail in E as [<- <-]. eauto.
  - rewrite app_comm_cons, app_assoc in E. apply app_inj_tail in E as [E _].
    by eapply Hl.
Qed.

Lemma dependency_ordered_prefix l l' : dependency_ordered (l ++ l') → dependency_ordered l.
Proof.
  intros Hl before k after ->. apply (Hl before k (after ++ l')). by rewrite <- app_assoc.
Qed.

(** The followers of a vertex. *)
Definition followers (key : K) : list K := (filter (λ item, key ∈ item.2) dependencies).*1.

Lemma elem_of_followers key k : k ∈ followers key ↔ ∃ d, (k, d) ∈ dependencies ∧ key ∈ d.
Proof.
  unfold followers. rewrite list_elem_of_fmap. split.
  - intros ([k' d] & -> & [Hk Hin]%list_elem_of_filter). eauto.
  - intros (d & Hin & Hk). exists (k, d). split; [done|]. by apply list_elem_of_filter.
Qed.

(** The state of the work list: what is emitted, what is ready, and how many
    predecessors of each vertex are missing. *)
Record kahn (degrees : gmap K Z) (ready order : list K) : Prop := {
  kh_nodup : NoDup (order ++ ready);
  kh_reached k : k ∈ order ++ ready ↔ ∃ d, (k, d) ∈ dependencies ∧ d ⊆ list_to_set order;
  kh_degree k d : (k, d) ∈ dependencies →
    degrees !! k = Some (Z.of_nat (size (d ∖ list_to_set order)));
  kh_ordered : dependency_ordered order;
}.

Context (keys_nodup : NoDup dependencies.*1).

Lemma dependencies_function k d d' : (k, d) ∈ dependencies → (k, d') ∈ dependencies → d = d'.
Proof.
  intros Hd Hd'. by pose proof (NoDup_fmap_elem fst _ _ _ keys_nodup Hd Hd' eq_refl) as [= ->].
Qed.

Lemma followers_nodup key : NoDup (followers key).
Proof.
  unfold followers. eapply sublist_NoDup; [exact keys_nodup|].
  apply fmap_sublist, sublist_filter.
Qed.

Lemma kahn_perm degrees ready ready' order :
  ready ≡ₚ ready' → kahn degrees ready order → kahn degrees ready' order.
Proof.
  intros Hp [Hnd Hr Hdeg Hord]. split; [by rewrite <- Hp| |done|done].
  intros k. by rewrite <- Hp.
Qed.

Lemma kahn_initial degrees ready :
  (∀ k d, (k, d) ∈ dependencies → degrees !! k = Some (Z.of_nat (size d))) →
  ready ≡ₚ (filter (λ item, item.2 = ∅) dependencies).*1 →
  kahn degrees ready [].
Proof.
  intros Hdeg Hready. apply (kahn_perm _ _ _ _ (symmetry Hready)). split.
  - simpl. eapply sublist_NoDup; [exact keys_nodup|]. apply fmap_sublist, sublist_filter.
  - intros k. simpl. rewrite list_elem_of_fmap. split.
    + intros ([k' d] & -> & [E Hin]%list_elem_of_filter). simpl in *. exists d. set_solver.
    + intros (d & Hin & Hd). exists (k, d). split; [done|]. apply list_elem_of_filter.
      split; [|done]. simpl. set_solver.
  - intros k d Hin. rewrite (Hdeg _ _ Hin). simpl. by rewrite difference_empty_L.
  - intros [|] ? ? [=].
Qed.

Lemma list_to_set_snoc (l : list K) x : (list_to_set (l ++ [x]) : gset K) = list_to_set l ∪ {[x]}.
Proof. rewrite list_to_set_app_L. simpl. by rewrite union_empty_r_L. Qed.

Lemma size_remove (d : gset K) (order : list K) key :
  key ∈ d → key ∉ order →
  Z.of_nat (size (d ∖ list_to_set (order ++ [key]))) =
    Z.of_nat (size (d ∖ list_to_set order)) - 1.
Proof.
  intros Hk Ho. rewrite list_to_set_snoc.
  replace (d ∖ list_to_set order) with ({[key]} ∪ d ∖ (list_to_set order ∪ {[key]})).
  - rewrite (size_union {[key]} (d ∖ (list_to_set order ∪ {[key]}))), size_singleton by set_solver. lia.
  - apply set_eq. intros x. rewrite elem_of_union, !elem_of_difference, elem_of_union,
      elem_of_singleton, elem_of_list_to_set. destruct (decide (x = key)); naive_solver.
Qed.

Lemma kahn_step degrees degrees' key rest ready' order :
  kahn degrees (key :: rest) order →
  (∀ k, degrees' !! k =
     if decide (k ∈ followers key) then (λ n, n - 1) <$> degrees !! k else degrees !! k) →
  ready' ≡ₚ rest ++ filter (λ k, degrees' !! k = Some 0) (followers key) →
  kahn degrees' ready' (order ++ [key]).
Proof.
  intros [Hnd Hr Hdeg Hord] Hdeg' Hready. apply (kahn_perm _ _ _ _ (symmetry Hready)).
  assert (Hkey : key ∉ order ∧ key ∉ rest ∧ NoDup order ∧ NoDup rest ∧ ∀ x, x ∈ order → x ∉ rest).
  { apply NoDup_app in Hnd as (? & Hx & [? ?]%NoDup_cons). set_solver. }
  destruct Hkey as (Hko & Hkr & Hno & Hnr & Hdisj).
  assert (Hnew : ∀ k d, (k, d) ∈ dependencies →
    degrees' !! k = Some (Z.of_nat (size (d ∖ list_to_set (order ++ [key]))))).
  { intros k d Hin. rewrite Hdeg'. case_decide as Hf.
    - apply elem_of_followers in Hf as (d' & Hin' & Hk).
      rewrite (dependencies_function _ _ _ Hin' Hin) in Hk.
      rewrite (Hdeg _ _ Hin). simpl. by rewrite size_remove.
    - rewrite (Hdeg _ _ Hin). do 3 f_equal. apply set_eq. intros x.
      rewrite !elem_of_difference, list_to_set_snoc, elem_of_union, elem_of_singleton.
      assert (Hk : key ∉ d) by (intros ?; apply Hf, elem_of_followers; eauto). clear -Hk. set_solver. }
  assert (Hlast : ∀ k, k ∈ filter (λ k, degrees' !! k = Some 0) (followers key) ↔
    ∃ d, (k, d) ∈ dependencies ∧ key ∈ d ∧ d ⊆ list_to_set (order ++ [key])).
  { intros k. rewrite list_elem_of_filter, elem_of_followers. split.
    - intros (H0 & d & Hin & Hk). exists d. rewrite (Hnew _ _ Hin) in H0. injection H0 as H0.
      assert (d ∖ list_to_set (order ++ [key]) = ∅) as E
        by (apply leibniz_equiv, size_empty_inv; lia).
      split; [done|]. split; [done|]. clear -E. intros x Hx.
      destruct (decide (x ∈ (list_to_set (order ++ [key]) : gset K))) as [|Hn]; [done|].
      exfalso. apply (not_elem_of_empty (C := gset K) x). rewrite <- E. by apply elem_of_difference.
    - intros (d & Hin & Hk & Hd). split; [|eauto]. rewrite (Hnew _ _ Hin).
      replace (d ∖ list_to_set (order ++ [key])) with (∅ : gset K) by (clear -Hd; set_solver).
      by rewrite size_empty. }
  assert (Hold : ∀ k, k ∈ order ++ key :: rest → ¬ ∃ d, (k, d) ∈ dependencies ∧ key ∈ d).
  { intros k (d & Hin & Hd)%Hr (d' & Hin' & Hk). apply Hko.
    rewrite (dependencies_function _ _ _ Hin' Hin) in Hk. by apply Hd, elem_of_list_to_set in Hk. }
  split.
  - rewrite <- app_assoc. simpl. rewrite app_comm_cons, app_assoc. apply NoDup_app.
    split; [done|]. split.
    + intros k Hk (d & ? & ? & _)%Hlast. eapply Hold; eauto.
    + apply NoDup_filter, followers_nodup.
  - intros k. rewrite <- app_assoc. simpl. rewrite app_comm_cons, app_assoc, elem_of_app, Hr, Hlast.
    rewrite list_to_set_snoc. split.
    + intros [(d & ? & Hd)|(d & ? & _ & Hd)]; exists d; (split; [done|]); [|done].
      etrans; [exact Hd|]. apply union_subseteq_l.
    + intros (d & Hin & Hd). destruct (decide (key ∈ d)) as [Hk|Hk]; [by right; exists d|left].
      exists d. split; [done|]. clear -Hd Hk. set_solver.
  - done.
  - assert (Hin : key ∈ order ++ key :: rest) by (apply elem_of_app; right; by left).
    apply Hr in Hin as (d & ? & ?). by eapply dependency_ordered_snoc.
Qed.

Lemma kahn_bound degrees ready order :
  kahn degrees ready order → (length order + length ready ≤ length dependencies)%nat.
Proof.
  intros [Hnd Hr _ _]. rewrite <- length_app, <- (length_fmap fst dependencies).
  apply submseteq_length, NoDup_submseteq; [done|].
  intros k (d & Hin & _)%Hr. apply list_elem_of_fmap. by exists (k, d).
Qed.

(** When nothing is ready, either everything is emitted or no order exists. *)
Lemma kahn_end degrees order :
  kahn degrees [] order →
  if decide (length order = length dependencies) then order ≡ₚ dependencies.*1
  else ¬ ∃ l, l ≡ₚ dependencies.*1 ∧ dependency_ordered l.
Proof.
  intros [Hnd Hr Hdeg Hord]. rewrite app_nil_r in *.
  assert (Hsub : order ⊆+ dependencies.*1).
  { apply NoDup_submseteq; [done|]. intros k (d & Hin & _)%Hr.
    apply list_elem_of_fmap. by exists (k, d). }
  case_decide as Hl.
  - apply submseteq_length_Permutation; [done|]. rewrite length_fmap. lia.
  - intros (l & Hp & Ho). apply Hl. rewrite <- (length_fmap fst dependencies), <- Hp.
    apply Permutation_length, NoDup_Permutation; [done|by rewrite Hp|].
    assert (Hall : ∀ l1 l2, l = l1 ++ l2 → ∀ k, k ∈ l1 → k ∈ order).
    { induction l1 as [|x l1 IH] using rev_ind; [by intros ? ? ? ?%elem_of_nil|].
      intros l2 E k. rewrite elem_of_app, list_elem_of_singleton. rewrite <- app_assoc in E.
      pose proof (IH _ E) as IHk. intros [?| ->]; [by apply IHk|].
      destruct (Ho l1 x l2 E) as (d & Hin & Hd). apply Hr. exists d. set_solver. }
    intros k. split.
    + intros Hk. rewrite Hp. by eapply elem_of_submseteq.
    + intros Hk. apply (Hall l []); [by rewrite app_nil_r|done].
Qed.
End kahn.

(** ** The queue of [_dependency_order] *)

Section queue.
Context {K : Type} `{Countable K} (dependencies : list (K * gset K)).
Context (keys_nodup : NoDup dependencies.*1).

Lemma release_all (fs : list K) (degrees : gmap K Z) (ready : list K) :
  NoDup fs → (∀ k, k ∈ fs → is_Some (degrees !! k)) →
  let '(degrees', ready') := foldl dependency_release (degrees, ready) fs in
  (∀ k, degrees' !! k =
     if decide (k ∈ fs) then (λ n, n - 1) <$> degrees !! k else degrees !! k) ∧
  ready' = ready ++ filter (λ k, degrees' !! k = Some 0) fs.
Proof.
  revert degrees ready. induction fs as [|f fs IH]; intros degrees ready Hnd Hsome; cbn [foldl].
  { split; [done|by rewrite app_nil_r]. }
  apply NoDup_cons in Hnd as [Hf Hnd].
  destruct (Hsome f) as [n Hn]; [by left|]. cbn [dependency_release]. rewrite Hn. simpl.
  set (degrees1 := <[f := n - 1]> degrees). set (ready1 := if n - 1 =? 0 then ready ++ [f] else ready).
  specialize (IH degrees1 ready1 Hnd). destruct (foldl _ _ _) as [degrees' ready'].
  destruct IH as [Hdeg ->].
  { intros k Hk. unfold degrees1. destruct (decide (f = k)) as [->|?]; simplify_map_eq; eauto.
    apply Hsome. by right. }
  split.
  - intros k. rewrite Hdeg. unfold degrees1. destruct (decide (k = f)) as [->|Hkf].
    + rewrite decide_False, decide_True by (done || by left).
      by rewrite lookup_insert_eq, Hn.
    + rewrite lookup_insert_ne by done. apply decide_ext. rewrite elem_of_cons. naive_solver.
  - assert (Hlast : degrees' !! f = Some (n - 1)).
    { rewrite Hdeg, decide_False by done. unfold degrees1. by rewrite lookup_insert_eq. }
    unfold ready1. destruct (Z.eqb_spec (n - 1) 0) as [E|E].
    + rewrite filter_cons_True by congruence. by rewrite <- app_assoc.
    + rewrite filter_cons_False by congruence. done.
Qed.

Lemma kahn_release degrees key rest order :
  kahn dependencies degrees (key :: rest) order →
  let '(degrees', ready') :=
    foldl dependency_release (degrees, rest) (followers dependencies key) in
  kahn dependencies degrees' ready' (order ++ [key]).
Proof.
  intros Hk. pose proof (release_all (followers dependencies key) degrees rest
    (followers_nodup _ keys_nodup key)) as Hrel.
  destruct (foldl _ _ _) as [degrees' ready']. destruct Hrel as [Hdeg ->].
  { intros k (d & Hin & _)%elem_of_followers. by rewrite (kh_degree _ _ _ _ Hk _ _ Hin). }
  by eapply kahn_step.
Qed.

Lemma dependency_loop_total fuel degrees ready order :
  kahn dependencies degrees ready order → (length dependencies < fuel + length order)%nat →
  ∃ order' degrees', dependency_loop fuel dependencies degrees ready order = Ok order' ∧
    kahn dependencies degrees' [] order'.
Proof.
  revert degrees ready order. induction fuel as [|fuel IH]; intros degrees ready order Hk Hf.
  { pose proof (kahn_bound _ _ _ _ Hk). lia. }
  cbn [dependency_loop]. destruct ready as [|key ready]; [eauto|].
  pose proof (kahn_release _ _ _ _ Hk) as Hk'. unfold followers in Hk'.
  destruct (foldl _ _ _) as [degrees' ready']. apply (IH _ _ _ Hk').
  rewrite length_app. simpl. lia.
Qed.

Lemma initial_degrees (k : K) (d : gset K) :
  (k, d) ∈ dependencies →
  (list_to_map ((λ item, (item.1, Z.of_nat (size item.2))) <$> dependencies) : gmap K Z) !! k =
    Some (Z.of_nat (size d)).
Proof.
  intros Hin. apply elem_of_list_to_map.
  - rewrite <- list_fmap_compose. done.
  - apply list_elem_of_fmap. by exists (k, d).
Qed.

Lemma dependency_order_cases :
  match _dependency_order dependencies with
  | Ok order => order ≡ₚ dependencies.*1 ∧ dependency_ordered dependencies order
  | Err e =>
      (e = SemanticError "native dependency names an unknown operation" ∨
       e = SemanticError "native endpoint/TB dependency graph is deadlocked") ∧
      ¬ ∃ l, l ≡ₚ dependencies.*1 ∧ dependency_ordered dependencies l
  end.
Proof.
  unfold _dependency_order.
  destruct (forallb _ _) eqn:Hclosed; cbn [negb raise_when mbind res_bind]; last first.
  { split; [by left|]. intros (l & Hp & Ho). apply not_true_iff_false in Hclosed.
    apply Hclosed, forallb_forall. intros [k d] Hin%list_elem_of_In. apply bool_decide_eq_true.
    simpl. assert (Hk : k ∈ l) by (rewrite Hp; apply list_elem_of_fmap; by exists (k, d)).
    apply list_elem_of_split in Hk as (l1 & l2 & E).
    destruct (Ho _ _ _ E) as (d' & Hin' & Hd).
    rewrite (dependencies_function _ keys_nodup _ _ _ Hin Hin'). etrans; [exact Hd|].
    rewrite <- Hp, E. set_solver. }
  edestruct dependency_loop_total as (order & degrees' & E & Hk).
  - apply kahn_initial; [done|apply initial_degrees|reflexivity].
  - instantiate (1 := S (length dependencies)). simpl. lia.
  - rewrite E. cbn [mbind res_bind]. pose proof (kahn_end _ keys_nodup _ _ Hk) as Hend.
    case_decide as Hl.
    + rewrite (proj2 (Nat.eqb_eq _ _) Hl). simpl. split; [done|apply Hk].
    + rewrite (proj2 (Nat.eqb_neq _ _) Hl). simpl. split; [by right|done].
Qed.
End queue.

(** ** Reachability masks *)

Lemma testbit_single (i j : nat) :
  Z.testbit (Z.shiftl 1 (Z.of_nat i)) (Z.of_nat j) = bool_decide (i = j).
Proof.
  rewrite Z.shiftl_1_l, Z.pow2_bits_eqb by lia.
  destruct (decide (i = j)) as [->|]; [|rewrite bool_decide_eq_false_2 by done; lia].
  rewrite bool_decide_eq_true_2 by done. lia.
Qed.

(** [mask & (1 << i)] tests bit [i]. *)
Lemma land_single (mask : Z) (i : nat) :
  Z.land mask (Z.shiftl 1 (Z.of_nat i)) = 0 ↔ Z.testbit mask (Z.of_nat i) = false.
Proof.
  split.
  - intros E. apply (f_equal (λ m, Z.testbit m (Z.of_nat i))) in E.
    rewrite Z.land_spec, testbit_single, bool_decide_eq_true_2, andb_true_r in E by done.
    by rewrite E, Z.testbit_0_l.
  - intros E. apply Z.bits_inj'. intros j Hj. rewrite Z.land_spec, Z.testbit_0_l.
    rewrite <- (Z2Nat.id j) by done. rewrite testbit_single. case_bool_decide as Hij.
    + rewrite <- Hij, E. done.
    + apply andb_false_r.
Qed.

Section masks.
Context {K : Type} `{Countable K} (dependencies : list (K * gset K)).
Context (keys_nodup : NoDup dependencies.*1).

(** [a] is a predecessor of [b]. *)
Definition predecessor (a b : K) : Prop := ∃ d, (b, d) ∈ dependencies ∧ a ∈ d.

Context (order : list K) (order_perm : order ≡ₚ dependencies.*1).
Context (order_topological : dependency_ordered dependencies order).

Definition order_bits : gmap K Z :=
  list_to_map ((λ '(index, key), (key, Z.shiftl 1 index)) <$>
                 zip (seqZ 0 (Z.of_nat (length order))) order).

Lemma order_nodup : NoDup order.
Proof. by rewrite order_perm. Qed.

Lemma zip_seqZ_lookup {A} (l : list A) i :
  zip (seqZ 0 (Z.of_nat (length l))) l !! i = (λ x, (Z.of_nat i, x)) <$> l !! i.
Proof.
  destruct (l !! i) as [x|] eqn:E; simpl.
  - rewrite lookup_zip_with_Some. exists (Z.of_nat i), x. split; [done|]. split; [|done].
    rewrite lookup_seqZ. apply lookup_lt_Some in E. split; [simpl; lia|lia].
  - apply lookup_zip_with_None. by right.
Qed.

Lemma order_bits_lookup i k : order !! i = Some k → order_bits !! k = Some (Z.shiftl 1 (Z.of_nat i)).
Proof.
  intros Hi. apply elem_of_list_to_map.
  - rewrite <- list_fmap_compose.
    replace ((fst ∘ (λ '(index, key), (key, Z.shiftl 1 index))) <$> zip (seqZ 0 (Z.of_nat (length order))) order)
      with order; [apply order_nodup|].
    apply list_eq. intros j. rewrite list_lookup_fmap, zip_seqZ_lookup. by destruct (order !! j).
  - apply list_elem_of_fmap. exists (Z.of_nat i, k). split; [done|].
    apply list_elem_of_lookup. exists i. by rewrite zip_seqZ_lookup, Hi.
Qed.

(** The set of vertices that a mask stands for. *)
Definition mask_of (mask : Z) (P : K → Prop) : Prop :=
  ∀ i, Z.testbit mask (Z.of_nat i) = true ↔ ∃ a, order !! i = Some a ∧ P a.

Lemma mask_of_lor m1 m2 P1 P2 :
  mask_of m1 P1 → mask_of m2 P2 → mask_of (Z.lor m1 m2) (λ a, P1 a ∨ P2 a).
Proof. intros H1 H2 i. specialize (H1 i). specialize (H2 i). rewrite Z.lor_spec, orb_true_iff, H1, H2. naive_solver. Qed.

Lemma mask_of_iff mask P Q : (∀ a, P a ↔ Q a) → mask_of mask P → mask_of mask Q.
Proof. intros HPQ HP i. specialize (HP i). rewrite HP. by setoid_rewrite HPQ. Qed.

Lemma mask_of_bit i k : order !! i = Some k → mask_of (Z.shiftl 1 (Z.of_nat i)) (λ a, a = k).
Proof.
  intros Hi j. rewrite testbit_single, bool_decide_eq_true. split.
  - intros ->. eauto.
  - intros (a & Ha & ->). by eapply NoDup_lookup; [apply order_nodup| |].
Qed.

Lemma mask_of_zero : mask_of 0 (λ _, False).
Proof. intros i. rewrite Z.testbit_0_l. naive_solver. Qed.

Lemma mask_of_test mask P i k :
  mask_of mask P → order !! i = Some k → Z.land mask (Z.shiftl 1 (Z.of_nat i)) ≠ 0 ↔ P k.
Proof.
  intros HP Hi. specialize (HP i). rewrite land_single, not_false_iff_true, HP. split.
  - intros (a & Ha & HPa). congruence.
  - eauto.
Qed.

(** Ancestors of the vertices emitted so far. *)
Definition ancestors_of (before : list K) (ancestors : gmap K Z) : Prop :=
  ∀ b, b ∈ before → ∃ mask, ancestors !! b = Some mask ∧
    mask_of mask (λ a, tc predecessor a b).

Lemma predecessor_masks before ancestors (l : list K) mask P :
  ancestors_of before ancestors → mask_of mask P → (∀ p, p ∈ l → p ∈ before ∧ p ∈ order) →
  ∃ mask', foldM (λ mask predecessor,
      bit ← of_option (order_bits !! predecessor) (KeyError "bit");
      ancestor ← of_option (ancestors !! predecessor) (KeyError "ancestor");
      Ok (Z.lor mask (Z.lor bit ancestor))) mask l = Ok mask' ∧
    mask_of mask' (λ a, P a ∨ ∃ p, p ∈ l ∧ (a = p ∨ tc predecessor a p)).
Proof.
  intros Ha. revert mask P. induction l as [|p l IH]; intros mask P HP Hl; cbn [foldM].
  { exists mask. split; [done|]. eapply mask_of_iff; [|exact HP]. intros a.
    setoid_rewrite elem_of_nil. naive_solver. }
  destruct (Hl p) as [Hpb Hpo]; [by left|].
  apply list_elem_of_lookup in Hpo as [i Hi]. destruct (Ha p Hpb) as (m & Hm & HQ).
  rewrite (order_bits_lookup _ _ Hi), Hm. cbn [of_option mbind res_bind].
  destruct (IH (Z.lor mask (Z.lor (Z.shiftl 1 (Z.of_nat i)) m))
    (λ a, P a ∨ a = p ∨ tc predecessor a p)) as (mask' & E & HM).
  - apply mask_of_lor; [done|]. by apply mask_of_lor; [apply mask_of_bit|].
  - intros q Hq. apply Hl. by right.
  - exists mask'. split; [done|]. eapply mask_of_iff; [|exact HM]. intros a.
    setoid_rewrite elem_of_cons. naive_solver.
Qed.

Lemma ancestors_step before k after ancestors :
  order = before ++ k :: after → ancestors_of before ancestors →
  ∃ ancestors', ancestor_step dependencies order_bits ancestors k = Ok ancestors' ∧
    ancestors_of (before ++ [k]) ancestors'.
Proof.
  intros E Ha. destruct (order_topological _ _ _ E) as (d & Hin & Hd).
  unfold ancestor_step. rewrite (dict_get_Some_2 _ _ _ keys_nodup Hin).
  cbn [of_option mbind res_bind].
  destruct (predecessor_masks before ancestors (elements d) 0 (λ _, False) Ha mask_of_zero)
    as (mask & -> & HM).
  { intros p Hp%elem_of_elements. apply Hd, elem_of_list_to_set in Hp. split; [done|].
    rewrite E. apply elem_of_app. by left. }
  cbn [mbind res_bind]. eexists. split; [done|].
  assert (Hk : k ∉ before).
  { pose proof order_nodup as Hnd. rewrite E, NoDup_app in Hnd. destruct Hnd as (_ & Hx & _).
    intros Hb. apply (Hx k Hb). by left. }
  intros b [Hb|Hb]%elem_of_app.
  - destruct (Ha b Hb) as (m & ? & ?). exists m. split; [|done].
    rewrite lookup_insert_ne; [done|]. by intros <-.
  - apply list_elem_of_singleton in Hb as ->. exists mask. split; [by rewrite lookup_insert_eq|].
    eapply mask_of_iff; [|exact HM]. intros a. split.
    + intros [[]|(p & Hp%elem_of_elements & [->|Htc])]; [apply tc_once; by exists d|].
      eapply tc_r; [exact Htc|]. by exists d.
    + intros Htc. right.
      apply tc_inv_r in Htc as [(d' & Hin' & Hp)|(p & Htc & d' & Hin' & Hp)];
        rewrite (dependencies_function _ keys_nodup _ _ _ Hin' Hin) in Hp; eexists;
        (split; [apply elem_of_elements; exact Hp|]); auto.
Qed.

Lemma ancestors_loop before after ancestors :
  order = before ++ after → ancestors_of before ancestors →
  ∃ ancestors', foldM (ancestor_step dependencies order_bits) ancestors after = Ok ancestors' ∧
    ancestors_of order ancestors'.
Proof.
  revert before ancestors. induction after as [|k after IH]; intros before ancestors E Ha; cbn [foldM].
  { exists ancestors. split; [done|]. by rewrite E, app_nil_r. }
  destruct (ancestors_step before k after ancestors E Ha) as (ancestors1 & -> & Ha1).
  cbn [mbind res_bind]. apply (IH (before ++ [k])); [by rewrite <- app_assoc|done].
Qed.
End masks.

(** The masks of a graph answer reachability. *)
Definition masks_exact {K} `{Countable K} (dependencies : list (K * gset K))
    (ancestors bits : gmap K Z) : Prop :=
  ∀ a b, a ∈ dependencies.*1 → b ∈ dependencies.*1 →
    ∃ mask bit, ancestors !! b = Some mask ∧ bits !! a = Some bit ∧
      (Z.land mask bit ≠ 0 ↔ tc (predecessor dependencies) a b).

Lemma dependency_ancestors_Ok {K} `{Countable K} (dependencies : list (K * gset K)) ancestors bits :
  NoDup dependencies.*1 → _dependency_ancestors dependencies = Ok (ancestors, bits) →
  masks_exact dependencies ancestors bits ∧
  ∃ order, order ≡ₚ dependencies.*1 ∧ dependency_ordered dependencies order ∧
    _dependency_order dependencies = Ok order.
Proof.
  intros Hnd E. unfold _dependency_ancestors in E.
  pose proof (dependency_order_cases dependencies Hnd) as Hc.
  destruct (_dependency_order dependencies) as [order|] eqn:Eo; [|discriminate E].
  destruct Hc as [Hp Ho]. cbn [mbind res_bind] in E.
  change (list_to_map _) with (order_bits order) in E.
  destruct (ancestors_loop dependencies Hnd order Hp Ho [] order ∅ eq_refl)
    as (ancestors' & Ea & Hexact); [by intros b Hb; apply elem_of_nil in Hb|].
  rewrite Ea in E. cbn [mbind res_bind] in E. injection E as <- <-.
  split; [|by exists order]. intros a b Ha Hb. rewrite <- Hp in Ha, Hb.
  destruct (Hexact b Hb) as (mask & Hm & HM). apply list_elem_of_lookup in Ha as [i Hi].
  exists mask, (Z.shiftl 1 (Z.of_nat i)). split; [done|].
  split; [by apply order_bits_lookup with dependencies|]. exact (mask_of_test order mask _ i a HM Hi).
Qed.

(** Only the keys of the table have a bit. *)
Lemma dependency_bits_keys {K} `{Countable K} (dependencies : list (K * gset K)) ancestors bits k b :
  NoDup dependencies.*1 → _dependency_ancestors dependencies = Ok (ancestors, bits) →
  bits !! k = Some b → k ∈ dependencies.*1.
Proof.
  intros Hnd E Hk. unfold _dependency_ancestors in E.
  pose proof (dependency_order_cases dependencies Hnd) as Hc.
  destruct (_dependency_order dependencies) as [order|] eqn:Eo; [|discriminate E].
  destruct Hc as [<- _]. cbn [mbind res_bind] in E. apply bind_Ok in E as (a & _ & [= _ <-]).
  apply elem_of_list_to_map_2, list_elem_of_fmap in Hk as ((i & x) & [= -> _] & Hin).
  apply list_elem_of_lookup in Hin as [j Hj]. rewrite zip_seqZ_lookup in Hj.
  apply fmap_Some in Hj as (y & Hy & [= _ <-]). by eapply list_elem_of_lookup_2.
Qed.

(** C29 The reachability masks are exact.  On any dependency table with distinct
    keys [_dependency_ancestors] ends: when the table has a topological order
    it returns masks whose intersection with the bit of [a] is nonempty
    exactly when [b] depends, transitively, on [a]; otherwise it raises the
    error for an unknown predecessor or for a cycle. *)
Theorem dependency_ancestors_exact {K} `{Countable K} (dependencies : list (K * gset K)) :
  NoDup dependencies.*1 →
  match _dependency_ancestors dependencies with
  | Ok (ancestors, bits) =>
      masks_exact dependencies ancestors bits ∧
      ∃ l, l ≡ₚ dependencies.*1 ∧ dependency_ordered dependencies l
  | Err e =>
      (e = SemanticError "native dependency names an unknown operation" ∨
       e = SemanticError "native endpoint/TB dependency graph is deadlocked") ∧
      ¬ ∃ l, l ≡ₚ dependencies.*1 ∧ dependency_ordered dependencies l
  end.
Proof.
  intros Hnd. destruct (_dependency_ancestors dependencies) as [[ancestors bits]|e] eqn:E.
  - destruct (dependency_ancestors_Ok _ _ _ Hnd E) as (? & l & ? & ? & _). eauto.
  - unfold _dependency_ancestors in E. pose proof (dependency_order_cases dependencies Hnd) as Hc.
    destruct (_dependency_order dependencies) as [order|e'] eqn:Eo; cbn [mbind res_bind] in E.
    + destruct Hc as [Hp Ho]. change (list_to_map _) with (order_bits order) in E.
      destruct (ancestors_loop dependencies Hnd order Hp Ho [] order ∅ eq_refl)
        as (ancestors' & Ea & _); [by intros b Hb; apply elem_of_nil in Hb|].
      by rewrite Ea in E.
    + by injection E as <-.
Qed.

Definition demo_table : list (Z * gset Z) := [(0, ∅); (1, {[0]}); (2, {[1]}); (3, {[0]})].

Lemma dependency_ancestors_exact_witness :
  match _dependency_ancestors demo_table with
  | Ok (ancestors, bits) =>
      masks_exact demo_table ancestors bits ∧
      ((λ b, (λ a, negb (Z.land (default 0 (ancestors !! b)) (default 0 (bits !! a)) =? 0)) <$> [0; 1; 2; 3])
         <$> [0; 1; 2; 3]) =
      [[false; false; false; false]; [true; false; false; false];
       [true; true; false; false]; [true; false; false; false]]
  | Err _ => False
  end.
Proof.
  assert (Hnd : NoDup demo_table.*1) by (apply (bool_decide_eq_true_1 _); vm_compute; reflexivity).
  pose proof (dependency_ancestors_exact demo_table Hnd) as H.
  destruct (_dependency_ancestors demo_table) as [[ancestors bits]|] eqn:E.
  - split; [apply H|]. vm_compute in E. injection E as <- <-. reflexivity.
  - vm_compute in E. discriminate E.
Defined.

(** ** The heap of [_fixed_priority_order] *)

Section heap.
Context {A P : Type} `{PyOrd P} (by_id : list (string * A)).
Context (precedence : list (string * gset string)) (priority : A → P) (message : string).
Context (keys_nodup : NoDup by_id.*1) (keys_equal : precedence.*1 ≡ₚ by_id.*1).

Lemma precedence_nodup : NoDup precedence.*1.
Proof. by rewrite keys_equal. Qed.

Lemma precedence_item k d : (k, d) ∈ precedence → ∃ a, dict_get k by_id = Some a.
Proof.
  intros Hin. destruct (dict_get k by_id) eqn:E; [eauto|]. apply dict_get_None in E.
  exfalso. apply E. rewrite <- keys_equal. apply list_elem_of_fmap. by exists (k, d).
Qed.

(** Among the vertices whose predecessors are emitted the least comes next. *)
Definition least_first (l : list string) : Prop :=
  ∀ before k after k' d' a a', l = before ++ k :: after → k' ∉ before →
    (k', d') ∈ precedence → d' ⊆ list_to_set before →
    dict_get k by_id = Some a → dict_get k' by_id = Some a' →
    pleb (priority a, k) (priority a', k') = true.

Definition entries_ok (ready : list (P * string)) : Prop :=
  ∀ e, e ∈ ready → ∃ a, dict_get e.2 by_id = Some a ∧ e.1 = priority a.

Lemma release_one f n a (remaining : gmap string Z) (ready : list (P * string)) :
  remaining !! f = Some n → dict_get f by_id = Some a →
  release by_id priority (remaining, ready) f =
    Ok (<[f := n - 1]> remaining, if n - 1 =? 0 then ready ++ [(priority a, f)] else ready).
Proof.
  intros Hn Ha. unfold release, push. rewrite Hn, Ha. simpl. by destruct (n - 1 =? 0).
Qed.

Lemma release_entries (fs : list string) (remaining : gmap string Z) (ready : list (P * string)) :
  NoDup fs → (∀ k, k ∈ fs → is_Some (remaining !! k) ∧ is_Some (dict_get k by_id)) →
  entries_ok ready →
  ∃ remaining' ready',
    foldM (release by_id priority) (remaining, ready) fs = Ok (remaining', ready') ∧
    (∀ k, remaining' !! k =
       if decide (k ∈ fs) then (λ n, n - 1) <$> remaining !! k else remaining !! k) ∧
    ready'.*2 = ready.*2 ++ filter (λ k, remaining' !! k = Some 0) fs ∧ entries_ok ready'.
Proof.
  revert remaining ready. induction fs as [|f fs IH]; intros remaining ready Hnd Hsome Hready.
  { exists remaining, ready. cbn [foldM]. by rewrite app_nil_r. }
  apply NoDup_cons in Hnd as [Hf Hnd]. destruct (Hsome f) as [[n Hn] [a Ha]]; [by left|].
  cbn [foldM]. rewrite (release_one f n a) by done. cbn [mbind res_bind].
  set (remaining1 := <[f := n - 1]> remaining).
  set (ready1 := if n - 1 =? 0 then ready ++ [(priority a, f)] else ready).
  destruct (IH remaining1 ready1 Hnd) as (remaining' & ready' & -> & Hrem & Hkeys & Hok).
  { intros k Hk. destruct (Hsome k) as [Hr Hb]; [by right|]. split; [|done].
    unfold remaining1. destruct (decide (f = k)) as [->|?]; by simplify_map_eq. }
  { unfold ready1. destruct (n - 1 =? 0); [|done].
    intros e [?| ->%list_elem_of_singleton]%elem_of_app; [by apply Hready|eauto]. }
  exists remaining', ready'. split; [done|]. split; [|split; [|done]].
  - intros k. rewrite Hrem. unfold remaining1. destruct (decide (k = f)) as [->|Hkf].
    + rewrite decide_False, decide_True by (done || by left). by rewrite lookup_insert_eq, Hn.
    + rewrite lookup_insert_ne by done. apply decide_ext. rewrite elem_of_cons. naive_solver.
  - assert (Hlast : remaining' !! f = Some (n - 1)).
    { rewrite Hrem, decide_False by done. unfold remaining1. by rewrite lookup_insert_eq. }
    rewrite Hkeys. unfold ready1. destruct (Z.eqb_spec (n - 1) 0) as [E|E].
    + rewrite filter_cons_True by congruence. rewrite fmap_app, <- app_assoc. done.
    + rewrite filter_cons_False by congruence. done.
Qed.

(** The invariant of the loop. *)
Record heap_state (remaining : gmap string Z) (ready : list (P * string)) (order : list string)
    (ordered : list A) : Prop := {
  hs_kahn : kahn precedence remaining ready.*2 order;
  hs_entries : entries_ok ready;
  hs_items : Forall2 (λ k a, dict_get k by_id = Some a) order ordered;
  hs_least : least_first order;
}.

Lemma filter_entry (entry : P * string) (ready : list (P * string)) :
  NoDup ready.*2 → entry ∈ ready →
  ready.*2 ≡ₚ entry.2 :: (filter (λ e, e.2 ≠ entry.2) ready).*2.
Proof.
  induction ready as [|e ready IH]; [by intros _ ?%elem_of_nil|]. csimpl.
  intros [He Hnd]%NoDup_cons [->|Hin]%elem_of_cons.
  - rewrite filter_cons_False by (intros Hn; by apply Hn). f_equiv.
    rewrite list_filter_all; [done|]. apply Forall_forall. intros x Hx E. apply He.
    rewrite <- E. by apply list_elem_of_fmap_2.
  - rewrite filter_cons_True; [csimpl; rewrite (IH Hnd Hin) at 1; apply Permutation_swap|].
    intros E. apply He. rewrite E. by apply list_elem_of_fmap_2.
Qed.

Lemma heap_step remaining ready order ordered entry a :
  heap_state remaining ready order ordered → min_by id ready = Some entry →
  dict_get entry.2 by_id = Some a →
  ∃ remaining' ready',
    foldM (release by_id priority) (remaining, filter (λ e, e.2 ≠ entry.2) ready)
      (successors precedence entry.2) = Ok (remaining', ready') ∧
    heap_state remaining' ready' (order ++ [entry.2]) (ordered ++ [a]).
Proof.
  intros [Hk He Hi Hl] Hmin Ha. apply min_by_Some in Hmin as [Hin Hmin].
  pose proof (kh_nodup _ _ _ _ Hk) as Hnd. apply NoDup_app in Hnd as (_ & Hdisj & Hnd).
  pose proof (filter_entry entry ready Hnd Hin) as Hperm.
  apply (kahn_perm _ _ _ _ _ Hperm) in Hk as Hk1.
  destruct (release_entries (successors precedence entry.2) remaining
    (filter (λ e, e.2 ≠ entry.2) ready)) as (remaining' & ready' & E & Hrem & Hkeys & Hok).
  { apply (followers_nodup _ precedence_nodup). }
  { intros k (d & Hd & _)%elem_of_followers. split; [by rewrite (kh_degree _ _ _ _ Hk _ _ Hd)|].
    destruct (precedence_item _ _ Hd) as [b ->]. done. }
  { intros e [_ ?]%list_elem_of_filter. by apply He. }
  exists remaining', ready'. split; [done|]. split; [|done| |].
  - eapply (kahn_step _ precedence_nodup); [exact Hk1|exact Hrem|by rewrite Hkeys].
  - apply Forall2_app; [done|]. by constructor.
  - intros before k after k' d' b b' El Hk' Hd' Hsub Hb Hb'.
    destruct after as [|x after _] using rev_ind; last first.
    { rewrite app_comm_cons, app_assoc in El. apply app_inj_tail in El as [El _]. by eapply Hl. }
    apply app_inj_tail in El as [<- <-]. rewrite Ha in Hb. injection Hb as <-.
    assert (Hr : k' ∈ ready.*2).
    { assert (Hr : k' ∈ order ++ ready.*2) by (apply (kh_reached _ _ _ _ Hk); eauto).
      apply elem_of_app in Hr as [?|?]; done. }
    apply list_elem_of_fmap in Hr as ([p q] & -> & Hr). simpl in *.
    destruct (He _ Hr) as (b & Hb & Ep). simpl in *. rewrite Hb' in Hb. injection Hb as <-.
    destruct (He _ Hin) as (c & Hc & Ec). rewrite Ha in Hc. injection Hc as <-.
    specialize (Hmin _ Hr). unfold id in Hmin. destruct entry as [pe ke]. simpl in *. by subst.
Qed.

Lemma priority_loop_total fuel remaining ready order ordered :
  heap_state remaining ready order ordered → (length precedence < fuel + length order)%nat →
  ∃ remaining' order' ordered',
    priority_loop by_id precedence priority fuel remaining ready ordered = Ok ordered' ∧
    heap_state remaining' [] order' ordered'.
Proof.
  revert remaining ready order ordered.
  induction fuel as [|fuel IH]; intros remaining ready order ordered Hs Hf.
  { pose proof (kahn_bound _ _ _ _ (hs_kahn _ _ _ _ Hs)). lia. }
  cbn [priority_loop]. destruct (min_by id ready) as [entry|] eqn:Em; last first.
  { apply min_by_None in Em as ->. eauto. }
  pose proof (min_by_Some _ _ _ Em) as [Hin _].
  destruct (hs_entries _ _ _ _ Hs _ Hin) as (a & Ha & _). rewrite Ha. cbn [of_option mbind res_bind].
  destruct (heap_step _ _ _ _ _ _ Hs Em Ha) as (remaining' & ready' & -> & Hs').
  cbn [mbind res_bind]. apply (IH _ _ _ _ Hs'). rewrite length_app. simpl. lia.
Qed.

(** The counters and the entries that the loop starts from. *)
Definition start_counts : list (string * Z) :=
  (λ k, (k, Z.of_nat (size (default ∅ (dict_get k precedence))))) <$> by_id.*1.

Lemma start_counts_eq :
  mapR (λ key, deps ← of_option (dict_get key precedence) (KeyError key);
               Ok (key, Z.of_nat (size deps))) by_id.*1 = Ok start_counts.
Proof.
  apply mapR_Ok. unfold start_counts. apply Forall2_fmap_r, Forall_Forall2_diag.
  apply Forall_forall. intros k Hk. rewrite <- keys_equal in Hk.
  apply list_elem_of_fmap in Hk as ([k' d] & -> & Hin). cbn [fst].
  unfold compose. by rewrite (dict_get_Some_2 _ _ _ precedence_nodup Hin).
Qed.

Lemma elem_of_start_counts k d :
  (k, d) ∈ precedence → (k, Z.of_nat (size d)) ∈ start_counts.
Proof.
  intros Hin. apply list_elem_of_fmap. exists k.
  rewrite (dict_get_Some_2 _ _ _ precedence_nodup Hin). split; [done|].
  rewrite <- keys_equal. apply list_elem_of_fmap. by exists (k, d).
Qed.

Lemma start_counts_keys : start_counts.*1 = by_id.*1.
Proof. unfold start_counts. rewrite <- list_fmap_compose. apply list_fmap_id. Qed.

Lemma push_one k a (ready : list (P * string)) :
  dict_get k by_id = Some a → push by_id priority ready k = Ok (ready ++ [(priority a, k)]).
Proof. intros Ha. unfold push. by rewrite Ha. Qed.

Lemma push_all (ks : list string) (ready : list (P * string)) :
  (∀ k, k ∈ ks → k ∈ by_id.*1) → entries_ok ready →
  ∃ ready', foldM (push by_id priority) ready ks = Ok ready' ∧
    ready'.*2 = ready.*2 ++ ks ∧ entries_ok ready'.
Proof.
  revert ready. induction ks as [|k ks IH]; intros ready Hks Hok; cbn [foldM].
  { exists ready. by rewrite app_nil_r. }
  destruct (dict_get k by_id) as [a|] eqn:Ha; last first.
  { apply dict_get_None in Ha. destruct Ha. apply Hks. by left. }
  rewrite (push_one k a) by done. cbn [mbind res_bind].
  destruct (IH (ready ++ [(priority a, k)])) as (ready' & -> & Hkeys & Hok').
  { intros q Hq. apply Hks. by right. }
  { intros e [?| ->%list_elem_of_singleton]%elem_of_app; [by apply Hok|eauto]. }
  exists ready'. rewrite Hkeys, fmap_app, <- app_assoc. done.
Qed.

Lemma heap_start :
  ∃ ready, foldM (push by_id priority) [] (filter (λ item, item.2 = 0) start_counts).*1 = Ok ready ∧
    heap_state (list_to_map start_counts) ready [] [].
Proof.
  assert (Hin : ∀ k, k ∈ (filter (λ item, item.2 = 0) start_counts).*1 ↔
    ∃ d, (k, d) ∈ precedence ∧ d = ∅).
  { intros k. rewrite list_elem_of_fmap. split.
    - intros ([k' n] & -> & [Hn Hk]%list_elem_of_filter). simpl in *. subst.
      assert (Hp : k' ∈ precedence.*1).
      { rewrite keys_equal, <- start_counts_keys. apply list_elem_of_fmap. by exists (k', 0). }
      apply list_elem_of_fmap in Hp as ([q d] & -> & Hp). exists d. split; [done|].
      pose proof (elem_of_start_counts _ _ Hp) as Hc. simpl in *.
      pose proof (NoDup_fmap_elem fst start_counts (q, 0) (q, Z.of_nat (size d))) as E.
      rewrite start_counts_keys in E. specialize (E keys_nodup Hk Hc eq_refl). injection E as E.
      apply leibniz_equiv, size_empty_inv. lia.
    - intros (d & Hp & ->). exists (k, 0). split; [done|]. apply list_elem_of_filter.
      split; [done|]. apply (elem_of_start_counts _ _ Hp). }
  destruct (push_all (filter (λ item, item.2 = 0) start_counts).*1 []) as (ready & E & Hkeys & Hok).
  { intros k (d & Hp & _)%Hin. rewrite <- keys_equal. apply list_elem_of_fmap. by exists (k, d). }
  { by intros e ?%elem_of_nil. }
  exists ready. split; [done|]. split; [|done|constructor|by intros [] ??????[=]].
  rewrite Hkeys. simpl. apply kahn_initial; [apply precedence_nodup| |].
  - intros k d Hp. apply elem_of_list_to_map; [by rewrite start_counts_keys|].
    by apply elem_of_start_counts.
  - apply NoDup_Permutation.
    + eapply sublist_NoDup; [rewrite <- start_counts_keys in keys_nodup; exact keys_nodup|].
      apply fmap_sublist, sublist_filter.
    + eapply sublist_NoDup; [exact precedence_nodup|]. apply fmap_sublist, sublist_filter.
    + intros k. rewrite Hin, list_elem_of_fmap. split.
      * intros (d & Hp & ->). exists (k, ∅). split; [done|]. by apply list_elem_of_filter.
      * intros ([q d] & -> & [? ?]%list_elem_of_filter). eauto.
Qed.

(** A complete order of the dictionary that runs the least ready item first. *)
Definition priority_ordered (items : list A) : Prop :=
  ∃ keys, keys ≡ₚ by_id.*1 ∧ dependency_ordered precedence keys ∧ least_first keys ∧
    Forall2 (λ k a, dict_get k by_id = Some a) keys items.

Lemma priority_order_cases :
  match _fixed_priority_order by_id precedence priority message with
  | Ok items => priority_ordered items
  | Err e => e = SemanticError message ∧
      ¬ ∃ keys, keys ≡ₚ by_id.*1 ∧ dependency_ordered precedence keys
  end.
Proof.
  unfold _fixed_priority_order. rewrite start_counts_eq. cbn [mbind res_bind].
  destruct (forallb _ _) eqn:Hclosed; cbn [negb raise_when mbind res_bind]; last first.
  { split; [done|]. intros (l & Hp & Ho). apply not_true_iff_false in Hclosed.
    apply Hclosed, forallb_forall. intros [k d] Hin%list_elem_of_In. apply bool_decide_eq_true.
    simpl. assert (Hk : k ∈ l).
    { rewrite Hp, <- keys_equal. apply list_elem_of_fmap. by exists (k, d). }
    apply list_elem_of_split in Hk as (l1 & l2 & E). destruct (Ho _ _ _ E) as (d' & Hin' & Hd).
    rewrite (dependencies_function _ precedence_nodup _ _ _ Hin Hin'). etrans; [exact Hd|].
    rewrite <- Hp, E. set_solver. }
  destruct heap_start as (ready & -> & Hs). cbn [mbind res_bind].
  destruct (priority_loop_total (S (length by_id)) _ _ _ _ Hs) as (rem & order & items & -> & Hs').
  { rewrite <- (length_fmap fst by_id), <- keys_equal, length_fmap. simpl. lia. }
  cbn [mbind res_bind]. destruct Hs' as [Hk _ Hi Hl].
  pose proof (kahn_end _ precedence_nodup _ _ Hk) as Hend.
  assert (Hlen : length items = length order) by (symmetry; by eapply Forall2_length).
  assert (Hlp : length precedence = length by_id).
  { rewrite <- (length_fmap fst by_id), <- keys_equal, length_fmap. done. }
  rewrite Hlen, <- Hlp. case_decide as E.
  - rewrite (proj2 (Nat.eqb_eq _ _) E). simpl. exists order. split; [by rewrite <- keys_equal|].
    split; [apply Hk|done].
  - rewrite (proj2 (Nat.eqb_neq _ _) E). simpl. split; [done|].
    intros (l & Hp & Ho). apply Hend. exists l. by rewrite keys_equal.
Qed.
End heap.

(** C30 Operations run in the least admissible order.  For a dictionary with
    distinct keys and a precedence table over the same keys
    [_fixed_priority_order] always ends: it returns every item once, after its
    predecessors, and at each place the least item, by priority and then by key,
    whose predecessors have run; it raises the cycle error exactly when no
    topological order exists. *)
Theorem fixed_priority_order_exact {A P : Type} `{PyOrd P} (by_id : list (string * A))
    (precedence : list (string * gset string)) (priority : A → P) (message : string) :
  NoDup by_id.*1 → precedence.*1 ≡ₚ by_id.*1 →
  match _fixed_priority_order by_id precedence priority message with
  | Ok items => priority_ordered by_id precedence priority items
  | Err e => e = SemanticError message ∧
      ¬ ∃ keys, keys ≡ₚ by_id.*1 ∧ dependency_ordered precedence keys
  end.
Proof. intros. by apply priority_order_cases. Qed.

Definition demo_items : list (string * Z) := [("a"%string, 3); ("b"%string, 1); ("c"%string, 2)].

Lemma fixed_priority_order_exact_witness :
  match _fixed_priority_order demo_items [("a"%string, ∅); ("b"%string, {["c"%string]}); ("c"%string, ∅)]
          id "cycle" with
  | Ok items => items = [2; 1; 3] ∧
      priority_ordered demo_items [("a"%string, ∅); ("b"%string, {["c"%string]}); ("c"%string, ∅)] id items
  | Err _ => False
  end.
Proof.
  pose proof (fixed_priority_order_exact demo_items
    [("a"%string, ∅); ("b"%string, {["c"%string]}); ("c"%string, ∅)] id "cycle") as H.
  assert (Hnd : NoDup demo_items.*1) by (apply (bool_decide_eq_true_1 _); vm_compute; reflexivity).
  specialize (H Hnd (Permutation_refl _)).
  destruct (_fixed_priority_order _ _ _ _) as [items|e] eqn:E.
  - split; [|exact H]. vm_compute in E. injection E as <-. reflexivity.
  - vm_compute in E. discriminate E.
Defined.
