(* ===== verification/Mpq.v ===== *)
(** * Exact numbers of the performance prediction ([performance/simulation.py])

    Exact mode computes with the rationals of the [gmpy2] package, given by
    the class [MpqLibrary]; what the code relies on of them is [MpqLaws].
    [_exact_number] reads the shortest decimal of a double and [_exact_float]
    rounds a quotient of integers to the nearest double. *)

From Stdlib Require Import QArith Qcanon.
From S2P Require Import Prelude.
From S2P Require Import Python.
From S2P Require Import Floats.
Local Open Scope Z_scope.

(** ** Doubles nearest to a ratio, and shortest decimals *)

(** The tick count of the double nearest to [num / den], ties to even, for
    [0 <= num] and [0 < den]. *)
Definition round_ratio (num den : Z) : Z :=
  let a := num * one_us in
  let bits := Z.log2 (a / den) + 1 in
  let sh := Z.max 0 (bits - 53) in
  let unit := Z.shiftl den sh in
  let q := a / unit in
  let r := a mod unit in
  Z.shiftl (if (unit <? 2 * r) || ((unit =? 2 * r) && Z.odd q) then q + 1 else q) sh.

(** [x / y] on integers. *)
Definition int_truediv (x y : Z) : res Z :=
  raise_when (y =? 0) (ZeroDivisionError "division by zero");;
  let v := round_ratio (Z.abs x) (Z.abs y) in
  raise_when (overflow_ticks <=? v)
    (OverflowError "integer division result too large for a float");;
  Ok (Z.sgn x * Z.sgn y * v).

(** A decimal [m * 10^e] as a ratio of integers, for [0 <= m]. *)
Definition decimal_ratio (m e : Z) : Z * Z :=
  if 0 <=? e then (m * 10 ^ e, 1) else (m, 10 ^ (- e)).

(** [a/b < c/d] and [|a/b - c/d|] as a ratio, for positive denominators. *)
Definition ratio_ltb (x y : Z * Z) : bool := x.1 * y.2 <? y.1 * x.2.
Definition ratio_distance (x y : Z * Z) : Z * Z := (Z.abs (x.1 * y.2 - y.1 * x.2), x.2 * y.2).

(** The first result of a bounded search upwards. *)
Fixpoint first_from {A} (fuel : nat) (n : Z) (f : Z → option A) : option A :=
  match fuel with
  | O => None
  | S fuel => match f n with Some a => Some a | None => first_from fuel (n + 1) f end
  end.

(** The least [k] with [v < 10^k], for a positive number [v] of ticks: the
    search starts at the digits of the power of two below [v]. *)
Definition decimal_magnitude (ticks : Z) : Z :=
  let start := ((Z.log2 ticks - 1074) * 30103) / 100000 in
  default (start + 3) (first_from 3 start (λ k,
    if ratio_ltb (ticks, one_us) (decimal_ratio 1 k) then Some k else None)).

(** The decimal of [n] digits nearest to [ticks] that reads back as [ticks];
    [k] is the magnitude. *)
Definition nearest_decimal (ticks k n : Z) : option (Z * Z) :=
  let v := (ticks, one_us) in
  let e := k - n in
  let s := decimal_ratio 1 (- e) in
  let lo := (ticks * s.1) / (one_us * s.2) in
  let reads_back := λ m, (0 <? m) && (let '(a, b) := decimal_ratio m e in round_ratio a b =? ticks) in
  let '(near, far) :=
    if ratio_ltb (ratio_distance (decimal_ratio (lo + 1) e) v)
                 (ratio_distance (decimal_ratio lo e) v)
    then (lo + 1, lo) else (lo, lo + 1) in
  if reads_back near then Some (near, e)
  else if reads_back far then Some (far, e) else None.

(** [str(x)] of a finite nonnegative double, as the decimal [m * 10^e] that
    the text denotes: the shortest one that reads back as [x].  Seventeen
    digits always read back; the exact decimal expansion that totalises the
    definition is not used. *)
Definition float_decimal (ticks : Z) : Z * Z :=
  if ticks =? 0 then (0, 0)
  else default (ticks * 5 ^ 1074, -1074)
         (first_from 17 1 (nearest_decimal ticks (decimal_magnitude ticks))).

Lemma first_from_Some {A} fuel n (f : Z → option A) a :
  first_from fuel n f = Some a → ∃ k, f k = Some a.
Proof.
  revert n. induction fuel as [|fuel IH]; intros n; simpl; [done|].
  destruct (f n) eqn:E; [|apply IH]. intros [= <-]. eauto.
Qed.

Lemma nearest_decimal_pos t k n m e : nearest_decimal t k n = Some (m, e) → 0 < m.
Proof.
  unfold nearest_decimal. cbv zeta. destruct (if ratio_ltb _ _ then _ else _) as [near far].
  destruct ((0 <? near) && _) eqn:E1.
  { intros [= <- <-]. apply andb_true_iff in E1 as [E1 _]. lia. }
  destruct ((0 <? far) && _) eqn:E2; [|done].
  intros [= <- <-]. apply andb_true_iff in E2 as [E2 _]. lia.
Qed.

Lemma float_decimal_pos t : 0 < t → 0 < (float_decimal t).1.
Proof.
  intros Ht. unfold float_decimal. destruct (Z.eqb_spec t 0); [lia|].
  destruct (first_from _ _ _) as [[m e]|] eqn:E; cbn [default].
  - apply first_from_Some in E as [k E]. by eapply nearest_decimal_pos.
  - cbn [fst]. apply Z.mul_pos_pos; [done|]. by apply Z.pow_pos_nonneg.
Qed.

Lemma float_decimal_nonneg t : 0 ≤ t → 0 ≤ (float_decimal t).1.
Proof.
  intros Ht. destruct (decide (t = 0)) as [->|]; [done|].
  pose proof (float_decimal_pos t). lia.
Qed.

(** ** The rationals of the package *)

Class MpqLibrary := {
  mpq : Type;
  mpq_ord :: PyOrd mpq;                       (* <, <=, == *)
  mpq_int : Z → mpq;                          (* mpq(z) *)
  mpq_decimal : Z → Z → mpq;                  (* mpq("<m>e<e>") *)
  mpq_add : mpq → mpq → mpq;
  mpq_sub : mpq → mpq → mpq;
  mpq_mul : mpq → mpq → mpq;
  mpq_div : mpq → mpq → res mpq;
  numerator : mpq → Z;
  denominator : mpq → Z;
}.

Declare Scope mpq_scope.
Delimit Scope mpq_scope with mpq.
Infix "+" := mpq_add : mpq_scope.
Infix "-" := mpq_sub : mpq_scope.
Infix "*" := mpq_mul : mpq_scope.

(** Every number has a rational value, and the operations are exact. *)
Class MpqLaws `{MpqLibrary} := {
  mpq_value : mpq → Q;
  mpq_value_cmp x y : pcmp x y = (mpq_value x ?= mpq_value y)%Q;
  mpq_value_int z : (mpq_value (mpq_int z) == inject_Z z)%Q;
  mpq_value_decimal m e :
    (mpq_value (mpq_decimal m e) ==
      inject_Z (decimal_ratio m e).1 / inject_Z (decimal_ratio m e).2)%Q;
  mpq_value_add x y : (mpq_value (x + y)%mpq == mpq_value x + mpq_value y)%Q;
  mpq_value_sub x y : (mpq_value (x - y)%mpq == mpq_value x - mpq_value y)%Q;
  mpq_value_mul x y : (mpq_value (x * y)%mpq == mpq_value x * mpq_value y)%Q;
  mpq_value_div x y : ¬ (mpq_value y == 0)%Q →
    ∃ z, mpq_div x y = Ok z ∧ (mpq_value z == mpq_value x / mpq_value y)%Q;
  mpq_ratio x : 0 < denominator x ∧
    (mpq_value x == inject_Z (numerator x) / inject_Z (denominator x))%Q;
}.

(** [_exact_number] of an integer and of a double. *)
Definition _exact_number `{MpqLibrary} (ticks : Z) : mpq :=
  mpq_decimal (float_decimal ticks).1 (float_decimal ticks).2.

Definition _exact_float `{MpqLibrary} (x : mpq) : res Z :=
  int_truediv (numerator x) (denominator x).

(** The first argument unless the second is greater, [max(x, y)]. *)
Definition mpq_max `{MpqLibrary} (x y : mpq) : mpq := if pltb x y then y else x.

(** [x == y] *)
Definition mpq_eqb `{MpqLibrary} (x y : mpq) : bool :=
  match pcmp x y with Eq => true | _ => false end.

(** ** Laws *)

Section laws.
Context `{MpqLaws}.

Lemma mpq_le x y : pleb x y = true ↔ (mpq_value x <= mpq_value y)%Q.
Proof.
  unfold pleb. rewrite mpq_value_cmp, Qle_alt. by destruct (_ ?= _)%Q.
Qed.

Lemma mpq_lt x y : pltb x y = true ↔ (mpq_value x < mpq_value y)%Q.
Proof. rewrite pltb_spec, mpq_value_cmp. by rewrite Qlt_alt. Qed.

Lemma mpq_nle x y : pleb x y = false ↔ (mpq_value y < mpq_value x)%Q.
Proof. by rewrite pleb_pltb, negb_false_iff, mpq_lt. Qed.

Lemma mpq_nlt x y : pltb x y = false ↔ (mpq_value y <= mpq_value x)%Q.
Proof. by rewrite pltb_pleb, negb_false_iff, mpq_le. Qed.

Lemma mpq_eq x y : (mpq_value x == mpq_value y)%Q → x = y.
Proof. intros E. apply pcmp_eq. by rewrite mpq_value_cmp, <- Qeq_alt. Qed.

Lemma mpq_eqb_eq x y : mpq_eqb x y = true ↔ x = y.
Proof. rewrite <- (pcmp_eq x y). unfold mpq_eqb. by destruct (pcmp x y). Qed.

Lemma mpq_value_max x y : (mpq_value x <= mpq_value (mpq_max x y) ∧
  mpq_value y <= mpq_value (mpq_max x y))%Q ∧ (mpq_max x y = x ∨ mpq_max x y = y).
Proof.
  unfold mpq_max. destruct (pltb x y) eqn:E.
  - apply mpq_lt, Qlt_le_weak in E. auto using Qle_refl.
  - apply mpq_nlt in E. auto using Qle_refl.
Qed.

Lemma decimal_ratio_pos m e : 0 < (decimal_ratio m e).2.
Proof. unfold decimal_ratio. destruct (Z.leb_spec 0 e); simpl; [done|]. apply Z.pow_pos_nonneg; lia. Qed.

Lemma inject_Z_pos z : 0 < z → (0 < inject_Z z)%Q.
Proof. intros. change 0%Q with (inject_Z 0). by rewrite <- Zlt_Qlt. Qed.

Lemma inject_Z_nonneg z : 0 ≤ z → (0 <= inject_Z z)%Q.
Proof. intros. change 0%Q with (inject_Z 0). by rewrite <- Zle_Qle. Qed.

Lemma exact_number_nonneg t : 0 ≤ t → (0 <= mpq_value (_exact_number t))%Q.
Proof.
  intros Ht. unfold _exact_number. rewrite mpq_value_decimal.
  apply Qle_shift_div_l; [apply inject_Z_pos, decimal_ratio_pos|]. rewrite Qmult_0_l.
  apply inject_Z_nonneg. pose proof (float_decimal_nonneg t Ht). unfold decimal_ratio.
  destruct (Z.leb_spec 0 (float_decimal t).2); simpl; [|done].
  apply Z.mul_nonneg_nonneg; [done|]. by apply Z.pow_nonneg.
Qed.

Lemma exact_number_pos t : 0 < t → (0 < mpq_value (_exact_number t))%Q.
Proof.
  intros Ht. unfold _exact_number. rewrite mpq_value_decimal.
  apply Qlt_shift_div_l; [apply inject_Z_pos, decimal_ratio_pos|]. rewrite Qmult_0_l.
  apply inject_Z_pos. pose proof (float_decimal_pos t Ht). unfold decimal_ratio.
  destruct (Z.leb_spec 0 (float_decimal t).2); simpl; [|done].
  apply Z.mul_pos_pos; [done|]. by apply Z.pow_pos_nonneg.
Qed.
End laws.

(** ** Canonical fractions are such a library *)

#[export] Program Instance Qc_PyOrd : PyOrd Qc := {| pcmp := Qccompare |}.
Next Obligation. intros x y. by rewrite Qceq_alt. Qed.
Next Obligation. intros x y. unfold Qccompare. by rewrite Qcompare_antisym. Qed.
Next Obligation. intros x y z. rewrite <- !Qclt_alt. apply Qclt_trans. Qed.

#[export] Instance Qc_MpqLibrary : MpqLibrary := {|
  mpq := Qc;
  mpq_int z := Q2Qc (inject_Z z);
  mpq_decimal m e := Q2Qc (inject_Z (decimal_ratio m e).1 / inject_Z (decimal_ratio m e).2);
  mpq_add := Qcplus;
  mpq_sub := Qcminus;
  mpq_mul := Qcmult;
  mpq_div x y := if Qc_eq_bool y 0%Qc then Err (ZeroDivisionError "division or modulo by zero")
                 else Ok (x / y)%Qc;
  numerator x := Qnum (this x);
  denominator x := Z.pos (Qden (this x));
|}.

#[export] Program Instance Qc_MpqLaws : MpqLaws := {| mpq_value := this |}.
Next Obligation. done. Qed.
Next Obligation. intros. apply Qred_correct. Qed.
Next Obligation. intros. apply Qred_correct. Qed.
Next Obligation. intros. apply Qred_correct. Qed.
Next Obligation. intros x y. cbn. unfold Qcminus. rewrite Qred_correct. simpl. by rewrite Qred_correct. Qed.
Next Obligation. intros. apply Qred_correct. Qed.
Next Obligation.
  intros x y Hy. cbn. unfold Qc_eq_bool. destruct (Qcanon.Qc_eq_dec y 0%Qc) as [->|_].
  { exfalso. apply Hy. reflexivity. }
  exists (x / y)%Qc. split; [reflexivity|]. unfold Qcdiv, Qcinv. cbn. rewrite !Qred_correct. done.
Qed.
Next Obligation.
  intros x. split; [done|]. cbn. unfold Qeq, Qdiv, Qmult, Qinv, inject_Z. simpl. lia.
Qed.

Example float_decimal_tenth : float_decimal
  (default 0 (match int_truediv 1 10 with Ok t => Some t | _ => None end)) = (1, -1).
Proof. vm_compute. reflexivity. Qed.

Example float_decimal_large : float_decimal (2 ^ 100 * one_us) = (12676506002282294, 14).
Proof. vm_compute. reflexivity. Qed.
