(* ===== verification/Performance.v ===== *)
(** * Cost models, rate profiles and physical work ([performance/model.py],
    [performance/profiles.py], [performance/events.py])

    The constructors are modelled with their checks in the order of the code.
    Arguments whose types the code checks at run time, numbers above all, are
    dynamically typed; identities and lists of identities are strings.  Times,
    costs and rates are finite doubles, as ticks ([Floats]); the parser of ISO
    timestamps of the standard library is the parameter [fromisoformat]: it
    fails, or says whether the moment it read has a timezone. *)

From Stdlib Require Import Ascii.
From S2P Require Import Prelude.
From S2P Require Import Python.
From S2P Require Import Floats.
Local Open Scope Z_scope.

(** ** Equality of dynamically typed values *)

Definition py_number (v : pyval) : option pyfloat :=
  match v with
  | PInt z => Some (Finite (z * one_us))
  | PBool b => Some (Finite (Z.b2z b * one_us))
  | PFloat f => Some f
  | _ => None
  end.

(** [x == y]: numbers compare across types, dictionaries without order. *)
Fixpoint py_eqb (x y : pyval) {struct x} : bool :=
  match x, y with
  | PStr s, PStr t => String.eqb s t
  | PNone, PNone => true
  | PList l, PList k =>
      (fix go (l k : list pyval) : bool :=
         match l, k with
         | [], [] => true
         | a :: l, b :: k => py_eqb a b && go l k
         | _, _ => false
         end) l k
  | PDict d, PDict e =>
      (length d =? length e)%nat &&
      (fix go (d : list (string * pyval)) : bool :=
         match d with
         | [] => true
         | (k, a) :: d =>
             match dict_get k e with Some b => py_eqb a b && go d | None => false end
         end) d
  | _, _ =>
      match py_number x, py_number y with
      | Some a, Some b => float_eqb a b
      | _, _ => false
      end
  end.

(** [bool(x)] *)
Definition py_truthy (v : pyval) : bool :=
  match v with
  | PInt z => negb (z =? 0)
  | PBool b => b
  | PFloat (Finite t) => negb (t =? 0)
  | PFloat _ => true
  | PStr s => negb (String.eqb s EmptyString)
  | PNone => false
  | PList l => match l with [] => false | _ => true end
  | PDict d => match d with [] => false | _ => true end
  | POther => true
  end.

(** ** [performance/model.py] *)

Definition SOURCES : list string := ["initial"; "estimated"; "measured"; "history"]%string.
Definition measured_sources : list string := ["measured"; "history"]%string.

(** [finite]: a finite nonnegative number, as a double. *)
Definition finite (value : pyval) (name : string) (positive : bool) : res Z :=
  let failure := SemanticError (name +:+ " must be finite and " +:+
                   (if positive then "positive" else "nonnegative"))%string in
  match value with
  | PInt z =>
      t ← float_of_int z;
      raise_when ((z <? 0) || (positive && (z =? 0))) failure;;
      Ok t
  | PFloat (Finite t) =>
      raise_when ((t <? 0) || (positive && (t =? 0))) failure;;
      Ok t
  | _ => Err failure
  end.

(** [stamp.replace("Z", "+00:00")] *)
Fixpoint replace_zulu (s : string) : string :=
  match s with
  | EmptyString => EmptyString
  | String a s => if Ascii.eqb a "Z"%char then ("+00:00" +:+ replace_zulu s)%string
                  else String a (replace_zulu s)
  end.

Definition measurement_time (fromisoformat : string → option bool) (source : string)
    (stamp : pyval) : res unit :=
  raise_when (bool_decide (source ∈ measured_sources) && match stamp with PNone => true | _ => false end)
    (SemanticError "measured costs require their original measurement time");;
  match stamp with
  | PNone => Ok tt
  | PStr text =>
      match fromisoformat (replace_zulu text) with
      | None => Err (SemanticError "invalid measurement timestamp")
      | Some aware =>
          raise_when (negb aware) (SemanticError "measurement timestamp needs a timezone")
      end
  | _ => Err (SemanticError "invalid measurement timestamp")
  end.

(** The checks on [min_bytes] and on [max_bytes]. *)
Definition domain_start (value : pyval) (failure : exn) : res Z :=
  match value with
  | PInt z => raise_when (z <? 1) failure;; Ok z
  | _ => Err failure
  end.
Definition domain_end (value : pyval) (min_bytes : Z) (failure : exn) : res (option Z) :=
  match value with
  | PNone => Ok None
  | PInt z => raise_when (z <? min_bytes) failure;; Ok (Some z)
  | _ => Err failure
  end.

Record ServiceCost := {
  sc_alpha_us : Z;
  sc_beta_us_per_byte : Z;
  sc_source : string;
  sc_min_bytes : Z;
  sc_max_bytes : option Z;
  sc_measured_at : pyval;
  sc_qualified : pyval;
}.

Definition ServiceCost_init (fromisoformat : string → option bool)
    (alpha_us beta_us_per_byte : pyval) (source : string)
    (min_bytes max_bytes measured_at qualified : pyval) : res ServiceCost :=
  alpha ← finite alpha_us "alpha_us" false;
  beta ← finite beta_us_per_byte "beta_us_per_byte" true;
  raise_when (bool_decide (source ∉ SOURCES) ||
              (bool_decide (source ∈ measured_sources) && negb (py_truthy qualified)))
    (SemanticError "invalid or unqualified cost source");;
  lo ← domain_start min_bytes
    (SemanticError "cost size domain must start at a positive byte count");
  hi ← domain_end max_bytes lo (SemanticError "cost size domain is invalid");
  measurement_time fromisoformat source measured_at;;
  Ok {| sc_alpha_us := alpha; sc_beta_us_per_byte := beta; sc_source := source;
        sc_min_bytes := lo; sc_max_bytes := hi; sc_measured_at := measured_at;
        sc_qualified := qualified |}.

(** [covers], of a cost and of a profile. *)
Definition size_covers (min_bytes : Z) (max_bytes : option Z) (size : Z) : bool :=
  (min_bytes <=? size) && match max_bytes with None => true | Some m => size <=? m end.
Definition covers (self : ServiceCost) (size : Z) : bool :=
  size_covers (sc_min_bytes self) (sc_max_bytes self) size.

(** ** [performance/events.py] *)

Inductive WorkKind := KSend | KRrc | KCopy | KReduce | KNop.

#[export] Instance WorkKind_eq_dec : EqDecision WorkKind.
Proof. solve_decision. Defined.

Definition work_kind (kind : string) : option WorkKind :=
  dict_get kind [("send", KSend); ("rrc", KRrc); ("copy", KCopy); ("reduce", KReduce); ("nop", KNop)]%string.

(** [kind in {"send", "rrc"}] *)
Definition is_communication (kind : WorkKind) : bool :=
  match kind with KSend | KRrc => true | _ => false end.

Record WorkOperation := {
  wo_operation_id : string;
  wo_kind : WorkKind;
  wo_cost_key : option string;
  wo_payload_bytes : Z;
  wo_dependencies : list string;
  wo_resources : list string;
  wo_flow_id : option string;
  wo_not_before_us : Z;
  wo_source_override : option string;
}.

#[export] Instance WorkOperation_eq_dec : EqDecision WorkOperation.
Proof. solve_decision. Defined.

(** [not isinstance(value, str) or not value] *)
Definition nonempty_text (value : option string) : bool :=
  match value with Some (String _ _) => true | _ => false end.

(** The loop over [dependencies] and [resources]. *)
Definition identities (values : list string) (failure : exn) : res unit :=
  raise_when (existsb (λ v, negb (nonempty_text (Some v))) values || negb (bool_decide (NoDup values)))
    failure.

Definition WorkOperation_init (operation_id kind : string) (cost_key : option string)
    (payload_bytes : pyval) (dependencies resources : list string) (flow_id : option string)
    (not_before_us : pyval) (source_override : option string) : res WorkOperation :=
  raise_when (negb (nonempty_text (Some operation_id)))
    (SemanticError "work operation needs an identity");;
  raise_when (bool_decide (source_override ≠ None) &&
              bool_decide (source_override ≠ Some "estimated"%string))
    (SemanticError "operation source may only downgrade a proxy cost to estimated");;
  kind ← of_option (work_kind kind) (SemanticError "unknown physical work kind");
  payload ← match payload_bytes with
            | PInt z =>
                raise_when (z <? 0)
                  (SemanticError "payload must be a nonnegative integer byte count");;
                Ok z
            | _ => Err (SemanticError "payload must be a nonnegative integer byte count")
            end;
  (if decide (kind = KNop)
   then raise_when (negb (payload =? 0) || bool_decide (cost_key ≠ None))
          (SemanticError "NOP carries no data or service cost")
   else raise_when ((payload =? 0) || negb (nonempty_text cost_key))
          (SemanticError "data operation needs payload and a cost component"));;
  raise_when (is_communication kind && negb (nonempty_text flow_id))
    (SemanticError "communication needs a semantic flow identity");;
  raise_when (negb (is_communication kind) && negb (bool_decide (resources = [])))
    (SemanticError "independent local operations do not use mixed communication resources");;
  identities dependencies (SemanticError "invalid operation dependencies");;
  identities resources (SemanticError "invalid operation resources");;
  not_before ← finite not_before_us "hard release time" false;
  Ok {| wo_operation_id := operation_id; wo_kind := kind; wo_cost_key := cost_key;
        wo_payload_bytes := payload; wo_dependencies := dependencies;
        wo_resources := resources; wo_flow_id := flow_id; wo_not_before_us := not_before;
        wo_source_override := source_override |}.

Record Executable := {
  ex_operations : list WorkOperation;
  ex_output_operations : list string;
  ex_context : list (string * pyval);
}.

(** The set of identities is [ids]; without [output_operations] all of them
    are outputs. *)
Definition Executable_init (operations : list WorkOperation)
    (output_operations : option (list string)) (context : list (string * pyval))
    : res Executable :=
  let ids : gset string := list_to_set (wo_operation_id <$> operations) in
  raise_when (negb (size ids =? length operations)%nat)
    (SemanticError "duplicate physical operation");;
  raise_when (existsb (λ op, negb (bool_decide ((list_to_set (wo_dependencies op) : gset string) ⊆ ids)))
                operations)
    (SemanticError "unknown operation dependency");;
  let outputs := match output_operations with None => elements ids | Some l => l end in
  raise_when (negb (bool_decide ((list_to_set outputs : gset string) ⊆ ids)))
    (SemanticError "unknown output operation");;
  Ok {| ex_operations := operations; ex_output_operations := sorted_by id outputs;
        ex_context := context |}.

Record Endpoint := { en_role : string; en_operation : WorkOperation }.

(** [grouped.setdefault(operation_id, []).append(endpoint)] *)
Definition group_endpoint (grouped : list (string * list Endpoint)) (endpoint : Endpoint)
    : list (string * list Endpoint) :=
  let key := wo_operation_id (en_operation endpoint) in
  dict_set key (default [] (dict_get key grouped) ++ [endpoint]) grouped.

Definition paired_operation (members : list Endpoint) : res WorkOperation :=
  match members with
  | [] => Err (IndexError "list index out of range")
  | first :: _ =>
      let operation := en_operation first in
      let required : gset string :=
        if decide (wo_kind operation = KRrc) then {[ "send"; "recv_reduce" ]}%string
        else {[ "send"; "recv" ]}%string in
      raise_when (negb (is_communication (wo_kind operation)) || negb (length members =? 2)%nat ||
                  negb (bool_decide ((list_to_set (en_role <$> members) : gset string) = required)) ||
                  existsb (λ item, bool_decide (en_operation item ≠ operation)) members)
        (SemanticError "physical endpoint pair is missing, duplicated or inconsistent");;
      Ok operation
  end.

Definition pair_endpoints (endpoints : list Endpoint) : res Executable :=
  let grouped := foldl group_endpoint [] endpoints in
  operations ← mapR paired_operation grouped.*2;
  Executable_init (sorted_by wo_operation_id operations) None [].

(** Times and rates are rationals in the replay and doubles in its result. *)
Record ProgressEvent (T : Type) := {
  pe_time_us : T;
  pe_kind : string;
  pe_operation_id : string;
}.
Arguments pe_time_us {T}. Arguments pe_kind {T}. Arguments pe_operation_id {T}.

Record ProgressSegment (T : Type) := {
  ps_operation_id : string;
  ps_start_us : T;
  ps_end_us : T;
  ps_rate_bytes_per_us : T;
  ps_source : string;
}.
Arguments ps_operation_id {T}. Arguments ps_start_us {T}. Arguments ps_end_us {T}.
Arguments ps_rate_bytes_per_us {T}. Arguments ps_source {T}.

(** ** [performance/profiles.py] *)

Record RateProfile := {
  rp_profile_id : string;
  rp_mode : list string;
  rp_rates : list (string * Z);
  rp_resources : list string;
  rp_min_bytes : Z;
  rp_max_bytes : option Z;
  rp_source : string;
  rp_measured_at : pyval;
  rp_startup_us : list (string * Z);
  rp_flow_resources : list (string * list string);
}.

(** [{k: finite(v, name, positive=...) for k, v in d.items()}] *)
Definition finite_values (d : list (string * pyval)) (name : string) (positive : bool)
    : res (list (string * Z)) :=
  mapR (λ '(k, v), t ← finite v name positive; Ok (k, t)) d.

(** [tuple(sorted(set(values)))] *)
Definition sorted_set (values : list string) : list string :=
  sorted_by id (elements (list_to_set values : gset string)).

Definition RateProfile_init (fromisoformat : string → option bool) (profile_id : string)
    (mode : list string) (rates : list (string * pyval)) (resources : list string)
    (min_bytes max_bytes : pyval) (source : string) (measured_at : pyval)
    (startup_us : list (string * pyval)) (flow_resources : list (string * list string))
    : res RateProfile :=
  raise_when (negb (nonempty_text (Some profile_id)))
    (SemanticError "profile needs a stable identity");;
  let mode := sorted_by id mode in
  raise_when (bool_decide (mode = []) || existsb (λ flow, negb (nonempty_text (Some flow))) mode ||
              negb (bool_decide (NoDup mode)))
    (SemanticError "profile mode needs unique semantic flow identities");;
  let modes : gset string := list_to_set mode in
  raise_when (negb (bool_decide ((list_to_set rates.*1 : gset string) = modes)))
    (SemanticError "profile rate vector must cover the exact concurrent mode");;
  raise_when (bool_decide (source ∉ SOURCES)) (SemanticError "invalid profile source");;
  measurement_time fromisoformat source measured_at;;
  lo ← domain_start min_bytes (SemanticError "invalid profile payload domain");
  hi ← domain_end max_bytes lo (SemanticError "invalid profile payload domain");
  raise_when (existsb (λ r, negb (nonempty_text (Some r))) resources)
    (SemanticError "invalid profile resource identity");;
  raise_when (negb (bool_decide ((list_to_set startup_us.*1 : gset string) ⊆ modes)))
    (SemanticError "startup vector uses an unknown flow");;
  rates ← finite_values rates "measured rate" true;
  startup_us ← finite_values startup_us "startup" false;
  let membership := (λ '(key, values), (key, sorted_set values)) <$> flow_resources in
  raise_when (negb (bool_decide (membership = [])) &&
              (negb (bool_decide ((list_to_set membership.*1 : gset string) = modes)) ||
               negb (bool_decide ((list_to_set (concat membership.*2) : gset string) =
                                  list_to_set resources))))
    (SemanticError "profile resource membership must cover its exact mode and resource union");;
  Ok {| rp_profile_id := profile_id; rp_mode := mode; rp_rates := rates;
        rp_resources := sorted_set resources; rp_min_bytes := lo; rp_max_bytes := hi;
        rp_source := source; rp_measured_at := measured_at; rp_startup_us := startup_us;
        rp_flow_resources := membership |}.

(** [operation.flow_id] of a communication, which always has one. *)
Definition op_flow (operation : WorkOperation) : string :=
  default EmptyString (wo_flow_id operation).

Definition applies (self : RateProfile) (operations : list WorkOperation) : bool :=
  let mode := sorted_by id (op_flow <$> operations) in
  let resources := sorted_set (concat (wo_resources <$> operations)) in
  let membership_matches :=
    bool_decide (rp_flow_resources self = []) ||
    forallb (λ op, bool_decide (dict_get (op_flow op) (rp_flow_resources self) =
                                Some (sorted_by id (wo_resources op)))) operations in
  bool_decide (mode = rp_mode self) && bool_decide (resources = rp_resources self) &&
  membership_matches &&
  forallb (λ op, size_covers (rp_min_bytes self) (rp_max_bytes self) (wo_payload_bytes op)) operations.

(** ** The cost model *)

Record CostModel := {
  cm_version : string;
  cm_services : list (string * list ServiceCost);
  cm_resources : list (string * Z);
  cm_profiles : list RateProfile;
  cm_context : list (string * pyval);
  cm_metadata : list (string * pyval);
}.

(** [left.max_bytes is None or left.max_bytes >= right.min_bytes] of neighbours *)
Fixpoint domains_overlap (values : list ServiceCost) : bool :=
  match values with
  | a :: (b :: _) as rest =>
      match sc_max_bytes a with None => true | Some m => sc_min_bytes b <=? m end ||
      domains_overlap rest
  | _ => false
  end.

Definition service_pieces (entry : string * list ServiceCost) : res (string * list ServiceCost) :=
  let '(key, values) := entry in
  raise_when (negb (nonempty_text (Some key)))
    (SemanticError "cost component key must be nonempty");;
  raise_when (bool_decide (length values = 0%nat))
    (SemanticError "service cost component must contain ServiceCost records");;
  let values := sorted_by sc_min_bytes values in
  raise_when (domains_overlap values) (SemanticError "service size domains overlap");;
  Ok (key, values).

Definition CostModel_init (version : string) (services : list (string * list ServiceCost))
    (resources : list (string * pyval)) (profiles : list RateProfile)
    (context metadata : list (string * pyval)) : res CostModel :=
  raise_when (negb (nonempty_text (Some version)))
    (SemanticError "cost model needs a version identity");;
  services ← mapR service_pieces services;
  resources ← finite_values resources "resource capacity" true;
  raise_when (existsb (λ key, negb (nonempty_text (Some key))) resources.*1)
    (SemanticError "resource identity must be nonempty");;
  raise_when (negb (bool_decide (NoDup (rp_profile_id <$> profiles))))
    (SemanticError "duplicate profile identity");;
  Ok {| cm_version := version; cm_services := services; cm_resources := resources;
        cm_profiles := profiles; cm_context := context; cm_metadata := metadata |}.

Definition service_for (self : CostModel) (key : string) (size : Z) : option ServiceCost :=
  head (filter (λ value, Is_true (covers value size)) (default [] (dict_get key (cm_services self)))).

(** What [with_updates] reports of a changed component; the code renders the
    records as JSON. *)
Inductive ModelChange :=
  | ServiceChange (key : string) (before : option (list ServiceCost)) (after : list ServiceCost)
  | ResourceChange (key : string) (before : option Z) (after : pyval)
  | ProfilesChange (before after : list RateProfile).

Definition with_updates (self : CostModel) (version : string)
    (services : list (string * list ServiceCost)) (resources : list (string * pyval))
    (profiles : option (list RateProfile)) : res (CostModel * list ModelChange) :=
  raise_when (String.eqb version (cm_version self))
    (SemanticError "a model update needs a new version identity");;
  let updated_services := foldl (λ d '(key, value), dict_set key value d) (cm_services self) services in
  let updated_resources := foldl (λ d '(key, value), dict_set key value d)
    ((λ '(key, t), (key, PFloat (Finite t))) <$> cm_resources self) resources in
  let changes :=
    ((λ '(key, value), ServiceChange key (dict_get key (cm_services self)) value) <$> services) ++
    ((λ '(key, value), ResourceChange key (dict_get key (cm_resources self)) value) <$> resources) ++
    match profiles with None => [] | Some l => [ProfilesChange (cm_profiles self) l] end in
  model ← CostModel_init version updated_services updated_resources
    (default (cm_profiles self) profiles) (cm_context self) (cm_metadata self);
  Ok (model, changes).
