(* ===== verification/Prediction.v ===== *)
(** * The replay of an executable on a cost model ([performance/simulation.py])

    [predict] in exact mode, which every caller of the lowering, the solver and
    the verifier uses.  The locals of the function are the record [Replay]; a
    round of its loop is [replay_round], composed of one definition per phase.
    The optional lease, which only interrupts long runs, is not modelled. *)

From S2P Require Import Prelude.
From S2P Require Import Python.
From S2P Require Import V5Program.
From S2P Require Import Mpq.
From S2P Require Import Performance.
Local Open Scope Z_scope.

(** [Prediction]; times are doubles, as ticks. *)
Record Prediction := {
  pd_model_version : string;
  pd_t_pred_us : option Z;
  pd_output_ready_us : option Z;
  pd_start_times : gmap string Z;
  pd_end_times : gmap string Z;
  pd_events : list (ProgressEvent Z);
  pd_segments : list (ProgressSegment Z);
  pd_used_components : gset string;
  pd_missing_components : gset string;
  pd_unavailable_operations : list string;
  pd_model_coverage : string;
  pd_exact_completion_ratio : option (Z * Z);
  pd_unmeasured_modes : list (list string);
}.

(** ** The dependency graph *)

Definition work_table (operations : list WorkOperation) : list (string * gset string) :=
  (λ op, (wo_operation_id op, list_to_set (wo_dependencies op))) <$> operations.

(** [successors[key]] *)
Definition work_successors (operations : list WorkOperation) (key : string) : list WorkOperation :=
  filter (λ op, key ∈ wo_dependencies op) operations.

(** [_acyclic]; it returns the degrees. *)
Definition _acyclic (operations : list WorkOperation) : res (gmap string Z) :=
  let degrees : gmap string Z := list_to_map
    ((λ op, (wo_operation_id op, Z.of_nat (length (wo_dependencies op)))) <$> operations) in
  raise_when (existsb (λ op, existsb (λ d, bool_decide (degrees !! d = None)) (wo_dependencies op))
                operations) (KeyError "predecessor");;
  completed ← dependency_loop (S (length operations)) (work_table operations) degrees
    (wo_operation_id <$> filter (λ op, wo_dependencies op = []) operations) [];
  raise_when (negb (length completed =? size degrees)%nat)
    (SemanticError "executable dependency cycle");;
  Ok degrees.

(** ** Groups that share resources *)

Definition op_resources (op : WorkOperation) : gset string := list_to_set (wo_resources op).

(** One pass of [for operation in tuple(remaining)]: the group, its resources
    and the operations that remain. *)
Fixpoint component_pass (group : list WorkOperation) (resources : gset string)
    (remaining : list WorkOperation) : list WorkOperation * gset string * list WorkOperation :=
  match remaining with
  | [] => (group, resources, [])
  | op :: remaining =>
      if decide (resources ∩ op_resources op = ∅) then
        let '(group, resources, kept) := component_pass group resources remaining in
        (group, resources, op :: kept)
      else component_pass (group ++ [op]) (resources ∪ op_resources op) remaining
  end.

(** [while changed] *)
Fixpoint component_grow (fuel : nat) (group : list WorkOperation) (resources : gset string)
    (remaining : list WorkOperation) : res (list WorkOperation * list WorkOperation) :=
  match fuel with
  | O => Err OutOfFuel
  | S fuel =>
      let '(group, resources, kept) := component_pass group resources remaining in
      if (length kept =? length remaining)%nat then Ok (group, kept)
      else component_grow fuel group resources kept
  end.

Fixpoint component_loop (fuel : nat) (remaining : list WorkOperation)
    : res (list (list WorkOperation)) :=
  match fuel with
  | O => Err OutOfFuel
  | S fuel =>
      match remaining with
      | [] => Ok []
      | op :: rest =>
          '(group, kept) ← component_grow (S (length rest)) [op] (op_resources op) rest;
          groups ← component_loop fuel kept;
          Ok (group :: groups)
      end
  end.

Definition _components (operations : list WorkOperation) : res (list (list WorkOperation)) :=
  component_loop (S (length operations)) operations.

Definition _profile (group : list WorkOperation) (model : CostModel) : res (option RateProfile) :=
  match filter (λ profile, Is_true (applies profile group)) (cm_profiles model) with
  | [] => Ok None
  | [profile] => Ok (Some profile)
  | _ => Err (SemanticError "multiple profiles apply to the same concurrency mode")
  end.

Section replay.
Context `{MpqLibrary}.

(** ** Rates of a set of active operations *)

(** [rates] and [sources], which the call returns, and the sets [used] and
    [unmeasured], which it updates. *)
Record Rates := {
  rt_rates : gmap string mpq;
  rt_sources : gmap string string;
  rt_used : gset string;
  rt_unmeasured : gset (list string);
}.

(** [1 / number(costs[key].beta_us_per_byte)] *)
Definition service_rate (costs : gmap string ServiceCost) (op : WorkOperation)
    : res (mpq * ServiceCost) :=
  cost ← of_option (costs !! wo_operation_id op) (KeyError (wo_operation_id op));
  rate ← mpq_div (mpq_int 1) (_exact_number (sc_beta_us_per_byte cost));
  Ok (rate, cost).

Definition local_rate (costs : gmap string ServiceCost) (self : Rates) (op : WorkOperation)
    : res Rates :=
  '(rate, cost) ← service_rate costs op;
  Ok {| rt_rates := <[wo_operation_id op := rate]> (rt_rates self);
        rt_sources := <[wo_operation_id op := sc_source cost]> (rt_sources self);
        rt_used := rt_used self; rt_unmeasured := rt_unmeasured self |}.

Definition resource_capacity (model : CostModel) (resource : string) : res mpq :=
  _exact_number <$> of_option (dict_get resource (cm_resources model)) (KeyError resource).

(** [number(profile.rates[op.flow_id])] *)
Definition profile_rate (profile : RateProfile) (op : WorkOperation) : res mpq :=
  _exact_number <$> of_option (dict_get (op_flow op) (rp_rates profile)) (KeyError (op_flow op)).

Definition mpq_sum (l : list mpq) : mpq := foldl mpq_add (mpq_int 0) l.

(** The check that a measured rate vector respects a capacity. *)
Definition profile_fits (model : CostModel) (profile : RateProfile) (group : list WorkOperation)
    (resource : string) : res unit :=
  assigned ← mapR (profile_rate profile) (filter (λ op, resource ∈ wo_resources op) group);
  capacity ← resource_capacity model resource;
  raise_when (pltb capacity (mpq_sum assigned))
    (SemanticError ("measured rate vector conflicts with resource capacity " +:+ resource)).

Definition profiled_rate (profile : RateProfile) (self : Rates) (op : WorkOperation) : res Rates :=
  rate ← profile_rate profile op;
  Ok {| rt_rates := <[wo_operation_id op := rate]> (rt_rates self);
        rt_sources := <[wo_operation_id op := rp_source profile]> (rt_sources self);
        rt_used := rt_used self; rt_unmeasured := rt_unmeasured self |}.

(** [number(model.resources[resource]) / count] *)
Definition resource_share (model : CostModel) (group : list WorkOperation) (resource : string)
    : res mpq :=
  let count := length (filter (λ member, resource ∈ wo_resources member) group) in
  capacity ← resource_capacity model resource;
  mpq_div capacity (mpq_int (Z.of_nat count)).

Definition shared_rate (costs : gmap string ServiceCost) (model : CostModel)
    (group : list WorkOperation) (self : Rates) (op : WorkOperation) : res Rates :=
  '(own, cost) ← service_rate costs op;
  shares ← mapR (resource_share model group) (wo_resources op);
  let rate := default own (min_by id (own :: shares)) in
  let source := if (1 <? length group)%nat || pltb rate own then "initial_sharing_estimate"%string
                else sc_source cost in
  Ok {| rt_rates := <[wo_operation_id op := rate]> (rt_rates self);
        rt_sources := <[wo_operation_id op := source]> (rt_sources self);
        rt_used := rt_used self; rt_unmeasured := rt_unmeasured self |}.

(** The body of the loop over the groups of communications. *)
Definition group_rates (costs : gmap string ServiceCost) (model : CostModel) (self : Rates)
    (group : list WorkOperation) : res Rates :=
  raise_when (negb (size (list_to_set (op_flow <$> group) : gset string) =? length group)%nat)
    (SemanticError "concurrent operations share a flow identity; serialize their TB work");;
  profile ← _profile group model;
  let resources : gset string := list_to_set (concat (wo_resources <$> group)) in
  let used := rt_used self ∪ list_to_set ((λ r, "resource:" +:+ r)%string <$> elements resources) in
  match profile with
  | Some profile =>
      iterM (profile_fits model profile group) (elements resources);;
      foldM (profiled_rate profile)
        {| rt_rates := rt_rates self; rt_sources := rt_sources self;
           rt_used := used ∪ {["profile:" +:+ rp_profile_id profile]}%string;
           rt_unmeasured := rt_unmeasured self |} group
  | None =>
      foldM (shared_rate costs model group)
        {| rt_rates := rt_rates self; rt_sources := rt_sources self; rt_used := used;
           rt_unmeasured := if (1 <? length group)%nat
                            then rt_unmeasured self ∪ {[sorted_by id (op_flow <$> group)]}
                            else rt_unmeasured self |} group
  end.

Definition _rates (active : list WorkOperation) (costs : gmap string ServiceCost)
    (model : CostModel) (used : gset string) (unmeasured : gset (list string)) : res Rates :=
  let communication := filter (λ op, Is_true (is_communication (wo_kind op))) active in
  let locals := filter (λ op, ¬ Is_true (is_communication (wo_kind op))) active in
  self ← foldM (local_rate costs)
    {| rt_rates := ∅; rt_sources := ∅; rt_used := used; rt_unmeasured := unmeasured |} locals;
  groups ← _components communication;
  foldM (group_rates costs model) self groups.

(** ** The state of the replay *)

Record Replay := {
  r_pending : gset string;
  r_releases : list (mpq * string);
  r_degrees : gmap string Z;
  r_startup : gmap string mpq;
  r_active : gset string;
  r_remaining : gmap string mpq;
  r_starts : gmap string mpq;
  r_ends : gmap string mpq;
  r_events : list (ProgressEvent mpq);
  r_segments : list (ProgressSegment Z);
  r_sources_used : gset string;
  r_used : gset string;
  r_unmeasured : gset (list string);
  r_now : mpq;
}.

Context (operations : list WorkOperation) (model : CostModel) (costs : gmap string ServiceCost).

(** [operations[key]] *)
Definition op_of (key : string) : option WorkOperation :=
  dict_get key ((λ op, (wo_operation_id op, op)) <$> operations).
Definition find_op (key : string) : res WorkOperation := of_option (op_of key) (KeyError key).

Definition set_work (st : Replay) (pending : gset string) (startup : gmap string mpq)
    (active : gset string) (events : list (ProgressEvent mpq)) : Replay :=
  {| r_pending := pending; r_releases := r_releases st; r_degrees := r_degrees st;
     r_startup := startup; r_active := active; r_remaining := r_remaining st;
     r_starts := r_starts st; r_ends := r_ends st; r_events := r_events st ++ events;
     r_segments := r_segments st; r_sources_used := r_sources_used st; r_used := r_used st;
     r_unmeasured := r_unmeasured st; r_now := r_now st |}.

Definition set_queue (st : Replay) (releases : list (mpq * string)) (degrees : gmap string Z)
    : Replay :=
  {| r_pending := r_pending st; r_releases := releases; r_degrees := degrees;
     r_startup := r_startup st; r_active := r_active st; r_remaining := r_remaining st;
     r_starts := r_starts st; r_ends := r_ends st; r_events := r_events st;
     r_segments := r_segments st; r_sources_used := r_sources_used st; r_used := r_used st;
     r_unmeasured := r_unmeasured st; r_now := r_now st |}.

Definition set_times (st : Replay) (starts ends remaining : gmap string mpq)
    (sources_used used : gset string) : Replay :=
  {| r_pending := r_pending st; r_releases := r_releases st; r_degrees := r_degrees st;
     r_startup := r_startup st; r_active := r_active st; r_remaining := remaining;
     r_starts := starts; r_ends := ends; r_events := r_events st;
     r_segments := r_segments st; r_sources_used := sources_used; r_used := used;
     r_unmeasured := r_unmeasured st; r_now := r_now st |}.

Definition event (time : mpq) (kind key : string) : ProgressEvent mpq :=
  {| pe_time_us := time; pe_kind := kind; pe_operation_id := key |}.

(** The loop body of [complete]. *)
Definition release_follower (st : Replay) (follower : WorkOperation) : Replay :=
  let key := wo_operation_id follower in
  if decide (key ∈ r_pending st) then
    let degree := default 0 (r_degrees st !! key) - 1 in
    set_queue st
      (if degree =? 0 then r_releases st ++ [(_exact_number (wo_not_before_us follower), key)]
       else r_releases st) (<[key := degree]> (r_degrees st))
  else st.

Definition complete (st : Replay) (key : string) (time : mpq) : Replay :=
  let st := set_times st (r_starts st) (<[key := time]> (r_ends st)) (r_remaining st)
              (r_sources_used st) (r_used st) in
  let st := set_work st (r_pending st) (r_startup st) (r_active st) [event time "complete" key] in
  foldl release_follower st (work_successors operations key).

(** [for key in sorted(tuple(startup))] *)
Definition startup_step (st : Replay) (key : string) : Replay :=
  match r_startup st !! key with
  | Some ready =>
      if pleb ready (r_now st)
      then set_work st (r_pending st) (delete key (r_startup st)) (r_active st ∪ {[key]})
             [event (r_now st) "startup_complete" key]
      else st
  | None => st
  end.

Definition sorted_keys (keys : gset string) : list string := sorted_by id (elements keys).

Definition finish_startups (st : Replay) : Replay :=
  foldl startup_step st (sorted_keys (dom (r_startup st))).

(** The entries popped from the heap while its least one is due, sorted. *)
Definition due_releases (st : Replay) : list string * Replay :=
  let due := filter (λ entry, Is_true (pleb entry.1 (r_now st))) (r_releases st) in
  let rest := filter (λ entry, ¬ Is_true (pleb entry.1 (r_now st))) (r_releases st) in
  (sorted_by id due.*2, set_queue st rest (r_degrees st)).

(** The loop body that selects the startup profiles of a group. *)
Definition group_profiles (profiles : gmap string RateProfile) (group : list WorkOperation)
    : res (gmap string RateProfile) :=
  profile ← _profile group model;
  match profile with
  | None => Ok profiles
  | Some profile =>
      Ok (foldl (λ d op, if bool_decide (op_flow op ∈ (rp_startup_us profile).*1)
                         then <[wo_operation_id op := profile]> d else d) profiles group)
  end.

Definition launch_profiles (st : Replay) (ready : list string) : res (gmap string RateProfile) :=
  let present := r_active st ∪ dom (r_startup st) ∪ list_to_set ready in
  ops ← mapR find_op (sorted_keys present);
  groups ← _components (filter (λ op, Is_true (is_communication (wo_kind op))) ops);
  foldM group_profiles ∅ groups.

(** [alpha] and [source] of a launch, and the component it uses. *)
Definition launch_cost (profiles : gmap string RateProfile) (op : WorkOperation)
    (cost : ServiceCost) : res (Z * string * gset string) :=
  match profiles !! wo_operation_id op with
  | None => Ok (sc_alpha_us cost, sc_source cost, ∅)
  | Some profile =>
      alpha ← of_option (dict_get (op_flow op) (rp_startup_us profile)) (KeyError (op_flow op));
      Ok (alpha, rp_source profile, {["profile:" +:+ rp_profile_id profile]}%string)
  end.

(** The body of [for key in ready]. *)
Definition launch_step (profiles : gmap string RateProfile) (st : Replay) (key : string)
    : res Replay :=
  op ← find_op key;
  raise_when (bool_decide (key ∉ r_pending st)) (KeyError key);;
  let now := r_now st in
  let st := set_work st (r_pending st ∖ {[key]}) (r_startup st) (r_active st)
              [event now "start" key] in
  let st := set_times st (<[key := now]> (r_starts st)) (r_ends st) (r_remaining st)
              (r_sources_used st) (r_used st) in
  if decide (wo_kind op = KNop) then Ok (complete st key now)
  else
    cost ← of_option (costs !! key) (KeyError key);
    '(alpha, source, component) ← launch_cost profiles op cost;
    let used := r_used st ∪ {["service:" +:+ default EmptyString (wo_cost_key op)]}%string ∪ component in
    let st := set_times st (r_starts st) (r_ends st)
                (<[key := mpq_int (wo_payload_bytes op)]> (r_remaining st))
                (r_sources_used st ∪ {[source]}) used in
    Ok (set_work st (r_pending st) (<[key := (now + _exact_number alpha)%mpq]> (r_startup st))
          (r_active st) []).

(** [releases[0][0]] *)
Definition first_release (st : Replay) : option mpq := min_by id (r_releases st).*1.

(** Something happens at the current time. *)
Definition due_now (st : Replay) : bool :=
  existsb (λ t, pleb t (r_now st)) (map_to_list (r_startup st)).*2 ||
  match first_release st with Some t => pleb t (r_now st) | None => false end.

(** [finish_times], with the rate and the source of every active operation. *)
Definition finish_time (st : Replay) (rates : Rates) (key : string)
    : res (string * (mpq * mpq * string)) :=
  left ← of_option (r_remaining st !! key) (KeyError key);
  rate ← of_option (rt_rates rates !! key) (KeyError key);
  source ← of_option (rt_sources rates !! key) (KeyError key);
  duration ← mpq_div left rate;
  Ok (key, ((r_now st + duration)%mpq, rate, source)).

(** The segment of an active operation and its remaining bytes. *)
Definition advance_step (next_time : mpq) (st : Replay)
    (entry : string * (mpq * mpq * string)) : res Replay :=
  let '(key, (_, rate, source)) := entry in
  start ← _exact_float (r_now st);
  stop ← _exact_float next_time;
  speed ← _exact_float rate;
  left ← of_option (r_remaining st !! key) (KeyError key);
  let left := mpq_max (mpq_int 0) (left - rate * (next_time - r_now st))%mpq in
  Ok {| r_pending := r_pending st; r_releases := r_releases st; r_degrees := r_degrees st;
        r_startup := r_startup st; r_active := r_active st;
        r_remaining := <[key := left]> (r_remaining st);
        r_starts := r_starts st; r_ends := r_ends st; r_events := r_events st;
        r_segments := r_segments st ++ [{| ps_operation_id := key; ps_start_us := start;
          ps_end_us := stop; ps_rate_bytes_per_us := speed; ps_source := source |}];
        r_sources_used := r_sources_used st; r_used := r_used st;
        r_unmeasured := r_unmeasured st; r_now := r_now st |}.

Definition set_now (st : Replay) (now : mpq) : Replay :=
  {| r_pending := r_pending st; r_releases := r_releases st; r_degrees := r_degrees st;
     r_startup := r_startup st; r_active := r_active st; r_remaining := r_remaining st;
     r_starts := r_starts st; r_ends := r_ends st; r_events := r_events st;
     r_segments := r_segments st; r_sources_used := r_sources_used st; r_used := r_used st;
     r_unmeasured := r_unmeasured st; r_now := now |}.

Definition finish_step (st : Replay) (entry : string * (mpq * mpq * string)) : Replay :=
  let '(key, (finish, _, _)) := entry in
  if mpq_eqb finish (r_now st)
  then complete (set_work st (r_pending st) (r_startup st) (r_active st ∖ {[key]}) []) key (r_now st)
  else st.

Definition set_rates (st : Replay) (rates : Rates) : Replay :=
  {| r_pending := r_pending st; r_releases := r_releases st; r_degrees := r_degrees st;
     r_startup := r_startup st; r_active := r_active st; r_remaining := r_remaining st;
     r_starts := r_starts st; r_ends := r_ends st; r_events := r_events st;
     r_segments := r_segments st;
     r_sources_used := r_sources_used st ∪ list_to_set (map_to_list (rt_sources rates)).*2;
     r_used := rt_used rates; r_unmeasured := rt_unmeasured rates; r_now := r_now st |}.

(** From the rates to the end of the loop body; [false] is [break]. *)
Definition advance (st : Replay) : res (bool * Replay) :=
  ops ← mapR find_op (sorted_keys (r_active st));
  rates ← _rates ops costs model (r_used st) (r_unmeasured st);
  let st := set_rates st rates in
  finish_times ← mapR (finish_time st rates) (sorted_keys (r_active st));
  let future := ((λ entry : string * (mpq * mpq * string), entry.2.1.1) <$> finish_times) ++
                (map_to_list (r_startup st)).*2 ++ option_list (first_release st) in
  match min_by id future with
  | None =>
      raise_when (negb (bool_decide (r_pending st = ∅)))
        (SemanticError "executable is stalled by unresolved work");;
      Ok (false, st)
  | Some next_time =>
      raise_when (pleb next_time (r_now st))
        (SemanticError "model time precision cannot represent positive progress");;
      st ← foldM (advance_step next_time) st finish_times;
      Ok (true, foldl finish_step (set_now st next_time) finish_times)
  end.

(** One round of the loop. *)
Definition replay_round (st : Replay) : res (bool * Replay) :=
  let '(ready, st) := due_releases (finish_startups st) in
  profiles ← launch_profiles st ready;
  st ← foldM (launch_step profiles) st ready;
  if due_now st then Ok (true, st) else advance st.

(** [not (pending or startup or active)] *)
Definition replay_done (st : Replay) : bool :=
  bool_decide (r_pending st = ∅) && bool_decide (r_startup st = ∅) && bool_decide (r_active st = ∅).

Fixpoint replay (fuel : nat) (st : Replay) : res Replay :=
  if replay_done st then Ok st
  else
    match fuel with
    | O => Err OutOfFuel
    | S fuel =>
        '(again, st) ← replay_round st;
        if again : bool then replay fuel st else Ok st
    end.
End replay.

(** ** Costs and availability *)

(** [costs], [unavailable] and [missing]. *)
Definition Availability : Type := gmap string ServiceCost * gset string * gset string.

Definition override_source (op : WorkOperation) (cost : ServiceCost) : ServiceCost :=
  match wo_source_override op with
  | Some (String _ _ as source) =>
      {| sc_alpha_us := sc_alpha_us cost; sc_beta_us_per_byte := sc_beta_us_per_byte cost;
         sc_source := source; sc_min_bytes := sc_min_bytes cost;
         sc_max_bytes := sc_max_bytes cost; sc_measured_at := sc_measured_at cost;
         sc_qualified := sc_qualified cost |}
  | _ => cost
  end.

Definition cost_step (model : CostModel) (self : Availability) (op : WorkOperation)
    : Availability :=
  let '(costs, unavailable, missing) := self in
  let key := wo_operation_id op in
  if decide (wo_kind op = KNop) then self
  else
    let cost_key := default EmptyString (wo_cost_key op) in
    let '(costs, unavailable, missing) :=
      match service_for model cost_key (wo_payload_bytes op) with
      | None => (costs, unavailable ∪ {[key]}, missing ∪ {["service:" +:+ cost_key]}%string)
      | Some cost => (<[key := override_source op cost]> costs, unavailable, missing)
      end in
    let absent := filter (λ r, dict_get r (cm_resources model) = None) (wo_resources op) in
    (costs, if bool_decide (absent = []) then unavailable else unavailable ∪ {[key]},
     missing ∪ list_to_set ((λ r, "resource:" +:+ r)%string <$> absent)).

(** One pass of [while changed]. *)
Definition spread_step (affected : gset string) (unavailable : gset string) (op : WorkOperation)
    : gset string :=
  if decide (wo_operation_id op ∉ unavailable ∧
             ((list_to_set (wo_dependencies op) : gset string) ∩ unavailable ≠ ∅ ∨
              op_resources op ∩ affected ≠ ∅))
  then unavailable ∪ {[wo_operation_id op]} else unavailable.

(** [{resource for key in unavailable for resource in operations[key].resources}] *)
Definition affected_resources (operations : list WorkOperation) (unavailable : gset string)
    : gset string :=
  list_to_set (concat (wo_resources <$>
    filter (λ op, wo_operation_id op ∈ unavailable) operations)).

Fixpoint spread (fuel : nat) (operations : list WorkOperation) (unavailable : gset string)
    : res (gset string) :=
  match fuel with
  | O => Err OutOfFuel
  | S fuel =>
      let unavailable' :=
        foldl (spread_step (affected_resources operations unavailable)) unavailable operations in
      if decide (unavailable' = unavailable) then Ok unavailable
      else spread fuel operations unavailable'
  end.

Section predict.
Context `{MpqLibrary}.

(** [max(values, default=number(0))] *)
Definition latest (values : list mpq) : mpq :=
  match values with [] => mpq_int 0 | x :: l => foldl mpq_max x l end.

(** [{key: as_float(value) for key, value in d.items()}] *)
Definition float_times (d : gmap string mpq) : res (gmap string Z) :=
  list_to_map <$> mapR (λ '(key, t), v ← _exact_float t; Ok (key, v)) (map_to_list d).

Definition float_event (e : ProgressEvent mpq) : res (ProgressEvent Z) :=
  t ← _exact_float (pe_time_us e);
  Ok {| pe_time_us := t; pe_kind := pe_kind e; pe_operation_id := pe_operation_id e |}.

Definition coverage (unavailable sources_used : gset string) : string :=
  let measured : gset string := list_to_set measured_sources in
  if decide (unavailable ≠ ∅) then "unavailable"
  else if decide (sources_used = ∅) then "not_required"
  else if decide (sources_used ⊆ measured) then "measured"
  else if decide (sources_used ∩ measured ≠ ∅) then "partial" else "initial".

(** The operations without dependencies, and the state before the loop. *)
Definition replay_start (operations : list WorkOperation) (degrees : gmap string Z)
    (unavailable : gset string) : Replay :=
  let pending := list_to_set (wo_operation_id <$> operations) ∖ unavailable in
  {| r_pending := pending;
     r_releases := (λ op, (_exact_number (wo_not_before_us op), wo_operation_id op)) <$>
       filter (λ op, wo_operation_id op ∈ pending ∧ degrees !! wo_operation_id op = Some 0) operations;
     r_degrees := degrees; r_startup := ∅; r_active := ∅; r_remaining := ∅; r_starts := ∅;
     r_ends := ∅; r_events := []; r_segments := []; r_sources_used := ∅; r_used := ∅;
     r_unmeasured := ∅; r_now := mpq_int 0 |}.

(** The result of a finished replay. *)
Definition prediction (executable : Executable) (model : CostModel)
    (unavailable missing : gset string) (st : Replay) : res Prediction :=
  let t_pred := if decide (unavailable = ∅) then Some (latest (map_to_list (r_ends st)).*2) else None in
  output_ready ←
    (if decide (list_to_set (ex_output_operations executable) ∩ unavailable = ∅)
     then ends ← mapR (λ key, of_option (r_ends st !! key) (KeyError key))
                   (ex_output_operations executable);
          Ok (Some (latest ends))
     else Ok None);
  t_pred_us ← match t_pred with None => Ok None | Some t => Some <$> _exact_float t end;
  output_ready_us ← match output_ready with None => Ok None | Some t => Some <$> _exact_float t end;
  start_times ← float_times (r_starts st);
  end_times ← float_times (r_ends st);
  events ← mapR float_event (r_events st);
  Ok {| pd_model_version := cm_version model; pd_t_pred_us := t_pred_us;
        pd_output_ready_us := output_ready_us; pd_start_times := start_times;
        pd_end_times := end_times; pd_events := events; pd_segments := r_segments st;
        pd_used_components := r_used st; pd_missing_components := missing;
        pd_unavailable_operations := sorted_keys unavailable;
        pd_model_coverage := coverage unavailable (r_sources_used st);
        pd_exact_completion_ratio := (λ t, (numerator t, denominator t)) <$> t_pred;
        pd_unmeasured_modes := sorted_by id (elements (r_unmeasured st)) |}.

(** Six rounds for every operation, and two. *)
Definition replay_fuel (operations : list WorkOperation) : nat := 6 * length operations + 2.

Definition predict (executable : Executable) (model : CostModel) : res Prediction :=
  raise_when (negb (py_eqb (PDict (ex_context executable)) (PDict (cm_context model))))
    (SemanticError "cost model applicability context differs from the executable");;
  let operations := ex_operations executable in
  degrees ← _acyclic operations;
  let '(costs, unavailable, missing) := foldl (cost_step model) (∅, ∅, ∅) operations in
  unavailable ← spread (S (length operations)) operations unavailable;
  st ← replay operations model costs (replay_fuel operations)
         (replay_start operations degrees unavailable);
  prediction executable model unavailable missing st.
End predict.
