(* ===== verification/PredictionRates.v ===== *)
(** * Sharing of resources: groups and rates ([performance/simulation.py])

    The groups of [_components] partition the communications so that two
    operations with a common resource are together; the rates of [_rates] are
    positive and exhaust no resource. *)

From Stdlib Require Import QArith Lqa.
From S2P Require Import Prelude.
From S2P Require Import Python.
From S2P Require Import Floats.
From S2P Require Import Mpq.
From S2P Require Import Performance.
From S2P Require Import Prediction.
Local Open Scope Z_scope.

(** ** Well-formed work, costs and models *)

Record work_valid (op : WorkOperation) : Prop := {
  wv_payload : wo_kind op ≠ KNop → 0 < wo_payload_bytes op;
  wv_local : is_communication (wo_kind op) = false → wo_resources op = [];
  wv_dependencies : NoDup (wo_dependencies op);
  wv_not_before : 0 ≤ wo_not_before_us op;
}.

Record executable_valid (executable : Executable) : Prop := {
  ev_work : ∀ op, op ∈ ex_operations executable → work_valid op;
  ev_ids : NoDup (wo_operation_id <$> ex_operations executable);
  ev_known : ∀ op d, op ∈ ex_operations executable → d ∈ wo_dependencies op →
    d ∈ wo_operation_id <$> ex_operations executable;
  ev_outputs : ∀ k, k ∈ ex_output_operations executable →
    k ∈ wo_operation_id <$> ex_operations executable;
}.

Definition cost_valid (cost : ServiceCost) : Prop :=
  0 ≤ sc_alpha_us cost ∧ 0 < sc_beta_us_per_byte cost.

Record profile_valid (profile : RateProfile) : Prop := {
  pv_rates : ∀ k t, dict_get k (rp_rates profile) = Some t → 0 < t;
  pv_startup : ∀ k t, dict_get k (rp_startup_us profile) = Some t → 0 ≤ t;
  pv_mode : ∀ k, k ∈ rp_mode profile → is_Some (dict_get k (rp_rates profile));
}.

Record model_valid (model : CostModel) : Prop := {
  mv_services : ∀ k values cost, dict_get k (cm_services model) = Some values →
    cost ∈ values → cost_valid cost;
  mv_resources : ∀ k t, dict_get k (cm_resources model) = Some t → 0 < t;
  mv_profiles : ∀ profile, profile ∈ cm_profiles model → profile_valid profile;
}.

Lemma float_of_int_pos z t : float_of_int z = Ok t → 0 < z → 0 < t.
Proof.
  intros H Hz. unfold float_of_int in H. cbv zeta in H.
  assert (Hu : 0 < one_us) by by apply Z.pow_pos_nonneg.
  rewrite Z.abs_eq in H by lia. pose proof (Z.log2_nonneg z).
  destruct (Z.leb_spec (Z.log2 z + 1) 53); [injection H as <-; nia|].
  destruct (2 ^ 1024 <=? _); [done|]. injection H as <-.
  rewrite Z.sgn_pos, Z.mul_1_l by done. apply Z.mul_pos_pos; [|done].
  rewrite Z.shiftl_mul_pow2 by lia. apply Z.mul_pos_pos; [|apply Z.pow_pos_nonneg; lia].
  assert (0 < Z.shiftr z (Z.log2 z + 1 - 53)); [|destruct (_ || _); lia].
  rewrite Z.shiftr_div_pow2 by lia. apply Z.div_str_pos.
  split; [apply Z.pow_pos_nonneg; lia|]. etrans; [|by apply Z.log2_spec].
  apply Z.pow_le_mono_r; lia.
Qed.

Lemma finite_Ok v n p t : finite v n p = Ok t → 0 ≤ t ∧ (p = true → 0 < t).
Proof.
  unfold finite. destruct v as [z| |[f| | |]| | | | |]; try done; intros H.
  - inv_res. apply orb_false_iff in H0 as [Hz Hp]. subst. apply Z.ltb_ge in Hz.
    destruct (decide (z = 0)) as [->|Hn].
    + destruct p; [done|]. cbn in H. injection H as <-. done.
    + pose proof (float_of_int_pos _ _ H). split; intros; lia.
  - inv_res. apply orb_false_iff in H as [Hz Hp]. subst. apply Z.ltb_ge in Hz.
    split; [done|]. intros ->. simpl in Hp. apply Z.eqb_neq in Hp. lia.
Qed.

Lemma finite_values_Ok d n p d' k t :
  finite_values d n p = Ok d' → dict_get k d' = Some t → 0 ≤ t ∧ (p = true → 0 < t).
Proof.
  unfold finite_values. rewrite mapR_Ok. intros H Hk%dict_get_Some_1.
  destruct (Forall2_elem_r _ _ _ _ H Hk) as ([k' v] & _ & Hv).
  apply bind_Ok in Hv as (t' & Hv & E). injection E as ? ?. subst. by eapply finite_Ok.
Qed.

Lemma finite_values_keys d n p d' : finite_values d n p = Ok d' → d'.*1 = d.*1.
Proof.
  unfold finite_values. rewrite mapR_Ok. induction 1 as [|[k v] [k' t] d d' Hv _ IH]; [done|].
  apply bind_Ok in Hv as (t' & _ & E). injection E as ? ?. subst. simpl. by f_equal.
Qed.

(** What the constructors accept is well formed. *)
Lemma work_kind_Ok s k : work_kind s = Some k → is_communication k = false ∨ is_communication k = true.
Proof. destruct k; auto. Qed.

Lemma WorkOperation_init_valid i k c p d r f n o op :
  WorkOperation_init i k c p d r f n o = Ok op → work_valid op.
Proof.
  unfold WorkOperation_init, identities. intros H.
  apply bind_Ok in H as (_ & _ & H). apply bind_Ok in H as (_ & _ & H).
  apply bind_Ok in H as (kind & _ & H). apply bind_Ok in H as (pay & Hp & H).
  apply bind_Ok in H as (u0 & Hk & H). apply bind_Ok in H as (_ & _ & H).
  apply bind_Ok in H as (u & Hl & H). apply bind_Ok in H as (u' & Hd & H).
  apply bind_Ok in H as (_ & _ & H). apply bind_Ok in H as (t & Ht & [= <-]).
  apply raise_when_Ok in Hl, Hd. apply orb_false_iff in Hd as [_ Hd].
  apply negb_false_iff, bool_decide_eq_true in Hd.
  assert (0 ≤ pay).
  { destruct p; try done. inv_res. bool_prop. by subst. }
  split; simpl; [|..|done|by apply finite_Ok in Ht as [? _]].
  - intros Hn. rewrite decide_False in Hk by done. apply raise_when_Ok, orb_false_iff in Hk as [Hk _].
    apply Z.eqb_neq in Hk. lia.
  - intros Hc. rewrite Hc in Hl. simpl in Hl.
    apply negb_false_iff, bool_decide_eq_true in Hl. done.
Qed.

Lemma Executable_init_valid ops outs ctx e :
  (∀ op, op ∈ ops → work_valid op) → Executable_init ops outs ctx = Ok e → executable_valid e.
Proof.
  intros Hops H. unfold Executable_init in H. cbv zeta in H.
  apply bind_Ok in H as (u & Hn & H). apply bind_Ok in H as (u' & Hd & H).
  apply bind_Ok in H as (u'' & Ho & [= <-]). apply raise_when_Ok in Hn, Hd, Ho.
  apply negb_false_iff, Nat.eqb_eq in Hn. apply negb_false_iff, bool_decide_eq_true in Ho.
  split; simpl; [done|..].
  - apply NoDup_of_size. by rewrite length_fmap.
  - intros op d Hop Hdep. rewrite existsb_none in Hd. specialize (Hd _ Hop). simpl in Hd.
    apply negb_false_iff, bool_decide_eq_true in Hd. set_solver.
  - intros k. rewrite elem_of_sorted_by. set_solver.
Qed.

Lemma ServiceCost_init_valid iso a b s lo hi m q c :
  ServiceCost_init iso a b s lo hi m q = Ok c → cost_valid c.
Proof.
  unfold ServiceCost_init. intros H. apply bind_Ok in H as (x & Ha & H).
  apply bind_Ok in H as (y & Hb & H). inv_res. subst.
  apply finite_Ok in Ha as [? _], Hb as [_ Hb]. split; simpl; auto.
Qed.

Lemma RateProfile_init_valid iso i md rt rs lo hi s m st fr p :
  RateProfile_init iso i md rt rs lo hi s m st fr = Ok p → profile_valid p.
Proof.
  unfold RateProfile_init. cbv zeta. intros H.
  apply bind_Ok in H as (_ & _ & H). apply bind_Ok in H as (_ & _ & H).
  apply bind_Ok in H as (u & Hm & H). apply bind_Ok in H as (_ & _ & H).
  apply bind_Ok in H as (_ & _ & H). apply bind_Ok in H as (l & _ & H).
  apply bind_Ok in H as (h & _ & H). apply bind_Ok in H as (_ & _ & H).
  apply bind_Ok in H as (_ & _ & H). apply bind_Ok in H as (rates & Hr & H).
  apply bind_Ok in H as (startup & Hs & H). apply bind_Ok in H as (_ & _ & [= <-]).
  apply raise_when_Ok, negb_false_iff, bool_decide_eq_true in Hm.
  split; simpl.
  - intros k t Hk. destruct (finite_values_Ok _ _ _ _ _ _ Hr Hk). auto.
  - intros k t Hk. by destruct (finite_values_Ok _ _ _ _ _ _ Hs Hk).
  - intros k Hk. destruct (dict_get k rates) eqn:E; [eauto|].
    apply dict_get_None in E. rewrite (finite_values_keys _ _ _ _ Hr) in E. set_solver.
Qed.

Lemma CostModel_init_valid v services resources profiles ctx meta m :
  (∀ k values cost, (k, values) ∈ services → cost ∈ values → cost_valid cost) →
  (∀ profile, profile ∈ profiles → profile_valid profile) →
  CostModel_init v services resources profiles ctx meta = Ok m → model_valid m.
Proof.
  unfold CostModel_init. intros Hc Hp H.
  apply bind_Ok in H as (_ & _ & H). apply bind_Ok in H as (sv & Hs & H).
  apply bind_Ok in H as (rs & Hr & H). apply bind_Ok in H as (_ & _ & H).
  apply bind_Ok in H as (_ & _ & [= <-]). split; simpl; [..|done].
  - intros k values cost Hk%dict_get_Some_1 Hin. rewrite mapR_Ok in Hs.
    destruct (Forall2_elem_r _ _ _ _ Hs Hk) as ([k' v'] & Hin' & E). simpl in E.
    apply bind_Ok in E as (_ & _ & E). apply bind_Ok in E as (_ & _ & E).
    apply bind_Ok in E as (_ & _ & E). injection E as ? ?. subst.
    apply elem_of_sorted_by in Hin. eauto.
  - intros k t Hk. destruct (finite_values_Ok _ _ _ _ _ _ Hr Hk). auto.
Qed.

(** ** Outcomes

    The replay stops with an error only for what a model cannot price: two
    profiles for one mode, a flow used twice at once, measured rates above a
    capacity, and a time beyond the range of doubles. *)
Inductive pricing_error : exn → Prop :=
  | ambiguous_profiles :
      pricing_error (SemanticError "multiple profiles apply to the same concurrency mode")
  | shared_flow :
      pricing_error (SemanticError "concurrent operations share a flow identity; serialize their TB work")
  | capacity_conflict resource :
      pricing_error (SemanticError ("measured rate vector conflicts with resource capacity " +:+ resource))
  | float_range :
      pricing_error (OverflowError "integer division result too large for a float").

Definition outcome {A} (P : A → Prop) (m : res A) : Prop :=
  match m with Ok a => P a | Err e => pricing_error e end.

Lemma outcome_Ok {A} (P : A → Prop) a : P a → outcome P (Ok a).
Proof. done. Qed.

Lemma outcome_bind {A B} (P : A → Prop) (Q : B → Prop) (m : res A) (f : A → res B) :
  outcome P m → (∀ a, m = Ok a → P a → outcome Q (f a)) → outcome Q (m ≫= f).
Proof. destruct m; simpl; auto. Qed.

Lemma outcome_mono {A} (P Q : A → Prop) (m : res A) :
  (∀ a, P a → Q a) → outcome P m → outcome Q m.
Proof. destruct m; simpl; auto. Qed.

Lemma outcome_raise b e : (b = true → pricing_error e) → outcome (λ _, b = false) (raise_when b e).
Proof. destruct b; simpl; auto. Qed.

Lemma outcome_of_option {A} (o : option A) e a : o = Some a → outcome (λ x, x = a) (of_option o e).
Proof. by intros ->. Qed.

(** A loop with an invariant over the consumed prefix. *)
Lemma outcome_foldM {S A} (I : list A → S → Prop) (f : S → A → res S) s l :
  I [] s →
  (∀ done x rest s, l = done ++ x :: rest → I done s → outcome (I (done ++ [x])) (f s x)) →
  outcome (I l) (foldM f s l).
Proof.
  intros H0 Hstep.
  cut (∀ l2 l1 s, l = l1 ++ l2 → I l1 s → outcome (I l) (foldM f s l2)); [intros Hc; by apply (Hc l [] s)|].
  induction l2 as [|x l2 IH]; intros l1 s' E HI; simpl.
  { by rewrite app_nil_r in E; subst. }
  eapply outcome_bind; [by eapply Hstep|]. intros s'' _ HI'.
  apply (IH (l1 ++ [x])); [by rewrite <- app_assoc|done].
Qed.

Lemma outcome_mapR {A B} (P : A → B → Prop) (f : A → res B) l :
  (∀ x, x ∈ l → outcome (P x) (f x)) → outcome (Forall2 P l) (mapR f l).
Proof.
  induction l as [|x l IH]; intros Hf; simpl; [constructor|].
  eapply outcome_bind; [apply Hf; by left|]. intros y _ Hy.
  eapply outcome_bind; [apply IH; intros; apply Hf; by right|]. intros ys _ Hys. by constructor.
Qed.

Lemma outcome_iterM {A} (P : A → Prop) (f : A → res unit) l :
  (∀ x, x ∈ l → outcome (λ _, P x) (f x)) → outcome (λ _, Forall P l) (iterM f l).
Proof.
  induction l as [|x l IH]; intros Hf; simpl; [constructor|].
  eapply outcome_bind; [apply Hf; by left|]. intros y _ Hy. cbv beta in Hy.
  eapply outcome_mono; [|apply IH; intros; apply Hf; by right]. intros u Hl. by constructor.
Qed.

(** ** Groups *)

Definition group_resources (group : list WorkOperation) : gset string :=
  list_to_set (concat (wo_resources <$> group)).

Lemma elem_of_group_resources r group :
  r ∈ group_resources group ↔ ∃ op, op ∈ group ∧ r ∈ wo_resources op.
Proof.
  unfold group_resources. rewrite elem_of_list_to_set, elem_of_concat.
  setoid_rewrite list_elem_of_fmap. naive_solver.
Qed.

Lemma group_resources_app g1 g2 :
  group_resources (g1 ++ g2) = group_resources g1 ∪ group_resources g2.
Proof. unfold group_resources. by rewrite fmap_app, concat_app, list_to_set_app_L. Qed.

Lemma group_resources_singleton op : group_resources [op] = op_resources op.
Proof. unfold group_resources, op_resources. simpl. by rewrite app_nil_r. Qed.

(** No operation of the one list shares a resource with one of the other. *)
Definition apart (g1 g2 : list WorkOperation) : Prop :=
  group_resources g1 ∩ group_resources g2 = ∅.

Lemma component_pass_spec group remaining :
  let '(group', resources, kept) := component_pass group (group_resources group) remaining in
  resources = group_resources group' ∧ group' ++ kept ≡ₚ group ++ remaining ∧
  (length kept ≤ length remaining)%nat ∧
  (length kept = length remaining → group' = group ∧ kept = remaining ∧
    apart group remaining) ∧
  ∃ more, group' = group ++ more.
Proof.
  revert group. induction remaining as [|op remaining IH]; intros group; cbn [component_pass].
  { repeat split; try done; [unfold apart; set_solver|]. exists []. by rewrite app_nil_r. }
  case_decide as Hd.
  - specialize (IH group). destruct (component_pass _ _ _) as [[group' resources] kept].
    destruct IH as (-> & Hp & Hlen & Heq & Hmore). split; [done|]. split.
    { rewrite <- Permutation_middle, Hp. by rewrite Permutation_middle. }
    simpl. split; [lia|]. split; [|done]. intros E.
    destruct Heq as (-> & -> & Ha); [lia|]. split; [done|]. split; [done|]. unfold apart in *.
    change (op :: remaining) with ([op] ++ remaining).
    rewrite group_resources_app, group_resources_singleton. set_solver.
  - specialize (IH (group ++ [op])). rewrite group_resources_app, group_resources_singleton in IH.
    destruct (component_pass _ _ _) as [[group' resources] kept].
    destruct IH as (-> & Hp & Hlen & Heq & [more ->]). split; [done|]. split.
    { rewrite Hp. by rewrite <- app_assoc. }
    simpl. split; [lia|]. split; [lia|]. exists (op :: more). by rewrite <- app_assoc.
Qed.

Lemma component_grow_spec fuel group remaining :
  (length remaining < fuel)%nat →
  ∃ group' kept, component_grow fuel group (group_resources group) remaining = Ok (group', kept) ∧
    group' ++ kept ≡ₚ group ++ remaining ∧ apart group' kept ∧
    (length kept ≤ length remaining)%nat ∧ ∃ more, group' = group ++ more.
Proof.
  revert group remaining. induction fuel as [|fuel IH]; intros group remaining Hf; [lia|].
  cbn [component_grow]. pose proof (component_pass_spec group remaining) as Hpass.
  destruct (component_pass _ _ _) as [[group' resources] kept].
  destruct Hpass as (-> & Hp & Hlen & Heq & [more ->]).
  destruct (Nat.eqb_spec (length kept) (length remaining)) as [E|E].
  - destruct (Heq E) as (Hg & -> & Ha). rewrite Hg. exists group, remaining.
    split; [done|]. split; [by rewrite <- Hg at 1; rewrite Hp|]. split; [done|].
    split; [done|]. exists []. by rewrite app_nil_r.
  - destruct (IH (group ++ more) kept) as (g & k & Hgrow & Hp' & Ha & Hl & [more' ->]); [lia|].
    exists ((group ++ more) ++ more'), k. split; [done|]. split; [by rewrite Hp'|].
    split; [done|]. split; [lia|]. exists (more ++ more'). by rewrite <- app_assoc.
Qed.

(** Each group is apart from all later ones. *)
Fixpoint separated (groups : list (list WorkOperation)) : Prop :=
  match groups with
  | [] => True
  | group :: groups => apart group (concat groups) ∧ separated groups
  end.

Lemma component_loop_spec fuel remaining :
  (length remaining < fuel)%nat →
  ∃ groups, component_loop fuel remaining = Ok groups ∧ concat groups ≡ₚ remaining ∧
    separated groups.
Proof.
  revert remaining. induction fuel as [|fuel IH]; intros remaining Hf; [lia|].
  cbn [component_loop]. destruct remaining as [|op rest]; [by exists []|].
  destruct (component_grow_spec (S (length rest)) [op] rest)
    as (group & kept & Hg & Hp & Ha & Hl & _); [lia|].
  rewrite group_resources_singleton in Hg. rewrite Hg. cbn [mbind res_bind].
  destruct (IH kept) as (groups & -> & Hc & Hs); [simpl in Hf; lia|]. cbn [mbind res_bind].
  exists (group :: groups). simpl. split; [done|]. split.
  - by rewrite Hc, Hp.
  - split; [|done]. unfold apart, group_resources in *. by rewrite Hc.
Qed.

Lemma components_spec operations :
  ∃ groups, _components operations = Ok groups ∧ concat groups ≡ₚ operations ∧
    separated groups.
Proof. apply component_loop_spec. lia. Qed.

(** A list is what satisfies a predicate and what does not. *)
Lemma filter_partition {A} (P : A → Prop) `{∀ x, Decision (P x)} (l : list A) :
  l ≡ₚ filter (λ x, ¬ P x) l ++ filter P l.
Proof.
  induction l as [|x l IH]; [done|]. destruct (decide (P x)) as [Hx|Hx].
  - rewrite (filter_cons_True P) by done. rewrite filter_cons_False by tauto.
    rewrite IH at 1. apply Permutation_middle.
  - rewrite (filter_cons_False P) by done. rewrite filter_cons_True by done.
    by rewrite IH at 1.
Qed.

(** Two filters that agree on the elements of a list. *)
Lemma filter_agree {A} (P Q : A → Prop) `{∀ x, Decision (P x), ∀ x, Decision (Q x)} (l : list A) :
  (∀ x, x ∈ l → (P x ↔ Q x)) → filter P l = filter Q l.
Proof.
  induction l as [|x l IH]; intros Hl; [done|].
  assert (Hx : P x ↔ Q x) by (apply Hl; by left).
  rewrite !filter_cons. rewrite (decide_ext (P x) (Q x) _ _ Hx).
  rewrite IH; [done|]. intros y Hy. apply Hl. by right.
Qed.

(** ** Sums of rates *)

Definition Qsum (l : list Q) : Q := foldr Qplus 0%Q l.

#[export] Instance Qsum_perm : Proper (Permutation ==> Qeq) Qsum.
Proof. induction 1; simpl; [reflexivity|lra|lra|lra]. Qed.

Lemma Qsum_cons x l : Qsum (x :: l) = (x + Qsum l)%Q.
Proof. done. Qed.

Lemma Qsum_app l k : (Qsum (l ++ k) == Qsum l + Qsum k)%Q.
Proof. induction l as [|x l IH]; simpl; [lra|]. rewrite IH. lra. Qed.

Lemma Qsum_bound (l : list Q) (c : Q) :
  Forall (λ x, x <= c)%Q l → (Qsum l <= inject_Z (Z.of_nat (length l)) * c)%Q.
Proof.
  induction 1 as [|x l Hx _ IH]; [change (0 <= 0 * c)%Q; lra|]. simpl Qsum. simpl length.
  rewrite Nat2Z.inj_succ. unfold Z.succ. rewrite inject_Z_plus. change (inject_Z 1) with 1%Q. lra.
Qed.

Lemma Qsum_same {A} (f g : A → Q) (l : list A) :
  (∀ x, x ∈ l → (f x == g x)%Q) → (Qsum (f <$> l) == Qsum (g <$> l))%Q.
Proof.
  induction l as [|x l IH]; intros Hf; [reflexivity|]. simpl. rewrite Hf by by left.
  rewrite IH; [reflexivity|]. intros y Hy. apply Hf. by right.
Qed.

Section rates.
Context `{MpqLaws}.

(** The rate of an operation, and what a list of operations draws from a
    resource. *)
Definition rate_of (rates : gmap string mpq) (op : WorkOperation) : Q :=
  match rates !! wo_operation_id op with Some v => mpq_value v | None => 0%Q end.
Definition load (rates : gmap string mpq) (resource : string) (ops : list WorkOperation) : Q :=
  Qsum (rate_of rates <$> filter (λ op, resource ∈ wo_resources op) ops).

Lemma load_app rates r l k : (load rates r (l ++ k) == load rates r l + load rates r k)%Q.
Proof. unfold load. by rewrite filter_app, fmap_app, Qsum_app. Qed.

Lemma load_none rates r l : (∀ op, op ∈ l → r ∉ wo_resources op) → load rates r l = 0%Q.
Proof. intros Hl. unfold load. by rewrite list_filter_none. Qed.

#[export] Instance load_perm rates r : Proper (Permutation ==> Qeq) (load rates r).
Proof. intros l k E. unfold load. by rewrite E. Qed.

Lemma load_ext rates rates' r l :
  (∀ op, op ∈ l → rates !! wo_operation_id op = rates' !! wo_operation_id op) →
  (load rates r l == load rates' r l)%Q.
Proof.
  intros Hl. apply Qsum_same. intros op [_ Hop]%list_elem_of_filter. unfold rate_of.
  by rewrite Hl.
Qed.

Lemma mpq_sum_value (l : list mpq) : (mpq_value (mpq_sum l) == Qsum (mpq_value <$> l))%Q.
Proof.
  unfold mpq_sum. assert (Hg : ∀ a, (mpq_value (foldl mpq_add a l) ==
    mpq_value a + Qsum (mpq_value <$> l))%Q); [|rewrite Hg, mpq_value_int; change (inject_Z 0) with 0%Q; lra].
  induction l as [|x l IH]; intros a; [simpl; lra|]. rewrite fmap_cons. cbn [foldl].
  rewrite Qsum_cons, IH, mpq_value_add. lra.
Qed.

Context (model : CostModel) (costs : gmap string ServiceCost) (Hmodel : model_valid model).

(** An operation whose service and resources the model prices. *)
Definition priced (op : WorkOperation) : Prop :=
  (∃ cost, costs !! wo_operation_id op = Some cost ∧ cost_valid cost) ∧
  ∀ r, r ∈ wo_resources op → is_Some (dict_get r (cm_resources model)).

(** What a step does that assigns a rate to one operation. *)
Definition assigns (P : mpq → Prop) (self : Rates) (op : WorkOperation) (self' : Rates) : Prop :=
  ∃ v s, rt_rates self' = <[wo_operation_id op := v]> (rt_rates self) ∧
    rt_sources self' = <[wo_operation_id op := s]> (rt_sources self) ∧ P v.

(** What assigning all operations of a list amounts to. *)
Definition assigned (P : WorkOperation → mpq → Prop) (ops : list WorkOperation)
    (self self' : Rates) : Prop :=
  (∀ k, k ∉ wo_operation_id <$> ops →
    rt_rates self' !! k = rt_rates self !! k ∧ rt_sources self' !! k = rt_sources self !! k) ∧
  ∀ op, op ∈ ops → ∃ v s, rt_rates self' !! wo_operation_id op = Some v ∧
    rt_sources self' !! wo_operation_id op = Some s ∧ P op v.

Lemma assigned_nil P self : assigned P [] self self.
Proof. split; [done|]. by intros op ?%elem_of_nil. Qed.

Lemma assigned_app P l k self self' self'' :
  NoDup (wo_operation_id <$> l ++ k) →
  assigned P l self self' → assigned P k self' self'' → assigned P (l ++ k) self self''.
Proof.
  rewrite fmap_app, NoDup_app. intros (_ & Hd & _) [F1 A1] [F2 A2]. split.
  - intros i. rewrite fmap_app, not_elem_of_app. intros [Hl Hk].
    destruct (F1 _ Hl) as [<- <-]. auto.
  - intros op [Hop|Hop]%elem_of_app; [|auto]. destruct (A1 _ Hop) as (v & s & Hv & Hs & HP).
    destruct (F2 (wo_operation_id op)) as [E1 E2].
    { apply Hd. by apply list_elem_of_fmap_2. }
    exists v, s. by rewrite E1, E2.
Qed.

Lemma assigned_mono P P' l self self' :
  (∀ op v, op ∈ l → P op v → P' op v) → assigned P l self self' → assigned P' l self self'.
Proof.
  intros Hp [F A]. split; [done|]. intros op Hop. destruct (A _ Hop) as (v & s & ? & ? & ?).
  exists v, s. auto.
Qed.

Lemma assigned_fold P (f : Rates → WorkOperation → res Rates) self ops :
  NoDup (wo_operation_id <$> ops) →
  (∀ s op, op ∈ ops → outcome (assigns (P op) s op) (f s op)) →
  outcome (assigned P ops self) (foldM f self ops).
Proof.
  intros Hnd Hf. apply (outcome_foldM (λ done, assigned P done self)); [apply assigned_nil|].
  intros done op rest s E HA. eapply outcome_mono; [|apply Hf; rewrite E; set_solver].
  intros s' (v & sc & Hv & Hs & HP). eapply assigned_app; [|exact HA|].
  - rewrite E in Hnd. change (op :: rest) with ([op] ++ rest) in Hnd.
    rewrite app_assoc, fmap_app, NoDup_app in Hnd. tauto.
  - split.
    + intros k Hk. rewrite Hv, Hs. simpl in Hk. rewrite !lookup_insert_ne by set_solver. done.
    + intros op' ->%list_elem_of_singleton. exists v, sc. by rewrite Hv, Hs, !lookup_insert_eq.
Qed.

Lemma service_rate_spec op : priced op →
  ∃ rate cost, service_rate costs op = Ok (rate, cost) ∧ (0 < mpq_value rate)%Q.
Proof.
  intros [(cost & Hc & _ & Hb) _]. unfold service_rate. rewrite Hc. cbn [of_option mbind res_bind].
  pose proof (exact_number_pos _ Hb) as Hpos.
  destruct (mpq_value_div (mpq_int 1) (_exact_number (sc_beta_us_per_byte cost))) as (z & -> & Hz).
  { intros E. rewrite E in Hpos. lra. }
  exists z, cost. split; [done|]. rewrite Hz, mpq_value_int. change (inject_Z 1) with 1%Q.
  apply Qlt_shift_div_l; [done|lra].
Qed.

Lemma local_rate_spec self op : priced op →
  outcome (assigns (λ v, 0 < mpq_value v)%Q self op) (local_rate costs self op).
Proof.
  intros Hp. unfold local_rate. destruct (service_rate_spec _ Hp) as (rate & cost & -> & Hr).
  cbn. by exists rate, (sc_source cost).
Qed.

Definition capacity_of (resource : string) : option Q :=
  (λ t, mpq_value (_exact_number t)) <$> dict_get resource (cm_resources model).

Lemma resource_capacity_spec r : is_Some (dict_get r (cm_resources model)) →
  ∃ c, resource_capacity model r = Ok c ∧ capacity_of r = Some (mpq_value c) ∧ (0 < mpq_value c)%Q.
Proof.
  intros [t Ht]. unfold resource_capacity, capacity_of. rewrite Ht. simpl.
  eexists. split; [done|]. split; [done|]. apply exact_number_pos. by apply Hmodel in Ht.
Qed.

Lemma capacity_of_pos r c : capacity_of r = Some c → (0 < c)%Q.
Proof.
  unfold capacity_of. destruct (dict_get r (cm_resources model)) as [t|] eqn:E; [|done].
  intros [= <-]. apply exact_number_pos. by apply Hmodel in E.
Qed.

(** What a group draws from a resource it uses is within the capacity. *)
Definition within (rates : gmap string mpq) (ops : list WorkOperation) : Prop :=
  ∀ r c, capacity_of r = Some c → (load rates r ops <= c)%Q.

(** *** Shared rates *)

Definition fair (group : list WorkOperation) (op : WorkOperation) (v : mpq) : Prop :=
  (0 < mpq_value v)%Q ∧ ∀ r c, r ∈ wo_resources op → capacity_of r = Some c →
    (inject_Z (Z.of_nat (length (filter (λ m, r ∈ wo_resources m) group))) * mpq_value v <= c)%Q.

Lemma resource_share_spec group op r : priced op → op ∈ group → r ∈ wo_resources op →
  ∃ v, resource_share model group r = Ok v ∧ (0 < mpq_value v)%Q ∧ ∀ c, capacity_of r = Some c →
    (inject_Z (Z.of_nat (length (filter (λ m, r ∈ wo_resources m) group))) * mpq_value v <= c)%Q.
Proof.
  intros [_ Hp] Hop Hr. unfold resource_share. cbv zeta.
  destruct (resource_capacity_spec r (Hp _ Hr)) as (c & -> & Hc & Hpos). cbn [mbind res_bind].
  set (n := length _). assert (Hn : (0 < n)%nat).
  { unfold n. assert (Hin : op ∈ filter (λ m, r ∈ wo_resources m) group) by by apply list_elem_of_filter.
    destruct (filter _ _); [by apply elem_of_nil in Hin|simpl; lia]. }
  assert (Hq : (0 < inject_Z (Z.of_nat n))%Q) by (apply inject_Z_pos; lia).
  destruct (mpq_value_div c (mpq_int (Z.of_nat n))) as (v & -> & Hv).
  { rewrite mpq_value_int. lra. }
  rewrite mpq_value_int in Hv. exists v. split; [done|]. split.
  - rewrite Hv. apply Qlt_shift_div_l; [done|lra].
  - intros c' [= <-]%(eq_trans (eq_sym Hc)). rewrite Hv, Qmult_div_r by lra. lra.
Qed.

Lemma shared_rate_spec group self op : priced op → op ∈ group →
  outcome (assigns (fair group op) self op) (shared_rate costs model group self op).
Proof.
  intros Hp Hop. unfold shared_rate. destruct (service_rate_spec _ Hp) as (own & cost & -> & Ho).
  cbn [mbind res_bind]. eapply outcome_bind.
  { apply (outcome_mapR (λ r v, (0 < mpq_value v)%Q ∧ ∀ c, capacity_of r = Some c →
      (inject_Z (Z.of_nat (length (filter (λ m, r ∈ wo_resources m) group))) * mpq_value v <= c)%Q)).
    intros r Hr. destruct (resource_share_spec _ _ _ Hp Hop Hr) as (v & -> & Hv). exact Hv. }
  intros shares _ Hs. cbv zeta.
  destruct (min_by id (own :: shares)) as [v|] eqn:Hmin; [|by apply min_by_None in Hmin].
  apply min_by_Some in Hmin as [Hin Hle]. cbn. exists v. eexists. split; [done|]. split; [done|].
  split.
  - apply elem_of_cons in Hin as [->|Hin]; [done|].
    by destruct (Forall2_elem_r _ _ _ _ Hs Hin) as (r & _ & ? & _).
  - intros r c Hr Hc. destruct (Forall2_elem_l _ _ _ _ Hs Hr) as (w & Hw & _ & Hb).
    assert (Hvw : (mpq_value v <= mpq_value w)%Q) by (apply mpq_le, Hle; by right).
    eapply Qle_trans; [|by apply Hb].
    rewrite (Qmult_comm _ (mpq_value v)), (Qmult_comm _ (mpq_value w)).
    apply Qmult_le_compat_r; [done|]. apply inject_Z_nonneg. lia.
Qed.

Lemma fair_within group rates :
  (∀ op, op ∈ group → ∃ v, rates !! wo_operation_id op = Some v ∧ fair group op v) →
  within rates group.
Proof.
  intros Hg r c Hc. unfold load. set (users := filter _ group).
  destruct (decide (users = [])) as [->|Hne].
  { simpl. apply Qlt_le_weak. by eapply capacity_of_pos. }
  assert (Hn : (0 < inject_Z (Z.of_nat (length users)))%Q).
  { apply inject_Z_pos. destruct users; [done|simpl; lia]. }
  eapply Qle_trans; [apply (Qsum_bound _ (c / inject_Z (Z.of_nat (length users)))%Q)|].
  - rewrite Forall_fmap, Forall_forall. intros op [Hr Hop]%list_elem_of_filter. simpl.
    destruct (Hg _ Hop) as (v & Hv & _ & Hf). unfold rate_of. rewrite Hv.
    apply Qle_shift_div_l; [done|]. rewrite Qmult_comm. by apply Hf.
  - rewrite length_fmap, Qmult_div_r by lra. lra.
Qed.

(** *** Measured rates *)

Definition rated (profile : RateProfile) (op : WorkOperation) (v : mpq) : Prop :=
  profile_rate profile op = Ok v ∧ (0 < mpq_value v)%Q.

Lemma profile_cases group : outcome (λ o, ∀ profile, o = Some profile →
  profile ∈ cm_profiles model ∧ applies profile group = true) (_profile group model).
Proof.
  unfold _profile. destruct (filter _ _) as [|p [|p' l]] eqn:E; simpl; [done| |constructor].
  intros profile [= <-]. assert (Hp : p ∈ [p]) by by left. rewrite <- E in Hp.
  apply list_elem_of_filter in Hp as [Ha Hp]. split; [done|]. by apply Is_true_true.
Qed.

Lemma profile_rate_spec profile group op :
  profile ∈ cm_profiles model → applies profile group = true → op ∈ group →
  ∃ v, rated profile op v.
Proof.
  intros Hp Ha Hop. unfold applies in Ha. cbv zeta in Ha. bool_prop.
  destruct (mv_profiles _ Hmodel _ Hp) as [Hr _ Hm].
  destruct (Hm (op_flow op)) as [t Ht].
  { match goal with H : sorted_by _ _ = rp_mode _ |- _ => rewrite <- H end.
    apply elem_of_sorted_by. by apply list_elem_of_fmap_2. }
  exists (_exact_number t). unfold rated, profile_rate. rewrite Ht. split; [done|].
  apply exact_number_pos. eauto.
Qed.

Lemma profiled_rate_spec profile op self : (∃ v, rated profile op v) →
  outcome (assigns (rated profile op) self op) (profiled_rate profile self op).
Proof.
  intros (v & E & Hv). unfold profiled_rate. rewrite E. cbn. by exists v, (rp_source profile).
Qed.

Lemma profile_fits_spec profile group r :
  (∀ op, op ∈ group → ∃ v, rated profile op v) → is_Some (dict_get r (cm_resources model)) →
  outcome (λ _, ∀ rates c, (∀ op, op ∈ group → ∃ v, rates !! wo_operation_id op = Some v ∧
      rated profile op v) → capacity_of r = Some c → (load rates r group <= c)%Q)
    (profile_fits model profile group r).
Proof.
  intros Hg Hr. unfold profile_fits. eapply outcome_bind.
  { apply (outcome_mapR (rated profile)). intros op [_ Hop]%list_elem_of_filter.
    destruct (Hg _ Hop) as (v & E & Hv). rewrite E. by split. }
  intros l _ Hl. destruct (resource_capacity_spec _ Hr) as (cap & -> & Hc & _).
  cbn [mbind res_bind].
  eapply outcome_mono; [|apply outcome_raise; constructor].
  intros u Hfit rates c Hrates [= <-]%(eq_trans (eq_sym Hc)).
  apply mpq_nlt in Hfit. rewrite mpq_sum_value in Hfit. eapply Qle_trans; [|exact Hfit].
  apply Qle_lteq. right. unfold load.
  assert (Hin : ∀ op, op ∈ filter (λ op, r ∈ wo_resources op) group → op ∈ group)
    by (intros op [_ ?]%list_elem_of_filter; done).
  clear Hfit. revert Hin. induction Hl as [|op v ops l [E Hv] _ IH]; intros Hin; [reflexivity|].
  rewrite !fmap_cons, !Qsum_cons.
  rewrite IH by (intros; apply Hin; by right). unfold rate_of at 1.
  destruct (Hrates op) as (w & -> & E' & _); [apply Hin; by left|].
  rewrite E in E'. injection E' as ->. reflexivity.
Qed.

(** *** All groups *)

(** The rates of a list of operations: positive, and within the capacities. *)
Definition group_spec (group : list WorkOperation) (self self' : Rates) : Prop :=
  assigned (λ _ v, 0 < mpq_value v)%Q group self self' ∧ within (rt_rates self') group.

Lemma profiled_group profile group self0 :
  NoDup (wo_operation_id <$> group) → (∀ op, op ∈ group → priced op) →
  profile ∈ cm_profiles model → applies profile group = true →
  outcome (λ self', group_spec group self0 self')
    (iterM (profile_fits model profile group) (elements (group_resources group));;
     foldM (profiled_rate profile) self0 group).
Proof.
  intros Hnd Hp Hin Ha.
  assert (Hr : ∀ op, op ∈ group → ∃ v, rated profile op v) by (intros; by eapply profile_rate_spec).
  eapply outcome_bind.
  { apply (outcome_iterM (λ r, ∀ rates c, (∀ op, op ∈ group →
      ∃ v, rates !! wo_operation_id op = Some v ∧ rated profile op v) →
      capacity_of r = Some c → (load rates r group <= c)%Q)).
    intros r Hres. apply profile_fits_spec; [done|].
    apply elem_of_elements, elem_of_group_resources in Hres as (op & Hop & Hres).
    by apply (Hp _ Hop). }
  intros u _ Hfit. eapply outcome_mono; [|apply (assigned_fold (rated profile)); [done|]].
  - intros self' HA. split; [eapply assigned_mono; [|exact HA]; by intros op v _ [_ ?]|].
    intros r c Hc. destruct (decide (r ∈ group_resources group)) as [Hres|Hres].
    + cbv beta in Hfit; rewrite Forall_forall in Hfit. eapply Hfit; [by apply elem_of_elements| |done].
      intros op Hop. destruct (proj2 HA _ Hop) as (v & s & Hv & _ & Hrv). eauto.
    + rewrite load_none; [by apply Qlt_le_weak; eapply capacity_of_pos|].
      intros op Hop Hop'. apply Hres, elem_of_group_resources. eauto.
  - intros s op Hop. by apply profiled_rate_spec, Hr.
Qed.

Lemma group_rates_spec self group :
  NoDup (wo_operation_id <$> group) → (∀ op, op ∈ group → priced op) →
  outcome (group_spec group self) (group_rates costs model self group).
Proof.
  intros Hnd Hp. unfold group_rates. eapply outcome_bind; [apply outcome_raise; constructor|].
  intros _ _ _. eapply outcome_bind; [apply profile_cases|]. intros o _ Ho. cbv zeta.
  destruct o as [profile|].
  - destruct (Ho _ eq_refl) as [Hin Ha]. eapply outcome_mono; [|by apply profiled_group].
    intros self' HG. exact HG.
  - eapply outcome_mono; [|apply (assigned_fold (fair group)); [done|]].
    + intros self' HA. split; [eapply assigned_mono; [|exact HA]; by intros op v _ [? _]|].
      apply fair_within. intros op Hop. destruct (proj2 HA _ Hop) as (v & s & Hv & _ & Hf). eauto.
    + intros s op Hop. by apply shared_rate_spec, Hop; apply Hp.
Qed.

Lemma within_app rates g gs :
  apart g gs → within rates g → within rates gs → within rates (g ++ gs).
Proof.
  intros Ha Hg Hgs r c Hc. rewrite load_app.
  destruct (decide (r ∈ group_resources g)) as [Hr|Hr].
  - rewrite (load_none rates r gs); [rewrite Qplus_0_r; by apply Hg|].
    intros op Hop Hop'. assert (r ∈ group_resources gs) by (apply elem_of_group_resources; eauto).
    unfold apart in Ha. set_solver.
  - rewrite (load_none rates r g); [rewrite Qplus_0_l; by apply Hgs|].
    intros op Hop Hop'. apply Hr, elem_of_group_resources. eauto.
Qed.

Lemma within_ext rates rates' l :
  (∀ op, op ∈ l → rates !! wo_operation_id op = rates' !! wo_operation_id op) →
  within rates l → within rates' l.
Proof. intros Hl Hw r c Hc. rewrite <- (load_ext rates rates') by done. by apply Hw. Qed.

Lemma groups_rates_spec self groups :
  NoDup (wo_operation_id <$> concat groups) → (∀ op, op ∈ concat groups → priced op) →
  separated groups →
  outcome (group_spec (concat groups) self) (foldM (group_rates costs model) self groups).
Proof.
  revert self. induction groups as [|g gs IH]; intros self Hnd Hp Hs; simpl.
  { split; [apply assigned_nil|]. intros r c Hc. apply Qlt_le_weak. by eapply capacity_of_pos. }
  simpl in *. destruct Hs as [Ha Hs]. pose proof Hnd as Hnd'.
  rewrite fmap_app, NoDup_app in Hnd'. destruct Hnd' as (Hg & Hd & Hgs).
  eapply outcome_bind; [apply group_rates_spec; [done|intros; apply Hp; set_solver]|].
  intros self1 _ [HA1 HW1]. eapply outcome_mono; [|apply IH; [done|intros; apply Hp; set_solver|done]].
  intros self2 [HA2 HW2]. split; [by eapply assigned_app|]. apply within_app; [done| |done].
  eapply within_ext; [|exact HW1]. intros op Hop. symmetry.
  apply (proj1 HA2). apply Hd. by apply list_elem_of_fmap_2.
Qed.

(** The rates of a set of active operations. *)
Theorem rates_spec active used unmeasured :
  NoDup (wo_operation_id <$> active) → (∀ op, op ∈ active → priced op) →
  (∀ op, op ∈ active → is_communication (wo_kind op) = false → wo_resources op = []) →
  outcome (λ self, (∀ op, op ∈ active → ∃ v s, rt_rates self !! wo_operation_id op = Some v ∧
      rt_sources self !! wo_operation_id op = Some s ∧ (0 < mpq_value v)%Q) ∧
      within (rt_rates self) active)
    (_rates active costs model used unmeasured).
Proof.
  intros Hnd Hp Hl. unfold _rates. cbv zeta.
  set (comm := filter _ active). set (locals := filter (λ op, ¬ _) active).
  assert (Hperm : active ≡ₚ locals ++ comm).
  { apply filter_partition. }
  rewrite Hperm in Hnd. setoid_rewrite Hperm in Hp. pose proof Hnd as Hnd'.
  rewrite fmap_app, NoDup_app in Hnd'. destruct Hnd' as (Hn1 & Hd & Hn2).
  eapply outcome_bind.
  { apply (assigned_fold (λ _ v, 0 < mpq_value v)%Q); [done|]. intros s op Hop.
    apply local_rate_spec, Hp. set_solver. }
  intros self1 _ HA1. destruct (components_spec comm) as (groups & -> & Hc & Hs).
  cbn [mbind res_bind].
  eapply outcome_mono; [|apply groups_rates_spec; [by rewrite Hc| |done]].
  2: { intros op. rewrite Hc. intros Hop. apply Hp. set_solver. }
  intros self2 [HA2 HW2].
  assert (HA : assigned (λ _ v, 0 < mpq_value v)%Q (locals ++ concat groups)
    {| rt_rates := ∅; rt_sources := ∅; rt_used := used; rt_unmeasured := unmeasured |} self2).
  { eapply assigned_app; [|done|done]. by rewrite Hc. }
  split.
  - intros op Hop. apply HA. by rewrite Hc, <- Hperm.
  - intros r c Hcap. rewrite Hperm, load_app, (load_none _ r locals).
    + rewrite Qplus_0_l, <- Hc. by apply HW2.
    + intros op [Hk Hop]%list_elem_of_filter. rewrite Hl; [apply not_elem_of_nil|done|].
      by destruct (is_communication _).
Qed.
End rates.
