(* ===== verification/PredictionReplay.v ===== *)
(** * The invariant of the replay ([performance/simulation.py])

    What holds before every round of [replay], over the exact segments behind
    the rounded ones that the code records: the phases partition the available
    operations, the heap holds what may start, an operation starts as soon as
    its release time and its dependencies allow, its segments tile the time from
    the end of its startup and serve its payload, and no resource is exceeded. *)

From Stdlib Require Import QArith Lqa.
From S2P Require Import Prelude.
From S2P Require Import Python.
From S2P Require Import V5Program.
From S2P Require Import V5Order.
From S2P Require Import Mpq.
From S2P Require Import Performance.
From S2P Require Import Prediction.
From S2P Require Import PredictionRates.
Local Open Scope Z_scope.

Section timeline.
Context `{MpqLaws} (operations : list WorkOperation) (model : CostModel)
  (costs : gmap string ServiceCost) (available : gset string).

Notation segment := (ProgressSegment mpq).

(** ** Timelines *)

(** An operation starts at [t]: not before its release and the ends of its
    dependencies, and no later than the last of them. *)
Definition launched (ends : gmap string mpq) (op : WorkOperation) (t : mpq) : Prop :=
  (mpq_value (_exact_number (wo_not_before_us op)) <= mpq_value t)%Q ∧
  (∀ d, d ∈ wo_dependencies op → ∃ e, ends !! d = Some e ∧ (mpq_value e <= mpq_value t)%Q) ∧
  (t = _exact_number (wo_not_before_us op) ∨ ∃ d, d ∈ wo_dependencies op ∧ ends !! d = Some t).

(** A startup cost that the model gives the operation. *)
Definition launch_alpha (op : WorkOperation) (alpha : Z) : Prop :=
  (∃ cost, costs !! wo_operation_id op = Some cost ∧ alpha = sc_alpha_us cost) ∨
  ∃ profile, profile ∈ cm_profiles model ∧ dict_get (op_flow op) (rp_startup_us profile) = Some alpha.

(** The transfer of an operation begins at [b], after its startup. *)
Definition begun (starts : gmap string mpq) (op : WorkOperation) (b : mpq) : Prop :=
  ∃ s alpha, starts !! wo_operation_id op = Some s ∧ launch_alpha op alpha ∧
    b = (s + _exact_number alpha)%mpq.

(** The segments of an operation, which follow each other from [b] to [e]. *)
Definition segments_of (key : string) (xs : list segment) : list segment :=
  filter (λ s, ps_operation_id s = key) xs.
Fixpoint chain (b : mpq) (l : list segment) (e : mpq) : Prop :=
  match l with
  | [] => b = e
  | s :: l => ps_start_us s = b ∧ chain (ps_end_us s) l e
  end.

(** The bytes that the segments of an operation move. *)
Definition served (key : string) (xs : list segment) : Q :=
  Qsum ((λ s, mpq_value (ps_rate_bytes_per_us s) *
              (mpq_value (ps_end_us s) - mpq_value (ps_start_us s)))%Q <$> segments_of key xs).

(** What is drawn from a resource at an instant. *)
Definition draws (resource : string) (t : Q) (s : segment) : bool :=
  match op_of operations (ps_operation_id s) with
  | Some op => bool_decide (resource ∈ wo_resources op)
  | None => false
  end && Qle_bool (mpq_value (ps_start_us s)) t && negb (Qle_bool (mpq_value (ps_end_us s)) t).
Definition load_at (resource : string) (t : Q) (xs : list segment) : Q :=
  Qsum ((λ s, mpq_value (ps_rate_bytes_per_us s)) <$> filter (λ s, Is_true (draws resource t s)) xs).

(** The rounded segment that the code records. *)
Definition float_segment (s : segment) : res (ProgressSegment Z) :=
  start ← _exact_float (ps_start_us s);
  stop ← _exact_float (ps_end_us s);
  speed ← _exact_float (ps_rate_bytes_per_us s);
  Ok {| ps_operation_id := ps_operation_id s; ps_start_us := start; ps_end_us := stop;
        ps_rate_bytes_per_us := speed; ps_source := ps_source s |}.

(** Complete work: a data operation serves its payload, a NOP takes no time. *)
Definition finished (starts : gmap string mpq) (xs : list segment) (op : WorkOperation) (e : mpq)
    : Prop :=
  if decide (wo_kind op = KNop)
  then starts !! wo_operation_id op = Some e ∧ segments_of (wo_operation_id op) xs = []
  else ∃ b, begun starts op b ∧ chain b (segments_of (wo_operation_id op) xs) e ∧
    (served (wo_operation_id op) xs == inject_Z (wo_payload_bytes op))%Q.

(** ** The invariant *)

(** The dependencies of an operation that have not ended. *)
Definition waiting (ends : gmap string mpq) (op : WorkOperation) : list string :=
  filter (λ d, ends !! d = None) (wo_dependencies op).

(** The heap and the degrees; [todo] are popped keys not yet launched. *)
Record queue_ok (todo : list string) (pending : gset string) (releases : list (mpq * string))
    (degrees : gmap string Z) (ends : gmap string mpq) : Prop := {
  q_pending : pending ⊆ available;
  q_degrees : ∀ op, op ∈ operations → wo_operation_id op ∈ pending →
    degrees !! wo_operation_id op = Some (Z.of_nat (length (waiting ends op)));
  q_sound : ∀ t k, (t, k) ∈ releases → ∃ op, op ∈ operations ∧ wo_operation_id op = k ∧
    k ∈ pending ∧ t = _exact_number (wo_not_before_us op) ∧ waiting ends op = [];
  q_todo : ∀ k, k ∈ todo → k ∈ pending ∧
    ∃ op, op ∈ operations ∧ wo_operation_id op = k ∧ waiting ends op = [];
  q_complete : ∀ op, op ∈ operations → wo_operation_id op ∈ pending → waiting ends op = [] →
    wo_operation_id op ∈ todo ∨ wo_operation_id op ∈ releases.*2;
  q_nodup : NoDup (releases.*2 ++ todo);
}.

(** The phases; [finishing] are active keys without remaining bytes. *)
Record work_ok (finishing : list string) (xs : list segment) (st : Replay) : Prop := {
  w_cover : ∀ k, k ∈ available → k ∈ r_pending st ∨ is_Some (r_startup st !! k) ∨
    k ∈ r_active st ∨ is_Some (r_ends st !! k);
  w_started : ∀ k, is_Some (r_starts st !! k) ↔
    is_Some (r_startup st !! k) ∨ k ∈ r_active st ∨ is_Some (r_ends st !! k);
  w_pending : ∀ k, k ∈ r_pending st → r_starts st !! k = None;
  w_apart : ∀ k, is_Some (r_startup st !! k) → k ∉ r_active st ∧ r_ends st !! k = None;
  w_active_apart : ∀ k, k ∈ r_active st → r_ends st !! k = None;
  w_known : ∀ k s, r_starts st !! k = Some s → k ∈ available ∧
    ∃ op, op ∈ operations ∧ wo_operation_id op = k ∧ launched (r_ends st) op s;
  w_past : ∀ k e, r_ends st !! k = Some e → (mpq_value e <= mpq_value (r_now st))%Q;
  w_startup : ∀ op t, op ∈ operations → r_startup st !! wo_operation_id op = Some t →
    wo_kind op ≠ KNop ∧ begun (r_starts st) op t ∧
    segments_of (wo_operation_id op) xs = [] ∧
    r_remaining st !! wo_operation_id op = Some (mpq_int (wo_payload_bytes op));
  w_active : ∀ op, op ∈ operations → wo_operation_id op ∈ r_active st →
    wo_kind op ≠ KNop ∧ ∃ b left, begun (r_starts st) op b ∧
    chain b (segments_of (wo_operation_id op) xs) (r_now st) ∧
    r_remaining st !! wo_operation_id op = Some left ∧
    (served (wo_operation_id op) xs + mpq_value left == inject_Z (wo_payload_bytes op))%Q ∧
    (if decide (wo_operation_id op ∈ finishing) then (mpq_value left == 0)%Q
     else (0 < mpq_value left)%Q);
  w_ended : ∀ op e, op ∈ operations → r_ends st !! wo_operation_id op = Some e →
    finished (r_starts st) xs op e;
  w_segments : mapR float_segment xs = Ok (r_segments st);
  w_times : ∀ s, s ∈ xs → is_Some (r_starts st !! ps_operation_id s) ∧
    (mpq_value (ps_start_us s) < mpq_value (ps_end_us s) <= mpq_value (r_now st))%Q;
  w_capacity : ∀ r t c, capacity_of model r = Some c → (load_at r t xs <= c)%Q;
}.

Definition core (todo finishing : list string) (xs : list segment) (st : Replay) : Prop :=
  queue_ok todo (r_pending st) (r_releases st) (r_degrees st) (r_ends st) ∧
  work_ok finishing xs st.

(** Nothing due was missed: what is in the heap is due at the earliest now, or
    was released by an operation that ends now. *)
Definition fresh (st : Replay) : Prop :=
  (∀ k t, r_startup st !! k = Some t → (mpq_value (r_now st) <= mpq_value t)%Q) ∧
  ∀ t k, (t, k) ∈ r_releases st → (mpq_value (r_now st) <= mpq_value t)%Q ∨
    ∃ op d, op ∈ operations ∧ wo_operation_id op = k ∧ d ∈ wo_dependencies op ∧
      r_ends st !! d = Some (r_now st).

(** Before a round. *)
Definition head_ok (xs : list segment) (st : Replay) : Prop := core [] [] xs st ∧ fresh st.

(** The work ahead, in events. *)
Definition weight (st : Replay) : nat :=
  3 * size (r_pending st) + 2 * size (r_startup st) + size (r_active st).

(** ** The queue *)

Context (Hids : NoDup (wo_operation_id <$> operations))
  (Hwork : ∀ op, op ∈ operations → work_valid op).

Lemma op_unique op op' : op ∈ operations → op' ∈ operations →
  wo_operation_id op = wo_operation_id op' → op = op'.
Proof. by apply NoDup_fmap_elem. Qed.

Lemma op_of_Some k op : op_of operations k = Some op ↔ op ∈ operations ∧ wo_operation_id op = k.
Proof.
  unfold op_of. split.
  - intros Hk%dict_get_Some_1. apply list_elem_of_fmap in Hk as (op' & E & Hop).
    injection E as -> ->. done.
  - intros [Hop <-]. apply dict_get_Some_2; [by rewrite <- list_fmap_compose|].
    apply list_elem_of_fmap. eauto.
Qed.

Lemma find_op_Ok op : op ∈ operations → find_op operations (wo_operation_id op) = Ok op.
Proof. intros Hop. unfold find_op. by rewrite (proj2 (op_of_Some _ op)). Qed.

Lemma successors_ids key : NoDup (wo_operation_id <$> work_successors operations key).
Proof.
  unfold work_successors. clear Hwork. induction operations as [|op l IH]; [constructor|].
  rewrite fmap_cons, NoDup_cons in Hids. destruct Hids as [Hn Hd].
  destruct (decide (key ∈ wo_dependencies op)).
  - rewrite filter_cons_True by done. rewrite fmap_cons, NoDup_cons. split; [|by apply IH].
    intros (op' & E & [_ Hop']%list_elem_of_filter)%list_elem_of_fmap. apply Hn.
    rewrite E. by apply list_elem_of_fmap_2.
  - rewrite filter_cons_False by done. by apply IH.
Qed.

(** What releasing followers does to the queue. *)
Definition release_entry (op : WorkOperation) : mpq * string :=
  (_exact_number (wo_not_before_us op), wo_operation_id op).

Lemma release_followers_spec fs st : NoDup (wo_operation_id <$> fs) →
  ∃ degrees, foldl release_follower st fs = set_queue st
    (r_releases st ++ (release_entry <$> filter (λ op, wo_operation_id op ∈ r_pending st ∧
       default 0 (r_degrees st !! wo_operation_id op) = 1) fs)) degrees ∧
    ∀ k, degrees !! k = if decide (k ∈ wo_operation_id <$> fs ∧ k ∈ r_pending st)
                        then Some (default 0 (r_degrees st !! k) - 1) else r_degrees st !! k.
Proof.
  revert st. induction fs as [|f fs IH]; intros st; cbn [foldl].
  { intros _. exists (r_degrees st). split; [by destruct st; unfold set_queue; simpl; rewrite app_nil_r|].
    intros k. rewrite decide_False by set_solver. done. }
  rewrite fmap_cons, NoDup_cons. intros [Hf Hfs].
  destruct (IH (release_follower st f) Hfs) as (degrees & E & Hdeg). exists degrees.
  rewrite E. unfold release_follower in *. cbv zeta in *.
  destruct (decide (wo_operation_id f ∈ r_pending st)) as [Hp|Hp]; simpl in Hdeg |- *.
  - split.
    + unfold set_queue at 1 3. simpl. f_equal.
      assert (Hrest : filter (λ op, wo_operation_id op ∈ r_pending st ∧ default 0
          (<[wo_operation_id f:=default 0 (r_degrees st !! wo_operation_id f) - 1]> (r_degrees st) !!
            wo_operation_id op) = 1) fs =
        filter (λ op, wo_operation_id op ∈ r_pending st ∧
          default 0 (r_degrees st !! wo_operation_id op) = 1) fs).
      { apply filter_agree. intros op Hop. rewrite lookup_insert_ne; [done|].
        intros Ef. apply Hf. rewrite Ef. by apply list_elem_of_fmap_2. }
      rewrite Hrest. destruct (Z.eqb_spec (default 0 (r_degrees st !! wo_operation_id f) - 1) 0).
      * rewrite filter_cons_True by (split; [done|lia]). by rewrite <- app_assoc.
      * rewrite filter_cons_False by (intros [_ ?]; lia). done.
    + intros k. rewrite Hdeg. destruct (decide (k = wo_operation_id f)) as [->|Hk].
      * rewrite decide_False by tauto. rewrite decide_True by set_solver.
        by rewrite lookup_insert_eq.
      * rewrite lookup_insert_ne by done. apply decide_ext. set_solver.
  - split.
    + rewrite filter_cons_False by tauto. done.
    + intros k. rewrite Hdeg. apply decide_ext. set_solver.
Qed.

Lemma waiting_insert ends key t op :
  waiting (<[key:=t]> ends) op = filter (λ d, d ≠ key) (waiting ends op).
Proof.
  unfold waiting. rewrite list_filter_filter. apply filter_agree. intros d _.
  destruct (decide (d = key)) as [->|Hd].
  - rewrite lookup_insert_eq. naive_solver.
  - rewrite lookup_insert_ne by done. naive_solver.
Qed.

(** Removing a key from a list without duplicates. *)
Lemma filter_remove_length (l : list string) key : NoDup l → key ∈ l →
  length l = S (length (filter (λ d, d ≠ key) l)).
Proof.
  induction l as [|x l IH]; [by intros _ ?%elem_of_nil|].
  intros [Hx Hl]%NoDup_cons [->|Hk]%elem_of_cons.
  - rewrite filter_cons_False by tauto. rewrite list_filter_all; [done|].
    apply Forall_forall. intros y Hy E. by subst.
  - rewrite filter_cons_True by (by intros ->). simpl. f_equal. by apply IH.
Qed.

Lemma waiting_nodup ends op : op ∈ operations → NoDup (waiting ends op).
Proof. intros Hop. apply NoDup_filter. by apply (Hwork _ Hop). Qed.

Lemma elem_of_waiting ends op d : d ∈ waiting ends op ↔ ends !! d = None ∧ d ∈ wo_dependencies op.
Proof. unfold waiting. by rewrite list_elem_of_filter. Qed.

(** [complete] changes the queue, the ends and the events only. *)
Lemma complete_fields st key t : ∃ degrees releases events,
  complete operations st key t =
    set_queue (set_work (set_times st (r_starts st) (<[key := t]> (r_ends st)) (r_remaining st)
      (r_sources_used st) (r_used st)) (r_pending st) (r_startup st) (r_active st) events)
      releases degrees ∧
  releases = r_releases st ++ (release_entry <$>
    filter (λ op, wo_operation_id op ∈ r_pending st ∧
      default 0 (r_degrees st !! wo_operation_id op) = 1) (work_successors operations key)) ∧
  ∀ k, degrees !! k = if decide (k ∈ wo_operation_id <$> work_successors operations key ∧
                                 k ∈ r_pending st)
                      then Some (default 0 (r_degrees st !! k) - 1) else r_degrees st !! k.
Proof.
  unfold complete. cbv zeta.
  match goal with |- context [foldl release_follower ?s ?l] =>
    destruct (release_followers_spec l s (successors_ids key)) as (degrees & E & Hdeg) end.
  rewrite E. exists degrees. do 2 eexists. split; [reflexivity|]. split; [reflexivity|exact Hdeg].
Qed.

Lemma queue_complete todo pending releases degrees degrees' ends key t :
  queue_ok todo pending releases degrees ends → ends !! key = None →
  (∀ k, degrees' !! k = if decide (k ∈ wo_operation_id <$> work_successors operations key ∧
                                   k ∈ pending)
                        then Some (default 0 (degrees !! k) - 1) else degrees !! k) →
  queue_ok todo pending (releases ++ (release_entry <$>
    filter (λ op, wo_operation_id op ∈ pending ∧ default 0 (degrees !! wo_operation_id op) = 1)
      (work_successors operations key))) degrees' (<[key := t]> ends).
Proof.
  intros Hq Hkey Hdeg'.
  assert (Hsucc : ∀ op, op ∈ operations →
    (wo_operation_id op ∈ wo_operation_id <$> work_successors operations key ↔ key ∈ wo_dependencies op)).
  { intros op Hop. rewrite list_elem_of_fmap. split.
    - intros (op' & E & [Hk Hop']%list_elem_of_filter). by rewrite (op_unique _ _ Hop Hop' E).
    - intros Hk. exists op. split; [done|]. by apply list_elem_of_filter. }
  assert (Hsame : ∀ op, key ∉ wo_dependencies op → waiting (<[key:=t]> ends) op = waiting ends op).
  { intros op Hk. rewrite waiting_insert, list_filter_all; [done|].
    apply Forall_forall. intros d [_ Hd]%elem_of_waiting ->. done. }
  assert (Hless : ∀ op, op ∈ operations → key ∈ wo_dependencies op →
    length (waiting ends op) = S (length (waiting (<[key:=t]> ends) op))).
  { intros op Hop Hk. rewrite waiting_insert. apply filter_remove_length; [by apply waiting_nodup|].
    by apply elem_of_waiting. }
  assert (Hnone : ∀ op, op ∈ operations → waiting ends op = [] →
    waiting (<[key:=t]> ends) op = []) by (intros op _ E; by rewrite waiting_insert, E).
  assert (Hnew : ∀ op, op ∈ operations → key ∈ wo_dependencies op → wo_operation_id op ∈ pending →
    (default 0 (degrees !! wo_operation_id op) = 1 ↔ waiting (<[key:=t]> ends) op = [])).
  { intros op Hop Hk Hp. rewrite (q_degrees _ _ _ _ _ Hq op Hop Hp). simpl.
    rewrite (Hless op Hop Hk), <- length_zero_iff_nil. lia. }
  split.
  - apply Hq.
  - intros op Hop Hp. rewrite Hdeg'. case_decide as Hd.
    + destruct Hd as [Hd%Hsucc _]; [|done]. rewrite (q_degrees _ _ _ _ _ Hq op Hop Hp). simpl.
      rewrite (Hless op Hop Hd). f_equal. lia.
    + rewrite Hsame; [by apply Hq|]. intros Hk. apply Hd. by rewrite Hsucc.
  - intros t' k [Hin|Hin]%elem_of_app.
    + destruct (q_sound _ _ _ _ _ Hq _ _ Hin) as (op & Hop & Hid & Hp & Ht & Hw). exists op. auto 10.
    + apply list_elem_of_fmap in Hin as (op & [= -> ->] & [[Hp Hd] [Hk Hop]%list_elem_of_filter]%list_elem_of_filter).
      exists op. repeat split; try done. by apply Hnew.
  - intros k Hk. destruct (q_todo _ _ _ _ _ Hq _ Hk) as (Hp & op & Hop & Hid & Hw).
    split; [done|]. exists op. auto.
  - intros op Hop Hp Hw. rewrite fmap_app, elem_of_app.
    destruct (decide (key ∈ wo_dependencies op)) as [Hk|Hk].
    + right. right. apply list_elem_of_fmap. exists (release_entry op). split; [done|].
      apply list_elem_of_fmap_2, list_elem_of_filter. split; [|by apply list_elem_of_filter].
      split; [done|]. by apply Hnew.
    + rewrite Hsame in Hw by done. destruct (q_complete _ _ _ _ _ Hq op Hop Hp Hw); auto.
  - rewrite fmap_app, <- app_assoc, (Permutation_app_comm _ todo), app_assoc.
    apply NoDup_app. split; [by apply Hq|]. split.
    + intros k Hk Hin. rewrite <- list_fmap_compose in Hin.
      apply list_elem_of_fmap in Hin as (op & -> & [[Hp Hd] [Hdep Hop]%list_elem_of_filter]%list_elem_of_filter).
      assert (Hw : waiting ends op = []).
      { apply elem_of_app in Hk as [Hk|Hk].
        - apply list_elem_of_fmap in Hk as ([t' k] & E & Hk).
          destruct (q_sound _ _ _ _ _ Hq _ _ Hk) as (op' & Hop' & Hid & _ & _ & Hw).
          rewrite (op_unique op op'); [done..|]. simpl in *. congruence.
        - destruct (q_todo _ _ _ _ _ Hq _ Hk) as (_ & op' & Hop' & Hid & Hw).
          by rewrite (op_unique op op'). }
      assert (Hin : key ∈ waiting ends op) by by apply elem_of_waiting.
      rewrite Hw in Hin. by apply elem_of_nil in Hin.
    + rewrite <- list_fmap_compose.
      assert (Hs : NoDup (wo_operation_id <$> work_successors operations key)) by apply successors_ids.
      eapply sublist_NoDup; [exact Hs|]. apply (fmap_sublist wo_operation_id), sublist_filter.
Qed.

(** Ends only accumulate. *)
Lemma launched_insert ends key t op s : ends !! key = None →
  launched ends op s → launched (<[key := t]> ends) op s.
Proof.
  intros Hk (Hnb & Hd & Hl). split; [done|]. split.
  - intros d Hin. destruct (Hd _ Hin) as (e & He & Hle). exists e. split; [|done].
    rewrite lookup_insert_ne; [done|]. intros <-. congruence.
  - destruct Hl as [?|(d & Hin & He)]; [by left|]. right. exists d. split; [done|].
    rewrite lookup_insert_ne; [done|]. intros <-. congruence.
Qed.

(** An operation ends: its key leaves its phase for the ended ones. *)
Lemma work_complete finishing finishing' xs st st' key s op :
  work_ok finishing xs st → op ∈ operations → wo_operation_id op = key → key ∈ available →
  r_ends st !! key = None → r_startup st !! key = None →
  r_startup st' = r_startup st → r_remaining st' = r_remaining st →
  r_segments st' = r_segments st → r_now st' = r_now st →
  r_pending st' = r_pending st ∖ {[key]} → r_active st' = r_active st ∖ {[key]} →
  r_ends st' = <[key := r_now st]> (r_ends st) →
  r_starts st' = <[key := s]> (r_starts st) →
  launched (r_ends st) op s → finished (r_starts st') xs op (r_now st) →
  (∀ k, k ∈ r_active st' → (k ∈ finishing ↔ k ∈ finishing')) →
  work_ok finishing' xs st'.
Proof.
  intros Hw Hop Hid Hav Hend Hsu Esu Erem Eseg Enow Epend Eact Eends Estarts Hlaunch Hfin Hfing.
  assert (Hne : ∀ op', op' ∈ operations → wo_operation_id op' ≠ key →
    r_starts st' !! wo_operation_id op' = r_starts st !! wo_operation_id op').
  { intros op' _ Hk. by rewrite Estarts, lookup_insert_ne. }
  assert (Hbegun : ∀ op' b, op' ∈ operations → wo_operation_id op' ≠ key →
    begun (r_starts st) op' b → begun (r_starts st') op' b).
  { intros op' b Hop' Hk (s' & a & Hs & Ha & Hb). exists s', a. by rewrite Hne. }
  split; rewrite ?Esu, ?Erem, ?Eseg, ?Enow, ?Epend, ?Eact, ?Eends.
  - intros k Hk. destruct (decide (k = key)) as [->|Hkk].
    { right; right; right. by rewrite lookup_insert_eq. }
    rewrite lookup_insert_ne by done. destruct (w_cover _ _ _ Hw _ Hk); set_solver.
  - intros k. rewrite Estarts. destruct (decide (k = key)) as [->|Hkk].
    + rewrite !lookup_insert_eq. split; [|by eauto]. intros _. right; right. by eauto.
    + rewrite !lookup_insert_ne by done. rewrite (w_started _ _ _ Hw). set_solver.
  - intros k Hk. rewrite Estarts, lookup_insert_ne by set_solver.
    apply (w_pending _ _ _ Hw). set_solver.
  - intros k Hk. destruct (w_apart _ _ _ Hw _ Hk) as [Ha He].
    destruct (decide (k = key)) as [->|Hkk]; [by rewrite Hsu in Hk; destruct Hk|].
    rewrite lookup_insert_ne by done. split; [set_solver|done].
  - intros k Hk. rewrite lookup_insert_ne by set_solver. apply (w_active_apart _ _ _ Hw). set_solver.
  - intros k s'. rewrite Estarts. destruct (decide (k = key)) as [->|Hkk].
    + rewrite lookup_insert_eq. intros [= <-]. split; [done|]. exists op.
      split; [done|]. split; [done|]. by apply launched_insert.
    + rewrite lookup_insert_ne by done. intros Hk.
      destruct (w_known _ _ _ Hw _ _ Hk) as (? & op' & ? & ? & ?). split; [done|].
      exists op'. split; [done|]. split; [done|]. by apply launched_insert.
  - intros k e. destruct (decide (k = key)) as [->|Hkk].
    + rewrite lookup_insert_eq. intros [= <-]. apply Qle_refl.
    + rewrite lookup_insert_ne by done. apply (w_past _ _ _ Hw).
  - intros op' t Hop' Ht. destruct (decide (wo_operation_id op' = key)) as [E|Hkk]; [congruence|].
    destruct (w_startup _ _ _ Hw _ _ Hop' Ht) as (? & Hb & ? & ?). auto.
  - intros op' Hop' Hk. destruct (decide (wo_operation_id op' = key)) as [E|Hkk]; [set_solver|].
    destruct (w_active _ _ _ Hw _ Hop') as (? & b & left & Hb & Hc & Hr & Hs & Hl); [set_solver|].
    split; [done|]. exists b, left. split; [auto|]. split; [done|]. split; [done|].
    split; [done|]. rewrite Eact in Hfing. specialize (Hfing _ Hk).
    repeat case_decide; tauto.
  - intros op' e Hop'. destruct (decide (wo_operation_id op' = key)) as [E|Hkk].
    + rewrite E, lookup_insert_eq. intros [= <-]. rewrite (op_unique op' op); [done..|]. congruence.
    + rewrite lookup_insert_ne by done. intros He. pose proof (w_ended _ _ _ Hw _ _ Hop' He) as Hf.
      unfold finished in *. case_decide; [by rewrite Hne|].
      destruct Hf as (b & Hb & Hc). exists b. auto.
  - apply Hw.
  - intros sg Hsg. destruct (w_times _ _ _ Hw _ Hsg) as [Hs Ht]. split; [|done].
    rewrite Estarts. destruct (decide (ps_operation_id sg = key)) as [->|].
    + rewrite lookup_insert_eq. eauto.
    + by rewrite lookup_insert_ne.
  - apply Hw.
Qed.
End timeline.

(** * What a cost model can price ([performance/simulation.py])

    The dependency check and the unavailable operations of [predict]: those
    that the model does not price, those that depend on one, and those that
    share a resource with one. *)

(** ** [_acyclic] *)

Lemma work_table_keys operations : (work_table operations).*1 = wo_operation_id <$> operations.
Proof. unfold work_table. by rewrite <- list_fmap_compose. Qed.

(** A topological order of the operations. *)
Definition orderable (operations : list WorkOperation) : Prop :=
  ∃ order, order ≡ₚ wo_operation_id <$> operations ∧
    dependency_ordered (work_table operations) order.

Lemma size_list_to_set_nodup (l : list string) :
  NoDup l → size (list_to_set l : gset string) = length l.
Proof. apply size_list_to_set. Qed.

Section executable.
Context (operations : list WorkOperation).
Context (Hids : NoDup (wo_operation_id <$> operations))
  (Hwork : ∀ op, op ∈ operations → work_valid op)
  (Hknown : ∀ op d, op ∈ operations → d ∈ wo_dependencies op → d ∈ wo_operation_id <$> operations).

Definition degree_map : gmap string Z := list_to_map
  ((λ op, (wo_operation_id op, Z.of_nat (length (wo_dependencies op)))) <$> operations).

Lemma degree_map_lookup op : op ∈ operations →
  degree_map !! wo_operation_id op = Some (Z.of_nat (length (wo_dependencies op))).
Proof.
  intros Hop. apply elem_of_list_to_map.
  - rewrite <- list_fmap_compose. done.
  - apply list_elem_of_fmap. eauto.
Qed.

Lemma degree_map_size : size degree_map = length operations.
Proof.
  unfold degree_map. rewrite <- size_dom, dom_list_to_map_L, <- list_fmap_compose.
  rewrite size_list_to_set_nodup by done. by rewrite length_fmap.
Qed.

Lemma acyclic_cases :
  match _acyclic operations with
  | Ok degrees => degrees = degree_map ∧ orderable operations
  | Err e => e = SemanticError "executable dependency cycle" ∧ ¬ orderable operations
  end.
Proof.
  unfold _acyclic. cbv zeta. fold degree_map.
  assert (Hk : existsb (λ op, existsb (λ d, bool_decide (degree_map !! d = None)) (wo_dependencies op))
    operations = false).
  { apply existsb_none. intros op Hop. apply existsb_none. intros d Hd.
    apply bool_decide_eq_false_2.
    pose proof (Hknown _ _ Hop Hd) as (op' & -> & Hop')%list_elem_of_fmap.
    by rewrite degree_map_lookup. }
  rewrite Hk. cbn [raise_when mbind res_bind].
  assert (Hkeys : NoDup (work_table operations).*1) by by rewrite work_table_keys.
  destruct (dependency_loop_total (work_table operations) Hkeys (S (length operations)) degree_map
    (wo_operation_id <$> filter (λ op, wo_dependencies op = []) operations) [])
    as (order & degrees' & E & Hkahn).
  - apply kahn_initial; [done|..].
    + intros k d (op & [= -> ->] & Hop)%list_elem_of_fmap. rewrite degree_map_lookup by done.
      rewrite size_list_to_set_nodup; [done|]. by apply Hwork.
    + apply reflexive_eq. unfold work_table. clear.
      induction operations as [|op l IH]; [done|]. rewrite fmap_cons.
      destruct (decide (wo_dependencies op = [])) as [Ed|Ed].
      * rewrite filter_cons_True by done. rewrite filter_cons_True by (simpl; by rewrite Ed).
        rewrite !fmap_cons. simpl. by f_equal.
      * rewrite filter_cons_False by done. rewrite filter_cons_False; [done|]. simpl.
        intros Hs. apply Ed. destruct (wo_dependencies op) as [|d ds]; [done|]. simpl in Hs. set_solver.
  - unfold work_table. rewrite length_fmap. simpl. lia.
  - rewrite E. cbn [mbind res_bind]. pose proof (kahn_end _ Hkeys _ _ Hkahn) as Hend.
    assert (Hlen : length (work_table operations) = length operations) by apply length_fmap.
    rewrite Hlen in Hend. rewrite degree_map_size.
    case_decide as Hl.
    + rewrite (proj2 (Nat.eqb_eq _ _) Hl). simpl. split; [done|]. exists order.
      rewrite <- work_table_keys. split; [done|]. apply Hkahn.
    + rewrite (proj2 (Nat.eqb_neq _ _) Hl). simpl. split; [done|].
      intros (l & Hp & Ho). apply Hend. exists l. by rewrite work_table_keys.
Qed.

(** ** Availability *)

(** The model has no service for the operation, or lacks a resource. *)
Definition unpriced (model : CostModel) (op : WorkOperation) : Prop :=
  wo_kind op ≠ KNop ∧
  (service_for model (default EmptyString (wo_cost_key op)) (wo_payload_bytes op) = None ∨
   ∃ r, r ∈ wo_resources op ∧ dict_get r (cm_resources model) = None).

Inductive blocked (model : CostModel) : string → Prop :=
  | blocked_cost op : op ∈ operations → unpriced model op → blocked model (wo_operation_id op)
  | blocked_dependency op d : op ∈ operations → d ∈ wo_dependencies op → blocked model d →
      blocked model (wo_operation_id op)
  | blocked_resource op op' r : op ∈ operations → op' ∈ operations →
      r ∈ wo_resources op → r ∈ wo_resources op' → blocked model (wo_operation_id op') →
      blocked model (wo_operation_id op).

Lemma service_for_valid model key size cost :
  model_valid model → service_for model key size = Some cost → cost_valid cost.
Proof.
  intros Hm. unfold service_for. intros Hh%head_Some_elem_of.
  apply list_elem_of_filter in Hh as [_ Hin].
  destruct (dict_get key (cm_services model)) as [values|] eqn:E; simpl in Hin.
  - by eapply mv_services.
  - by apply elem_of_nil in Hin.
Qed.

Lemma override_source_valid op cost : cost_valid cost → cost_valid (override_source op cost).
Proof. unfold override_source. by destruct (wo_source_override op) as [[]|]. Qed.

(** The costs and the unavailable keys of the operations seen so far. *)
Definition costs_ok (model : CostModel) (seen : list WorkOperation) (self : Availability) : Prop :=
  let '(costs, unavailable, _) := self in
  (∀ k, k ∈ unavailable ↔ ∃ op, op ∈ seen ∧ wo_operation_id op = k ∧ unpriced model op) ∧
  ∀ op, op ∈ seen → wo_kind op ≠ KNop → ¬ unpriced model op → priced model costs op.

Lemma cost_step_ok model seen self op :
  model_valid model → wo_operation_id op ∉ wo_operation_id <$> seen →
  costs_ok model seen self → costs_ok model (seen ++ [op]) (cost_step model self op).
Proof.
  intros Hmodel Hfresh. destruct self as [[costs unavailable] missing]. intros [Hun Hco].
  unfold cost_step. destruct (decide (wo_kind op = KNop)) as [Hk|Hk].
  { split.
    - intros k. rewrite Hun. split.
      + intros (op' & ? & ? & ?). exists op'. set_solver.
      + intros (op' & [?| ->%list_elem_of_singleton]%elem_of_app & ? & Hu); [eauto|].
        by destruct Hu.
    - intros op' [?| ->%list_elem_of_singleton]%elem_of_app; [auto|done]. }
  cbv zeta. set (svc := service_for model _ _).
  set (absent := filter (λ r, dict_get r (cm_resources model) = None) (wo_resources op)).
  assert (Habs : absent = [] ↔ ¬ ∃ r, r ∈ wo_resources op ∧ dict_get r (cm_resources model) = None).
  { unfold absent. split.
    - intros E (r & Hr & Hd). assert (Hin : r ∈ absent) by by apply list_elem_of_filter.
      unfold absent in Hin. rewrite E in Hin. by apply elem_of_nil in Hin.
    - intros Hn. apply list_filter_none. eauto. }
  assert (Hun_op : unpriced model op ↔ svc = None ∨ absent ≠ []).
  { unfold unpriced. fold svc. destruct absent as [|r l] eqn:E.
    - pose proof (proj1 Habs eq_refl). tauto.
    - split; [by right|]. intros _. split; [done|]. right. exists r.
      assert (Hin : r ∈ absent) by (rewrite E; by left). by apply list_elem_of_filter in Hin as [? ?]. }
  assert (Hold : ∀ op' c, op' ∈ seen → priced model costs op' →
    priced model (<[wo_operation_id op := c]> costs) op').
  { intros op' c Hop' Hp. unfold priced in *. rewrite lookup_insert_ne; [done|].
    intros Eid. apply Hfresh. rewrite Eid. by apply list_elem_of_fmap_2. }
  assert (Hset : ∀ (X : gset string) k,
    (k ∈ X ↔ k ∈ unavailable ∨ k = wo_operation_id op ∧ unpriced model op) →
    (k ∈ X ↔ ∃ op', op' ∈ seen ++ [op] ∧ wo_operation_id op' = k ∧ unpriced model op')).
  { intros X k ->. rewrite Hun. split.
    - intros [(op' & ? & ? & ?)|[-> ?]]; [exists op'|exists op]; set_solver.
    - intros (op' & [?| ->%list_elem_of_singleton]%elem_of_app & <- & ?); [left; eauto|by right]. }
  destruct svc as [cost|] eqn:Esvc.
  - split.
    + intros k. apply Hset. rewrite Hun_op. case_bool_decide as Ea; set_solver.
    + intros op' [Hop'| ->%list_elem_of_singleton]%elem_of_app Hkind Hnot; [by auto|].
      assert (Ea : absent = []) by (destruct absent; [done|]; exfalso; apply Hnot, Hun_op; by right).
      split.
      * exists (override_source op cost). rewrite lookup_insert_eq. split; [done|].
        by eapply override_source_valid, service_for_valid.
      * intros r Hr. destruct (dict_get r (cm_resources model)) eqn:E; [eauto|]. exfalso.
        apply (proj1 Habs Ea). eauto.
  - split.
    + intros k. apply Hset. rewrite Hun_op. case_bool_decide as Ea; set_solver.
    + intros op' [Hop'| ->%list_elem_of_singleton]%elem_of_app Hkind Hnot; [by auto|].
      exfalso. apply Hnot, Hun_op. by left.
Qed.

Lemma costs_fold_ok model :
  model_valid model → costs_ok model operations (foldl (cost_step model) (∅, ∅, ∅) operations).
Proof.
  intros Hmodel. cut (∀ l seen self, operations = seen ++ l → costs_ok model seen self →
    costs_ok model operations (foldl (cost_step model) self l)).
  { intros Hc. apply (Hc operations []); [done|]. split.
    - intros k. split; [set_solver|]. intros (op & ?%elem_of_nil & _). done.
    - by intros op ?%elem_of_nil. }
  induction l as [|op l IH]; intros seen self E Hs; cbn [foldl].
  { rewrite app_nil_r in E. by rewrite E. }
  apply (IH (seen ++ [op])); [by rewrite <- app_assoc|]. apply cost_step_ok; [done| |done].
  rewrite E, fmap_app, fmap_cons in Hids. apply NoDup_app in Hids as (_ & Hd & _).
  intros Hin. apply (Hd _ Hin). by left.
Qed.

(** *** The closure *)

Lemma spread_step_mono affected u op : u ⊆ spread_step affected u op.
Proof. unfold spread_step. case_decide; set_solver. Qed.

Lemma spread_fold_mono affected l u : u ⊆ foldl (spread_step affected) u l.
Proof.
  revert u. induction l as [|op l IH]; intros u; simpl; [done|].
  etrans; [apply (spread_step_mono affected u op)|apply IH].
Qed.

(** A pass that changes nothing finds nothing to add. *)
Lemma spread_fixpoint affected l u op :
  foldl (spread_step affected) u l = u → op ∈ l → spread_step affected u op = u.
Proof.
  revert u. induction l as [|op' l IH]; intros u E Hop; [by apply elem_of_nil in Hop|]. simpl in E.
  assert (E' : spread_step affected u op' = u).
  { apply set_eq. intros k. split; [|by apply spread_step_mono].
    intros Hk. rewrite <- E. by apply spread_fold_mono. }
  apply elem_of_cons in Hop as [->|Hop]; [done|]. rewrite E' in E. by apply IH.
Qed.

Lemma elem_of_affected u r : r ∈ affected_resources operations u ↔
  ∃ op, op ∈ operations ∧ wo_operation_id op ∈ u ∧ r ∈ wo_resources op.
Proof.
  unfold affected_resources. rewrite elem_of_list_to_set, elem_of_concat.
  setoid_rewrite list_elem_of_fmap. setoid_rewrite list_elem_of_filter. naive_solver.
Qed.

(** The pass only adds blocked keys. *)
Lemma spread_fold_blocked model u l :
  (∀ k, k ∈ u → blocked model k) → (∀ op, op ∈ l → op ∈ operations) →
  ∀ v, (∀ k, k ∈ v → blocked model k) →
  ∀ k, k ∈ foldl (spread_step (affected_resources operations u)) v l → blocked model k.
Proof.
  intros Hu Hl. induction l as [|op l IH]; intros v Hv k; cbn [foldl]; [apply Hv|].
  apply IH; [intros; apply Hl; by right|]. clear k. intros k. unfold spread_step.
  case_decide as Hd; [|apply Hv]. intros [Hk|Hk%elem_of_singleton]%elem_of_union; [by apply Hv|].
  subst k. assert (Hop : op ∈ operations) by (apply Hl; by left).
  destruct Hd as [_ [Hd|Hr]].
  - apply set_choose_L in Hd as (d & [Hd%elem_of_list_to_set Hdv]%elem_of_intersection).
    eapply blocked_dependency; [done|done|by apply Hv].
  - apply set_choose_L in Hr as (r & [Hr%elem_of_list_to_set Ha]%elem_of_intersection).
    apply elem_of_affected in Ha as (op' & Hop' & Hin & Hr').
    eapply blocked_resource; [done|exact Hop'|done|done|by apply Hu].
Qed.

(** The result of the closure: the blocked operations. *)
Lemma spread_ok model fuel u :
  (∀ k, k ∈ u → blocked model k) → (∀ op, op ∈ operations → unpriced model op → wo_operation_id op ∈ u) →
  u ⊆ list_to_set (wo_operation_id <$> operations) → (length operations < fuel + size u)%nat →
  ∃ v, spread fuel operations u = Ok v ∧ ∀ k, k ∈ v ↔ blocked model k.
Proof.
  revert u. induction fuel as [|fuel IH]; intros u Hb Hun Hsub Hf.
  { apply subseteq_size in Hsub. rewrite size_list_to_set, length_fmap in Hsub by done. lia. }
  cbn [spread]. cbv zeta. set (u' := foldl _ u operations).
  assert (Hmono : u ⊆ u') by apply spread_fold_mono.
  case_decide as E.
  - exists u. split; [done|]. intros k. split; [apply Hb|]. unfold u' in E.
    assert (Hfix : ∀ op, op ∈ operations → spread_step (affected_resources operations u) u op = u)
      by (intros; by eapply spread_fixpoint).
    assert (Hclosed : ∀ op, op ∈ operations → wo_operation_id op ∉ u →
      ((list_to_set (wo_dependencies op) : gset string) ∩ u ≠ ∅ ∨
       op_resources op ∩ affected_resources operations u ≠ ∅) → False).
    { intros op Hop Hn Hc. specialize (Hfix _ Hop). unfold spread_step in Hfix.
      rewrite decide_True in Hfix by done. apply Hn. rewrite <- Hfix. set_solver. }
    induction 1 as [op Hop Hu|op d Hop Hd _ IHb|op op' r Hop Hop' Hr Hr' _ IHb].
    + by apply Hun.
    + destruct (decide (wo_operation_id op ∈ u)) as [|Hn]; [done|]. exfalso.
      apply (Hclosed op Hop Hn). left. intros Ee.
      assert (d ∈ (list_to_set (wo_dependencies op) : gset string) ∩ u) by set_solver. set_solver.
    + destruct (decide (wo_operation_id op ∈ u)) as [|Hn]; [done|]. exfalso.
      apply (Hclosed op Hop Hn). right. intros Ee.
      assert (Ha : r ∈ affected_resources operations u) by (apply elem_of_affected; eauto).
      assert (r ∈ op_resources op ∩ affected_resources operations u).
      { apply elem_of_intersection. split; [by apply elem_of_list_to_set|done]. }
      set_solver.
  - assert (Hsize : (size u < size u')%nat) by (apply subset_size; set_solver).
    apply IH.
    + by apply spread_fold_blocked.
    + intros op Hop Hu. by apply Hmono, Hun.
    + assert (Hall : ∀ l, (∀ op, op ∈ l → op ∈ operations) → ∀ v,
        v ⊆ list_to_set (wo_operation_id <$> operations) →
        foldl (spread_step (affected_resources operations u)) v l ⊆
          list_to_set (wo_operation_id <$> operations)); [|by apply Hall].
      induction l as [|op l IHl]; intros Hl v Hv; cbn [foldl]; [done|].
      apply IHl; [intros; apply Hl; by right|]. unfold spread_step. case_decide; [|done].
      apply union_subseteq. split; [done|]. apply singleton_subseteq_l, elem_of_list_to_set.
      apply list_elem_of_fmap_2, Hl. by left.
    + lia.
Qed.
End executable.
