(* ===== verification/PredictionRounds.v ===== *)
(** * The rounds of the replay ([performance/simulation.py])

    Each phase of a round preserves the invariant; a round is never stalled,
    never fails to advance time, and reduces the work ahead. *)

From Stdlib Require Import QArith Lqa.
From S2P Require Import Prelude.
From S2P Require Import Python.
From S2P Require Import V5Program.
From S2P Require Import V5Order.
From S2P Require Import Mpq.
From S2P Require Import Performance.
From S2P Require Import Prediction.
From S2P Require Import PredictionRates.
From S2P Require Import PredictionReplay.
From S2P Require Import Floats.
Local Open Scope Z_scope.

(** Induction over a total loop. *)
Lemma foldl_prefix {S A} (I : list A → S → Prop) (f : S → A → S) s l :
  I [] s → (∀ done x rest s, l = done ++ x :: rest → I done s → I (done ++ [x]) (f s x)) →
  I l (foldl f s l).
Proof.
  intros H0 Hstep.
  cut (∀ l2 l1 s, l = l1 ++ l2 → I l1 s → I l (foldl f s l2)); [intros Hc; by apply (Hc l [] s)|].
  induction l2 as [|x l2 IH]; intros l1 s' E HI; simpl.
  { by rewrite app_nil_r in E; subst. }
  apply (IH (l1 ++ [x])); [by rewrite <- app_assoc|]. by eapply Hstep.
Qed.

Lemma size_delete_key {V} (m : gmap string V) k v : m !! k = Some v → size m = S (size (delete k m)).
Proof.
  intros Hk. rewrite <- (insert_delete_id m k v Hk) at 1. rewrite map_size_insert_None; [done|].
  apply lookup_delete_eq.
Qed.

Lemma size_add (X : gset string) k : k ∉ X → size (X ∪ {[k]}) = S (size X).
Proof. intros. rewrite size_union by set_solver. rewrite size_singleton. lia. Qed.

Lemma size_drop (X : gset string) k : k ∈ X → size X = S (size (X ∖ {[k]})).
Proof.
  intros Hk. rewrite <- (size_add (X ∖ {[k]}) k) by set_solver. f_equal. apply set_eq.
  intros x. destruct (decide (x = k)); set_solver.
Qed.

Section rounds.
Context `{MpqLaws} (operations : list WorkOperation) (model : CostModel)
  (costs : gmap string ServiceCost) (available : gset string).
Context (Hids : NoDup (wo_operation_id <$> operations))
  (Hwork : ∀ op, op ∈ operations → work_valid op) (Hmodel : model_valid model)
  (Hdeps : ∀ op d, op ∈ operations → wo_operation_id op ∈ available →
     d ∈ wo_dependencies op → d ∈ available)
  (Hknown : ∀ k, k ∈ available → ∃ op, op ∈ operations ∧ wo_operation_id op = k)
  (Hpriced : ∀ op, op ∈ operations → wo_operation_id op ∈ available → wo_kind op ≠ KNop →
     priced model costs op)
  (Hacyclic : ∃ order, order ≡ₚ wo_operation_id <$> operations ∧
     dependency_ordered (work_table operations) order).

Notation queue_ok := (queue_ok operations available).
Notation work_ok := (work_ok operations model costs available).
Notation core := (core operations model costs available).
Notation fresh := (fresh operations).
Notation head_ok := (head_ok operations model costs available).

(** ** Startups *)

(** A startup that ends now. *)
Lemma startup_ends todo xs st key evs :
  core todo [] xs st → r_startup st !! key = Some (r_now st) →
  core todo [] xs (set_work st (r_pending st) (delete key (r_startup st))
                     (r_active st ∪ {[key]}) evs).
Proof.
  intros [Hq Hw] Hkey. split; [exact Hq|].
  assert (Hs : is_Some (r_startup st !! key)) by eauto.
  destruct (w_apart _ _ _ _ _ _ _ Hw _ Hs) as [Hact Hend].
  assert (Hdel : ∀ k t, delete key (r_startup st) !! k = Some t → k ≠ key ∧ r_startup st !! k = Some t).
  { intros k t. rewrite lookup_delete_Some. naive_solver. }
  split; simpl; try apply Hw.
  - intros k Hk. destruct (decide (k = key)) as [->|Hkk]; [set_solver|].
    rewrite lookup_delete_ne by done. destruct (w_cover _ _ _ _ _ _ _ Hw _ Hk) as [|[|[|]]]; set_solver.
  - intros k. rewrite (w_started _ _ _ _ _ _ _ Hw). destruct (decide (k = key)) as [->|Hkk].
    + rewrite lookup_delete_eq. split; [set_solver|by left].
    + rewrite lookup_delete_ne by done. set_solver.
  - intros k [t [Hk Ht]%Hdel]. destruct (w_apart _ _ _ _ _ _ _ Hw k) as [Ha He]; [eauto|].
    split; [set_solver|done].
  - intros k [Hk|Hk]%elem_of_union; [by apply (w_active_apart _ _ _ _ _ _ _ Hw)|].
    by apply elem_of_singleton in Hk as ->.
  - intros op t Hop [_ Ht]%Hdel. by apply (w_startup _ _ _ _ _ _ _ Hw).
  - intros op Hop [Hk|Hk]%elem_of_union; [by apply (w_active _ _ _ _ _ _ _ Hw)|].
    apply elem_of_singleton in Hk. rewrite <- Hk in Hkey.
    destruct (w_startup _ _ _ _ _ _ _ Hw _ _ Hop Hkey) as (Hn & Hb & Hseg & Hrem).
    split; [done|]. exists (r_now st), (mpq_int (wo_payload_bytes op)).
    unfold served. rewrite Hseg.
    split; [done|]. split; [done|]. split; [done|]. rewrite mpq_value_int. split.
    + unfold Qsum. simpl. lra.
    + apply inject_Z_pos. by apply (wv_payload _ (Hwork _ Hop)).
Qed.

(** What the phases before the rates leave alone. *)
Definition moved (st st' : Replay) : Prop := st' = st ∨ (weight st' < weight st)%nat.

Lemma finish_startups_ok xs st :
  head_ok xs st →
  let st' := finish_startups st in
  head_ok xs st' ∧ (∀ k t, r_startup st' !! k = Some t → (mpq_value (r_now st) < mpq_value t)%Q) ∧
  r_releases st' = r_releases st ∧ r_now st' = r_now st ∧ moved st st'.
Proof.
  intros Hst. cbv zeta. unfold finish_startups.
  assert (HI : head_ok xs (foldl startup_step st (sorted_keys (dom (r_startup st)))) ∧
    r_releases (foldl startup_step st (sorted_keys (dom (r_startup st)))) = r_releases st ∧
    r_now (foldl startup_step st (sorted_keys (dom (r_startup st)))) = r_now st ∧
    moved st (foldl startup_step st (sorted_keys (dom (r_startup st)))) ∧
    ∀ k t, r_startup (foldl startup_step st (sorted_keys (dom (r_startup st)))) !! k = Some t →
      r_startup st !! k = Some t ∧
      (k ∈ sorted_keys (dom (r_startup st)) → (mpq_value (r_now st) < mpq_value t)%Q)).
  { apply (foldl_prefix (λ done st', head_ok xs st' ∧ r_releases st' = r_releases st ∧
      r_now st' = r_now st ∧ moved st st' ∧ ∀ k t, r_startup st' !! k = Some t →
        r_startup st !! k = Some t ∧ (k ∈ done → (mpq_value (r_now st) < mpq_value t)%Q))).
    - split; [done|]. split; [done|]. split; [done|]. split; [by left|].
      intros k t Ht. split; [done|]. by intros ?%elem_of_nil.
    - intros done key rest st' _ ([Hc Hf] & Hr & Hn & Hm & Hs). unfold startup_step.
      destruct (r_startup st' !! key) as [ready|] eqn:Ek; [destruct (pleb ready (r_now st')) eqn:El|].
      + assert (E : ready = r_now st').
        { apply mpq_eq. apply mpq_le in El. pose proof (proj1 Hf _ _ Ek).
          by apply Qle_antisym. }
        subst ready. split; [split; [by apply startup_ends|]|].
        * split; simpl; [|apply Hf]. intros k t [_ Ht]%lookup_delete_Some. by apply (proj1 Hf k).
        * split; [done|]. split; [done|]. split.
          -- right. assert (weight (set_work st' (r_pending st') (delete key (r_startup st'))
               (r_active st' ∪ {[key]}) [event (r_now st') "startup_complete" key]) < weight st')%nat.
             { unfold weight; simpl. rewrite (size_delete_key _ _ _ Ek).
               destruct (w_apart _ _ _ _ _ _ _ (proj2 Hc) key) as [Ha _]; [eauto|].
               rewrite size_add by done. lia. }
             destruct Hm as [<-|]; lia.
          -- simpl. intros k t [Hkk Ht]%lookup_delete_Some. destruct (Hs _ _ Ht) as [Hs1 Hs2].
             split; [done|]. intros [?| ->%list_elem_of_singleton]%elem_of_app; [auto|done].
      + split; [done|]. split; [done|]. split; [done|]. split; [done|].
        intros k t Ht. destruct (Hs _ _ Ht) as [Hs1 Hs2]. split; [done|].
        intros [?| ->%list_elem_of_singleton]%elem_of_app; [auto|].
        rewrite Ek in Ht. injection Ht as ->. apply mpq_nle in El. by rewrite Hn in El.
      + split; [done|]. split; [done|]. split; [done|]. split; [done|].
        intros k t Ht. destruct (Hs _ _ Ht) as [Hs1 Hs2]. split; [done|].
        intros [?| ->%list_elem_of_singleton]%elem_of_app; [auto|]. congruence. }
  destruct HI as (Hh & Hr & Hn & Hm & Hs). split; [done|]. split; [|done].
  intros k t Ht. destruct (Hs _ _ Ht) as [Hs1 Hs2]. apply Hs2. unfold sorted_keys.
  rewrite elem_of_sorted_by, elem_of_elements. apply elem_of_dom. eauto.
Qed.

(** ** Due releases *)

Lemma due_releases_ok xs st : head_ok xs st →
  let '(ready, st') := due_releases st in
  core ready [] xs st' ∧ NoDup ready ∧
  (∀ op, op ∈ operations → wo_operation_id op ∈ ready → launched (r_ends st) op (r_now st)) ∧
  (∀ t k, (t, k) ∈ r_releases st' → (mpq_value (r_now st) < mpq_value t)%Q) ∧
  r_startup st' = r_startup st ∧ r_now st' = r_now st ∧ r_ends st' = r_ends st ∧
  weight st' = weight st ∧ (ready = [] → st' = st).
Proof.
  intros [[Hq Hw] [_ Hf]]. unfold due_releases. cbv zeta.
  set (due := filter (λ entry : mpq * string, Is_true _) _).
  set (rest := filter (λ entry : mpq * string, ¬ _) _).
  assert (Hperm : r_releases st ≡ₚ rest ++ due) by apply filter_partition.
  assert (Hnd : NoDup (rest.*2 ++ due.*2)).
  { rewrite <- fmap_app, <- Hperm. pose proof (q_nodup _ _ _ _ _ _ _ Hq) as Hnd.
    by rewrite app_nil_r in Hnd. }
  split; [split; [split; try apply Hq|split; apply Hw]|].
  - intros t k [_ Hin]%list_elem_of_filter. by apply (q_sound _ _ _ _ _ _ _ Hq).
  - intros k Hk. rewrite elem_of_sorted_by in Hk. apply list_elem_of_fmap in Hk as ([t k'] & -> & Hk).
    apply list_elem_of_filter in Hk as [_ Hk].
    destruct (q_sound _ _ _ _ _ _ _ Hq _ _ Hk) as (op & ? & ? & ? & ? & ?). eauto 10.
  - intros op Hop Hp Hwait. destruct (q_complete _ _ _ _ _ _ _ Hq op Hop Hp Hwait) as [Hk|Hk].
    + by apply elem_of_nil in Hk.
    + rewrite elem_of_sorted_by. rewrite Hperm, fmap_app, elem_of_app in Hk. tauto.
  - simpl. by rewrite sorted_by_perm.
  - split; [rewrite sorted_by_perm; by apply NoDup_app in Hnd as (_ & _ & ?)|].
    split; [|split; [|split; [done|split; [done|split; [done|split; [done|]]]]]].
    + intros op Hop Hk. rewrite elem_of_sorted_by in Hk.
      apply list_elem_of_fmap in Hk as ([t k'] & E & Hk). simpl in E. subst k'.
      apply list_elem_of_filter in Hk as [Hle%Is_true_true Hk]. simpl in Hle.
      destruct (q_sound _ _ _ _ _ _ _ Hq _ _ Hk) as (op' & Hop' & Hid & Hp & -> & Hwait).
      pose proof (op_unique operations Hids _ _ Hop' Hop Hid) as ->. apply mpq_le in Hle.
      split; [done|]. split.
      * intros d Hd. destruct (r_ends st !! d) as [e|] eqn:Ee.
        { exists e. split; [done|]. by apply (w_past _ _ _ _ _ _ _ Hw) in Ee. }
        assert (Hin : d ∈ waiting (r_ends st) op) by by apply elem_of_waiting.
        rewrite Hwait in Hin. by apply elem_of_nil in Hin.
      * destruct (Hf _ _ Hk) as [Hge|(op2 & d & Hop2 & Hid2 & Hd & He)].
        { left. apply mpq_eq. by apply Qle_antisym. }
        right. exists d. by rewrite (op_unique operations Hids op2 op) in Hd by done.
    + simpl. intros t k [Hlt _]%list_elem_of_filter. simpl in Hlt.
      apply mpq_nle. by destruct (pleb t (r_now st)).
    + intros E. assert (Hdue : due = []).
      { apply (f_equal length) in E. rewrite length_sorted_by, length_fmap in E.
        by apply nil_length_inv in E. }
      unfold rest. rewrite list_filter_all; [by destruct st|].
      apply Forall_forall. intros entry Hin Hle.
      assert (Hd : entry ∈ due) by by apply list_elem_of_filter.
      rewrite Hdue in Hd. by apply elem_of_nil in Hd.
Qed.

(** ** Launches *)

Lemma pending_idle xs todo fin st key : core todo fin xs st → key ∈ r_pending st →
  r_starts st !! key = None ∧ r_startup st !! key = None ∧ key ∉ r_active st ∧
  r_ends st !! key = None ∧ key ∈ available.
Proof.
  intros [Hq Hw] Hk. pose proof (w_pending _ _ _ _ _ _ _ Hw _ Hk) as Hs.
  pose proof (proj2 (w_started _ _ _ _ _ _ _ Hw key)) as Hns. rewrite Hs in Hns.
  assert (Hno : ¬ (is_Some (r_startup st !! key) ∨ key ∈ r_active st ∨ is_Some (r_ends st !! key))).
  { intros Hc. by destruct (Hns Hc). }
  split; [done|]. split; [|split; [tauto|split]].
  - apply eq_None_not_Some. tauto.
  - apply eq_None_not_Some. tauto.
  - by apply (q_pending _ _ _ _ _ _ _ Hq).
Qed.

Lemma queue_launch key todo pending releases degrees ends :
  queue_ok (key :: todo) pending releases degrees ends →
  queue_ok todo (pending ∖ {[key]}) releases degrees ends.
Proof.
  intros Hq. assert (Hnd : NoDup (key :: (releases.*2 ++ todo))).
  { rewrite Permutation_middle. apply Hq. }
  apply NoDup_cons in Hnd as [Hk Hnd]. rewrite not_elem_of_app in Hk. split; [..|done].
  - pose proof (q_pending _ _ _ _ _ _ _ Hq). set_solver.
  - intros op Hop Hp. apply Hq; [done|set_solver].
  - intros t k Hin. destruct (q_sound _ _ _ _ _ _ _ Hq _ _ Hin) as (op & Hop & Hid & Hp & Ht & Hw).
    exists op. repeat split; try done. apply elem_of_difference. split; [done|].
    intros ->%elem_of_singleton. apply (proj1 Hk). apply list_elem_of_fmap. by exists (t, key).
  - intros k Hin. destruct (q_todo _ _ _ _ _ _ _ Hq k) as (Hp & Hop); [by right|].
    split; [|done]. apply elem_of_difference. split; [done|]. intros E%elem_of_singleton. subst. tauto.
  - intros op Hop Hp Hw. destruct (q_complete _ _ _ _ _ _ _ Hq op Hop ltac:(set_solver) Hw) as [Hc|Hc]; [|by right].
    apply elem_of_cons in Hc as [Hc|Hc]; [set_solver|by left].
Qed.

(** The segments of an operation that has not started. *)
Lemma idle_segments fin xs st key : work_ok fin xs st → r_starts st !! key = None →
  segments_of key xs = [].
Proof.
  intros Hw Hs. unfold segments_of. apply list_filter_none. intros s Hin E.
  destruct (w_times _ _ _ _ _ _ _ Hw _ Hin) as [[t Ht] _]. congruence.
Qed.

(** A data operation starts: it leaves [pending] for [startup]. *)
Lemma work_launch xs st st' key op alpha :
  work_ok [] xs st → op ∈ operations → wo_operation_id op = key → wo_kind op ≠ KNop →
  key ∈ available → r_starts st !! key = None → r_startup st !! key = None →
  key ∉ r_active st → r_ends st !! key = None →
  launched (r_ends st) op (r_now st) → launch_alpha model costs op alpha →
  r_pending st' = r_pending st ∖ {[key]} → r_active st' = r_active st →
  r_ends st' = r_ends st → r_segments st' = r_segments st → r_now st' = r_now st →
  r_starts st' = <[key := r_now st]> (r_starts st) →
  r_startup st' = <[key := (r_now st + _exact_number alpha)%mpq]> (r_startup st) →
  r_remaining st' = <[key := mpq_int (wo_payload_bytes op)]> (r_remaining st) →
  work_ok [] xs st'.
Proof.
  intros Hw Hop Hid Hkind Hav Hst Hsu Hac He Hl Ha Epend Eact Eends Eseg Enow Estarts Esu Erem.
  pose proof (idle_segments _ _ _ _ Hw Hst) as Hseg.
  assert (Hbegun : ∀ op' b, op' ∈ operations → wo_operation_id op' ≠ key →
    begun model costs (r_starts st) op' b → begun model costs (r_starts st') op' b).
  { intros op' b _ Hk (s' & al & Hs & ?). exists s', al. by rewrite Estarts, lookup_insert_ne. }
  split; rewrite ?Epend, ?Eact, ?Eends, ?Eseg, ?Enow; try apply Hw.
  - intros k Hk. rewrite Esu. destruct (decide (k = key)) as [->|Hkk].
    { right; left. rewrite lookup_insert_eq. eauto. }
    rewrite lookup_insert_ne by done. destruct (w_cover _ _ _ _ _ _ _ Hw _ Hk); set_solver.
  - intros k. rewrite Esu, Estarts. destruct (decide (k = key)) as [->|Hkk].
    + rewrite !lookup_insert_eq. split; eauto.
    + rewrite !lookup_insert_ne by done. apply Hw.
  - intros k Hk. rewrite Estarts, lookup_insert_ne by set_solver.
    apply (w_pending _ _ _ _ _ _ _ Hw). set_solver.
  - intros k. rewrite Esu. destruct (decide (k = key)) as [->|Hkk]; [done|].
    rewrite lookup_insert_ne by done. apply Hw.
  - intros k s. rewrite Estarts. destruct (decide (k = key)) as [->|Hkk].
    + rewrite lookup_insert_eq. intros [= <-]. eauto.
    + rewrite lookup_insert_ne by done. apply Hw.
  - intros op' t Hop'. rewrite Esu, Erem. destruct (decide (wo_operation_id op' = key)) as [E|Hkk].
    + rewrite (op_unique operations Hids op' op) by (congruence || done). rewrite Hid.
      rewrite !lookup_insert_eq. intros [= <-]. split; [done|]. split; [|done].
      exists (r_now st), alpha. by rewrite Estarts, Hid, lookup_insert_eq.
    + rewrite !lookup_insert_ne by done. intros Ht.
      destruct (w_startup _ _ _ _ _ _ _ Hw _ _ Hop' Ht) as (? & ? & ? & ?). auto.
  - intros op' Hop' Hk. assert (Hkk : wo_operation_id op' ≠ key) by congruence.
    destruct (w_active _ _ _ _ _ _ _ Hw _ Hop' Hk) as (? & b & left & ? & ? & ? & ?).
    split; [done|]. exists b, left. rewrite Erem, lookup_insert_ne by done. auto.
  - intros op' e Hop' Hk. assert (Hkk : wo_operation_id op' ≠ key) by congruence.
    pose proof (w_ended _ _ _ _ _ _ _ Hw _ _ Hop' Hk) as Hf. unfold finished in *.
    case_decide; [by rewrite Estarts, lookup_insert_ne|].
    destruct Hf as (b & Hb & Hc). exists b. auto.
  - intros sg Hsg. destruct (w_times _ _ _ _ _ _ _ Hw _ Hsg) as [Hs Ht]. split; [|done].
    rewrite Estarts. destruct (decide (ps_operation_id sg = key)) as [->|].
    + rewrite lookup_insert_eq. eauto.
    + by rewrite lookup_insert_ne.
Qed.

(** The operations of a set of available keys. *)
Lemma find_ops_Ok (X : gset string) : X ⊆ available →
  ∃ ops, mapR (find_op operations) (sorted_keys X) = Ok ops ∧
    wo_operation_id <$> ops = sorted_keys X ∧ ∀ op, op ∈ ops → op ∈ operations.
Proof.
  intros HX. assert (Hall : ∀ k, k ∈ sorted_keys X → k ∈ available).
  { intros k. unfold sorted_keys. rewrite elem_of_sorted_by, elem_of_elements. set_solver. }
  revert Hall. induction (sorted_keys X) as [|k l IH]; intros Hall.
  { exists []. split; [done|]. split; [done|]. by intros op ?%elem_of_nil. }
  destruct (Hknown k) as (op & Hop & Hid); [apply Hall; by left|].
  destruct IH as (ops & Hm & He & Hin); [intros; apply Hall; by right|].
  exists (op :: ops). cbn [mapR]. rewrite <- Hid at 1. rewrite find_op_Ok by done.
  rewrite Hm. cbn [mbind res_bind]. split; [done|]. split; [by rewrite fmap_cons, Hid, He|].
  intros op' [->|?]%elem_of_cons; auto.
Qed.

(** Startup profiles price the flow of the operations they are given to. *)
Definition startup_profiles (profiles : gmap string RateProfile) : Prop :=
  ∀ op profile, op ∈ operations → profiles !! wo_operation_id op = Some profile →
    profile ∈ cm_profiles model ∧ is_Some (dict_get (op_flow op) (rp_startup_us profile)).

Lemma group_profiles_ok profiles group :
  (∀ op, op ∈ group → op ∈ operations) → startup_profiles profiles →
  outcome startup_profiles (group_profiles model profiles group).
Proof.
  intros Hg Hp. unfold group_profiles. eapply outcome_bind; [apply profile_cases|].
  intros [profile|] _ Ho; [|exact Hp]. destruct (Ho _ eq_refl) as [Hin _]. simpl.
  apply (foldl_prefix (λ _ d, startup_profiles d)); [done|].
  intros done op rest d E Hd. case_bool_decide as Hs; [|exact Hd].
  intros op' p' Hop'. destruct (decide (wo_operation_id op = wo_operation_id op')) as [Eid|Hne].
  - rewrite Eid, lookup_insert_eq. intros [= <-]. split; [done|].
    assert (Hop : op ∈ operations) by (apply Hg; rewrite E; set_solver).
    rewrite <- (op_unique operations Hids op op') by done.
    destruct (dict_get (op_flow op) (rp_startup_us profile)) eqn:Eg; [eauto|].
    by apply dict_get_None in Eg.
  - rewrite lookup_insert_ne by done. by apply Hd.
Qed.

Lemma launch_profiles_ok xs todo st :
  core todo [] xs st → outcome startup_profiles (launch_profiles operations model st todo).
Proof.
  intros [Hq Hw]. unfold launch_profiles. cbv zeta.
  destruct (find_ops_Ok (r_active st ∪ dom (r_startup st) ∪ list_to_set todo))
    as (ops & -> & _ & Hops).
  { intros k Hk. assert (Hcase : is_Some (r_starts st !! k) ∨ k ∈ todo).
    { rewrite (w_started _ _ _ _ _ _ _ Hw), <- elem_of_dom. set_solver. }
    destruct Hcase as [[s Hs]|Hk'].
    - by apply (w_known _ _ _ _ _ _ _ Hw) in Hs as [? _].
    - apply (q_pending _ _ _ _ _ _ _ Hq). by apply (q_todo _ _ _ _ _ _ _ Hq). }
  cbn [mbind res_bind].
  destruct (components_spec (filter (λ op, Is_true (is_communication (wo_kind op))) ops))
    as (groups & -> & Hc & _). cbn [mbind res_bind].
  apply (outcome_foldM (λ _, startup_profiles)).
  { intros op profile _ Hp. by rewrite lookup_empty in Hp. }
  intros done g rest d E Hd. apply group_profiles_ok; [|done].
  intros op Hop. apply Hops. assert (Hin : op ∈ concat groups).
  { apply elem_of_concat. exists g. split; [|done]. rewrite E. set_solver. }
  rewrite Hc in Hin. by apply list_elem_of_filter in Hin as [_ ?].
Qed.

(** What a launch leaves of the rest of the state: starts and completions now
    only add work that is due now or later. *)
Definition later (st : Replay) : Prop :=
  (∀ k t, r_startup st !! k = Some t → (mpq_value (r_now st) <= mpq_value t)%Q) ∧
  ∀ t k, (t, k) ∈ r_releases st → (mpq_value (r_now st) < mpq_value t)%Q ∨
    ∃ op d, op ∈ operations ∧ wo_operation_id op = k ∧ d ∈ wo_dependencies op ∧
      r_ends st !! d = Some (r_now st).

Lemma later_fresh st : later st → fresh st.
Proof.
  intros [Hs Hr]. split; [done|]. intros t k Hk. destruct (Hr _ _ Hk) as [?|?]; [|by right].
  left. by apply Qlt_le_weak.
Qed.

(** Releases by an operation that ends now keep the heap due. *)
Lemma complete_releases st key t k (P : Prop) :
  (t, k) ∈ r_releases st ++ (release_entry <$>
    filter (λ op, wo_operation_id op ∈ r_pending st ∧
      default 0 (r_degrees st !! wo_operation_id op) = 1) (work_successors operations key)) →
  ((t, k) ∈ r_releases st → P) →
  P ∨ ∃ op, op ∈ operations ∧ wo_operation_id op = k ∧ key ∈ wo_dependencies op.
Proof.
  intros [Hin|Hin]%elem_of_app HP; [left; auto|]. right.
  apply list_elem_of_fmap in Hin as (op & [= -> ->] & [_ [Hk Hop]%list_elem_of_filter]%list_elem_of_filter).
  eauto.
Qed.

(** A NOP starts and ends. *)
Lemma launch_nop todo xs st st1 key op :
  core (key :: todo) [] xs st → later st → op ∈ operations → wo_operation_id op = key →
  wo_kind op = KNop → launched (r_ends st) op (r_now st) →
  st1 = set_times (set_work st (r_pending st ∖ {[key]}) (r_startup st) (r_active st)
          [event (r_now st) "start" key]) (<[key := r_now st]> (r_starts st)) (r_ends st)
          (r_remaining st) (r_sources_used st) (r_used st) →
  let st' := complete operations st1 key (r_now st) in
  core todo [] xs st' ∧ later st' ∧ r_now st' = r_now st ∧ (weight st' < weight st)%nat ∧
  r_ends st' = <[key := r_now st]> (r_ends st).
Proof.
  intros Hc Hlat Hop Hid Hkind Hl ->. cbv zeta.
  assert (Hk : key ∈ r_pending st) by (apply (q_todo _ _ _ _ _ _ _ (proj1 Hc)); by left).
  destruct (pending_idle _ _ _ _ _ Hc Hk) as (Hs & Hsu & Ha & He & Hav). destruct Hc as [Hq Hw].
  match goal with |- context [complete _ ?s _ _] =>
    destruct (complete_fields operations Hids Hwork s key (r_now st)) as (deg & rel & evs & -> & -> & Hdeg) end.
  simpl in Hdeg. split; [split; simpl|].
  - apply (queue_complete operations available Hids Hwork); [by apply queue_launch|done|exact Hdeg].
  - eapply (work_complete operations model costs available Hids Hwork [] [] xs st _ key (r_now st) op);
      try done; simpl; [set_solver|].
    unfold finished. rewrite decide_True by done. simpl. rewrite Hid, lookup_insert_eq.
    split; [done|]. by eapply idle_segments.
  - split; [|split; [done|split; [|done]]].
    + split; simpl; [apply Hlat|]. intros t k Hin.
      destruct (complete_releases (set_work st (r_pending st ∖ {[key]}) (r_startup st) (r_active st) [])
        key t k _ Hin (proj2 Hlat t k)) as [[?|(op' & d & ? & ? & ? & ?)]|(op' & ? & ? & ?)].
      * by left.
      * right. exists op', d. rewrite lookup_insert_ne by congruence. done.
      * right. exists op', key. by rewrite lookup_insert_eq.
    + unfold weight; simpl. pose proof (size_drop _ _ Hk). lia.
Qed.

Lemma launch_step_ok profiles todo xs st key op :
  startup_profiles profiles → core (key :: todo) [] xs st → later st →
  op ∈ operations → wo_operation_id op = key → launched (r_ends st) op (r_now st) →
  outcome (λ st', core todo [] xs st' ∧ later st' ∧ r_now st' = r_now st ∧
      (weight st' < weight st)%nat ∧
      ∀ k e, r_ends st !! k = Some e → r_ends st' !! k = Some e)
    (launch_step operations costs profiles st key).
Proof.
  intros Hprof Hc Hlat Hop Hid Hl. unfold launch_step. cbv zeta.
  assert (Hk : key ∈ r_pending st) by (apply (q_todo _ _ _ _ _ _ _ (proj1 Hc)); by left).
  destruct (pending_idle _ _ _ _ _ Hc Hk) as (Hs & Hsu & Ha & He & Hav).
  rewrite <- Hid at 1. rewrite find_op_Ok by done. cbn [mbind res_bind].
  rewrite bool_decide_eq_false_2 by tauto. cbn [raise_when mbind res_bind].
  destruct (decide (wo_kind op = KNop)) as [Hkind|Hkind].
  { destruct (launch_nop todo xs st _ key op Hc Hlat Hop Hid Hkind Hl eq_refl)
      as (? & ? & ? & ? & Hends). simpl. split; [done|]. split; [done|]. split; [done|].
    split; [done|]. intros k e Hke. rewrite Hends, lookup_insert_ne; [done|]. congruence. }
  destruct Hc as [Hq Hw]. rewrite <- Hid in Hav.
  destruct (Hpriced op Hop Hav Hkind) as [(cost & Hcost & Hcv) _].
  rewrite <- Hid at 1. rewrite Hcost. cbn [of_option mbind res_bind].
  assert (Hla : outcome (λ r, launch_alpha model costs op r.1.1 ∧ 0 ≤ r.1.1)
    (launch_cost profiles op cost)).
  { unfold launch_cost. destruct (profiles !! wo_operation_id op) as [profile|] eqn:Ep; simpl.
    - destruct (Hprof _ _ Hop Ep) as [Hin [t Ht]]. rewrite Ht. simpl. split.
      + right. eauto.
      + by eapply pv_startup, Ht; apply Hmodel.
    - split; [left; eauto|apply Hcv]. }
  eapply outcome_bind; [exact Hla|]. intros [[alpha source] component] _ [Hal Hpos]. simpl in *.
  split; [split; simpl|].
  - by apply queue_launch.
  - eapply (work_launch xs st _ key op alpha); try done. by rewrite <- Hid.
  - split; [|split; [done|split; [|done]]].
    + split; simpl; [|apply Hlat]. intros k t. destruct (decide (k = key)) as [->|Hne].
      * rewrite lookup_insert_eq. intros [= <-]. rewrite mpq_value_add.
        pose proof (exact_number_nonneg _ Hpos). lra.
      * rewrite lookup_insert_ne by done. apply Hlat.
    + unfold weight; simpl. pose proof (size_drop _ _ Hk).
      rewrite map_size_insert_None by done. lia.
Qed.

Lemma launched_mono ends ends' op s :
  (∀ k e, ends !! k = Some e → ends' !! k = Some e) → launched ends op s → launched ends' op s.
Proof.
  intros Hm (Hn & Hd & Hl). split; [done|]. split.
  - intros d Hin. destruct (Hd _ Hin) as (e & ? & ?). eauto.
  - destruct Hl as [?|(d & ? & ?)]; [by left|right; eauto].
Qed.

Lemma launches_ok profiles ready xs st :
  startup_profiles profiles → core ready [] xs st → later st →
  (∀ op, op ∈ operations → wo_operation_id op ∈ ready → launched (r_ends st) op (r_now st)) →
  outcome (λ st', core [] [] xs st' ∧ later st' ∧ r_now st' = r_now st ∧
      (weight st' + length ready ≤ weight st)%nat)
    (foldM (launch_step operations costs profiles) st ready).
Proof.
  intros Hprof. revert st. induction ready as [|key todo IH]; intros st Hc Hlat Hl; simpl.
  { rewrite Nat.add_0_r. done. }
  destruct (q_todo _ _ _ _ _ _ _ (proj1 Hc) key) as (_ & op & Hop & Hid & _); [by left|].
  eapply outcome_bind.
  { apply (launch_step_ok profiles todo xs st key op); try done. apply Hl; [done|]. rewrite Hid. by left. }
  intros st1 _ (Hc1 & Hlat1 & Hn1 & Hw1 & Hm1).
  eapply outcome_mono; [|apply IH; [done|done|]].
  - intros st2 (? & ? & ? & ?). split; [done|]. split; [done|]. split; [congruence|lia].
  - intros op' Hop' Hin. rewrite Hn1. eapply launched_mono; [exact Hm1|]. apply Hl; [done|by right].
Qed.
End rounds.

(** * Time advances in the replay ([performance/simulation.py])

    The last phase of a round: the rates of the active operations until the
    next event, and the operations that finish there. *)

Section segments.
Context `{MpqLaws}.
Notation entry := (string * (mpq * mpq * string))%type.

(** The exact segment behind the one that [advance_step] records. *)
Definition entry_segment (now next : mpq) (e : entry) : ProgressSegment mpq :=
  {| ps_operation_id := e.1; ps_start_us := now; ps_end_us := next;
     ps_rate_bytes_per_us := e.2.1.2; ps_source := e.2.2 |}.

Lemma entry_segment_unique now next (es : list entry) (e : entry) :
  NoDup es.*1 → e ∈ es →
  segments_of e.1 (entry_segment now next <$> es) = [entry_segment now next e].
Proof.
  intros Hnd He. unfold segments_of. induction es as [|e' es IH]; [by apply elem_of_nil in He|].
  rewrite fmap_cons in Hnd. apply NoDup_cons in Hnd as [Hn Hnd]. rewrite fmap_cons.
  assert (Hrest : ∀ k, k ∉ es.*1 → filter (λ s, ps_operation_id s = k) (entry_segment now next <$> es) = []).
  { intros k Hk. apply list_filter_none. intros s (e2 & -> & He2)%list_elem_of_fmap E. simpl in E.
    apply Hk. rewrite <- E. by apply list_elem_of_fmap_2. }
  apply elem_of_cons in He as [->|He].
  - rewrite filter_cons_True by done. by rewrite Hrest.
  - rewrite filter_cons_False; [by apply IH|]. simpl. intros E. apply Hn. rewrite E.
    by apply list_elem_of_fmap_2.
Qed.

Lemma entry_segment_none now next (es : list entry) k :
  k ∉ es.*1 → segments_of k (entry_segment now next <$> es) = [].
Proof.
  intros Hk. apply list_filter_none. intros s (e2 & -> & He2)%list_elem_of_fmap E. simpl in E.
  apply Hk. rewrite <- E. by apply list_elem_of_fmap_2.
Qed.

Lemma segments_of_app k (xs ys : list (ProgressSegment mpq)) :
  segments_of k (xs ++ ys) = segments_of k xs ++ segments_of k ys.
Proof. unfold segments_of. by rewrite filter_app. Qed.

Lemma served_app k (xs ys : list (ProgressSegment mpq)) :
  (served k (xs ++ ys) == served k xs + served k ys)%Q.
Proof. unfold served. by rewrite segments_of_app, fmap_app, Qsum_app. Qed.

Lemma chain_snoc b l e s :
  chain b l e → ps_start_us s = e → chain b (l ++ [s]) (ps_end_us s).
Proof.
  revert b. induction l as [|s' l IH]; simpl; intros b.
  - intros -> Hs. done.
  - intros [Hb Hc] Hs. split; [done|]. by apply IH.
Qed.

Context (operations : list WorkOperation).

Lemma load_at_app r t (xs ys : list (ProgressSegment mpq)) :
  (load_at operations r t (xs ++ ys) == load_at operations r t xs + load_at operations r t ys)%Q.
Proof. unfold load_at. by rewrite filter_app, fmap_app, Qsum_app. Qed.

(** Outside of their times segments draw nothing. *)
Lemma load_at_none r t (xs : list (ProgressSegment mpq)) :
  (∀ s, s ∈ xs → (t < mpq_value (ps_start_us s) ∨ mpq_value (ps_end_us s) <= t)%Q) →
  load_at operations r t xs = 0%Q.
Proof.
  intros Hxs. unfold load_at. rewrite list_filter_none; [done|].
  intros s Hs Hd%Is_true_true. unfold draws in Hd. apply andb_true_iff in Hd as [Hd Hd2].
  apply andb_true_iff in Hd as [_ Hd1]. apply Qle_bool_iff in Hd1.
  destruct (Hxs _ Hs) as [Hlt|Hle]; [lra|]. apply Qle_bool_iff in Hle. by rewrite Hle in Hd2.
Qed.

(** During a batch of segments, what is drawn is the load of the rates. *)
Lemma load_at_batch r t now next rates (ops : list WorkOperation) (es : list entry) :
  (mpq_value now <= t)%Q → (t < mpq_value next)%Q →
  Forall2 (λ op (e : entry), op_of operations e.1 = Some op ∧ wo_operation_id op = e.1 ∧
    rates !! e.1 = Some e.2.1.2) ops es →
  (load_at operations r t (entry_segment now next <$> es) == load rates r ops)%Q.
Proof.
  intros Hle Hlt. unfold load_at, load.
  induction 1 as [|op e ops es (Hof & Hid & Hr) _ IH]; [done|]. rewrite fmap_cons.
  assert (Hd : draws operations r t (entry_segment now next e) = bool_decide (r ∈ wo_resources op)).
  { unfold draws. simpl. rewrite Hof, (proj2 (Qle_bool_iff _ _) Hle).
    destruct (Qle_bool (mpq_value next) t) eqn:E; [apply Qle_bool_iff in E; lra|].
    by rewrite !andb_true_r. }
  destruct (decide (r ∈ wo_resources op)) as [Hin|Hin].
  - rewrite filter_cons_True by (rewrite Hd; by apply Is_true_true, bool_decide_eq_true).
    rewrite filter_cons_True by done. rewrite !fmap_cons, !Qsum_cons, IH.
    assert (E : rate_of rates op = mpq_value e.2.1.2) by (unfold rate_of; by rewrite Hid, Hr).
    rewrite E. simpl. lra.
  - rewrite filter_cons_False by (rewrite Hd, bool_decide_eq_false_2 by done; tauto).
    by rewrite filter_cons_False.
Qed.
End segments.

Section advance.
Context `{MpqLaws} (operations : list WorkOperation) (model : CostModel)
  (costs : gmap string ServiceCost) (available : gset string).
Context (Hids : NoDup (wo_operation_id <$> operations))
  (Hwork : ∀ op, op ∈ operations → work_valid op) (Hmodel : model_valid model)
  (Hdeps : ∀ op d, op ∈ operations → wo_operation_id op ∈ available →
     d ∈ wo_dependencies op → d ∈ available)
  (Hknown : ∀ k, k ∈ available → ∃ op, op ∈ operations ∧ wo_operation_id op = k)
  (Hpriced : ∀ op, op ∈ operations → wo_operation_id op ∈ available → wo_kind op ≠ KNop →
     priced model costs op)
  (Hacyclic : ∃ order, order ≡ₚ wo_operation_id <$> operations ∧
     dependency_ordered (work_table operations) order).

Notation queue_ok := (queue_ok operations available).
Notation work_ok := (work_ok operations model costs available).
Notation core := (core operations model costs available).
Notation fresh := (fresh operations).
Notation head_ok := (head_ok operations model costs available).
Notation entry := (string * (mpq * mpq * string))%type.

(** ** Progress *)

(** With nothing in flight and an empty heap, no work is left: the first
    pending operation in a topological order would be in the heap. *)
Lemma nothing_stalled xs st :
  core [] [] xs st → r_startup st = ∅ → r_active st = ∅ → r_releases st = [] → r_pending st = ∅.
Proof.
  intros [Hq Hw] Hsu Hac Hrel. destruct (decide (r_pending st = ∅)) as [|Hne]; [done|].
  destruct Hacyclic as (order & Hperm & Hord). exfalso.
  assert (Hfirst : ∀ l2 l1, order = l1 ++ l2 → (∀ k, k ∈ l1 → k ∉ r_pending st) →
    ∀ k, k ∈ l2 → k ∉ r_pending st).
  { induction l2 as [|x l2 IH]; intros l1 E Hl1 k Hk; [by apply elem_of_nil in Hk|].
    assert (Hx : x ∉ r_pending st).
    { intros Hx. destruct (Hord _ _ _ E) as (d & Hd & Hsub).
      apply list_elem_of_fmap in Hd as (op & [= -> ->] & Hop).
      assert (Hwait : waiting (r_ends st) op = []).
      { apply list_filter_none. intros dep Hdep He.
        assert (Hav : dep ∈ available).
        { eapply Hdeps; [exact Hop| |exact Hdep]. by apply (q_pending _ _ _ _ _ _ _ Hq). }
        destruct (w_cover _ _ _ _ _ _ _ Hw _ Hav) as [Hp|[[t Ht]|[Ha|[e Ha]]]].
        - eapply Hl1; [|exact Hp]. set_solver.
        - by rewrite Hsu, lookup_empty in Ht.
        - rewrite Hac in Ha. set_solver.
        - congruence. }
      destruct (q_complete _ _ _ _ _ _ _ Hq op Hop Hx Hwait) as [Hc|Hc].
      - by apply elem_of_nil in Hc.
      - rewrite Hrel in Hc. by apply elem_of_nil in Hc. }
    apply elem_of_cons in Hk as [->|Hk]; [done|].
    apply (IH (l1 ++ [x])); [by rewrite <- app_assoc| |done].
    intros k' [?| ->%list_elem_of_singleton]%elem_of_app; auto. }
  apply Hne, set_eq. intros k. split; [|set_solver]. intros Hk. exfalso.
  apply (Hfirst order []) with k; [done|by intros ? ?%elem_of_nil| |done].
  rewrite Hperm. destruct (Hknown k) as (op & Hop & <-); [by apply (q_pending _ _ _ _ _ _ _ Hq)|].
  by apply list_elem_of_fmap_2.
Qed.

Lemma not_due st : due_now st = false →
  (∀ k t, r_startup st !! k = Some t → (mpq_value (r_now st) < mpq_value t)%Q) ∧
  (∀ t k, (t, k) ∈ r_releases st → (mpq_value (r_now st) < mpq_value t)%Q).
Proof.
  unfold due_now. intros [Hs Hr]%orb_false_iff. rewrite existsb_none in Hs. split.
  - intros k t Ht. apply mpq_nle, Hs. apply list_elem_of_fmap. exists (k, t). split; [done|].
    by apply elem_of_map_to_list.
  - intros t k Hin. unfold first_release in Hr. destruct (min_by id _) as [m|] eqn:E.
    + apply min_by_Some in E as [_ Hle]. apply mpq_nle in Hr.
      eapply Qlt_le_trans; [exact Hr|]. apply mpq_le, Hle. apply list_elem_of_fmap. by exists (t, k).
    + apply min_by_None, fmap_nil_inv in E. rewrite E in Hin. by apply elem_of_nil in Hin.
Qed.

Lemma due_startup st k : r_startup st !! k = Some (r_now st) → due_now st = true.
Proof.
  intros Hk. unfold due_now. apply orb_true_iff. left. apply existsb_exists.
  exists (r_now st). split; [|apply pleb_refl]. apply list_elem_of_In, list_elem_of_fmap.
  exists (k, r_now st). split; [done|]. by apply elem_of_map_to_list.
Qed.

Lemma due_release st k : (r_now st, k) ∈ r_releases st → due_now st = true.
Proof.
  intros Hk. unfold due_now. apply orb_true_iff. right. unfold first_release.
  destruct (min_by id _) as [m|] eqn:E.
  - apply min_by_Some in E as [_ Hle]. apply Hle. apply list_elem_of_fmap. by exists (r_now st, k).
  - apply min_by_None, fmap_nil_inv in E. rewrite E in Hk. by apply elem_of_nil in Hk.
Qed.

(** ** Finish times *)

(** An active operation with its rate and the time it would finish. *)
Definition entry_ok (st : Replay) (rates : Rates) (key : string) (e : entry) : Prop :=
  e.1 = key ∧ rt_rates rates !! key = Some e.2.1.2 ∧ (0 < mpq_value e.2.1.2)%Q ∧
  ∃ left, r_remaining st !! key = Some left ∧ (0 < mpq_value left)%Q ∧
    (mpq_value e.2.1.1 == mpq_value (r_now st) + mpq_value left / mpq_value e.2.1.2)%Q.

Lemma finish_time_ok xs st rates op :
  work_ok [] xs st → op ∈ operations → wo_operation_id op ∈ r_active st →
  (∃ v s, rt_rates rates !! wo_operation_id op = Some v ∧
    rt_sources rates !! wo_operation_id op = Some s ∧ (0 < mpq_value v)%Q) →
  outcome (entry_ok st rates (wo_operation_id op)) (finish_time st rates (wo_operation_id op)).
Proof.
  intros Hw Hop Hact (v & s & Hv & Hs & Hpos).
  destruct (w_active _ _ _ _ _ _ _ Hw _ Hop Hact) as (_ & b & left & _ & _ & Hr & _ & Hl).
  rewrite decide_False in Hl by apply not_elem_of_nil.
  unfold finish_time. rewrite Hr, Hv, Hs. cbn [of_option mbind res_bind].
  destruct (mpq_value_div left v) as (z & -> & Hz); [lra|].
  cbn [mbind res_bind outcome]. unfold entry_ok. cbn [fst snd].
  split; [done|]. split; [done|]. split; [done|]. exists left. split; [done|]. split; [done|].
  rewrite mpq_value_add, Hz. reflexivity.
Qed.

Lemma active_ops xs st : core [] [] xs st →
  ∃ ops, mapR (find_op operations) (sorted_keys (r_active st)) = Ok ops ∧
    wo_operation_id <$> ops = sorted_keys (r_active st) ∧
    (∀ op, op ∈ ops → op ∈ operations ∧ wo_operation_id op ∈ r_active st ∧ wo_kind op ≠ KNop ∧
      wo_operation_id op ∈ available).
Proof.
  intros [Hq Hw]. assert (Hsub : r_active st ⊆ available).
  { intros k Hk. destruct (proj2 (w_started _ _ _ _ _ _ _ Hw k)) as [s Hs]; [tauto|].
    by apply (w_known _ _ _ _ _ _ _ Hw) in Hs as [? _]. }
  destruct (find_ops_Ok operations model costs available Hids Hwork Hmodel Hdeps Hknown Hpriced
    Hacyclic (r_active st) Hsub)
    as (ops & Hm & He & Hops).
  exists ops. split; [done|]. split; [done|]. intros op Hop.
  assert (Hin : wo_operation_id op ∈ r_active st).
  { assert (Hk : wo_operation_id op ∈ wo_operation_id <$> ops) by by apply list_elem_of_fmap_2.
    rewrite He in Hk. unfold sorted_keys in Hk. by rewrite elem_of_sorted_by, elem_of_elements in Hk. }
  split; [auto|]. split; [done|]. split; [|auto].
  by destruct (w_active _ _ _ _ _ _ _ Hw op (Hops _ Hop) Hin) as [? _].
Qed.

Lemma sorted_keys_nodup X : NoDup (sorted_keys X).
Proof. unfold sorted_keys. rewrite sorted_by_perm. apply NoDup_elements. Qed.

Lemma elem_of_sorted_keys k X : k ∈ sorted_keys X ↔ k ∈ X.
Proof. unfold sorted_keys. by rewrite elem_of_sorted_by, elem_of_elements. Qed.

(** ** Segments *)

Lemma exact_float_outcome x : outcome (λ t, _exact_float x = Ok t) (_exact_float x).
Proof.
  unfold _exact_float, int_truediv. cbv zeta. destruct (mpq_ratio x) as [Hd _].
  rewrite (proj2 (Z.eqb_neq _ 0)) by lia. cbn [raise_when mbind res_bind].
  destruct (overflow_ticks <=? _); simpl; [constructor|done].
Qed.

Lemma mapR_app {A B} (f : A → res B) l l' k k' :
  mapR f l = Ok k → mapR f l' = Ok k' → mapR f (l ++ l') = Ok (k ++ k').
Proof. rewrite !mapR_Ok. apply Forall2_app. Qed.

(** What [advance_step] leaves alone. *)
Definition same_work (st st' : Replay) : Prop :=
  r_pending st' = r_pending st ∧ r_releases st' = r_releases st ∧ r_degrees st' = r_degrees st ∧
  r_startup st' = r_startup st ∧ r_active st' = r_active st ∧ r_starts st' = r_starts st ∧
  r_ends st' = r_ends st ∧ r_now st' = r_now st.

Definition remaining_after (now next : mpq) (e : entry) (left : mpq) : mpq :=
  mpq_max (mpq_int 0) (left - e.2.1.2 * (next - now))%mpq.

Record advanced (next : mpq) (xs : list (ProgressSegment mpq)) (st : Replay) (es : list entry)
    (st' : Replay) : Prop := {
  a_same : same_work st st';
  a_segments : mapR float_segment (xs ++ (entry_segment (r_now st) next <$> es)) = Ok (r_segments st');
  a_other : ∀ k, k ∉ es.*1 → r_remaining st' !! k = r_remaining st !! k;
  a_remaining : ∀ e left, e ∈ es → r_remaining st !! e.1 = Some left →
    r_remaining st' !! e.1 = Some (remaining_after (r_now st) next e left);
}.

Lemma advance_step_ok next xs st done e st' :
  e.1 ∉ done.*1 → is_Some (r_remaining st !! e.1) → advanced next xs st done st' →
  outcome (advanced next xs st (done ++ [e])) (advance_step next st' e).
Proof.
  intros Hne [left Hleft] [Hsame Hseg Hother Hrem]. destruct e as [key [[f rate] source]].
  unfold advance_step. destruct Hsame as (E1 & E2 & E3 & E4 & E5 & E6 & E7 & E8).
  eapply outcome_bind; [apply exact_float_outcome|]. intros start _ Hstart.
  eapply outcome_bind; [apply exact_float_outcome|]. intros stop _ Hstop.
  eapply outcome_bind; [apply exact_float_outcome|]. intros speed _ Hspeed.
  simpl in Hne, Hleft. rewrite (Hother _ Hne), Hleft. cbn [of_option mbind res_bind outcome].
  rewrite E8 in *. split; simpl.
  - done.
  - rewrite fmap_app, app_assoc. apply mapR_app; [done|].
    cbn [fmap list_fmap mapR]. unfold float_segment. simpl. rewrite Hstart, Hstop, Hspeed. done.
  - intros k. rewrite fmap_app, not_elem_of_app. intros [Hk Hkk]. simpl in Hkk.
    rewrite lookup_insert_ne by set_solver. by apply Hother.
  - intros e l He Hl. destruct (decide (e.1 = key)) as [Ek|Ek].
    + apply elem_of_app in He as [He| ->%list_elem_of_singleton].
      { exfalso. apply Hne. rewrite <- Ek. by apply list_elem_of_fmap_2. }
      simpl in *. rewrite Hl in Hleft. injection Hleft as ->. by rewrite lookup_insert_eq.
    + rewrite lookup_insert_ne by done. apply Hrem; [|done].
      apply elem_of_app in He as [He| ->%list_elem_of_singleton]; done.
Qed.

Lemma advance_fold_ok next xs st es :
  NoDup es.*1 → (∀ e, e ∈ es → is_Some (r_remaining st !! e.1)) →
  mapR float_segment xs = Ok (r_segments st) →
  outcome (advanced next xs st es) (foldM (advance_step next) st es).
Proof.
  intros Hnd Hrem Hseg. apply (outcome_foldM (λ done, advanced next xs st done)).
  - split; [done|by rewrite app_nil_r|done|]. by intros e left ?%elem_of_nil.
  - intros done e rest st' E Ha. apply advance_step_ok; [|apply Hrem; rewrite E; set_solver|done].
    rewrite E in Hnd. rewrite fmap_app, fmap_cons in Hnd. apply NoDup_app in Hnd as (_ & Hd & _).
    intros Hk. apply (Hd _ Hk). by left.
Qed.

(** ** The batch of segments until the next event *)

(** The keys that finish at the next event. *)
Definition finishing (next : mpq) (es : list entry) : list string :=
  (filter (λ e : entry, Is_true (mpq_eqb e.2.1.1 next)) es).*1.

Lemma elem_of_finishing next es k :
  k ∈ finishing next es ↔ ∃ e, e ∈ es ∧ e.1 = k ∧ e.2.1.1 = next.
Proof.
  unfold finishing. rewrite list_elem_of_fmap. split.
  - intros (e & -> & [He%Is_true_true%mpq_eqb_eq Hin]%list_elem_of_filter). eauto.
  - intros (e & Hin & <- & He). exists e. split; [done|]. apply list_elem_of_filter.
    split; [|done]. by apply Is_true_true, mpq_eqb_eq.
Qed.

Lemma mpq_max_zero x : (0 <= mpq_value x)%Q → (mpq_value (mpq_max (mpq_int 0) x) == mpq_value x)%Q.
Proof.
  intros Hx. destruct (mpq_value_max (mpq_int 0) x) as [[H1 H2] [E|E]]; rewrite E in *; [|reflexivity].
  rewrite mpq_value_int in *. change (inject_Z 0) with 0%Q in *. lra.
Qed.

Lemma remaining_after_value st rates key e next left :
  entry_ok st rates key e → r_remaining st !! key = Some left →
  (mpq_value next <= mpq_value e.2.1.1)%Q →
  (mpq_value (remaining_after (r_now st) next e left) ==
     mpq_value left - mpq_value e.2.1.2 * (mpq_value next - mpq_value (r_now st)))%Q ∧
  (e.2.1.1 = next → (mpq_value (remaining_after (r_now st) next e left) == 0)%Q) ∧
  (e.2.1.1 ≠ next → (0 < mpq_value (remaining_after (r_now st) next e left))%Q).
Proof.
  intros (_ & _ & Hr & left' & Hl' & Hpos & Hf) Hl Hle. rewrite Hl in Hl'. injection Hl' as <-.
  set (rate := mpq_value e.2.1.2) in *. set (f := mpq_value e.2.1.1) in *.
  set (n := mpq_value (r_now st)) in *.
  assert (Hleft : (mpq_value left == rate * (f - n))%Q).
  { rewrite Hf. field. lra. }
  assert (Hv : (mpq_value (left - e.2.1.2 * (next - r_now st))%mpq == rate * (f - mpq_value next))%Q).
  { rewrite mpq_value_sub, mpq_value_mul, mpq_value_sub, Hleft. fold rate n. ring. }
  assert (Hzero : (mpq_value (remaining_after (r_now st) next e left) == rate * (f - mpq_value next))%Q).
  { unfold remaining_after. rewrite mpq_max_zero; [done|]. rewrite Hv.
    apply Qmult_le_0_compat; lra. }
  split; [rewrite Hzero, Hleft; ring|]. split.
  - intros E. rewrite Hzero. unfold f. rewrite E. ring.
  - intros E. rewrite Hzero. assert (Hlt : (mpq_value next < f)%Q).
    { apply Qle_lteq in Hle as [?|Heq]; [done|]. by apply mpq_eq in Heq as ->. }
    apply Qmult_lt_0_compat; lra.
Qed.

(** All active operations move bytes at their rates until [next]. *)
Lemma work_advance xs st st1 rates ops es next :
  work_ok [] xs st → advanced next xs st es st1 →
  (∀ k, k ∈ r_active st → k ∈ es.*1) → NoDup es.*1 →
  Forall2 (λ op e, (op ∈ operations ∧ wo_operation_id op ∈ r_active st) ∧
    entry_ok st rates (wo_operation_id op) e) ops es →
  within model (rt_rates rates) ops →
  (mpq_value (r_now st) < mpq_value next)%Q →
  (∀ e, e ∈ es → (mpq_value next <= mpq_value e.2.1.1)%Q) →
  work_ok (finishing next es) (xs ++ (entry_segment (r_now st) next <$> es)) (set_now st1 next).
Proof.
  intros Hw [Hsame Hsegs Hother Hrem] Hcov Hnd Hes Hwithin Hlt Hnext.
  destruct Hsame as (E1 & E2 & E3 & E4 & E5 & E6 & E7 & E8).
  assert (Hkeys : ∀ e, e ∈ es → ∃ op, op ∈ operations ∧ wo_operation_id op = e.1 ∧
    e.1 ∈ r_active st ∧ entry_ok st rates e.1 e).
  { intros e He. destruct (Forall2_elem_r _ _ _ _ Hes He) as (op & _ & [? Ha] & Hok). pose proof (proj1 Hok) as Eid. rewrite <- Eid in *. eauto 10. }
  assert (Hinactive : ∀ k, k ∉ r_active st →
    segments_of k (xs ++ (entry_segment (r_now st) next <$> es)) = segments_of k xs).
  { intros k Hk. rewrite segments_of_app, entry_segment_none, app_nil_r; [done|].
    intros (e & -> & He)%list_elem_of_fmap. by destruct (Hkeys _ He) as (_ & _ & _ & Ha & _). }
  assert (Hserved : ∀ k, k ∉ r_active st →
    served k (xs ++ (entry_segment (r_now st) next <$> es)) = served k xs).
  { intros k Hk. unfold served. by rewrite Hinactive. }
  split; simpl; rewrite ?E1, ?E4, ?E5, ?E6, ?E7; try apply Hw.
  - intros k e He. apply (w_past _ _ _ _ _ _ _ Hw) in He. lra.
  - intros op t Hop Ht. destruct (w_startup _ _ _ _ _ _ _ Hw _ _ Hop Ht) as (? & ? & ? & Hr).
    destruct (w_apart _ _ _ _ _ _ _ Hw (wo_operation_id op)) as [Ha _]; [eauto|].
    rewrite Hinactive, Hother; [done| |done].
    intros (e & E & He)%list_elem_of_fmap. destruct (Hkeys _ He) as (_ & _ & _ & Ha' & _). congruence.
  - intros op Hop Ha. destruct (w_active _ _ _ _ _ _ _ Hw _ Hop Ha)
      as (Hk & b & left & Hb & Hc & Hl & Hs & _).
    split; [done|]. apply Hcov, list_elem_of_fmap in Ha as (e & E & He).
    destruct (Hkeys _ He) as (_ & _ & _ & _ & Hok). rewrite E in *.
    destruct (remaining_after_value st rates e.1 e next left Hok Hl (Hnext _ He)) as (Hv & Hz & Hp).
    exists b, (remaining_after (r_now st) next e left). split; [done|].
    rewrite segments_of_app, entry_segment_unique by done. split; [by apply (chain_snoc b _ (r_now st) (entry_segment (r_now st) next e))|].
    split; [by apply Hrem|]. split.
    + rewrite served_app. unfold served at 2. rewrite entry_segment_unique by done.
      unfold Qsum. simpl. rewrite Hv, <- Hs. ring.
    + case_decide as Hfin.
      * apply elem_of_finishing in Hfin as (e' & He' & Ee & Hf).
        apply Hz. by rewrite (NoDup_fmap_elem fst es e e' Hnd He He' (eq_sym Ee)).
      * apply Hp. intros Hf. apply Hfin, elem_of_finishing. eauto.
  - intros op e Hop He. pose proof (w_ended _ _ _ _ _ _ _ Hw _ _ Hop He) as Hfin.
    assert (Ha : wo_operation_id op ∉ r_active st).
    { intros Ha. apply (w_active_apart _ _ _ _ _ _ _ Hw) in Ha. congruence. }
    unfold finished in *. by rewrite Hinactive, Hserved.
  - exact Hsegs.
  - intros s [Hin|Hin]%elem_of_app.
    + destruct (w_times _ _ _ _ _ _ _ Hw _ Hin) as [Hst [Ht1 Ht2]]. split; [done|]. split; [done|]. lra.
    + apply list_elem_of_fmap in Hin as (e & -> & He). simpl.
      destruct (Hkeys _ He) as (_ & _ & _ & Ha & _). split; [|split; [done|apply Qle_refl]].
      apply (w_started _ _ _ _ _ _ _ Hw). tauto.
  - intros r t c Hc. rewrite load_at_app.
    destruct (Qlt_le_dec t (mpq_value (r_now st))) as [Ht|Ht].
    + rewrite (load_at_none operations r t (entry_segment _ _ <$> es)).
      * rewrite Qplus_0_r. by apply (w_capacity _ _ _ _ _ _ _ Hw).
      * intros s (e & -> & _)%list_elem_of_fmap. by left.
    + rewrite (load_at_none operations r t xs).
      2: { intros s Hs. right. destruct (w_times _ _ _ _ _ _ _ Hw _ Hs) as [_ [_ ?]]. lra. }
      rewrite Qplus_0_l. destruct (Qlt_le_dec t (mpq_value next)) as [Ht2|Ht2].
      * rewrite (load_at_batch operations r t (r_now st) next (rt_rates rates) ops es Ht Ht2);
          [by apply Hwithin|].
        eapply Forall2_impl; [exact Hes|]. intros op e [[Hop _] (Eid & Hr & _)].
        rewrite Eid. split; [|by rewrite <- Eid in Hr |- *]. by apply op_of_Some.
      * rewrite load_at_none; [by apply Qlt_le_weak; eapply capacity_of_pos|].
        intros s (e & -> & _)%list_elem_of_fmap. by right.
Qed.

(** ** Completions *)

Lemma finishing_cons next e es :
  finishing next (e :: es) = if mpq_eqb e.2.1.1 next then e.1 :: finishing next es else finishing next es.
Proof.
  unfold finishing. destruct (mpq_eqb e.2.1.1 next) eqn:E.
  - by rewrite filter_cons_True by by rewrite E.
  - rewrite filter_cons_False; [done|]. rewrite E. by intros [].
Qed.

Lemma finishing_app next es es' : finishing next (es ++ es') = finishing next es ++ finishing next es'.
Proof. unfold finishing. by rewrite filter_app, fmap_app. Qed.

(** The state while the entries of [rest] remain to be looked at. *)
Record completing (xs : list (ProgressSegment mpq)) (next : mpq) (st : Replay) (done rest : list entry)
    (st' : Replay) : Prop := {
  cp_core : core [] (finishing next rest) xs st';
  cp_now : r_now st' = next;
  cp_startup : r_startup st' = r_startup st;
  cp_active : ∀ k, k ∈ finishing next rest → k ∈ r_active st';
  cp_later : ∀ t k, (t, k) ∈ r_releases st' → (mpq_value next <= mpq_value t)%Q ∨
    ∃ op d, op ∈ operations ∧ wo_operation_id op = k ∧ d ∈ wo_dependencies op ∧
      r_ends st' !! d = Some next;
  cp_releases : ∀ entry, entry ∈ r_releases st → entry ∈ r_releases st';
  cp_weight : (weight st' + length (finishing next done) = weight st)%nat;
}.

Lemma finish_step_ok xs next st done e rest st' :
  e.1 ∉ rest.*1 → completing xs next st done (e :: rest) st' →
  completing xs next st (done ++ [e]) rest (finish_step operations st' e).
Proof.
  intros Hne [[Hq Hw] Hn Hsu Hact Hlat Hrel Hwt]. destruct e as [key [[f rate] source]].
  rewrite finishing_cons in *. unfold finish_step. simpl in *. rewrite Hn.
  destruct (mpq_eqb f next) eqn:Ef; last first.
  { split; try done. rewrite finishing_app, finishing_cons. simpl. rewrite Ef. simpl.
    by rewrite app_nil_r. }
  assert (Ha : key ∈ r_active st') by (apply Hact; by left).
  assert (Hend : r_ends st' !! key = None) by by apply (w_active_apart _ _ _ _ _ _ _ Hw).
  destruct (proj2 (w_started _ _ _ _ _ _ _ Hw key)) as [s Hs]; [tauto|].
  destruct (w_known _ _ _ _ _ _ _ Hw _ _ Hs) as (Hav & op & Hop & Hid & Hl).
  assert (Hsup : r_startup st' !! key = None).
  { apply eq_None_not_Some. intros Hc. by destruct (w_apart _ _ _ _ _ _ _ Hw _ Hc). }
  assert (Hpend : key ∉ r_pending st').
  { intros Hc. apply (w_pending _ _ _ _ _ _ _ Hw) in Hc. congruence. }
  match goal with |- context [complete _ ?s _ _] =>
    destruct (complete_fields operations Hids Hwork s key next) as (deg & rel & evs & -> & -> & Hdeg) end.
  simpl in Hdeg. split; simpl.
  - split; simpl; [by apply (queue_complete operations available Hids Hwork)|].
    eapply (work_complete operations model costs available Hids Hwork (key :: finishing next rest)
      (finishing next rest) xs st' _ key s op); try done; simpl.
    + apply set_eq. set_solver.
    + by rewrite Hn.
    + by rewrite insert_id.
    + rewrite <- Hid in Ha. destruct (w_active _ _ _ _ _ _ _ Hw _ Hop Ha)
        as (Hk & b & left & Hb & Hc & _ & Hsv & Hz).
      unfold finished. rewrite decide_False by done. exists b. split; [done|]. split; [done|].
      rewrite Hid, decide_True in Hz by by left. rewrite <- Hsv, Hz, Hid. ring.
    + intros k Hk. rewrite elem_of_cons. set_solver.
  - done.
  - done.
  - intros k Hk. assert (k ≠ key).
    { intros ->. apply elem_of_finishing in Hk as (e & He & Ee & _). apply Hne.
      rewrite <- Ee. by apply list_elem_of_fmap_2. }
    assert (k ∈ r_active st') by (apply Hact; by right). set_solver.
  - intros t k Hin.
    destruct (complete_releases operations st' key t k _ Hin (Hlat t k)) as [[?|(op' & d & ? & ? & ? & ?)]|(op' & ? & ? & ?)].
    + by left.
    + right. exists op', d. rewrite lookup_insert_ne by congruence. done.
    + right. exists op', key. by rewrite lookup_insert_eq.
  - intros x Hx. apply elem_of_app. left. by apply Hrel.
  - rewrite finishing_app, finishing_cons. simpl. rewrite Ef, length_app. simpl.
    unfold weight in *; simpl. pose proof (size_drop _ _ Ha). lia.
Qed.

Lemma finish_fold_ok xs next st es :
  NoDup es.*1 → completing xs next st [] es st →
  completing xs next st es [] (foldl (finish_step operations) st es).
Proof.
  intros Hnd H1. assert (HI : ∀ rest, es = es ++ rest →
    completing xs next st es rest (foldl (finish_step operations) st es)).
  { apply (foldl_prefix (λ done st', ∀ rest, es = done ++ rest → completing xs next st done rest st')).
    - intros rest E. simpl in E. by rewrite <- E.
    - intros done e rest st' E HI rest' E'. assert (rest' = rest).
      { rewrite E, <- app_assoc in E'. simpl in E'. apply app_inv_head in E'. by injection E'. }
      subst rest'. apply finish_step_ok; [|by apply HI].
      rewrite E, fmap_app, fmap_cons in Hnd. apply NoDup_app in Hnd as (_ & _ & Hnd).
      by apply NoDup_cons in Hnd as [? _]. }
  apply HI. by rewrite app_nil_r.
Qed.

(** ** The last phase of a round *)

Lemma Forall2_strengthen {A B} (P : A → B → Prop) (R : A → Prop) l k :
  (∀ x, x ∈ l → R x) → Forall2 P l k → Forall2 (λ x y, R x ∧ P x y) l k.
Proof.
  intros Hl H1. induction H1 as [|x y l k Hxy _ IH]; constructor.
  - split; [apply Hl; by left|done].
  - apply IH. intros z Hz. apply Hl. by right.
Qed.

Lemma core_rates xs st rates : core [] [] xs st → core [] [] xs (set_rates st rates).
Proof. intros [Hq Hw]. split; [exact Hq|]. split; apply Hw. Qed.

(** The entries of the active operations, and their rates. *)
Lemma entries_ok xs st :
  core [] [] xs st → outcome (λ '(st1, es), ∃ ops rates, st1 = set_rates st rates ∧
      es.*1 = sorted_keys (r_active st) ∧ within model (rt_rates rates) ops ∧
      Forall2 (λ op e, (op ∈ operations ∧ wo_operation_id op ∈ r_active st1) ∧
        entry_ok st1 rates (wo_operation_id op) e) ops es)
    (ops ← mapR (find_op operations) (sorted_keys (r_active st));
     rates ← _rates ops costs model (r_used st) (r_unmeasured st);
     finish_times ← mapR (finish_time (set_rates st rates) rates) (sorted_keys (r_active st));
     Ok (set_rates st rates, finish_times)).
Proof.
  intros Hc. destruct (active_ops xs st Hc) as (ops & -> & Hkeys & Hops). cbn [mbind res_bind].
  eapply outcome_bind.
  { apply (rates_spec model costs Hmodel).
    - rewrite Hkeys. apply sorted_keys_nodup.
    - intros op Hop. destruct (Hops _ Hop) as (? & ? & ? & ?). by apply Hpriced.
    - intros op Hop. apply (wv_local _ (Hwork _ (proj1 (Hops _ Hop)))). }
  intros rates _ [Hrates Hwithin]. rewrite <- Hkeys. eapply outcome_bind.
  { apply (outcome_mapR (λ k e, entry_ok (set_rates st rates) rates k e)).
    intros k (op & -> & Hop)%list_elem_of_fmap. destruct (Hops _ Hop) as (? & ? & ? & ?).
    eapply finish_time_ok; [by apply core_rates|done|done|by apply Hrates]. }
  intros es _ Hes. simpl. rewrite Forall2_fmap_l in Hes. exists ops, rates. split; [done|].
  split; [|split; [done|]].
  - clear -Hes. induction Hes as [|op e l es [Hid _] _ IH]; [done|]. rewrite !fmap_cons.
    by rewrite IH, Hid.
  - apply Forall2_strengthen; [|exact Hes]. intros op Hop. simpl. destruct (Hops _ Hop) as (? & ? & ? & ?).
    done.
Qed.

(** The times of the next events. *)
Definition event_times (st : Replay) (es : list entry) : list mpq :=
  ((λ e : entry, e.2.1.1) <$> es) ++ (map_to_list (r_startup st)).*2 ++ option_list (first_release st).

Lemma elem_of_event_times st es t : t ∈ event_times st es ↔
  (∃ e, e ∈ es ∧ e.2.1.1 = t) ∨ (∃ k, r_startup st !! k = Some t) ∨ first_release st = Some t.
Proof.
  unfold event_times. rewrite !elem_of_app, !list_elem_of_fmap. split.
  - intros [(e & -> & He)|[([k t'] & -> & Hk)|Ht]]; [eauto|..].
    + apply elem_of_map_to_list in Hk. eauto.
    + right; right. destruct (first_release st); simpl in Ht; [|by apply elem_of_nil in Ht].
      by apply list_elem_of_singleton in Ht as ->.
  - intros [(e & He & <-)|[(k & Hk)|Ht]]; [eauto|..].
    + right; left. exists (k, t). split; [done|]. by apply elem_of_map_to_list.
    + right; right. rewrite Ht. by apply list_elem_of_singleton.
Qed.

Lemma first_release_le st t k m :
  first_release st = Some m → (t, k) ∈ r_releases st → (mpq_value m <= mpq_value t)%Q.
Proof.
  intros [_ Hle]%min_by_Some Hin. apply mpq_le, Hle. apply list_elem_of_fmap. by exists (t, k).
Qed.

Lemma first_release_in st m : first_release st = Some m → ∃ k, (m, k) ∈ r_releases st.
Proof.
  intros [Hin _]%min_by_Some. apply list_elem_of_fmap in Hin as ([t k] & -> & Hin). eauto.
Qed.

Lemma first_release_none st : first_release st = None → r_releases st = [].
Proof. intros E%min_by_None%fmap_nil_inv. done. Qed.

Lemma entry_later st rates key e :
  entry_ok st rates key e → (mpq_value (r_now st) < mpq_value e.2.1.1)%Q.
Proof.
  intros (_ & _ & Hr & left & _ & Hl & ->).
  assert (0 < mpq_value left / mpq_value e.2.1.2)%Q by (apply Qlt_shift_div_l; [done|lra]). lra.
Qed.

(** No event is at or before the current time. *)
Lemma event_times_later st rates (ops : list WorkOperation) es t :
  due_now st = false →
  Forall2 (λ op e, (op ∈ operations ∧ wo_operation_id op ∈ r_active st) ∧
    entry_ok st rates (wo_operation_id op) e) ops es →
  t ∈ event_times st es → (mpq_value (r_now st) < mpq_value t)%Q.
Proof.
  intros [Hsu Hrel]%not_due Hes [(e & He & <-)|[(k & Hk)|Ht]]%elem_of_event_times.
  - destruct (Forall2_elem_r _ _ _ _ Hes He) as (op & _ & _ & Hok). by eapply entry_later.
  - by eapply Hsu.
  - apply first_release_in in Ht as [k Hk]. by eapply Hrel.
Qed.

(** After the batch, before the completions. *)
Lemma completing_start xs st st1 rates ops es next :
  core [] [] xs st → advanced next xs st es st1 → es.*1 = sorted_keys (r_active st) →
  Forall2 (λ op e, (op ∈ operations ∧ wo_operation_id op ∈ r_active st) ∧
    entry_ok st rates (wo_operation_id op) e) ops es →
  within model (rt_rates rates) ops → (mpq_value (r_now st) < mpq_value next)%Q →
  (∀ t, t ∈ event_times st es → (mpq_value next <= mpq_value t)%Q) →
  completing (xs ++ (entry_segment (r_now st) next <$> es)) next (set_now st1 next) [] es
    (set_now st1 next).
Proof.
  intros [Hq Hw] Hadv Hkeys Hes Hwithin Hlt Hmin.
  assert (Hnd : NoDup es.*1) by (rewrite Hkeys; apply sorted_keys_nodup).
  pose proof (work_advance xs st st1 rates ops es next Hw Hadv) as Hwork'.
  destruct (a_same _ _ _ _ _ Hadv) as (E1 & E2 & E3 & E4 & E5 & E6 & E7 & E8).
  split; try done.
  - split; [simpl; rewrite E1, E2, E3, E7; exact Hq|]. apply Hwork'; try done.
    + intros k Hk. rewrite Hkeys. by apply elem_of_sorted_keys.
    + intros e He. apply Hmin, elem_of_event_times. eauto.
  - intros k (e & He & <- & _)%elem_of_finishing. simpl. rewrite E5. apply elem_of_sorted_keys.
    rewrite <- Hkeys. by apply list_elem_of_fmap_2.
  - simpl. rewrite E2. intros t k Hin. left.
    destruct (first_release st) as [m|] eqn:Em.
    + eapply Qle_trans; [|by eapply first_release_le]. apply Hmin, elem_of_event_times. tauto.
    + apply first_release_none in Em. rewrite Em in Hin. by apply elem_of_nil in Hin.
Qed.

(** After a round that continues, work ended or something is due. *)
Definition progressed (st st' : Replay) : Prop :=
  (weight st' < weight st)%nat ∨ (weight st' ≤ weight st)%nat ∧ due_now st' = true.

Lemma completions_ok xs st st1 rates ops es next :
  core [] [] xs st → advanced next xs st es st1 → es.*1 = sorted_keys (r_active st) →
  Forall2 (λ op e, (op ∈ operations ∧ wo_operation_id op ∈ r_active st) ∧
    entry_ok st rates (wo_operation_id op) e) ops es →
  within model (rt_rates rates) ops → (mpq_value (r_now st) < mpq_value next)%Q →
  next ∈ event_times st es → (∀ t, t ∈ event_times st es → (mpq_value next <= mpq_value t)%Q) →
  let st' := foldl (finish_step operations) (set_now st1 next) es in
  head_ok (xs ++ (entry_segment (r_now st) next <$> es)) st' ∧ progressed st st'.
Proof.
  intros Hc Hadv Hkeys Hes Hwithin Hlt Hin Hmin. cbv zeta.
  pose proof (completing_start _ _ _ _ _ _ _ Hc Hadv Hkeys Hes Hwithin Hlt Hmin) as Hcomp.
  assert (Hnd : NoDup es.*1) by (rewrite Hkeys; apply sorted_keys_nodup).
  apply finish_fold_ok in Hcomp; [|done]. destruct Hcomp as [Hcore Hnow Hsu _ Hlat Hrel Hwt].
  destruct (a_same _ _ _ _ _ Hadv) as (E1 & E2 & E3 & E4 & E5 & E6 & E7 & E8).
  set (st' := foldl _ _ _) in *.
  assert (Hweight : weight (set_now st1 next) = weight st) by (unfold weight; simpl; by rewrite E1, E4, E5).
  rewrite Hweight in Hwt. split.
  - split; [exact Hcore|]. split; rewrite Hnow.
    + intros k t. rewrite Hsu. simpl. rewrite E4. intros Hk. apply Hmin, elem_of_event_times. eauto.
    + intros t k Hk. destruct (Hlat _ _ Hk) as [?|(op & d & ? & ? & ? & ?)]; [by left|right; eauto 10].
  - apply elem_of_event_times in Hin as [(e & He & Ee)|[(k & Hk)|Hf]].
    + left. assert (Hfin : e.1 ∈ finishing next es) by (apply elem_of_finishing; eauto).
      destruct (finishing next es); [by apply elem_of_nil in Hfin|]. simpl in Hwt. lia.
    + right. split; [lia|]. apply (due_startup st' k). rewrite Hsu, Hnow. simpl. by rewrite E4.
    + right. split; [lia|]. apply first_release_in in Hf as [k Hk]. apply (due_release st' k).
      rewrite Hnow. apply Hrel. simpl. by rewrite E2.
Qed.

Lemma advance_ok xs st :
  core [] [] xs st → due_now st = false →
  outcome (λ '(again, st'), if again : bool
      then ∃ xs', head_ok xs' st' ∧ progressed st st'
      else core [] [] xs st' ∧ replay_done st' = true)
    (advance operations model costs st).
Proof.
  intros Hc Hdue. pose proof (entries_ok xs st Hc) as He.
  unfold advance.
  destruct (mapR (find_op operations) _) as [ops|e]; [|exact He]. cbn [mbind res_bind] in He |- *.
  destruct (_rates _ _ _ _ _) as [rates|e]; [|exact He]. cbn [mbind res_bind] in He |- *.
  cbv zeta. simpl (r_active (set_rates st rates)).
  destruct (mapR (finish_time _ _) _) as [es|e]; [|exact He]. cbn [mbind res_bind outcome] in He |- *.
  destruct He as (ops' & rates' & Est & Hkeys & Hwithin & Hes).
  pose proof (core_rates xs st rates Hc) as Hc'. set (st1 := set_rates st rates) in *.
  assert (Hdue1 : due_now st1 = false) by exact Hdue.
  fold (event_times st1 es). destruct (min_by id (event_times st1 es)) as [next|] eqn:Emin.
  - apply min_by_Some in Emin as [Hin Hmin].
    assert (Hlt : (mpq_value (r_now st1) < mpq_value next)%Q) by by eapply event_times_later.
    rewrite (proj2 (mpq_nle _ _) Hlt). cbn [raise_when mbind res_bind].
    assert (Hnd : NoDup es.*1) by (rewrite Hkeys; apply sorted_keys_nodup).
    eapply outcome_bind.
    { apply (advance_fold_ok next xs st1 es Hnd); [|apply Hc'].
      intros e (op & _ & _ & Hid & _ & _ & l & Hl & _)%(Forall2_elem_r _ _ _ _ Hes).
      rewrite Hid. eauto. }
    intros st2 _ Hadv. simpl. eexists. eapply (completions_ok xs st1 st2 rates' ops' es next); try done.
    intros t Ht. by apply mpq_le, Hmin.
  - apply min_by_None in Emin. unfold event_times in Emin.
    apply app_eq_nil in Emin as [E1 [E2 E3]%app_eq_nil].
    apply fmap_nil_inv in E1. subst es. apply fmap_nil_inv, map_to_list_empty_iff in E2.
    assert (Hact : r_active st1 = ∅).
    { apply set_eq. intros k. split; [|set_solver]. intros Hk%elem_of_sorted_keys.
      unfold st1 in Hk. simpl in Hk. rewrite <- Hkeys in Hk. by apply elem_of_nil in Hk. }
    assert (Hrel : r_releases st1 = []).
    { destruct (first_release st1) eqn:Ef; [done|]. by apply first_release_none in Ef. }
    pose proof (nothing_stalled xs st1 Hc' E2 Hact Hrel) as Hp. rewrite Hp. simpl. split; [done|].
    unfold replay_done. by rewrite Hp, E2, Hact.
Qed.
End advance.
