(* ===== verification/PredictionSound.v ===== *)
(** * The prediction is a fair execution of the model ([performance/simulation.py])

    [predict] ends on every executable that the constructors accept, and what
    it reports is the rounding of an exact timeline: operations start when their
    release and their dependencies allow, data moves at the rates of the
    segments until the payload is served, and no resource is exceeded. *)

From Stdlib Require Import QArith Qcanon Lqa.
From S2P Require Import Prelude.
From S2P Require Import Python.
From S2P Require Import Floats.
From S2P Require Import V5Program.
From S2P Require Import V5Order.
From S2P Require Import Mpq.
From S2P Require Import Performance.
From S2P Require Import Prediction.
From S2P Require Import PredictionRates.
From S2P Require Import PredictionReplay.
From S2P Require Import PredictionRounds.
Local Open Scope Z_scope.

(** ** The loop *)

Section loop.
Context `{MpqLaws} (operations : list WorkOperation) (model : CostModel)
  (costs : gmap string ServiceCost) (available : gset string).
Context (Hids : NoDup (wo_operation_id <$> operations))
  (Hwork : ∀ op, op ∈ operations → work_valid op) (Hmodel : model_valid model)
  (Hdeps : ∀ op d, op ∈ operations → wo_operation_id op ∈ available →
     d ∈ wo_dependencies op → d ∈ available)
  (Hknown : ∀ k, k ∈ available → ∃ op, op ∈ operations ∧ wo_operation_id op = k)
  (Hpriced : ∀ op, op ∈ operations → wo_operation_id op ∈ available → wo_kind op ≠ KNop →
     priced model costs op)
  (Hacyclic : ∃ order, order ≡ₚ wo_operation_id <$> operations ∧
     dependency_ordered (work_table operations) order).

Notation core := (core operations model costs available).
Notation head_ok := (head_ok operations model costs available).

(** Twice the work ahead, and one when the next event lies ahead. *)
Definition measure (st : Replay) : nat := 2 * weight st + (if due_now st then 0 else 1).

Lemma launched_round xs st :
  head_ok xs st →
  outcome (λ st', core [] [] xs st' ∧ fresh operations st' ∧
      ((weight st' < weight st)%nat ∨ st' = st ∧ due_now st' = false))
    (let '(ready, st) := due_releases (finish_startups st) in
     profiles ← launch_profiles operations model st ready;
     foldM (launch_step operations costs profiles) st ready).
Proof.
  intros Hst.
  destruct (finish_startups_ok operations model costs available Hids Hwork Hmodel Hdeps Hknown
    Hpriced Hacyclic xs st Hst) as (Hh1 & Hsu1 & Hr1 & Hn1 & Hm1).
  set (st1 := finish_startups st) in *.
  pose proof (due_releases_ok operations model costs available Hids xs st1 Hh1) as Hdue.
  destruct (due_releases st1) as [ready st2].
  destruct Hdue as (Hc2 & Hnd & Hl2 & Hlt2 & Hsu2 & Hn2 & He2 & Hw2 & Hnone).
  assert (Hlat : later operations st2).
  { split; rewrite Hn2; [intros k t; rewrite Hsu2|].
    - intros Hk%Hsu1. rewrite Hn1. by apply Qlt_le_weak.
    - intros t k Hk%Hlt2. by left. }
  eapply outcome_bind; [by eapply (launch_profiles_ok operations model costs available)|].
  intros profiles _ Hprof. destruct (decide (ready = [])) as [->|Hne].
  - specialize (Hnone eq_refl). subst st2. simpl. split; [done|]. split; [by apply later_fresh|].
    destruct Hm1 as [E|?]; [|by left]. right. split; [done|].
    unfold due_now. apply orb_false_iff. split.
    + apply existsb_none. intros t Ht. apply mpq_nle. rewrite Hn1.
      apply list_elem_of_fmap in Ht as ([k t'] & -> & Hk%elem_of_map_to_list). by eapply Hsu1.
    + destruct (first_release st1) as [m|] eqn:Ef; [|done]. apply mpq_nle.
      apply first_release_in in Ef as [k Hk]; by eapply Hlt2.
  - eapply outcome_mono; [|by apply (launches_ok operations model costs available Hids Hwork Hmodel
      Hdeps Hknown Hpriced Hacyclic profiles ready xs st2 Hprof Hc2 Hlat); rewrite Hn2, He2].
    intros st3 (? & ? & ? & Hw3). split; [done|]. split; [by apply later_fresh|]. left.
    assert (weight st1 ≤ weight st)%nat by (destruct Hm1 as [->|]; lia).
    assert (0 < length ready)%nat by (destruct ready; [done|simpl; lia]). lia.
Qed.

Lemma round_ok xs st :
  head_ok xs st →
  outcome (λ '(again, st'), if again : bool
      then ∃ xs', head_ok xs' st' ∧ (measure st' < measure st)%nat
      else core [] [] xs st' ∧ replay_done st' = true)
    (replay_round operations model costs st).
Proof.
  intros Hst. pose proof (launched_round xs st Hst) as Hl. unfold replay_round.
  destruct (due_releases (finish_startups st)) as [ready st2].
  destruct (launch_profiles operations model st2 ready) as [profiles|e]; [|exact Hl].
  cbn [mbind res_bind] in *.
  destruct (foldM (launch_step operations costs profiles) st2 ready) as [st3|e]; [|exact Hl].
  cbn [mbind res_bind outcome] in *. destruct Hl as (Hc & Hf & Hw).
  destruct (due_now st3) eqn:Hdue.
  - simpl. exists xs. split; [by split|]. destruct Hw as [Hw|[_ ?]]; [|done].
    unfold measure. rewrite Hdue. destruct (due_now st); lia.
  - eapply outcome_mono; [|apply (advance_ok operations model costs available Hids Hwork Hmodel Hdeps
      Hknown Hpriced Hacyclic xs st3 Hc Hdue)].
    intros [[] st4]; [|done]. intros (xs' & Hh & Hp). exists xs'. split; [done|].
    unfold measure. destruct Hw as [Hw|[-> _]].
    + assert (weight st4 ≤ weight st3)%nat by (destruct Hp as [|[]]; lia).
      destruct (due_now st4), (due_now st); lia.
    + rewrite Hdue. destruct Hp as [|[? ->]]; [destruct (due_now st4)|]; lia.
Qed.

Lemma replay_ok fuel xs st :
  head_ok xs st → (measure st < fuel)%nat →
  outcome (λ st', ∃ xs', core [] [] xs' st' ∧ replay_done st' = true)
    (replay operations model costs fuel st).
Proof.
  revert xs st. induction fuel as [|fuel IH]; intros xs st Hst Hf; [lia|]. simpl.
  destruct (replay_done st) eqn:Hd; [exists xs; split; [apply Hst|done]|].
  eapply outcome_bind; [by apply round_ok|]. intros [[] st'] _ Hr.
  - destruct Hr as (xs' & Hh & Hm). apply (IH xs'); [done|lia].
  - eexists. exact Hr.
Qed.
End loop.

(** ** The state before the loop *)

Section start.
Context `{MpqLaws} (operations : list WorkOperation) (model : CostModel)
  (costs : gmap string ServiceCost) (unavailable : gset string).
Context (Hids : NoDup (wo_operation_id <$> operations))
  (Hwork : ∀ op, op ∈ operations → work_valid op) (Hmodel : model_valid model).

Definition available : gset string := list_to_set (wo_operation_id <$> operations) ∖ unavailable.

Lemma waiting_start op : waiting ∅ op = wo_dependencies op.
Proof. unfold waiting. apply list_filter_all, Forall_forall. intros d _. apply lookup_empty. Qed.

Lemma start_queue : queue_ok operations available [] available
  (r_releases (replay_start operations (degree_map operations) unavailable)) (degree_map operations) ∅.
Proof.
  simpl. fold available. split; [done|..].
  - intros op Hop _. by rewrite degree_map_lookup, waiting_start.
  - intros t k (op & [= -> ->] & [[Hk Hd] Hop]%list_elem_of_filter)%list_elem_of_fmap.
    exists op. rewrite waiting_start. repeat split; try done.
    rewrite degree_map_lookup in Hd by done. injection Hd as Hd. apply length_zero_iff_nil. lia.
  - by intros k ?%elem_of_nil.
  - intros op Hop Hp Hw. right. rewrite <- list_fmap_compose. simpl.
    apply list_elem_of_fmap. exists op. split; [done|]. apply list_elem_of_filter.
    split; [|done]. split; [done|]. rewrite waiting_start in Hw.
    by rewrite degree_map_lookup, Hw.
  - rewrite app_nil_r, <- list_fmap_compose. eapply sublist_NoDup; [exact Hids|].
    apply (fmap_sublist wo_operation_id), sublist_filter.
Qed.

Lemma start_ok : head_ok operations model costs available []
  (replay_start operations (degree_map operations) unavailable).
Proof.
  split; [split; [exact start_queue|split]|split]; simpl.
  - intros k Hk. by left.
  - intros k. rewrite lookup_empty. split; [by intros [? ?]|].
    intros [[? Hk]|[Hk|[? Hk]]]; [done|set_solver|done].
  - done.
  - intros k [t Ht]. by rewrite lookup_empty in Ht.
  - intros k Hk. set_solver.
  - intros k s Hk. by rewrite lookup_empty in Hk.
  - intros k e Hk. by rewrite lookup_empty in Hk.
  - intros op t _ Hk. by rewrite lookup_empty in Hk.
  - intros op _ Hk. set_solver.
  - intros op e _ Hk. by rewrite lookup_empty in Hk.
  - done.
  - by intros s ?%elem_of_nil.
  - intros r t c Hc. unfold load_at. simpl. apply Qlt_le_weak. by eapply capacity_of_pos.
  - intros k t Hk. by rewrite lookup_empty in Hk.
  - intros t k (op & [= -> ->] & [_ Hop]%list_elem_of_filter)%list_elem_of_fmap. left.
    rewrite mpq_value_int. apply exact_number_nonneg. by apply Hwork.
Qed.

Lemma start_measure :
  (measure (replay_start operations (degree_map operations) unavailable) < replay_fuel operations)%nat.
Proof.
  assert (Hs : (size available ≤ length operations)%nat).
  { etrans; [apply subseteq_size; unfold available; apply subseteq_difference_l; reflexivity|].
    by rewrite size_list_to_set, length_fmap. }
  unfold measure, weight, replay_fuel. cbn [replay_start r_pending r_startup r_active]. fold available. rewrite ?map_size_empty, ?size_empty.
  destruct (due_now _); lia.
Qed.
End start.

(** ** Timelines and reports *)

Section report.
Context `{MpqLaws}.
Notation segment := (ProgressSegment mpq).

(** An exact execution of the operations that the model can price. *)
Record timeline (operations : list WorkOperation) (model : CostModel)
    (costs : gmap string ServiceCost) (unavailable : gset string)
    (starts ends : gmap string mpq) (xs : list segment) : Prop := {
  tl_blocked : ∀ k, k ∈ unavailable ↔ blocked operations model k;
  tl_unavailable : ∀ k, k ∈ unavailable → starts !! k = None ∧ ends !! k = None;
  tl_work : ∀ op, op ∈ operations → wo_operation_id op ∉ unavailable →
    ∃ s e, starts !! wo_operation_id op = Some s ∧ ends !! wo_operation_id op = Some e ∧
      launched ends op s ∧ finished model costs starts xs op e;
  tl_segments : ∀ s, s ∈ xs → is_Some (starts !! ps_operation_id s) ∧
    (mpq_value (ps_start_us s) < mpq_value (ps_end_us s))%Q;
  tl_capacity : ∀ r t c, capacity_of model r = Some c → (load_at operations r t xs <= c)%Q;
}.

(** The time of the last end. *)
Definition last_end (ends : gmap string mpq) (t : mpq) : Prop :=
  (∀ k e, ends !! k = Some e → (mpq_value e <= mpq_value t)%Q) ∧
  ((ends = ∅ ∧ t = mpq_int 0) ∨ ∃ k, ends !! k = Some t).

(** The prediction rounds the timeline to doubles. *)
Record reports (unavailable : gset string) (starts ends : gmap string mpq) (xs : list segment)
    (p : Prediction) : Prop := {
  rep_starts : ∀ k t, starts !! k = Some t →
    ∃ v, pd_start_times p !! k = Some v ∧ _exact_float t = Ok v;
  rep_ends : ∀ k t, ends !! k = Some t →
    ∃ v, pd_end_times p !! k = Some v ∧ _exact_float t = Ok v;
  rep_segments : mapR float_segment xs = Ok (pd_segments p);
  rep_unavailable : ∀ k, k ∈ pd_unavailable_operations p ↔ k ∈ unavailable;
  rep_coverage : is_Some (pd_t_pred_us p) ↔ unavailable = ∅;
  rep_total : unavailable = ∅ → ∃ t, last_end ends t ∧
    pd_exact_completion_ratio p = Some (numerator t, denominator t);
}.

Lemma latest_spec (l : list mpq) :
  (∀ x, x ∈ l → (mpq_value x <= mpq_value (latest l))%Q) ∧
  ((l = [] ∧ latest l = mpq_int 0) ∨ latest l ∈ l).
Proof.
  destruct l as [|x l]; [split; [by intros x ?%elem_of_nil|by left]|]. cbn [latest].
  assert (Hg : ∀ a, (mpq_value a <= mpq_value (foldl mpq_max a l))%Q ∧
    (∀ x, x ∈ l → (mpq_value x <= mpq_value (foldl mpq_max a l))%Q) ∧ foldl mpq_max a l ∈ a :: l).
  { induction l as [|y l IH]; intros a; cbn [foldl].
    { split; [apply Qle_refl|]. split; [by intros z ?%elem_of_nil|by left]. }
    destruct (IH (mpq_max a y)) as (H1 & H2 & H3). destruct (mpq_value_max a y) as [[Ha Hy] Hc].
    split; [by eapply Qle_trans|]. split.
    - intros z [->|Hz]%elem_of_cons; [by eapply Qle_trans|auto].
    - apply elem_of_cons in H3 as [->|H3]; [|by do 2 right].
      destruct Hc as [->| ->]; [by left|right; by left]. }
  destruct (Hg x) as (H1 & H2 & H3). split; [|by right].
  intros z [->|Hz]%elem_of_cons; auto.
Qed.

Lemma last_end_latest (ends : gmap string mpq) : last_end ends (latest (map_to_list ends).*2).
Proof.
  destruct (latest_spec (map_to_list ends).*2) as [Hle Hc]. split.
  - intros k e Hk. apply Hle, list_elem_of_fmap. exists (k, e). split; [done|].
    by apply elem_of_map_to_list.
  - destruct Hc as [[E ->]|Hin].
    + left. split; [|done]. by apply fmap_nil_inv, map_to_list_empty_iff in E.
    + right. apply list_elem_of_fmap in Hin as ([k e] & -> & Hk). exists k.
      by apply elem_of_map_to_list in Hk.
Qed.

Lemma float_times_ok (d : gmap string mpq) :
  outcome (λ v, ∀ k t, d !! k = Some t → ∃ x, v !! k = Some x ∧ _exact_float t = Ok x) (float_times d).
Proof.
  unfold float_times.
  assert (Hm : outcome (Forall2 (λ kt kv, kt.1 = kv.1 ∧ _exact_float kt.2 = Ok kv.2) (map_to_list d))
    (mapR (λ '(key, t), v ← _exact_float t; Ok (key, v)) (map_to_list d))).
  { apply outcome_mapR. intros [k t] _. eapply outcome_bind; [apply exact_float_outcome|].
    intros v _ Hv. done. }
  destruct (mapR _ _) as [l|e]; [|exact Hm]. simpl in *. intros k t Hk.
  apply elem_of_map_to_list in Hk. destruct (Forall2_elem_l _ _ _ _ Hm Hk) as ([k' v] & Hin & E & Hv).
  simpl in *. subst k'. exists v. split; [|done]. apply elem_of_list_to_map; [|done].
  assert (El : l.*1 = (map_to_list d).*1).
  { clear -Hm. induction Hm as [|x y l1 l2 [E _] _ IH]; [done|]. by rewrite !fmap_cons, IH, E. }
  rewrite El. apply NoDup_fst_map_to_list.
Qed.

Lemma prediction_ok executable model costs unavailable missing st xs :
  executable_valid executable →
  core (ex_operations executable) model costs (available (ex_operations executable) unavailable) [] [] xs st →
  replay_done st = true →
  (∀ k, k ∈ unavailable ↔ blocked (ex_operations executable) model k) →
  outcome (λ p, ∃ starts ends, timeline (ex_operations executable) model costs unavailable starts ends xs ∧
      reports unavailable starts ends xs p)
    (prediction executable model unavailable missing st).
Proof.
  intros He [Hq Hw] Hdone Hun. unfold replay_done in Hdone.
  apply andb_true_iff in Hdone as [[Hp Hsu]%andb_true_iff Hac].
  apply bool_decide_eq_true in Hp, Hsu, Hac.
  assert (Hended : ∀ k, k ∈ available (ex_operations executable) unavailable → is_Some (r_ends st !! k)).
  { intros k Hk. destruct (w_cover _ _ _ _ _ _ _ Hw _ Hk) as [Hc|[[t Hc]|[Hc|Hc]]]; [..|done].
    - rewrite Hp in Hc. set_solver.
    - by rewrite Hsu, lookup_empty in Hc.
    - rewrite Hac in Hc. set_solver. }
  assert (Hnone : ∀ k, k ∈ unavailable → r_starts st !! k = None ∧ r_ends st !! k = None).
  { intros k Hk. assert (Hs : r_starts st !! k = None).
    { apply eq_None_not_Some. intros [s Hs]. apply (w_known _ _ _ _ _ _ _ Hw) in Hs as [Hav _].
      unfold available in Hav. set_solver. }
    split; [done|]. apply eq_None_not_Some. intros Hc.
    destruct (proj2 (w_started _ _ _ _ _ _ _ Hw k)) as [s Hs']; [tauto|]. congruence. }
  unfold prediction. eapply (outcome_bind (λ _, True)).
  { case_decide as Ho; [|done]. eapply (outcome_bind (λ _, True)); [|done].
    eapply outcome_mono; [|apply (outcome_mapR (λ _ _, True))]; [done|].
    intros k Hk. destruct (Hended k) as [e ->]; [|done]. unfold available.
    apply elem_of_difference. split.
    - apply elem_of_list_to_set. by apply (ev_outputs _ He).
    - intros Hc. assert (Hin : k ∈ (list_to_set (ex_output_operations executable) : gset string) ∩ unavailable)
        by (apply elem_of_intersection; split; [by apply elem_of_list_to_set|done]).
      set_solver. }
  intros output _ _. cbv zeta.
  eapply (outcome_bind (λ tp, is_Some tp ↔ unavailable = ∅)).
  { case_decide as Hu; [|cbn [outcome]; by rewrite is_Some_alt].
    pose proof (exact_float_outcome (latest (map_to_list (r_ends st)).*2)).
    destruct (_exact_float _); [|done]. cbn. by rewrite is_Some_alt. }
  intros tp _ Htp. eapply (outcome_bind (λ _, True)).
  { destruct output as [t|]; [|done]. pose proof (exact_float_outcome t).
    by destruct (_exact_float t). }
  intros op _ _. eapply outcome_bind; [apply float_times_ok|]. intros sts _ Hsts.
  eapply outcome_bind; [apply float_times_ok|]. intros ets _ Hets.
  eapply (outcome_bind (λ _, True)).
  { eapply outcome_mono; [|apply (outcome_mapR (λ _ _, True))]; [done|].
    intros ev _. unfold float_event. eapply outcome_bind; [apply exact_float_outcome|]. done. }
  intros evs _ _. cbn [outcome]. exists (r_starts st), (r_ends st). split; split; simpl; try done.
  - intros o Ho Hk. assert (Hav : wo_operation_id o ∈ available (ex_operations executable) unavailable).
    { unfold available. apply elem_of_difference. split; [|done].
      by apply elem_of_list_to_set, list_elem_of_fmap_2. }
    destruct (Hended _ Hav) as [e Hend].
    destruct (proj2 (w_started _ _ _ _ _ _ _ Hw (wo_operation_id o))) as [s Hs]; [eauto|].
    destruct (w_known _ _ _ _ _ _ _ Hw _ _ Hs) as (_ & o' & Ho' & Eid & Hl).
    rewrite (op_unique (ex_operations executable) (ev_ids _ He) o' o Ho' Ho Eid) in Hl.
    exists s, e. split; [done|]. split; [done|]. split; [done|].
    by apply (w_ended _ _ _ _ _ _ _ Hw).
  - intros s Hs. by destruct (w_times _ _ _ _ _ _ _ Hw _ Hs) as [? [? _]].
  - apply Hw.
  - apply Hw.
  - intros k. apply elem_of_sorted_keys.
  - intros E. rewrite decide_True by done. eexists. split; [|done]. apply last_end_latest.
Qed.
End report.

(** ** [predict] *)

Section predict.
Context `{MpqLaws}.

(** The costs that [predict] gives the operations it can price. *)
Definition model_costs (operations : list WorkOperation) (model : CostModel) : gmap string ServiceCost :=
  (foldl (cost_step model) (∅, ∅, ∅) operations).1.1.

(** The executable and the model are about the same context. *)
Definition same_context (executable : Executable) (model : CostModel) : bool :=
  py_eqb (PDict (ex_context executable)) (PDict (cm_context model)).

Definition faithful (executable : Executable) (model : CostModel) (p : Prediction) : Prop :=
  ∃ unavailable starts ends xs,
    timeline (ex_operations executable) model (model_costs (ex_operations executable) model)
      unavailable starts ends xs ∧
    reports unavailable starts ends xs p.

Lemma predict_cases executable model :
  executable_valid executable → model_valid model →
  match predict executable model with
  | Ok p => faithful executable model p
  | Err e =>
      e = SemanticError "cost model applicability context differs from the executable" ∧
        same_context executable model = false ∨
      e = SemanticError "executable dependency cycle" ∧ ¬ orderable (ex_operations executable) ∨
      pricing_error e
  end.
Proof.
  intros He Hm. unfold predict. fold (same_context executable model).
  destruct (same_context executable model) eqn:Hctx; cbn [negb raise_when mbind res_bind]; [|by left].
  cbv zeta. set (ops := ex_operations executable) in *.
  pose proof (ev_ids _ He) as Hids. pose proof (ev_work _ He) as Hwork.
  pose proof (acyclic_cases ops Hids Hwork (ev_known _ He)) as Hac.
  destruct (_acyclic ops) as [degrees|e]; cbn [mbind res_bind]; [|by right; left].
  destruct Hac as [-> Hord].
  pose proof (costs_fold_ok ops Hids Hwork (ev_known _ He) model Hm) as Hcosts. unfold faithful, model_costs. fold ops.
  destruct (foldl (cost_step model) _ ops) as [[costs u] missing]. destruct Hcosts as [Hu Hcosts].
  cbn [fst].
  destruct (spread_ok ops Hids Hwork (ev_known _ He) model (S (length ops)) u) as (unavailable & -> & Hun).
  { intros k (op & Hop & <- & Hb)%Hu. by constructor. }
  { intros op Hop Hb. apply Hu. eauto. }
  { intros k (op & Hop & <- & _)%Hu. by apply elem_of_list_to_set, list_elem_of_fmap_2. }
  { lia. }
  cbn [mbind res_bind].
  assert (Hout : outcome (λ p, ∃ unavailable starts ends xs,
      timeline ops model costs unavailable starts ends xs ∧ reports unavailable starts ends xs p)
    (st ← replay ops model costs (replay_fuel ops) (replay_start ops (degree_map ops) unavailable);
     prediction executable model unavailable missing st)).
  { eapply outcome_bind.
    - apply (replay_ok ops model costs (available ops unavailable) Hids Hwork Hm) with (xs := []).
      + intros op d Hop Hav Hd. unfold available in *. apply elem_of_difference in Hav as [_ Hav].
        apply elem_of_difference. split; [by apply elem_of_list_to_set; eapply (ev_known _ He)|].
        intros Hb. apply Hav, Hun. eapply blocked_dependency; [done|done|by apply Hun].
      + intros k Hk. unfold available in Hk. apply elem_of_difference in Hk as [Hk _].
        apply elem_of_list_to_set, list_elem_of_fmap in Hk as (op & -> & Hop). eauto.
      + intros op Hop Hav Hk. apply Hcosts; [done|done|]. intros Hb. unfold available in Hav.
        apply elem_of_difference in Hav as [_ Hav]. apply Hav, Hun. by constructor.
      + exact Hord.
      + by apply start_ok.
      + by apply start_measure.
    - intros st _ (xs & Hc & Hd). eapply outcome_mono; [|by eapply prediction_ok].
      intros p (starts & ends & Ht & Hr). by exists unavailable, starts, ends, xs. }
  destruct (replay _ _ _ _ _) as [st|e]; cbn [mbind res_bind outcome] in *; [|by right; right].
  destruct (prediction _ _ _ _ _); [done|by right; right].
Qed.
End predict.

(** ** Times of complete predictions *)

Section complete.
Context `{MpqLaws} (executable : Executable) (model : CostModel).
Context (He : executable_valid executable) (Hm : model_valid model).
Notation operations := (ex_operations executable).

Lemma chain_le (b e : mpq) (l : list (ProgressSegment mpq)) :
  (∀ s, s ∈ l → (mpq_value (ps_start_us s) < mpq_value (ps_end_us s))%Q) →
  chain b l e → (mpq_value b <= mpq_value e)%Q.
Proof.
  revert b. induction l as [|s l IH]; intros b Hl; simpl; [intros ->; apply Qle_refl|].
  intros [<- Hc]. eapply Qle_trans; [apply Qlt_le_weak, Hl; by left|].
  apply IH; [|done]. intros s' Hs'. apply Hl. by right.
Qed.

Lemma launch_alpha_nonneg op alpha :
  op ∈ operations → ¬ blocked operations model (wo_operation_id op) → wo_kind op ≠ KNop →
  launch_alpha model (model_costs operations model) op alpha → 0 ≤ alpha.
Proof.
  intros Hop Hb Hk [(cost & Hc & ->)|(profile & Hp & Ha)]; [|by eapply pv_startup; [eapply mv_profiles|]].
  pose proof (costs_fold_ok operations (ev_ids _ He) (ev_work _ He) (ev_known _ He) model Hm) as Hcosts.
  unfold model_costs in Hc. destruct (foldl (cost_step model) _ operations) as [[costs u] missing].
  destruct Hcosts as [_ Hcosts]. cbn [fst] in Hc.
  destruct (Hcosts op Hop Hk) as [(cost' & Hc' & Hv) _]; [intros Hu; apply Hb; by constructor|].
  rewrite Hc in Hc'. injection Hc' as <-. apply Hv.
Qed.

(** In a complete timeline every operation ends after its start, and starts
    after the operations it depends on end. *)
Lemma complete_operation starts ends xs op :
  timeline operations model (model_costs operations model) ∅ starts ends xs → op ∈ operations →
  ∃ s e, starts !! wo_operation_id op = Some s ∧ ends !! wo_operation_id op = Some e ∧
    (mpq_value s <= mpq_value e)%Q ∧
    ∀ d, d ∈ wo_dependencies op → ∃ e', ends !! d = Some e' ∧ (mpq_value e' <= mpq_value s)%Q.
Proof.
  intros Ht Hop. destruct (tl_work _ _ _ _ _ _ _ Ht op Hop) as (s & e & Hs & He' & (_ & Hd & _) & Hf); [set_solver|].
  exists s, e. split_and!; [done|done| |done]. unfold finished in Hf. destruct (decide _) as [Hk|Hk].
  { destruct Hf as [Hf _]. rewrite Hs in Hf. injection Hf as ->. apply Qle_refl. }
  destruct Hf as (b & (s' & alpha & Hs' & Ha & ->) & Hc & _). rewrite Hs in Hs'. injection Hs' as <-.
  apply launch_alpha_nonneg in Ha; [|done| |done].
  2:{ intros Hb%(tl_blocked _ _ _ _ _ _ _ Ht). set_solver. }
  apply chain_le in Hc.
  - eapply Qle_trans; [|exact Hc]. rewrite mpq_value_add. pose proof (exact_number_nonneg _ Ha).
    rewrite <- (Qplus_0_r (mpq_value s)) at 1. by apply Qplus_le_compat; [apply Qle_refl|].
  - intros x Hx. unfold segments_of in Hx. apply list_elem_of_filter in Hx as [_ Hx].
    by apply (tl_segments _ _ _ _ _ _ _ Ht).
Qed.
End complete.

(** C13 What [predict] reports is the rounding of an exact execution of the
    model: the operations it cannot price, and those these block, do not run;
    every other operation starts exactly at the later of its release time and
    the ends of its dependencies; a data operation then moves bytes, without a
    gap after its startup, at the rates of its segments until precisely its
    payload is served, and a NOP takes no time; at no instant do the rates of
    the operations on a shared resource exceed its capacity; and the exact
    completion ratio is the end of the last operation. *)
Theorem predict_sound `{MpqLaws} (executable : Executable) (model : CostModel) (p : Prediction) :
  executable_valid executable → model_valid model →
  predict executable model = Ok p → faithful executable model p.
Proof.
  intros He Hm Hp. pose proof (predict_cases executable model He Hm) as Hc. by rewrite Hp in Hc.
Qed.

(** C14 [predict] ends on every executable and model that the constructors
    accept, within six rounds for an operation and two: it returns a
    prediction, or raises one of the errors for another context, a dependency
    cycle, or what the model cannot price.  It is never stalled, never fails
    to advance time, and looks no key up in vain. *)
Theorem predict_total `{MpqLaws} (executable : Executable) (model : CostModel) :
  executable_valid executable → model_valid model →
  match predict executable model with
  | Ok p => same_context executable model = true ∧ orderable (ex_operations executable)
  | Err e =>
      e = SemanticError "cost model applicability context differs from the executable" ∧
        same_context executable model = false ∨
      e = SemanticError "executable dependency cycle" ∧ ¬ orderable (ex_operations executable) ∨
      pricing_error e
  end.
Proof.
  intros He Hm. pose proof (predict_cases executable model He Hm) as Hc.
  destruct (predict executable model) as [p|e] eqn:E; [|done]. unfold predict in E.
  fold (same_context executable model) in E. cbv zeta in E.
  destruct (same_context executable model); [|done]. split; [done|].
  cbn [negb raise_when mbind res_bind] in E.
  pose proof (acyclic_cases _ (ev_ids _ He) (ev_work _ He) (ev_known _ He)) as Hac.
  destruct (_acyclic (ex_operations executable)); [by destruct Hac|done].
Qed.

(** ** A small executable *)

Definition demo_cost : ServiceCost :=
  {| sc_alpha_us := one_us; sc_beta_us_per_byte := one_us; sc_source := "initial";
     sc_min_bytes := 1; sc_max_bytes := None; sc_measured_at := PNone; sc_qualified := PBool true |}.

(** Two transfers share a link for a while; a copy follows both. *)
Definition demo_model : CostModel :=
  {| cm_version := "v"; cm_services := [("link", [demo_cost]); ("copy", [demo_cost])]%string;
     cm_resources := [("nic"%string, one_us)]; cm_profiles := []; cm_context := [];
     cm_metadata := [] |}.

Definition demo_send (key : string) (payload : Z) : WorkOperation :=
  {| wo_operation_id := key; wo_kind := KSend; wo_cost_key := Some "link"%string;
     wo_payload_bytes := payload; wo_dependencies := []; wo_resources := ["nic"%string];
     wo_flow_id := Some key; wo_not_before_us := 0; wo_source_override := None |}.

Definition demo_join : WorkOperation :=
  {| wo_operation_id := "c"; wo_kind := KNop; wo_cost_key := None; wo_payload_bytes := 0;
     wo_dependencies := ["a"; "b"]%string; wo_resources := []; wo_flow_id := None;
     wo_not_before_us := 0; wo_source_override := None |}.

Definition demo_executable : Executable :=
  {| ex_operations := [demo_send "a" 4; demo_send "b" 8; demo_join];
     ex_output_operations := ["a"; "b"; "c"]%string; ex_context := [] |}.

Lemma demo_executable_valid : executable_valid demo_executable.
Proof.
  split.
  - intros op Hop. simpl in Hop. rewrite !elem_of_cons in Hop.
    destruct Hop as [->|[->|[->|[]%elem_of_nil]]]; split; simpl; try done;
      apply (bool_decide_eq_true_1 _); reflexivity.
  - apply (bool_decide_eq_true_1 _). reflexivity.
  - intros op d Hop. simpl in Hop. rewrite !elem_of_cons in Hop.
    destruct Hop as [->|[->|[->|[]%elem_of_nil]]]; simpl; rewrite ?elem_of_nil, ?elem_of_cons; tauto.
  - intros k. simpl. by rewrite !elem_of_cons.
Qed.

Lemma demo_cost_valid : cost_valid demo_cost.
Proof. by split. Qed.

Lemma demo_model_valid : model_valid demo_model.
Proof.
  split.
  - intros k values cost Hk%dict_get_Some_1 Hin. simpl in Hk. rewrite !elem_of_cons in Hk.
    destruct Hk as [[= -> ->]|[[= -> ->]|[]%elem_of_nil]];
      apply list_elem_of_singleton in Hin as ->; exact demo_cost_valid.
  - intros k t Hk%dict_get_Some_1. simpl in Hk. rewrite !elem_of_cons in Hk.
    by destruct Hk as [[= -> ->]|[]%elem_of_nil].
  - by intros profile ?%elem_of_nil.
Qed.

(** The demonstration completes after 13 microseconds: one of startup, eight at
    half rate, four at full rate, and none for the join. *)
Definition demo_result_ok (r : res Prediction) : bool :=
  match r with
  | Ok p => bool_decide (pd_exact_completion_ratio p = Some (13, 1)) &&
            bool_decide (length (pd_segments p) = 3%nat)
  | Err _ => false
  end.

Lemma demo_predicts : demo_result_ok (predict demo_executable demo_model) = true.
Proof. vm_compute. reflexivity. Qed.

Lemma predict_sound_witness : ∃ p, predict demo_executable demo_model = Ok p ∧
  pd_exact_completion_ratio p = Some (13, 1) ∧ faithful demo_executable demo_model p.
Proof.
  pose proof demo_predicts as Hok.
  destruct (predict demo_executable demo_model) as [p|e] eqn:E; [|discriminate Hok].
  exists p. split; [reflexivity|]. split.
  - apply andb_true_iff in Hok as [Hok _]. exact (bool_decide_eq_true_1 _ Hok).
  - exact (predict_sound demo_executable demo_model p demo_executable_valid demo_model_valid E).
Defined.

Lemma predict_total_witness :
  match predict demo_executable demo_model with
  | Ok p => same_context demo_executable demo_model = true ∧ orderable (ex_operations demo_executable)
  | Err e => False
  end.
Proof.
  pose proof (predict_total demo_executable demo_model demo_executable_valid demo_model_valid) as Ht.
  pose proof demo_predicts as Hok.
  destruct (predict demo_executable demo_model) as [p|e]; [exact Ht|discriminate Hok].
Defined.
