(* ===== verification/V5Lower.v ===== *)
(** * Admission of native programs ([vericcl/xml/v5_lower.py])

    The checks that tie a native program to its storage plan and to the limits
    of the runtime. *)

From S2P Require Import Prelude.
From S2P Require Import Python.
From S2P Require Import Collective.
From S2P Require Import InputModels.
From S2P Require Import Topology.
From S2P Require Import Capacity.
From S2P Require Import V5Model.
From S2P Require Import V5Buffers.
From S2P Require Import V5Program.
Local Open Scope Z_scope.

(** ** The order of the endpoints on a rank *)

(** [local_edges] and [local_locations] *)
Record LocalOrder : Type := MkLocalOrder {
  lo_edges : list (Z * list (StepCoordinate * gset StepCoordinate));
  lo_locations : gmap (string * Z) StepCoordinate;
}.

(** [edges] of the step at [index] of a block. *)
Definition local_predecessors (block : NativeBlock) (index : Z) (step : NativeStep)
    : gset StepCoordinate :=
  (if index =? 0 then ∅ else {[(nb_rank block, nb_tb_id block, index - 1)]}) ∪
  (if 0 <=? ns_dependency_tb step
   then {[(nb_rank block, ns_dependency_tb step, ns_dependency_step step)]} else ∅).

(** [local_edges.setdefault(rank, {})] *)
Definition rank_edges (self : LocalOrder) (rank : Z)
    : list (StepCoordinate * gset StepCoordinate) := default [] (dict_get rank (lo_edges self)).

Definition local_step (self : LocalOrder) (item : NativeBlock * (Z * NativeStep)) : LocalOrder :=
  let '(block, (index, step)) := item in
  let rank := nb_rank block in
  let key := (rank, nb_tb_id block, index) in
  MkLocalOrder
    (dict_set rank (dict_set key (local_predecessors block index step) (rank_edges self rank))
       (lo_edges self))
    (if decide (ns_kind step = "nop"%string) then lo_locations self
     else <[(ns_operation_id step, rank) := key]> (lo_locations self)).

(** The steps of a block with their positions. *)
Definition indexed_steps (block : NativeBlock) : list (NativeBlock * (Z * NativeStep)) :=
  (λ item, (block, item)) <$> zip (seqZ 0 (Z.of_nat (length (nb_steps block)))) (nb_steps block).

Definition local_order (program : NativeProgram) : LocalOrder :=
  foldl local_step (MkLocalOrder [] ∅) (np_blocks program ≫= indexed_steps).

(** ** Bindings *)

(** [not (mask & bits[key])], which raises for an unknown key *)
Definition omits {K} `{Countable K} (bits : gmap K Z) (mask : Z) (key : K) : res bool :=
  bit ← of_option (bits !! key) (KeyError "bit"); Ok (Z.land mask bit =? 0).

(** [any(...)] *)
Definition anyR {A} (f : A → res bool) (l : list A) : res bool :=
  foldM (λ found x, if found : bool then Ok true else f x) false l.

(** The masks of a graph with the bits of its keys. *)
Definition Masks (K : Type) `{Countable K} : Type := (gmap K Z * gmap K Z)%type.

Section bindings.
Context (program : NativeProgram) (storage : StoragePlan).

(** The required dependencies of [op], at the level of operations. *)
Definition check_ancestors (masks : Masks string) (op : Instruction) : res unit :=
  omitted ← anyR (λ predecessor,
      match masks.2 !! predecessor with
      | None => Ok true
      | Some bit =>
          mask ← of_option (masks.1 !! in_id op) (KeyError (in_id op));
          Ok (Z.land mask bit =? 0)
      end) (elements (in_dependencies op));
  raise_when omitted
    (SemanticError "native program omits a required data or storage dependency").

(** The required dependencies of an endpoint on its own rank. *)
Definition check_local (order : LocalOrder) (local_ancestors : list (Z * Masks StepCoordinate))
    (op : Instruction) (member : NativeBlock * NativeStep) : res unit :=
  let rank := nb_rank member.1 in
  let required := omap (λ predecessor, lo_locations order !! (predecessor, rank))
                    (elements (in_dependencies op)) in
  '(local_masks, local_bits) ← of_option (dict_get rank local_ancestors) (KeyError "rank");
  location ← of_option (lo_locations order !! (in_id op, rank)) (KeyError (in_id op));
  mask ← of_option (local_masks !! location) (KeyError "mask");
  omitted ← anyR (omits local_bits mask) required;
  raise_when omitted
    (SemanticError "native local endpoint omits a required data or storage dependency").

(** An endpoint as the tuple [(rank, kind, source, destination)]. *)
Notation Binding := (Z * string * option Address * option Address)%type.

Definition seen_binding (member : NativeBlock * NativeStep) : Binding :=
  (nb_rank member.1, ns_kind member.2, ns_src member.2, ns_dst member.2).

Definition expected_binding (endpoint : NativeEndpoint) : Binding :=
  (ne_rank endpoint, ne_kind endpoint, Some (ne_source endpoint), Some (ne_destination endpoint)).

(** [value[0], value[1]] *)
Definition binding_key (value : Binding) : Z * string := (value.1.1.1, value.1.1.2).

Definition buffer_slots (buffer : string) : option (list (Z * Z)) :=
  dict_get buffer [("i"%string, np_input_slots program); ("o"%string, np_output_slots program);
                   ("s"%string, np_scratch_slots program)].

(** The addresses that a step reads or writes. *)
Definition used_addresses (step : NativeStep) : list (option Address) :=
  if decide (ns_kind step = "s"%string) then [ns_src step]
  else if decide (ns_kind step = "r"%string) then [ns_dst step]
  else if decide (ns_kind step ∈ ["rrc"; "cpy"; "re"]%string) then [ns_src step; ns_dst step]
  else [].

Definition check_address (block : NativeBlock) (address : option Address) : res unit :=
  let outside := SemanticError "native buffer address is outside its declared storage" in
  match address with
  | None => Err outside
  | Some address =>
      raise_when (negb (ad_rank address =? nb_rank block)) outside;;
      match buffer_slots (ad_buffer address) with
      | None => Err outside
      | Some slots =>
          raise_when (ad_offset address <? 0) outside;;
          count ← of_option (dict_get (nb_rank block) slots) (KeyError "rank");
          raise_when (negb (ad_offset address <? count)) outside
      end
  end.

Definition check_member (op : Instruction) (member : NativeBlock * NativeStep) : res unit :=
  raise_when (negb (bool_decide (in_kind op = "copy"%string)) &&
              negb (nb_channel member.1 =? in_channel op))
    (SemanticError "native channel differs from the selected channel");;
  iterM (check_address member.1) (used_addresses member.2).

Definition check_instruction (masks : Masks string) (order : LocalOrder)
    (local_ancestors : list (Z * Masks StepCoordinate))
    (actual : list (string * list (NativeBlock * NativeStep))) (op : Instruction) : res unit :=
  check_ancestors masks op;;
  members ← of_option (dict_get (in_id op) actual) (KeyError (in_id op));
  iterM (check_local order local_ancestors op) members;;
  expected ← _endpoints op storage;
  raise_when (negb (bool_decide (sorted_by binding_key (seen_binding <$> members) =
                                 sorted_by binding_key (expected_binding <$> expected))))
    (SemanticError "native buffer references or endpoint type disagree with state bindings");;
  iterM (check_member op) members.

Definition _validate_bindings : res unit :=
  '(dependencies, actual) ← execution_dependencies program;
  raise_when (negb (bool_decide (NoDup (in_id <$> sp_instructions storage))))
    (SemanticError "semantic operation identities are duplicated");;
  raise_when (negb (bool_decide ((list_to_set actual.*1 : gset string) =
                                 list_to_set (in_id <$> sp_instructions storage))))
    (SemanticError "native and semantic operation coverage differs");;
  let order := local_order program in
  masks ← _dependency_ancestors dependencies;
  local_ancestors ← mapR (λ '(rank, edges),
      masks ← _dependency_ancestors edges; Ok (rank, masks)) (lo_edges order);
  iterM (check_instruction masks order local_ancestors actual) (sp_instructions storage).
End bindings.

(** ** Limits of the runtime *)

Definition offset_or (address : option Address) : Z :=
  match address with Some a => ad_offset a | None => -1 end.

Definition step_capacity (step : NativeStep) : StepCapacity :=
  MkStepCapacity (ns_kind step) (offset_or (ns_src step)) (offset_or (ns_dst step))
    (ns_dependency_tb step) (ns_dependency_step step) (ns_count step).

Definition block_capacity (block : NativeBlock) : BlockCapacity :=
  MkBlockCapacity (nb_rank block) (nb_tb_id block) (nb_channel block) (nb_send_peer block)
    (nb_recv_peer block) (step_capacity <$> nb_steps block).

Definition program_shape (program : NativeProgram) : ExecutionShape :=
  MkExecutionShape (np_rank_count program) (np_channels program)
    (block_capacity <$> np_blocks program) (np_scratch_slots program)
    (Some (np_chunks_per_loop program)).

(** [limits] is the field [context.limits]. *)
Definition _capacity (program : NativeProgram) (context : LoweringContext) (limits : RuntimeLimits)
    : res CapacityReport :=
  bytes ← runtime_int (cx_inputs context) "scratch_bytes_per_rank";
  check_capacity (program_shape program) limits
    (slice_size_bytes (ri_hyperparameters (cx_inputs context))) (Some (SharedBudget bytes)).

(** The greatest channel count of a link with the resources it shares. *)
Definition channel_limit (context : LoweringContext) (key : LinkKey) : res Z :=
  edge ← link (cx_topology context) key;
  shared ← mapR (λ name,
      resource ← of_option (dict_get name (tp_shared_resources (cx_topology context))) (KeyError name);
      Ok (sr_max_channels resource)) (dl_resource_ids edge);
  Ok (foldl Z.min (max_channels (ri_solver (cx_inputs context)) `min` dl_max_channels edge) shared).

Definition check_block_channel (context : LoweringContext) (block : NativeBlock) : res unit :=
  send ← (if nb_send_peer block <? 0 then Ok []
          else key ← LinkKey_init (nb_rank block) (nb_send_peer block); Ok [key]);
  recv ← (if nb_recv_peer block <? 0 then Ok []
          else key ← LinkKey_init (nb_recv_peer block) (nb_rank block); Ok [key]);
  iterM (λ key,
    maximum ← channel_limit context key;
    raise_when (negb ((0 <=? nb_channel block) && (nb_channel block <? maximum)))
      (SemanticError "native channel exceeds the directed link or shared-resource limit"))
    (send ++ recv).

(** Equality of dictionaries, in any order. *)
Definition dict_same (a b : list (Z * Z)) : bool :=
  bool_decide ((list_to_map a : gmap Z Z) = list_to_map b).

Definition _launch_geometry (program : NativeProgram) (storage : StoragePlan)
    (context : LoweringContext) : res unit :=
  let inputs := cx_inputs context in
  let ranks := ri_rank_count inputs in
  '(n, _) ← slices inputs;
  expected ← required_outputs (ri_collective inputs) ranks n;
  let per_rank f : list (Z * Z) := (λ rank, (rank, f rank)) <$> seqZ 0 ranks in
  raise_when
    (negb (np_rank_count program =? ranks) ||
     negb (np_chunks_per_loop program =? chunks_per_loop inputs n) ||
     negb (dict_same (np_input_slots program) (per_rank (λ _, n))) ||
     negb (dict_same (np_output_slots program) (per_rank (output_count expected))) ||
     negb (dict_same (np_input_slots program) (sp_input_slots storage)) ||
     negb (dict_same (np_output_slots program) (sp_output_slots storage)) ||
     negb (dict_same (np_scratch_slots program) (sp_scratch_slots storage)))
    (SemanticError "native runtime geometry differs from the resolved collective and partition");;
  raise_when (negb ((1 <=? np_channels program) && (np_channels program <=? max_channels (ri_solver inputs))))
    (SemanticError "native channel count exceeds the selected channel limit");;
  iterM (check_block_channel context) (np_blocks program).
