(* ===== verification/V5Sidecar.v ===== *)
(** * Sidecars of native programs ([vericcl/xml/v5_lower.py])

    The document that is stored beside the text of a program, and the records
    read back from it.  A sidecar is given in its JSON form: tuples are lists,
    sets are sorted lists and the integer keys of the slot tables are text.
    Records that are read have fields of their declared types; a field of
    another type is the [TypeError] of a call with a wrong argument. *)

From S2P Require Import Prelude.
From S2P Require Import Python.
From S2P Require Import PyInt.
From S2P Require Import Collective.
From S2P Require Import InputModels.
From S2P Require Import Ranges.
From S2P Require Import Versions.
From S2P Require Import VersionSchedule.
From S2P Require Import Floats.
From S2P Require Import V5Model.
From S2P Require Import V5Buffers.
Local Open Scope Z_scope.

(** ** Documents *)

Definition text_list (l : list string) : pyval := PList (PStr <$> l).
Definition optional_text (o : option string) : pyval := match o with Some s => PStr s | None => PNone end.

(** [_plain] of sets *)
Definition text_set (l : gset string) : pyval := text_list (sorted_by id (elements l)).
Definition int_set (l : gset Z) : pyval := PList (PInt <$> sorted_by id (elements l)).

(** [{key: value for key, value in slots.items()}], after JSON *)
Definition slot_table (slots : list (Z * Z)) : pyval :=
  PDict ((λ '(key, value), (str_of_int key, PInt value)) <$> slots).

Definition address_document (self : Address) : pyval :=
  PDict [("rank", PInt (ad_rank self)); ("buffer", PStr (ad_buffer self));
         ("offset", PInt (ad_offset self))]%string.
Definition optional_address (o : option Address) : pyval :=
  match o with Some a => address_document a | None => PNone end.

Definition value_document (self : Value) : pyval :=
  PDict [("state_id", PStr (va_state_id self)); ("rank", PInt (va_rank self));
         ("logical_position", PInt (va_position self));
         ("contributors", int_set (va_contributors self));
         ("producer", optional_text (va_producer self))]%string.

Definition instruction_document (self : Instruction) : pyval :=
  PDict [("operation_id", PStr (in_id self)); ("kind", PStr (in_kind self));
         ("inputs", text_list (in_inputs self)); ("output", PStr (in_output self));
         ("rank", PInt (in_rank self)); ("peer", PInt (in_peer self));
         ("channel", PInt (in_channel self)); ("stage_id", PInt (in_stage self));
         ("participants", PList (PInt <$> in_participants self));
         ("dependencies", text_set (in_dependencies self));
         ("priority_time", PFloat (in_priority self))]%string.

Definition output_document (item : OutputSlot * string) : pyval :=
  PDict [("rank", PInt (slot_rank item.1)); ("offset", PInt (slot_offset item.1));
         ("state_id", PStr item.2)]%string.

Definition reuse_document (self : Reuse) : pyval :=
  PDict [("writer", PStr (re_writer self)); ("old_state", PStr (re_old_state self));
         ("new_state", PStr (re_new_state self));
         ("previous_readers", text_list (re_previous_readers self));
         ("rank", PInt (re_rank self)); ("offset", PInt (re_offset self))]%string.

Definition omitted_document (pair : string * string) : pyval := text_list [pair.1; pair.2].

Definition _serialize_storage (storage : StoragePlan) : pyval :=
  PDict [("values", PList (value_document <$> (sp_values storage).*2));
         ("initial_ids", text_list (sp_initial_ids storage));
         ("instructions", PList (instruction_document <$> sp_instructions storage));
         ("addresses", PDict ((λ '(key, value), (key, address_document value)) <$> sp_addresses storage));
         ("outputs", PList (output_document <$> sp_outputs storage));
         ("input_slots", slot_table (sp_input_slots storage));
         ("output_slots", slot_table (sp_output_slots storage));
         ("scratch_slots", slot_table (sp_scratch_slots storage));
         ("reuse", PList (reuse_document <$> sp_reuse storage));
         ("stage_count", PInt (sp_stage_count storage));
         ("reference_orders_omitted", PList (omitted_document <$> sp_omitted storage))]%string.

Definition step_document (self : NativeStep) : pyval :=
  PDict [("step_id", PStr (ns_step_id self)); ("operation_id", PStr (ns_operation_id self));
         ("kind", PStr (ns_kind self)); ("src", optional_address (ns_src self));
         ("dst", optional_address (ns_dst self));
         ("dependency_tb", PInt (ns_dependency_tb self));
         ("dependency_step", PInt (ns_dependency_step self));
         ("has_dependence", PBool (ns_has_dependence self)); ("count", PInt (ns_count self))]%string.

Definition block_document (self : NativeBlock) : pyval :=
  PDict [("rank", PInt (nb_rank self)); ("tb_id", PInt (nb_tb_id self));
         ("channel", PInt (nb_channel self)); ("send_peer", PInt (nb_send_peer self));
         ("recv_peer", PInt (nb_recv_peer self));
         ("steps", PList (step_document <$> nb_steps self))]%string.

Definition _serialize_program (program : NativeProgram) : pyval :=
  PDict [("rank_count", PInt (np_rank_count program)); ("channels", PInt (np_channels program));
         ("chunks_per_loop", PInt (np_chunks_per_loop program));
         ("blocks", PList (block_document <$> np_blocks program));
         ("input_slots", slot_table (np_input_slots program));
         ("output_slots", slot_table (np_output_slots program));
         ("scratch_slots", slot_table (np_scratch_slots program))]%string.

(** *** Version schedules: [_plain(asdict(version))] *)

Definition range_document (self : DataRange) : pyval :=
  PDict [("source_rank", PInt (dr_source self)); ("start", PInt (dr_start self));
         ("end", PInt (dr_end self))]%string.

Definition region_document (self : BufferRegion) : pyval :=
  PDict [("rank", PInt (br_rank self)); ("buffer_id", PStr (br_buffer self));
         ("offset", PInt (br_offset self)); ("size", PInt (br_size self));
         ("kind", PStr (br_kind self))]%string.

Definition state_document (self : StateVersion) : pyval :=
  PDict [("state_id", PStr (sv_id self)); ("rank", PInt (sv_rank self));
         ("logical_start", PInt (sv_start self)); ("logical_end", PInt (sv_end self));
         ("contributors", PList (range_document <$> sv_contributors self));
         ("storage", region_document (sv_storage self));
         ("ready_us", PFloat (Finite (sv_ready self)))]%string.

Definition operation_document (self : VersionOperation) : pyval :=
  PDict [("operation_id", PStr (op_id self)); ("kind", PStr (op_kind self));
         ("input_states", text_list (op_inputs self));
         ("output_state", optional_text (op_output self));
         ("destination", match op_destination self with
                         | Some region => region_document region
                         | None => PNone
                         end);
         ("start_us", op_start self); ("end_us", op_end self); ("stage_id", PInt (op_stage self));
         ("dependencies", text_list (op_dependencies self));
         ("participants", PList (PInt <$> op_participants self))]%string.

Definition binding_document (self : OutputBinding) : pyval :=
  PDict [("rank", PInt (ob_rank self)); ("offset_bytes", PInt (ob_offset self));
         ("state_id", PStr (ob_state self))]%string.

Definition version_document (self : VersionSchedule) : pyval :=
  PDict [("rank_count", PInt (vs_rank_count self)); ("input_bytes", PInt (vs_input_bytes self));
         ("slice_size_bytes", PInt (vs_slice_size_bytes self));
         ("stage_count", PInt (vs_stage_count self));
         ("initial_states", PList (state_document <$> vs_initial_states self));
         ("operations", PList (operation_document <$> vs_operations self));
         ("outputs", PList (binding_document <$> vs_outputs self))]%string.

(** [json.loads(json.dumps(value))] *)
Fixpoint is_json (v : pyval) : bool :=
  match v with
  | POther => false
  | PList l => forallb is_json l
  | PDict d => forallb (λ item, is_json item.2) d
  | _ => true
  end.
Definition json_copy (v : pyval) : res pyval :=
  if is_json v then Ok v else Err (TypeError "object is not JSON serializable").

(** [operation.pop('start_us', None); operation.pop('end_us', None)] *)
Definition pop_times (operation : pyval) : res pyval :=
  match operation with
  | PDict d => Ok (PDict (filter (λ item, item.1 ∉ ["start_us"; "end_us"]%string) d))
  | PList _ => Err (TypeError "pop expected at most 1 argument, got 2")
  | _ => Err (AttributeError "object has no attribute 'pop'")
  end.

(** A document after the loop over its operations. *)
Definition without_times (document : pyval) : res pyval :=
  operations ← py_getitem document "operations";
  match document, operations with
  | PDict d, PList l => l ← mapR pop_times l; Ok (PDict (dict_set "operations"%string (PList l) d))
  | _, _ => items ← py_iter operations; mapR pop_times items;; Ok document
  end.

(** *** The request *)

Definition _request_contract (inputs : ResolvedInput) : pyval :=
  let spec := ri_collective inputs in
  PDict [("ranks", PInt (ri_rank_count inputs));
         ("input_bytes", PInt (total_size_bytes (ri_hyperparameters inputs)));
         ("slice_bytes", match slice_size_bytes (ri_hyperparameters inputs) with
                         | Some size => PInt size
                         | None => PNone
                         end);
         ("operator", PStr (kind_value (cs_kind spec))); ("datatype", PStr (cs_datatype spec));
         ("reduction_op", optional_text (cs_reduction_op spec)); ("root", cs_root spec);
         ("inplace", PBool (cs_inplace spec))]%string.

(** ** Reading records *)

Definition wrong_argument : exn := TypeError "argument of a wrong type".

Definition to_int (v : pyval) : res Z := match v with PInt z => Ok z | _ => Err wrong_argument end.
Definition to_text (v : pyval) : res string := match v with PStr s => Ok s | _ => Err wrong_argument end.
Definition to_bool (v : pyval) : res bool := match v with PBool b => Ok b | _ => Err wrong_argument end.
Definition to_float (v : pyval) : res pyfloat := match v with PFloat f => Ok f | _ => Err wrong_argument end.
Definition to_optional_text (v : pyval) : res (option string) :=
  match v with PStr s => Ok (Some s) | PNone => Ok None | _ => Err wrong_argument end.

(** [tuple(values)] and [frozenset(values)] of a list *)
Definition to_list {A} (f : pyval → res A) (v : pyval) : res (list A) :=
  match v with PList l => mapR f l | _ => Err wrong_argument end.

(** The arguments of a call [f( ** values)]: all of them known. *)
Definition arguments (names : list string) (v : pyval) : res (list (string * pyval)) :=
  match v with
  | PDict d =>
      raise_when (existsb (λ key, bool_decide (key ∉ names)) d.*1)
        (TypeError "got an unexpected keyword argument");;
      Ok d
  | _ => Err (TypeError "argument after ** must be a mapping")
  end.

(** An argument without a default, and one with. *)
Definition argument {A} (f : pyval → res A) (d : list (string * pyval)) (name : string) : res A :=
  v ← of_option (dict_get name d) (TypeError "missing a required argument"); f v.
Definition argument_or {A} (f : pyval → res A) (default : A) (d : list (string * pyval)) (name : string) : res A :=
  match dict_get name d with Some v => f v | None => Ok default end.

(** [value.items()] *)
Definition py_items (v : pyval) : res (list (string * pyval)) :=
  match v with PDict d => Ok d | _ => Err (AttributeError "object has no attribute 'items'") end.

Definition read_address (v : pyval) : res Address :=
  d ← arguments ["rank"; "buffer"; "offset"]%string v;
  rank ← argument to_int d "rank";
  buffer ← argument to_text d "buffer";
  offset ← argument to_int d "offset";
  Ok (MkAddress rank buffer offset).

Definition read_value (v : pyval) : res Value :=
  py_getitem v "state_id";;
  contributors ← py_getitem v "contributors";
  contributors ← to_list to_int contributors;
  d ← arguments ["state_id"; "rank"; "logical_position"; "contributors"; "producer"]%string v;
  state_id ← argument to_text d "state_id";
  rank ← argument to_int d "rank";
  position ← argument to_int d "logical_position";
  producer ← argument to_optional_text d "producer";
  Ok (MkValue state_id rank position (list_to_set contributors) producer).

Definition read_instruction (v : pyval) : res Instruction :=
  inputs ← py_getitem v "inputs";
  inputs ← to_list to_text inputs;
  participants ← py_getitem v "participants";
  participants ← to_list to_int participants;
  dependencies ← py_getitem v "dependencies";
  dependencies ← to_list to_text dependencies;
  d ← arguments ["operation_id"; "kind"; "inputs"; "output"; "rank"; "peer"; "channel"; "stage_id";
                 "participants"; "dependencies"; "priority_time"]%string v;
  operation_id ← argument to_text d "operation_id";
  kind ← argument to_text d "kind";
  output ← argument to_text d "output";
  rank ← argument to_int d "rank";
  peer ← argument to_int d "peer";
  channel ← argument to_int d "channel";
  stage ← argument to_int d "stage_id";
  priority ← argument to_float d "priority_time";
  Ok (MkInstruction operation_id kind inputs output rank peer channel stage participants
        (list_to_set dependencies) priority).

Definition read_output (v : pyval) : res (OutputSlot * string) :=
  rank ← py_getitem v "rank"; rank ← to_int rank;
  offset ← py_getitem v "offset"; offset ← to_int offset;
  slot ← OutputSlot_init rank offset;
  state_id ← py_getitem v "state_id"; state_id ← to_text state_id;
  Ok (slot, state_id).

(** [{int(key): value for key, value in raw.items()}] *)
Definition read_slots (v : pyval) : res (list (Z * Z)) :=
  items ← py_items v;
  slots ← mapR (λ '(key, value),
      rank ← of_option (py_int key) (ValueError "invalid literal for int() with base 10");
      count ← to_int value;
      Ok (rank, count)) items;
  Ok (dict_of_list slots).

Definition read_reuse (v : pyval) : res Reuse :=
  d ← arguments ["writer"; "old_state"; "new_state"; "previous_readers"; "rank"; "offset"]%string v;
  writer ← argument to_text d "writer";
  old_state ← argument to_text d "old_state";
  new_state ← argument to_text d "new_state";
  readers ← argument (to_list to_text) d "previous_readers";
  rank ← argument to_int d "rank";
  offset ← argument to_int d "offset";
  Ok (MkReuse writer old_state new_state readers rank offset).

Definition read_pair (v : pyval) : res (string * string) :=
  values ← to_list to_text v;
  match values with [a; b] => Ok (a, b) | _ => Err wrong_argument end.

Definition _deserialize_storage (raw : pyval) : res StoragePlan :=
  raw_values ← py_getitem raw "values";
  records ← to_list read_value raw_values;
  let values := dict_of_list ((λ value, (va_state_id value, value)) <$> records) in
  raise_when (negb (length values =? length records)%nat)
    (SemanticError "duplicate state identities in sidecar");;
  raw_instructions ← py_getitem raw "instructions";
  instructions ← to_list read_instruction raw_instructions;
  raw_addresses ← py_getitem raw "addresses";
  items ← py_items raw_addresses;
  addresses ← mapR (λ '(key, value), address ← read_address value; Ok (key, address)) items;
  raw_outputs ← py_getitem raw "outputs";
  bindings ← to_list read_output raw_outputs;
  let outputs := dict_of_list bindings in
  raise_when (negb (length outputs =? length bindings)%nat)
    (SemanticError "duplicate output bindings in sidecar");;
  raw_initial ← py_getitem raw "initial_ids";
  initial ← to_list to_text raw_initial;
  raw_slots ← py_getitem raw "input_slots"; input_slots ← read_slots raw_slots;
  raw_slots ← py_getitem raw "output_slots"; output_slots ← read_slots raw_slots;
  raw_slots ← py_getitem raw "scratch_slots"; scratch_slots ← read_slots raw_slots;
  raw_reuse ← py_getitem raw "reuse"; reuse ← to_list read_reuse raw_reuse;
  raw_count ← py_getitem raw "stage_count"; stage_count ← to_int raw_count;
  raw_omitted ← py_getitem raw "reference_orders_omitted"; omitted ← to_list read_pair raw_omitted;
  Ok (MkStoragePlan values initial instructions addresses outputs input_slots output_slots
        scratch_slots reuse stage_count omitted).

(** [None if step[key] is None else Address( **step[key])] *)
Definition read_optional_address (v : pyval) (key : string) : res (option Address) :=
  raw ← py_getitem v key;
  match raw with PNone => Ok None | _ => Some <$> read_address raw end.

Definition read_step (v : pyval) : res NativeStep :=
  src ← read_optional_address v "src";
  dst ← read_optional_address v "dst";
  d ← arguments ["step_id"; "operation_id"; "kind"; "src"; "dst"; "dependency_tb"; "dependency_step";
                 "has_dependence"; "count"]%string v;
  step_id ← argument to_text d "step_id";
  operation_id ← argument to_text d "operation_id";
  kind ← argument to_text d "kind";
  dependency_tb ← argument_or to_int (-1) d "dependency_tb";
  dependency_step ← argument_or to_int (-1) d "dependency_step";
  has_dependence ← argument_or to_bool false d "has_dependence";
  count ← argument_or to_int 1 d "count";
  Ok (MkNativeStep step_id operation_id kind src dst dependency_tb dependency_step has_dependence count).

Definition read_block (v : pyval) : res NativeBlock :=
  raw_steps ← py_getitem v "steps";
  steps ← to_list read_step raw_steps;
  d ← arguments ["rank"; "tb_id"; "channel"; "send_peer"; "recv_peer"; "steps"]%string v;
  rank ← argument to_int d "rank";
  tb_id ← argument to_int d "tb_id";
  channel ← argument to_int d "channel";
  send_peer ← argument to_int d "send_peer";
  recv_peer ← argument to_int d "recv_peer";
  Ok (MkNativeBlock rank tb_id channel send_peer recv_peer steps).

Definition _deserialize_program (raw : pyval) : res NativeProgram :=
  raw_blocks ← py_getitem raw "blocks"; blocks ← to_list read_block raw_blocks;
  v ← py_getitem raw "rank_count"; rank_count ← to_int v;
  v ← py_getitem raw "channels"; channels ← to_int v;
  v ← py_getitem raw "chunks_per_loop"; chunks_per_loop ← to_int v;
  raw_slots ← py_getitem raw "input_slots"; input_slots ← read_slots raw_slots;
  raw_slots ← py_getitem raw "output_slots"; output_slots ← read_slots raw_slots;
  raw_slots ← py_getitem raw "scratch_slots"; scratch_slots ← read_slots raw_slots;
  Ok (MkNativeProgram rank_count channels chunks_per_loop blocks input_slots output_slots scratch_slots).

(** ** Round trips *)

(** Tables as dictionaries have them, with slots that exist. *)
Record serializable (storage : StoragePlan) : Prop := {
  sz_values key value : (key, value) ∈ sp_values storage → va_state_id value = key;
  sz_states : NoDup (sp_values storage).*1;
  sz_outputs : NoDup (sp_outputs storage).*1;
  sz_slots slot id : (slot, id) ∈ sp_outputs storage → 0 ≤ slot_rank slot ∧ 0 ≤ slot_offset slot;
  sz_input_slots : NoDup (sp_input_slots storage).*1;
  sz_output_slots : NoDup (sp_output_slots storage).*1;
  sz_scratch_slots : NoDup (sp_scratch_slots storage).*1;
}.

Lemma mapR_fmap {A B C} (f : B → res C) (g : A → B) (h : A → C) l :
  (∀ x, x ∈ l → f (g x) = Ok (h x)) → mapR f (g <$> l) = Ok (h <$> l).
Proof.
  induction l as [|x l IH]; intros Hf; [done|]. rewrite fmap_cons. cbn [mapR].
  rewrite Hf by by left. cbn [mbind res_bind]. rewrite IH by (intros; apply Hf; by right). done.
Qed.

Lemma mapR_fmap_id {A B} (f : B → res A) (g : A → B) l : (∀ x, f (g x) = Ok x) → mapR f (g <$> l) = Ok l.
Proof. intros Hf. rewrite (mapR_fmap f g id) by auto. by rewrite list_fmap_id. Qed.

Lemma read_texts l : to_list to_text (text_list l) = Ok l.
Proof. by apply mapR_fmap_id. Qed.

Lemma read_ints l : to_list to_int (PList (PInt <$> l)) = Ok l.
Proof. by apply mapR_fmap_id. Qed.

Lemma list_to_set_sorted `{Countable A} `{!PyOrd A} (X : gset A) :
  (list_to_set (sorted_by id (elements X)) : gset A) = X.
Proof. apply set_eq. intros x. by rewrite elem_of_list_to_set, elem_of_sorted_by, elem_of_elements. Qed.

Lemma read_slot_table slots : NoDup slots.*1 → read_slots (slot_table slots) = Ok slots.
Proof.
  intros Hnd. unfold read_slots, slot_table, py_items. cbn [mbind res_bind].
  rewrite (mapR_fmap _ _ id).
  - rewrite list_fmap_id. cbn [mbind res_bind]. by rewrite dict_of_list_nodup.
  - intros [key value] _. by rewrite py_int_str.
Qed.

Lemma read_address_document a : read_address (address_document a) = Ok a.
Proof. by destruct a. Qed.

Lemma read_value_document value : read_value (value_document value) = Ok value.
Proof.
  destruct value as [state rank position contributors producer].
  transitivity (contributors ← to_list to_int (int_set contributors);
    Ok (MkValue state rank position (list_to_set contributors) producer)).
  { by destruct producer. }
  unfold int_set. rewrite read_ints. cbn [mbind res_bind]. by rewrite list_to_set_sorted.
Qed.

Lemma read_instruction_document op : read_instruction (instruction_document op) = Ok op.
Proof.
  destruct op as [id kind inputs output rank peer channel stage participants dependencies priority].
  transitivity (inputs ← to_list to_text (text_list inputs);
    participants ← to_list to_int (PList (PInt <$> participants));
    dependencies ← to_list to_text (text_set dependencies);
    Ok (MkInstruction id kind inputs output rank peer channel stage participants
          (list_to_set dependencies) priority)); [reflexivity|].
  unfold text_set. rewrite !read_texts, read_ints. cbn [mbind res_bind]. by rewrite list_to_set_sorted.
Qed.

Lemma read_output_document item :
  0 ≤ slot_rank item.1 → 0 ≤ slot_offset item.1 → read_output (output_document item) = Ok item.
Proof.
  destruct item as [[rank offset] id]. cbn [fst slot_rank slot_offset]. intros Hr Ho.
  transitivity (slot ← OutputSlot_init rank offset; Ok (slot, id)); [reflexivity|].
  unfold OutputSlot_init, _positive_or_zero.
  by rewrite (proj2 (Z.ltb_ge rank 0) Hr), (proj2 (Z.ltb_ge offset 0) Ho).
Qed.

Lemma read_reuse_document r : read_reuse (reuse_document r) = Ok r.
Proof.
  destruct r as [writer old new readers rank offset].
  transitivity (readers ← to_list to_text (text_list readers); Ok (MkReuse writer old new readers rank offset));
    [reflexivity|]. by rewrite read_texts.
Qed.

Lemma read_omitted_document pair : read_pair (omitted_document pair) = Ok pair.
Proof. by destruct pair. Qed.

Lemma read_step_document step : read_step (step_document step) = Ok step.
Proof. by destruct step as [id op kind [[]|] [[]|] tb dep has count]. Qed.

Lemma read_block_document block : read_block (block_document block) = Ok block.
Proof.
  destruct block as [rank tb channel send recv steps].
  transitivity (steps ← to_list read_step (PList (step_document <$> steps));
    Ok (MkNativeBlock rank tb channel send recv steps)); [reflexivity|].
  cbn [to_list]. by rewrite (mapR_fmap_id _ _ _ read_step_document).
Qed.

Lemma program_round_trip program :
  NoDup (np_input_slots program).*1 → NoDup (np_output_slots program).*1 →
  NoDup (np_scratch_slots program).*1 → _deserialize_program (_serialize_program program) = Ok program.
Proof.
  destruct program as [ranks channels chunks blocks ins outs scratch].
  cbn [np_input_slots np_output_slots np_scratch_slots]. intros Hi Ho Hs.
  transitivity (blocks ← to_list read_block (PList (block_document <$> blocks));
    ins ← read_slots (slot_table ins); outs ← read_slots (slot_table outs);
    scratch ← read_slots (slot_table scratch);
    Ok (MkNativeProgram ranks channels chunks blocks ins outs scratch)); [reflexivity|].
  cbn [to_list]. rewrite (mapR_fmap_id _ _ _ read_block_document), !read_slot_table; done.
Qed.

Lemma storage_round_trip storage :
  serializable storage → _deserialize_storage (_serialize_storage storage) = Ok storage.
Proof.
  intros [Hv Hs Ho Hslots Hi Hos Hss].
  destruct storage as [values initial instructions addresses outputs ins outs scratch reuse stages omitted].
  cbn in Hv, Hs, Ho, Hslots, Hi, Hos, Hss.
  transitivity (records ← to_list read_value (PList (value_document <$> values.*2));
    let values := dict_of_list ((λ value, (va_state_id value, value)) <$> records) in
    raise_when (negb (length values =? length records)%nat)
      (SemanticError "duplicate state identities in sidecar");;
    instructions ← to_list read_instruction (PList (instruction_document <$> instructions));
    addresses ← mapR (λ '(key, value), address ← read_address value; Ok (key, address))
      ((λ '(key, value), (key, address_document value)) <$> addresses);
    bindings ← to_list read_output (PList (output_document <$> outputs));
    let outputs := dict_of_list bindings in
    raise_when (negb (length outputs =? length bindings)%nat)
      (SemanticError "duplicate output bindings in sidecar");;
    initial ← to_list to_text (text_list initial);
    ins ← read_slots (slot_table ins); outs ← read_slots (slot_table outs);
    scratch ← read_slots (slot_table scratch);
    reuse ← to_list read_reuse (PList (reuse_document <$> reuse));
    omitted ← to_list read_pair (PList (omitted_document <$> omitted));
    Ok (MkStoragePlan values initial instructions addresses outputs ins outs scratch reuse stages omitted));
    [reflexivity|].
  assert (Ev : (λ value, (va_state_id value, value)) <$> values.*2 = values).
  { rewrite <- list_fmap_compose. rewrite <- (list_fmap_id values) at 2. apply list_fmap_ext.
    intros i [k v] Hk%list_elem_of_lookup_2. simpl. by rewrite (Hv k v). }
  cbn [to_list]. rewrite (mapR_fmap_id _ _ _ read_value_document). cbn [mbind res_bind]. cbv zeta.
  rewrite Ev, dict_of_list_nodup, length_fmap, Nat.eqb_refl by done. cbn [negb raise_when mbind res_bind].
  rewrite (mapR_fmap_id _ _ _ read_instruction_document). cbn [mbind res_bind].
  rewrite (mapR_fmap_id (A := string * Address)) by (intros [? []]; reflexivity). cbn [mbind res_bind].
  rewrite (mapR_fmap read_output output_document id outputs), list_fmap_id.
  2:{ intros [slot id] Hin. by apply read_output_document; apply (Hslots slot id). }
  cbn [mbind res_bind]. rewrite dict_of_list_nodup, Nat.eqb_refl by done. cbn [negb raise_when mbind res_bind].
  rewrite (read_texts initial). cbn [mbind res_bind].
  rewrite !read_slot_table by done. cbn [mbind res_bind].
  rewrite (mapR_fmap_id _ _ _ read_reuse_document). cbn [mbind res_bind].
  by rewrite (mapR_fmap_id _ _ _ read_omitted_document).
Qed.
