(* ===== verification/V5Executable.v ===== *)
(** * The executable of a native program ([build_executable] of
    [vericcl/xml/v5_program.py])

    The physical work that the cost model prices: one operation for each
    instruction of the plan, with the dependencies that the native program
    enforces, and the division that follows an average.  [model] is the field
    [context.model]. *)

From S2P Require Import Prelude.
From S2P Require Import Python.
From S2P Require Import Collective.
From S2P Require Import InputModels.
From S2P Require Import Floats.
From S2P Require Import Topology.
From S2P Require Import V5Model.
From S2P Require Import V5Buffers.
From S2P Require Import V5Program.
From S2P Require Import Performance.
From S2P Require Import Mpq.
From S2P Require Import Prediction.
From S2P Require Import PredictionRates.
Local Open Scope Z_scope.

(** ** The definitions *)

(** [{op.operation_id: op for op in storage.instructions}] *)
Definition instructions_by_id (storage : StoragePlan) : list (string * Instruction) :=
  dict_of_list ((λ op, (in_id op, op)) <$> sp_instructions storage).

(** [context.inputs.hyperparameters.slice_size_bytes] *)
Definition slice_payload (inputs : ResolvedInput) : pyval :=
  match slice_size_bytes (ri_hyperparameters inputs) with Some size => PInt size | None => PNone end.

(** The cost component, the resources and the flow of an instruction. *)
Definition work_route (context : LoweringContext) (op : Instruction) (source destination : Address)
    : res (string * list string * option string) :=
  let ranks := (str_of_int (ad_rank source) +:+ ":" +:+ str_of_int (ad_rank destination))%string in
  if decide (in_kind op ∈ ["send"; "rrc"]%string) then
    key ← LinkKey_init (ad_rank source) (ad_rank destination);
    edge ← link (cx_topology context) key;
    Ok (((if decide (in_kind op = "rrc"%string) then "rrc:" else "link:") +:+ ranks)%string,
        sorted_set (("link:" +:+ ranks)%string :: dl_resource_ids edge),
        Some (in_kind op +:+ ":" +:+ ranks +:+ ":c" +:+ str_of_int (in_channel op))%string)
  else Ok ((in_kind op +:+ ":" +:+ str_of_int (in_rank op))%string, [], None).

(** One iteration of the loop over the instructions. *)
Definition work_operation (storage : StoragePlan) (context : LoweringContext)
    (dependencies : list (string * gset string)) (item : string * Instruction) : res WorkOperation :=
  let '(identifier, op) := item in
  key ← input_of op 0;
  source ← address_of storage key;
  destination ← address_of storage (in_output op);
  '(cost_key, resources, flow) ← work_route context op source destination;
  predecessors ← of_option (dict_get identifier dependencies) (KeyError identifier);
  WorkOperation_init identifier (in_kind op) (Some cost_key) (slice_payload (cx_inputs context))
    (sorted_by id (elements predecessors)) resources flow (PFloat (Finite 0)) None.

(** The operations that produce the outputs. *)
Definition output_producers (storage : StoragePlan) : res (list string) :=
  producers ← mapR (λ item,
      value ← of_option (dict_get item.2 (sp_values storage)) (KeyError item.2);
      Ok (va_producer value)) (sp_outputs storage);
  Ok (sorted_set (omap id producers)).

(** [local]: the operations with a step on the rank. *)
Definition rank_operations (program : NativeProgram) (rank : Z) : gset string :=
  list_to_set (block ← filter (λ block, nb_rank block = rank) (np_blocks program);
               ns_operation_id <$> filter (λ step, ns_kind step ≠ "nop"%string) (nb_steps block)).

Definition postscale_id (rank : Z) : string := ("native-postscale:" +:+ str_of_int rank)%string.

(** The division of the outputs of a rank after an average. *)
Definition postscale (program : NativeProgram) (inputs : ResolvedInput) (item : Z * Z)
    : res WorkOperation :=
  let '(rank, count) := item in
  payload ← match slice_size_bytes (ri_hyperparameters inputs) with
            | Some size => Ok (PInt (count * size))
            | None => Err (TypeError "unsupported operand type(s) for NoneType")
            end;
  WorkOperation_init (postscale_id rank) "copy" (Some ("copy:" +:+ str_of_int rank)%string) payload
    (sorted_by id (elements (rank_operations program rank))) [] None (PFloat (Finite 0))
    (Some "estimated"%string).

(** [for rank, count in sorted(program.output_slots.items()): if not count: continue] *)
Definition scaled_outputs (program : NativeProgram) : list (Z * Z) :=
  filter (λ item, item.2 ≠ 0) (sorted_by id (np_output_slots program)).

Definition build_executable (program : NativeProgram) (storage : StoragePlan)
    (context : LoweringContext) (model : CostModel) : res Executable :=
  '(dependencies, endpoints) ← execution_dependencies program;
  let instructions := instructions_by_id storage in
  raise_when (negb (bool_decide ((list_to_set endpoints.*1 : gset string) =
                                 list_to_set instructions.*1)))
    (SemanticError "native program and semantic operations do not have the same coverage");;
  operations ← mapR (work_operation storage context dependencies) instructions;
  outputs ← output_producers storage;
  if decide (cs_reduction_op (ri_collective (cx_inputs context)) = Some "avg"%string) then
    divisions ← mapR (postscale program (cx_inputs context)) (scaled_outputs program);
    Executable_init (operations ++ divisions)
      (Some (wo_operation_id <$> divisions)) (cm_context model)
  else Executable_init operations (Some outputs) (cm_context model).

(** ** What the constructors ensure *)

Lemma WorkOperation_init_fields i k c p d r f n o op :
  WorkOperation_init i k c p d r f n o = Ok op →
  wo_operation_id op = i ∧ work_kind k = Some (wo_kind op) ∧ wo_cost_key op = c ∧
  wo_dependencies op = d ∧ wo_resources op = r ∧ p = PInt (wo_payload_bytes op) ∧
  wo_flow_id op = f ∧ wo_source_override op = o.
Proof.
  unfold WorkOperation_init. intros H.
  do 2 apply bind_Ok in H as (? & _ & H). apply bind_Ok in H as (kind & Hk & H).
  apply bind_Ok in H as (pay & Hp & H). do 6 apply bind_Ok in H as (? & _ & H).
  injection H as <-. simpl.
  apply of_option_Ok in Hk. split_and!; try done. destruct p; try done. by apply bind_Ok in Hp as (? & _ & [= <-]).
Qed.

Lemma Executable_init_operations operations outputs context e :
  Executable_init operations outputs context = Ok e → ex_operations e = operations.
Proof.
  unfold Executable_init. cbv zeta. intros H. do 3 apply bind_Ok in H as (? & _ & H).
  by injection H as <-.
Qed.

Lemma build_executable_valid program storage context model e :
  build_executable program storage context model = Ok e → executable_valid e.
Proof.
  unfold build_executable. intros H. apply bind_Ok in H as ((deps & by_op) & _ & H).
  cbv zeta in H. apply bind_Ok in H as (_ & _ & H). apply bind_Ok in H as (ops & Ho & H).
  apply bind_Ok in H as (outs & _ & H).
  assert (Hops : ∀ op, op ∈ ops → work_valid op).
  { intros op Hop. rewrite mapR_Ok in Ho. destruct (Forall2_elem_r _ _ _ _ Ho Hop) as ((k, i) & _ & E).
    unfold work_operation in E. do 3 apply bind_Ok in E as (? & _ & E).
    apply bind_Ok in E as (((?, ?), ?) & _ & E). apply bind_Ok in E as (? & _ & E).
    by eapply WorkOperation_init_valid. }
  destruct (decide _).
  - apply bind_Ok in H as (divs & Hd & H). eapply Executable_init_valid; [|exact H].
    intros op [Hop|Hop]%elem_of_app; [by apply Hops|]. rewrite mapR_Ok in Hd.
    destruct (Forall2_elem_r _ _ _ _ Hd Hop) as ((r, c) & _ & E).
    unfold postscale in E. apply bind_Ok in E as (? & _ & E). by eapply WorkOperation_init_valid.
  - by eapply Executable_init_valid.
Qed.

(** An instruction becomes the work of its identity, which waits for what the
    native program makes it wait for. *)
Lemma work_operation_fields storage context dependencies k instr op :
  work_operation storage context dependencies (k, instr) = Ok op →
  wo_operation_id op = k ∧ ∃ d, dict_get k dependencies = Some d ∧
    ∀ p, p ∈ wo_dependencies op ↔ p ∈ d.
Proof.
  unfold work_operation. intros E. do 3 apply bind_Ok in E as (? & _ & E).
  apply bind_Ok in E as (((?, ?), ?) & _ & E). apply bind_Ok in E as (d & Hd%of_option_Ok & E).
  apply WorkOperation_init_fields in E as (? & _ & _ & Ed & _). split; [done|]. exists d.
  split; [done|]. intros p. by rewrite Ed, elem_of_sorted_by, elem_of_elements.
Qed.

Lemma build_executable_work program storage context model e :
  build_executable program storage context model = Ok e →
  ∃ dependencies actual, execution_dependencies program = Ok (dependencies, actual) ∧
    ∀ k, k ∈ actual.*1 → ∃ op d, op ∈ ex_operations e ∧ wo_operation_id op = k ∧
      dict_get k dependencies = Some d ∧ ∀ p, p ∈ wo_dependencies op ↔ p ∈ d.
Proof.
  unfold build_executable. intros H. apply bind_Ok in H as ((deps & by_op) & Hdeps & H).
  cbv zeta in H. apply bind_Ok in H as ([] & Hkeys & H). apply raise_when_Ok in Hkeys.
  apply bind_Ok in H as (ops & Ho & H). apply bind_Ok in H as (outs & _ & H). bool_prop.
  exists deps, by_op. split; [done|]. intros k Hk.
  assert (Hin : ∃ op d, op ∈ ops ∧ wo_operation_id op = k ∧ dict_get k deps = Some d ∧
    ∀ p, p ∈ wo_dependencies op ↔ p ∈ d).
  { assert (Hi : k ∈ (instructions_by_id storage).*1) by set_solver.
    apply list_elem_of_fmap in Hi as ((k' & instr) & -> & Hi). rewrite mapR_Ok in Ho.
    destruct (Forall2_elem_l _ _ _ _ Ho Hi) as (op & Hop & E).
    apply work_operation_fields in E as (? & d & ? & ?). by exists op, d. }
  destruct Hin as (op & d & Hop & Hr). exists op, d. split; [|done].
  destruct (decide _).
  - apply bind_Ok in H as (divs & _ & H). apply Executable_init_operations in H as ->.
    apply elem_of_app. by left.
  - by apply Executable_init_operations in H as ->.
Qed.
