(* ===== verification/V5Evaluate.v ===== *)
(** * Evaluation of native candidates ([vericcl/xml/v5_lower.py])

    A candidate is lowered and every dimension of its bundle is checked: the
    text, the dependency graph, the bindings, the launch, the prediction and
    the replay of the plan on the version ledger.  A stored program is read
    back from its sidecar and evaluated again.  A context has its inputs and
    topology in [LoweringContext]; the cost model, the limits of the runtime
    and the digest of the inputs are arguments. *)

From S2P Require Import Prelude.
From S2P Require Import Python.
From S2P Require Import PyInt.
From S2P Require Import Collective.
From S2P Require Import InputModels.
From S2P Require Import Ranges.
From S2P Require Import Versions.
From S2P Require Import VersionSchedule.
From S2P Require Import CheckResult.
From S2P Require Import Floats.
From S2P Require Import Topology.
From S2P Require Import Capacity.
From S2P Require Import Xml.
From S2P Require Import V5Model.
From S2P Require Import V5Buffers.
From S2P Require Import V5Program.
From S2P Require Import V5Lower.
From S2P Require Import Mpq.
From S2P Require Import Performance.
From S2P Require Import Prediction.
From S2P Require Import V5Executable.
From S2P Require Import V5Sidecar.
Local Open Scope Z_scope.

(** ** Limits of a context *)

(** [RuntimeLimits.from_runtime], which [LoweringContext.__post_init__] calls
    when it is given no limits. *)
Definition from_runtime (runtime : pyval) : res RuntimeLimits :=
  limits ← match runtime with
           | PDict d => Ok (default (PDict []) (dict_get "limits"%string d))
           | _ => Err (AttributeError "object has no attribute 'get'")
           end;
  given ← match limits with
          | PDict d => Ok d
          | _ => Err (TypeError "argument after ** must be a mapping")
          end;
  let rows := limit_rows default_limits in
  raise_when (existsb (λ key, bool_decide (key ∉ (λ row, row.1.1.1) <$> rows)) given.*1)
    (TypeError "got an unexpected keyword argument");;
  values ← mapR (λ '(name, minimum, maximum, value),
      let failure := SemanticError (name +:+ " is outside the supported runtime limit")%string in
      match default (PInt value) (dict_get name given) with
      | PInt z => raise_when (negb ((minimum <=? z) && (z <=? maximum))) failure;; Ok z
      | _ => Err failure
      end) rows;
  match values with
  | [a; b; c; d; e; f; g] => Ok (MkRuntimeLimits a b c d e f g)
  | _ => Err (TypeError "missing required argument")
  end.

(** ** Checks *)

Definition DIMENSIONS : list string :=
  ["semantic"; "storage"; "endpoint"; "deadlock"; "xml"; "launch"; "compatibility";
   "prediction"]%string.

(** [status.value] *)
Definition status_value (status : ValidationStatus) : string :=
  match status with
  | NOT_RUN => "not_run" | VALID => "valid" | INVALID => "invalid" | FATAL => "fatal"
  | WARNING => "warning" | ANALYSIS_ERROR => "analysis_error" | FAILED => "failed"
  end.

(** The evidence dictionaries of the checks. *)
Inductive Evidence : Type :=
  | NoEvidence
  | LaunchEvidence (simple_chunk_bytes simple_chunk_multiple : Z) (legacy : bool)
  | PredictionEvidence (missing_components : list string) (model_version : string)
      (estimated_operations : list string) (native_postprocess : bool)
  | SemanticEvidence (evidence : ReplayEvidence).

(** [CheckResult] with such evidence. *)
Record Check_ : Type := MkCheck {
  ck_dimension : string;
  ck_status : ValidationStatus;
  ck_code : string;
  ck_message : string;
  ck_evidence : Evidence;
}.

Definition _check (dimension : string) (status : ValidationStatus) (message : string)
    (evidence : Evidence) : res Check_ :=
  let code := ("v5_" +:+ dimension +:+ "_" +:+ status_value status)%string in
  identifier_field (PStr dimension) "check_result.dimension";;
  identifier_field (PStr code) "check_result.code";;
  identifier_field (PStr message) "check_result.message";;
  Ok (MkCheck dimension status code message evidence).

(** [_check(dimension)] and [_check(dimension, 'invalid', message)] *)
Definition valid (dimension : string) : res Check_ := _check dimension VALID "checked" NoEvidence.
Definition invalid (dimension message : string) : res Check_ :=
  _check dimension INVALID message NoEvidence.

(** [str(error)]: the text of a [KeyError] is the representation of its key. *)
Definition error_text (e : exn) : string :=
  match e with
  | KeyError key => "'" +:+ key +:+ "'"
  | SemanticError m | ValueError m | TypeError m | IndexError m | OverflowError m
  | AttributeError m | InputValidationError m | ZeroDivisionError m => m
  | OutOfFuel => ""
  end.

(** [except SemanticError] and [except (SemanticError, KeyError)] *)
Definition is_semantic (e : exn) : bool := match e with SemanticError _ => true | _ => false end.
Definition is_semantic_or_key (e : exn) : bool :=
  match e with SemanticError _ | KeyError _ => true | _ => false end.

(** [try: m except caught as error]: the error, for the code after it, or the
    value. *)
Definition attempt {A} (caught : exn → bool) (m : res A) : res (exn + A) :=
  match m with
  | Ok a => Ok (inr a)
  | Err e => if caught e then Ok (inl e) else Err e
  end.

(** ** The version schedule of a plan *)

(** [DataRange(s // n, (s % n) * size, (s % n + 1) * size)] *)
Definition source_range (n size s : Z) : res DataRange :=
  rank ← py_floordiv s n;
  logical ← py_mod s n;
  DataRange_init rank (logical * size) ((logical + 1) * size).

Definition value_ranges (n size : Z) (value : Value) : res (list DataRange) :=
  mapR (source_range n size) (sorted_by id (elements (va_contributors value))).

Definition value_of (storage : StoragePlan) (key : string) : res Value :=
  of_option (dict_get key (sp_values storage)) (KeyError key).

(** One iteration of the loop over the initial states. *)
Definition initial_version (storage : StoragePlan) (inputs : ResolvedInput) (key : string)
    : res StateVersion :=
  value ← value_of storage key;
  expected_address ← canonical_region (MkAddress (va_rank value) "i" (va_position value)) inputs;
  address ← address_of storage key;
  actual_address ← canonical_region address inputs;
  raise_when (negb (bool_decide (expected_address = actual_address)))
    (SemanticError "initial state does not use its actual runtime input address");;
  '(n, size) ← slices inputs;
  ranges ← value_ranges n size value;
  StateVersion_init key (va_rank value) (va_position value * size) ((va_position value + 1) * size)
    ranges actual_address (PFloat (Finite 0)).

(** [starts, ends] *)
Definition Times : Type := (gmap string pyfloat * gmap string pyfloat)%type.

(** [max(values, default=0.)] *)
Definition max_float (values : list pyfloat) : pyfloat :=
  match values with [] => Finite 0 | x :: values => foldl float_max x values end.

Section untimed.
Context (work : list (string * WorkOperation)).

Definition dependencies_of (key : string) : res (list string) :=
  op ← of_option (dict_get key work) (KeyError key); Ok (wo_dependencies op).

Definition untimed_step (times : Times) (key : string) : res Times :=
  let '(starts, ends) := times in
  dependencies ← dependencies_of key;
  before ← mapR (λ p, of_option (ends !! p) (KeyError p)) dependencies;
  let start := max_float before in
  Ok (<[key := start]> starts, <[key := float_add start (Finite one_us)]> ends).

(** [set(work[key].dependencies) <= ends.keys()] *)
Definition is_ready (ends : gmap string pyfloat) (key : string) : bool :=
  match dependencies_of key with
  | Ok dependencies => forallb (λ p, bool_decide (is_Some (ends !! p))) dependencies
  | Err _ => false
  end.

Fixpoint untimed_loop (fuel : nat) (pending : list string) (times : Times) : res Times :=
  match fuel with
  | O => Err OutOfFuel
  | S fuel =>
      if decide (pending = []) then Ok times
      else
        let ready := sorted_by id (filter (λ key, Is_true (is_ready times.2 key)) pending) in
        raise_when (bool_decide (ready = []))
          (SemanticError "semantic replay has a dependency cycle");;
        times ← foldM untimed_step times ready;
        untimed_loop fuel (filter (λ key, key ∉ ready) pending) times
  end.
End untimed.

(** [{op.operation_id: op for op in executable.operations}] *)
Definition work_by_id (executable : Executable) : list (string * WorkOperation) :=
  dict_of_list ((λ op, (wo_operation_id op, op)) <$> ex_operations executable).

Definition operation_times (executable : Executable) (prediction : Prediction) : res Times :=
  let work := work_by_id executable in
  match pd_t_pred_us prediction with
  | None => untimed_loop work (S (length work)) work.*1 (∅, ∅)
  | Some _ => Ok (Finite <$> pd_start_times prediction, Finite <$> pd_end_times prediction)
  end.

Definition version_operation (storage : StoragePlan) (inputs : ResolvedInput)
    (work : list (string * WorkOperation)) (times : Times) (op : Instruction)
    : res VersionOperation :=
  address ← address_of storage (in_output op);
  region ← canonical_region address inputs;
  start ← of_option (times.1 !! in_id op) (KeyError (in_id op));
  end_ ← of_option (times.2 !! in_id op) (KeyError (in_id op));
  dependencies ← dependencies_of work (in_id op);
  VersionOperation_init (MkVersionOperation (in_id op)
    (if decide (in_kind op ∈ ["rrc"; "reduce"]%string) then "reduce" else "copy")
    (in_inputs op) (Some (in_output op)) (Some region) (PFloat start) (PFloat end_) (in_stage op)
    dependencies (in_participants op)).

Definition output_binding (size : Z) (item : OutputSlot * string) : res OutputBinding :=
  OutputBinding_init (slot_rank item.1) (slot_offset item.1 * size) item.2.

Definition _version_schedule (storage : StoragePlan) (executable : Executable)
    (prediction : Prediction) (inputs : ResolvedInput) : res VersionSchedule :=
  slice_count (ri_hyperparameters inputs);;
  initial ← mapR (initial_version storage inputs) (sp_initial_ids storage);
  times ← operation_times executable prediction;
  operations ← mapR (version_operation storage inputs (work_by_id executable) times)
    (sp_instructions storage);
  '(_, size) ← slices inputs;
  outputs ← mapR (output_binding size) (sp_outputs storage);
  VersionSchedule_init (MkVersionSchedule (ri_rank_count inputs)
    (total_size_bytes (ri_hyperparameters inputs)) size (sp_stage_count storage)
    initial operations outputs).

(** One iteration of the loop over the states of the ledger. *)
Definition check_stored_state (storage : StoragePlan) (inputs : ResolvedInput) (st : StateVersion)
    : res unit :=
  '(n, size) ← slices inputs;
  let differs := SemanticError "stored version and abstract state identity differ" in
  value ← of_option (dict_get (sv_id st) (sp_values storage)) differs;
  raise_when (negb (bool_decide ((sv_rank st, sv_start st, sv_end st) =
      (va_rank value, va_position value * size, (va_position value + 1) * size)))) differs;;
  expected ← value_ranges n size value;
  raise_when (negb (bool_decide (sv_contributors st = expected)))
    (SemanticError "stored version has different source contributions").

Definition check_stored_output (ledger : VersionLedger) (inputs : ResolvedInput)
    (item : OutputSlot * string) : res unit :=
  st ← state ledger item.2;
  expected ← canonical_region (MkAddress (slot_rank item.1) "o" (slot_offset item.1)) inputs;
  raise_when (negb (bool_decide (sv_storage st = expected)))
    (SemanticError "final result is not in the actual runtime output address").

Definition _check_storage_values (storage : StoragePlan) (version : VersionSchedule)
    (inputs : ResolvedInput) : res ReplayEvidence :=
  '(ledger, evidence) ← replay_version_schedule version inputs;
  iterM (check_stored_state storage inputs) (states ledger);;
  iterM (check_stored_output ledger inputs) (sp_outputs storage);;
  Ok evidence.

(** ** The text of the program *)

(** What the code relies on of [lxml.etree] and of [hashlib]: parsing without
    entities and blank text, the document type and the canonical form of a
    document, and digests. *)
Class XmlDocuments : Type := {
  Document : Type;
  parse_document : string → option Document;
  has_doctype : Document → bool;
  canonical_form : Document → string;
}.
Class Digest : Type := { sha256 : string → string }.

(** ** Bundles *)

(** [StorageCandidate], or a candidate to be planned. *)
Inductive Candidate : Type :=
  | Planned (storage_plan : StoragePlan)
  | Network (candidate : NetworkCandidate).

(** [CandidateBundle.source]: a candidate, [('xml', digest)] or [('xml',)]. *)
Inductive Source : Type :=
  | FromCandidate (candidate : Candidate)
  | FromXml (digest : pyval)
  | FromInvalidXml.

Notation Checks := (list (string * Check_)).

Record CandidateBundle : Type := MkCandidateBundle {
  cb_source : Source;
  cb_xml_text : option string;
  cb_xml_sha256 : option string;
  cb_sidecar : pyval;
  cb_program : option NativeProgram;
  cb_version_schedule : option VersionSchedule;
  cb_executable : option Executable;
  cb_prediction : option Prediction;
  cb_checks : Checks;
  cb_capacity_report : option CapacityReport;
  cb_storage_plan : option StoragePlan;
}.

(** [self.checks[key].status.value] *)
Definition check_status (checks : Checks) (key : string) : res ValidationStatus :=
  check ← of_option (dict_get key checks) (KeyError key); Ok (ck_status check).

Definition required_dimensions : list string :=
  ["semantic"; "storage"; "endpoint"; "deadlock"; "xml"; "launch"; "prediction"]%string.

Definition can_execute (self : CandidateBundle) : res bool :=
  let checks := cb_checks self in
  if forallb (λ key, match dict_get key checks with
                     | Some check => bool_decide (ck_status check = VALID)
                     | None => false
                     end) required_dimensions
  then status ← check_status checks "compatibility";
       Ok (bool_decide (status ∈ [VALID; NOT_RUN]))
  else Ok false.

(** [int(value)] *)
Definition int_value (value : pyval) : res Z :=
  match value with
  | PInt z => Ok z
  | PBool b => Ok (Z.b2z b)
  | PFloat (Finite t) => Ok (Z.quot t one_us)
  | PFloat NaN => Err (ValueError "cannot convert float NaN to integer")
  | PFloat _ => Err (OverflowError "cannot convert float infinity to integer")
  | PStr text => of_option (py_int text) (ValueError "invalid literal for int() with base 10")
  | _ => Err (TypeError "int() argument must be a string or a number")
  end.

(** [DATATYPE_BYTES] of [vericcl/input/schema.py] *)
Definition DATATYPE_BYTES : list (string * Z) :=
  [("float16", 2); ("float32", 4); ("float64", 8); ("bfloat16", 2); ("int8", 1); ("uint8", 1);
   ("int32", 4); ("uint32", 4); ("int64", 8); ("uint64", 8)]%string.

Section evaluation.
Context `{MpqLibrary} `{XmlLibrary} `{XmlDocuments} `{Digest}.
Context (context : LoweringContext) (model : CostModel) (limits : RuntimeLimits).
Context (input_sha256 : string).
Let inputs := cx_inputs context.

Definition _validate_xml_text (xml_text : string) (program : NativeProgram) : res unit :=
  let malformed := SemanticError "XML is not well formed" in
  received ← of_option (parse_document xml_text) malformed;
  emitted ← attempt (λ e, match e with ValueError _ => true | _ => false end)
              (emit_native_xml program inputs);
  text ← match emitted with inl _ => Err malformed | inr text => Ok text end;
  expected ← of_option (parse_document text) malformed;
  raise_when (has_doctype received) (SemanticError "native XML cannot declare a DTD");;
  raise_when (negb (bool_decide (canonical_form received = canonical_form expected)))
    (SemanticError "XML structure or fields disagree with the physical step sidecar").

(** The checks on a supplied sidecar. *)
Definition check_sidecar (sidecar : pyval) (xml_hash : string) : res unit :=
  version ← py_getitem sidecar "schema_version";
  differs ← (if negb (py_eqb version (PInt 5)) then Ok true
             else hash ← py_getitem sidecar "xml_sha256"; Ok (negb (py_eqb hash (PStr xml_hash))));
  raise_when differs (SemanticError "XML/sidecar hash or schema version differs");;
  hash ← py_getitem sidecar "input_sha256";
  raise_when (negb (py_eqb hash (PStr input_sha256)))
    (SemanticError "sidecar input identity differs from this request");;
  contract ← py_getitem sidecar "request_contract";
  raise_when match contract with
             | PDict d => match dict_get "slice_bytes"%string d with Some (PInt _) => false | _ => true end
             | _ => true
             end (SemanticError "sidecar slice size must be an integer");;
  raise_when (negb (py_eqb contract (_request_contract inputs)))
    (SemanticError "sidecar effective runtime request differs").

(** The first [try] of [evaluate_program]. *)
Definition xml_check (supplied : option pyval) (xml_text : string) (program : NativeProgram)
    : res Check_ :=
  outcome ← attempt is_semantic_or_key
    (match supplied with
     | Some sidecar => check_sidecar sidecar (sha256 xml_text)
     | None => Ok tt
     end;;
     _validate_xml_text xml_text program);
  match outcome with
  | inl e => invalid "xml" (error_text e)
  | inr _ => valid "xml"
  end.

(** The second [try]: the executable, with the checks that it changes. *)
Definition endpoint_check (storage : StoragePlan) (program : NativeProgram) (checks : Checks)
    : res (option Executable * Checks) :=
  outcome ← attempt is_semantic (execution_dependencies program);
  match outcome with
  | inl e =>
      check ← invalid "deadlock" (error_text e);
      Ok (None, dict_set "deadlock"%string check checks)
  | inr _ =>
      deadlock ← valid "deadlock";
      let checks := dict_set "deadlock"%string deadlock checks in
      outcome ← attempt is_semantic
        (_validate_bindings program storage;; build_executable program storage context model);
      match outcome with
      | inl e =>
          check ← invalid "endpoint" (error_text e);
          Ok (None, dict_set "endpoint"%string check checks)
      | inr executable =>
          endpoint ← valid "endpoint";
          Ok (Some executable, dict_set "endpoint"%string endpoint checks)
      end
  end.

(** [int(inputs.request_config['runtime']['environment']['NCCL_BUFFSIZE'])] *)
Definition buffer_size : res Z :=
  runtime ← py_getitem (ri_request_config inputs) "runtime";
  environment ← py_getitem runtime "environment";
  value ← py_getitem environment "NCCL_BUFFSIZE";
  int_value value.

(** The launch checks after the capacity report. *)
Definition launch_geometry_check (storage : StoragePlan) (program : NativeProgram)
    (capacity : CapacityReport) : res Check_ :=
  let kind := cs_kind (ri_collective inputs) in
  let datatype := cs_datatype (ri_collective inputs) in
  _launch_geometry program storage context;;
  buffsize ← buffer_size;
  element ← of_option (dict_get datatype DATATYPE_BYTES) (KeyError datatype);
  payload ← simple_payload_capacity buffsize element;
  size ← of_option (slice_size_bytes (ri_hyperparameters inputs))
           (TypeError "'<' not supported between instances of 'int' and 'NoneType'");
  raise_when (payload <? size)
    (SemanticError "NCCL_BUFFSIZE cannot hold one whole Simple slice");;
  '(chunk, granule, geometry_valid) ← simple_chunk_geometry buffsize element;
  raise_when (negb geometry_valid)
    (SemanticError ("NCCL_BUFFSIZE gives a " +:+ str_of_int chunk +:+
      "-byte Simple chunk; the pinned MSCCL launch requires a multiple of " +:+
      str_of_int granule +:+ " bytes for " +:+ datatype));;
  raise_when (negb (compatible capacity))
    (SemanticError ("runtime capacity: " +:+
       String.concat ", " (sorted_set (cv_code <$> capacity))));;
  legacy ← (if decide (kind ∈ [ALL_GATHER; BROADCAST])
            then geometry ← simple_chunk_geometry buffsize 1; Ok geometry.2
            else Ok geometry_valid);
  _check "launch" VALID "checked" (LaunchEvidence chunk granule legacy).

(** The third [try]: the capacity report and the launch check. *)
Definition launch_check (storage : StoragePlan) (program : NativeProgram)
    : res (option CapacityReport * Check_) :=
  outcome ← attempt is_semantic (_capacity program context limits);
  match outcome with
  | inl e => check ← invalid "launch" (error_text e); Ok (None, check)
  | inr capacity =>
      outcome ← attempt is_semantic (launch_geometry_check storage program capacity);
      match outcome with
      | inl e => check ← invalid "launch" (error_text e); Ok (Some capacity, check)
      | inr check => Ok (Some capacity, check)
      end
  end.

(** [inputs.request_config['sketch']['runtime_compatibility']['enabled']] *)
Definition compatibility_enabled : res bool :=
  sketch ← py_getitem (ri_request_config inputs) "sketch";
  runtime_compatibility ← py_getitem sketch "runtime_compatibility";
  enabled ← py_getitem runtime_compatibility "enabled";
  Ok (py_truthy enabled).

Definition compatibility_check (launch : Check_) (checks : Checks) : res Checks :=
  enabled ← compatibility_enabled;
  if enabled : bool then
    check ← _check "compatibility" (ck_status launch) (ck_message launch) NoEvidence;
    Ok (dict_set "compatibility"%string check checks)
  else Ok checks.

(** [checks['prediction']] for a prediction. *)
Definition prediction_check (executable : Executable) (prediction : Prediction) : res Check_ :=
  let complete := bool_decide (is_Some (pd_t_pred_us prediction)) in
  _check "prediction" (if complete then VALID else INVALID)
    (if complete then "complete dynamic replay" else "cost coverage is incomplete")
    (PredictionEvidence (sorted_keys (pd_missing_components prediction))
       (pd_model_version prediction)
       (wo_operation_id <$> filter (λ op, nonempty_text (wo_source_override op))
          (ex_operations executable))
       (bool_decide (cs_reduction_op (ri_collective inputs) = Some "avg"%string))).

(** The comparison with the version schedule of a supplied sidecar. *)
Definition check_recorded (sidecar : pyval) (version : VersionSchedule) : res unit :=
  recorded ← py_getitem sidecar "version_schedule";
  recorded ← json_copy recorded;
  recorded ← without_times recorded;
  rebuilt ← without_times (version_document version);
  raise_when (negb (py_eqb recorded rebuilt))
    (SemanticError "semantic sidecar differs from replayed native state mapping").

(** The replay of the plan, after its prediction. *)
Definition semantic_check (supplied : option pyval) (storage : StoragePlan) (executable : Executable)
    (prediction : Prediction) (checks : Checks) : res (option VersionSchedule * Checks) :=
  let failed version e :=
    check ← invalid "semantic" (error_text e);
    Ok (version, dict_set "semantic"%string check checks) in
  scheduled ← attempt is_semantic_or_key (_version_schedule storage executable prediction inputs);
  match scheduled with
  | inl e => failed None e
  | inr version =>
      replayed ← attempt is_semantic_or_key
        (evidence ← _check_storage_values storage version inputs;
         match supplied with Some sidecar => check_recorded sidecar version | None => Ok tt end;;
         Ok evidence);
      match replayed with
      | inl e => failed (Some version) e
      | inr evidence =>
          semantic ← _check "semantic" VALID "checked" (SemanticEvidence evidence);
          stored ← valid "storage";
          Ok (Some version,
              dict_set "storage"%string stored (dict_set "semantic"%string semantic checks))
      end
  end.

(** The last [try] of [evaluate_program]. *)
Definition prediction_checks (supplied : option pyval) (storage : StoragePlan)
    (executable : Executable) (checks : Checks)
    : res (option Prediction * option VersionSchedule * Checks) :=
  predicted ← attempt is_semantic_or_key (predict executable model);
  match predicted with
  | inl e =>
      check ← invalid "prediction" (error_text e);
      Ok (None, None, dict_set "prediction"%string check checks)
  | inr prediction =>
      check ← prediction_check executable prediction;
      '(version, checks) ← semantic_check supplied storage executable prediction
                             (dict_set "prediction"%string check checks);
      Ok (Some prediction, version, checks)
  end.

(** [{key: _check(key, 'not_run', message) for key in DIMENSIONS}] *)
Definition pending_checks (message : string) : res Checks :=
  mapR (λ key, check ← _check key NOT_RUN message NoEvidence; Ok (key, check)) DIMENSIONS.

(** The sidecar of an evaluated program. *)
Definition new_sidecar (storage : StoragePlan) (program : NativeProgram) (xml_hash : string)
    (version : option VersionSchedule) : pyval :=
  PDict [("schema_version", PInt 5); ("xml_sha256", PStr xml_hash);
         ("input_sha256", PStr input_sha256); ("request_contract", _request_contract inputs);
         ("model_version", PStr (cm_version model)); ("program", _serialize_program program);
         ("storage", _serialize_storage storage);
         ("storage_reuse", PList (reuse_document <$> sp_reuse storage));
         ("version_schedule", match version with Some v => version_document v | None => PNone end);
         ("reference_orders_omitted", PList (omitted_document <$> sp_omitted storage))]%string.

Definition evaluate_program (source : Source) (storage : StoragePlan) (program : NativeProgram)
    (xml_text : string) (supplied : option pyval) : res CandidateBundle :=
  checks ← pending_checks "prerequisite pending";
  let xml_hash := sha256 xml_text in
  xml ← xml_check supplied xml_text program;
  '(executable, checks) ← endpoint_check storage program (dict_set "xml"%string xml checks);
  '(capacity, launch) ← launch_check storage program;
  checks ← compatibility_check launch (dict_set "launch"%string launch checks);
  '(prediction, version, checks) ←
    match executable with
    | Some executable => prediction_checks supplied storage executable checks
    | None => Ok (None, None, checks)
    end;
  Ok (MkCandidateBundle source (Some xml_text) (Some xml_hash)
        (default (new_sidecar storage program xml_hash version) supplied) (Some program) version
        executable prediction checks capacity (Some storage)).

Definition candidate_storage (candidate : Candidate) : res StoragePlan :=
  match candidate with
  | Planned storage => Ok storage
  | Network candidate => build_storage_plan candidate context
  end.

(** The bundle of a candidate that cannot be lowered. *)
Definition rejected_candidate (candidate : Candidate) (e : exn) : res CandidateBundle :=
  checks ← pending_checks "lowering prerequisite pending";
  check ← invalid "storage" (error_text e);
  Ok (MkCandidateBundle (FromCandidate candidate) None None (PDict []) None None None None
        (dict_set "storage"%string check checks) None None).

Definition lower_and_check (candidate : Candidate) : res CandidateBundle :=
  lowered ← attempt is_semantic
    (storage ← candidate_storage candidate;
     program ← lower_program storage context;
     text ← emit_native_xml program inputs;
     Ok (storage, program, text));
  match lowered with
  | inl e => rejected_candidate candidate e
  | inr (storage, program, text) => evaluate_program (FromCandidate candidate) storage program text None
  end.

(** ** Stored programs *)

Definition rejected_xml_bundle (xml_text : string) (sidecar : pyval) (reason : exn)
    : res CandidateBundle :=
  checks ← pending_checks "invalid artifact prerequisite";
  check ← invalid "xml" (error_text reason);
  Ok (MkCandidateBundle FromInvalidXml (Some xml_text) None sidecar None None None None
        (dict_set "xml"%string check checks) None None).

(** [except (SemanticError, KeyError, ValueError, TypeError)] *)
Definition is_malformed (e : exn) : bool :=
  match e with SemanticError _ | KeyError _ | ValueError _ | TypeError _ => true | _ => false end.

(** [sidecar.get('xml_sha256')] *)
Definition recorded_digest (sidecar : pyval) : res pyval :=
  match sidecar with
  | PDict d => Ok (default PNone (dict_get "xml_sha256"%string d))
  | _ => Err (AttributeError "object has no attribute 'get'")
  end.

Definition check_xml_bundle (xml_text : string) (sidecar : pyval) : res CandidateBundle :=
  outcome ← attempt is_malformed
    (raw_storage ← py_getitem sidecar "storage";
     storage ← _deserialize_storage raw_storage;
     raw_program ← py_getitem sidecar "program";
     program ← _deserialize_program raw_program;
     digest ← recorded_digest sidecar;
     evaluate_program (FromXml digest) storage program xml_text (Some sidecar));
  match outcome with
  | inl e => rejected_xml_bundle xml_text sidecar e
  | inr bundle => Ok bundle
  end.
End evaluation.
