(* ===== verification/V5Exec.v ===== *)
(** * Executions of a storage plan

    What a storage plan promises: its instructions run on the memory of the
    ranks, a transfer as a send on one rank and a receive on another, in any
    order that keeps every dependency between operations on a common rank.  The
    conditions of [plan_ok] make every such execution compute the values that
    the plan declares. *)

From stdpp Require Import gmultiset.
From S2P Require Import Prelude.
From S2P Require Import Python.
From S2P Require Import Collective.
From S2P Require Import InputModels.
From S2P Require Import Versions.
From S2P Require Import V5Model.
From S2P Require Import V5Buffers.
Local Open Scope Z_scope.

(** A slice of storage: rank, buffer and offset. *)
Notation Cell := (Z * string * Z)%type.

(** The sum of one contribution per slice. *)
Definition contents (contributors : gset Z) : gmultiset Z :=
  list_to_set_disj (elements contributors).

Lemma contents_union (a b : gset Z) : a ∩ b = ∅ → contents (a ∪ b) = contents a ⊎ contents b.
Proof.
  intros Hd. unfold contents. rewrite elements_disj_union by set_solver.
  apply list_to_set_disj_app.
Qed.

(** The two ends of a transfer; a copy has only a target. *)
Inductive Endpoint : Type := Source | Target.
#[export] Instance Endpoint_eq_dec : EqDecision Endpoint.
Proof. solve_decision. Defined.
#[export] Program Instance Endpoint_countable : Countable Endpoint :=
  inj_countable' (λ e, match e with Source => true | Target => false end)
    (λ b : bool, if b then Source else Target) _.
Next Obligation. by intros []. Qed.

Definition has_endpoint (op : Instruction) (e : Endpoint) : Prop :=
  match e with Source => in_kind op ≠ "copy"%string | Target => True end.

Definition endpoint_rank (op : Instruction) (e : Endpoint) : Z :=
  match e with Source => in_peer op | Target => in_rank op end.

Definition at_rank (op : Instruction) (rank : Z) : Prop :=
  ∃ e, has_endpoint op e ∧ endpoint_rank op e = rank.

(** The completed endpoints, the memory and the messages under way. *)
Record PlanState : Type := MkPlanState {
  ps_done : gset (string * Endpoint);
  ps_memory : gmap Cell (gmultiset Z);
  ps_messages : gmap string (gmultiset Z);
}.

(** [p] precedes [q] in a list. *)
Definition before {A} (l : list A) (p q : A) : Prop :=
  ∃ i j, (i < j)%nat ∧ l !! i = Some p ∧ l !! j = Some q.

Lemma before_total {A} (l : list A) p q : p ∈ l → q ∈ l → p = q ∨ before l p q ∨ before l q p.
Proof.
  intros [i Hi]%list_elem_of_lookup [j Hj]%list_elem_of_lookup.
  destruct (Nat.lt_trichotomy i j) as [?|[->|?]]; [right; left| left; congruence |right; right].
  - by exists i, j.
  - by exists j, i.
Qed.

Lemma before_elem {A} (l : list A) p q : before l p q → p ∈ l ∧ q ∈ l.
Proof. intros (i & j & _ & Hi & Hj). split; by eapply list_elem_of_lookup_2. Qed.

Section execution.
Context (inputs : ResolvedInput) (plan : StoragePlan).

Notation instructions := (sp_instructions plan).

(** The storage of an address, and of a state of the plan. *)
Definition address_cell (address : Address) : option Cell :=
  match canonical_region address inputs with
  | Ok region => Some (region_key region)
  | Err _ => None
  end.

Definition cell_of (id : string) : option Cell :=
  address ← dict_get id (sp_addresses plan); address_cell address.

Definition contributors_of (id : string) : gset Z :=
  default ∅ (va_contributors <$> dict_get id (sp_values plan)).

(** An endpoint waits for the endpoints, on its rank, of the operations that its
    operation depends on. *)
Definition may_run (s : PlanState) (op : Instruction) (e : Endpoint) : Prop :=
  (in_id op, e) ∉ ps_done s ∧
  ∀ j e', j ∈ instructions → in_id j ∈ in_dependencies op → has_endpoint j e' →
    endpoint_rank j e' = endpoint_rank op e → (in_id j, e') ∈ ps_done s.

Inductive plan_step (s : PlanState) : PlanState → Prop :=
  | plan_send op key cell m :
      op ∈ instructions → in_kind op ≠ "copy"%string → may_run s op Source →
      in_inputs op !! 0%nat = Some key → cell_of key = Some cell → ps_memory s !! cell = Some m →
      plan_step s (MkPlanState ({[(in_id op, Source)]} ∪ ps_done s) (ps_memory s)
                     (<[in_id op := m]> (ps_messages s)))
  | plan_receive op m target :
      op ∈ instructions → in_kind op = "send"%string → may_run s op Target →
      ps_messages s !! in_id op = Some m → cell_of (in_output op) = Some target →
      plan_step s (MkPlanState ({[(in_id op, Target)]} ∪ ps_done s)
                     (<[target := m]> (ps_memory s)) (ps_messages s))
  | plan_reduce op m key cell n target :
      op ∈ instructions → in_kind op = "rrc"%string → may_run s op Target →
      ps_messages s !! in_id op = Some m →
      in_inputs op !! 1%nat = Some key → cell_of key = Some cell → ps_memory s !! cell = Some n →
      cell_of (in_output op) = Some target →
      plan_step s (MkPlanState ({[(in_id op, Target)]} ∪ ps_done s)
                     (<[target := m ⊎ n]> (ps_memory s)) (ps_messages s))
  | plan_copy op key cell m target :
      op ∈ instructions → in_kind op = "copy"%string → may_run s op Target →
      in_inputs op !! 0%nat = Some key → cell_of key = Some cell → ps_memory s !! cell = Some m →
      cell_of (in_output op) = Some target →
      plan_step s (MkPlanState ({[(in_id op, Target)]} ∪ ps_done s)
                     (<[target := m]> (ps_memory s)) (ps_messages s)).

(** Nothing has run and every initial state is in place; other storage holds
    anything. *)
Definition plan_start (s : PlanState) : Prop :=
  ps_done s = ∅ ∧ ps_messages s = ∅ ∧
  ∀ id c, id ∈ sp_initial_ids plan → cell_of id = Some c →
    ps_memory s !! c = Some (contents (contributors_of id)).

Definition plan_finished (s : PlanState) : Prop :=
  ∀ op e, op ∈ instructions → has_endpoint op e → (in_id op, e) ∈ ps_done s.

(** A direct dependency that both operations see on [rank]. *)
Definition local_dependency (rank : Z) (j i : Instruction) : Prop :=
  j ∈ instructions ∧ i ∈ instructions ∧ in_id j ∈ in_dependencies i ∧
  at_rank j rank ∧ at_rank i rank.

Definition accesses (op : Instruction) (id : string) : Prop :=
  in_output op = id ∨ id ∈ in_inputs op.

(** [q] writes after the state [u] exists. *)
Definition later (u : string) (q : Instruction) : Prop :=
  q ∈ instructions ∧
  (u ∈ sp_initial_ids plan ∨ ∃ p, in_output p = u ∧ before instructions p q).

(** The operands of an operation, their storage and the value it computes. *)
Definition computes (op : Instruction) : Prop :=
  ∃ c0 key c, in_inputs op !! 0%nat = Some key ∧ cell_of key = Some c0 ∧
    cell_of (in_output op) = Some c ∧ c.1.1 = in_rank op ∧
    if decide (in_kind op = "copy"%string) then
      in_inputs op = [key] ∧ c0.1.1 = in_rank op ∧
      contributors_of (in_output op) = contributors_of key
    else
      c0.1.1 = in_peer op ∧ in_peer op ≠ in_rank op ∧
      if decide (in_kind op = "rrc"%string) then
        ∃ acc c1, in_inputs op = [key; acc] ∧ cell_of acc = Some c1 ∧ c1.1.1 = in_rank op ∧
          contributors_of key ∩ contributors_of acc = ∅ ∧
          contributors_of (in_output op) = contributors_of key ∪ contributors_of acc
      else
        in_kind op = "send"%string ∧ in_inputs op = [key] ∧
        contributors_of (in_output op) = contributors_of key.

Record plan_ok : Prop := {
  po_ids : NoDup (in_id <$> instructions);
  po_outputs : NoDup (in_output <$> instructions);
  po_fresh op : op ∈ instructions → in_output op ∉ sp_initial_ids plan;
  po_initial_cells u v c : u ∈ sp_initial_ids plan → v ∈ sp_initial_ids plan →
    cell_of u = Some c → cell_of v = Some c → u = v;
  po_order i op d : instructions !! i = Some op → d ∈ in_dependencies op →
    ∃ j p, (j < i)%nat ∧ instructions !! j = Some p ∧ in_id p = d;
  po_computes op : op ∈ instructions → computes op;
  po_available op key : op ∈ instructions → key ∈ in_inputs op →
    key ∈ sp_initial_ids plan ∨
    ∃ p, p ∈ instructions ∧ in_output p = key ∧ in_id p ∈ in_dependencies op;
  (** Storage is written again only after all accesses to its former state. *)
  po_hazards u q r c : later u q → in_output q ≠ u → cell_of u = Some c →
    cell_of (in_output q) = Some c → r ∈ instructions → accesses r u →
    r = q ∨ tc (local_dependency c.1.1) r q;
}.
End execution.
