(* ===== verification/V5ExecLaws.v ===== *)
(** * Every execution of a storage plan computes its values *)

From stdpp Require Import gmultiset.
From S2P Require Import Prelude.
From S2P Require Import Python.
From S2P Require Import Collective.
From S2P Require Import InputModels.
From S2P Require Import V5Model.
From S2P Require Import V5Buffers.
From S2P Require Import V5Exec.
Local Open Scope Z_scope.

Section laws.
Context (inputs : ResolvedInput) (plan : StoragePlan) (Hok : plan_ok inputs plan).

Notation instructions := (sp_instructions plan).
Notation cell_of := (cell_of inputs plan).
Notation contributors_of := (contributors_of plan).
Notation later := (later plan).
Notation local_dependency := (local_dependency plan).

Lemma instruction_ids p q : p ∈ instructions → q ∈ instructions → in_id p = in_id q → p = q.
Proof. apply NoDup_fmap_elem, (po_ids _ _ Hok). Qed.

Lemma instruction_outputs p q :
  p ∈ instructions → q ∈ instructions → in_output p = in_output q → p = q.
Proof. apply NoDup_fmap_elem, (po_outputs _ _ Hok). Qed.

Lemma instructions_nodup : NoDup instructions.
Proof. apply (NoDup_fmap_1 in_id), (po_ids _ _ Hok). Qed.

(** No endpoint runs before the local endpoints it depends on, directly or not. *)
Record plan_inv (s : PlanState) : Prop := {
  iv_closed op e j e' : op ∈ instructions → j ∈ instructions → (in_id op, e) ∈ ps_done s →
    in_id j ∈ in_dependencies op → has_endpoint j e' → endpoint_rank j e' = endpoint_rank op e →
    (in_id j, e') ∈ ps_done s;
  iv_messages op key m : op ∈ instructions → ps_messages s !! in_id op = Some m →
    in_inputs op !! 0%nat = Some key → m = contents (contributors_of key);
  iv_memory u c : cell_of u = Some c →
    (u ∈ sp_initial_ids plan ∨
     ∃ p, p ∈ instructions ∧ in_output p = u ∧ (in_id p, Target) ∈ ps_done s) →
    (∀ q, later u q → in_output q ≠ u → cell_of (in_output q) = Some c →
       (in_id q, Target) ∉ ps_done s) →
    ps_memory s !! c = Some (contents (contributors_of u));
}.

Lemma start_inv s : plan_start inputs plan s → plan_inv s.
Proof.
  intros (Hd & Hm & Hi). split.
  - intros op e j e' _ _ H. by rewrite Hd in H.
  - intros op key m _ H. by rewrite Hm in H.
  - intros u c Hc [Hu|(p & _ & _ & H)] _; [by apply Hi|]. by rewrite Hd in H.
Qed.

Lemma closed_path s r a b e :
  plan_inv s → tc (local_dependency r) a b → (in_id b, e) ∈ ps_done s → has_endpoint b e →
  endpoint_rank b e = r → ∀ e', has_endpoint a e' → endpoint_rank a e' = r →
  (in_id a, e') ∈ ps_done s.
Proof.
  intros Hinv Htc Hb Hbe Hbr. revert e Hb Hbe Hbr. revert b Htc.
  apply (tc_ind_r (R := local_dependency r) (λ b, ∀ e, (in_id b, e) ∈ ps_done s →
    has_endpoint b e → endpoint_rank b e = r → ∀ e', has_endpoint a e' →
    endpoint_rank a e' = r → (in_id a, e') ∈ ps_done s)).
  - intros b (Ha & Hb & Hd & _) e Hdone _ He e' Ha' He'.
    eapply (iv_closed _ Hinv b e); [done..|congruence].
  - intros b c _ (Hb & Hc & Hd & (eb & Hbe & Hbr) & _) IH e Hdone _ He e' Ha' He'.
    eapply (IH eb); [|done..]. eapply (iv_closed _ Hinv c e); [done..|congruence].
Qed.

(** The storage of the results lies on the rank of the target. *)
Lemma output_rank op c :
  op ∈ instructions → cell_of (in_output op) = Some c → c.1.1 = in_rank op.
Proof.
  intros Hop Hc. destruct (po_computes _ _ Hok op Hop) as (c0 & key & c' & _ & _ & Hc' & Hr & _).
  congruence.
Qed.

Lemma transfer_ranks op : op ∈ instructions → in_kind op ≠ "copy"%string → in_peer op ≠ in_rank op.
Proof.
  intros Hop Hk. destruct (po_computes _ _ Hok op Hop) as (c0 & key & c' & _ & _ & _ & _ & H).
  rewrite decide_False in H by done. tauto.
Qed.

(** An endpoint that may run finds the value of its operand. *)
Lemma read_correct s op e key c :
  plan_inv s → op ∈ instructions → may_run plan s op e → has_endpoint op e →
  key ∈ in_inputs op → cell_of key = Some c → c.1.1 = endpoint_rank op e →
  ps_memory s !! c = Some (contents (contributors_of key)).
Proof.
  intros Hinv Hop [Hnew Hwait] He Hkey Hc Hr. apply (iv_memory _ Hinv); [done| |].
  - destruct (po_available _ _ Hok op key Hop Hkey) as [?|(p & Hp & Ho & Hd)]; [by left|right].
    exists p. split; [done|]. split; [done|]. apply Hwait; [done..|]. simpl.
    rewrite <- Hr. symmetry. apply output_rank; [done|]. by rewrite Ho.
  - intros q Hq Hne Hcq Hdone. destruct Hq as [Hqi Hq].
    destruct (po_hazards _ _ Hok key q op c) as [<-|Htc]; [by split|done..|by right| |].
    + destruct e; [|done]. apply (transfer_ranks op Hop He). simpl in Hr. rewrite <- Hr.
      by apply output_rank.
    + apply Hnew. eapply (closed_path s c.1.1 op q Target); try done.
      symmetry. by apply output_rank.
Qed.

(** The writes of a target endpoint. *)
Lemma write_correct s q c m messages :
  plan_inv s → q ∈ instructions → may_run plan s q Target → cell_of (in_output q) = Some c →
  m = contents (contributors_of (in_output q)) →
  (∀ op key m, op ∈ instructions → messages !! in_id op = Some m →
    in_inputs op !! 0%nat = Some key → m = contents (contributors_of key)) →
  plan_inv (MkPlanState ({[(in_id q, Target)]} ∪ ps_done s) (<[c := m]> (ps_memory s)) messages).
Proof.
  intros Hinv Hq [Hnew Hwait] Hc Hm Hmsg. split; cbn [ps_done ps_memory ps_messages]; [|done|].
  - intros op e j e' Hop Hj Hin Hd He' Hr. apply elem_of_union. right.
    apply elem_of_union in Hin as [E%elem_of_singleton|Hin].
    + injection E as E ->. apply instruction_ids in E as ->; [|done..]. by apply Hwait.
    + by eapply (iv_closed _ Hinv op e).
  - intros u c' Hc' Hu Hlater. destruct (decide (in_output q = u)) as [<-|Hne].
    { assert (c' = c) as -> by congruence. by rewrite lookup_insert_eq, Hm. }
    assert (Hu' : u ∈ sp_initial_ids plan ∨
      ∃ p, p ∈ instructions ∧ in_output p = u ∧ (in_id p, Target) ∈ ps_done s).
    { destruct Hu as [?|(p & Hp & Ho & [E%elem_of_singleton|Hd]%elem_of_union)]; [by left| |right; eauto].
      injection E as E. apply instruction_ids in E as ->; done. }
    destruct (decide (c' = c)) as [->|Hcc].
    + exfalso. assert (Hlq : ¬ later u q).
      { intros Hl. eapply (Hlater q Hl Hne Hc). apply elem_of_union. left. by apply elem_of_singleton. }
      destruct Hu' as [Hu'|(p & Hp & Ho & Hd)]; [apply Hlq; split; [done|by left]|].
      destruct (before_total _ p q Hp Hq) as [->|[Hb|Hb]]; [done| |].
      * apply Hlq. split; [done|]. right. by exists p.
      * destruct (po_hazards _ _ Hok (in_output q) p q c) as [->|Htc]; try done.
        { split; [done|]. right. by exists q. }
        { by rewrite Ho. }
        { by rewrite Ho. }
        { by left. }
        apply Hnew. assert (Hcp : cell_of (in_output p) = Some c) by (by rewrite Ho).
        eapply (closed_path s c.1.1 q p Target); try done; simpl; symmetry; by apply output_rank.
    + rewrite lookup_insert_ne by done. apply (iv_memory _ Hinv); [done|done|].
      intros q' Hl Hq' Hcq' Hd. eapply Hlater; [done..|]. apply elem_of_union. by right.
Qed.

Lemma step_inv s s' : plan_inv s → plan_step inputs plan s s' → plan_inv s'.
Proof.
  intros Hinv Hs. destruct Hs as [op key c m Hop Hk Hrun Hkey Hc Hm|op m t Hop Hk Hrun Hmsg Ht
    |op m key c n t Hop Hk Hrun Hmsg Hkey Hc Hn Ht|op key c m t Hop Hk Hrun Hkey Hc Hm Ht];
    destruct (po_computes _ _ Hok op Hop) as (c0 & key0 & c' & H0 & Hc0 & Hout & Hr & Hcomp).
  - rewrite decide_False in Hcomp by done. destruct Hcomp as (Hc0r & Hne & _).
    assert (key0 = key) as -> by congruence. assert (c0 = c) as -> by congruence.
    pose proof (read_correct s op Source key c Hinv Hop Hrun Hk
      (list_elem_of_lookup_2 _ _ _ Hkey) Hc Hc0r) as Hread.
    destruct Hrun as [Hnew Hwait]. split; cbn [ps_done ps_memory ps_messages].
    + intros o e j e' Ho Hj Hin Hd He' He. apply elem_of_union. right.
      apply elem_of_union in Hin as [E%elem_of_singleton|Hin].
      * injection E as E ->. apply instruction_ids in E as ->; [|done..]. by apply Hwait.
      * by eapply (iv_closed _ Hinv o e).
    + intros o k m' Ho Hmo Hk'. destruct (decide (in_id o = in_id op)) as [E|E].
      * apply instruction_ids in E as ->; [|done..]. rewrite lookup_insert_eq in Hmo. congruence.
      * rewrite lookup_insert_ne in Hmo by done. by eapply (iv_messages _ Hinv o).
    + intros u cu Hcu Hu Hl. apply (iv_memory _ Hinv); [done| |].
      * destruct Hu as [?|(p & Hp & Hou & [E%elem_of_singleton|Hd]%elem_of_union)]; [by left|done|right; eauto].
      * intros q Hq Hqu Hcq Hd. eapply Hl; [done..|]. apply elem_of_union. by right.
  - eapply write_correct; try done; [|apply Hinv].
    rewrite Hk in Hcomp. cbn in Hcomp. destruct Hcomp as (_ & _ & _ & _ & ->).
    by eapply (iv_messages _ Hinv op).
  - eapply write_correct; try done; [|apply Hinv].
    rewrite Hk in Hcomp. cbn in Hcomp.
    destruct Hcomp as (_ & _ & acc & c1 & E & Hc1 & Hc1r & Hdis & ->).
    rewrite E in Hkey. injection Hkey as <-. assert (c1 = c) as -> by congruence.
    rewrite contents_union by done. f_equal; [by eapply (iv_messages _ Hinv op)|].
    assert (Hacc : acc ∈ in_inputs op) by (rewrite E; set_solver).
    pose proof (read_correct s op Target acc c Hinv Hop Hrun I Hacc Hc Hc1r). congruence.
  - eapply write_correct; try done; [|apply Hinv].
    rewrite decide_True in Hcomp by done. destruct Hcomp as (E & Hc0r & ->).
    assert (key0 = key) as -> by congruence. assert (c0 = c) as -> by congruence.
    pose proof (read_correct s op Target key c Hinv Hop Hrun I
      (list_elem_of_lookup_2 _ _ _ Hkey) Hc Hc0r). congruence.
Qed.

Lemma reachable_inv s s' : plan_start inputs plan s → rtc (plan_step inputs plan) s s' → plan_inv s'.
Proof.
  intros Hs Hr. apply start_inv in Hs. revert Hs. induction Hr as [|s t u Hst _ IH]; [done|].
  intros Hs. apply IH. by eapply step_inv.
Qed.

(** A state that nothing overwrites holds its value at the end. *)
Lemma finished_value s s' id c :
  plan_start inputs plan s → rtc (plan_step inputs plan) s s' → plan_finished plan s' →
  cell_of id = Some c → (id ∈ sp_initial_ids plan ∨ id ∈ in_output <$> instructions) →
  (∀ q, q ∈ instructions → cell_of (in_output q) = Some c → in_output q = id) →
  ps_memory s' !! c = Some (contents (contributors_of id)).
Proof.
  intros Hs Hr Hf Hc Hid Hlast. apply (iv_memory _ (reachable_inv _ _ Hs Hr)); [done| |].
  - destruct Hid as [?|(p & -> & Hp)%list_elem_of_fmap]; [by left|right].
    exists p. split; [done|]. split; [done|]. by apply Hf.
  - intros q [Hq _] Hne Hcq. by destruct Hne; apply Hlast.
Qed.
End laws.

(** ** Running a plan

    The steps as a function, to evaluate executions. *)

Section run.
Context (inputs : ResolvedInput) (plan : StoragePlan).

#[export] Instance has_endpoint_dec op e : Decision (has_endpoint op e).
Proof. destruct e; simpl; apply _. Defined.

(** The endpoints on the same rank that [op] waits for. *)
Definition awaited (op : Instruction) (e : Endpoint) : list (string * Endpoint) :=
  j ← sp_instructions plan; e' ← [Source; Target];
  if decide (in_id j ∈ in_dependencies op ∧ has_endpoint j e' ∧ endpoint_rank j e' = endpoint_rank op e)
  then [(in_id j, e')] else [].

Definition ready (s : PlanState) (op : Instruction) (e : Endpoint) : bool :=
  negb (bool_decide ((in_id op, e) ∈ ps_done s)) &&
  forallb (λ x, bool_decide (x ∈ ps_done s)) (awaited op e).

Definition load (s : PlanState) (op : Instruction) (index : nat) : option (gmultiset Z) :=
  key ← in_inputs op !! index; cell ← cell_of inputs plan key; ps_memory s !! cell.

Definition store (s : PlanState) (op : Instruction) (m : gmultiset Z) : option PlanState :=
  target ← cell_of inputs plan (in_output op);
  Some (MkPlanState ({[(in_id op, Target)]} ∪ ps_done s) (<[target := m]> (ps_memory s)) (ps_messages s)).

Definition fire (s : PlanState) (op : Instruction) (e : Endpoint) : option PlanState :=
  if negb (ready s op e) then None
  else match e with
  | Source =>
      if decide (in_kind op = "copy"%string) then None
      else m ← load s op 0;
           Some (MkPlanState ({[(in_id op, Source)]} ∪ ps_done s) (ps_memory s)
                   (<[in_id op := m]> (ps_messages s)))
  | Target =>
      if decide (in_kind op = "copy"%string) then m ← load s op 0; store s op m
      else if decide (in_kind op = "rrc"%string) then
        m ← ps_messages s !! in_id op; m' ← load s op 1; store s op (m ⊎ m')
      else if decide (in_kind op = "send"%string) then
        m ← ps_messages s !! in_id op; store s op m
      else None
  end.

Lemma ready_may_run s op e : ready s op e = true → may_run plan s op e.
Proof.
  unfold ready. intros H. bool_prop. split; [done|].
  intros j e' Hj Hd He Hr. rewrite forallb_forall in H0.
  assert (Hin : (in_id j, e') ∈ awaited op e).
  { unfold awaited. apply list_elem_of_bind. exists j. split; [|done].
    apply list_elem_of_bind. exists e'. rewrite decide_True by done.
    split; [by left|]. destruct e'; set_solver. }
  apply list_elem_of_In, H0 in Hin. by bool_prop.
Qed.

Lemma load_Some s op index m :
  load s op index = Some m → ∃ key cell, in_inputs op !! index = Some key ∧
    cell_of inputs plan key = Some cell ∧ ps_memory s !! cell = Some m.
Proof.
  unfold load. destruct (in_inputs op !! index) as [key|]; [|done]. simpl.
  destruct (cell_of inputs plan key) as [cell|] eqn:Ec; [|done]. intros Hm.
  by exists key, cell.
Qed.

Lemma store_Some s op m s' :
  store s op m = Some s' → ∃ target, cell_of inputs plan (in_output op) = Some target ∧
    s' = MkPlanState ({[(in_id op, Target)]} ∪ ps_done s) (<[target := m]> (ps_memory s)) (ps_messages s).
Proof.
  unfold store. destruct (cell_of inputs plan (in_output op)) as [target|]; [|done].
  intros [= <-]. eauto.
Qed.

Lemma fire_step s op e s' :
  op ∈ sp_instructions plan → fire s op e = Some s' → plan_step inputs plan s s'.
Proof.
  intros Hop. unfold fire. destruct (ready s op e) eqn:Hr; [|done]. cbn [negb].
  apply ready_may_run in Hr. destruct e.
  - case_decide; [done|]. destruct (load s op 0) as [m|] eqn:El; [|done]. intros [= <-].
    apply load_Some in El as (key & cell & ? & ? & ?). by eapply plan_send.
  - repeat case_decide; [| | |done].
    + destruct (load s op 0) as [m|] eqn:El; [|done]. intros (t & ? & ->)%store_Some.
      apply load_Some in El as (key & cell & ? & ? & ?). by eapply plan_copy.
    + destruct (ps_messages s !! in_id op) as [m|] eqn:Em; [|done]. simpl.
      destruct (load s op 1) as [m'|] eqn:El; [|done]. intros (t & ? & ->)%store_Some.
      apply load_Some in El as (key & cell & ? & ? & ?). by eapply plan_reduce.
    + destruct (ps_messages s !! in_id op) as [m|] eqn:Em; [|done].
      intros (t & ? & ->)%store_Some. by eapply plan_receive.
Qed.

(** Endpoints in a given order. *)
Fixpoint run (s : PlanState) (order : list (nat * Endpoint)) : option PlanState :=
  match order with
  | [] => Some s
  | (index, e) :: order =>
      op ← sp_instructions plan !! index; s' ← fire s op e; run s' order
  end.

Lemma run_steps s order s' : run s order = Some s' → rtc (plan_step inputs plan) s s'.
Proof.
  revert s. induction order as [|[index e] order IH]; intros s; simpl; [by intros [= ->]|].
  destruct (sp_instructions plan !! index) as [op|] eqn:Ei; [|done]. simpl.
  destruct (fire s op e) as [t|] eqn:Ef; [|done]. intros Hr.
  eapply rtc_l; [|by apply IH]. eapply fire_step; [|exact Ef]. by eapply list_elem_of_lookup_2.
Qed.

(** The memory that holds just the inputs. *)
Definition initial_memory : gmap Cell (gmultiset Z) :=
  foldl (λ memory id, match cell_of inputs plan id with
                      | Some cell => <[cell := contents (contributors_of plan id)]> memory
                      | None => memory
                      end) ∅ (sp_initial_ids plan).

Definition starts_right : bool :=
  forallb (λ id, match cell_of inputs plan id with
                 | Some cell => bool_decide (initial_memory !! cell = Some (contents (contributors_of plan id)))
                 | None => true
                 end) (sp_initial_ids plan).

Lemma initial_start : starts_right = true → plan_start inputs plan (MkPlanState ∅ initial_memory ∅).
Proof.
  unfold starts_right. rewrite forallb_forall. intros H. split; [done|]. split; [done|].
  intros id c Hid Hc. apply list_elem_of_In, H in Hid. rewrite Hc in Hid. by bool_prop.
Qed.

Definition finishedb (s : PlanState) : bool :=
  forallb (λ op, forallb (λ e, negb (bool_decide (has_endpoint op e)) || bool_decide ((in_id op, e) ∈ ps_done s))
                   [Source; Target]) (sp_instructions plan).

Lemma finishedb_finished s : finishedb s = true → plan_finished plan s.
Proof.
  unfold finishedb. rewrite forallb_forall. intros H op e Hop He.
  apply list_elem_of_In, H in Hop. rewrite forallb_forall in Hop.
  assert (Hin : In e [Source; Target]) by (destruct e; simpl; auto).
  apply Hop, orb_true_iff in Hin as [Hin|Hin]; bool_prop; [done|done].
Qed.
End run.
