(* ===== verification/NativeExec.v ===== *)
(** * Executions of a native program

    The runtime that a native program is for: every threadblock runs its steps
    in order; a step first waits for the published completion of the step that
    it names; a connection between two ranks on a channel is a queue with a
    bounded number of slots, from which a receive takes the oldest message,
    whichever operation sent it. *)

From stdpp Require Import gmultiset.
From S2P Require Import Prelude.
From S2P Require Import Python.
From S2P Require Import InputModels.
From S2P Require Import V5Model.
From S2P Require Import V5Buffers.
From S2P Require Import V5Exec.
Local Open Scope Z_scope.

(** A threadblock: its rank and identifier. *)
Notation BlockId := (Z * Z)%type.

(** Source rank, target rank and channel. *)
Notation Connection := (Z * Z * Z)%type.

Definition block_id (block : NativeBlock) : BlockId := (nb_rank block, nb_tb_id block).

Definition send_connection (block : NativeBlock) : Connection :=
  (nb_rank block, nb_send_peer block, nb_channel block).

Definition recv_connection (block : NativeBlock) : Connection :=
  (nb_recv_peer block, nb_rank block, nb_channel block).

(** The steps that each threadblock has completed, the memory, and the messages
    of each connection, oldest first.  A message carries the operation that
    sent it for the proofs; no rule below reads it. *)
Record NativeState : Type := MkNativeState {
  nt_counters : gmap BlockId nat;
  nt_memory : gmap Cell (gmultiset Z);
  nt_queues : gmap Connection (list (string * gmultiset Z));
}.

Definition counter (s : NativeState) (block : NativeBlock) : nat :=
  default 0%nat (nt_counters s !! block_id block).

Definition queue (s : NativeState) (c : Connection) : list (string * gmultiset Z) :=
  default [] (nt_queues s !! c).

(** The completion of a step of [block]. *)
Definition advance (s : NativeState) (block : NativeBlock) (memory : gmap Cell (gmultiset Z))
    (queues : gmap Connection (list (string * gmultiset Z))) : NativeState :=
  MkNativeState (<[block_id block := S (counter s block)]> (nt_counters s)) memory queues.

Definition is_nop (step : NativeStep) : Prop := ns_kind step = "nop"%string.
#[export] Instance is_nop_dec step : Decision (is_nop step).
Proof. unfold is_nop. apply _. Defined.

Section native.
Context (inputs : ResolvedInput) (slots : nat) (program : NativeProgram).

Notation blocks := (np_blocks program).

(** The step that [step] waits for. *)
Definition awaits (block : NativeBlock) (step : NativeStep) (target : NativeBlock) (index : nat)
    (t : NativeStep) : Prop :=
  0 ≤ ns_dependency_tb step ∧ target ∈ blocks ∧ nb_rank target = nb_rank block ∧
  nb_tb_id target = ns_dependency_tb step ∧ Z.of_nat index = ns_dependency_step step ∧
  nb_steps target !! index = Some t.

(** A step without a dependency, or whose target is completed and published. *)
Definition released (s : NativeState) (block : NativeBlock) (step : NativeStep) : Prop :=
  0 ≤ ns_dependency_tb step →
  ∃ target index t, awaits block step target index t ∧ ns_has_dependence t = true ∧
    (index < counter s target)%nat.

(** The next step of [block]. *)
Definition current (s : NativeState) (block : NativeBlock) (step : NativeStep) : Prop :=
  block ∈ blocks ∧ nb_steps block !! counter s block = Some step ∧ released s block step.

Definition stored (s : NativeState) (address : option Address) (m : gmultiset Z) : Prop :=
  ∃ a cell, address = Some a ∧ address_cell inputs a = Some cell ∧ nt_memory s !! cell = Some m.

Inductive native_step (s : NativeState) : NativeState → Prop :=
  | native_nop block step :
      current s block step → is_nop step →
      native_step s (advance s block (nt_memory s) (nt_queues s))
  | native_send block step m :
      current s block step → ns_kind step = "s"%string → stored s (ns_src step) m →
      (length (queue s (send_connection block)) < slots)%nat →
      native_step s (advance s block (nt_memory s)
        (<[send_connection block := queue s (send_connection block) ++ [(ns_operation_id step, m)]]>
           (nt_queues s)))
  | native_receive block step a cell tag m rest :
      current s block step → ns_kind step = "r"%string →
      queue s (recv_connection block) = (tag, m) :: rest →
      ns_dst step = Some a → address_cell inputs a = Some cell →
      native_step s (advance s block (<[cell := m]> (nt_memory s))
        (<[recv_connection block := rest]> (nt_queues s)))
  | native_reduce block step a cell tag m rest n :
      current s block step → ns_kind step = "rrc"%string →
      queue s (recv_connection block) = (tag, m) :: rest → stored s (ns_src step) n →
      ns_dst step = Some a → address_cell inputs a = Some cell →
      native_step s (advance s block (<[cell := m ⊎ n]> (nt_memory s))
        (<[recv_connection block := rest]> (nt_queues s)))
  | native_copy block step a cell m :
      current s block step → ns_kind step = "cpy"%string → stored s (ns_src step) m →
      ns_dst step = Some a → address_cell inputs a = Some cell →
      native_step s (advance s block (<[cell := m]> (nt_memory s)) (nt_queues s)).

Definition native_start (memory : gmap Cell (gmultiset Z)) : NativeState :=
  MkNativeState ∅ memory ∅.

Definition native_finished (s : NativeState) : Prop :=
  ∀ block, block ∈ blocks → counter s block = length (nb_steps block).

(** ** Counters *)

Lemma counter_advance s block memory queues other :
  counter (advance s block memory queues) other =
    if decide (block_id other = block_id block) then S (counter s block) else counter s other.
Proof.
  unfold counter, advance. cbn [nt_counters]. case_decide as E.
  - rewrite E, lookup_insert_eq. done.
  - by rewrite lookup_insert_ne.
Qed.

Lemma queue_insert s block memory c l c' :
  queue (advance s block memory (<[c := l]> (nt_queues s))) c' =
    if decide (c' = c) then l else queue s c'.
Proof.
  unfold queue, advance. cbn [nt_queues]. case_decide as E.
  - by rewrite E, lookup_insert_eq.
  - by rewrite lookup_insert_ne.
Qed.

Lemma step_advances s s' : native_step s s' → ∃ block step memory queues,
  current s block step ∧ s' = advance s block memory queues.
Proof. destruct 1; eauto 10. Qed.

Lemma counter_monotone s s' block : native_step s s' → (counter s block ≤ counter s' block)%nat.
Proof.
  intros (b & st & m & q & _ & ->)%step_advances. rewrite counter_advance.
  case_decide as E; [|done]. unfold counter. rewrite E. lia.
Qed.

Lemma released_monotone s s' block step :
  native_step s s' → released s block step → released s' block step.
Proof.
  intros Hs Hr Hd. destruct (Hr Hd) as (target & index & t & Ha & Hp & Hi).
  exists target, index, t. split; [done|]. split; [done|].
  pose proof (counter_monotone _ _ target Hs). lia.
Qed.

(** ** The number of steps *)

Context (ids_nodup : NoDup (block_id <$> blocks)).

Definition total_steps : nat := sum_list (length ∘ nb_steps <$> blocks).

Definition bounded (s : NativeState) : Prop :=
  ∀ block, block ∈ blocks → (counter s block ≤ length (nb_steps block))%nat.

Definition steps_done (s : NativeState) (l : list NativeBlock) : nat := sum_list (counter s <$> l).

Lemma step_bounded s s' : bounded s → native_step s s' → bounded s'.
Proof.
  intros Hb (b & st & m & q & (Hin & Hst & _) & ->)%step_advances block Hblock.
  rewrite counter_advance. case_decide as E; [|by apply Hb].
  apply (NoDup_fmap_elem block_id _ _ _ ids_nodup) in E as ->; [|done..].
  apply lookup_lt_Some in Hst. lia.
Qed.

Lemma steps_done_advance s b memory queues l :
  NoDup (block_id <$> l) → b ∈ l →
  steps_done (advance s b memory queues) l = S (steps_done s l).
Proof.
  intros Hnd Hb. unfold steps_done. induction l as [|x l IH]; [by apply elem_of_nil in Hb|].
  rewrite fmap_cons, NoDup_cons in Hnd. destruct Hnd as [Hx Hnd]. rewrite !fmap_cons. simpl.
  rewrite counter_advance. case_decide as E.
  - assert (Hc : counter s x = counter s b) by (unfold counter; by rewrite E).
    rewrite Hc. simpl. f_equal. f_equal. f_equal. apply list_fmap_ext. intros i y Hy.
    rewrite counter_advance, decide_False; [done|]. intros Ey. apply Hx. rewrite E, <- Ey.
    apply list_elem_of_fmap. exists y. split; [done|]. by eapply list_elem_of_lookup_2.
  - apply elem_of_cons in Hb as [->|Hb]; [done|]. rewrite IH by done. lia.
Qed.

Lemma run_length n s s' :
  nsteps native_step n s s' → steps_done s' blocks = (n + steps_done s blocks)%nat.
Proof.
  induction 1 as [s|n s t s' Hs _ IH]; [done|]. rewrite IH.
  apply step_advances in Hs as (b & st & m & q & (Hin & _) & ->).
  rewrite steps_done_advance by done. lia.
Qed.

Lemma steps_done_bounded s : bounded s → (steps_done s blocks ≤ total_steps)%nat.
Proof.
  unfold bounded, steps_done, total_steps. clear ids_nodup. induction blocks as [|b l IH]; intros Hb; simpl; [done|].
  specialize (IH (λ x Hx, Hb x (list_elem_of_further _ _ _ Hx))). pose proof (Hb b (list_elem_of_here _ _)) as Hh.
  exact (Nat.add_le_mono _ _ _ _ Hh IH).
Qed.

Lemma start_counter memory block : counter (native_start memory) block = 0%nat.
Proof. done. Qed.

Lemma reachable_bounded s s' : bounded s → rtc native_step s s' → bounded s'.
Proof. intros Hb Hr. induction Hr; [done|]. eauto using step_bounded. Qed.

(** No execution is longer than the program. *)
Lemma runs_end memory n s :
  nsteps native_step n (native_start memory) s → (n ≤ total_steps)%nat.
Proof.
  intros Hn. assert (Hb : bounded s).
  { eapply reachable_bounded; [|apply rtc_nsteps; by exists n]. intros b _. rewrite start_counter. lia. }
  assert (H0 : steps_done (native_start memory) blocks = 0%nat).
  { unfold steps_done. generalize blocks as l. induction l as [|x l IH]; [done|]. exact IH. }
  apply steps_done_bounded in Hb. apply run_length in Hn. lia.
Qed.
End native.
