(* ===== verification/ExecutionDeps.v ===== *)
(** * What [execution_dependencies] establishes

    The operations of a native program that passes have a topological order
    that every threadblock and every wait respects. *)

From S2P Require Import Prelude.
From S2P Require Import Python.
From S2P Require Import InputModels.
From S2P Require Import V5Model.
From S2P Require Import V5Program.
From S2P Require Import V5Lower.
From S2P Require Import V5Order.
From S2P Require Import V5Exec.
From S2P Require Import NativeExec.
Local Open Scope Z_scope.

(** [p] is among the dependencies recorded for [q]. *)
Definition recorded (d : list (string * gset string)) (p q : string) : Prop :=
  ∃ D, dict_get q d = Some D ∧ p ∈ D.

Lemma recorded_add key values d p q :
  recorded (add_dependencies key values d) p q ↔ recorded d p q ∨ (q = key ∧ p ∈ values).
Proof.
  unfold recorded, add_dependencies. setoid_rewrite dict_get_set. case_decide as E.
  - subst. split.
    + intros (D & [= <-] & [Hp|Hp]%elem_of_union); [left|by right].
      destruct (dict_get key d) as [D|]; [by exists D|by apply elem_of_empty in Hp].
    + intros [(D & -> & Hp)|[_ Hp]]; eexists; (split; [done|]); set_solver.
  - naive_solver.
Qed.

(** A step with its position. *)
Notation Item := (NativeBlock * (Z * NativeStep))%type.

Definition item_nop (item : Item) : Prop := is_nop item.2.2.
#[export] Instance item_nop_dec item : Decision (item_nop item).
Proof. unfold item_nop. apply _. Defined.

Definition item_op (item : Item) : string := ns_operation_id item.2.2.

(** The steps of a block with their positions. *)
Definition numbered (block : NativeBlock) : list (Z * NativeStep) :=
  zip (seqZ 0 (Z.of_nat (length (nb_steps block)))) (nb_steps block).

Lemma numbered_lookup block i :
  numbered block !! i = (λ step, (Z.of_nat i, step)) <$> nb_steps block !! i.
Proof. apply zip_seqZ_lookup. Qed.

Section program.
Context (program : NativeProgram).
Notation steps := (native_steps program).

(** ** The order within a block *)

(** [R] holds between the operations of a block in sequence, and from every
    awaited operation to the next one. *)
Fixpoint enforces (R : string → string → Prop) (block : NativeBlock) (previous : option string)
    (waiting : gset string) (items : list (Z * NativeStep)) : Prop :=
  match items with
  | [] => waiting = ∅
  | (index, step) :: items =>
      ∃ wait, native_wait steps block index step = Ok wait ∧
      if decide (is_nop step) then
        0 ≤ ns_dependency_tb step ∧ enforces R block previous (waiting ∪ wait) items
      else
        (∀ w, w ∈ waiting ∪ wait → R w (ns_operation_id step)) ∧
        (∀ p, previous = Some p → p ≠ ns_operation_id step → R p (ns_operation_id step)) ∧
        enforces R block (Some (ns_operation_id step)) ∅ items
  end.

Lemma execution_step_Ok block st item st' :
  execution_step steps block st item = Ok st' →
  ∃ wait, native_wait steps block item.1 item.2 = Ok wait ∧
  if decide (is_nop item.2) then
    0 ≤ ns_dependency_tb item.2 ∧
    st' = MkExecution (ex_dependencies st) (ex_by_op st) (ex_previous st) (ex_waiting st ∪ wait)
  else
    let key := ns_operation_id item.2 in
    ex_previous st' = Some key ∧ ex_waiting st' = ∅ ∧
    ex_by_op st' = dict_set key (default [] (dict_get key (ex_by_op st)) ++ [(block, item.2)]) (ex_by_op st) ∧
    is_Some (dict_get key (ex_dependencies st')) ∧
    (∀ k, is_Some (dict_get k (ex_dependencies st')) → k = key ∨ is_Some (dict_get k (ex_dependencies st))) ∧
    ∀ p q, recorded (ex_dependencies st') p q ↔
      recorded (ex_dependencies st) p q ∨
      (q = key ∧ (p ∈ ex_waiting st ∪ wait ∨ (ex_previous st = Some p ∧ p ≠ key))).
Proof.
  destruct item as [index step]. unfold execution_step. intros H.
  apply bind_Ok in H as (wait & Hw & H). exists wait. split; [done|]. cbv zeta in H.
  cbn [fst snd]. destruct (decide (is_nop step)) as [Hn|Hn]; unfold is_nop in Hn;
    [rewrite decide_True in H by exact Hn|rewrite decide_False in H by exact Hn].
  - apply bind_Ok in H as ([] & Hd & H). apply raise_when_Ok in Hd. injection H as <-.
    bool_prop. done.
  - apply bind_Ok in H as ([] & _ & H). apply bind_Ok in H as ([] & _ & H). injection H as <-.
    cbn [ex_previous ex_waiting ex_by_op ex_dependencies]. cbv zeta. do 3 (split; [done|]). split; [|split].
    + unfold add_dependencies. rewrite dict_get_set, decide_True by done. eauto.
    + intros k. unfold add_dependencies. rewrite dict_get_set. case_decide; [by left|by right].
    + intros p q. rewrite recorded_add. destruct (ex_previous st) as [x|].
      * case_decide as E; set_solver.
      * set_solver.
Qed.

Lemma block_enforced (R : string → string → Prop) block items st st' :
  foldM (execution_step steps block) st items = Ok st' → ex_waiting st' = ∅ →
  (∀ p q, recorded (ex_dependencies st') p q → R p q) →
  (∀ p q, recorded (ex_dependencies st) p q → recorded (ex_dependencies st') p q) ∧
  enforces R block (ex_previous st) (ex_waiting st) items.
Proof.
  revert st. induction items as [|item items IH]; intros st H Hw HR; cbn [foldM] in H.
  { injection H as <-. done. }
  apply bind_Ok in H as (s1 & H1 & H). apply execution_step_Ok in H1 as (wait & Hwait & H1).
  destruct (IH s1 H Hw HR) as [Hmono Henf]. destruct item as [index step]. cbn [fst snd] in *.
  case_decide as Hn.
  - destruct H1 as [Hd ->]. split; [done|]. cbn [enforces]. exists wait.
    rewrite decide_True by done. done.
  - destruct H1 as (E1 & E2 & _ & _ & _ & Hrec). rewrite E1, E2 in Henf. split.
    + intros p q Hp. apply Hmono, Hrec. by left.
    + cbn [enforces]. exists wait. rewrite decide_False by done. split; [done|].
      split_and!; [| |done].
      * intros w Hin. apply HR, Hmono, Hrec. right. split; [done|by left].
      * intros p Hp Hne. apply HR, Hmono, Hrec. right. split; [done|by right].
Qed.

Lemma blocks_enforced (R : string → string → Prop) blocks st st' :
  foldM (execution_block steps) st blocks = Ok st' →
  (∀ p q, recorded (ex_dependencies st') p q → R p q) →
  (∀ p q, recorded (ex_dependencies st) p q → recorded (ex_dependencies st') p q) ∧
  ∀ block, block ∈ blocks → enforces R block None ∅ (numbered block).
Proof.
  revert st. induction blocks as [|block blocks IH]; intros st H HR; cbn [foldM] in H.
  { injection H as <-. split; [done|]. by intros block ?%elem_of_nil. }
  apply bind_Ok in H as (s1 & H1 & H). destruct (IH s1 H HR) as [Hmono Hrest].
  unfold execution_block in H1. apply bind_Ok in H1 as (s2 & H2 & H1).
  apply bind_Ok in H1 as ([] & Hempty & [= ->]). apply raise_when_Ok in Hempty. bool_prop.
  apply (block_enforced R) in H2 as [Hm He]; [|done|by intros p q Hp%Hmono%HR].
  split; [intros p q Hp; by apply Hmono, Hm|].
  intros b [->|Hb]%elem_of_cons; [exact He|by apply Hrest].
Qed.

Lemma enforces_mono (R S : string → string → Prop) block previous waiting items :
  (∀ p q, R p q → S p q) → enforces R block previous waiting items →
  enforces S block previous waiting items.
Proof.
  intros HRS. revert previous waiting. induction items as [|[k st] items IH]; intros previous waiting; [done|].
  cbn [enforces]. intros (wait & Hw & H). exists wait. split; [done|]. case_decide.
  - destruct H. eauto.
  - destruct H as (H1 & H2 & H3). split_and!; eauto.
Qed.

Section order.
Context (R : string → string → Prop) (R_trans : ∀ p q r, R p q → R q r → R p r).

Lemma enforces_previous block p waiting items j k t :
  enforces R block (Some p) waiting items → items !! j = Some (k, t) → ¬ is_nop t →
  p = ns_operation_id t ∨ R p (ns_operation_id t).
Proof.
  revert p waiting j. induction items as [|[i st] items IH]; intros p waiting j; [done|].
  cbn [enforces]. intros (wait & _ & H) Hj Ht. destruct j as [|j]; simpl in Hj.
  - injection Hj as -> ->. rewrite decide_False in H by done. destruct H as (_ & Hp & _).
    destruct (decide (p = ns_operation_id t)); [by left|right; eauto].
  - case_decide as Hn.
    + destruct H as [_ H]. by eapply IH.
    + destruct H as (_ & Hp & H). specialize (IH _ _ _ H Hj Ht).
      destruct (decide (p = ns_operation_id st)) as [->|Hne]; [done|right].
      specialize (Hp p eq_refl Hne). destruct IH as [<-|IH]; [done|]. by eapply R_trans.
Qed.

Lemma enforces_waiting block p waiting items w j k t :
  enforces R block p waiting items → w ∈ waiting → items !! j = Some (k, t) → ¬ is_nop t →
  R w (ns_operation_id t).
Proof.
  revert p waiting j. induction items as [|[i st] items IH]; intros p waiting j; [done|].
  cbn [enforces]. intros (wait & _ & H) Hw Hj Ht. case_decide as Hn.
  - destruct H as [_ H]. destruct j as [|j]; simpl in Hj; [by injection Hj as -> ->|].
    eapply IH; [exact H|set_solver|done|done].
  - destruct H as (HW & _ & H). specialize (HW w ltac:(set_solver)).
    destruct j as [|j]; simpl in Hj; [by injection Hj as -> ->|].
    destruct (enforces_previous _ _ _ _ _ _ _ H Hj Ht) as [<-|Hr]; [done|]. by eapply R_trans.
Qed.

(** Operations of a block run in the order [R]. *)
Lemma enforces_order block p waiting items i j k k' t t' :
  enforces R block p waiting items → (i < j)%nat →
  items !! i = Some (k, t) → items !! j = Some (k', t') → ¬ is_nop t → ¬ is_nop t' →
  ns_operation_id t = ns_operation_id t' ∨ R (ns_operation_id t) (ns_operation_id t').
Proof.
  revert p waiting i j. induction items as [|[x st] items IH]; intros p waiting i j; [done|].
  cbn [enforces]. intros (wait & _ & H) Hij Hi Hj Ht Ht'. destruct j as [|j]; [lia|].
  destruct i as [|i]; simpl in Hi, Hj.
  - injection Hi as -> ->. rewrite decide_False in H by done. destruct H as (_ & _ & H).
    by eapply enforces_previous.
  - case_decide; [destruct H as [_ H]|destruct H as (_ & _ & H)];
      (eapply (IH _ _ i j); [exact H|lia|done..]).
Qed.

(** An awaited operation comes before the operations at and after the wait. *)
Lemma enforces_wait block p waiting items i j k k' t t' wait w :
  enforces R block p waiting items → (i ≤ j)%nat →
  items !! i = Some (k, t) → items !! j = Some (k', t') → ¬ is_nop t' →
  native_wait steps block k t = Ok wait → w ∈ wait → R w (ns_operation_id t').
Proof.
  revert p waiting i j. induction items as [|[x st] items IH]; intros p waiting i j; [done|].
  cbn [enforces]. intros (wait' & Hw' & H) Hij Hi Hj Ht' Hwait Hw.
  destruct i as [|i]; simpl in Hi.
  - injection Hi as -> ->. assert (wait' = wait) as -> by congruence.
    destruct (decide (is_nop t)) as [Hn|Hn].
    + destruct H as [_ H]. destruct j as [|j]; simpl in Hj; [by injection Hj as -> ->|].
      eapply enforces_waiting; [exact H|set_solver|done|done].
    + destruct H as (HW & _ & H). specialize (HW w ltac:(set_solver)).
      destruct j as [|j]; simpl in Hj; [by injection Hj as -> ->|].
      destruct (enforces_previous _ _ _ _ _ _ _ H Hj Ht') as [<-|Hr]; [done|]. by eapply R_trans.
  - destruct j as [|j]; [lia|]. simpl in Hj.
    case_decide; [destruct H as [_ H]|destruct H as (_ & _ & H)];
      (eapply (IH _ _ i j); [exact H|lia|done..]).
Qed.
End order.

(** Every step is followed by one that works, or works itself. *)
Lemma enforces_work R block p waiting items i x :
  enforces R block p waiting items → items !! i = Some x ∨ waiting ≠ ∅ ∧ i = 0%nat →
  ∃ j y, (i ≤ j)%nat ∧ items !! j = Some y ∧ ¬ is_nop y.2.
Proof.
  revert p waiting i. induction items as [|[k st] items IH]; intros p waiting i.
  { cbn [enforces]. intros -> [H|[? _]]; [by rewrite lookup_nil in H|done]. }
  cbn [enforces]. intros (wait & Hw & H) Hi. case_decide as Hn.
  - destruct H as [Hd H]. assert (Hne : waiting ∪ wait ≠ ∅).
    { unfold native_wait in Hw. apply bind_Ok in Hw as ([] & _ & Hw).
      rewrite (proj2 (Z.leb_le _ _) Hd) in Hw. apply bind_Ok in Hw as (t & _ & Hw).
      apply bind_Ok in Hw as ([] & _ & [= <-]). set_solver. }
    destruct i as [|i].
    + destruct (IH _ _ 0%nat H) as (j & y & _ & Hy & Hyn); [by right|].
      exists (S j), y. split; [lia|done].
    + destruct Hi as [Hi|[_ ?]]; [|done]. destruct (IH _ _ i H) as (j & y & Hj & Hy & Hyn); [by left|].
      exists (S j), y. split; [lia|done].
  - destruct H as (_ & _ & H). destruct i as [|i]; [by exists 0%nat, (k, st)|].
    destruct Hi as [Hi|[_ ?]]; [|done]. destruct (IH _ _ i H) as (j & y & Hj & Hy & Hyn); [by left|].
    exists (S j), y. split; [lia|done].
Qed.

(** ** The members of an operation *)

Definition member_of (item : Item) : NativeBlock * NativeStep := (item.1, item.2.2).

(** All steps of the program. *)
Definition all_items : list Item := np_blocks program ≫= indexed_steps.

(** The working steps of an operation. *)
Definition items_of (id : string) : list Item :=
  filter (λ item, ¬ item_nop item ∧ item_op item = id) all_items.

Lemma elem_of_indexed block item :
  item ∈ indexed_steps block ↔
  item.1 = block ∧ ∃ i, nb_steps block !! i = Some item.2.2 ∧ item.2.1 = Z.of_nat i.
Proof.
  unfold indexed_steps. rewrite list_elem_of_fmap. destruct item as [b [k step]]. split.
  - intros ([k' step'] & [= -> -> ->] & Hin). split; [done|].
    apply list_elem_of_lookup in Hin as [i Hi]. rewrite zip_seqZ_lookup in Hi. exists i. simpl.
    by destruct (nb_steps block !! i) as [x|]; [injection Hi as <- <-|].
  - cbn [fst snd]. intros (-> & i & Hi & Hk). exists (k, step). split; [done|].
    apply list_elem_of_lookup. exists i. rewrite zip_seqZ_lookup, Hi. by subst.
Qed.

Lemma elem_of_all_items item :
  item ∈ all_items ↔ item.1 ∈ np_blocks program ∧
  ∃ i, nb_steps item.1 !! i = Some item.2.2 ∧ item.2.1 = Z.of_nat i.
Proof.
  unfold all_items. rewrite list_elem_of_bind. split.
  - intros (block & [-> H]%elem_of_indexed & Hb). done.
  - intros [Hb H]. exists item.1. split; [|done]. by apply elem_of_indexed.
Qed.

Lemma elem_of_items_of id item :
  item ∈ items_of id ↔ item ∈ all_items ∧ ¬ item_nop item ∧ item_op item = id.
Proof. unfold items_of. rewrite list_elem_of_filter. tauto. Qed.

Notation Members := (list (string * list (NativeBlock * NativeStep))).

Definition group_step (acc : Members) (item : Item) : Members :=
  dict_set (item_op item) (default [] (dict_get (item_op item) acc) ++ [member_of item]) acc.

Lemma group_get k acc l :
  dict_get k (foldl group_step acc l) =
    match filter (λ item, item_op item = k) l with
    | [] => dict_get k acc
    | items => Some (default [] (dict_get k acc) ++ (member_of <$> items))
    end.
Proof.
  induction l as [|item l IH] using rev_ind; [done|].
  rewrite foldl_app, filter_app. cbn [foldl]. unfold group_step at 1. rewrite dict_get_set.
  case_decide as E.
  - subst k. rewrite filter_cons_True, filter_nil by done. rewrite IH.
    destruct (filter (λ i, item_op i = item_op item) l) as [|x f]; [done|].
    cbn [app from_option]. by rewrite (app_comm_cons f [item] x), fmap_app, app_assoc.
  - rewrite filter_cons_False, filter_nil, app_nil_r by done. apply IH.
Qed.

Lemma group_nodup acc l : NoDup acc.*1 → NoDup (foldl group_step acc l).*1.
Proof. revert acc. induction l as [|x l IH]; intros acc H; [done|]. apply IH, dict_set_NoDup, H. Qed.

Definition working (items : list Item) : list Item := filter (λ item, ¬ item_nop item) items.

(** Operations with dependencies have members. *)
Definition covered (st : Execution) : Prop :=
  ∀ k, is_Some (dict_get k (ex_dependencies st)) → is_Some (dict_get k (ex_by_op st)).

Lemma block_members block items st st' :
  foldM (execution_step steps block) st items = Ok st' → covered st →
  covered st' ∧ ex_by_op st' = foldl group_step (ex_by_op st) (working ((λ x, (block, x)) <$> items)).
Proof.
  revert st. induction items as [|item items IH]; intros st H Hc; cbn [foldM] in H.
  { injection H as <-. done. }
  apply bind_Ok in H as (s1 & H1 & H). apply execution_step_Ok in H1 as (wait & _ & H1).
  rewrite fmap_cons. unfold working. destruct (decide (is_nop item.2)) as [Hn|Hn].
  - destruct H1 as [_ ->]. rewrite filter_cons_False; [by apply (IH _ H)|].
    intros Hi. by apply Hi.
  - destruct H1 as (_ & _ & E & _ & Hdom & _). rewrite filter_cons_True by done.
    cbn [foldl]. assert (Hc1 : covered s1).
    { intros k Hk. rewrite E, dict_get_set. case_decide as Ek; [by eauto|].
      apply Hc. destruct (Hdom k Hk); done. }
    destruct (IH s1 H Hc1) as [H2 E2]. split; [done|]. rewrite E2, E. done.
Qed.

Lemma blocks_members blocks st st' :
  foldM (execution_block steps) st blocks = Ok st' → covered st →
  covered st' ∧ ex_by_op st' = foldl group_step (ex_by_op st) (working (blocks ≫= indexed_steps)).
Proof.
  revert st. induction blocks as [|block blocks IH]; intros st H Hc; cbn [foldM] in H.
  { injection H as <-. done. }
  apply bind_Ok in H as (s1 & H1 & H). unfold execution_block in H1.
  apply bind_Ok in H1 as (s2 & H2 & H1). apply bind_Ok in H1 as ([] & _ & [= ->]).
  apply block_members in H2 as [Hc1 E1]; [|exact Hc]. destruct (IH s1 H Hc1) as [Hc2 E2].
  split; [done|]. rewrite E2, E1. unfold working. cbn [ex_by_op].
  rewrite bind_cons, filter_app, foldl_app. done.
Qed.

(** [execution_dependencies] on success: the members are the working steps in
    the order of the program, and the dependencies contain the order of every
    block and every wait. *)
Lemma execution_dependencies_Ok dependencies actual :
  execution_dependencies program = Ok (dependencies, actual) →
  NoDup actual.*1 ∧ dependencies.*1 = actual.*1 ∧
  (∀ id members, dict_get id actual = Some members →
     members = member_of <$> items_of id ∧ check_members (id, members) = Ok tt) ∧
  (∀ item, item ∈ all_items → ¬ item_nop item → is_Some (dict_get (item_op item) actual)) ∧
  ∀ block, block ∈ np_blocks program →
    enforces (predecessor dependencies) block None ∅ (numbered block).
Proof.
  unfold execution_dependencies. intros H. apply bind_Ok in H as (st & Hst & H).
  apply bind_Ok in H as ([] & Hm%iterM_Ok & H). apply bind_Ok in H as (l & _ & [= <- <-]).
  destruct (blocks_members _ _ _ Hst) as [Hcov Eby]; [by intros k [? ?]|].
  cbn [ex_by_op] in Eby. fold all_items in Eby.
  assert (Hnd : NoDup (ex_by_op st).*1) by (rewrite Eby; apply group_nodup; constructor).
  assert (Ekeys : ((λ key, (key, default ∅ (dict_get key (ex_dependencies st)))) <$> (ex_by_op st).*1).*1
                  = (ex_by_op st).*1) by (rewrite <- list_fmap_compose; apply list_fmap_id).
  assert (Eget : ∀ id, dict_get id (ex_by_op st) =
    match items_of id with [] => None | items => Some (member_of <$> items) end).
  { intros id. rewrite Eby, group_get. unfold working, items_of. rewrite list_filter_filter.
    erewrite (list_filter_iff _ (λ item, ¬ item_nop item ∧ item_op item = id)); [done|].
    intros item. tauto. }
  split_and!; [done|done| | |].
  - intros id members Hid. split.
    + rewrite Eget in Hid. destruct (items_of id); [done|]. by injection Hid as <-.
    + rewrite Forall_forall in Hm. apply (Hm (id, members)). by apply dict_get_Some_1.
  - intros item Hin Hn. rewrite Eget.
    assert (Hi : item ∈ items_of (item_op item)) by (by apply elem_of_items_of).
    destruct (items_of (item_op item)); [by apply elem_of_nil in Hi|eauto].
  - intros block Hb. eapply blocks_enforced; [exact Hst| |exact Hb].
    intros p q (D & HD & Hp). exists D. split; [|done]. apply list_elem_of_fmap. exists q.
    rewrite HD. split; [done|]. apply dict_get_is_Some, Hcov. by rewrite HD.
Qed.
End program.

(** * The order of the steps of a rank

    The graph that [_validate_bindings] builds for each rank, and what its masks
    say of the steps. *)

Definition coordinate (item : Item) : StepCoordinate :=
  (nb_rank item.1, nb_tb_id item.1, item.2.1).

Definition item_rank (item : Item) : Z := nb_rank item.1.

Definition item_predecessors (item : Item) : gset StepCoordinate :=
  local_predecessors item.1 item.2.1 item.2.2.

Section order.
Context (items : list Item) (items_nodup : NoDup (coordinate <$> items)).

Notation order_of l := (foldl local_step (MkLocalOrder [] ∅) l).

Lemma local_step_edges self item rank :
  rank_edges (local_step self item) rank =
    if decide (rank = item_rank item)
    then dict_set (coordinate item) (item_predecessors item) (rank_edges self rank)
    else rank_edges self rank.
Proof.
  destruct item as [block [index step]]. unfold local_step, rank_edges, item_rank. cbn [lo_edges fst].
  rewrite dict_get_set. case_decide as E; [|done]. by rewrite E.
Qed.

Lemma rank_edges_spec rank :
  rank_edges (order_of items) rank =
    (λ item, (coordinate item, item_predecessors item)) <$> filter (λ item, item_rank item = rank) items.
Proof.
  induction items as [|item l IH] using rev_ind; [done|].
  rewrite fmap_app, NoDup_app in items_nodup. destruct items_nodup as (Hl & Hd & _).
  rewrite foldl_app, filter_app, fmap_app. cbn [foldl]. rewrite local_step_edges, (IH Hl).
  case_decide as E.
  - rewrite filter_cons_True, filter_nil by done. apply dict_set_fresh.
    rewrite <- list_fmap_compose. intros (x & Ex & [_ Hx]%list_elem_of_filter)%list_elem_of_fmap.
    apply (Hd (coordinate item)); [|by left]. apply list_elem_of_fmap. by exists x.
  - rewrite filter_cons_False, filter_nil, app_nil_r by done. done.
Qed.

Lemma rank_edges_nodup rank : NoDup (rank_edges (order_of items) rank).*1.
Proof.
  rewrite rank_edges_spec, <- list_fmap_compose.
  eapply sublist_NoDup; [exact items_nodup|]. apply fmap_sublist, sublist_filter.
Qed.

Lemma elem_of_rank_edges rank key d :
  (key, d) ∈ rank_edges (order_of items) rank ↔
  ∃ item, item ∈ items ∧ item_rank item = rank ∧ key = coordinate item ∧ d = item_predecessors item.
Proof.
  rewrite rank_edges_spec, list_elem_of_fmap. setoid_rewrite list_elem_of_filter. naive_solver.
Qed.

Lemma rank_entry item :
  item ∈ items → dict_get (item_rank item) (lo_edges (order_of items)) =
    Some (rank_edges (order_of items) (item_rank item)).
Proof.
  intros Hi. unfold rank_edges at 1.
  destruct (dict_get (item_rank item) (lo_edges (order_of items))) as [e|] eqn:E; [done|].
  assert (He : (coordinate item, item_predecessors item) ∈ rank_edges (order_of items) (item_rank item))
    by (apply elem_of_rank_edges; eauto).
  unfold rank_edges in He. rewrite E in He. by apply elem_of_nil in He.
Qed.

Lemma lo_edges_nodup l : NoDup (lo_edges (order_of l)).*1.
Proof.
  induction l as [|[block [index step]] l IH] using rev_ind; [constructor|].
  rewrite foldl_app. cbn [foldl]. unfold local_step at 1. cbn [lo_edges]. by apply dict_set_NoDup.
Qed.

(** The location of a working step that is the only one of its operation on
    the rank. *)
Lemma location_lookup item :
  item ∈ items → ¬ item_nop item →
  (∀ other, other ∈ items → ¬ item_nop other → item_op other = item_op item →
     item_rank other = item_rank item → coordinate other = coordinate item) →
  lo_locations (order_of items) !! (item_op item, item_rank item) = Some (coordinate item).
Proof.
  clear items_nodup. intros Hi Hn Hu. revert Hi Hu.
  induction items as [|x l IH] using rev_ind; intros Hi Hu; [by apply elem_of_nil in Hi|].
  rewrite foldl_app. cbn [foldl].
  assert (Estep : lo_locations (local_step (order_of l) x) =
    if decide (item_nop x) then lo_locations (order_of l)
    else <[(item_op x, item_rank x) := coordinate x]> (lo_locations (order_of l))).
  { destruct x as [block [index step]]. unfold local_step. cbn [lo_locations].
    destruct (decide (item_nop _)) as [E|E]; unfold item_nop, is_nop in E; cbn [snd] in E;
      [rewrite decide_True by exact E|rewrite decide_False by exact E]; done. }
  rewrite Estep. case_decide as Hx.
  - apply IH; [|intros o Ho; apply Hu, elem_of_app; by left].
    apply elem_of_app in Hi as [Hi|Hi]; [done|]. apply list_elem_of_singleton in Hi. by subst.
  - destruct (decide ((item_op x, item_rank x) = (item_op item, item_rank item))) as [E|E].
    + rewrite E, lookup_insert_eq. f_equal. injection E as E1 E2.
      apply Hu; [apply elem_of_app; right; by left|done..].
    + rewrite lookup_insert_ne by done. apply IH; [|intros o Ho; apply Hu, elem_of_app; by left].
      apply elem_of_app in Hi as [Hi|Hi]; [done|]. apply list_elem_of_singleton in Hi. by subst.
Qed.

Lemma location_sound id rank key :
  lo_locations (order_of items) !! (id, rank) = Some key →
  ∃ item, item ∈ items ∧ ¬ item_nop item ∧ item_op item = id ∧ item_rank item = rank ∧
    coordinate item = key.
Proof.
  clear items_nodup. induction items as [|x l IH] using rev_ind; [done|].
  rewrite foldl_app. cbn [foldl]. destruct x as [block [index step]]. unfold local_step at 1.
  cbn [lo_locations]. case_decide as Hn.
  - intros (item & Hi & H)%IH. exists item. split; [apply elem_of_app; by left|done].
  - intros [[[= <- <-] <-]|[_ (item & Hi & H)%IH]]%lookup_insert_Some.
    + exists (block, (index, step)). split; [apply elem_of_app; right; by left|]. done.
    + exists item. split; [apply elem_of_app; by left|done].
Qed.
End order.

(** ** Any *)

Lemma anyR_false {A} (f : A → res bool) (l : list A) x :
  anyR f l = Ok false → x ∈ l → f x = Ok false.
Proof.
  unfold anyR.
  assert (Ht : ∀ l, foldM (λ found x, if found : bool then Ok true else f x) true l = Ok true).
  { induction l0 as [|y l0 IH]; [done|exact IH]. }
  induction l as [|y l IH]; intros H Hx; [by apply elem_of_nil in Hx|].
  cbn [foldM] in H. apply bind_Ok in H as (b & Hb & H).
  destruct b; [rewrite Ht in H; discriminate|].
  apply elem_of_cons in Hx as [->|Hx]; [done|by apply IH].
Qed.
