(* ===== verification/V5Bindings.v ===== *)
(** * What [_validate_bindings] establishes

    Every endpoint of the storage plan is one step of the native program, on the
    rank and with the addresses that the plan gives it; operations have an
    order that all threadblocks respect; and on each rank the steps of an
    operation follow the steps of its dependencies. *)

From S2P Require Import Prelude.
From S2P Require Import Python.
From S2P Require Import InputModels.
From S2P Require Import Versions.
From S2P Require Import V5Model.
From S2P Require Import V5Buffers.
From S2P Require Import V5Program.
From S2P Require Import V5Lower.
From S2P Require Import V5Order.
From S2P Require Import V5Exec.
From S2P Require Import V5ExecLaws.
From S2P Require Import NativeExec.
From S2P Require Import ExecutionDeps.
Local Open Scope Z_scope.

(** The connection of a transfer. *)
Definition connection_of (op : Instruction) : Connection := (in_peer op, in_rank op, in_channel op).

Section bindings.
Context (inputs : ResolvedInput) (plan : StoragePlan) (program : NativeProgram).
Context (Hok : plan_ok inputs plan).

Notation instructions := (sp_instructions plan).

(** [step] reads the operand at [index] of [op]. *)
Definition reads_operand (op : Instruction) (index : nat) (step : NativeStep) : Prop :=
  ∃ key a, in_inputs op !! index = Some key ∧ dict_get key (sp_addresses plan) = Some a ∧
    ns_src step = Some a.

Definition writes_output (op : Instruction) (step : NativeStep) : Prop :=
  ∃ a, dict_get (in_output op) (sp_addresses plan) = Some a ∧ ns_dst step = Some a.

(** [item] does what the endpoint [e] of [op] does. *)
Definition realises (op : Instruction) (e : Endpoint) (item : Item) : Prop :=
  let step := item.2.2 in
  item_rank item = endpoint_rank op e ∧
  match e with
  | Source =>
      in_kind op ≠ "copy"%string ∧ ns_kind step = "s"%string ∧ reads_operand op 0 step ∧
      send_connection item.1 = connection_of op
  | Target =>
      writes_output op step ∧
      if decide (in_kind op = "copy"%string)
      then ns_kind step = "cpy"%string ∧ reads_operand op 0 step
      else recv_connection item.1 = connection_of op ∧
        if decide (in_kind op = "rrc"%string)
        then ns_kind step = "rrc"%string ∧ reads_operand op 1 step
        else ns_kind step = "r"%string
  end.

(** The only step of an endpoint. *)
Definition site (op : Instruction) (e : Endpoint) (item : Item) : Prop :=
  item ∈ items_of program (in_id op) ∧ realises op e item ∧
  ∀ other, other ∈ items_of program (in_id op) → item_rank other = endpoint_rank op e → other = item.

(** ** One operation *)

Lemma cell_rank key a c :
  dict_get key (sp_addresses plan) = Some a → cell_of inputs plan key = Some c → c.1.1 = ad_rank a.
Proof.
  intros Ha. unfold cell_of. rewrite Ha. simpl. unfold address_cell.
  destruct (canonical_region a inputs) as [region|] eqn:E; [|done]. intros [= <-].
  destruct a as [rank buffer offset]. unfold canonical_region in E.
  apply bind_Ok in E as ([n size_] & _ & E).
  assert (Hb : ∀ a b c d e r, BufferRegion_init a b c d e = Ok r → br_rank r = a).
  { intros x1 x2 x3 x4 x5 r. unfold BufferRegion_init. intros H. inv_res. by subst. }
  unfold region_key. simpl.
  case_decide; [by eapply Hb|].
  destruct (negb _); [by eapply Hb|]. apply bind_Ok in E as (base & _ & E). by eapply Hb.
Qed.

Lemma two_items {A B} (f : A → B) (l : list A) x y :
  f <$> l ≡ₚ [x; y] → ∃ a b, f a = x ∧ f b = y ∧ (l = [a; b] ∨ l = [b; a]).
Proof.
  intros H. assert (Hl : length l = 2%nat) by (apply Permutation_length in H; by rewrite length_fmap in H).
  destruct l as [|a [|b [|c l]]]; try done. simpl in H.
  apply Permutation_length_2_inv in H as [[= E1 E2]|[= E1 E2]]; subst; [exists a, b|exists b, a]; auto.
Qed.

Lemma one_item {A B} (f : A → B) (l : list A) x : f <$> l ≡ₚ [x] → ∃ a, f a = x ∧ l = [a].
Proof.
  intros H%Permutation_singleton_r. destruct l as [|a [|b l]]; try done. injection H as <-. eauto.
Qed.

Lemma check_two id (s r : NativeBlock * NativeStep) :
  ns_kind s.2 = "s"%string → ns_kind r.2 ≠ "s"%string → ns_kind r.2 ∈ ["r"; "rrc"]%string →
  check_members (id, [s; r]) = Ok tt ∨ check_members (id, [r; s]) = Ok tt →
  nb_send_peer s.1 = nb_rank r.1 ∧ nb_recv_peer r.1 = nb_rank s.1.
Proof.
  destruct s as [sb ss], r as [rb rs]. cbn [fst snd]. intros Hs Hr Hr'.
  assert (Hns : ns_kind ss ∉ ["r"; "rrc"]%string) by (rewrite Hs; set_solver).
  unfold check_members. cbn [snd].
  intros [H|H]; rewrite 2!(filter_cons (λ m : NativeBlock * NativeStep, ns_kind m.2 = "s"%string)),
    2!(filter_cons (λ m : NativeBlock * NativeStep, ns_kind m.2 ∈ ["r"; "rrc"]%string)) in H;
    rewrite !filter_nil in H; cbn [snd] in H; repeat (case_decide; try done);
    apply raise_when_Ok in H; by bool_prop.
Qed.

(** The facts about one operation that the checks leave. *)
Lemma operation_sites op expected :
  op ∈ instructions → _endpoints op plan = Ok expected →
  seen_binding <$> (member_of <$> items_of program (in_id op)) ≡ₚ expected_binding <$> expected →
  check_members (in_id op, member_of <$> items_of program (in_id op)) = Ok tt →
  (∀ item, item ∈ items_of program (in_id op) → in_kind op ≠ "copy"%string →
     nb_channel item.1 = in_channel op) →
  (∀ e, has_endpoint op e → ∃ item, site op e item) ∧
  ∀ item, item ∈ items_of program (in_id op) →
    ∃ e, has_endpoint op e ∧ item_rank item = endpoint_rank op e.
Proof.
  intros Hop Hexp Hperm Hmem Hchan.
  destruct (po_computes _ _ Hok op Hop) as (c0 & key & c & Hkey & Hc0 & Hc & Hr & Hcomp).
  unfold _endpoints in Hexp. apply bind_Ok in Hexp as (k & Hk%of_option_Ok & Hexp).
  assert (k = key) as -> by congruence.
  apply bind_Ok in Hexp as (src & Hsrc%of_option_Ok & Hexp).
  apply bind_Ok in Hexp as (dst & Hdst%of_option_Ok & Hexp).
  pose proof (cell_rank _ _ _ Hsrc Hc0) as Rsrc. pose proof (cell_rank _ _ _ Hdst Hc) as Rdst.
  rewrite <- list_fmap_compose in Hperm. case_decide as Hcopy.
  - injection Hexp as <-. simpl in Hperm. apply one_item in Hperm as (item & Hi & El).
    unfold compose, seen_binding, expected_binding, member_of in Hi. simpl in Hi.
    injection Hi as E1 E2 E3 E4. rewrite El. split.
    2: { intros o ->%list_elem_of_singleton. by exists Target. }
    intros e He. destruct e; [by destruct He|]. exists item. unfold site. rewrite El.
    split; [by left|]. split; [|by intros other ->%list_elem_of_singleton].
    split; [done|]. simpl. split; [by exists dst|].
    rewrite decide_True by done. split; [done|]. by exists key, src.
  - apply bind_Ok in Hexp as (rsrc & Hrsrc & Hexp). injection Hexp as <-. simpl in Hperm.
    apply two_items in Hperm as (s & t & Hs & Ht & El).
    unfold compose, seen_binding, expected_binding, member_of in Hs, Ht. simpl in Hs, Ht.
    injection Hs as S1 S2 S3 S4. injection Ht as T1 T2 T3 T4.
    assert (Hne : in_peer op ≠ in_rank op) by (by apply (transfer_ranks inputs plan Hok)).
    destruct Hcomp as (Hp & _ & _).
    assert (Hin : s ∈ items_of program (in_id op) ∧ t ∈ items_of program (in_id op))
      by (destruct El as [-> | ->]; set_solver).
    destruct Hin as [Hins Hint].
    assert (Hts : ∀ k, (if decide (in_kind op = "rrc"%string) then "rrc" else "r")%string = k →
      k ≠ "s"%string ∧ k ∈ ["r"; "rrc"]%string ∧ k ∉ ["cpy"; "re"]%string)
      by (intros k <-; case_decide; set_solver).
    destruct (Hts _ (eq_sym T2)) as (Ht1 & Ht2 & Ht3).
    assert (Hpeers : nb_send_peer s.1 = nb_rank t.1 ∧ nb_recv_peer t.1 = nb_rank s.1).
    { apply (check_two (in_id op) (member_of s) (member_of t)); [done|exact Ht1|exact Ht2|].
      destruct El as [El|El]; rewrite El in Hmem; [by left|by right]. }
    destruct Hpeers as [P1 P2].
    assert (Hconn : send_connection s.1 = connection_of op ∧ recv_connection t.1 = connection_of op).
    { unfold send_connection, recv_connection, connection_of.
      rewrite (Hchan s), (Hchan t), P1, P2, S1, T1 by done. split; congruence. }
    destruct Hconn as [C1 C2].
    assert (Hother : ∀ o, o ∈ items_of program (in_id op) → o = s ∨ o = t)
      by (intros o; destruct El as [-> | ->]; set_solver).
    unfold site, realises, item_rank. split.
    2: { intros o [-> | ->]%Hother; [exists Source|exists Target]; split; try done; simpl; congruence. }
    intros e He. destruct e; [exists s|exists t]; (split; [done|]); simpl.
    + split; [split; [congruence|]|].
      * split_and!; try done. by exists key, src.
      * intros o Ho Hor. destruct (Hother o Ho) as [->| ->]; [done|]. congruence.
    + split; [split; [congruence|]|].
      * split; [by exists dst|]. rewrite decide_False by done. split; [done|].
        revert T2 T3 Hrsrc. case_decide; [|done]. intros T2 T3 Hrsrc. split; [done|].
        apply bind_Ok in Hrsrc as (k2 & Hk2%of_option_Ok & Ha2%of_option_Ok). by exists k2, rsrc.
      * intros o Ho Hor. destruct (Hother o Ho) as [->| ->]; [|done]. congruence.
Qed.
(** ** The whole program *)

(** The identity [p] comes before [q]. *)
Definition precedes (order : list Instruction) (p q : string) : Prop := before (in_id <$> order) p q.

(** A step that must be complete before another of its rank starts. *)
Definition local_edge (a b : StepCoordinate) : Prop :=
  ∃ item, item ∈ all_items program ∧ coordinate item = b ∧ a ∈ item_predecessors item.

Record bound (order : list Instruction) : Prop := {
  bd_order : order ≡ₚ instructions;
  bd_dependencies op d : op ∈ instructions → d ∈ in_dependencies op → precedes order d (in_id op);
  bd_sites op e : op ∈ instructions → has_endpoint op e → ∃ item, site op e item;
  bd_items item : item ∈ all_items program → ¬ item_nop item →
    ∃ op e, op ∈ instructions ∧ has_endpoint op e ∧ site op e item;
  bd_blocks block : block ∈ np_blocks program →
    enforces program (precedes order) block None ∅ (numbered block);
  bd_local op e item j e' item' : op ∈ instructions → site op e item → j ∈ instructions →
    in_id j ∈ in_dependencies op → endpoint_rank j e' = endpoint_rank op e → site j e' item' →
    tc local_edge (coordinate item') (coordinate item);
}.

Lemma dependency_ordered_before {K} `{Countable K} (dependencies : list (K * gset K)) l p q :
  NoDup dependencies.*1 → l ≡ₚ dependencies.*1 → dependency_ordered dependencies l →
  predecessor dependencies p q → before l p q.
Proof.
  intros Hnd Hp Ho (d & Hd & Hin).
  assert (Hq : q ∈ l) by (rewrite Hp; apply list_elem_of_fmap; by exists (q, d)).
  apply list_elem_of_split in Hq as (l1 & l2 & E). destruct (Ho _ _ _ E) as (d' & Hd' & Hsub).
  assert (d' = d) as -> by (by eapply dependencies_function).
  assert (Hp1 : p ∈ l1) by set_solver. apply list_elem_of_lookup in Hp1 as [i Hi].
  exists i, (length l1). pose proof (lookup_lt_Some _ _ _ Hi). split; [done|].
  rewrite E. split; [by apply lookup_app_l_Some|]. by rewrite list_lookup_middle.
Qed.

Lemma before_trans {A} (l : list A) p q r : NoDup l → before l p q → before l q r → before l p r.
Proof.
  intros Hnd (i & j & Hij & Hi & Hj) (j' & k & Hjk & Hj' & Hk).
  assert (j' = j) as -> by (by eapply NoDup_lookup). exists i, k. split; [lia|done].
Qed.

Lemma before_irrefl {A} (l : list A) p : NoDup l → ¬ before l p p.
Proof.
  intros Hnd (i & j & Hij & Hi & Hj). assert (i = j) by (by eapply NoDup_lookup). lia.
Qed.

Lemma dependency_path {K} `{Countable K} (dependencies : list (K * gset K)) l p q :
  NoDup dependencies.*1 → l ≡ₚ dependencies.*1 → dependency_ordered dependencies l →
  tc (predecessor dependencies) p q → before l p q.
Proof.
  intros Hnd Hp Ho. assert (Hl : NoDup l) by (by rewrite Hp).
  induction 1 as [p q Hpq|p q r Hpq _ IH].
  - by eapply dependency_ordered_before.
  - eapply before_trans; [done| |exact IH]. by eapply dependency_ordered_before.
Qed.

Context (ids_nodup : NoDup (block_id <$> np_blocks program)).

Lemma coordinates_nodup : NoDup (coordinate <$> all_items program).
Proof.
  unfold all_items. induction (np_blocks program) as [|block blocks IH]; [constructor|].
  rewrite fmap_cons, NoDup_cons in ids_nodup. destruct ids_nodup as [Hb Hnd].
  rewrite bind_cons, fmap_app, NoDup_app. split; [|split; [|by apply IH]].
  - unfold indexed_steps. rewrite <- list_fmap_compose. apply NoDup_alt. intros i j c.
    rewrite !list_lookup_fmap, !zip_seqZ_lookup.
    destruct (nb_steps block !! i), (nb_steps block !! j); try done. simpl.
    intros [= <-] [= E]. lia.
  - intros c (x & Ec & Hx)%list_elem_of_fmap (y & Ey & Hy)%list_elem_of_fmap.
    apply elem_of_indexed in Hx as [Ex _]. apply list_elem_of_bind in Hy as (b & Hy & Hin).
    apply elem_of_indexed in Hy as [Eb _]. apply Hb. apply list_elem_of_fmap. exists b. split; [|done].
    subst c. unfold coordinate in Ey. injection Ey as E1 E2 _. unfold block_id. congruence.
Qed.

(** ** The checks of one operation *)

Lemma ancestors_checked dependencies (masks : Masks string) op d :
  masks_exact dependencies masks.1 masks.2 → in_id op ∈ dependencies.*1 → d ∈ dependencies.*1 →
  check_ancestors masks op = Ok tt → d ∈ in_dependencies op →
  tc (predecessor dependencies) d (in_id op).
Proof.
  intros Hexact Hop Hd H Hin. unfold check_ancestors in H.
  apply bind_Ok in H as (omitted & Hany & H%raise_when_Ok). subst omitted.
  apply (anyR_false _ _ d) in Hany; [|by apply elem_of_elements].
  destruct (Hexact d (in_id op) Hd Hop) as (mask & bit & Hm & Hb & Ht).
  cbn beta in Hany. rewrite Hb, Hm in Hany. cbn [of_option mbind res_bind] in Hany. injection Hany as Hany.
  apply Ht. by apply Z.eqb_neq.
Qed.

Lemma local_masks_get (local_ancestors : list (Z * Masks StepCoordinate)) rank edges :
  mapR (λ '(rank, edges), masks ← _dependency_ancestors edges; Ok (rank, masks))
    (lo_edges (local_order program)) = Ok local_ancestors →
  dict_get rank (lo_edges (local_order program)) = Some edges →
  ∃ masks : Masks StepCoordinate, dict_get rank local_ancestors = Some masks ∧ _dependency_ancestors edges = Ok masks.
Proof.
  generalize (lo_edges (local_order program)) as l. intros l Hl%mapR_Ok Hg.
  induction Hl as [|[r e] [r' m] l k Hx _ IH]; [done|].
  apply bind_Ok in Hx as (m' & Hm & [= -> ->]). simpl in Hg |- *. case_decide; [|by apply IH].
  injection Hg as <-. by exists m.
Qed.

(** The step of [item] follows the steps, on its rank, of the dependencies of
    its operation. *)
Lemma local_checked (local_ancestors : list (Z * Masks StepCoordinate)) op item d item' :
  mapR (λ '(rank, edges), masks ← _dependency_ancestors edges; Ok (rank, masks))
    (lo_edges (local_order program)) = Ok local_ancestors →
  (∀ other, other ∈ items_of program (in_id op) → item_rank other = item_rank item → other = item) →
  (∀ other, other ∈ items_of program d → item_rank other = item_rank item → other = item') →
  item ∈ items_of program (in_id op) → item' ∈ items_of program d → item_rank item' = item_rank item →
  d ∈ in_dependencies op →
  check_local (local_order program) local_ancestors op (member_of item) = Ok tt →
  tc local_edge (coordinate item') (coordinate item).
Proof.
  intros Hl Hu Hu' Hi Hi' Hr Hd H. pose proof coordinates_nodup as Hnd.
  assert (Hloc : ∀ id x, x ∈ items_of program id →
    (∀ other, other ∈ items_of program id → item_rank other = item_rank x → other = x) →
    lo_locations (local_order program) !! (id, item_rank x) = Some (coordinate x)).
  { intros id x Hx Hux. apply elem_of_items_of in Hx as (Hx & Hxn & <-).
    apply (location_lookup (all_items program)); [done|done|].
    intros o Ho Hon Eo Er. f_equal. apply Hux; [by apply elem_of_items_of|done]. }
  pose proof (Hloc _ _ Hi Hu) as L. assert (L' := Hloc _ _ Hi' ltac:(by rewrite Hr)).
  apply elem_of_items_of in Hi as (Hall & _ & _). apply elem_of_items_of in Hi' as (Hall' & _ & _).
  pose proof (rank_entry (all_items program) Hnd item Hall) as Hentry.
  destruct (local_masks_get _ _ _ Hl Hentry) as ([ancestors bits] & Hm & Hanc).
  apply dependency_ancestors_Ok in Hanc as [Hexact _]; [|by apply rank_edges_nodup].
  unfold check_local in H. change (nb_rank (member_of item).1) with (item_rank item) in H.
  cbv zeta in H. rewrite Hm, L in H. cbn [of_option mbind res_bind] in H.
  assert (Hkey : ∀ x, x ∈ all_items program → item_rank x = item_rank item →
    coordinate x ∈ (rank_edges (local_order program) (item_rank item)).*1).
  { intros x Hx Hxr. apply list_elem_of_fmap. exists (coordinate x, item_predecessors x).
    split; [done|]. apply (elem_of_rank_edges (all_items program) Hnd). by exists x. }
  destruct (Hexact (coordinate item') (coordinate item)) as (mask & bit & E1 & E2 & Ht);
    [by apply Hkey|by apply Hkey|].
  rewrite E1 in H. cbn [of_option mbind res_bind] in H.
  apply bind_Ok in H as (omitted & Hany & H%raise_when_Ok). subst omitted.
  apply (anyR_false _ _ (coordinate item')) in Hany.
  - unfold omits in Hany. rewrite E2 in Hany. cbn [of_option mbind res_bind] in Hany.
    injection Hany as Hany%Z.eqb_neq. apply Ht in Hany. revert Hany.
    apply (tc_congruence id).
    intros a b (s & Hs & Ha). apply (elem_of_rank_edges (all_items program) Hnd) in Hs as (x & Hx & _ & -> & ->).
    by exists x.
  - rewrite Hr in L'. apply list_elem_of_omap. exists d. split; [by apply elem_of_elements|done].
Qed.

Lemma instruction_checked masks order local_ancestors actual op :
  (∀ id members, dict_get id actual = Some members →
     members = member_of <$> items_of program id ∧ check_members (id, members) = Ok tt) →
  check_instruction program plan masks order local_ancestors actual op = Ok tt →
  ∃ expected, _endpoints op plan = Ok expected ∧ check_ancestors masks op = Ok tt ∧
    (∀ item, item ∈ items_of program (in_id op) →
       check_local order local_ancestors op (member_of item) = Ok tt) ∧
    seen_binding <$> (member_of <$> items_of program (in_id op)) ≡ₚ expected_binding <$> expected ∧
    check_members (in_id op, member_of <$> items_of program (in_id op)) = Ok tt ∧
    ∀ item, item ∈ items_of program (in_id op) → in_kind op ≠ "copy"%string →
      nb_channel item.1 = in_channel op.
Proof.
  intros Hmembers H. unfold check_instruction in H.
  apply bind_Ok in H as ([] & Hanc & H). apply bind_Ok in H as (members & Hm%of_option_Ok & H).
  apply Hmembers in Hm as [-> Hm]. apply bind_Ok in H as ([] & Hloc & H).
  apply bind_Ok in H as (expected & Hexp & H). apply bind_Ok in H as ([] & Hseen & H).
  apply raise_when_Ok in Hseen. bool_prop. apply iterM_Ok in Hloc. apply iterM_Ok in H.
  exists expected. split_and!; [done|done| | |done|].
  - intros item Hi. rewrite list.Forall_forall in Hloc. apply Hloc, list_elem_of_fmap. by exists item.
  - rewrite <- (sorted_by_perm binding_key), Hseen. by rewrite sorted_by_perm.
  - intros item Hi Hk. rewrite list.Forall_forall in H.
    specialize (H (member_of item) ltac:(apply list_elem_of_fmap; by exists item)).
    unfold check_member in H. apply bind_Ok in H as ([] & Hc & _). apply raise_when_Ok in Hc.
    rewrite (bool_decide_eq_false_2 _ Hk) in Hc. cbn [negb andb] in Hc. by apply negb_false_iff, Z.eqb_eq in Hc.
Qed.

Lemma bindings_bound : _validate_bindings program plan = Ok tt → ∃ order, bound order.
Proof.
  unfold _validate_bindings. intros H.
  apply bind_Ok in H as ([dependencies actual] & Hexec & H).
  apply bind_Ok in H as ([] & Hids & H). apply raise_when_Ok in Hids.
  apply bind_Ok in H as ([] & Hcov & H). apply raise_when_Ok in Hcov. cbv zeta in H.
  apply bind_Ok in H as (masks & Hmasks & H). apply bind_Ok in H as (local_ancestors & Hlocal & H).
  apply iterM_Ok in H. rewrite Forall_forall in H. bool_prop.
  apply execution_dependencies_Ok in Hexec as (Hnd & Ekeys & Hmembers & Hdomain & Hblocks).
  assert (Hdnd : NoDup dependencies.*1) by (by rewrite Ekeys).
  destruct masks as [ancestors bits]. apply dependency_ancestors_Ok in Hmasks as [Hexact (l & Hl & Hord & _)]; [|done].
  assert (Hkeys : dependencies.*1 ≡ₚ in_id <$> instructions).
  { rewrite Ekeys. apply NoDup_Permutation; [done|done|]. intros k. set_solver. }
  assert (Ho : ∃ order, l = in_id <$> order ∧ instructions ≡ₚ order).
  { apply Permutation_map_inv. by rewrite Hl, Hkeys. }
  destruct Ho as (order & -> & Hperm).
  assert (Hpath : ∀ p q, tc (predecessor dependencies) p q → precedes order p q)
    by (intros p q Hpq; eapply dependency_path; [exact Hdnd|exact Hl|exact Hord|exact Hpq]).
  assert (Hop : ∀ op, op ∈ instructions → ∃ expected,
    _endpoints op plan = Ok expected ∧ check_ancestors (ancestors, bits) op = Ok tt ∧
    (∀ item, item ∈ items_of program (in_id op) →
       check_local (local_order program) local_ancestors op (member_of item) = Ok tt) ∧
    seen_binding <$> (member_of <$> items_of program (in_id op)) ≡ₚ expected_binding <$> expected ∧
    check_members (in_id op, member_of <$> items_of program (in_id op)) = Ok tt ∧
    ∀ item, item ∈ items_of program (in_id op) → in_kind op ≠ "copy"%string →
      nb_channel item.1 = in_channel op).
  { intros op Hin. by eapply instruction_checked, H. }
  assert (Hsites : ∀ op, op ∈ instructions →
    (∀ e, has_endpoint op e → ∃ item, site op e item) ∧
    ∀ item, item ∈ items_of program (in_id op) → ∃ e, has_endpoint op e ∧ item_rank item = endpoint_rank op e).
  { intros op Hin. destruct (Hop op Hin) as (expected & He & _ & _ & Hs & Hm & Hc).
    by apply (operation_sites op expected). }
  exists order. split.
  - by symmetry.
  - intros op d Hin Hd. apply Hpath. destruct (Hop op Hin) as (_ & _ & Hanc & _).
    eapply (ancestors_checked dependencies (ancestors, bits)); try done.
    + rewrite Hkeys. apply list_elem_of_fmap. by exists op.
    + rewrite Hkeys. apply list_elem_of_lookup in Hin as [i Hi].
      destruct (po_order _ _ Hok i op d Hi Hd) as (j & p & _ & Hp & <-).
      apply list_elem_of_fmap. exists p. split; [done|]. by eapply list_elem_of_lookup_2.
  - intros op e Hin He. by apply (Hsites op Hin).
  - intros item Hi Hn. destruct (Hdomain item Hi Hn) as [members Hm].
    assert (Hid : item_op item ∈ in_id <$> instructions).
    { rewrite <- Hkeys, Ekeys. apply dict_get_is_Some. eauto. }
    apply list_elem_of_fmap in Hid as (op & Eop & Hin). destruct (Hsites op Hin) as [Hs Hr].
    assert (Hio : item ∈ items_of program (in_id op)) by (by apply elem_of_items_of).
    destruct (Hr item Hio) as (e & He & Hre). destruct (Hs e He) as (item' & Hsite).
    exists op, e. split; [done|]. split; [done|].
    by rewrite (proj2 (proj2 Hsite) item Hio Hre).
  - intros block Hb. eapply enforces_mono; [|by apply Hblocks]. intros p q Hpq. apply Hpath. by constructor.
  - intros op e item j e' item' Hin (Hi & [Hr _] & Hu) Hj Hd Her (Hi' & [Hr' _] & Hu').
    destruct (Hop op Hin) as (_ & _ & _ & Hloc & _).
    eapply (local_checked local_ancestors op item (in_id j) item'); try done.
    + intros o Ho Hor. apply Hu; [done|]. congruence.
    + intros o Ho Hor. apply Hu'; [done|]. congruence.
    + congruence.
    + by apply Hloc.
Qed.
End bindings.
