(* ===== verification/NativeSim.v ===== *)
(** * Native programs refine storage plans

    A simulation between the threadblocks of an admitted native program and the
    executions of its storage plan, and the progress of those threadblocks. *)

From stdpp Require Import gmultiset.
From S2P Require Import Prelude.
From S2P Require Import Python.
From S2P Require Import InputModels.
From S2P Require Import V5Model.
From S2P Require Import V5Buffers.
From S2P Require Import V5Program.
From S2P Require Import V5Lower.
From S2P Require Import V5Order.
From S2P Require Import V5Exec.
From S2P Require Import V5ExecLaws.
From S2P Require Import NativeExec.
From S2P Require Import ExecutionDeps.
From S2P Require Import V5Bindings.
Local Open Scope Z_scope.

(** ** Filters of an ordered list *)

Lemma filter_ext_elem {A} (P Q : A → Prop) `{∀ x, Decision (P x)} `{∀ x, Decision (Q x)} (l : list A) :
  (∀ x, x ∈ l → P x ↔ Q x) → filter P l = filter Q l.
Proof.
  induction l as [|x l IH]; intros Hl; [done|].
  assert (IH' : filter P l = filter Q l) by (apply IH; intros y Hy; apply Hl; by right).
  specialize (Hl x (list_elem_of_here _ _)).
  destruct (decide (P x)) as [Hx|Hx].
  - rewrite (filter_cons_True P), (filter_cons_True Q) by tauto. by rewrite IH'.
  - rewrite (filter_cons_False P), (filter_cons_False Q) by tauto. done.
Qed.

Lemma filter_insert_last {A} (P Q : A → Prop) `{∀ x, Decision (P x)} `{∀ x, Decision (Q x)} (l : list A) x :
  NoDup l → x ∈ l → ¬ P x → (∀ y, y ∈ l → Q y ↔ P y ∨ y = x) → (∀ y, y ∈ l → P y → before l y x) →
  filter Q l = filter P l ++ [x].
Proof.
  intros Hnd Hx HPx HQ Hb. apply list_elem_of_split in Hx as (l1 & l2 & ->).
  assert (Hx : x ∉ l1 ∧ x ∉ l2).
  { apply NoDup_app in Hnd as (_ & Hd & Hnd). apply NoDup_cons in Hnd as [? _]. split; [|done].
    intros Hin. apply (Hd x Hin). by left. }
  assert (H2 : ∀ y, y ∈ l2 → ¬ P y).
  { intros y Hy HP. destruct (Hb y) as (i & j & Hij & Hi & Hj); [set_solver|done|].
    apply list_elem_of_lookup in Hy as [k Hk].
    assert (i = length l1 + S k)%nat as -> by (eapply NoDup_lookup; [exact Hnd|done|];
      rewrite lookup_app_r by lia; by replace (_ - _)%nat with (S k) by lia).
    assert (j = length l1) as -> by (eapply NoDup_lookup; [exact Hnd|done|]; by apply list_lookup_middle).
    lia. }
  rewrite !filter_app, (filter_cons_False P), (filter_cons_True Q) by (try apply HQ; set_solver).
  rewrite (list_filter_none P l2 H2), app_nil_r. f_equal.
  - apply filter_ext_elem. intros y Hy. rewrite HQ by set_solver. set_solver.
  - f_equal. apply list_filter_none. intros y Hy HQy. apply HQ in HQy as [HP| ->]; [by apply (H2 y)|tauto|].
    set_solver.
Qed.

(** The first element with a property. *)
Lemma filter_head {A} (P : A → Prop) `{∀ x, Decision (P x)} (l : list A) x r y :
  NoDup l → filter P l = x :: r → y ∈ l → P y → y = x ∨ before l x y.
Proof.
  intros Hnd E Hy HP. assert (Hx : x ∈ filter P l) by (rewrite E; by left).
  apply list_elem_of_filter in Hx as [HPx Hx].
  destruct (before_total l y x Hy Hx) as [?|[Hb|?]]; [by left| |by right].
  exfalso. destruct Hb as (i & j & Hij & Hi & Hj).
  rewrite <- (take_drop_middle l j x Hj), filter_app in E.
  assert (Hin : y ∈ filter P (take j l)).
  { apply list_elem_of_filter. split; [done|]. apply list_elem_of_lookup. exists i.
    by rewrite lookup_take_lt. }
  destruct (filter P (take j l)) as [|z f] eqn:Ef; [by apply elem_of_nil in Hin|].
  simpl in E. injection E as -> _.
  assert (Hz : x ∈ filter P (take j l)) by (rewrite Ef; by left).
  apply list_elem_of_filter in Hz as [_ Hz]. apply list_elem_of_lookup in Hz as [k Hk].
  apply lookup_take_Some in Hk as [Hk Hkj]. assert (k = j) by (by eapply NoDup_lookup). lia.
Qed.

Lemma filter_remove_head {A} (P Q : A → Prop) `{∀ x, Decision (P x)} `{∀ x, Decision (Q x)} (l : list A) x r :
  NoDup l → filter P l = x :: r → (∀ y, y ∈ l → Q y ↔ P y ∧ y ≠ x) → filter Q l = r.
Proof.
  intros Hnd E HQ. induction l as [|z l IH]; [done|]. apply NoDup_cons in Hnd as [Hz Hnd].
  pose proof (HQ z (list_elem_of_here _ _)) as Hqz. destruct (decide (P z)) as [HP|HP].
  - rewrite filter_cons_True in E by done. injection E as -> E. rewrite (filter_cons_False Q) by tauto.
    rewrite <- E. apply filter_ext_elem. intros y Hy. rewrite HQ by (by right). split; [tauto|].
    intros HPy. split; [done|]. by intros ->.
  - rewrite (filter_cons_False P) in E by done. rewrite (filter_cons_False Q) by tauto.
    apply IH; [done|done|]. intros y Hy. apply HQ. by right.
Qed.

Section simulation.
Context (inputs : ResolvedInput) (plan : StoragePlan) (program : NativeProgram) (slots : nat).
Context (Hok : plan_ok inputs plan) (order : list Instruction) (Hb : bound plan program order).

(** One threadblock for each identifier and for each end of a connection. *)
Record well_formed : Prop := {
  wf_ids : NoDup (block_id <$> np_blocks program);
  wf_ranks block : block ∈ np_blocks program → 0 ≤ nb_rank block;
  wf_senders b b' : b ∈ np_blocks program → b' ∈ np_blocks program → nb_send_peer b ≠ -1 →
    send_connection b = send_connection b' → b = b';
  wf_receivers b b' : b ∈ np_blocks program → b' ∈ np_blocks program → nb_recv_peer b ≠ -1 →
    recv_connection b = recv_connection b' → b = b';
}.
Context (Hwf : well_formed).

Notation instructions := (sp_instructions plan).
Notation items := (all_items program).
Notation site := (site plan program).

(** A step that its threadblock has completed. *)
Definition done (n : NativeState) (item : Item) : Prop :=
  (Z.to_nat item.2.1 < counter n item.1)%nat.

(** Transfers on a connection that are sent and not received. *)
Definition pending (p : PlanState) (c : Connection) : list Instruction :=
  filter (λ op, in_kind op ≠ "copy"%string ∧ connection_of op = c ∧
    (in_id op, Source) ∈ ps_done p ∧ (in_id op, Target) ∉ ps_done p) order.

Definition carries (p : PlanState) (op : Instruction) (message : string * gmultiset Z) : Prop :=
  ps_messages p !! in_id op = Some message.2.

Record sim (n : NativeState) (p : PlanState) : Prop := {
  sm_memory : ps_memory p = nt_memory n;
  sm_done op e item : op ∈ instructions → site op e item → (in_id op, e) ∈ ps_done p ↔ done n item;
  sm_received op : op ∈ instructions → in_kind op ≠ "copy"%string →
    (in_id op, Target) ∈ ps_done p → (in_id op, Source) ∈ ps_done p;
  sm_queue c : Forall2 (carries p) (pending p c) (queue n c);
  sm_released item : item ∈ items → done n item → released program n item.1 item.2.2;
}.

Lemma start_sim p : ps_done p = ∅ → sim (native_start (ps_memory p)) p.
Proof.
  intros Hd. split; [done| | | |].
  - intros op e item _ _. rewrite Hd. unfold done. rewrite start_counter. split; [set_solver|lia].
  - intros op _ _ H. by rewrite Hd in H.
  - intros c. unfold pending. rewrite list_filter_none; [constructor|].
    intros op _ (_ & _ & H & _). by rewrite Hd in H.
  - intros item _ H. unfold done in H. rewrite start_counter in H. lia.
Qed.

(** ** Positions *)

Lemma instruction_order_nodup : NoDup order.
Proof. rewrite (bd_order _ _ _ Hb). by eapply instructions_nodup. Qed.

Lemma order_ids_nodup : NoDup (in_id <$> order).
Proof. rewrite (bd_order _ _ _ Hb). apply (po_ids _ _ Hok). Qed.

Lemma elem_of_order op : op ∈ order ↔ op ∈ instructions.
Proof. by rewrite (bd_order _ _ _ Hb). Qed.

Lemma precedes_before a b :
  a ∈ instructions → b ∈ instructions → precedes order (in_id a) (in_id b) → before order a b.
Proof.
  intros Ha Hbi (i & j & Hij & Hi & Hj). rewrite list_lookup_fmap in Hi, Hj.
  destruct (order !! i) as [x|] eqn:Ei, (order !! j) as [y|] eqn:Ej; try done.
  injection Hi as Hi. injection Hj as Hj.
  assert (x = a) as -> by (eapply instruction_ids; try done; apply elem_of_order; by eapply list_elem_of_lookup_2).
  assert (y = b) as -> by (eapply instruction_ids; try done; apply elem_of_order; by eapply list_elem_of_lookup_2).
  by exists i, j.
Qed.

Lemma before_precedes a b : before order a b → precedes order (in_id a) (in_id b).
Proof.
  intros (i & j & Hij & Hi & Hj). exists i, j. rewrite !list_lookup_fmap, Hi, Hj. done.
Qed.

Lemma precedes_trans p q r : precedes order p q → precedes order q r → precedes order p r.
Proof. apply before_trans, order_ids_nodup. Qed.

Lemma precedes_irrefl p : ¬ precedes order p p.
Proof. apply before_irrefl, order_ids_nodup. Qed.

Lemma item_lookup item :
  item ∈ items → item.1 ∈ np_blocks program ∧ nb_steps item.1 !! Z.to_nat item.2.1 = Some item.2.2 ∧
    0 ≤ item.2.1.
Proof.
  intros (Hin & i & Hi & E)%elem_of_all_items. rewrite E, Nat2Z.id. split_and!; [done|done|lia].
Qed.

Lemma make_item block i step :
  block ∈ np_blocks program → nb_steps block !! i = Some step → (block, (Z.of_nat i, step)) ∈ items.
Proof. intros Hin Hi. apply elem_of_all_items. split; [done|]. by exists i. Qed.

Lemma same_coordinate x y : x ∈ items → y ∈ items → coordinate x = coordinate y → x = y.
Proof.
  apply NoDup_fmap_elem, coordinates_nodup, (wf_ids Hwf).
Qed.

(** Two steps of one block at the same position. *)
Lemma same_position x y : x ∈ items → y ∈ items → x.1 = y.1 → x.2.1 = y.2.1 → x = y.
Proof.
  intros Hx Hy E1 E2. apply same_coordinate; [done|done|]. unfold coordinate. by rewrite E1, E2.
Qed.

(** Working steps of one block follow the order. *)
Lemma block_order x y :
  x ∈ items → y ∈ items → x.1 = y.1 → x.2.1 < y.2.1 → ¬ item_nop x → ¬ item_nop y →
  item_op x = item_op y ∨ precedes order (item_op x) (item_op y).
Proof.
  intros Hx Hy E Hlt Hnx Hny. destruct (item_lookup x Hx) as (Hbx & Lx & Px).
  destruct (item_lookup y Hy) as (_ & Ly & Py). rewrite <- E in Ly.
  eapply (enforces_order program (precedes order) precedes_trans x.1 None ∅ (numbered x.1)
    (Z.to_nat x.2.1) (Z.to_nat y.2.1)); [by apply (bd_blocks _ _ _ Hb)|lia| | |exact Hnx|exact Hny].
  - by rewrite numbered_lookup, Lx.
  - by rewrite numbered_lookup, Ly.
Qed.

(** ** Endpoints *)

Lemma site_item op e item : site op e item → item ∈ items ∧ ¬ item_nop item ∧ item_op item = in_id op.
Proof. intros (H & _). by apply elem_of_items_of in H. Qed.

Lemma site_unique op e x y : site op e x → site op e y → x = y.
Proof. intros (_ & _ & Hu) (Hy & [Hr _] & _). symmetry. by apply Hu. Qed.

Lemma endpoints_differ op : op ∈ instructions → in_kind op ≠ "copy"%string → endpoint_rank op Source ≠ endpoint_rank op Target.
Proof. simpl. apply (transfer_ranks inputs plan Hok). Qed.

(** A step is the site of one endpoint. *)
Lemma site_function op e op' e' item :
  op ∈ instructions → op' ∈ instructions → site op e item → site op' e' item → op = op' ∧ e = e'.
Proof.
  intros Hop Hop' Hs Hs'. destruct (site_item _ _ _ Hs) as (_ & _ & E).
  destruct (site_item _ _ _ Hs') as (_ & _ & E').
  assert (op = op') as <- by (eapply instruction_ids; try done; congruence). split; [done|].
  destruct Hs as (_ & [R H] & _), Hs' as (_ & [R' H'] & _).
  destruct e, e'; try done; exfalso; [destruct H as [Hk _]|destruct H' as [Hk _]];
    apply (endpoints_differ op Hop Hk); congruence.
Qed.

(** The steps of one operation in one block are one step. *)
Lemma same_block op e x y :
  site op e x → y ∈ items → ¬ item_nop y → item_op y = in_id op → y.1 = x.1 → y = x.
Proof.
  intros (_ & [Hr _] & Hu) Hy Hn Eop E. apply Hu; [by apply elem_of_items_of|].
  unfold item_rank in *. by rewrite E.
Qed.

(** The ends of a connection are single blocks. *)
Lemma one_sender a b x y :
  a ∈ instructions → b ∈ instructions → site a Source x → site b Source y →
  connection_of a = connection_of b → x.1 = y.1.
Proof.
  intros Ha Hbi Hx Hy E. pose proof (site_item _ _ _ Hx) as (Ix & _).
  pose proof (site_item _ _ _ Hy) as (Iy & _).
  destruct Hx as (_ & [_ (Hk & _ & _ & Cx)] & _), Hy as (_ & [_ (_ & _ & _ & Cy)] & _).
  apply (wf_senders Hwf); [by apply item_lookup|by apply item_lookup| |congruence].
  destruct (bd_sites _ _ _ Hb a Target Ha I) as (t & Ht).
  pose proof (site_item _ _ _ Ht) as (It & _). destruct Ht as (_ & [Rt _] & _). simpl in Rt.
  pose proof (wf_ranks Hwf t.1 (proj1 (item_lookup _ It))).
  unfold send_connection, connection_of in Cx. injection Cx as _ C2 _. unfold item_rank in Rt. lia.
Qed.

Lemma target_connection op x :
  site op Target x → in_kind op ≠ "copy"%string → recv_connection x.1 = connection_of op.
Proof. intros (_ & [_ [_ H]] & _) Hk. rewrite decide_False in H by done. tauto. Qed.

Lemma one_receiver a b x y :
  a ∈ instructions → b ∈ instructions → in_kind a ≠ "copy"%string → in_kind b ≠ "copy"%string →
  site a Target x → site b Target y → connection_of a = connection_of b → x.1 = y.1.
Proof.
  intros Ha Hbi Hka Hkb Hx Hy E. pose proof (site_item _ _ _ Hx) as (Ix & _).
  pose proof (site_item _ _ _ Hy) as (Iy & _).
  pose proof (target_connection _ _ Hx Hka) as Cx. pose proof (target_connection _ _ Hy Hkb) as Cy.
  apply (wf_receivers Hwf); [by apply item_lookup|by apply item_lookup| |congruence].
  destruct (bd_sites _ _ _ Hb a Source Ha Hka) as (t & Ht).
  pose proof (site_item _ _ _ Ht) as (It & _). destruct Ht as (_ & [Rt _] & _). simpl in Rt.
  pose proof (wf_ranks Hwf t.1 (proj1 (item_lookup _ It))).
  unfold recv_connection, connection_of in Cx. injection Cx as C1 _ _. unfold item_rank in Rt. lia.
Qed.

(** Sites of one block lie in the order. *)
Lemma site_order a e b e' x y :
  site a e x → site b e' y → x.1 = y.1 → precedes order (in_id a) (in_id b) → x.2.1 < y.2.1.
Proof.
  intros Hx Hy Eb Hab.
  destruct (site_item _ _ _ Hx) as (Ix & Nx & Ex). destruct (site_item _ _ _ Hy) as (Iy & Ny & Ey).
  destruct (Z.lt_trichotomy x.2.1 y.2.1) as [?|[Heq|Hlt]]; [done| |]; exfalso.
  - pose proof (same_position _ _ Ix Iy Eb Heq) as ->. rewrite Ex in Ey. rewrite Ey in Hab.
    by apply precedes_irrefl in Hab.
  - destruct (block_order y x Iy Ix (eq_sym Eb) Hlt Ny Nx) as [E'|Hr]; rewrite Ex, Ey in *.
    + rewrite E' in Hab. by apply precedes_irrefl in Hab.
    + exact (precedes_irrefl _ (precedes_trans _ _ _ Hab Hr)).
Qed.

(** ** Steps that are complete *)

(** The step that [block] would run next. *)
Definition next_item (n : NativeState) (block : NativeBlock) (step : NativeStep) : Item :=
  (block, (Z.of_nat (counter n block), step)).

Lemma next_elem n block step : current program n block step → next_item n block step ∈ items.
Proof. intros (Hin & Hl & _). by apply make_item. Qed.

Lemma next_not_done n block step : ¬ done n (next_item n block step).
Proof. unfold done, next_item. cbn [fst snd]. lia. Qed.

Lemma done_advance n block step memory queues x :
  current program n block step → x ∈ items →
  done (advance n block memory queues) x ↔ done n x ∨ x = next_item n block step.
Proof.
  intros Hc Hx. pose proof (next_elem _ _ _ Hc) as Hn. destruct (item_lookup x Hx) as (Hbx & Lx & Px).
  destruct Hc as (Hin & Hl & _). unfold done. rewrite counter_advance. case_decide as E.
  - apply (NoDup_fmap_elem block_id _ _ _ (wf_ids Hwf)) in E as E1; [|done|done]. rewrite E1. split.
    + intros H. destruct (decide (Z.to_nat x.2.1 = counter n block)) as [Ei|Ei]; [right|left; lia].
      apply same_position; [done|done|done|]. unfold next_item. cbn [snd fst]. lia.
    + intros [H| ->]; [lia|]. unfold next_item. cbn [fst snd]. lia.
  - split; [by left|]. intros [H| ->]; [done|]. by destruct E.
Qed.

Lemma edge_done n p item a item' :
  sim n p → item ∈ items → done n item ∨ (∃ block step, current program n block step ∧ item = next_item n block step) →
  a ∈ item_predecessors item → item' ∈ items → coordinate item' = a → done n item'.
Proof.
  intros Hs Hi Hready Ha Hi' Ec. destruct (item_lookup item Hi) as (Hb1 & L1 & P1).
  destruct (item_lookup item' Hi') as (Hb2 & L2 & P2).
  assert (Hle : (Z.to_nat item.2.1 ≤ counter n item.1)%nat ∧ released program n item.1 item.2.2).
  { destruct Hready as [Hd|(block & step & Hc & ->)].
    - split; [unfold done in Hd; lia|by eapply (sm_released _ _ Hs)].
    - unfold next_item. cbn [fst snd]. split; [lia|apply Hc]. }
  destruct Hle as [Hle Hrel]. unfold item_predecessors, local_predecessors in Ha.
  apply elem_of_union in Ha as [Ha|Ha].
  - destruct (item.2.1 =? 0) eqn:E0; [by apply elem_of_empty in Ha|]. apply elem_of_singleton in Ha.
    rewrite <- Ec in Ha. unfold coordinate in Ha. injection Ha as E1 E2 E3. apply Z.eqb_neq in E0.
    assert (item'.1 = item.1) as Eb
      by (eapply (NoDup_fmap_elem block_id); [apply (wf_ids Hwf)|done|done|unfold block_id; congruence]).
    unfold done. rewrite Eb. lia.
  - destruct (0 <=? ns_dependency_tb item.2.2) eqn:E0; [|by apply elem_of_empty in Ha].
    apply elem_of_singleton in Ha. apply Z.leb_le in E0.
    destruct (Hrel E0) as (target & index & t & (_ & Ht & Er & Etb & Ei & Lt) & _ & Hlt).
    assert (item' = (target, (Z.of_nat index, t))) as ->.
    { apply same_coordinate; [done|by apply make_item|]. rewrite Ec, Ha. unfold coordinate.
      cbn [fst snd]. by rewrite Er, Etb, Ei. }
    unfold done. cbn [fst snd]. by rewrite Nat2Z.id.
Qed.

(** All steps before the next one, by the order of the rank, are complete. *)
Lemma path_done n p block step item' :
  sim n p → current program n block step → item' ∈ items →
  tc (local_edge program) (coordinate item') (coordinate (next_item n block step)) → done n item'.
Proof.
  intros Hs Hc Hi' Hp.
  assert (Hgen : ∀ z, tc (local_edge program) (coordinate item') z → ∀ item, item ∈ items → coordinate item = z →
    done n item ∨ (∃ block step, current program n block step ∧ item = next_item n block step) → done n item').
  { apply (tc_ind_r (R := local_edge program) (λ z, ∀ item, item ∈ items → coordinate item = z → _ → done n item')).
    - intros z (x & Hx & <- & Ha) item Hi E Hr.
      apply same_coordinate in E as ->; [|done|done]. by eapply edge_done.
    - intros y z Hxy (x & Hx & <- & Ha) IH item Hi E Hr.
      apply same_coordinate in E as ->; [|done|done].
      assert (Hy : ∃ w, w ∈ items ∧ coordinate w = y).
      { apply tc_inv_r in Hxy as [(w & Hw & E & _)|(q & _ & (w & Hw & E & _))]; by exists w. }
      destruct Hy as (w & Hw & E). eapply (IH w Hw E). left. exact (edge_done _ _ _ _ _ Hs Hi Hr Ha Hw E). }
  eapply Hgen; [exact Hp|by apply next_elem|done|]. right. eauto.
Qed.

(** An endpoint whose step is next may run in the plan. *)
Lemma endpoint_may_run n p block step op e :
  sim n p → current program n block step → op ∈ instructions → site op e (next_item n block step) →
  may_run plan p op e.
Proof.
  intros Hs Hc Hop Hsite. split.
  - intros Hd. apply (sm_done _ _ Hs op e _ Hop Hsite) in Hd. by apply next_not_done in Hd.
  - intros j e' Hj Hd He' Hr. destruct (bd_sites _ _ _ Hb j e' Hj He') as (item' & Hsite').
    apply (sm_done _ _ Hs j e' item' Hj Hsite'). eapply path_done; [done|done| |].
    + by apply (site_item _ _ _ Hsite').
    + by eapply (bd_local _ _ _ Hb op e _ j e' item').
Qed.

(** The completed endpoints after a step of [op]. *)
Lemma done_step n p block step memory queues op e :
  sim n p → current program n block step → op ∈ instructions → site op e (next_item n block step) →
  ∀ op' e' item, op' ∈ instructions → site op' e' item →
    (in_id op', e') ∈ ({[(in_id op, e)]} ∪ ps_done p : gset (string * Endpoint)) ↔
    done (advance n block memory queues) item.
Proof.
  intros Hs Hc Hop Hsite op' e' item Hop' Hsite'.
  rewrite (done_advance _ _ step) by (try done; apply (site_item _ _ _ Hsite')).
  rewrite elem_of_union, elem_of_singleton, (sm_done _ _ Hs op' e' item) by done. split.
  - intros [[= E <-]|?]; [right|by left].
    assert (op' = op) as -> by (by eapply instruction_ids). by eapply site_unique.
  - intros [?| ->]; [by right|left].
    by destruct (site_function op' e' op e _ Hop' Hop Hsite' Hsite) as [-> ->].
Qed.

Lemma released_step n n' p block step memory queues :
  sim n p → current program n block step → native_step inputs slots program n n' →
  n' = advance n block memory queues →
  ∀ item, item ∈ items → done n' item → released program n' item.1 item.2.2.
Proof.
  intros Hs Hc Hstep -> item Hi Hd. eapply released_monotone; [exact Hstep|].
  apply (done_advance _ _ step) in Hd as [Hd| ->]; [|apply Hc|done|done].
  by eapply (sm_released _ _ Hs).
Qed.

(** ** Queues *)

Lemma elem_of_pending p c op :
  op ∈ pending p c ↔ op ∈ instructions ∧ in_kind op ≠ "copy"%string ∧ connection_of op = c ∧
    (in_id op, Source) ∈ ps_done p ∧ (in_id op, Target) ∉ ps_done p.
Proof. unfold pending. rewrite list_elem_of_filter, elem_of_order. tauto. Qed.

(** The completion of endpoints of other connections leaves a queue alone. *)
Lemma pending_same p p' c :
  (∀ op, op ∈ instructions → in_kind op ≠ "copy"%string → connection_of op = c → ∀ e,
     (in_id op, e) ∈ ps_done p' ↔ (in_id op, e) ∈ ps_done p) →
  pending p' c = pending p c.
Proof.
  intros H. apply filter_ext_elem. intros op Hop%elem_of_order. split; intros (Hk & Hc & Hs & Ht);
    split_and!; try done; try (by apply (H op Hop Hk Hc)); intros Hd; by apply Ht, (H op Hop Hk Hc).
Qed.

Lemma pending_send p p' op n block step :
  sim n p → current program n block step → op ∈ instructions → site op Source (next_item n block step) →
  ps_done p' = {[(in_id op, Source)]} ∪ ps_done p →
  pending p' (connection_of op) = pending p (connection_of op) ++ [op].
Proof.
  intros Hs Hc Hop Hsite Ed.
  assert (Hk : in_kind op ≠ "copy"%string) by (destruct Hsite as (_ & [_ H] & _); tauto).
  assert (Hnew : (in_id op, Source) ∉ ps_done p).
  { intros Hd. apply (sm_done _ _ Hs op Source _ Hop Hsite) in Hd. by apply next_not_done in Hd. }
  assert (Htarget : (in_id op, Target) ∉ ps_done p).
  { intros Hd. by apply Hnew, (sm_received _ _ Hs op Hop Hk). }
  apply filter_insert_last; [apply instruction_order_nodup|by apply elem_of_order|tauto| |].
  - intros y Hy%elem_of_order. rewrite Ed. rewrite !elem_of_union, !elem_of_singleton. split.
    + intros (Hky & Hcy & [[= E]|Hd] & Ht); [right; by eapply instruction_ids|left; tauto].
    + intros [(Hky & Hcy & Hd & Ht)| ->]; [|split_and!; try done; [by left|]].
      * split_and!; try done; [by right|]. intros [[= ?]|?]; done.
      * intros [[= ?]|?]; done.
  - intros y Hy%elem_of_order (Hky & Hcy & Hd & Ht).
    destruct (bd_sites _ _ _ Hb y Source Hy Hky) as (z & Hz).
    apply (sm_done _ _ Hs y Source z Hy Hz) in Hd.
    pose proof (one_sender _ _ _ _ Hy Hop Hz Hsite Hcy) as Eb.
    apply precedes_before; [done|done|].
    destruct (site_item _ _ _ Hz) as (Iz & Nz & Ez). destruct (site_item _ _ _ Hsite) as (In & Nn & En).
    destruct (block_order z (next_item n block step) Iz In Eb) as [E|E]; [|done|done| |by rewrite Ez, En in E].
    + unfold done in Hd. rewrite Eb in Hd. unfold next_item in *. cbn [fst snd] in *.
      destruct (item_lookup _ Iz) as (_ & _ & ?). lia.
    + exfalso. assert (y = op) as -> by (eapply instruction_ids; try done; congruence).
      apply Hnew, (sm_done _ _ Hs op Source z); done.
Qed.

(** The oldest message of a connection belongs to the next receive. *)
Lemma head_is_own n p block step op y r :
  sim n p → current program n block step → op ∈ instructions → in_kind op ≠ "copy"%string →
  site op Target (next_item n block step) → pending p (connection_of op) = y :: r → y = op.
Proof.
  intros Hs Hc Hop Hk Hsite E.
  assert (Hy : y ∈ pending p (connection_of op)) by (rewrite E; by left).
  apply elem_of_pending in Hy as (Hy & Hky & Hcy & Hyd & Hyt).
  destruct (bd_sites _ _ _ Hb y Target Hy I) as (ty & Hty).
  rewrite (sm_done _ _ Hs y Target ty Hy Hty) in Hyt.
  pose proof (one_receiver _ _ _ _ Hop Hy Hk Hky Hsite Hty (eq_sym Hcy)) as Eb.
  destruct (site_item _ _ _ Hty) as (Iy & Ny & Ey). destruct (site_item _ _ _ Hsite) as (In & Nn & En).
  assert (Hle : (next_item n block step).2.1 ≤ ty.2.1).
  { unfold done in Hyt. rewrite <- Eb in Hyt. unfold next_item in *. cbn [fst snd] in *.
    destruct (item_lookup _ Iy) as (_ & _ & ?). lia. }
  apply Z.le_lteq in Hle as [Hlt|Heq].
  2: { pose proof (same_position _ _ In Iy Eb Heq) as E2. rewrite <- E2 in Hty.
       by destruct (site_function y Target op Target _ Hy Hop Hty Hsite). }
  destruct (block_order _ ty In Iy Eb Hlt Nn Ny) as [E2|Hr]; rewrite Ey, En in *.
  { by eapply instruction_ids. }
  exfalso. destruct (bd_sites _ _ _ Hb op Source Hop Hk) as (so & Hso).
  destruct (bd_sites _ _ _ Hb y Source Hy Hky) as (sy & Hsy).
  pose proof (one_sender _ _ _ _ Hop Hy Hso Hsy (eq_sym Hcy)) as Es.
  pose proof (site_order _ _ _ _ _ _ Hso Hsy Es Hr) as Hso_lt.
  apply (sm_done _ _ Hs y Source sy Hy Hsy) in Hyd.
  assert (Hin : op ∈ pending p (connection_of op)).
  { apply elem_of_pending. split_and!; try done.
    - apply (sm_done _ _ Hs op Source so Hop Hso). unfold done in *. rewrite Es.
      destruct (site_item _ _ _ Hso) as (Io & _). destruct (item_lookup _ Io) as (_ & _ & ?). lia.
    - rewrite (sm_done _ _ Hs op Target _ Hop Hsite). apply next_not_done. }
  pose proof (proj1 (elem_of_pending _ _ _) Hin) as (_ & P).
  destruct (filter_head _ _ _ _ op instruction_order_nodup E) as [<-|Hbef]; [by apply elem_of_order|exact P| |].
  - by apply precedes_irrefl in Hr.
  - exact (precedes_irrefl _ (precedes_trans _ _ _ Hr (before_precedes _ _ Hbef))).
Qed.

Lemma pending_receive p p' op r :
  op ∈ instructions → pending p (connection_of op) = op :: r →
  ps_done p' = {[(in_id op, Target)]} ∪ ps_done p → pending p' (connection_of op) = r.
Proof.
  intros Hop E Ed. eapply filter_remove_head; [apply instruction_order_nodup|exact E|].
  intros y Hy%elem_of_order. rewrite Ed, !elem_of_union, !elem_of_singleton. split.
  - intros (Hk & Hc & [[=]|Hd] & Ht). split; [tauto|]. intros ->. apply Ht. by left.
  - intros ((Hk & Hc & Hd & Ht) & Hne). split_and!; try done; [by right|].
    intros [[= E2]|?]; [|done]. apply Hne. by eapply instruction_ids.
Qed.

Lemma carries_mono p p' l q :
  (∀ y, y ∈ l → ps_messages p' !! in_id y = ps_messages p !! in_id y) →
  Forall2 (carries p) l q → Forall2 (carries p') l q.
Proof.
  intros Hl HF. induction HF as [|y x l q Hx HF IH]; constructor.
  - unfold carries in *. by rewrite Hl by left.
  - apply IH. intros z Hz. apply Hl. by right.
Qed.

(** A step of [op] that the plan takes too. *)
Lemma sim_build n p block step op e memory queues messages :
  let n' := advance n block memory queues in
  let p' := MkPlanState ({[(in_id op, e)]} ∪ ps_done p) memory messages in
  sim n p → current program n block step → native_step inputs slots program n n' →
  op ∈ instructions → site op e (next_item n block step) →
  (e = Target → in_kind op ≠ "copy"%string → (in_id op, Source) ∈ ps_done p) →
  (∀ c, Forall2 (carries p') (pending p' c) (queue n' c)) → sim n' p'.
Proof.
  intros n' p' Hs Hc Hstep Hop Hsite Hsource Hq. split; [done| | |exact Hq|].
  - intros op' e' item Hop' Hsite'. by eapply done_step.
  - intros o Ho Hk. unfold p'. cbn [ps_done]. rewrite !elem_of_union, !elem_of_singleton.
    intros [[= E <-]|Hd]; right; [|by apply (sm_received _ _ Hs)].
    assert (o = op) as -> by (by eapply instruction_ids). by apply Hsource.
  - by eapply released_step.
Qed.

(** The operands and the result of a step in the storage of the plan. *)
Lemma operand_stored n op index step m :
  stored inputs n (ns_src step) m → reads_operand plan op index step →
  ∃ key cell, in_inputs op !! index = Some key ∧ cell_of inputs plan key = Some cell ∧
    nt_memory n !! cell = Some m.
Proof.
  intros (a & cell & Ea & Hcell & Hm) (key & a' & Hkey & Ha & Ea').
  assert (a' = a) as -> by congruence. exists key, cell. split; [done|]. split; [|done].
  unfold cell_of. by rewrite Ha.
Qed.

Lemma result_cell op step a cell :
  writes_output plan op step → ns_dst step = Some a → address_cell inputs a = Some cell →
  cell_of inputs plan (in_output op) = Some cell.
Proof.
  intros (a' & Ha & Ea) E Hc. assert (a' = a) as -> by congruence. unfold cell_of. by rewrite Ha.
Qed.

(** ** Steps *)

Notation plan_step := (plan_step inputs plan).
Notation native_step := (native_step inputs slots program).

(** The endpoint of the next step, by its kind. *)
Lemma next_endpoint n block step :
  current program n block step → ¬ is_nop step → ∃ op e, op ∈ instructions ∧ has_endpoint op e ∧
    site op e (next_item n block step) ∧ realises plan op e (next_item n block step).
Proof.
  intros Hc Hn. destruct (bd_items _ _ _ Hb _ (next_elem _ _ _ Hc) Hn) as (op & e & Hop & He & Hsite).
  exists op, e. split_and!; try done. apply Hsite.
Qed.

Lemma transfer_kind op : op ∈ instructions → in_kind op ≠ "copy"%string → in_kind op ≠ "rrc"%string →
  in_kind op = "send"%string.
Proof.
  intros Hop H1 H2. destruct (po_computes _ _ Hok op Hop) as (c0 & key & c & _ & _ & _ & _ & H).
  rewrite decide_False in H by done. destruct H as (_ & _ & H). rewrite decide_False in H by done. tauto.
Qed.

Lemma sim_nop n p block step :
  sim n p → current program n block step → is_nop step →
  sim (advance n block (nt_memory n) (nt_queues n)) p.
Proof.
  intros Hs Hc Hn. split; [apply (sm_memory _ _ Hs)| |apply (sm_received _ _ Hs)| |].
  - intros op e item Hop Hsite. rewrite (sm_done _ _ Hs op e item Hop Hsite).
    destruct (site_item _ _ _ Hsite) as (Hi & Hni & _).
    rewrite (done_advance _ _ step) by done. split; [by left|]. intros [?| ->]; [done|by destruct Hni].
  - intros c. apply (sm_queue _ _ Hs).
  - eapply released_step; [exact Hs|exact Hc|by eapply native_nop|done].
Qed.

Lemma sim_send n p block step op m :
  sim n p → current program n block step → op ∈ instructions → has_endpoint op Source →
  site op Source (next_item n block step) → stored inputs n (ns_src step) m →
  (length (queue n (send_connection block)) < slots)%nat → ns_kind step = "s"%string →
  ∃ p', plan_step p p' ∧ sim (advance n block (nt_memory n)
    (<[send_connection block := queue n (send_connection block) ++ [(ns_operation_id step, m)]]> (nt_queues n))) p'.
Proof.
  intros Hs Hc Hop Hk Hsite Hm Hslots Hkind.
  assert (Hr : realises plan op Source (next_item n block step)) by apply Hsite.
  destruct Hr as [_ (_ & _ & Hread & Hconn)]. cbn [next_item fst snd] in Hread, Hconn.
  destruct (operand_stored _ _ _ _ _ Hm Hread) as (key & cell & Hkey & Hcell & Hmem).
  pose proof (endpoint_may_run _ _ _ _ _ _ Hs Hc Hop Hsite) as Hrun.
  rewrite <- (sm_memory _ _ Hs) in Hmem. eexists. split; [by eapply plan_send|].
  rewrite (sm_memory _ _ Hs). eapply sim_build; [exact Hs|exact Hc|by eapply native_send|exact Hop|exact Hsite|done|].
  intros c. rewrite queue_insert. case_decide as E.
  - subst c. rewrite Hconn. erewrite pending_send by done. rewrite <- Hconn at 2. apply Forall2_app.
    + rewrite <- Hconn. apply (carries_mono p); [|apply (sm_queue _ _ Hs)].
      intros y (Hy & _ & _ & Hd & _)%elem_of_pending. cbn [ps_messages].
      apply lookup_insert_ne. intros E. destruct Hrun as [Hnew _]. by rewrite E in Hnew.
    + constructor; [|constructor]. unfold carries. cbn [ps_messages snd]. apply lookup_insert_eq.
  - rewrite (pending_same p).
    + apply (carries_mono p); [|apply (sm_queue _ _ Hs)].
      intros y (Hy & _ & _ & Hd & _)%elem_of_pending. cbn [ps_messages].
      apply lookup_insert_ne. intros E2. destruct Hrun as [Hnew _]. by rewrite E2 in Hnew.
    + intros o Ho Hko Hco e. cbn [ps_done]. rewrite elem_of_union, elem_of_singleton. split; [|by right].
      intros [[= E2 ->]|?]; [|done]. assert (o = op) as -> by (by eapply instruction_ids).
      by rewrite Hconn in E.
Qed.

(** What a receive finds. *)
Lemma receive_message n p block step op tag m rest :
  sim n p → current program n block step → op ∈ instructions → in_kind op ≠ "copy"%string →
  site op Target (next_item n block step) → queue n (recv_connection block) = (tag, m) :: rest →
  recv_connection block = connection_of op ∧ ps_messages p !! in_id op = Some m ∧
  (in_id op, Source) ∈ ps_done p ∧
  ∀ memory, let p' := MkPlanState ({[(in_id op, Target)]} ∪ ps_done p) memory (ps_messages p) in
    ∀ n', nt_queues n' = <[recv_connection block := rest]> (nt_queues n) →
    ∀ c, Forall2 (carries p') (pending p' c) (queue n' c).
Proof.
  intros Hs Hc Hop Hk Hsite E. pose proof (target_connection _ _ Hsite Hk) as Hconn.
  cbn [next_item fst] in Hconn. split; [done|].
  pose proof (sm_queue _ _ Hs (recv_connection block)) as Hq. rewrite E in Hq.
  apply Forall2_cons_inv_r in Hq as (y & r & Hy & Hr & Ep). rewrite Hconn in Ep.
  pose proof (head_is_own _ _ _ _ _ _ _ Hs Hc Hop Hk Hsite Ep) as ->.
  split; [exact Hy|].
  assert (Hin : op ∈ pending p (connection_of op)) by (rewrite Ep; by left).
  apply elem_of_pending in Hin as (_ & _ & _ & Hsrc & _). split; [done|].
  intros memory p' n' En c. unfold queue. rewrite En.
  destruct (decide (c = recv_connection block)) as [->|Hne].
  - rewrite lookup_insert_eq, Hconn, (pending_receive p p' op r) by done. by apply (carries_mono p).
  - rewrite lookup_insert_ne by done. rewrite (pending_same p).
    + apply (carries_mono p); [done|]. apply (sm_queue _ _ Hs).
    + intros o Ho Hko Hco e. unfold p'. cbn [ps_done]. rewrite elem_of_union, elem_of_singleton.
      split; [|by right]. intros [[= E2 ->]|?]; [|done].
      assert (o = op) as -> by (by eapply instruction_ids). congruence.
Qed.

(** Every step of the program is a step of the plan, or none. *)
Lemma sim_step n n' p :
  sim n p → native_step n n' → sim n' p ∨ ∃ p', plan_step p p' ∧ sim n' p'.
Proof.
  intros Hs Hstep. pose proof Hstep as Hstep0.
  destruct Hstep as [block step Hc Hn|block step m Hc Hkind Hm Hslots
    |block step a cell tag m rest Hc Hkind Hq Hdst Hcell|block step a cell tag m rest n0 Hc Hkind Hq Hn0 Hdst Hcell
    |block step a cell m Hc Hkind Hm Hdst Hcell].
  { left. by eapply sim_nop. }
  all: right; assert (Hn : ¬ is_nop step) by (unfold is_nop; by rewrite Hkind);
    destruct (next_endpoint _ _ _ Hc Hn) as (op & e & Hop & He & Hsite & [_ Hr]);
    pose proof (endpoint_may_run _ _ _ _ _ _ Hs Hc Hop Hsite) as Hrun;
    cbn [next_item fst snd] in Hr; destruct e;
    [destruct Hr as (Hk & Hks & Hread & _); rewrite Hkind in Hks|destruct Hr as [Hout Hr]]; try done.
  - by eapply sim_send.
  - repeat case_decide; destruct_and?; congruence.
  - case_decide as Hk; [destruct Hr; congruence|].
    destruct Hr as [_ Hr]. case_decide as Hk2; [destruct Hr; congruence|].
    destruct (receive_message _ _ _ _ _ _ _ _ Hs Hc Hop Hk Hsite Hq) as (_ & Hmsg & Hsrc & Hqueues).
    pose proof (result_cell _ _ _ _ Hout Hdst Hcell) as Hresult.
    eexists. split; [eapply plan_receive; try done; by apply transfer_kind|].
    rewrite (sm_memory _ _ Hs). eapply sim_build; try done. by apply Hqueues.
  - case_decide as Hk; [destruct Hr; congruence|].
    destruct Hr as [_ Hr]. case_decide as Hk2; [|congruence]. destruct Hr as [_ Hread].
    destruct (receive_message _ _ _ _ _ _ _ _ Hs Hc Hop Hk Hsite Hq) as (_ & Hmsg & Hsrc & Hqueues).
    pose proof (result_cell _ _ _ _ Hout Hdst Hcell) as Hresult.
    destruct (operand_stored _ _ _ _ _ Hn0 Hread) as (key & c1 & Hkey & Hc1 & Hmem).
    rewrite <- (sm_memory _ _ Hs) in Hmem.
    eexists. split; [by eapply plan_reduce|].
    rewrite (sm_memory _ _ Hs). eapply sim_build; try done. by apply Hqueues.
  - case_decide as Hk; [|repeat case_decide; destruct_and?; congruence]. destruct Hr as [_ Hread].
    pose proof (result_cell _ _ _ _ Hout Hdst Hcell) as Hresult.
    destruct (operand_stored _ _ _ _ _ Hm Hread) as (key & c1 & Hkey & Hc1 & Hmem).
    rewrite <- (sm_memory _ _ Hs) in Hmem.
    eexists. split; [by eapply plan_copy|].
    rewrite (sm_memory _ _ Hs). eapply sim_build; try done.
    intros c. change (queue (advance _ _ _ _) c) with (queue n c). rewrite (pending_same p).
    + apply (carries_mono p); [done|]. apply (sm_queue _ _ Hs).
    + intros o Ho Hko Hco e. cbn [ps_done]. rewrite elem_of_union, elem_of_singleton.
      split; [|by right]. intros [[= E2 ->]|?]; [|done].
      assert (o = op) as -> by (by eapply instruction_ids). done.
Qed.

Lemma sim_run n n' p :
  sim n p → rtc native_step n n' → ∃ p', rtc plan_step p p' ∧ sim n' p'.
Proof.
  intros Hs Hr. revert p Hs. induction Hr as [n|n n1 n' H1 _ IH]; intros p Hs; [by exists p|].
  destruct (sim_step _ _ _ Hs H1) as [Hs1|(p1 & Hp1 & Hs1)]; destruct (IH _ Hs1) as (p' & Hp' & Hs'); [by exists p'|].
  exists p'. split; [|done]. by eapply rtc_l.
Qed.

Lemma sim_finished n p : sim n p → native_finished program n → plan_finished plan p.
Proof.
  intros Hs Hf op e Hop He. destruct (bd_sites _ _ _ Hb op e Hop He) as (item & Hsite).
  apply (sm_done _ _ Hs op e item Hop Hsite). destruct (site_item _ _ _ Hsite) as (Hi & _).
  destruct (item_lookup _ Hi) as (Hbk & Hl & _). unfold done. rewrite (Hf _ Hbk).
  by eapply lookup_lt_Some.
Qed.

(** ** Progress *)

Lemma native_steps_get c t :
  dict_get c (native_steps program) = Some t →
  ∃ block index, block ∈ np_blocks program ∧ nb_steps block !! index = Some t ∧
    c = (nb_rank block, nb_tb_id block, Z.of_nat index).
Proof.
  intros H. unfold native_steps in H.
  assert (Hin : (c, t) ∈ np_blocks program ≫= block_coordinates).
  { rewrite dict_of_list_nodup in H; [by apply dict_get_Some_1|].
    assert (E : (np_blocks program ≫= λ block, block_coordinates block) =
      (λ item, (coordinate item, item.2.2)) <$> all_items program).
    { clear H. unfold all_items. induction (np_blocks program) as [|b l IH]; [done|].
      rewrite !bind_cons, fmap_app. f_equal; [|exact IH].
      unfold block_coordinates, indexed_steps. rewrite <- list_fmap_compose.
      apply list_fmap_ext. by intros _ [k st] _. }
    rewrite E, <- list_fmap_compose. apply coordinates_nodup, (wf_ids Hwf). }
  apply list_elem_of_bind in Hin as (block & Hin & Hblock).
  apply list_elem_of_fmap in Hin as ([k st] & [= -> ->] & Hin).
  apply list_elem_of_lookup in Hin as [i Hi]. rewrite zip_seqZ_lookup in Hi.
  destruct (nb_steps block !! i) as [x|] eqn:E; [|done]. injection Hi as <- <-. by exists block, i.
Qed.

(** Every step has passed the checks of its wait. *)
Lemma wait_checked block i step :
  block ∈ np_blocks program → nb_steps block !! i = Some step →
  ∃ wait, native_wait (native_steps program) block (Z.of_nat i) step = Ok wait.
Proof.
  intros Hin Hi. pose proof (bd_blocks _ _ _ Hb block Hin) as He.
  assert (Hni : numbered block !! i = Some (Z.of_nat i, step)) by (by rewrite numbered_lookup, Hi).
  revert He Hni. generalize (numbered block) as l, (@None string) as previous, (∅ : gset string) as waiting.
  clear Hi. generalize (Z.of_nat i) as k. intros k l. revert i.
  induction l as [|[k' st] l IH]; intros i previous waiting He Hl; [done|].
  cbn [enforces] in He. destruct He as (wait & Hw & He). destruct i as [|i]; simpl in Hl.
  - injection Hl as -> ->. by exists wait.
  - case_decide; [destruct He as [_ He]|destruct He as (_ & _ & He)]; by eapply IH.
Qed.

Lemma wait_target block i step :
  block ∈ np_blocks program → nb_steps block !! i = Some step → 0 ≤ ns_dependency_tb step →
  ∃ target index t, awaits program block step target index t ∧ ns_has_dependence t = true ∧ ¬ is_nop t ∧
    native_wait (native_steps program) block (Z.of_nat i) step = Ok {[ns_operation_id t]}.
Proof.
  intros Hin Hi Hd. destruct (wait_checked block i step Hin Hi) as (wait & Hw).
  pose proof Hw as Hw'. unfold native_wait in Hw. apply bind_Ok in Hw as ([] & _ & Hw).
  rewrite (proj2 (Z.leb_le _ _) Hd) in Hw. apply bind_Ok in Hw as (t & Ht & Hw).
  apply bind_Ok in Hw as ([] & _ & [= <-]).
  destruct (dict_get _ (native_steps program)) as [t'|] eqn:Eg; [|done].
  apply bind_Ok in Ht as ([] & Hk & [= ->]). apply raise_when_Ok in Hk. bool_prop.
  apply native_steps_get in Eg as (target & index & Ht & Hl & E). injection E as E1 E2 E3.
  exists target, index, t. split_and!; try done.
Qed.

(** The first operation in the order that has an endpoint to run. *)
Lemma first_unfinished n p :
  sim n p → bounded program n →
  native_finished program n ∨ ∃ op e, op ∈ instructions ∧ has_endpoint op e ∧ (in_id op, e) ∉ ps_done p ∧
    (e = Target → in_kind op ≠ "copy"%string → (in_id op, Source) ∈ ps_done p) ∧
    ∀ op' e', op' ∈ instructions → has_endpoint op' e' → precedes order (in_id op') (in_id op) →
      (in_id op', e') ∈ ps_done p.
Proof.
  intros Hs Hbound.
  set (open := λ op, (in_kind op ≠ "copy"%string ∧ (in_id op, Source) ∉ ps_done p) ∨ (in_id op, Target) ∉ ps_done p).
  assert (Hopen : ∀ op, ¬ open op → ∀ e, has_endpoint op e → (in_id op, e) ∈ ps_done p).
  { intros op Hn e He. destruct (decide ((in_id op, e) ∈ ps_done p)) as [?|Hd]; [done|].
    exfalso. apply Hn. unfold open. destruct e; [by left|by right]. }
  destruct (filter open order) as [|X r] eqn:E.
  - left. intros block Hin. apply Nat.le_antisymm; [by apply Hbound|]. apply Nat.nlt_ge. intros Hlt.
    destruct (lookup_lt_is_Some_2 _ _ Hlt) as [step Hstep].
    destruct (enforces_work program (precedes order) block None ∅ (numbered block) (counter n block) (Z.of_nat (counter n block), step))
      as (j & [k t] & Hj & Hl & Hn); [by apply (bd_blocks _ _ _ Hb)|left; by rewrite numbered_lookup, Hstep|].
    rewrite numbered_lookup in Hl. destruct (nb_steps block !! j) as [t'|] eqn:Ej; [|done].
    injection Hl as <- ->. cbn [snd] in Hn.
    destruct (bd_items _ _ _ Hb (block, (Z.of_nat j, t)) (make_item _ _ _ Hin Ej) Hn) as (op & e & Hop & He & Hsite).
    assert (Hno : ¬ open op).
    { intros Ho. apply (not_elem_of_nil op). rewrite <- E. apply list_elem_of_filter. split; [done|by apply elem_of_order]. }
    apply Hopen with (e := e) in Hno; [|done]. apply (sm_done _ _ Hs op e _ Hop Hsite) in Hno.
    unfold done in Hno. cbn [fst snd] in Hno. lia.
  - right. assert (HX : X ∈ filter open order) by (rewrite E; by left).
    apply list_elem_of_filter in HX as [HopenX HX].
    assert (Hfirst : ∀ op' e', op' ∈ instructions → has_endpoint op' e' →
      precedes order (in_id op') (in_id X) → (in_id op', e') ∈ ps_done p).
    { intros op' e' Hop' He' Hp. apply Hopen; [|done]. intros Ho.
      destruct (filter_head _ _ _ _ op' instruction_order_nodup E) as [->|Hbef]; [by apply elem_of_order|done| |].
      - by apply precedes_irrefl in Hp.
      - exact (precedes_irrefl _ (precedes_trans _ _ _ Hp (before_precedes _ _ Hbef))). }
    apply elem_of_order in HX.
    destruct (decide (in_kind X ≠ "copy"%string ∧ (in_id X, Source) ∉ ps_done p)) as [[Hk Hd]|Hd].
    + exists X, Source. split_and!; done.
    + exists X, Target. split_and!; [done|done| | |done].
      * destruct HopenX; tauto.
      * intros _ Hk. destruct (decide ((in_id X, Source) ∈ ps_done p)); [done|]. tauto.
Qed.

(** The next step of the threadblock of that endpoint may start. *)
Lemma first_current n p op e item :
  sim n p → op ∈ instructions → site op e item → ¬ done n item →
  (∀ op' e', op' ∈ instructions → has_endpoint op' e' → precedes order (in_id op') (in_id op) →
     (in_id op', e') ∈ ps_done p) →
  ∃ step, current program n item.1 step ∧ (is_nop step ∨ next_item n item.1 step = item).
Proof.
  intros Hs Hop Hsite Hnd Hfirst. destruct (site_item _ _ _ Hsite) as (Hi & Hni & Eop).
  destruct (item_lookup item Hi) as (Hin & Hl & Hpos). unfold done in Hnd.
  assert (Hk : (counter n item.1 ≤ Z.to_nat item.2.1)%nat) by lia.
  destruct (lookup_lt_is_Some_2 (nb_steps item.1) (counter n item.1)) as [step Hstep].
  { apply lookup_lt_Some in Hl. lia. }
  assert (Hcur : current program n item.1 step).
  { split; [done|]. split; [done|]. intros Hd.
    destruct (wait_target _ _ _ Hin Hstep Hd) as (target & index & t & Haw & Hdep & Hnt & Hw).
    exists target, index, t. split; [done|]. split; [done|].
    destruct Haw as (_ & Ht & _ & _ & _ & Lt).
    pose proof (make_item _ _ _ Ht Lt) as It.
    destruct (bd_items _ _ _ Hb _ It Hnt) as (op' & e' & Hop' & He' & Hsite').
    assert (Hpre : precedes order (in_id op') (in_id op)).
    { destruct (site_item _ _ _ Hsite') as (_ & _ & <-). rewrite <- Eop.
      eapply (enforces_wait program (precedes order) precedes_trans item.1 None ∅ (numbered item.1)
        (counter n item.1) (Z.to_nat item.2.1)); [by apply (bd_blocks _ _ _ Hb)|done| | |exact Hni|exact Hw|].
      - by rewrite numbered_lookup, Hstep.
      - by rewrite numbered_lookup, Hl.
      - by apply elem_of_singleton. }
    apply (Hfirst op' e' Hop' He'), (sm_done _ _ Hs op' e' _ Hop' Hsite') in Hpre.
    unfold done in Hpre. cbn [fst snd] in Hpre. by rewrite Nat2Z.id in Hpre. }
  exists step. split; [done|]. destruct (decide (is_nop step)) as [?|Hn]; [by left|right].
  destruct (bd_items _ _ _ Hb _ (next_elem _ _ _ Hcur) Hn) as (op' & e' & Hop' & He' & Hsite').
  destruct (site_item _ _ _ Hsite') as (In & _ & Eop').
  destruct (decide ((next_item n item.1 step).2.1 < item.2.1)) as [Hlt|Hge].
  - exfalso. destruct (block_order _ item In Hi eq_refl Hlt Hn Hni) as [E|Hr].
    + assert (E2 : next_item n item.1 step = item).
      { eapply same_block; [exact Hsite|exact In|exact Hn| |done]. by rewrite E. }
      rewrite E2 in Hlt. lia.
    + rewrite Eop, Eop' in Hr. apply (Hfirst op' e' Hop' He') in Hr.
      apply (sm_done _ _ Hs op' e' _ Hop' Hsite') in Hr. by apply next_not_done in Hr.
  - apply same_position; [done|done|done|]. unfold next_item in *. cbn [fst snd] in *. lia.
Qed.

(** An operand that the plan can read is stored at the address of the step. *)
Lemma operand_available n p block step op e index :
  sim n p → plan_inv inputs plan p → current program n block step → op ∈ instructions →
  has_endpoint op e → site op e (next_item n block step) → reads_operand plan op index step →
  (∀ key c, in_inputs op !! index = Some key → cell_of inputs plan key = Some c → c.1.1 = endpoint_rank op e) →
  (∃ key c, in_inputs op !! index = Some key ∧ cell_of inputs plan key = Some c) →
  ∃ m, stored inputs n (ns_src step) m.
Proof.
  intros Hs Hinv Hc Hop He Hsite (key & a & Hkey & Ha & Esrc) Hrank (key' & c & Hkey' & Hcell).
  assert (key' = key) as -> by congruence.
  pose proof (read_correct inputs plan Hok p op e key c Hinv Hop
    (endpoint_may_run _ _ _ _ _ _ Hs Hc Hop Hsite) He (list_elem_of_lookup_2 _ _ _ Hkey) Hcell
    (Hrank _ _ Hkey Hcell)) as Hread.
  rewrite (sm_memory _ _ Hs) in Hread. eexists. exists a, c. split; [done|]. split; [|exact Hread].
  unfold cell_of in Hcell. by rewrite Ha in Hcell.
Qed.

Lemma output_available op step :
  op ∈ instructions → writes_output plan op step →
  ∃ a cell, ns_dst step = Some a ∧ address_cell inputs a = Some cell.
Proof.
  intros Hop (a & Ha & Ed). destruct (po_computes _ _ Hok op Hop) as (c0 & key & c & _ & _ & Hc & _).
  exists a, c. split; [done|]. unfold cell_of in Hc. by rewrite Ha in Hc.
Qed.

Lemma source_progress n p op step block :
  (0 < slots)%nat → sim n p → plan_inv inputs plan p → current program n block step → op ∈ instructions →
  has_endpoint op Source → site op Source (next_item n block step) →
  (∀ op' e', op' ∈ instructions → has_endpoint op' e' → precedes order (in_id op') (in_id op) →
     (in_id op', e') ∈ ps_done p) →
  ∃ n', native_step n n'.
Proof.
  intros Hslots Hs Hinv Hc Hop Hk Hsite Hfirst.
  assert (Hr : realises plan op Source (next_item n block step)) by apply Hsite.
  destruct Hr as [_ (_ & Hkind & Hread & Hconn)]. cbn [next_item fst snd] in Hkind, Hread, Hconn.
  destruct (po_computes _ _ Hok op Hop) as (c0 & key & c & Hkey & Hc0 & _ & _ & Hcomp).
  rewrite decide_False in Hcomp by done. destruct Hcomp as (Hr0 & _ & _).
  destruct (operand_available n p block step op Source 0 Hs Hinv Hc Hop Hk Hsite Hread) as [m Hm];
    [intros; simpl; congruence|eauto|].
  assert (Hempty : queue n (send_connection block) = []).
  { pose proof (sm_queue _ _ Hs (send_connection block)) as Hq.
    destruct (pending p (send_connection block)) as [|y r] eqn:E; [by inversion Hq|]. exfalso.
    assert (Hy : y ∈ pending p (send_connection block)) by (rewrite E; by left).
    apply elem_of_pending in Hy as (Hy & Hky & Hcy & Hyd & Hyt).
    destruct (before_total order y op) as [->|[Hbef|Hbef]]; try (by apply elem_of_order).
    - apply (sm_done _ _ Hs op Source _ Hop Hsite) in Hyd. by apply next_not_done in Hyd.
    - by apply Hyt, (Hfirst y Target Hy I), before_precedes.
    - destruct (bd_sites _ _ _ Hb y Source Hy Hky) as (sy & Hsy).
      assert (Eb : (next_item n block step).1 = sy.1) 
        by exact (one_sender op y _ _ Hop Hy Hsite Hsy (eq_trans (eq_sym Hconn) (eq_sym Hcy))).
      pose proof (site_order _ _ _ _ _ _ Hsite Hsy Eb (before_precedes _ _ Hbef)) as Hlt.
      apply (sm_done _ _ Hs y Source sy Hy Hsy) in Hyd. unfold done in Hyd. rewrite <- Eb in Hyd.
      unfold next_item in *. cbn [fst snd] in *. lia. }
  eexists. eapply native_send; [done|done|done|]. by rewrite Hempty.
Qed.

Lemma target_progress n p op step block :
  sim n p → plan_inv inputs plan p → current program n block step → op ∈ instructions →
  site op Target (next_item n block step) → (in_id op, Target) ∉ ps_done p →
  (in_kind op ≠ "copy"%string → (in_id op, Source) ∈ ps_done p) → ∃ n', native_step n n'.
Proof.
  intros Hs Hinv Hc Hop Hsite Hnew Hsrc.
  assert (Hr : realises plan op Target (next_item n block step)) by apply Hsite.
  destruct Hr as [_ [Hout Hr]]. cbn [next_item fst snd] in Hr, Hout.
  destruct (output_available op step Hop Hout) as (a & cell & Hdst & Hcell).
  pose proof (operand_available n p block step op Target) as Hoperand.
  destruct (po_computes _ _ Hok op Hop) as (c0 & key & c & Hkey & Hc0 & _ & _ & Hcomp).
  case_decide as Hk.
  - destruct Hr as [Hkind Hread]. destruct Hcomp as (_ & Hr0 & _).
    destruct (Hoperand 0%nat Hs Hinv Hc Hop I Hsite Hread) as [m Hm]; [intros; simpl; congruence|eauto|].
    eexists. by eapply native_copy.
  - destruct Hr as [Hconn Hr]. destruct Hcomp as (_ & _ & Hcomp).
    assert (Hq : ∃ tag m rest, queue n (recv_connection block) = (tag, m) :: rest).
    { assert (Hin : op ∈ pending p (recv_connection block)).
      { apply elem_of_pending. split_and!; try done. by apply Hsrc. }
      pose proof (sm_queue _ _ Hs (recv_connection block)) as Hq.
      destruct (queue n (recv_connection block)) as [|[tag m] rest]; [|eauto].
      inversion Hq as [E|]. rewrite <- E in Hin. by apply elem_of_nil in Hin. }
    destruct Hq as (tag & m & rest & Hq). case_decide as Hk2.
    + destruct Hr as [Hkind Hread]. destruct Hcomp as (acc & c1 & E & Hc1 & Hr1 & _).
      destruct (Hoperand 1%nat Hs Hinv Hc Hop I Hsite Hread) as [n0 Hn0].
      { intros k' c' Hk' Hc'. rewrite E in Hk'. injection Hk' as <-. simpl. congruence. }
      { exists acc, c1. by rewrite E. }
      eexists. by eapply native_reduce.
    + eexists. by eapply native_receive.
Qed.

(** A program that is not finished has a step. *)
Lemma sim_progress n p :
  (0 < slots)%nat → sim n p → plan_inv inputs plan p → bounded program n →
  native_finished program n ∨ ∃ n', native_step n n'.
Proof.
  intros Hslots Hs Hinv Hbound.
  destruct (first_unfinished n p Hs Hbound) as [?|(op & e & Hop & He & Hnew & Hsrc & Hfirst)]; [by left|right].
  destruct (bd_sites _ _ _ Hb op e Hop He) as (item & Hsite).
  rewrite (sm_done _ _ Hs op e item Hop Hsite) in Hnew.
  destruct (first_current n p op e item Hs Hop Hsite Hnew Hfirst) as (step & Hc & Hcase).
  destruct (decide (is_nop step)) as [Hn|Hn]; [eexists; by eapply native_nop|].
  destruct Hcase as [?|E]; [done|]. rewrite <- E in Hsite, Hnew. destruct e.
  - by eapply source_progress.
  - eapply target_progress; try done; [|by apply Hsrc].
    by rewrite (sm_done _ _ Hs op Target _ Hop Hsite).
Qed.
End simulation.
