(* ===== verification/V5Planning.v ===== *)
(** * State versions of a storage plan

    The first loops of [build_storage_plan]: every operation reads states that
    exist on its ranks, produces one new state, and depends on the producers of
    what it reads. *)

From Stdlib Require Import Ascii.
From S2P Require Import Prelude.
From S2P Require Import Python.
From S2P Require Import PyInt.
From S2P Require Import Collective.
From S2P Require Import InputModels.
From S2P Require Import Ranges.
From S2P Require Import Versions.
From S2P Require Import XmlModel.
From S2P Require Import Topology.
From S2P Require Import V5Model.
From S2P Require Import V5Buffers.
From S2P Require Import V5Exec.
Local Open Scope Z_scope.

(** ** Names *)

Lemma pair_name_inj (p : string) (c : Ascii.ascii) (r l r' l' : Z) :
  is_digit c = false → c ≠ "-"%char →
  p +:+ str_of_int r +:+ String "-" (String c (str_of_int l)) =
    p +:+ str_of_int r' +:+ String "-" (String c (str_of_int l')) → r = r' ∧ l = l'.
Proof.
  intros Hc Hd E. apply (inj (String.append p)) in E.
  assert (Hs : ∀ a b, str_of_int a +:+ String "-" (String c (str_of_int b)) =
    (str_of_int a +:+ "-") +:+ String c (str_of_int b))
    by (intros; by rewrite string_app_assoc).
  rewrite !Hs in E. apply name_split_first in E as [Er El].
  - apply str_of_int_inj in El. split; [|done].
    apply (name_split_last "-"%char _ _ ""%string ""%string) in Er as [Er _];
      [|by intros ?%elem_of_nil..]. by apply str_of_int_inj.
  - apply without_app; [by apply without_int|].
    unfold without. simpl. by rewrite list_elem_of_singleton.
  - apply without_app; [by apply without_int|].
    unfold without. simpl. by rewrite list_elem_of_singleton.
Qed.

Lemma input_id_inj r l r' l' : input_id r l = input_id r' l' → r = r' ∧ l = l'.
Proof. unfold input_id. by apply (pair_name_inj "input-r"). Qed.

Lemma copy_id_inj s s' : copy_id s = copy_id s' → s = s'.
Proof.
  destruct s, s'. unfold copy_id. simpl. intros E.
  by apply (pair_name_inj "output-copy-r") in E as [-> ->].
Qed.

(** The name of the state that an operation produces. *)
Definition state_id (id : string) : string := "state-" +:+ id.

Lemma state_id_inj a b : state_id a = state_id b → a = b.
Proof. apply (inj (String.append "state-")). Qed.

Lemma input_not_state r l id : input_id r l ≠ state_id id.
Proof. unfold input_id, state_id. discriminate. Qed.

(** ** The invariant *)

Section planning.
Context (inputs : ResolvedInput) (topology : Topology) (n size_ : Z).

Notation positions := (input_positions inputs n).

Definition initial_value (p : Z * Z) : Value :=
  MkValue (input_id p.1 p.2) p.1 p.2 {[p.1 * n + p.2]} None.

(** [key] names a state on [rank], whose producer the operation depends on. *)
Definition operand (states : list (string * Value)) (op : Instruction) (key : string) (rank : Z)
    (value : Value) : Prop :=
  dict_get key states = Some value ∧ va_rank value = rank ∧
  ∀ p, va_producer value = Some p → p ∈ in_dependencies op.

Definition instruction_ok (states : list (string * Value)) (op : Instruction) : Prop :=
  0 ≤ in_rank op ∧
  ∃ v key s, dict_get (in_output op) states = Some v ∧ va_rank v = in_rank op ∧
    in_inputs op !! 0%nat = Some key ∧
    if decide (in_kind op = "copy"%string) then
      in_inputs op = [key] ∧ operand states op key (in_rank op) s ∧
      va_contributors v = va_contributors s
    else
      0 ≤ in_peer op ∧ in_peer op ≠ in_rank op ∧ operand states op key (in_peer op) s ∧
      if decide (in_kind op = "rrc"%string) then
        ∃ acc a, in_inputs op = [key; acc] ∧ operand states op acc (in_rank op) a ∧
          va_contributors s ∩ va_contributors a = ∅ ∧
          va_contributors v = va_contributors s ∪ va_contributors a
      else
        in_kind op = "send"%string ∧ in_inputs op = [key] ∧
        va_contributors v = va_contributors s.

Record planning_ok (st : Planning) : Prop := {
  pk_states id v : dict_get id (pl_states st) = Some v →
    va_state_id v = id ∧
    ((∃ p, p ∈ positions ∧ v = initial_value p) ∨
     ∃ op, op ∈ pl_instructions st ∧ in_output op = id ∧ va_producer v = Some (in_id op));
  pk_initial p : p ∈ positions →
    dict_get (input_id p.1 p.2) (pl_states st) = Some (initial_value p);
  pk_instructions op : op ∈ pl_instructions st → instruction_ok (pl_states st) op;
  pk_names op : op ∈ pl_instructions st → in_output op = state_id (in_id op);
  pk_ids : NoDup (in_id <$> pl_instructions st);
}.

(** The states that operations may read. *)
Definition positions_ok (ids : list string) (st : Planning) : Prop :=
  ∀ r l v, v ∈ at_position st r l →
    dict_get (va_state_id v) (pl_states st) = Some v ∧ va_rank v = r ∧
    ∀ p, va_producer v = Some p → p ∈ ids.

Definition initial_addresses (addresses : list (string * Address)) : Prop :=
  ∀ id a, dict_get id addresses = Some a ↔
    ∃ p, p ∈ positions ∧ id = input_id p.1 p.2 ∧ a = MkAddress p.1 "i" p.2.

(** New states leave the old ones in place. *)
Definition extends (states states' : list (string * Value)) : Prop :=
  ∀ id v, dict_get id states = Some v → dict_get id states' = Some v.

Lemma extends_set states id v : dict_get id states = None → extends states (dict_set id v states).
Proof. intros Hn k w Hk. rewrite dict_get_set. case_decide; congruence. Qed.

Lemma operand_extends states states' op key rank value :
  extends states states' → operand states op key rank value → operand states' op key rank value.
Proof. intros He (Hk & ? & ?). split; [by apply He|done]. Qed.

Lemma instruction_extends states states' op :
  extends states states' → instruction_ok states op → instruction_ok states' op.
Proof.
  intros He (Hr & v & key & s & Hv & Hvr & Hkey & H). split; [done|]. exists v, key, s.
  split; [by apply He|]. split; [done|]. split; [done|]. case_decide.
  - destruct H as (? & ? & ?). split_and!; eauto using operand_extends.
  - destruct H as (? & ? & Ho & H). split_and!; eauto using operand_extends.
    case_decide; [|done]. destruct H as (acc & a & ? & ? & ?). exists acc, a.
    split_and!; naive_solver eauto using operand_extends.
Qed.

(** ** Initial states *)

Lemma at_position_add st v r l :
  at_position (add_value st v) r l =
    if decide ((r, l) = (va_rank v, va_position v)) then at_position st r l ++ [v]
    else at_position st r l.
Proof.
  unfold at_position, add_value. simpl. case_decide as E.
  - rewrite E. by rewrite lookup_insert_eq.
  - by rewrite lookup_insert_ne.
Qed.

Lemma elem_of_at_position_add st v r l w :
  w ∈ at_position (add_value st v) r l →
  w ∈ at_position st r l ∨ (w = v ∧ r = va_rank v).
Proof.
  rewrite at_position_add. case_decide as E; [|by left].
  rewrite elem_of_app, list_elem_of_singleton. intros [?| ->]; [by left|right].
  split; [done|congruence].
Qed.

Record initial_ok (ps : list (Z * Z)) (st : Planning) : Prop := {
  ni_states id v : dict_get id (pl_states st) = Some v ↔
    ∃ p, p ∈ ps ∧ id = input_id p.1 p.2 ∧ v = initial_value p;
  ni_position r l v : v ∈ at_position st r l → ∃ p, p ∈ ps ∧ v = initial_value p ∧ r = p.1;
  ni_addresses id a : dict_get id (pl_addresses st) = Some a ↔
    ∃ p, p ∈ ps ∧ id = input_id p.1 p.2 ∧ a = MkAddress p.1 "i" p.2;
  ni_instructions : pl_instructions st = [];
}.

Lemma set_by_input {V} (f : Z * Z → V) ps p (d : list (string * V)) :
  (∀ id v, dict_get id d = Some v ↔ ∃ p, p ∈ ps ∧ id = input_id p.1 p.2 ∧ v = f p) →
  ∀ id v, dict_get id (dict_set (input_id p.1 p.2) (f p) d) = Some v ↔
    ∃ q, q ∈ ps ++ [p] ∧ id = input_id q.1 q.2 ∧ v = f q.
Proof.
  intros Hd id v. rewrite dict_get_set. setoid_rewrite elem_of_app.
  setoid_rewrite list_elem_of_singleton. case_decide as E.
  - subst. split; [intros [= <-]; eauto|]. intros (q & _ & Hq & ->).
    apply input_id_inj in Hq as [H1 H2]. destruct p, q. simpl in *. by subst.
  - rewrite Hd. naive_solver.
Qed.

Lemma add_input_ok ps p st : initial_ok ps st → initial_ok (ps ++ [p]) (add_input n st p).
Proof.
  intros [Hs Hp Ha Hi]. destruct p as [r l]. split; simpl.
  - apply (set_by_input initial_value ps (r, l)), Hs.
  - intros r' l' v Hv.
    change (v ∈ at_position (add_value st (initial_value (r, l))) r' l') in Hv.
    apply elem_of_at_position_add in Hv as [Hv|[-> ->]].
    + destruct (Hp _ _ _ Hv) as (p & ? & ?). exists p. rewrite elem_of_app. auto.
    + exists (r, l). rewrite elem_of_app, list_elem_of_singleton. auto.
  - apply (set_by_input (λ p, MkAddress p.1 "i" p.2) ps (r, l)), Ha.
  - done.
Qed.

Lemma initial_planning_ok : initial_ok positions (initial_planning inputs n).
Proof.
  unfold initial_planning. induction positions as [|p ps IH] using rev_ind.
  - split; simpl; [split; [done|]; intros (p & []%elem_of_nil & _)| |
      split; [done|]; intros (p & []%elem_of_nil & _)|done].
    intros r l v. unfold at_position. simpl. by rewrite lookup_empty, elem_of_nil.
  - rewrite foldl_snoc. by apply add_input_ok.
Qed.

Lemma initial_planning_start :
  planning_ok (initial_planning inputs n) ∧ positions_ok [] (initial_planning inputs n) ∧
  initial_addresses (pl_addresses (initial_planning inputs n)).
Proof.
  destruct initial_planning_ok as [Hs Hp Ha Hi]. split_and!; [|..|exact Ha].
  - split; rewrite ?Hi; try (by intros ? ?%elem_of_nil); [..|constructor].
    + intros id v (p & Hin & -> & ->)%Hs. split; [done|]. left. eauto.
    + intros p Hin. apply Hs. eauto.
  - intros r l v (p & Hin & -> & ->)%Hp. split; [apply Hs; eauto|]. done.
Qed.

(** ** Operations *)

Record operations_ok (ids : list string) (st : Planning) : Prop := {
  op_planning : planning_ok st;
  op_positions : positions_ok ids st;
  op_addresses : initial_addresses (pl_addresses st);
  op_ids : in_id <$> pl_instructions st = ids;
  op_transfers op : op ∈ pl_instructions st → in_kind op ≠ "copy"%string;
}.

Lemma check_operation_Ok context constraints op logical :
  check_operation context n size_ constraints op = Ok logical →
  0 ≤ no_src op ∧ 0 ≤ no_dst op ∧ no_src op ≠ no_dst op.
Proof.
  unfold check_operation, LinkKey_init. intros H. inv_res.
  repeat match goal with H : integer_field _ _ _ = Ok _ |- _ =>
    apply integer_field_Ok in H as [[= <-] ?] end.
  bool_prop. done.
Qed.

Lemma elem_of_matching st r l c v :
  v ∈ matching st r l c → v ∈ at_position st r l ∧ va_contributors v = c.
Proof. unfold matching. rewrite list_elem_of_filter. tauto. Qed.

Lemma last_elem {A} (l : list A) x : last l = Some x → x ∈ l.
Proof. intros (l' & ->)%last_Some. apply elem_of_app. right. by left. Qed.

Lemma last_largest_elem (l : list Value) v : last_largest l = Some v → v ∈ l.
Proof.
  unfold last_largest. revert v. induction l as [|w l IH] using rev_ind; [done|].
  intros v. rewrite foldl_snoc, elem_of_app, list_elem_of_singleton.
  destruct (foldl _ _ l) as [b|] eqn:E.
  - destruct (_ <=? _)%nat; intros [= <-]; [by right|left; by apply IH].
  - intros [= <-]. by right.
Qed.

(** What an operation reads and computes. *)
Lemma select_inputs_Ok st op logical reads combined :
  select_inputs st op logical = Ok (reads, combined) →
  ∃ s, s ∈ at_position st (no_src op) logical ∧
    if decide (no_kind op = "rrc"%string) then
      ∃ a, a ∈ at_position st (no_dst op) logical ∧ reads = [s; a] ∧
        va_contributors s ∩ va_contributors a = ∅ ∧
        combined = va_contributors s ∪ va_contributors a
    else no_kind op = "send"%string ∧ reads = [s] ∧ combined = va_contributors s.
Proof.
  unfold select_inputs. intros H. inv_res. rename H into Hlast.
  apply last_elem, elem_of_matching in Hlast as [Hs Hc]. exists x. split; [done|].
  case_decide.
  - inv_res. match goal with H : last_largest _ = _ |- _ => apply last_largest_elem in H end.
    apply list_elem_of_filter in H0 as [[Hd _] Ha]. simplify_eq.
    exists x0. split; [done|]. split; [done|]. rewrite Hc. split; [set_solver|done].
  - inv_res. bool_prop. simplify_eq. done.
Qed.

Lemma reference_steps by_id op acc l deps omitted :
  foldM (reference_step by_id op) acc l = Ok (deps, omitted) → acc.1 ⊆ deps.
Proof.
  revert acc. induction l as [|x l IH]; intros acc H; cbn [foldM] in H; [by injection H as ->|].
  inv_res. destruct acc as [d o]. unfold reference_step in H. inv_res.
  apply IH in H0. subst. simpl. destruct (shares_rank _ _); simpl in *; [|done].
  etrans; [|exact H0]. apply union_subseteq_r.
Qed.

Lemma extends_add st v :
  dict_get (va_state_id v) (pl_states st) = None →
  extends (pl_states st) (pl_states (add_value st v)).
Proof. intros Hn. simpl. by apply extends_set. Qed.

(** The new identity is not in use. *)
Lemma fresh_state st id :
  planning_ok st → id ∉ in_id <$> pl_instructions st →
  dict_get (state_id id) (pl_states st) = None.
Proof.
  intros Hok Hid. destruct (dict_get (state_id id) (pl_states st)) as [v|] eqn:E; [|done].
  exfalso. destruct (pk_states _ Hok _ _ E) as [Hv [(p & _ & ->)|(op & Hop & Ho & _)]].
  - by apply input_not_state in Hv.
  - rewrite (pk_names _ Hok op Hop) in Ho. apply state_id_inj in Ho as <-.
    apply Hid. by apply list_elem_of_fmap_2.
Qed.

(** A new instruction with its state. *)
Lemma add_instruction st states addresses omitted positions' v op :
  planning_ok st → in_id op ∉ in_id <$> pl_instructions st →
  in_output op = state_id (in_id op) → va_state_id v = in_output op →
  va_producer v = Some (in_id op) → states = dict_set (in_output op) v (pl_states st) →
  instruction_ok states op →
  planning_ok (MkPlanning states positions' addresses (pl_instructions st ++ [op]) omitted).
Proof.
  intros Hok Hid Hout Hv Hprod -> Hop.
  assert (Hext : extends (pl_states st) (dict_set (in_output op) v (pl_states st))).
  { apply extends_set. rewrite Hout. by apply fresh_state. }
  split; cbn [pl_states pl_instructions].
  - intros id w. rewrite dict_get_set. case_decide as E.
    + intros [= <-]. subst id. split; [done|]. right. exists op.
      rewrite elem_of_app, list_elem_of_singleton. auto.
    + intros Hw. destruct (pk_states _ Hok _ _ Hw) as [? [?|(o & ? & ?)]]; [by auto|].
      split; [done|]. right. exists o. rewrite elem_of_app. auto.
  - intros p Hp. apply Hext. by apply (pk_initial _ Hok).
  - intros o [Ho|Ho]%elem_of_app.
    + eapply instruction_extends; [exact Hext|]. by apply (pk_instructions _ Hok).
    + by apply list_elem_of_singleton in Ho as ->.
  - intros o [Ho|Ho]%elem_of_app; [by apply (pk_names _ Hok)|].
    by apply list_elem_of_singleton in Ho as ->.
  - rewrite fmap_app, NoDup_app. split; [apply Hok|]. split; [|apply NoDup_singleton].
    intros x Hx Hx'. simpl in Hx'. apply list_elem_of_singleton in Hx' as ->. done.
Qed.

Lemma operation_step_ok context constraints by_id ids st op st' :
  operations_ok ids st → no_id op ∉ ids →
  operation_step context n size_ constraints by_id st op = Ok st' →
  operations_ok (ids ++ [no_id op]) st'.
Proof.
  intros [Hok Hpos Haddr Hids Htr] Hid H. unfold operation_step in H. inv_res.
  rename H into Hcheck. destruct x0 as [reads combined]. inv_res. destruct x0 as [deps omitted].
  injection H1 as <-.
  apply check_operation_Ok in Hcheck as (Hsrc & Hdst & Hne).
  apply select_inputs_Ok in H0 as (s & Hs & Hsel). apply reference_steps in H. simpl in H.
  rewrite <- Hids in Hid. change ("state-" +:+ no_id op) with (state_id (no_id op)).
  pose proof (fresh_state st (no_id op) Hok Hid) as Hfresh.
  set (v := MkValue (state_id (no_id op)) (no_dst op) x combined (Some (no_id op))).
  assert (Hext : extends (pl_states st) (dict_set (state_id (no_id op)) v (pl_states st)))
    by (by apply extends_set).
  assert (Hread : ∀ r w i, w ∈ at_position st r x → w ∈ reads → in_dependencies i = deps →
    operand (dict_set (state_id (no_id op)) v (pl_states st)) i (va_state_id w) r w).
  { intros r w i Hw Hin Hi. destruct (Hpos _ _ _ Hw) as (? & ? & _).
    split; [by apply Hext|]. split; [done|]. intros p Hp. rewrite Hi.
    apply H, elem_of_union. right. apply elem_of_list_to_set, list_elem_of_omap. eauto. }
  set (new := MkInstruction _ _ _ _ _ _ _ _ _ _ _).
  assert (Hnew : instruction_ok (dict_set (state_id (no_id op)) v (pl_states st)) new ∧
    no_kind op ≠ "copy"%string).
  { unfold instruction_ok. case_decide as Hk.
    - destruct Hsel as (a & Ha & -> & Hdis & Hcomb). split; [|congruence]. split; [done|].
      exists v, (va_state_id s), s. split; [by rewrite dict_get_set, decide_True|].
      split; [done|]. split; [done|]. cbn [new in_kind in_inputs in_peer in_rank].
      rewrite decide_False, decide_True by congruence.
      split_and!; [done|done|apply Hread; [done|set_solver|done]|].
      exists (va_state_id a), a. split; [done|]. split_and!; [|done|done].
      apply Hread; [done|set_solver|done].
    - destruct Hsel as (Hsend & -> & Hcomb). split; [|congruence]. split; [done|].
      exists v, (va_state_id s), s. split; [by rewrite dict_get_set, decide_True|].
      split; [done|]. split; [done|]. cbn [new in_kind in_inputs in_peer in_rank].
      rewrite decide_False, decide_False by congruence.
      split_and!; [done|done|apply Hread; [done|set_solver|done]|done..]. }
  destruct Hnew as [Hnew Hcopy]. split.
  - by eapply (add_instruction st _ _ _ _ v new).
  - intros r l w Hw. cbn [pl_states].
    change (w ∈ at_position (add_value st v) r l) in Hw.
    apply elem_of_at_position_add in Hw as [Hw|[-> ->]].
    + destruct (Hpos _ _ _ Hw) as (? & ? & Hp). split; [by apply Hext|]. split; [done|].
      intros p Ep. apply elem_of_app. left. by apply Hp.
    + simpl. split; [by rewrite dict_get_set, decide_True|]. split; [done|].
      intros p [= <-]. apply elem_of_app. right. by left.
  - exact Haddr.
  - simpl. rewrite fmap_app, Hids. done.
  - intros o [Ho|Ho]%elem_of_app; [by apply Htr|]. by apply list_elem_of_singleton in Ho as ->.
Qed.

Lemma operations_planned context constraints by_id ops st :
  NoDup (no_id <$> ops) →
  foldM (operation_step context n size_ constraints by_id) (initial_planning inputs n) ops = Ok st →
  operations_ok (no_id <$> ops) st.
Proof.
  intros Hnd H. revert Hnd.
  refine (foldM_ind (λ don st, NoDup (no_id <$> don) → operations_ok (no_id <$> don) st) _ ops _ st _ _ H).
  - intros _. destruct initial_planning_start as (? & ? & ?).
    destruct initial_planning_ok as [_ _ _ Hi]. split; [done|done|done|by rewrite Hi|].
    intros op. by rewrite Hi, elem_of_nil.
  - intros don op b b' IH _ Hstep Hnd'. rewrite fmap_app in *. simpl in *.
    apply NoDup_app in Hnd' as (Hd & Hdis & _). eapply operation_step_ok; [by apply IH| |exact Hstep].
    intros Hin. apply (Hdis _ Hin). by left.
Qed.
End planning.
