(* ===== verification/V5Outputs.v ===== *)
(** * Outputs of a storage plan

    The loop of [build_storage_plan] over the output slots: every slot is bound
    to a state with exactly its contributors, which lies in the slot from the
    start, is written there directly, or is copied there at the end. *)

From S2P Require Import Prelude.
From S2P Require Import Python.
From S2P Require Import Collective.
From S2P Require Import InputModels.
From S2P Require Import Ranges.
From S2P Require Import Versions.
From S2P Require Import XmlModel.
From S2P Require Import V5Model.
From S2P Require Import V5Buffers.
From S2P Require Import V5Exec.
From S2P Require Import V5Planning.
Local Open Scope Z_scope.

(** ** Storage of addresses *)

Section cells.
Context (inputs : ResolvedInput) (n size_ : Z) (Hslices : slices inputs = Ok (n, size_)).
Context (Hranks : 1 ≤ ri_rank_count inputs).

Definition base_of (rank : Z) (buffer : string) : Z :=
  match cs_kind (ri_collective inputs) with
  | ALL_GATHER => if decide (buffer = "i"%string) then rank * n else 0
  | REDUCE_SCATTER => if decide (buffer = "o"%string) then rank * (n / ri_rank_count inputs) else 0
  | _ => 0
  end.

Definition cell_spec (a : Address) : Cell :=
  if decide (ad_buffer a = "s"%string) then (ad_rank a, "scratch"%string, ad_offset a * size_)
  else if cs_inplace (ri_collective inputs) then
    (ad_rank a, "inplace"%string, (base_of (ad_rank a) (ad_buffer a) + ad_offset a) * size_)
  else (ad_rank a, (if decide (ad_buffer a = "i"%string) then "input" else "output")%string,
        ad_offset a * size_).

Lemma BufferRegion_init_Ok rank buffer offset size kind region :
  BufferRegion_init rank buffer offset size kind = Ok region →
  0 ≤ rank ∧ 0 ≤ offset ∧ 1 ≤ size ∧ region = MkBufferRegion rank buffer offset size kind.
Proof.
  unfold BufferRegion_init, nonnegative. intros H. inv_res.
  repeat match goal with H : (_ <? _) = false |- _ => apply Z.ltb_ge in H end.
  bool_prop. subst. split_and!; [lia..|done].
Qed.

Lemma inplace_base_Ok rank buffer : inplace_base inputs rank buffer n = Ok (base_of rank buffer).
Proof.
  unfold inplace_base, base_of. destruct (cs_kind _); try done. case_decide; [|done].
  unfold py_floordiv. rewrite (proj2 (Z.eqb_neq _ 0)) by lia. done.
Qed.

Lemma canonical_region_cell a region :
  canonical_region a inputs = Ok region → region_key region = cell_spec a ∧ 1 ≤ size_.
Proof.
  destruct a as [r b o]. unfold canonical_region, cell_spec. rewrite Hslices.
  cbn [mbind res_bind ad_rank ad_buffer ad_offset].
  case_decide; [|destruct (cs_inplace _); cbn [negb]; rewrite ?inplace_base_Ok; cbn [mbind res_bind]];
    intros (? & ? & ? & ->)%BufferRegion_init_Ok; done.
Qed.

Lemma address_cell_spec a c : address_cell inputs a = Some c → c = cell_spec a.
Proof.
  unfold address_cell. destruct (canonical_region a inputs) as [region|] eqn:E; [|done].
  intros [= <-]. by apply canonical_region_cell in E as [-> _].
Qed.

Lemma BufferRegion_init_total rank buffer offset size kind :
  0 ≤ rank → 0 ≤ offset → 1 ≤ size → buffer ≠ ""%string →
  kind ∈ ["data"; "input"; "output"; "scratch"]%string →
  BufferRegion_init rank buffer offset size kind = Ok (MkBufferRegion rank buffer offset size kind).
Proof.
  intros Hr Ho Hs Hb Hk. unfold BufferRegion_init, nonnegative.
  rewrite (proj2 (Z.ltb_ge rank 0)), (proj2 (Z.ltb_ge offset 0)), (proj2 (Z.ltb_ge size 0)) by lia.
  cbn [raise_when mbind res_bind].
  rewrite (proj2 (Z.eqb_neq size 0)) by lia.
  rewrite (bool_decide_eq_false_2 (buffer = EmptyString)) by done.
  by rewrite (bool_decide_eq_true_2 (kind ∈ _)) by done.
Qed.

Lemma address_cell_total a :
  0 ≤ ad_rank a → 0 ≤ ad_offset a → 1 ≤ size_ → 0 ≤ n →
  address_cell inputs a = Some (cell_spec a).
Proof.
  intros Hr Ho Hs Hn. cut (∃ region, canonical_region a inputs = Ok region).
  { intros [region E]. unfold address_cell. rewrite E. by destruct (canonical_region_cell _ _ E) as [-> _]. }
  assert (Hb : ∀ b, 0 ≤ base_of (ad_rank a) b).
  { intros b. unfold base_of. destruct (cs_kind _); try lia; case_decide; try lia.
    assert (0 ≤ n / ri_rank_count inputs) by (apply Z.div_pos; lia). nia. }
  destruct a as [r b o]. unfold canonical_region. rewrite Hslices. cbn in Hr, Ho, Hb |- *.
  case_decide; [|destruct (cs_inplace _); cbn [negb]; rewrite ?inplace_base_Ok; cbn [mbind res_bind]].
  - eexists. apply BufferRegion_init_total; [done|nia|done..|set_solver].
  - eexists. apply BufferRegion_init_total; [done|specialize (Hb b); nia|done..|set_solver].
  - eexists. apply BufferRegion_init_total; [done|nia|done|by case_decide|case_decide; set_solver].
Qed.

(** Distinct addresses of one buffer are disjoint. *)
Lemma cell_spec_inj r b o o' :
  1 ≤ size_ → cell_spec (MkAddress r b o) = cell_spec (MkAddress r b o') → o = o'.
Proof.
  intros Hs. unfold cell_spec. simpl. repeat case_match; intros [=]; nia.
Qed.

Lemma cell_spec_rank a : (cell_spec a).1.1 = ad_rank a.
Proof. unfold cell_spec. by repeat case_match. Qed.

Lemma cell_spec_scratch a b :
  cell_spec a = cell_spec b → ad_buffer a = "s"%string ↔ ad_buffer b = "s"%string.
Proof. unfold cell_spec. repeat case_match; intros [=]; done. Qed.
End cells.

(** ** The loop over the slots *)

Definition slot_address (slot : OutputSlot) : Address :=
  MkAddress (slot_rank slot) "o" (slot_offset slot).

Section outputs.
Context (context : LoweringContext) (n size_ : Z).
Let inputs := cx_inputs context.
Context (Hslices : slices inputs = Ok (n, size_)) (Hranks : 1 ≤ ri_rank_count inputs).
Notation positions := (input_positions inputs n).

(** The identities of the operations. *)
Context (ids : list string) (Hids : ∀ id, id ∈ ids → id ≠ EmptyString ∧ ∀ slot, id ≠ copy_id slot).
(** The table of required outputs. *)
Context (expected : list (OutputSlot * gset Z)) (Hkeys : NoDup expected.*1).
Context (Hexpected : ∀ s c s' c', (s, c) ∈ expected → (s', c') ∈ expected →
  slot_rank s = slot_rank s' → c = c' → s = s').
Context (Hslot : ∀ s c, (s, c) ∈ expected → 0 ≤ slot_rank s).
Context (final_stage : Z) (final_priority : pyfloat).

(** The state [id] lies in the slot when everything has run. *)
Definition placed (acc : Outputs) (slot : OutputSlot) (id : string) : Prop :=
  (∃ p, p ∈ positions ∧ id = input_id p.1 p.2 ∧
     cell_spec inputs n size_ (MkAddress p.1 "i" p.2) = cell_spec inputs n size_ (slot_address slot)) ∨
  dict_get id (ou_direct acc) = Some (slot_address slot) ∨
  (id = state_id (copy_id slot) ∧ copy_id slot ∈ in_id <$> pl_instructions (ou_planning acc)).

Record outputs_ok (items : list (OutputSlot * gset Z)) (acc : Outputs) : Prop := {
  oo_planning : planning_ok inputs n (ou_planning acc);
  oo_positions : positions_ok ids (ou_planning acc);
  oo_kinds op : op ∈ pl_instructions (ou_planning acc) →
    if decide (in_kind op = "copy"%string) then
      ∃ slot c, (slot, c) ∈ items ∧ in_id op = copy_id slot ∧ in_rank op = slot_rank slot ∧
        dict_get slot (ou_outputs acc) = Some (state_id (copy_id slot))
    else in_id op ∈ ids;
  oo_addresses id a : dict_get id (pl_addresses (ou_planning acc)) = Some a ↔
    (∃ p, p ∈ positions ∧ id = input_id p.1 p.2 ∧ a = MkAddress p.1 "i" p.2) ∨
    (∃ slot, id = state_id (copy_id slot) ∧ a = slot_address slot ∧
       copy_id slot ∈ in_id <$> pl_instructions (ou_planning acc));
  oo_direct id a : dict_get id (ou_direct acc) = Some a →
    cs_inplace (ri_collective inputs) = false ∧
    ∃ slot c v p, (slot, c) ∈ items ∧ a = slot_address slot ∧
      dict_get id (pl_states (ou_planning acc)) = Some v ∧ va_rank v = slot_rank slot ∧
      va_contributors v = c ∧ va_producer v = Some p ∧ p ∈ ids ∧
      dict_get slot (ou_outputs acc) = Some id;
  oo_outputs slot c : (slot, c) ∈ items → ∃ id v, dict_get slot (ou_outputs acc) = Some id ∧
    dict_get id (pl_states (ou_planning acc)) = Some v ∧ va_contributors v = c ∧
    va_rank v = slot_rank slot ∧ placed acc slot id;
  oo_bound slot id : dict_get slot (ou_outputs acc) = Some id → ∃ c, (slot, c) ∈ items;
}.

(** The identity of a state that operations may read. *)
Lemma position_state st r l v :
  planning_ok inputs n st → positions_ok ids st → v ∈ at_position st r l →
  (∃ p, p ∈ positions ∧ v = initial_value n p) ∨
  (∃ p, va_producer v = Some p ∧ p ∈ ids ∧ va_state_id v = state_id p).
Proof.
  intros Hok Hpos Hv. destruct (Hpos _ _ _ Hv) as (Hget & _ & Hp).
  destruct (pk_states _ _ _ Hok _ _ Hget) as [_ [?|(op & Hop & Hout & Hprod)]]; [by left|right].
  exists (in_id op). rewrite <- Hout. split; [done|]. split; [by apply Hp|].
  by apply (pk_names _ _ _ Hok).
Qed.

Lemma in_place_Ok items acc slot r l v b :
  outputs_ok items acc → v ∈ at_position (ou_planning acc) r l →
  in_place context (ou_planning acc) v (slot_address slot) = Ok b →
  b = true → ∃ p, p ∈ positions ∧ va_state_id v = input_id p.1 p.2 ∧
    cell_spec inputs n size_ (MkAddress p.1 "i" p.2) = cell_spec inputs n size_ (slot_address slot).
Proof.
  intros Hok Hv H ->. unfold in_place in H.
  destruct (dict_get _ _) as [a|] eqn:Ea; [|discriminate H]. inv_res. bool_prop. subst x0.
  apply (oo_addresses _ _ Hok) in Ea as [(p & Hp & Hid & ->)|(s & Hid & _ & _)].
  - exists p. split; [done|]. split; [done|].
    destruct (canonical_region_cell inputs n size_ Hslices Hranks _ _ H) as [E1 _].
    destruct (canonical_region_cell inputs n size_ Hslices Hranks _ _ H0) as [E2 _]. congruence.
  - exfalso. destruct (position_state _ _ _ _ (oo_planning _ _ Hok) (oo_positions _ _ Hok) Hv)
      as [(p & _ & ->)|(p & _ & Hp & E)].
    + by apply input_not_state in Hid.
    + rewrite E in Hid. apply state_id_inj in Hid as ->. by destruct (Hids _ Hp) as [_ Hc]; destruct (Hc s).
Qed.

Lemma fresh_copy items acc slot c :
  outputs_ok items acc → NoDup (items ++ [(slot, c)]).*1 →
  copy_id slot ∉ in_id <$> pl_instructions (ou_planning acc).
Proof.
  intros Hok Hnd (op & Hid & Hop)%list_elem_of_fmap.
  pose proof (oo_kinds _ _ Hok op Hop) as Hk. case_decide as Hc.
  - destruct Hk as (s & c' & Hs & E & _ & _). rewrite <- Hid in E. apply copy_id_inj in E as <-.
    rewrite fmap_app, NoDup_app in Hnd. destruct Hnd as (_ & Hd & _).
    apply (Hd slot); [|by left]. apply list_elem_of_fmap. by exists (slot, c').
  - destruct (Hids _ Hk) as [_ Hn]. by destruct (Hn slot).
Qed.

Section step.
Context (items : list (OutputSlot * gset Z)) (slot : OutputSlot) (c : gset Z).
Context (Hsub : ∀ x, x ∈ items ++ [(slot, c)] → x ∈ expected) (Hnd : NoDup (items ++ [(slot, c)]).*1).

Lemma new_slot s c' : (s, c') ∈ items → s ≠ slot.
Proof.
  intros Hin ->. rewrite fmap_app, NoDup_app in Hnd. destruct Hnd as (_ & Hd & _).
  apply (Hd slot); [|by left]. apply list_elem_of_fmap. by exists (slot, c').
Qed.

Lemma in_items x : x ∈ items → x ∈ items ++ [(slot, c)].
Proof. rewrite elem_of_app. by left. Qed.

Lemma in_items_last : (slot, c) ∈ items ++ [(slot, c)].
Proof. rewrite elem_of_app. right. by left. Qed.

(** A new binding leaves the bindings of the other slots in place. *)
Lemma outputs_set s c' id (outputs : list (OutputSlot * string)) :
  (s, c') ∈ items → dict_get s (dict_set slot id outputs) = dict_get s outputs.
Proof. intros Hin. rewrite dict_get_set, decide_False; [done|]. by apply (new_slot s c'). Qed.

Lemma bound_set s id new (outputs : list (OutputSlot * string)) :
  (∀ s id, dict_get s outputs = Some id → ∃ c, (s, c) ∈ items) →
  dict_get s (dict_set slot new outputs) = Some id → ∃ c', (s, c') ∈ items ++ [(slot, c)].
Proof.
  intros Hb. rewrite dict_get_set. case_decide as E.
  - intros _. subst s. exists c. apply in_items_last.
  - intros (c' & ?)%Hb. exists c'. by apply in_items.
Qed.

Definition kinds_ok (items : list (OutputSlot * gset Z)) (outputs : list (OutputSlot * string))
    (op : Instruction) : Prop :=
  if decide (in_kind op = "copy"%string) then
    ∃ slot c, (slot, c) ∈ items ∧ in_id op = copy_id slot ∧ in_rank op = slot_rank slot ∧
      dict_get slot outputs = Some (state_id (copy_id slot))
  else in_id op ∈ ids.

Lemma kinds_weaken outputs id op :
  kinds_ok items outputs op → kinds_ok (items ++ [(slot, c)]) (dict_set slot id outputs) op.
Proof.
  unfold kinds_ok. case_decide; [|done]. intros (s & c' & Hin & ? & ? & ?). exists s, c'.
  rewrite (outputs_set s c') by done. split; [by apply in_items|done].
Qed.

Definition direct_ok (items : list (OutputSlot * gset Z)) (outputs : list (OutputSlot * string))
    (states : list (string * Value)) (id : string) (a : Address) : Prop :=
  cs_inplace (ri_collective inputs) = false ∧
  ∃ slot c v p, (slot, c) ∈ items ∧ a = slot_address slot ∧
    dict_get id states = Some v ∧ va_rank v = slot_rank slot ∧
    va_contributors v = c ∧ va_producer v = Some p ∧ p ∈ ids ∧ dict_get slot outputs = Some id.

Lemma direct_weaken outputs states states' new id a :
  extends states states' → direct_ok items outputs states id a →
  direct_ok (items ++ [(slot, c)]) (dict_set slot new outputs) states' id a.
Proof.
  intros He (? & s & c' & v & p & Hin & ? & ? & ? & ? & ? & ? & ?). split; [done|].
  exists s, c', v, p. rewrite (outputs_set s c') by done.
  split; [by apply in_items|]. split; [done|]. split; [by apply He|done].
Qed.

(** The slot of a state that is there from the start, or is written directly. *)
Lemma bind_output acc v direct :
  outputs_ok items acc →
  dict_get (va_state_id v) (pl_states (ou_planning acc)) = Some v → va_rank v = slot_rank slot →
  va_contributors v = c →
  (direct = ou_direct acc ∧ placed acc slot (va_state_id v) ∨
   direct = dict_set (va_state_id v) (slot_address slot) (ou_direct acc) ∧
   cs_inplace (ri_collective inputs) = false ∧ ∃ p, va_producer v = Some p ∧ p ∈ ids) →
  outputs_ok (items ++ [(slot, c)])
    (MkOutputs (ou_planning acc) (dict_set slot (va_state_id v) (ou_outputs acc)) direct).
Proof.
  intros Hok Hv Hr Hc Hd. split; cbn [ou_planning ou_outputs ou_direct].
  - apply Hok.
  - apply Hok.
  - intros op Hop. by apply kinds_weaken, (oo_kinds _ _ Hok).
  - apply Hok.
  - intros id a Ha. destruct Hd as [[-> _]|(-> & Hin & p & Hp & Hpid)];
      [by eapply direct_weaken; [by intros ??|apply (oo_direct _ _ Hok)]|].
    rewrite dict_get_set in Ha. case_decide as E; [|by eapply direct_weaken; [by intros ??|apply (oo_direct _ _ Hok)]].
    injection Ha as <-. subst id. split; [done|]. exists slot, c, v, p.
    rewrite dict_get_set, decide_True by done. split; [apply in_items_last|done].
  - intros s c' [Hin|Hin]%elem_of_app.
    + destruct (oo_outputs _ _ Hok s c' Hin) as (id & w & Hout & Hw & Hwc & Hwr & Hpl).
      exists id, w. rewrite dict_get_set, decide_False by (by apply (new_slot s c')).
      split_and!; try done. destruct Hd as [[-> _]|(-> & _)]; [exact Hpl|].
      destruct Hpl as [?|[Hdir|?]]; [by left| |by right; right]. right. left.
      cbn [ou_direct]. rewrite dict_get_set. case_decide as E; [|done].
      exfalso. apply (new_slot s c' Hin). subst id. rewrite Hw in Hv. injection Hv as ->.
      apply (Hexpected s c' slot c); [by apply Hsub, in_items|apply Hsub, in_items_last|congruence..].
    + apply list_elem_of_singleton in Hin. injection Hin as -> ->. exists (va_state_id v), v.
      rewrite dict_get_set, decide_True by done. split_and!; try done.
      destruct Hd as [[-> Hp]|(-> & _)]; [exact Hp|]. right. left. cbn [ou_direct].
      by rewrite dict_get_set, decide_True.
  - intros s id. apply bound_set, (oo_bound _ _ Hok).
Qed.

Definition copy_instruction (v : Value) : Instruction :=
  MkInstruction (copy_id slot) "copy" [va_state_id v] (state_id (copy_id slot)) (slot_rank slot)
    (-1) (-1) final_stage [slot_rank slot] (producer_set v) final_priority.

Definition copy_value (v : Value) : Value :=
  MkValue (state_id (copy_id slot)) (va_rank v) (va_position v) (va_contributors v)
    (Some (copy_id slot)).

Definition with_copy (acc : Outputs) (v : Value) : Outputs :=
  let st := ou_planning acc in
  MkOutputs
    (MkPlanning (dict_set (state_id (copy_id slot)) (copy_value v) (pl_states st))
       (pl_by_position st)
       (dict_set (state_id (copy_id slot)) (slot_address slot) (pl_addresses st))
       (pl_instructions st ++ [copy_instruction v]) (pl_omitted st))
    (dict_set slot (state_id (copy_id slot)) (ou_outputs acc)) (ou_direct acc).

(** The slot of a state that is copied there. *)
Lemma copy_output acc v :
  outputs_ok items acc →
  dict_get (va_state_id v) (pl_states (ou_planning acc)) = Some v → va_rank v = slot_rank slot →
  va_contributors v = c → (∀ p, va_producer v = Some p → p ∈ ids) →
  outputs_ok (items ++ [(slot, c)]) (with_copy acc v).
Proof.
  intros Hok Hv Hr Hc Hprod.
  pose proof (fresh_copy _ _ _ _ Hok Hnd) as Hfresh.
  pose proof (fresh_state inputs n _ _ (oo_planning _ _ Hok) Hfresh) as Hnew.
  assert (Hext : extends (pl_states (ou_planning acc))
    (dict_set (state_id (copy_id slot)) (copy_value v) (pl_states (ou_planning acc))))
    by (by apply extends_set).
  assert (Hrank : 0 ≤ slot_rank slot) by (eapply Hslot, Hsub, in_items_last).
  split; cbn [with_copy ou_planning ou_outputs ou_direct].
  - eapply (add_instruction inputs n (ou_planning acc) _ _ _ _ (copy_value v) (copy_instruction v));
      try done; [apply Hok|].
    split; [done|]. exists (copy_value v), (va_state_id v), v.
    split; [by rewrite dict_get_set, decide_True|]. split; [done|]. split; [done|]. simpl.
    split; [done|]. split; [|done]. split; [by apply Hext|]. split; [done|].
    intros p Hp. simpl. unfold producer_set. rewrite Hp.
    destruct (Hids p (Hprod p Hp)) as [Hne _]. rewrite decide_False by done. by apply elem_of_singleton.
  - intros r l w Hw. destruct (oo_positions _ _ Hok r l w Hw) as (? & ? & ?).
    split; [by apply Hext|done].
  - intros op [Hop|Hop]%elem_of_app; [by apply kinds_weaken, (oo_kinds _ _ Hok)|].
    apply list_elem_of_singleton in Hop as ->. simpl. exists slot, c.
    rewrite dict_get_set, decide_True by done. split; [apply in_items_last|done].
  - intros id a. cbn [pl_addresses pl_instructions]. rewrite dict_get_set, fmap_app.
    setoid_rewrite elem_of_app. setoid_rewrite list_elem_of_singleton. case_decide as E.
    + subst id. split.
      * intros [= <-]. right. exists slot. split_and!; [done..|by right].
      * intros [(p & _ & Hp & _)|(s & Hs & -> & _)]; [by symmetry in Hp; apply input_not_state in Hp|].
        by apply state_id_inj, copy_id_inj in Hs as ->.
    + rewrite (oo_addresses _ _ Hok). split.
      * intros [?|(s & ? & ? & ?)]; [by left|right; exists s; auto].
      * intros [?|(s & Hs & ? & [?|Hc'])]; [by left|right; eauto|].
        exfalso. apply E. simpl in Hc'. rewrite Hs. by rewrite Hc'.
  - intros id a Ha. eapply direct_weaken; [exact Hext|]. by apply (oo_direct _ _ Hok).
  - assert (Hpl : ∀ s id, placed acc s id → placed (with_copy acc v) s id).
    { intros s id [?|[?|[? ?]]]; [by left|by right; left|right; right]. split; [done|].
      simpl. rewrite fmap_app, elem_of_app. by left. }
    intros s c' [Hin|Hin]%elem_of_app.
    + destruct (oo_outputs _ _ Hok s c' Hin) as (id & w & Hout & Hw & Hwc & Hwr & Hp).
      exists id, w. rewrite dict_get_set, decide_False by (by apply (new_slot s c')).
      split_and!; try done; [by apply Hext|by apply Hpl].
    + apply list_elem_of_singleton in Hin. injection Hin as -> ->.
      exists (state_id (copy_id slot)), (copy_value v).
      cbn [with_copy ou_planning pl_states ou_outputs].
      rewrite !dict_get_set, !decide_True by done. split; [done|]. split; [done|].
      split; [exact Hc|]. split; [exact Hr|].
      right. right. split; [done|]. simpl. rewrite fmap_app, elem_of_app. right. by left.
  - intros s id. apply bound_set, (oo_bound _ _ Hok).
Qed.
End step.

Lemma place_output_ok items slot c acc acc' :
  (∀ x, x ∈ items ++ [(slot, c)] → x ∈ expected) → NoDup (items ++ [(slot, c)]).*1 →
  outputs_ok items acc →
  place_output context n final_stage final_priority acc (slot, c) = Ok acc' →
  outputs_ok (items ++ [(slot, c)]) acc'.
Proof.
  intros Hsub Hnd Hok H. destruct acc as [st outs direct] eqn:Eacc. unfold place_output in H.
  inv_res. rename x0 into v. apply last_elem, elem_of_matching in H0 as [Hv Hc].
  pose proof (oo_positions _ _ Hok _ _ _ Hv) as (Hget & Hr & Hprod).
  fold (slot_address slot) in H1. destruct x1.
  - injection H2 as <-.
    apply (in_place_Ok items _ slot _ _ _ _ Hok Hv) in H1 as (p & Hp & Hid & Hcell); [|done].
    apply (bind_output items slot c Hsub Hnd (MkOutputs st outs direct)); try done.
    left. split; [done|]. left. by exists p.
  - destruct (present (va_producer v) && negb (cs_inplace (ri_collective (cx_inputs context)))) eqn:Eb.
    + injection H2 as <-. bool_prop.
      apply (bind_output items slot c Hsub Hnd (MkOutputs st outs direct)); try done.
      right. split; [done|]. split; [done|]. destruct (va_producer v) as [p|]; [|done].
      exists p. auto.
    + injection H2 as <-.
      by apply (copy_output items slot c Hsub Hnd (MkOutputs st outs direct)).
Qed.

Lemma outputs_placed st acc :
  planning_ok inputs n st → positions_ok ids st → initial_addresses inputs n (pl_addresses st) →
  in_id <$> pl_instructions st = ids → (∀ op, op ∈ pl_instructions st → in_kind op ≠ "copy"%string) →
  foldM (place_output context n final_stage final_priority) (MkOutputs st [] []) (sorted_by fst expected)
    = Ok acc →
  outputs_ok (sorted_by fst expected) acc.
Proof.
  intros Hok Hpos Haddr Hin Htr H.
  assert (Hs : NoDup (sorted_by fst expected).*1) by (by rewrite sorted_by_perm).
  assert (He : ∀ x, x ∈ sorted_by fst expected → x ∈ expected)
    by (intros x; by rewrite elem_of_sorted_by).
  revert Hs He.
  refine (foldM_ind (λ items acc, NoDup items.*1 → (∀ x, x ∈ items → x ∈ expected) →
    outputs_ok items acc) _ _ _ acc _ _ H).
  - intros _ _. split; cbn [ou_planning ou_outputs ou_direct]; try done.
    + intros op Hop. rewrite decide_False by (by apply Htr). rewrite <- Hin.
      by apply list_elem_of_fmap_2.
    + intros id a. rewrite (Haddr id a). split; [by left|]. intros [?|(s & _ & _ & Hs)]; [done|].
      exfalso. rewrite Hin in Hs. destruct (Hids _ Hs) as [_ Hn]. by destruct (Hn s).
    + by intros s c Hs%elem_of_nil.
  - intros items [s c] b b' IH _ Hstep Hnd Hsub. eapply place_output_ok; [done..| |exact Hstep].
    apply IH; [|intros x Hx; apply Hsub, elem_of_app; by left].
    rewrite fmap_app in Hnd. by apply NoDup_app in Hnd as [? _].
Qed.
End outputs.
