(* ===== verification/V5StorageOrder.v ===== *)
(** * The order in which a storage plan runs

    Read-completion edges of the final copies, and the two orders of
    [build_storage_plan]: by priority, or, with a tight budget, by the storage
    that an instruction releases. *)

From S2P Require Import Prelude.
From S2P Require Import Python.
From S2P Require Import Collective.
From S2P Require Import InputModels.
From S2P Require Import Versions.
From S2P Require Import Floats.
From S2P Require Import V5Model.
From S2P Require Import V5Buffers.
From S2P Require Import V5Order.
From S2P Require Import V5Exec.
From S2P Require Import V5Planning.
From S2P Require Import V5Outputs.
Local Open Scope Z_scope.

(** ** Readers *)

Lemma readers_insert (readers : gmap string (gset string)) id k x :
  readers_of (<[k := {[x]} ∪ readers_of readers k]> readers) id =
    if decide (id = k) then {[x]} ∪ readers_of readers id else readers_of readers id.
Proof.
  unfold readers_of. case_decide as E.
  - subst. by rewrite lookup_insert_eq.
  - by rewrite lookup_insert_ne.
Qed.

Lemma readers_inputs (readers : gmap string (gset string)) x keys id y :
  y ∈ readers_of (foldl (λ readers id, <[id := {[x]} ∪ default ∅ (readers !! id)]> readers) readers keys) id ↔
    y ∈ readers_of readers id ∨ (id ∈ keys ∧ y = x).
Proof.
  revert readers. induction keys as [|k keys IH]; intros readers; cbn [foldl].
  - rewrite elem_of_nil. tauto.
  - rewrite IH. change (default ∅ (readers !! k)) with (readers_of readers k).
    rewrite readers_insert, elem_of_cons. case_decide; set_solver.
Qed.

Lemma elem_of_readers instructions id y :
  y ∈ readers_of (reader_sets instructions) id ↔
    ∃ op, op ∈ instructions ∧ id ∈ in_inputs op ∧ in_id op = y.
Proof.
  unfold reader_sets. induction instructions as [|op l IH] using rev_ind.
  - simpl. unfold readers_of. rewrite lookup_empty. simpl. setoid_rewrite elem_of_nil. set_solver.
  - rewrite foldl_snoc, readers_inputs, IH. setoid_rewrite elem_of_app.
    setoid_rewrite list_elem_of_singleton. naive_solver.
Qed.

(** ** Protection of the initial storage *)

Section protection.
Context (context : LoweringContext) (n size_ : Z).
Let inputs := cx_inputs context.
Context (Hslices : slices inputs = Ok (n, size_)) (Hranks : 1 ≤ ri_rank_count inputs).

Lemma canonical_region_size a region :
  canonical_region a inputs = Ok region → br_size region = size_ ∧ 1 ≤ size_.
Proof.
  destruct a as [r b o]. unfold canonical_region. rewrite Hslices.
  cbn [mbind res_bind].
  case_decide; [|destruct (cs_inplace _); cbn [negb]; rewrite ?(inplace_base_Ok inputs n Hranks); cbn [mbind res_bind]];
    intros (? & ? & ? & ->)%BufferRegion_init_Ok; done.
Qed.

Lemma same_region_overlaps a b ra rb :
  canonical_region a inputs = Ok ra → canonical_region b inputs = Ok rb →
  region_key ra = region_key rb → overlaps ra rb = true.
Proof.
  intros Ha Hb E. apply canonical_region_size in Ha as [Sa ?], Hb as [Sb _].
  destruct ra as [r1 b1 o1 s1 k1], rb as [r2 b2 o2 s2 k2]. unfold region_key in E. simpl in *.
  injection E as -> -> ->. subst. unfold overlaps, br_key. simpl.
  rewrite bool_decide_eq_true_2 by done. simpl. lia.
Qed.

(** An instruction whose dependencies have grown. *)
Definition grown (op op' : Instruction) (d : gset string) : Prop :=
  op' = with_dependencies op d ∧ in_dependencies op ⊆ d.

(** A copy also waits for the readers of the initial state it overwrites. *)
Definition protected (instructions : list Instruction) (addresses : list (string * Address))
    (initial : list string) (op op' : Instruction) : Prop :=
  ∃ d, grown op op' d ∧
    (in_kind op = "copy"%string → ∀ id a target r, id ∈ initial →
      dict_get id addresses = Some a → dict_get (in_output op) addresses = Some target →
      cell_spec inputs n size_ a = cell_spec inputs n size_ target → r ∈ instructions →
      id ∈ in_inputs r → in_id r ≠ in_id op → in_id r ∈ d).

Lemma protect_Ok instructions addresses initial regions op op' :
  mapR (λ id, address ← of_option (dict_get id addresses) (KeyError id);
              region ← canonical_region address inputs; Ok (id, region)) initial = Ok regions →
  protect context (reader_sets instructions) addresses regions op = Ok op' →
  protected instructions addresses initial op op'.
Proof.
  intros Hreg H. apply mapR_Ok in Hreg. unfold protect in H. case_decide as Hk.
  - apply bind_Ok in H as (target & Htarget%of_option_Ok & H).
    apply bind_Ok in H as (region & Hregion & [= <-]).
    eexists. split; [split; [done|apply union_subseteq_l]|].
    intros _ id a target' r Hid Ha Ht Hcell Hr Hread Hne.
    assert (target' = target) as -> by congruence.
    destruct (Forall2_elem_l _ _ _ _ Hreg Hid) as (item & Hin & Hval).
    apply bind_Ok in Hval as (a' & Ha'%of_option_Ok & Hval). assert (a' = a) as -> by congruence.
    apply bind_Ok in Hval as (region' & Hregion' & [= <-]).
    destruct (canonical_region_cell inputs n size_ Hslices Hranks _ _ Hregion) as [E1 _].
    destruct (canonical_region_cell inputs n size_ Hslices Hranks _ _ Hregion') as [E2 _].
    apply elem_of_union. right. apply elem_of_union_list. eexists. split.
    + apply list_elem_of_fmap. exists (id, region'). split; [reflexivity|]. apply list_elem_of_filter.
      split; [|done]. cbn [snd]. split; [congruence|].
      apply Is_true_true. eapply same_region_overlaps; [exact Hregion|exact Hregion'|congruence].
    + apply elem_of_difference. split; [|by rewrite elem_of_singleton].
      apply elem_of_readers. eauto.
  - injection H as <-. eexists. split; [split; [done|done]|]. done.
Qed.
End protection.

(** ** Orders *)

(** Dependencies come earlier in the list. *)
Definition follows (l : list Instruction) : Prop :=
  ∀ i op d, l !! i = Some op → d ∈ in_dependencies op →
    ∃ j p, (j < i)%nat ∧ l !! j = Some p ∧ in_id p = d.

Lemma follows_nil : follows [].
Proof. intros i op d H. by rewrite lookup_nil in H. Qed.

Lemma follows_snoc l op :
  follows l → in_dependencies op ⊆ list_to_set (in_id <$> l) → follows (l ++ [op]).
Proof.
  intros Hl Hop i o d Ho Hd. apply lookup_app_Some in Ho as [Ho|[Hlen Ho]].
  - destruct (Hl i o d Ho Hd) as (j & p & ? & Hp & ?). exists j, p. split; [done|].
    split; [|done]. by apply lookup_app_l_Some.
  - apply list_lookup_singleton_Some in Ho as [Hi <-].
    apply Hop, elem_of_list_to_set, list_elem_of_fmap in Hd as (p & -> & Hp).
    apply list_elem_of_lookup in Hp as [j Hj]. pose proof (lookup_lt_Some _ _ _ Hj).
    exists j, p. split; [lia|]. split; [|done]. by apply lookup_app_l_Some.
Qed.

Lemma keyed_ids (l : list Instruction) :
  ((λ op, (in_id op, op)) <$> l).*1 = in_id <$> l.
Proof. rewrite <- list_fmap_compose. done. Qed.

Lemma keyed_instructions (l : list Instruction) : ((λ op, (in_id op, op)) <$> l).*2 = l.
Proof. rewrite <- list_fmap_compose. apply list_fmap_id. Qed.

(** The pairs of a dictionary of instructions. *)
Definition keyed (pending : list (string * Instruction)) : Prop :=
  ∀ x, x ∈ pending → x.1 = in_id x.2.

Lemma tight_loop_Ok scratch fuel pending reads ordered result :
  keyed pending → NoDup pending.*1 → follows ordered →
  tight_loop fuel scratch pending (list_to_set (in_id <$> ordered)) reads ordered = Ok result →
  result ≡ₚ ordered ++ pending.*2 ∧ follows result.
Proof.
  revert pending reads ordered. induction fuel as [|fuel IH]; [done|].
  intros pending reads ordered Hkey Hnd Hfol. cbn [tight_loop]. case_decide as Hp.
  { intros [= <-]. subst. by rewrite app_nil_r. }
  intros H. apply bind_Ok in H as (op & Hop%of_option_Ok & H).
  apply bind_Ok in H as (reads' & _ & H).
  apply min_by_Some in Hop as [Hop _]. apply list_elem_of_filter in Hop as [Hdone Hop].
  apply list_elem_of_fmap in Hop as ([k op'] & -> & Hin). simpl in *.
  pose proof (Hkey _ Hin) as Ek. simpl in Ek. subst k.
  replace ({[in_id op']} ∪ list_to_set (in_id <$> ordered))
    with (list_to_set (in_id <$> (ordered ++ [op'])) : gset string) in H
    by (rewrite fmap_app, list_to_set_app_L; simpl; set_solver).
  apply IH in H as [Hperm Hf].
  - split; [|done]. rewrite Hperm, <- app_assoc. f_equiv. simpl. symmetry.
    clear -Hin Hnd Hkey. induction pending as [|x pending IHp]; [by apply elem_of_nil in Hin|].
    apply NoDup_cons in Hnd as [Hx Hnd]. apply elem_of_cons in Hin as [<-|Hin].
    + rewrite filter_cons_False by (intros Hn; by apply Hn). csimpl. f_equiv.
      rewrite list_filter_all; [done|]. apply Forall_forall. intros y Hy E. apply Hx.
      simpl. rewrite <- E. by apply list_elem_of_fmap_2.
    + rewrite filter_cons_True.
      * assert (Hk' : keyed pending) by (intros y Hy; apply Hkey; by right).
        csimpl. rewrite IHp by done. apply Permutation_swap.
      * intros E. apply Hx. rewrite E. apply list_elem_of_fmap. by exists (in_id op', op').
  - intros x [_ Hx]%list_elem_of_filter. by apply Hkey.
  - eapply sublist_NoDup; [exact Hnd|]. apply fmap_sublist, sublist_filter.
  - by apply follows_snoc.
Qed.

Lemma storage_order_Ok tight scratch readers instructions ordered :
  NoDup (in_id <$> instructions) →
  storage_order tight scratch readers instructions = Ok ordered →
  ordered ≡ₚ instructions ∧ follows ordered.
Proof.
  intros Hnd H. unfold storage_order in H.
  rewrite dict_of_list_nodup in H by (by rewrite keyed_ids). destruct tight.
  - apply (tight_loop_Ok _ _ _ _ []) in H.
    + by rewrite keyed_instructions in H.
    + intros x (op & -> & _)%list_elem_of_fmap. done.
    + by rewrite keyed_ids.
    + apply follows_nil.
  - pose proof (priority_order_cases ((λ op, (in_id op, op)) <$> instructions)
      ((λ item, (item.1, in_dependencies item.2)) <$> ((λ op, (in_id op, op)) <$> instructions))
      (λ op, (in_priority op, in_id op))
      "storage and reference orders contain a dependency cycle") as Hc.
    rewrite keyed_ids in Hc. specialize (Hc Hnd). rewrite H in Hc.
    destruct Hc as (keys & Hperm & Ho & _ & Hitems).
    { rewrite <- !list_fmap_compose. done. }
    rewrite keyed_ids in Hperm.
    assert (Hin : ∀ k op, dict_get k ((λ op, (in_id op, op)) <$> instructions) = Some op →
      op ∈ instructions ∧ k = in_id op).
    { intros k op (o & E & ?)%dict_get_Some_1%list_elem_of_fmap. by injection E as -> ->. }
    assert (Hids : in_id <$> ordered = keys).
    { clear -Hitems Hin. induction Hitems as [|k op keys ordered Hk _ IH]; [done|].
      apply Hin in Hk as [_ ->]. csimpl. by rewrite IH. }
    split.
    + assert (Hndo : NoDup (in_id <$> ordered)) by (by rewrite Hids, Hperm).
      apply NoDup_Permutation; [by apply NoDup_fmap_1 in Hndo|by apply NoDup_fmap_1 in Hnd|].
      intros op. split.
      * intros Hop. destruct (Forall2_elem_r _ _ _ _ Hitems Hop) as (k & _ & Hk).
        by apply Hin in Hk as [? _].
      * intros Hop. assert (Hk : in_id op ∈ keys).
        { rewrite Hperm. by apply list_elem_of_fmap_2. }
        destruct (Forall2_elem_l _ _ _ _ Hitems Hk) as (o & Ho' & Hg).
        apply Hin in Hg as [Hoi E]. by rewrite (NoDup_fmap_elem _ _ _ _ Hnd Hop Hoi E).
    + intros i op d Hi Hd.
      assert (Hki : keys !! i = Some (in_id op)) by (by rewrite <- Hids, list_lookup_fmap, Hi).
      destruct (Ho (take i keys) (in_id op) (drop (S i) keys)) as (deps & Hdeps & Hsub);
        [by rewrite take_drop_middle|].
      apply list_elem_of_fmap in Hdeps as ([k o] & E & Hk). simpl in E. injection E as E ->.
      apply list_elem_of_fmap in Hk as (o' & E' & Ho'). injection E' as -> ->.
      assert (o' = op) as ->.
      { apply (NoDup_fmap_elem _ _ _ _ Hnd Ho'); [|done].
        destruct (Forall2_elem_r _ _ _ _ Hitems (list_elem_of_lookup_2 _ _ _ Hi)) as (k & _ & Hk).
        by apply Hin in Hk as [? _]. }
      apply Hsub, elem_of_list_to_set, list_elem_of_lookup in Hd as [j Hj].
      apply lookup_take_Some in Hj as [Hj Hlt].
      rewrite <- Hids, list_lookup_fmap in Hj. destruct (ordered !! j) as [p|] eqn:Ep; [|done].
      injection Hj as Hj. eauto.
Qed.
