(* ===== verification/V5Allocation.v ===== *)
(** * Allocation of the scratch storage of a plan

    A scratch slot is reused only by an instruction that waits for all readers of
    the state in it; then every earlier access to the slot precedes the new
    write along dependencies that the rank of the slot sees. *)

From S2P Require Import Prelude.
From S2P Require Import Python.
From S2P Require Import Collective.
From S2P Require Import InputModels.
From S2P Require Import V5Model.
From S2P Require Import V5Buffers.
From S2P Require Import V5Exec.
From S2P Require Import V5Planning.
From S2P Require Import V5StorageOrder.
Local Open Scope Z_scope.

(** A dependency between instructions of [l], by identity, that [rank] sees. *)
Definition local_id (l : list Instruction) (rank : Z) (a b : string) : Prop :=
  ∃ p q, p ∈ l ∧ q ∈ l ∧ in_id p = a ∧ in_id q = b ∧ a ∈ in_dependencies q ∧
    at_rank p rank ∧ at_rank q rank.

Lemma tc_mono {A} (R S : relation A) a b : (∀ x y, R x y → S x y) → tc R a b → tc S a b.
Proof. intros HRS. induction 1; [apply tc_once; auto|eapply tc_l; eauto]. Qed.

Lemma local_id_mono l l' rank a b :
  (∀ x, x ∈ l → x ∈ l') → tc (local_id l rank) a b → tc (local_id l' rank) a b.
Proof.
  intros Hl. apply tc_mono. intros x y (p & q & ? & ? & ?). exists p, q.
  split; [by apply Hl|]. split; [by apply Hl|done].
Qed.

Lemma grown_ids l l' : Forall2 (λ op f, ∃ d, grown op f d) l l' → in_id <$> l' = in_id <$> l.
Proof. induction 1 as [|o f l l' (d & -> & _) _ IH]; [done|]. csimpl. by rewrite IH. Qed.

(** ** The choice of a slot *)

Section find.
Context (capacity : Z) (readers : gmap string (gset string)) (position : list (string * Z)).

(** The readers of [prior] that a writer waits for. *)
Definition waited (op : Instruction) (prior : string) : gset string :=
  if decide (prior ∈ in_inputs op ∧ in_kind op = "rrc"%string)
  then readers_of readers prior ∖ {[in_id op]} else readers_of readers prior.

Lemma choice_Ok upstream op index prior c :
  choice readers position upstream op (index, prior) = Ok (Some c) →
  c.1.1.2 = index ∧ c.1.2 = prior ∧ c.2 = waited op prior ∧
  ∀ reader, reader ∈ waited op prior → ∃ place own, dict_get reader position = Some place ∧
    dict_get (in_id op) position = Some own ∧ place < own.
Proof.
  unfold choice. intros H. apply bind_Ok in H as (own & Hown%of_option_Ok & H).
  apply bind_Ok in H as (places & Hplaces & H). apply mapR_Ok in Hplaces.
  destruct (forallb _ places) eqn:Hall; [|done]. injection H as <-. simpl.
  set (previous := if bool_decide _ && bool_decide _ then _ else _) in *.
  assert (Ew : previous = waited op prior).
  { unfold previous, waited. case_decide as Hd.
    - destruct Hd. by rewrite !bool_decide_eq_true_2 by done.
    - destruct (bool_decide _ && bool_decide _) eqn:Eb; [|done]. bool_prop. by destruct Hd. }
  rewrite <- Ew. split_and!; try done. intros reader Hr.
  destruct (Forall2_elem_l _ _ _ _ Hplaces (proj2 (elem_of_elements _ _) Hr))
    as (place & Hin & Hp%of_option_Ok).
  exists place, own. split_and!; [done|done|]. rewrite forallb_forall in Hall.
  apply list_elem_of_In, Hall in Hin. lia.
Qed.

Lemma find_slot_Ok pool upstream op index consumers reuse :
  find_slot capacity readers position pool upstream op = Ok (index, consumers, reuse) →
  (index = Z.of_nat (length pool) ∧ consumers = ∅) ∨
  ∃ k prior, index = Z.of_nat k ∧ pool !! k = Some prior ∧ consumers = waited op prior ∧
    ∀ reader, reader ∈ consumers → ∃ place own, dict_get reader position = Some place ∧
      dict_get (in_id op) position = Some own ∧ place < own.
Proof.
  unfold find_slot. intros H. apply bind_Ok in H as (choices & Hchoices & H).
  apply mapR_Ok in Hchoices. cbv zeta in H.
  destruct (min_by _ _) as [[[[late i] prior] cons]|] eqn:Em; last first.
  { destruct (_ <=? _); [done|]. injection H as <- <- _. by left. }
  injection H as <- <- _. right.
  assert (Hin : (late, i, prior, cons) ∈ omap id choices).
  { apply min_by_Some in Em as [Hin _]. case_decide; [by apply list_elem_of_filter in Hin as [_ ?]|].
    destruct (_ <=? _); [done|]. by apply elem_of_nil in Hin. }
  apply list_elem_of_omap in Hin as (o & Hin & Eo). unfold id in Eo. subst o.
  destruct (Forall2_elem_r _ _ _ _ Hchoices Hin) as ([index prior'] & Hzip & Hc).
  apply list_elem_of_lookup in Hzip as [k Hk].
  apply lookup_zip_with_Some in Hk as (x & y & E & Hx & Hy). injection E as <- <-.
  apply lookup_seqZ in Hx as [-> _].
  apply choice_Ok in Hc as (E1 & E2 & E3 & Hp). simpl in *. subst.
  exists k, prior'. split_and!; try done.
Qed.
End find.

(** Every call appends the instruction, with more dependencies. *)
Lemma allocate_final capacity direct readers position st op st' :
  allocate capacity direct readers position st op = Ok st' →
  ∃ d, al_final st' = al_final st ++ [with_dependencies op d].
Proof.
  unfold allocate. intros H. apply bind_Ok in H as (upstream & _ & H).
  apply bind_Ok in H as ([[[addr slots] deps] reuse] & _ & H).
  apply bind_Ok in H as (anc & _ & [= <-]). by exists deps.
Qed.

Lemma allocate_all_final capacity direct readers position st ops st' :
  foldM (allocate capacity direct readers position) st ops = Ok st' →
  ∃ l, al_final st' = al_final st ++ l ∧ Forall2 (λ op f, ∃ d, f = with_dependencies op d) ops l.
Proof.
  revert st. induction ops as [|op ops IH]; intros st H; cbn [foldM] in H.
  - injection H as <-. exists []. by rewrite app_nil_r.
  - apply bind_Ok in H as (s & Hs & H). apply allocate_final in Hs as (d & Ed).
    destruct (IH s H) as (l & -> & Hl). exists (with_dependencies op d :: l).
    rewrite Ed, <- app_assoc. split; [done|]. constructor; [by exists d|done].
Qed.

(** ** The invariant of the allocation *)

Section allocation.
Context (capacity : Z) (direct : list (string * Address)) (readers : gmap string (gset string)).
Context (position : list (string * Z)) (addresses : list (string * Address)).
Context (ordered : list Instruction) (Hids : NoDup (in_id <$> ordered)).
Context (Houts : NoDup (in_output <$> ordered)) (Hfollows : follows ordered).
Context (Hreaders : ∀ id y, y ∈ readers_of readers id ↔
  ∃ op, op ∈ ordered ∧ id ∈ in_inputs op ∧ in_id op = y).
Context (Hposition : ∀ id place, dict_get id position = Some place ↔
  ∃ i op, ordered !! i = Some op ∧ in_id op = id ∧ place = Z.of_nat i).
Context (Hoperand : ∀ op key p, op ∈ ordered → key ∈ in_inputs op → p ∈ ordered →
  in_output p = key → in_id p ∈ in_dependencies op ∧ at_rank op (in_rank p)).
Context (Hdirect : ∀ id a, dict_get id direct = Some a →
  ad_buffer a ≠ "s"%string ∧ dict_get id addresses = None).
Context (Hfixed : ∀ id a, dict_get id addresses = Some a → ad_buffer a ≠ "s"%string).

Definition scratch_slot (r : Z) (k : nat) : Address := MkAddress r "s" (Z.of_nat k).

(** All accesses to [u] come before [op], on [rank]. *)
Definition drained (final : list Instruction) (rank : Z) (u : string) (op : Instruction) : Prop :=
  ∀ r, r ∈ ordered → accesses r u →
    in_id r = in_id op ∨ tc (local_id final rank) (in_id r) (in_id op).

Record allocated (don : list Instruction) (st : Allocation) : Prop := {
  ac_final : Forall2 (λ op f, ∃ d, grown op f d) don (al_final st);
  ac_follows : follows (al_final st);
  ac_outside id : id ∉ in_output <$> don →
    dict_get id (al_addresses st) = dict_get id addresses;
  ac_direct op a : op ∈ don → dict_get (in_output op) direct = Some a →
    dict_get (in_output op) (al_addresses st) = Some a;
  ac_fixed op a : op ∈ don → dict_get (in_output op) addresses = Some a →
    dict_get (in_output op) (al_addresses st) = Some a;
  ac_scratch op : op ∈ don → dict_get (in_output op) direct = None →
    dict_get (in_output op) addresses = None →
    ∃ k, dict_get (in_output op) (al_addresses st) = Some (scratch_slot (in_rank op) k) ∧
      (k < length (default [] (al_slots st !! in_rank op)))%nat;
  ac_slots r k id : default [] (al_slots st !! r) !! k = Some id →
    ∃ op, op ∈ don ∧ in_output op = id ∧ in_rank op = r ∧
      dict_get id (al_addresses st) = Some (scratch_slot r k) ∧
      ∀ q, q ∈ don → in_output q ≠ id →
        dict_get (in_output q) (al_addresses st) = Some (scratch_slot r k) →
        drained (al_final st) r (in_output q) op;
  ac_hazards p q r k : before don p q →
    dict_get (in_output p) (al_addresses st) = Some (scratch_slot r k) →
    dict_get (in_output q) (al_addresses st) = Some (scratch_slot r k) →
    drained (al_final st) r (in_output p) q;
}.

(** Every state in scratch storage is read; otherwise its slot may be taken
    before it is written. *)
Context (Hread : ∀ op, op ∈ ordered → dict_get (in_output op) direct = None →
  dict_get (in_output op) addresses = None →
  ∃ r, r ∈ ordered ∧ in_output op ∈ in_inputs r).

Lemma drained_mono final final' rank u op :
  (∀ x, x ∈ final → x ∈ final') → drained final rank u op → drained final' rank u op.
Proof.
  intros Hf Hd r Hr Ha. destruct (Hd r Hr Ha) as [?|Htc]; [by left|right].
  by eapply local_id_mono.
Qed.

Section step.
Context (don : list Instruction) (op : Instruction) (rest : list Instruction).
Context (Hsplit : ordered = don ++ op :: rest) (st : Allocation) (Hst : allocated don st).

Lemma op_ordered : op ∈ ordered.
Proof. rewrite Hsplit, elem_of_app. right. by left. Qed.

Lemma don_ordered o : o ∈ don → o ∈ ordered.
Proof. rewrite Hsplit, elem_of_app. by left. Qed.

Lemma new_output : in_output op ∉ in_output <$> don.
Proof.
  pose proof Houts as H. rewrite Hsplit, fmap_app, NoDup_app in H. destruct H as (_ & Hd & _).
  intros Hin. apply (Hd _ Hin). by left.
Qed.

Lemma new_id : in_id op ∉ in_id <$> don.
Proof.
  pose proof Hids as H. rewrite Hsplit, fmap_app, NoDup_app in H. destruct H as (_ & Hd & _).
  intros Hin. apply (Hd _ Hin). by left.
Qed.

Lemma output_ne o : o ∈ don → in_output o ≠ in_output op.
Proof. intros Ho E. apply new_output. rewrite <- E. by apply list_elem_of_fmap_2. Qed.

Lemma final_ids : in_id <$> al_final st = in_id <$> don.
Proof.
  apply grown_ids, Hst.
Qed.

Lemma final_elem o : o ∈ don → ∃ d, with_dependencies o d ∈ al_final st ∧ in_dependencies o ⊆ d.
Proof.
  intros Ho. destruct (Forall2_elem_l _ _ _ _ (ac_final _ _ Hst) Ho) as (f & Hf & d & -> & Hd).
  by exists d.
Qed.

Lemma dependencies_done : in_dependencies op ⊆ list_to_set (in_id <$> don).
Proof.
  intros d Hd. assert (Hl : ordered !! length don = Some op).
  { rewrite Hsplit. by apply list_lookup_middle. }
  destruct (Hfollows _ _ _ Hl Hd) as (j & p & Hj & Hp & <-).
  rewrite Hsplit, lookup_app_l in Hp by done.
  apply elem_of_list_to_set, list_elem_of_fmap_2. by eapply list_elem_of_lookup_2.
Qed.

(** A reader that comes before the operation has been allocated. *)
Lemma earlier_reader reader place own :
  dict_get reader position = Some place → dict_get (in_id op) position = Some own → place < own →
  reader ∈ in_id <$> don.
Proof.
  intros (i & o & Hi & <- & ->)%Hposition (j & o' & Hj & Ho' & ->)%Hposition Hlt.
  assert (o' = op) as ->.
  { apply (NoDup_fmap_elem in_id ordered); [done|by eapply list_elem_of_lookup_2|apply op_ordered|done]. }
  assert (j = length don) as ->.
  { pose proof Hids as Hnd. apply NoDup_fmap_1 in Hnd. eapply NoDup_lookup; [exact Hnd|exact Hj|].
    rewrite Hsplit. by apply list_lookup_middle. }
  rewrite Hsplit, lookup_app_l in Hi by lia. apply list_elem_of_fmap_2.
  by eapply list_elem_of_lookup_2.
Qed.

(** ** Reuse of a slot *)

Section reuse.
Context (r : Z) (k : nat) (prior : string) (d : gset string).
Context (Hprior : default [] (al_slots st !! r) !! k = Some prior) (Hrank : in_rank op = r).
Context (Hd : in_dependencies op ⊆ d) (Hwait : waited readers op prior ⊆ d).
Context (Hearly : ∀ x, x ∈ waited readers op prior → x ∈ in_id <$> don).

Let final' := al_final st ++ [with_dependencies op d].

Lemma final_incl x : x ∈ al_final st → x ∈ final'.
Proof. unfold final'. rewrite elem_of_app. by left. Qed.

Lemma final_last : with_dependencies op d ∈ final'.
Proof. unfold final'. rewrite elem_of_app. right. by left. Qed.

Lemma at_rank_target o : at_rank o (in_rank o).
Proof. by exists Target. Qed.

(** A dependency of the new instruction, on its rank. *)
Lemma local_edge o : o ∈ don → in_id o ∈ d → at_rank o r → local_id final' r (in_id o) (in_id op).
Proof.
  intros Ho Hin Hat. destruct (final_elem o Ho) as (d' & Hf & _).
  exists (with_dependencies o d'), (with_dependencies op d).
  split; [by apply final_incl|]. split; [apply final_last|].
  split; [done|]. split; [done|]. split; [done|]. split; [exact Hat|].
  by exists Target.
Qed.

Lemma prior_readers p x :
  p ∈ don → in_output p = prior → in_rank p = r → x ∈ ordered → prior ∈ in_inputs x →
  in_id x = in_id op ∨ (x ∈ don ∧ local_id final' r (in_id x) (in_id op)).
Proof.
  intros Hp Hout Hr Hx Hin. destruct (decide (in_id x = in_id op)) as [|Hne]; [by left|right].
  assert (Hw : in_id x ∈ waited readers op prior).
  { assert (in_id x ∈ readers_of readers prior) by (apply Hreaders; eauto).
    unfold waited. case_decide; [|done]. apply elem_of_difference. by rewrite elem_of_singleton. }
  assert (Hxd : x ∈ don).
  { destruct (proj1 (list_elem_of_fmap _ _ _) (Hearly _ Hw)) as (y & E & Hy).
    by rewrite (NoDup_fmap_elem in_id ordered x y Hids Hx (don_ordered y Hy) E). }
  split; [done|]. apply local_edge; [done|by apply Hwait|].
  destruct (Hoperand x prior p) as [_ Hat]; [done..|by apply don_ordered|done|]. by rewrite Hr in Hat.
Qed.

Lemma prior_producer p :
  p ∈ don → in_output p = prior → in_rank p = r → dict_get (in_output p) direct = None →
  dict_get (in_output p) addresses = None → tc (local_id final' r) (in_id p) (in_id op).
Proof.
  intros Hp Hout Hr Hnd Hna.
  destruct (Hread p (don_ordered p Hp) Hnd Hna) as (x & Hx & Hin). rewrite Hout in Hin.
  destruct (Hoperand x prior p Hx Hin (don_ordered p Hp) Hout) as [Hdep Hat].
  assert (Hatp : at_rank p r) by (rewrite <- Hr; apply at_rank_target).
  destruct (prior_readers p x Hp Hout Hr Hx Hin) as [E|[Hxd Hedge]].
  - apply tc_once, local_edge; [done| |done]. apply Hd.
    by rewrite <- (NoDup_fmap_elem in_id ordered x op Hids Hx op_ordered E).
  - eapply tc_l; [|by apply tc_once]. destruct (final_elem x Hxd) as (dx & Hfx & Hsub).
    destruct (final_elem p Hp) as (dp & Hfp & _).
    exists (with_dependencies p dp), (with_dependencies x dx).
    split; [by apply final_incl|]. split; [by apply final_incl|].
    split; [done|]. split; [done|]. split; [by apply Hsub|]. split; [done|]. by rewrite <- Hr.
Qed.

(** Everything that used the slot comes before the new write. *)
Lemma reuse_drained q :
  q ∈ don → dict_get (in_output q) (al_addresses st) = Some (scratch_slot r k) →
  drained final' r (in_output q) op.
Proof.
  intros Hq Hqa. destruct (ac_slots _ _ Hst _ _ _ Hprior) as (p & Hp & Hout & Hpr & Hpa & Hold).
  assert (Hfree : dict_get (in_output p) direct = None ∧ dict_get (in_output p) addresses = None).
  { split.
    - destruct (dict_get _ direct) as [a|] eqn:E; [|done].
      rewrite <- Hout, (ac_direct _ _ Hst p a Hp E) in Hpa. injection Hpa as ->.
      by destruct (Hdirect _ _ E).
    - destruct (dict_get _ addresses) as [a|] eqn:E; [|done].
      rewrite <- Hout, (ac_fixed _ _ Hst p a Hp E) in Hpa. injection Hpa as ->.
      by destruct (Hfixed _ _ E). }
  destruct Hfree as [Hnd Hna]. pose proof (prior_producer p Hp Hout Hpr Hnd Hna) as Hprod.
  intros x Hx Hacc. destruct (decide (in_output q = prior)) as [E|Hne].
  - rewrite E in Hacc. destruct Hacc as [Ho|Hin].
    + right. rewrite (NoDup_fmap_elem in_output ordered x p Houts Hx (don_ordered p Hp)); [done|congruence].
    + destruct (prior_readers p x Hp Hout Hpr Hx Hin) as [?|[_ ?]]; [by left|right; by apply tc_once].
  - right. destruct (Hold q Hq Hne Hqa x Hx Hacc) as [->|Htc]; [done|].
    eapply tc_transitive; [|exact Hprod]. eapply local_id_mono; [|exact Htc]. apply final_incl.
Qed.
End reuse.

(** ** One instruction *)

Lemma scratch_free o r k :
  o ∈ don → dict_get (in_output o) (al_addresses st) = Some (scratch_slot r k) →
  dict_get (in_output o) direct = None ∧ dict_get (in_output o) addresses = None.
Proof.
  intros Ho Ha. split.
  - destruct (dict_get _ direct) as [a|] eqn:E; [|done].
    rewrite (ac_direct _ _ Hst o a Ho E) in Ha. injection Ha as ->. by destruct (Hdirect _ _ E).
  - destruct (dict_get _ addresses) as [a|] eqn:E; [|done].
    rewrite (ac_fixed _ _ Hst o a Ho E) in Ha. injection Ha as ->. by destruct (Hfixed _ _ E).
Qed.

Lemma scratch_bound o r k :
  o ∈ don → dict_get (in_output o) (al_addresses st) = Some (scratch_slot r k) →
  (k < length (default [] (al_slots st !! r)))%nat.
Proof.
  intros Ho Ha. destruct (scratch_free o r k Ho Ha) as [Hd Hn].
  destruct (ac_scratch _ _ Hst o Ho Hd Hn) as (k' & Ha' & Hk). rewrite Ha in Ha'.
  injection Ha' as -> E. by apply Nat2Z.inj in E as ->.
Qed.

Section extend.
Context (a : Address) (slots : gmap Z (list string)) (d : gset string).
Context (ancestors : gmap string (gset string)) (reuse : list Reuse).
Context (Hd : in_dependencies op ⊆ d) (Hdon : d ⊆ list_to_set (in_id <$> don)).
Context (Ha_direct : ∀ b, dict_get (in_output op) direct = Some b → a = b).
Context (Ha_fixed : ∀ b, dict_get (in_output op) addresses = Some b → a = b).
Context (Ha_scratch : dict_get (in_output op) direct = None → dict_get (in_output op) addresses = None →
  ∃ k, a = scratch_slot (in_rank op) k ∧ (k < length (default [] (slots !! in_rank op)))%nat).
Context (Hslots : ∀ r k id, default [] (slots !! r) !! k = Some id →
  (id = in_output op ∧ in_rank op = r ∧ a = scratch_slot r k) ∨
  (default [] (al_slots st !! r) !! k = Some id ∧ a ≠ scratch_slot r k)).
Context (Hlength : ∀ r, (length (default [] (al_slots st !! r)) ≤ length (default [] (slots !! r)))%nat).
Context (Hdrained : ∀ q r k, q ∈ don → a = scratch_slot r k →
  dict_get (in_output q) (al_addresses st) = Some a →
  drained (al_final st ++ [with_dependencies op d]) r (in_output q) op).

Let st' := MkAllocation (dict_set (in_output op) a (al_addresses st)) ancestors slots reuse
  (al_final st ++ [with_dependencies op d]).

Lemma new_address : dict_get (in_output op) (al_addresses st') = Some a.
Proof. unfold st'. simpl. by rewrite dict_get_set, decide_True. Qed.

Lemma old_address o : o ∈ don →
  dict_get (in_output o) (al_addresses st') = dict_get (in_output o) (al_addresses st).
Proof.
  intros Ho. unfold st'. simpl. rewrite dict_get_set, decide_False; [done|]. by apply output_ne.
Qed.

Lemma old_final x : x ∈ al_final st → x ∈ al_final st'.
Proof. unfold st'. simpl. rewrite elem_of_app. by left. Qed.

Lemma extend_allocated : allocated (don ++ [op]) st'.
Proof.
  assert (Hor : ∀ o, o ∈ don ++ [op] → o ∈ don ∨ o = op).
  { intros o. rewrite elem_of_app, list_elem_of_singleton. done. }
  split.
  - unfold st'. simpl. apply Forall2_app; [apply Hst|]. constructor; [|constructor]. by exists d.
  - unfold st'. simpl. apply follows_snoc; [apply Hst|]. by rewrite final_ids.
  - intros id Hid. rewrite fmap_app, elem_of_app in Hid. unfold st'. simpl.
    rewrite dict_get_set, decide_False.
    + apply (ac_outside _ _ Hst). tauto.
    + intros ->. apply Hid. right. by left.
  - intros o b [Ho| ->]%Hor Hb.
    + rewrite old_address by done. by apply (ac_direct _ _ Hst).
    + rewrite new_address. f_equal. by apply Ha_direct.
  - intros o b [Ho| ->]%Hor Hb.
    + rewrite old_address by done. by apply (ac_fixed _ _ Hst).
    + rewrite new_address. f_equal. by apply Ha_fixed.
  - intros o [Ho| ->]%Hor Hnd Hna.
    + rewrite old_address by done. destruct (ac_scratch _ _ Hst o Ho Hnd Hna) as (k & ? & ?).
      exists k. split; [done|]. eapply Nat.lt_le_trans; [done|apply Hlength].
    + rewrite new_address. destruct (Ha_scratch Hnd Hna) as (k & -> & ?). by exists k.
  - intros r k id Hid. apply Hslots in Hid as [(-> & Hr & Ha)|[Hid Hne]].
    + exists op. split; [rewrite elem_of_app; right; by left|]. split; [done|]. split; [done|].
      rewrite new_address. split; [by rewrite Ha|].
      intros q [Hq| ->]%Hor Hqo Hqa; [|done]. rewrite old_address in Hqa by done.
      apply (Hdrained q r k); [done|done|by rewrite Ha].
    + destruct (ac_slots _ _ Hst _ _ _ Hid) as (o & Ho & Hout & Hr & Hoa & Hold).
      exists o. split; [by rewrite elem_of_app; left|]. split; [done|]. split; [done|].
      rewrite <- Hout, old_address, Hout by done. split; [done|].
      intros q [Hq| ->]%Hor Hqo Hqa.
      * rewrite old_address in Hqa by done. eapply drained_mono; [apply old_final|]. by apply Hold.
      * rewrite new_address in Hqa. congruence.
  - intros p q r k Hpq Hp Hq.
    destruct (before_elem _ _ _ Hpq) as [Hpin Hqin].
    destruct (Hor q Hqin) as [Hqd| ->].
    + assert (Hpd : p ∈ don ∧ before don p q).
      { destruct Hpq as (i & j & Hij & Hi & Hj).
        assert (Hjl : (j < length don)%nat).
        { apply list_elem_of_lookup in Hqd as [j' Hj']. pose proof (lookup_lt_Some _ _ _ Hj').
          enough (j = j') as -> by done. apply (NoDup_lookup (in_id <$> ordered) j j' (in_id q) Hids).
          - rewrite list_lookup_fmap, Hsplit.
            replace (don ++ op :: rest) with ((don ++ [op]) ++ rest) by (by rewrite <- app_assoc).
            rewrite (lookup_app_l_Some _ _ _ _ Hj). done.
          - rewrite list_lookup_fmap, Hsplit, (lookup_app_l_Some _ _ _ _ Hj'). done. }
        rewrite lookup_app_l in Hi, Hj by lia.
        split; [by eapply list_elem_of_lookup_2|]. by exists i, j. }
      destruct Hpd as [Hpd Hpq']. rewrite old_address in Hp, Hq by done.
      eapply drained_mono; [apply old_final|]. by eapply (ac_hazards _ _ Hst).
    + assert (Hpd : p ∈ don).
      { destruct (Hor p Hpin) as [?| ->]; [done|]. exfalso. destruct Hpq as (i & j & Hij & Hi & Hj).
        assert (Hnd : NoDup (don ++ [op])).
        { pose proof (NoDup_fmap_1 _ _ Hids) as Hn. rewrite Hsplit in Hn.
          replace (don ++ op :: rest) with ((don ++ [op]) ++ rest) in Hn by (by rewrite <- app_assoc).
          by apply NoDup_app in Hn as [? _]. }
        pose proof (NoDup_lookup _ _ _ _ Hnd Hi Hj). lia. }
      rewrite new_address in Hq. injection Hq as Hq. rewrite old_address in Hp by done.
      by apply (Hdrained p r k); [|done|rewrite Hq].
Qed.
End extend.

Lemma set_slot_lookup pool index id k x :
  (0 ≤ index ≤ Z.of_nat (length pool)) → set_slot pool index id !! k = Some x →
  (x = id ∧ index = Z.of_nat k) ∨ (pool !! k = Some x ∧ index ≠ Z.of_nat k).
Proof.
  intros Hi. unfold set_slot. destruct (Z.eqb_spec index (Z.of_nat (length pool))) as [E|E].
  - intros [H|[Hl H]]%lookup_app_Some.
    + right. split; [done|]. apply lookup_lt_Some in H. lia.
    + apply list_lookup_singleton_Some in H as [H ->]. left. split; [done|lia].
  - intros [(H1 & -> & H2)|[H1 H2]]%list_lookup_insert_Some.
    + left. split; [done|]. lia.
    + right. split; [done|]. lia.
Qed.

Lemma set_slot_length pool index id :
  (0 ≤ index ≤ Z.of_nat (length pool)) →
  (length pool ≤ length (set_slot pool index id))%nat ∧
  (Z.to_nat index < length (set_slot pool index id))%nat.
Proof.
  intros Hi. unfold set_slot. destruct (Z.eqb_spec index (Z.of_nat (length pool))) as [E|E].
  - rewrite length_app. simpl. lia.
  - rewrite length_insert. lia.
Qed.

Lemma allocate_allocated st' :
  allocate capacity direct readers position st op = Ok st' → allocated (don ++ [op]) st'.
Proof.
  intros H. unfold allocate in H. apply bind_Ok in H as (upstream & _ & H).
  assert (Hsame : ∀ a, (∀ b, dict_get (in_output op) direct = Some b → a = b) →
    (∀ b, dict_get (in_output op) addresses = Some b → a = b) →
    (dict_get (in_output op) direct = Some a ∨ dict_get (in_output op) addresses = Some a) →
    ∀ anc reuse, allocated (don ++ [op]) (MkAllocation (dict_set (in_output op) a (al_addresses st))
      anc (al_slots st) reuse (al_final st ++ [with_dependencies op (in_dependencies op)]))).
  { intros a Hd Hn Hor anc reuse.
    assert (Hbuf : ad_buffer a ≠ "s"%string).
    { destruct Hor as [E|E]; [by destruct (Hdirect _ _ E)|exact (Hfixed _ _ E)]. }
    apply extend_allocated; try done.
    - apply dependencies_done.
    - intros E1 E2. destruct Hor; congruence.
    - intros r k id Hid. right. split; [done|]. by intros ->.
    - by intros q r k _ ->. }
  destruct (dict_get (in_output op) direct) as [target|] eqn:Ed.
  { cbn [mbind res_bind] in H. apply bind_Ok in H as (anc & _ & [= <-]).
    apply Hsame; [by intros b [= ->]| |by left].
    intros b Hb. destruct (Hdirect _ _ Ed). congruence. }
  assert (Eout : dict_get (in_output op) (al_addresses st) = dict_get (in_output op) addresses)
    by (apply (ac_outside _ _ Hst), new_output).
  destruct (dict_get (in_output op) (al_addresses st)) as [a|] eqn:Ea.
  { cbn [mbind res_bind] in H. apply bind_Ok in H as (anc & _ & [= <-]).
    symmetry in Eout. pose proof (Hsame a) as Hs.
    replace (dict_set (in_output op) a (al_addresses st)) with (al_addresses st) in Hs; [|].
    - apply Hs; [done|intros b Hb; congruence|by right].
    - symmetry. by apply dict_set_same. }
  apply bind_Ok in H as ([[[addr slots] deps] reuse] & Hfind & H).
  apply bind_Ok in Hfind as ([[index consumers] reuse'] & Hfind & Hval).
  injection Hval as <- <- <- <-. apply bind_Ok in H as (anc & _ & [= <-]).
  set (r := in_rank op). set (pool := default [] (al_slots st !! r)).
  fold r pool in Hfind |- *.
  pose proof (find_slot_Ok _ _ _ _ _ _ _ _ _ Hfind) as Hf.
  assert (Hindex : 0 ≤ index ≤ Z.of_nat (length pool)).
  { destruct Hf as [[-> _]|(k & prior & -> & Hk & _)]; [lia|].
    apply lookup_lt_Some in Hk. lia. }
  assert (Hcons : consumers ⊆ list_to_set (in_id <$> don)).
  { destruct Hf as [[_ ->]|(k & prior & _ & _ & _ & Hplace)]; [set_solver|].
    intros x Hx. destruct (Hplace x Hx) as (place & own & Hp & Ho & Hlt).
    apply elem_of_list_to_set. by eapply earlier_reader. }
  assert (Hrs : ∀ k, MkAddress r "s" index = scratch_slot r k ↔ index = Z.of_nat k).
  { intros k. unfold scratch_slot. split; [by intros [=]|by intros ->]. }
  destruct (set_slot_length pool index (in_output op) Hindex) as [Hlen Hidx].
  apply extend_allocated.
  - apply union_subseteq_l.
  - apply union_least; [apply dependencies_done|done].
  - intros b Hb. congruence.
  - intros b Hb. congruence.
  - intros _ _. exists (Z.to_nat index). split; [apply Hrs; lia|].
    fold r. rewrite lookup_insert_eq. exact Hidx.
  - intros r' k id Hid. destruct (decide (r' = r)) as [->|Hr'].
    + rewrite lookup_insert_eq in Hid. cbn [default] in Hid.
      apply set_slot_lookup in Hid as [[-> Hk]|[Hk Hne]]; [left|right| done].
      * split; [done|]. split; [done|]. by apply Hrs.
      * split; [done|]. by rewrite Hrs.
    + right. rewrite lookup_insert_ne in Hid by done. split; [done|]. by intros [= -> _].
  - intros r'. destruct (decide (r' = r)) as [->|Hr'].
    + rewrite lookup_insert_eq. exact Hlen.
    + by rewrite lookup_insert_ne.
  - intros q r' k Hq Ea' Hqa. assert (r' = r) as -> by (by injection Ea'). apply Hrs in Ea' as Ek.
    destruct Hf as [[Hi _]|(k' & prior & Hi & Hk & -> & Hplace)].
    + exfalso. rewrite Ea' in Hqa. pose proof (scratch_bound q r k Hq Hqa). fold pool in H. lia.
    + assert (k' = k) as -> by lia. rewrite Ea' in Hqa.
      apply (reuse_drained r k prior); try done.
      * apply union_subseteq_l.
      * apply union_subseteq_r.
      * intros x Hx. destruct (Hplace x Hx) as (place & own & Hp & Ho & Hlt).
        by eapply earlier_reader.
Qed.
End step.

Lemma allocated_all st :
  foldM (allocate capacity direct readers position) (MkAllocation addresses ∅ ∅ [] []) ordered = Ok st →
  allocated ordered st.
Proof.
  cut (∀ rest don s, ordered = don ++ rest → allocated don s →
    foldM (allocate capacity direct readers position) s rest = Ok st → allocated ordered st).
  { intros Hc. apply (Hc ordered []); [done|]. split; simpl.
    - constructor.
    - apply follows_nil.
    - done.
    - by intros op a ?%elem_of_nil.
    - by intros op a ?%elem_of_nil.
    - by intros op ?%elem_of_nil.
    - intros r k id. rewrite lookup_empty. simpl. by rewrite lookup_nil.
    - intros p q r k (i & j & _ & Hi & _). by rewrite lookup_nil in Hi. }
  induction rest as [|op rest IH]; intros don s E Hs H; cbn [foldM] in H.
  - injection H as <-. by rewrite E, app_nil_r.
  - apply bind_Ok in H as (s' & Hs' & H). apply (IH (don ++ [op]) s'); [by rewrite <- app_assoc| |done].
    by eapply allocate_allocated.
Qed.
End allocation.
