(* ===== verification/V5PlanSound.v ===== *)
(** * Soundness of storage plans

    The plan that [build_storage_plan] returns satisfies [plan_ok], so that every
    execution of it leaves the required value in every output slot. *)

From stdpp Require Import gmultiset.
From S2P Require Import Prelude.
From S2P Require Import Python.
From S2P Require Import Slice.
From S2P Require Import Collective.
From S2P Require Import InputModels.
From S2P Require Import Ranges.
From S2P Require Import Versions.
From S2P Require Import XmlModel.
From S2P Require Import Floats.
From S2P Require Import Topology.
From S2P Require Import V5Model.
From S2P Require Import V5Buffers.
From S2P Require Import V5Order.
From S2P Require Import V5Exec.
From S2P Require Import V5ExecLaws.
From S2P Require Import V5Planning.
From S2P Require Import V5Outputs.
From S2P Require Import V5StorageOrder.
From S2P Require Import V5Allocation.
Local Open Scope Z_scope.

(** ** The operations *)

Lemma network_order_Ok operations ops :
  _network_order operations = Ok ops →
  NoDup (no_id <$> ops) ∧ (∀ op, op ∈ ops → op ∈ operations).
Proof.
  unfold _network_order. intros H. apply bind_Ok in H as ([] & Hcheck%raise_when_Ok & H).
  apply orb_false_iff in Hcheck as [Hlen _]. apply negb_false_iff, Nat.eqb_eq in Hlen.
  assert (Hkeys : ((λ op, (no_id op, op)) <$> operations).*1 = no_id <$> operations)
    by (rewrite <- list_fmap_compose; done).
  assert (Hnd : NoDup (no_id <$> operations)).
  { rewrite <- Hkeys. apply dict_of_list_full_length. unfold operations_by_id in Hlen.
    by rewrite Hlen, length_fmap. }
  unfold operations_by_id in *. rewrite dict_of_list_nodup in * by (by rewrite Hkeys).
  apply bind_Ok in H as (precedence & Hprec & H). apply mapR_Ok in Hprec.
  assert (Hpk : precedence.*1 = no_id <$> operations).
  { clear -Hprec. induction Hprec as [|op p l l' Hp _ IH]; [done|]. csimpl. rewrite IH. f_equal.
    unfold reference_precedence in Hp. by apply bind_Ok in Hp as (refs & _ & [= <-]). }
  match type of H with _fixed_priority_order ?b ?p ?f ?m = _ =>
    pose proof (priority_order_cases b p f m) as Hc end.
  rewrite Hkeys, Hpk in Hc. specialize (Hc Hnd (Permutation_refl _)). rewrite H in Hc.
  destruct Hc as (keys & Hp & _ & _ & Hitems). rewrite Hkeys in Hp.
  assert (Hin : ∀ k op, dict_get k ((λ op, (no_id op, op)) <$> operations) = Some op →
    op ∈ operations ∧ k = no_id op).
  { intros k op (o & E & ?)%dict_get_Some_1%list_elem_of_fmap. by injection E as -> ->. }
  assert (Hids : no_id <$> ops = keys).
  { clear -Hitems Hin. induction Hitems as [|k op keys ops Hk _ IH]; [done|].
    apply Hin in Hk as [_ ->]. csimpl. by rewrite IH. }
  split; [by rewrite Hids, Hp|]. intros op Hop.
  destruct (Forall2_elem_r _ _ _ _ Hitems Hop) as (k & _ & Hk). by apply Hin in Hk as [? _].
Qed.

(** ** The table of the outputs *)

Lemma aggregate_inj a b P n :
  1 ≤ P → 0 ≤ a < n → 0 ≤ b < n →
  _aggregate_contributors a P n = _aggregate_contributors b P n → a = b.
Proof.
  intros HP Ha Hb E.
  assert (Hin : a ∈ _aggregate_contributors b P n).
  { rewrite <- E. apply elem_of_aggregate. exists 0. split; [lia|ring]. }
  apply elem_of_aggregate in Hin as (r & Hr & ->). assert (r = 0) as -> by nia. lia.
Qed.

(** A rank holds each value in one slot. *)
Lemma collective_value_inj spec P n r o o' c :
  valid_problem spec P n → collective_value spec P n r o = Some c →
  collective_value spec P n r o' = Some c → o = o'.
Proof.
  intros Hv. destruct (Hv) as [HP Hn _ _]. unfold collective_value.
  pose proof (quotient_facts spec P n Hv) as Hq.
  assert (Hone : ∀ x y : Z, ({[x]} : gset Z) = {[y]} → x = y) by (intros x y E; set_solver).
  destruct (cs_kind spec) eqn:K; repeat (case_match; [|done]); rewrite !within_Some;
    intros (? & ? & ->) (? & ? & E); simpl in Hq;
    try (specialize (Hq eq_refl) as [Hn' Hq1]).
  all: first [apply Hone in E; lia | apply aggregate_inj in E; [lia..|]; lia | idtac ].
  - apply Hone in E. set (q := n / P) in *. clearbody q.
    destruct (block_split P q o Hq1) as (H1o & H2o & H3o); [lia|].
    destruct (block_split P q o' Hq1) as (H1o' & H2o' & H3o'); [lia|].
    assert (Hb : 0 ≤ r * q + o `mod` q < n) by nia.
    assert (Hb' : 0 ≤ r * q + o' `mod` q < n) by nia.
    rewrite <- !Z.add_assoc in E.
    assert (Ed : o / q = o' / q).
    { rewrite <- (slice_div (o / q) (r * q + o `mod` q) n), E by done. by apply slice_div. }
    rewrite H3o, H3o'. lia.
  - apply aggregate_inj in E; [lia|done|nia|nia].
Qed.

(** ** Assembly *)

Lemma protected_ids context n size_ instrs addresses initial l l' :
  Forall2 (protected context n size_ instrs addresses initial) l l' →
  in_id <$> l' = in_id <$> l.
Proof. induction 1 as [|o op l l' (d & [-> _] & _) _ IH]; [done|]. csimpl. by rewrite IH. Qed.

Section assembly.
Context (context : LoweringContext) (n size_ : Z).
Let inputs := cx_inputs context.
Context (Hslices : slices inputs = Ok (n, size_)) (Hranks : 1 ≤ ri_rank_count inputs) (Hn : 1 ≤ n).
Context (Hsize : 1 ≤ size_).
Notation positions := (input_positions inputs n).
Context (Hpositions : ∀ p, p ∈ positions → 0 ≤ p.1 ∧ 0 ≤ p.2).

Context (ids : list string) (Hids : ∀ id, id ∈ ids → id ≠ EmptyString ∧ ∀ slot, id ≠ copy_id slot).
Context (items : list (OutputSlot * gset Z)) (acc : Outputs).
Context (Hslot : ∀ s c, (s, c) ∈ items → 0 ≤ slot_rank s ∧ 0 ≤ slot_offset s).
Context (Hout : outputs_ok context n size_ ids items acc).
Notation P := (ou_planning acc).
Notation instrs := (pl_instructions P).
Notation states := (pl_states P).

(** The instructions with the protection of the initial storage, in their order. *)
Context (instructions ordered : list Instruction) (position : list (string * Z)) (capacity : Z).
Context (Hprotected : Forall2 (protected context n size_ instrs (pl_addresses P)
                                 (initial_ids inputs n)) instrs instructions).
Context (Hordered : ordered ≡ₚ instructions) (Hfollows : follows ordered).
Context (Hposition : position =
  dict_of_list (zip (in_id <$> ordered) (seqZ 0 (Z.of_nat (length ordered))))).
Context (st : Allocation).
Context (Hst : foldM (allocate capacity (ou_direct acc) (reader_sets instrs) position)
                 (MkAllocation (pl_addresses P) ∅ ∅ [] []) ordered = Ok st).

Let Hplan : planning_ok inputs n P := oo_planning _ _ _ _ _ _ Hout.

(** An instruction of the order is a planned one with more dependencies. *)
Definition twin (o op : Instruction) : Prop :=
  o ∈ instrs ∧ protected context n size_ instrs (pl_addresses P) (initial_ids inputs n) o op.

Lemma ordered_twin op : op ∈ ordered → ∃ o, twin o op.
Proof.
  rewrite Hordered. intros Hop. destruct (Forall2_elem_r _ _ _ _ Hprotected Hop) as (o & ? & ?).
  by exists o.
Qed.

Lemma planned_twin o : o ∈ instrs → ∃ op, op ∈ ordered ∧ twin o op.
Proof.
  intros Ho. destruct (Forall2_elem_l _ _ _ _ Hprotected Ho) as (op & ? & ?).
  exists op. by rewrite Hordered.
Qed.

Lemma twin_fields o op : twin o op →
  in_id op = in_id o ∧ in_kind op = in_kind o ∧ in_inputs op = in_inputs o ∧
  in_output op = in_output o ∧ in_rank op = in_rank o ∧ in_peer op = in_peer o ∧
  in_dependencies o ⊆ in_dependencies op.
Proof. intros (_ & d & [-> ?] & _). done. Qed.

Lemma ordered_ids : NoDup (in_id <$> ordered).
Proof.
  rewrite Hordered.
  rewrite (protected_ids _ _ _ _ _ _ _ _ Hprotected). apply (pk_ids _ _ _ Hplan).
Qed.

Lemma ordered_names op : op ∈ ordered → in_output op = state_id (in_id op).
Proof.
  intros (o & Ho)%ordered_twin. destruct (twin_fields o op Ho) as (-> & _ & _ & -> & _).
  apply (pk_names _ _ _ Hplan), Ho.
Qed.

Lemma NoDup_outputs l :
  NoDup (in_id <$> l) → (∀ op, op ∈ l → in_output op = state_id (in_id op)) → NoDup (in_output <$> l).
Proof.
  intros Hnd Hnames. replace (in_output <$> l) with (state_id <$> (in_id <$> l)).
  - apply NoDup_fmap_2; [|done]. intros a b. apply state_id_inj.
  - rewrite <- list_fmap_compose. apply list_fmap_ext. intros i x Hx. symmetry. apply Hnames.
    by eapply list_elem_of_lookup_2.
Qed.

Lemma ordered_readers id y :
  y ∈ readers_of (reader_sets instrs) id ↔
    ∃ op, op ∈ ordered ∧ id ∈ in_inputs op ∧ in_id op = y.
Proof.
  rewrite elem_of_readers. split.
  - intros (o & Ho & Hin & <-). destruct (planned_twin o Ho) as (op & Hop & Ht).
    exists op. destruct (twin_fields o op Ht) as (-> & _ & -> & _). done.
  - intros (op & (o & Ht)%ordered_twin & Hin & <-).
    destruct (twin_fields o op Ht) as (Eid & _ & Ein & _). exists o. rewrite <- Ein.
    split; [apply Ht|]. done.
Qed.

Lemma position_index id place :
  dict_get id position = Some place ↔
    ∃ i op, ordered !! i = Some op ∧ in_id op = id ∧ place = Z.of_nat i.
Proof.
  assert (Hfst : (zip (in_id <$> ordered) (seqZ 0 (Z.of_nat (length ordered)))).*1 = in_id <$> ordered).
  { apply fst_zip. rewrite length_fmap, length_seqZ. lia. }
  rewrite Hposition, dict_of_list_nodup by (rewrite Hfst; apply ordered_ids). split.
  - intros Hg%dict_get_Some_1. apply list_elem_of_lookup in Hg as [i Hi].
    apply lookup_zip_with_Some in Hi as (x & y & E & Hx & Hy). injection E as <- <-.
    rewrite list_lookup_fmap in Hx. destruct (ordered !! i) as [op|] eqn:Eo; [|done].
    injection Hx as <-. apply lookup_seqZ in Hy as [-> _]. exists i, op. done.
  - intros (i & op & Hi & <- & ->). apply dict_get_Some_2; [rewrite Hfst; apply ordered_ids|].
    apply list_elem_of_lookup. exists i. apply lookup_zip_with_Some.
    exists (in_id op), (Z.of_nat i). split; [done|]. split; [by rewrite list_lookup_fmap, Hi|].
    apply lookup_seqZ. apply lookup_lt_Some in Hi. lia.
Qed.

(** The operands of a planned instruction. *)
Lemma planned_operand o key :
  o ∈ instrs → key ∈ in_inputs o → ∃ v, operand states o key (va_rank v) v ∧ at_rank o (va_rank v).
Proof.
  intros Ho Hkey. destruct (pk_instructions _ _ _ Hplan o Ho) as (_ & v & k0 & s & _ & _ & _ & H).
  case_decide as Hc.
  - destruct H as (E & Hop & _). rewrite E in Hkey. apply list_elem_of_singleton in Hkey as ->.
    exists s. destruct Hop as (? & Er & ?). rewrite Er. split; [by split_and!|]. by exists Target.
  - destruct H as (_ & _ & Hop & H). case_decide as Hr.
    + destruct H as (k1 & a & E & Ha & _). rewrite E in Hkey.
      apply elem_of_cons in Hkey as [->|Hkey]; [|apply list_elem_of_singleton in Hkey as ->].
      * exists s. destruct Hop as (? & Er & ?). rewrite Er. split; [by split_and!|]. by exists Source.
      * exists a. destruct Ha as (? & Er & ?). rewrite Er. split; [by split_and!|]. by exists Target.
    + destruct H as (_ & E & _). rewrite E in Hkey. apply list_elem_of_singleton in Hkey as ->.
      exists s. destruct Hop as (? & Er & ?). rewrite Er. split; [by split_and!|]. by exists Source.
Qed.

(** The state that a planned instruction produces. *)
Lemma planned_output o v :
  o ∈ instrs → dict_get (in_output o) states = Some v →
  va_rank v = in_rank o ∧ va_producer v = Some (in_id o).
Proof.
  intros Ho Hv. destruct (pk_instructions _ _ _ Hplan o Ho) as (_ & w & _ & _ & Hw & Hr & _).
  assert (w = v) as -> by congruence. split; [done|].
  destruct (pk_states _ _ _ Hplan _ _ Hv) as [Hid [(p & _ & ->)|(q & Hq & Eq & ->)]].
  - rewrite (pk_names _ _ _ Hplan o Ho) in Hid. by apply input_not_state in Hid.
  - rewrite (pk_names _ _ _ Hplan o Ho), (pk_names _ _ _ Hplan q Hq) in Eq.
    by apply state_id_inj in Eq as ->.
Qed.

Lemma ordered_operand op key p :
  op ∈ ordered → key ∈ in_inputs op → p ∈ ordered → in_output p = key →
  in_id p ∈ in_dependencies op ∧ at_rank op (in_rank p).
Proof.
  intros (o & Ht)%ordered_twin Hkey (q & Hq)%ordered_twin Hp.
  destruct (twin_fields o op Ht) as (_ & Ek & Ein & _ & Er & Ep & Hd).
  destruct (twin_fields q p Hq) as (-> & _ & _ & Eo & -> & _ & _).
  rewrite Ein in Hkey. destruct (planned_operand o key (proj1 Ht) Hkey) as (v & (Hv & _ & Hprod) & Hat).
  rewrite <- Hp, Eo in Hv. destruct (planned_output q v (proj1 Hq) Hv) as [<- Hpr].
  split; [by apply Hd, Hprod|]. destruct Hat as (e & He & Hr). exists e.
  destruct e; simpl in *; by rewrite ?Ek, ?Er, ?Ep.
Qed.

Lemma direct_fixed id a :
  dict_get id (ou_direct acc) = Some a →
  ad_buffer a ≠ "s"%string ∧ dict_get id (pl_addresses P) = None.
Proof.
  intros Ha. destruct (oo_direct _ _ _ _ _ _ Hout id a Ha) as
    (_ & slot & c & v & p & _ & -> & Hv & _ & _ & Hp & Hpid & _).
  split; [done|]. destruct (dict_get id (pl_addresses P)) as [b|] eqn:E; [|done]. exfalso.
  destruct (pk_states _ _ _ Hplan _ _ Hv) as [Hid [(q & _ & ->)|(q & Hq & Eq & Hpq)]]; [done|].
  apply (oo_addresses _ _ _ _ _ _ Hout) in E as [(r & _ & E & _)|(s & E & _ & _)].
  - rewrite <- Eq, (pk_names _ _ _ Hplan q Hq) in E. symmetry in E. by apply input_not_state in E.
  - rewrite <- Eq, (pk_names _ _ _ Hplan q Hq) in E. apply state_id_inj in E.
    destruct (Hids p Hpid) as [_ Hne]. apply (Hne s). congruence.
Qed.

Lemma fixed_buffer id a : dict_get id (pl_addresses P) = Some a → ad_buffer a ≠ "s"%string.
Proof. by intros [(p & _ & _ & ->)|(s & _ & -> & _)]%(oo_addresses _ _ _ _ _ _ Hout). Qed.

(** Every state is read or is an output. *)
Definition used (l : list Instruction) (outputs : list (OutputSlot * string)) : Prop :=
  ∀ op, op ∈ l → (∃ r, r ∈ l ∧ in_output op ∈ in_inputs r) ∨
    ∃ slot, dict_get slot outputs = Some (in_output op).

Context (Hused : used (al_final st) (ou_outputs acc)).

Lemma final_twins : Forall2 (λ op f, ∃ d, f = with_dependencies op d) ordered (al_final st).
Proof. destruct (allocate_all_final _ _ _ _ _ _ _ Hst) as (l & -> & Hl). exact Hl. Qed.

Lemma scratch_read op :
  op ∈ ordered → dict_get (in_output op) (ou_direct acc) = None →
  dict_get (in_output op) (pl_addresses P) = None →
  ∃ r, r ∈ ordered ∧ in_output op ∈ in_inputs r.
Proof.
  intros Hop Hnd Hna. destruct (Forall2_elem_l _ _ _ _ final_twins Hop) as (f & Hf & d & ->).
  destruct (Hused _ Hf) as [(r & Hr & Hin)|(slot & Hs)]; simpl in *.
  - destruct (Forall2_elem_r _ _ _ _ final_twins Hr) as (o & Ho & d' & ->). by exists o.
  - exfalso. destruct (oo_bound _ _ _ _ _ _ Hout _ _ Hs) as (c & Hin).
    destruct (oo_outputs _ _ _ _ _ _ Hout _ _ Hin) as (id & v & Hid & _ & _ & _ & Hp).
    assert (id = in_output op) as -> by congruence.
    destruct Hp as [(p & _ & E & _)|[E|[E Hc]]]; [|congruence|].
    + rewrite (ordered_names op Hop) in E. symmetry in E. by apply input_not_state in E.
    + assert (Ha : dict_get (in_output op) (pl_addresses P) = Some (slot_address slot)).
      { apply (oo_addresses _ _ _ _ _ _ Hout). right. by exists slot. }
      congruence.
Qed.

Lemma storage_allocated :
  allocated (ou_direct acc) (pl_addresses P) ordered ordered st.
Proof.
  eapply (allocated_all capacity _ (reader_sets instrs) position); [apply ordered_ids| | | | | | | | |exact Hst].
  - apply NoDup_outputs; [apply ordered_ids|apply ordered_names].
  - exact Hfollows.
  - exact ordered_readers.
  - exact position_index.
  - exact ordered_operand.
  - exact direct_fixed.
  - exact fixed_buffer.
  - exact scratch_read.
Qed.

(** ** Storage of the states *)

Notation addresses := (al_addresses st).

Lemma address_outside id :
  (∀ op, op ∈ ordered → in_output op ≠ id) → dict_get id addresses = dict_get id (pl_addresses P).
Proof.
  intros Hne. apply (ac_outside _ _ _ _ _ storage_allocated).
  intros (op & E & Hop)%list_elem_of_fmap. by destruct (Hne op Hop).
Qed.

Lemma initial_address p :
  p ∈ positions → dict_get (input_id p.1 p.2) addresses = Some (MkAddress p.1 "i" p.2).
Proof.
  intros Hp. rewrite address_outside.
  - apply (oo_addresses _ _ _ _ _ _ Hout). left. by exists p.
  - intros op Hop E. rewrite (ordered_names op Hop) in E. symmetry in E. by apply input_not_state in E.
Qed.

(** Where an instruction writes: scratch storage of its rank, or an output slot
    that is bound to its result. *)
Definition written_to (o : Instruction) (a : Address) : Prop :=
  (∃ k, a = scratch_slot (in_rank o) k) ∨
  ∃ slot c, (slot, c) ∈ items ∧ a = slot_address slot ∧ slot_rank slot = in_rank o ∧
    dict_get slot (ou_outputs acc) = Some (in_output o) ∧
    (cs_inplace (ri_collective inputs) = false ∨ in_kind o = "copy"%string).

Lemma output_address o :
  o ∈ instrs → ∃ a, dict_get (in_output o) addresses = Some a ∧ written_to o a.
Proof.
  intros Ho. destruct (planned_twin o Ho) as (op & Hop & Ht).
  destruct (twin_fields o op Ht) as (Eid & Ek & _ & Eo & Er & _).
  destruct (dict_get (in_output o) (ou_direct acc)) as [a|] eqn:Ed.
  { exists a. rewrite <- Eo in *. split; [by apply (ac_direct _ _ _ _ _ storage_allocated op)|].
    right. destruct (oo_direct _ _ _ _ _ _ Hout _ _ Ed) as
      (Hin & slot & c & v & p & Hs & -> & Hv & Hr & _ & _ & _ & Hb).
    exists slot, c. rewrite Eo in *. destruct (planned_output o v Ho Hv) as [Hvr _].
    split_and!; [done|done|congruence|done|by left]. }
  destruct (dict_get (in_output o) (pl_addresses P)) as [a|] eqn:Ea.
  { exists a. rewrite <- Eo in *. split; [by apply (ac_fixed _ _ _ _ _ storage_allocated op)|].
    right. apply (oo_addresses _ _ _ _ _ _ Hout) in Ea as [(p & _ & E & _)|(slot & E & -> & _)].
    - rewrite (ordered_names op Hop) in E. symmetry in E. by apply input_not_state in E.
    - rewrite (ordered_names op Hop), Eid in E. apply state_id_inj in E.
      pose proof (oo_kinds _ _ _ _ _ _ Hout o Ho) as Hk. case_decide as Hc.
      + destruct Hk as (s & c & Hs & E' & Hr & Hb). rewrite E in E'. apply copy_id_inj in E' as <-.
        exists slot, c. split_and!; [done|done|done| |by right].
        by rewrite Hb, <- Eo, (ordered_names op Hop), Eid, E.
      + destruct (Hids _ Hk) as [_ Hne]. by destruct (Hne slot). }
  rewrite <- Eo in *.
  destruct (ac_scratch _ _ _ _ _ storage_allocated op Hop Ed Ea) as (k & Hk & _).
  exists (scratch_slot (in_rank op) k). split; [done|]. left. exists k. by rewrite Er.
Qed.

Lemma written_rank o a : written_to o a → ad_rank a = in_rank o.
Proof. by intros [(k & ->)|(slot & c & _ & -> & E & _)]. Qed.

Lemma written_bounds o a : o ∈ instrs → written_to o a → 0 ≤ ad_rank a ∧ 0 ≤ ad_offset a.
Proof.
  intros Ho Hw. split.
  - rewrite (written_rank o a Hw). by destruct (pk_instructions _ _ _ Hplan o Ho).
  - destruct Hw as [(k & ->)|(slot & c & Hs & -> & _)]; simpl; [lia|]. by apply (Hslot slot c).
Qed.

Lemma state_address key v :
  dict_get key states = Some v →
  ∃ a, dict_get key addresses = Some a ∧ ad_rank a = va_rank v ∧ 0 ≤ ad_rank a ∧ 0 ≤ ad_offset a ∧
    ((∃ p, p ∈ positions ∧ key = input_id p.1 p.2 ∧ a = MkAddress p.1 "i" p.2) ∨
     ∃ o, o ∈ instrs ∧ in_output o = key ∧ written_to o a).
Proof.
  intros Hv. destruct (pk_states _ _ _ Hplan _ _ Hv) as [Hid [(p & Hp & ->)|(o & Ho & <- & _)]].
  - simpl in Hid. subst key. exists (MkAddress p.1 "i" p.2). destruct (Hpositions p Hp).
    split; [by apply initial_address|]. split_and!; try done. left. by exists p.
  - destruct (output_address o Ho) as (a & Ha & Hw). exists a. split; [done|].
    destruct (planned_output o v Ho Hv) as [-> _].
    destruct (written_bounds o a Ho Hw). split_and!; [by apply written_rank|done|done|].
    right. by exists o.
Qed.

(** ** The plan *)

Context (plan : StoragePlan).
Context (Evalues : sp_values plan = states) (Einitial : sp_initial_ids plan = initial_ids inputs n).
Context (Einstrs : sp_instructions plan = al_final st) (Eaddresses : sp_addresses plan = addresses).

Notation cell := (cell_spec inputs n size_).

Lemma cell_of_address key a :
  dict_get key addresses = Some a → 0 ≤ ad_rank a → 0 ≤ ad_offset a →
  cell_of inputs plan key = Some (cell a).
Proof.
  intros Ha Hr Ho. unfold cell_of. rewrite Eaddresses, Ha. simpl.
  apply address_cell_total; try done; lia.
Qed.

Lemma cell_of_Some key c :
  cell_of inputs plan key = Some c → ∃ a, dict_get key addresses = Some a ∧ c = cell a.
Proof.
  unfold cell_of. rewrite Eaddresses. intros H. destruct (dict_get key addresses) as [a|]; [|done].
  exists a. split; [done|]. simpl in H. by apply (address_cell_spec inputs n size_ Hslices Hranks) in H.
Qed.

Lemma elem_of_initial key : key ∈ sp_initial_ids plan ↔ ∃ p, p ∈ positions ∧ key = input_id p.1 p.2.
Proof.
  rewrite Einitial. unfold initial_ids. rewrite list_elem_of_fmap. split.
  - intros ([r l] & -> & ?). by exists (r, l).
  - intros ([r l] & ? & ->). by exists (r, l).
Qed.

(** An instruction of the plan is a planned one with more dependencies. *)
Lemma final_planned f :
  f ∈ al_final st → ∃ o op, o ∈ instrs ∧ op ∈ ordered ∧ twin o op ∧ in_id f = in_id o ∧
    in_kind f = in_kind o ∧ in_inputs f = in_inputs o ∧ in_output f = in_output o ∧
    in_rank f = in_rank o ∧ in_peer f = in_peer o ∧ in_dependencies op ⊆ in_dependencies f.
Proof.
  intros Hf. destruct (Forall2_elem_r _ _ _ _ (ac_final _ _ _ _ _ storage_allocated) Hf)
    as (op & Hop & d & -> & Hd).
  destruct (ordered_twin op Hop) as (o & Ht). destruct (twin_fields o op Ht) as (E1 & E2 & E3 & E4 & E5 & E6 & _).
  exists o, op. split; [apply Ht|]. split_and!; try done.
Qed.

Lemma planned_final o :
  o ∈ instrs → ∃ f, f ∈ al_final st ∧ in_id f = in_id o ∧ in_output f = in_output o.
Proof.
  intros Ho. destruct (planned_twin o Ho) as (op & Hop & Ht).
  destruct (twin_fields o op Ht) as (E1 & _ & _ & E2 & _).
  destruct (Forall2_elem_l _ _ _ _ (ac_final _ _ _ _ _ storage_allocated) Hop) as (f & Hf & d & -> & _).
  by exists (with_dependencies op d).
Qed.

Lemma final_nodup : NoDup (in_id <$> al_final st).
Proof.
  rewrite (grown_ids _ _ (ac_final _ _ _ _ _ storage_allocated)). apply ordered_ids.
Qed.

Lemma final_names f : f ∈ al_final st → in_output f = state_id (in_id f).
Proof.
  intros (o & op & Ho & _ & _ & -> & _ & _ & -> & _)%final_planned. by apply (pk_names _ _ _ Hplan).
Qed.

Lemma final_operand f key v :
  f ∈ al_final st → key ∈ in_inputs f → dict_get key states = Some v →
  at_rank f (va_rank v) ∧ ∀ p, va_producer v = Some p → p ∈ in_dependencies f.
Proof.
  intros (o & op & Ho & _ & Ht & _ & Ek & Ein & _ & Er & Ep & Hd)%final_planned Hkey Hv.
  rewrite Ein in Hkey. destruct (planned_operand o key Ho Hkey) as (w & (Hw & _ & Hprod) & Hat).
  assert (w = v) as -> by congruence. split.
  - destruct Hat as (e & He & Hr). exists e. destruct e; simpl in *; by rewrite ?Ek, ?Er, ?Ep.
  - intros p Hp. apply Hd. destruct (twin_fields o op Ht) as (_ & _ & _ & _ & _ & _ & Hsub).
    by apply Hsub, Hprod.
Qed.

Lemma final_input f key :
  f ∈ al_final st → key ∈ in_inputs f → ∃ v, dict_get key states = Some v.
Proof.
  intros (o & op & Ho & _ & _ & _ & _ & Ein & _)%final_planned Hkey. rewrite Ein in Hkey.
  destruct (planned_operand o key Ho Hkey) as (w & (Hw & _) & _). by exists w.
Qed.

Lemma state_cell key v :
  dict_get key states = Some v → ∃ c, cell_of inputs plan key = Some c ∧ c.1.1 = va_rank v.
Proof.
  intros Hv. destruct (state_address key v Hv) as (a & Ha & Hr & H0 & H1 & _).
  exists (cell a). split; [by apply cell_of_address|]. by rewrite cell_spec_rank.
Qed.

Lemma contributors_state key v :
  dict_get key states = Some v → contributors_of plan key = va_contributors v.
Proof. intros Hv. unfold contributors_of. by rewrite Evalues, Hv. Qed.

Lemma plan_computes f : f ∈ al_final st → computes inputs plan f.
Proof.
  intros (o & op & Ho & _ & _ & _ & Ek & Ein & Eo & Er & Ep & _)%final_planned.
  destruct (pk_instructions _ _ _ Hplan o Ho) as (_ & v & key & s & Hv & Hvr & Hkey & H).
  destruct (state_cell _ _ Hv) as (c & Hc & Hcr).
  unfold computes. rewrite Ek, Ein, Eo, Er, Ep.
  assert (Hs : ∃ rank, operand states o key rank s).
  { case_decide; [exists (in_rank o); tauto|exists (in_peer o); tauto]. }
  destruct Hs as (rank & Hs). destruct (state_cell key s (proj1 Hs)) as (c0 & Hc0 & Hc0r).
  exists c0, key, c. split; [done|]. split; [done|]. split; [done|]. split; [congruence|].
  rewrite (contributors_state _ _ Hv), (contributors_state _ _ (proj1 Hs)).
  case_decide as Hcopy.
  - destruct H as (? & (_ & ? & _) & ?). split_and!; [done|congruence|done].
  - destruct H as (_ & ? & (_ & ? & _) & H). split; [congruence|]. split; [done|].
    case_decide as Hrrc; [|done]. destruct H as (acc' & a & ? & (Ha & Har & _) & ? & ?).
    destruct (state_cell acc' a Ha) as (c1 & Hc1 & Hc1r). exists acc', c1.
    rewrite (contributors_state _ _ Ha). split_and!; [done|done|congruence|done|done].
Qed.

Lemma plan_available f key :
  f ∈ al_final st → key ∈ in_inputs f →
  key ∈ sp_initial_ids plan ∨
  ∃ p, p ∈ al_final st ∧ in_output p = key ∧ in_id p ∈ in_dependencies f.
Proof.
  intros Hf Hkey. destruct (final_input f key Hf Hkey) as (v & Hv).
  destruct (final_operand f key v Hf Hkey Hv) as [_ Hprod].
  destruct (pk_states _ _ _ Hplan _ _ Hv) as [Hid [(p & Hp & ->)|(o & Ho & <- & Hpr)]].
  - left. apply elem_of_initial. exists p. by rewrite <- Hid.
  - right. destruct (planned_final o Ho) as (p & Hp & Eid & Eo). exists p.
    split; [done|]. split; [done|]. rewrite Eid. by apply Hprod.
Qed.

(** ** Storage is overwritten in order *)

Lemma local_id_tc rank x y :
  x ∈ al_final st → y ∈ al_final st → tc (local_id (al_final st) rank) (in_id x) (in_id y) →
  tc (local_dependency plan rank) x y.
Proof.
  intros Hx Hy Htc.
  assert (Heq : ∀ a b, a ∈ al_final st → b ∈ al_final st → in_id a = in_id b → a = b)
    by (intros a b ???; by apply (NoDup_fmap_elem in_id (al_final st)); [apply final_nodup|..]).
  remember (in_id x) as ix eqn:Ex. remember (in_id y) as iy eqn:Ey.
  revert x Hx Ex. induction Htc as [ix iy Hl|ix iz iy Hl _ IH]; intros x Hx Ex;
    destruct Hl as (p & q & Hp & Hq & Epx & Eqy & Hd & Hap & Haq).
  - apply tc_once. rewrite (Heq x p), (Heq y q) by (done || congruence).
    unfold local_dependency. rewrite Einstrs. split_and!; try done. by rewrite Epx.
  - apply tc_l with q; [|by apply IH].
    rewrite (Heq x p) by (done || congruence).
    unfold local_dependency. rewrite Einstrs. split_and!; try done. by rewrite Epx.
Qed.

(** The output slot that an instruction writes. *)
Lemma slot_writer o o' a a' :
  o ∈ instrs → o' ∈ instrs → written_to o a → written_to o' a' →
  ad_buffer a ≠ "s"%string → ad_buffer a' ≠ "s"%string → cell a = cell a' →
  in_output o = in_output o'.
Proof.
  intros Ho Ho' [(k & ->)|(s & c & _ & -> & _ & Hs & _)] [(k' & ->)|(s' & c' & _ & -> & _ & Hs' & _)];
    try done. intros _ _ E.
  assert (Er : slot_rank s = slot_rank s').
  { apply (f_equal (λ c : Cell, c.1.1)) in E. by rewrite !cell_spec_rank in E. }
  assert (Eo : slot_offset s = slot_offset s').
  { apply (cell_spec_inj inputs n size_ (slot_rank s) "o"); [done|].
    unfold slot_address in E. rewrite Er in E |- *. exact E. }
  destruct s, s'. simpl in *. subst. congruence.
Qed.

Lemma scratch_hazard p q r k (c : Cell) :
  p ∈ al_final st → q ∈ al_final st → before (al_final st) p q →
  dict_get (in_output p) addresses = Some (scratch_slot r k) →
  dict_get (in_output q) addresses = Some (scratch_slot r k) → c.1.1 = r →
  ∀ x, x ∈ al_final st → accesses x (in_output p) → x = q ∨ tc (local_dependency plan c.1.1) x q.
Proof.
  intros Hp Hq (i & j & Hij & Hi & Hj) Hpa Hqa Hc x Hx Hacc.
  pose proof (ac_final _ _ _ _ _ storage_allocated) as Htw.
  destruct (Forall2_lookup_r _ _ _ _ _ Htw Hi) as (p0 & Hi0 & dp & -> & _).
  destruct (Forall2_lookup_r _ _ _ _ _ Htw Hj) as (q0 & Hj0 & dq & -> & _).
  destruct (Forall2_elem_r _ _ _ _ Htw Hx) as (x0 & Hx0 & dx & -> & _).
  destruct (ac_hazards _ _ _ _ _ storage_allocated p0 q0 r k) with (r := x0) as [E|Htc]; try done.
  - by exists i, j.
  - left. apply (NoDup_fmap_elem in_id (al_final st)); [apply final_nodup|done..].
  - right. rewrite Hc. by apply local_id_tc.
Qed.

Lemma plan_hazards u q r (c : Cell) :
  later plan u q → in_output q ≠ u → cell_of inputs plan u = Some c →
  cell_of inputs plan (in_output q) = Some c → r ∈ al_final st → accesses r u →
  r = q ∨ tc (local_dependency plan c.1.1) r q.
Proof.
  unfold later. rewrite Einstrs. intros [Hq Hu] Hne Hcu Hcq Hr Hacc.
  destruct (cell_of_Some _ _ Hcu) as (au & Hau & Eu). destruct (cell_of_Some _ _ Hcq) as (aq & Haq & Eq).
  destruct (final_planned q Hq) as (qo & qop & Hqo & Hqop & Hqt & Eqid & Eqk & _ & Eqo & Eqr & _ & Hqd).
  destruct (output_address qo Hqo) as (aq' & Haq' & Hwq). rewrite <- Eqo, Haq in Haq'. injection Haq' as <-.
  assert (Hce : cell au = cell aq) by congruence.
  destruct Hu as [Hu|(p & Hp & Hpq)].
  - (* an initial state: [q] is a copy that waits for its readers *)
    apply elem_of_initial in Hu as (pos & Hpos & ->).
    rewrite (initial_address pos Hpos) in Hau. injection Hau as <-.
    destruct Hwq as [(k & ->)|(slot & cs & Hs & -> & Hsr & Hb & Hkind)].
    { apply cell_spec_scratch in Hce. simpl in Hce. destruct Hce as [_ Hx]. discriminate (Hx eq_refl). }
    assert (Hcopy : in_kind qo = "copy"%string).
    { destruct Hkind as [Hin|?]; [|done]. unfold cell_spec in Hce. simpl in Hce.
      fold inputs in Hce. rewrite Hin in Hce. done. }
    destruct Hacc as [Ho|Hin].
    { rewrite (final_names r Hr) in Ho. symmetry in Ho. by apply input_not_state in Ho. }
    destruct (decide (in_id r = in_id q)) as [E|Hnid].
    { left. apply (NoDup_fmap_elem in_id (al_final st)); [apply final_nodup|done..]. }
    right. apply tc_once. unfold local_dependency. rewrite Einstrs.
    destruct (final_operand r _ _ Hr Hin (pk_initial _ _ _ Hplan pos Hpos)) as [Hat _]. simpl in Hat.
    assert (Ecr : c.1.1 = pos.1) by (by rewrite Eu, cell_spec_rank).
    split_and!; [done|done| |by rewrite Ecr|].
    + pose proof Hqt as [_ (d & [Ed _] & Hprot)]. apply Hqd. rewrite Ed. simpl.
      destruct (final_planned r Hr) as (ro & rop & Hro & _ & _ & Erid & _ & Erin & _).
      rewrite Erid. rewrite Eqid, Erid in Hnid.
      assert (Hfix : dict_get (in_output qo) (pl_addresses P) = Some (slot_address slot)).
      { pose proof (oo_kinds _ _ _ _ _ _ Hout qo Hqo) as Hk. rewrite decide_True in Hk by done.
        destruct Hk as (s' & c' & Hs' & Eid' & Hr' & Hb').
        assert (Eo' : in_output qo = state_id (copy_id s')) by (by rewrite (pk_names _ _ _ Hplan qo Hqo), Eid').
        assert (Hfix : dict_get (in_output qo) (pl_addresses P) = Some (slot_address s')).
        { apply (oo_addresses _ _ _ _ _ _ Hout). right. exists s'. split; [done|]. split; [done|].
          rewrite <- Eid'. by apply list_elem_of_fmap_2. }
        rewrite Hfix. f_equal.
        pose proof (ac_fixed _ _ _ _ _ storage_allocated qop (slot_address s') Hqop) as Hf.
        destruct (twin_fields qo qop Hqt) as (_ & _ & _ & Eqo' & _).
        rewrite Eqo' in Hf. specialize (Hf Hfix). rewrite <- Eqo in Hf. congruence. }
      eapply (Hprot Hcopy (input_id pos.1 pos.2) (MkAddress pos.1 "i" pos.2) (slot_address slot) ro);
        try done.
      * rewrite <- Einitial. apply elem_of_initial. by exists pos.
      * apply (oo_addresses _ _ _ _ _ _ Hout). left. by exists pos.
      * by rewrite <- Erin.
    + exists Target. split; [done|]. simpl. rewrite Eqr, Eq, cell_spec_rank. simpl. by rewrite Hsr.
  - (* a state that an earlier instruction produced *)
    destruct (before_elem _ _ _ Hpq) as [Hpin _]. subst u.
    destruct (final_planned p Hpin) as (po & pop & Hpo & _ & _ & _ & _ & _ & Epo & Epr & _).
    destruct (output_address po Hpo) as (ap' & Hap' & Hwp). rewrite <- Epo, Hau in Hap'. injection Hap' as <-.
    destruct (decide (ad_buffer aq = "s"%string)) as [Hsq|Hsq].
    + assert (Hsu : ad_buffer au = "s"%string) by (by apply (cell_spec_scratch inputs n size_ au aq)).
      destruct Hwq as [(k & ->)|(? & ? & _ & -> & _)]; [|done].
      destruct Hwp as [(k' & ->)|(? & ? & _ & -> & _)]; [|done].
      assert (Er : in_rank po = in_rank qo).
      { apply (f_equal (λ c : Cell, c.1.1)) in Hce. by rewrite !cell_spec_rank in Hce. }
      rewrite Er in *.
      assert (Ekk : Z.of_nat k' = Z.of_nat k) by (by apply (cell_spec_inj inputs n size_ (in_rank qo) "s")).
      apply Nat2Z.inj in Ekk as ->.
      apply (scratch_hazard p q (in_rank qo) k c Hpin Hq Hpq Hau Haq); [|done|done].
      by rewrite Eq, cell_spec_rank.
    + exfalso. apply Hne. rewrite Eqo, Epo.
      apply (slot_writer qo po aq au); try done.
      intros Hsu. apply Hsq. by apply (cell_spec_scratch inputs n size_ au aq).
Qed.

Lemma plan_is_ok : plan_ok inputs plan.
Proof.
  split; rewrite ?Einstrs.
  - apply final_nodup.
  - apply NoDup_outputs; [apply final_nodup|apply final_names].
  - intros op Hop (p & _ & E)%elem_of_initial. rewrite (final_names op Hop) in E.
    symmetry in E. by apply input_not_state in E.
  - intros u v c (p & Hp & ->)%elem_of_initial (q & Hq & ->)%elem_of_initial Hu Hv.
    apply cell_of_Some in Hu as (a & Ha & ->). apply cell_of_Some in Hv as (b & Hb & E).
    rewrite (initial_address p Hp) in Ha. rewrite (initial_address q Hq) in Hb.
    injection Ha as <-. injection Hb as <-.
    assert (Er : p.1 = q.1).
    { apply (f_equal (λ c : Cell, c.1.1)) in E. by rewrite !cell_spec_rank in E. }
    rewrite Er in E |- *. by rewrite (cell_spec_inj inputs n size_ q.1 "i" p.2 q.2).
  - apply (ac_follows _ _ _ _ _ storage_allocated).
  - apply plan_computes.
  - apply plan_available.
  - apply plan_hazards.
Qed.

(** The state of an output slot, which nothing else overwrites. *)
Lemma slot_state slot c :
  (slot, c) ∈ items → ∃ id, cell_of inputs plan id = Some (cell (slot_address slot)) ∧
    contributors_of plan id = c ∧
    (id ∈ sp_initial_ids plan ∨ id ∈ in_output <$> sp_instructions plan) ∧
    ∀ q, q ∈ sp_instructions plan →
      cell_of inputs plan (in_output q) = Some (cell (slot_address slot)) → in_output q = id.
Proof.
  intros Hs. destruct (Hslot slot c Hs) as [Hr Ho].
  destruct (oo_outputs _ _ _ _ _ _ Hout slot c Hs) as (id & v & Hid & Hv & Hc & _ & Hp).
  exists id. rewrite (contributors_state _ _ Hv). split; [|split; [done|split]].
  - destruct Hp as [(p & Hp & -> & E)|Hp].
    { transitivity (Some (cell (MkAddress p.1 "i" p.2))); [|by f_equal].
      destruct (Hpositions p Hp). apply cell_of_address; [by apply initial_address|done..]. }
    assert (Hop : ∃ op, op ∈ ordered ∧ in_output op = id).
    { destruct Hp as [Hp|[-> (o & E & Hin)%list_elem_of_fmap]].
      - destruct (oo_direct _ _ _ _ _ _ Hout _ _ Hp) as (_ & s & c' & w & pr & _ & _ & Hw & _ & _ & Hpr & _).
        destruct (pk_states _ _ _ Hplan _ _ Hw) as [_ [(q & _ & ->)|(o & Hin & Eo & _)]]; [done|].
        destruct (planned_twin o Hin) as (op & Hop & Ht).
        destruct (twin_fields o op Ht) as (_ & _ & _ & E & _). exists op. by rewrite E.
      - destruct (planned_twin o Hin) as (op & Hop & Ht).
        destruct (twin_fields o op Ht) as (Ei & _ & _ & _). exists op. split; [done|].
        by rewrite (ordered_names op Hop), Ei, <- E. }
    destruct Hop as (op & Hop & Eo). apply cell_of_address; [|done..]. rewrite <- Eo in Hp |- *.
    destruct Hp as [Hp|[Hp Hin]].
    + by apply (ac_direct _ _ _ _ _ storage_allocated op).
    + apply (ac_fixed _ _ _ _ _ storage_allocated op); [done|].
      apply (oo_addresses _ _ _ _ _ _ Hout). right. exists slot. done.
  - destruct (pk_states _ _ _ Hplan _ _ Hv) as [Hid' [(q & Hq & ->)|(o & Hin & <- & _)]].
    + left. apply elem_of_initial. exists q. by rewrite <- Hid'.
    + right. rewrite Einstrs. destruct (planned_final o Hin) as (f & Hf & _ & <-).
      by apply list_elem_of_fmap_2.
  - rewrite Einstrs. intros q Hq Hcq. destruct (cell_of_Some _ _ Hcq) as (a & Ha & E).
    destruct (final_planned q Hq) as (o & op & Hin & _ & _ & _ & _ & _ & Eo & _).
    destruct (output_address o Hin) as (a' & Ha' & Hw). rewrite <- Eo, Ha in Ha'. injection Ha' as <-.
    destruct Hw as [(k & ->)|(s & c' & _ & -> & _ & Hb & _)].
    + apply cell_spec_scratch in E. destruct E as [_ E]. discriminate (E eq_refl).
    + assert (Er : slot_rank slot = slot_rank s).
      { apply (f_equal (λ c : Cell, c.1.1)) in E. by rewrite !cell_spec_rank in E. }
      assert (Eof : slot_offset slot = slot_offset s).
      { apply (cell_spec_inj inputs n size_ (slot_rank slot) "o"); [done|].
        unfold slot_address in E. rewrite <- Er in E. exact E. }
      destruct slot, s. simpl in *. subst. congruence.
Qed.

(** The state of an input position. *)
Lemma initial_state p :
  p ∈ positions → cell_of inputs plan (input_id p.1 p.2) = Some (cell (MkAddress p.1 "i" p.2)) ∧
    contributors_of plan (input_id p.1 p.2) = {[ p.1 * n + p.2 ]}.
Proof.
  intros Hp. destruct (Hpositions p Hp). split.
  - apply cell_of_address; [by apply initial_address|done..].
  - by rewrite (contributors_state _ _ (pk_initial _ _ _ Hplan p Hp)).
Qed.
End assembly.

(** ** The theorem *)

(** Identities that do not clash with those of the final copies. *)
Definition plain_identities (operations : list NetworkOperation) : Prop :=
  ∀ op, op ∈ operations → no_id op ≠ EmptyString ∧ ∀ slot, no_id op ≠ copy_id slot.

(** No state of a plan is dead. *)
Definition plan_used (plan : StoragePlan) : Prop := used (sp_instructions plan) (sp_outputs plan).

(** What the rank must hold in its output buffer, and where. *)
Definition outputs_hold (inputs : ResolvedInput) (memory : gmap Cell (gmultiset Z)) : Prop :=
  ∀ n size_ rank offset c, slices inputs = Ok (n, size_) →
    collective_value (ri_collective inputs) (ri_rank_count inputs) n rank offset = Some c →
    ∃ cell, address_cell inputs (MkAddress rank "o" offset) = Some cell ∧
      memory !! cell = Some (contents c).

(** What the ranks hold in their input buffers at the start. *)
Definition inputs_hold (inputs : ResolvedInput) (memory : gmap Cell (gmultiset Z)) : Prop :=
  ∀ n size_ p, slices inputs = Ok (n, size_) → p ∈ input_positions inputs n →
    ∃ cell, address_cell inputs (MkAddress p.1 "i" p.2) = Some cell ∧
      memory !! cell = Some (contents {[ p.1 * n + p.2 ]}).

Lemma positions_bounds inputs n p :
  valid_problem (ri_collective inputs) (ri_rank_count inputs) n →
  p ∈ input_positions inputs n → 0 ≤ p.1 ∧ 0 ≤ p.2.
Proof.
  intros Hv. unfold input_positions. rewrite list_elem_of_bind. intros (r & Hp & Hr).
  rewrite list_elem_of_bind in Hp. destruct Hp as (l & Hp & Hl).
  apply list_elem_of_singleton in Hp as ->. apply elem_of_seqZ in Hl. simpl.
  split; [|lia]. unfold source_ranks in Hr. case_decide as Hk.
  - apply list_elem_of_singleton in Hr as ->. pose proof (vp_root _ _ _ Hv) as Hroot.
    rewrite Hk in Hroot. destruct Hroot as (x & Hx & ?). unfold root_int. rewrite Hx. lia.
  - apply elem_of_seqZ in Hr. lia.
Qed.

Lemma positions_inhabited inputs n :
  valid_problem (ri_collective inputs) (ri_rank_count inputs) n → ∃ p, p ∈ input_positions inputs n.
Proof.
  intros [HP Hn _ _].
  assert (Hr : ∃ r, r ∈ source_ranks inputs).
  { unfold source_ranks. case_decide; [eexists; apply list_elem_of_singleton; reflexivity|].
    exists 0. apply elem_of_seqZ. lia. }
  destruct Hr as (r & Hr). exists (r, 0). unfold input_positions. apply list_elem_of_bind.
  exists r. split; [|done]. apply list_elem_of_bind. exists 0.
  split; [by apply list_elem_of_singleton|]. apply elem_of_seqZ. lia.
Qed.

Lemma build_storage_plan_ok candidate context plan :
  plain_identities (nc_operations candidate) →
  build_storage_plan candidate context = Ok plan → plan_used plan →
  plan_ok (cx_inputs context) plan ∧
  (∀ memory, inputs_hold (cx_inputs context) memory →
     plan_start (cx_inputs context) plan (MkPlanState ∅ memory ∅)) ∧
  ∀ n size_ rank offset c, slices (cx_inputs context) = Ok (n, size_) →
    collective_value (ri_collective (cx_inputs context)) (ri_rank_count (cx_inputs context)) n rank offset
      = Some c →
    ∃ cell id, address_cell (cx_inputs context) (MkAddress rank "o" offset) = Some cell ∧
      cell_of (cx_inputs context) plan id = Some cell ∧ contributors_of plan id = c ∧
      (id ∈ sp_initial_ids plan ∨ id ∈ in_output <$> sp_instructions plan) ∧
      ∀ q, q ∈ sp_instructions plan → cell_of (cx_inputs context) plan (in_output q) = Some cell →
        in_output q = id.
Proof.
  intros Hplain H Hused. unfold build_storage_plan in H. set (inputs := cx_inputs context) in *.
  apply bind_Ok in H as (operations & Hnorm & H).
  apply bind_Ok in H as ([n size_] & Hslices & H).
  apply bind_Ok in H as (ops & Horder & H).
  apply bind_Ok in H as (expected & Hexp & H).
  apply bind_Ok in H as (constraints & _ & H).
  apply bind_Ok in H as (planning & Hplanning & H).
  apply bind_Ok in H as (acc & Hacc & H). cbv zeta in H.
  apply bind_Ok in H as (regions & Hregions & H).
  apply bind_Ok in H as (instructions & Hprot & H).
  apply bind_Ok in H as (budget & _ & H).
  apply bind_Ok in H as (capacity & _ & H).
  apply bind_Ok in H as (ordered & Hordered & H).
  apply bind_Ok in H as (st & Hst & H). injection H as Eplan.
  assert (Hops : operations = nc_operations candidate).
  { unfold normalize_network in Hnorm. apply bind_Ok in Hnorm as (cnt & _ & Hnorm).
    apply bind_Ok in Hnorm as ([] & _ & Hnorm). by injection Hnorm as <-. }
  destruct (network_order_Ok _ _ Horder) as [Hnd Hin].
  pose proof (required_outputs_Ok _ _ _ _ Hexp) as Hv.
  destruct (required_outputs_table _ _ _ Hv) as (table & Et & Hkeys & Htable).
  rewrite Hexp in Et. injection Et as <-.
  assert (Hget : ∀ s c, (s, c) ∈ expected ↔
    collective_value (ri_collective inputs) (ri_rank_count inputs) n (slot_rank s) (slot_offset s) = Some c).
  { intros s c. rewrite <- Htable. split; [by apply dict_get_Some_2|apply dict_get_Some_1]. }
  pose proof (vp_ranks _ _ _ Hv) as Hranks. pose proof (vp_slices _ _ _ Hv) as Hn.
  assert (Hids : ∀ id, id ∈ no_id <$> ops → id ≠ EmptyString ∧ ∀ slot, id ≠ copy_id slot).
  { intros id (op & -> & Hop)%list_elem_of_fmap. apply Hplain. rewrite <- Hops. by apply Hin. }
  pose proof (operations_planned inputs n size_ context constraints _ ops planning Hnd Hplanning)
    as [Hpl Hpos Haddr Hpid Htr].
  assert (Hexpected : ∀ s c s' c', (s, c) ∈ expected → (s', c') ∈ expected →
    slot_rank s = slot_rank s' → c = c' → s = s').
  { intros [r o] c [r' o'] c' Hs%Hget Hs'%Hget. simpl in *. intros -> ->. f_equal.
    by eapply collective_value_inj. }
  assert (Hslot : ∀ s c, (s, c) ∈ expected → 0 ≤ slot_rank s ∧ 0 ≤ slot_offset s).
  { intros s c Hs%Hget. apply collective_value_bounds in Hs. lia. }
  assert (Hout : outputs_ok context n size_ (no_id <$> ops) (sorted_by fst expected) acc).
  { eapply (outputs_placed context n size_ Hslices Hranks (no_id <$> ops) Hids expected Hkeys Hexpected);
      try done. intros s c Hs. by apply (Hslot s c). }
  destruct (positions_inhabited inputs n Hv) as (p0 & Hp0).
  assert (Hsize : 1 ≤ size_).
  { apply mapR_Ok in Hregions.
    destruct (Forall2_elem_l _ _ _ (input_id p0.1 p0.2) Hregions) as (x & _ & Hx).
    { unfold initial_ids. apply list_elem_of_fmap. exists p0. by destruct p0. }
    apply bind_Ok in Hx as (a & _ & Hx). apply bind_Ok in Hx as (region & Hx & _).
    by apply (canonical_region_cell inputs n size_ Hslices Hranks) in Hx as [_ ?]. }
  assert (Hprotected : Forall2 (protected context n size_ (pl_instructions (ou_planning acc))
      (pl_addresses (ou_planning acc)) (initial_ids inputs n))
    (pl_instructions (ou_planning acc)) instructions).
  { apply mapR_Ok in Hprot. eapply Forall2_impl; [exact Hprot|]. intros o op Hop.
    by eapply (protect_Ok context n size_ Hslices Hranks). }
  assert (Hndi : NoDup (in_id <$> instructions)).
  { rewrite (protected_ids _ _ _ _ _ _ _ _ Hprotected).
    apply (pk_ids _ _ _ (oo_planning _ _ _ _ _ _ Hout)). }
  destruct (storage_order_Ok _ _ _ _ _ Hndi Hordered) as [Hperm Hfollows].
  assert (Hslot' : ∀ s c, (s, c) ∈ sorted_by fst expected → 0 ≤ slot_rank s ∧ 0 ≤ slot_offset s).
  { intros s c. rewrite elem_of_sorted_by. apply Hslot. }
  assert (Hu : used (al_final st) (ou_outputs acc)) by (unfold plan_used in Hused; by rewrite <- Eplan in Hused).
  split; [|split].
  - eapply (plan_is_ok context n size_ Hslices Hranks Hn Hsize (λ p, positions_bounds inputs n p Hv)
      (no_id <$> ops) Hids (sorted_by fst expected) acc Hslot' Hout instructions ordered _ capacity
      Hprotected Hperm Hfollows eq_refl st Hst Hu); by rewrite <- Eplan.
  - intros memory Hinputs. split; [done|]. split; [done|]. intros id c Hid Hcell. cbn [ps_memory].
    assert (Hp : ∃ p, p ∈ input_positions inputs n ∧ id = input_id p.1 p.2).
    { rewrite <- Eplan in Hid. cbn [sp_initial_ids] in Hid. unfold initial_ids in Hid.
      apply list_elem_of_fmap in Hid as (p & -> & Hp). exists p. split; [done|]. by destruct p. }
    destruct Hp as (p & Hp & ->). destruct (Hinputs n size_ p Hslices Hp) as (cell & Ha & Hm).
    destruct (initial_state context n size_ Hslices Hranks Hn Hsize (λ p, positions_bounds inputs n p Hv)
      (no_id <$> ops) Hids (sorted_by fst expected) acc Hout instructions ordered _ capacity
      Hprotected Hperm Hfollows eq_refl st Hst Hu plan) with (p := p) as [Hc Hcon];
      try (by rewrite <- Eplan); [done|].
    change (cx_inputs context) with inputs in Hc. rewrite Hc in Hcell. injection Hcell as <-. rewrite Hcon.
    destruct (positions_bounds inputs n p Hv Hp). rewrite <- Hm. f_equal.
    rewrite (address_cell_total inputs n size_) in Ha; [congruence|try done; simpl; lia..].
  - intros n' size' rank offset c Hs' Hc. rewrite Hslices in Hs'. injection Hs' as <- <-.
    assert (Hin' : (MkOutputSlot rank offset, c) ∈ sorted_by fst expected)
      by (rewrite elem_of_sorted_by; by apply Hget).
    destruct (slot_state context n size_ Hslices Hranks Hn Hsize (λ p, positions_bounds inputs n p Hv)
      (no_id <$> ops) Hids (sorted_by fst expected) acc Hslot' Hout instructions ordered _ capacity
      Hprotected Hperm Hfollows eq_refl st Hst Hu plan) with (slot := MkOutputSlot rank offset) (c := c)
      as (id & Hcell & Hcon & Hid & Huniq); try (by rewrite <- Eplan); [done|].
    exists (cell_spec inputs n size_ (slot_address (MkOutputSlot rank offset))), id.
    destruct (Hslot' _ _ Hin') as [Hr Ho].
    split; [apply address_cell_total; try done; lia|]. split_and!; done.
Qed.

Lemma plan_outputs_hold candidate context plan s s' :
  plain_identities (nc_operations candidate) →
  build_storage_plan candidate context = Ok plan → plan_used plan →
  plan_start (cx_inputs context) plan s →
  rtc (plan_step (cx_inputs context) plan) s s' → plan_finished plan s' →
  outputs_hold (cx_inputs context) (ps_memory s').
Proof.
  intros Hplain H Hused Hs Hr Hf. destruct (build_storage_plan_ok _ _ _ Hplain H Hused) as (Hok & _ & Hout).
  intros n size_ rank offset c Hslices Hc.
  destruct (Hout n size_ rank offset c Hslices Hc) as (cell & id & Ha & Hcell & <- & Hid & Huniq).
  exists cell. split; [done|]. by eapply finished_value.
Qed.

(** A test for [plan_used]. *)
Definition usedb (plan : StoragePlan) : bool :=
  forallb (λ op,
    existsb (λ r, bool_decide (in_output op ∈ in_inputs r)) (sp_instructions plan) ||
    existsb (λ o, String.eqb o.2 (in_output op) &&
                  bool_decide (dict_get o.1 (sp_outputs plan) = Some (in_output op))) (sp_outputs plan))
    (sp_instructions plan).

Lemma usedb_used plan : usedb plan = true → plan_used plan.
Proof.
  unfold usedb. rewrite forallb_forall. intros H op Hop%list_elem_of_In%H.
  apply orb_true_iff in Hop as [(r & Hr & Hin)%existsb_exists|((slot & id) & _ & Hs)%existsb_exists].
  - left. exists r. bool_prop. by apply list_elem_of_In in Hr.
  - right. exists slot. by bool_prop.
Qed.


Definition demo_link (a b : Z) : LinkKey * DirectedLink :=
  (MkLinkKey a b, MkDirectedLink (MkLinkKey a b) 2 (MkPerformanceCurve 0 0 [] None) [] []).
Definition demo_topology : Topology :=
  MkTopology 2 [demo_link 0 1; demo_link 1 0] [] [(0, 0); (1, 0)] ∅ [] "demo".
Definition demo_config : pyval := PDict
  [("runtime"%string, PDict [("scratch_bytes_per_rank"%string, PInt 16); ("tb_layout"%string, PStr "split")])].
Definition demo_inputs : ResolvedInput :=
  MkResolvedInput (MkCollectiveSpec ALL_REDUCE "fp32" (Some "sum"%string) PNone true)
    (MkHyperparameters 4 (Some 4) AUTO None) (MkSolverConfig 4) (MkAtomConstraints None []) 2 PNone demo_config.
Definition demo_context : LoweringContext := MkLoweringContext demo_inputs demo_topology.

(** Rank 1 adds the contribution of rank 0 to its own and sends the sum back. *)
Definition demo_candidate : NetworkCandidate :=
  MkNetworkCandidate 2 1 4
    [MkNetworkOperation "b" "send" 1 0 0 1 {[0; 1]} {[0; 1]} [0; 1] {["a"%string]} ∅ (Finite one_us);
     MkNetworkOperation "a" "rrc" 0 1 0 0 {[0]} {[0; 1]} [0; 1] ∅ ∅ (Finite 0)].

Definition demo_plan : StoragePlan :=
  match build_storage_plan demo_candidate demo_context with
  | Ok plan => plan
  | Err _ => MkStoragePlan [] [] [] [] [] [] [] [] [] 0 []
  end.

Definition demo_order : list (nat * Endpoint) :=
  [(0%nat, Source); (0%nat, Target); (1%nat, Source); (1%nat, Target); (2%nat, Target); (3%nat, Target)].


Definition demo_end : bool :=
  match run demo_inputs demo_plan (MkPlanState ∅ (initial_memory demo_inputs demo_plan) ∅) demo_order with
  | Some s => finishedb demo_plan s
  | None => false
  end.

Lemma demo_ends : demo_end = true.
Proof. vm_compute. reflexivity. Qed.



(** ** A dead state

    A broadcast of two slices that sends slice 0 twice.  The first arrival, [a],
    is neither read nor an output; [find_slot] lets [b] take its storage after
    the readers of [a], of which there are none, and not after [a] itself. *)
Definition race_inputs : ResolvedInput :=
  MkResolvedInput (MkCollectiveSpec BROADCAST "fp32" None (PInt 0) true)
    (MkHyperparameters 8 (Some 4) AUTO None) (MkSolverConfig 4) (MkAtomConstraints None []) 2 (PInt 0) demo_config.
Definition race_context : LoweringContext := MkLoweringContext race_inputs demo_topology.
Definition race_send (id : string) (slice channel time : Z) : NetworkOperation :=
  MkNetworkOperation id "send" 0 1 channel 0 {[slice]} {[1]} [0; 1] ∅ ∅ (Finite time).
Definition race_candidate : NetworkCandidate :=
  MkNetworkCandidate 2 2 4 [race_send "a" 0 0 0; race_send "b" 1 1 one_us; race_send "c" 0 0 one_us].
Definition race_plan : StoragePlan :=
  match build_storage_plan race_candidate race_context with
  | Ok plan => plan
  | Err _ => MkStoragePlan [] [] [] [] [] [] [] [] [] 0 []
  end.

(** [a] arrives after [b], and before the copies to the outputs. *)
Definition race_order : list (nat * Endpoint) :=
  [(0%nat, Source); (1%nat, Source); (1%nat, Target); (0%nat, Target);
   (2%nat, Source); (2%nat, Target); (3%nat, Target); (4%nat, Target)].

(** Where rank 1 must hold slice 1. *)
Definition race_cell : Cell := default (0, EmptyString, 0) (address_cell race_inputs (MkAddress 1 "o" 1)).

Definition race_end : bool :=
  match run race_inputs race_plan (MkPlanState ∅ (initial_memory race_inputs race_plan) ∅) race_order with
  | Some s => finishedb race_plan s &&
              negb (bool_decide (ps_memory s !! race_cell = Some (contents {[ 1 ]})))
  | None => false
  end.

Lemma race_ends : race_end = true.
Proof. vm_compute. reflexivity. Qed.

(** Without [plan_used] the outputs may be wrong: in the plan of this candidate
    two receives race for one slot of scratch storage, and an output slot ends
    with the value of another. *)
Lemma storage_plan_dead_state :
  plain_identities (nc_operations race_candidate) ∧
  build_storage_plan race_candidate race_context = Ok race_plan ∧
  ∃ s s', plan_start race_inputs race_plan s ∧ rtc (plan_step race_inputs race_plan) s s' ∧
    plan_finished race_plan s' ∧ ¬ outputs_hold race_inputs (ps_memory s').
Proof.
  split; [|split; [vm_compute; reflexivity|]].
  { unfold plain_identities. rewrite <- list.Forall_forall.
    repeat (constructor; [split; [|intros slot]; discriminate|]). constructor. }
  pose proof race_ends as E. unfold race_end in E.
  destruct (run race_inputs race_plan _ race_order) as [s'|] eqn:Er; [|done].
  apply andb_true_iff in E as [Hf Hm]. apply negb_true_iff, bool_decide_eq_false in Hm.
  eexists _, s'. split; [apply initial_start; vm_compute; reflexivity|].
  split; [by apply (run_steps _ _ _ race_order)|]. split; [by apply finishedb_finished|].
  intros H. destruct (H 2 4 1 1 {[ 1 ]}) as (cell & Ha & Hc); [vm_compute; reflexivity..|].
  assert (Ec : address_cell race_inputs (MkAddress 1 "o" 1) = Some race_cell) by (vm_compute; reflexivity).
  rewrite Ec in Ha. apply (inj Some) in Ha. subst cell. exact (Hm Hc).
Qed.
