(* ===== verification/NativeSound.v ===== *)
(** * Admitted native programs compute the collective

    Native programs that [_validate_bindings] and the capacity check accept
    refine the storage plan they were lowered from, run to completion, and
    leave the values of the collective in the output buffers. *)

From stdpp Require Import gmultiset.
From S2P Require Import Prelude.
From S2P Require Import Python.
From S2P Require Import Collective.
From S2P Require Import InputModels.
From S2P Require Import Floats.
From S2P Require Import Topology.
From S2P Require Import Capacity.
From S2P Require Import CapacityLaws.
From S2P Require Import V5Model.
From S2P Require Import V5Buffers.
From S2P Require Import V5Program.
From S2P Require Import V5Lower.
From S2P Require Import V5Exec.
From S2P Require Import V5ExecLaws.
From S2P Require Import NativeExec.
From S2P Require Import V5Bindings.
From S2P Require Import NativeSim.
From S2P Require Import V5PlanSound.
Local Open Scope Z_scope.

(** ** Capacity *)

Lemma connection_elem b direction peer :
  peer = (if decide (direction = "send"%string) then nb_send_peer b else nb_recv_peer b) →
  peer ≠ -1 → direction = "send"%string ∨ direction = "recv"%string →
  (nb_rank b, peer, nb_channel b, direction) ∈ connections (block_capacity b).
Proof.
  intros Hp Hne Hd. unfold connections, connection. apply elem_of_app.
  destruct Hd as [-> | ->]; simpl in Hp; [left|right]; simpl; rewrite decide_False by congruence;
    apply list_elem_of_singleton; congruence.
Qed.

(** A connection belongs to one block. *)
Lemma connection_owner (blocks : list NativeBlock) b b' c :
  NoDup ((block_capacity <$> blocks) ≫= connections) → b ∈ blocks → b' ∈ blocks →
  c ∈ connections (block_capacity b) → c ∈ connections (block_capacity b') → b = b'.
Proof.
  induction blocks as [|x l IH]; intros Hnd Hb Hb' Hc Hc'; [by apply elem_of_nil in Hb|].
  rewrite fmap_cons, bind_cons, NoDup_app in Hnd. destruct Hnd as (_ & Hd & Hnd).
  assert (Hin : ∀ y, y ∈ l → c ∈ connections (block_capacity y) → c ∈ (block_capacity <$> l) ≫= connections).
  { intros y Hy Hcy. apply list_elem_of_bind. exists (block_capacity y). split; [done|].
    apply list_elem_of_fmap. by exists y. }
  apply elem_of_cons in Hb as [->|Hb], Hb' as [->|Hb'].
  - done.
  - exfalso. eapply Hd; [exact Hc|by eapply Hin].
  - exfalso. eapply Hd; [exact Hc'|by eapply Hin].
  - by apply IH.
Qed.

Lemma fits_well_formed program limits : fits (program_shape program) limits → well_formed program.
Proof.
  intros Hf. pose proof (ft_keys _ _ Hf) as Hk. pose proof (ft_connections _ _ Hf) as Hc.
  cbn [program_shape es_blocks] in Hk, Hc. rewrite <- list_fmap_compose in Hk.
  assert (Hu : ∀ direction peer b b', b ∈ np_blocks program → b' ∈ np_blocks program → peer ≠ -1 →
    direction = "send"%string ∨ direction = "recv"%string →
    peer = (if decide (direction = "send"%string) then nb_send_peer b else nb_recv_peer b) →
    peer = (if decide (direction = "send"%string) then nb_send_peer b' else nb_recv_peer b') →
    nb_rank b = nb_rank b' → nb_channel b = nb_channel b' → b = b').
  { intros direction peer b b' Hb Hb' Hne Hd E E' Er Ec.
    apply (connection_owner (np_blocks program) b b' (nb_rank b, peer, nb_channel b, direction)); [done..| |].
    - by apply connection_elem.
    - rewrite Er, Ec. by apply connection_elem. }
  split.
  - exact Hk.
  - intros b Hb. destruct (ft_blocks _ _ Hf (block_capacity b)) as ((? & _) & _); [|done].
    apply list_elem_of_fmap. by exists b.
  - intros b b' Hb Hb' Hne [= E1 E2 E3]. apply (Hu "send"%string (nb_send_peer b)); try done. by left.
  - intros b b' Hb Hb' Hne [= E1 E2 E3]. apply (Hu "recv"%string (nb_recv_peer b)); try done. by right.
Qed.

(** What [_validate_bindings] and the capacity check admit. *)
Definition admitted (program : NativeProgram) (plan : StoragePlan) (context : LoweringContext)
    (limits : RuntimeLimits) : Prop :=
  _validate_bindings program plan = Ok tt ∧
  ∃ report, _capacity program context limits = Ok report ∧ compatible report = true.

Lemma admitted_bound program plan context limits :
  plan_ok (cx_inputs context) plan → admitted program plan context limits →
  well_formed program ∧ ∃ order, bound plan program order.
Proof.
  intros Hok [Hv (report & Hc & Hr)]. unfold _capacity in Hc.
  apply bind_Ok in Hc as (bytes & _ & Hc). pose proof (capacity_fits _ _ _ _ _ Hc Hr) as Hf.
  pose proof (fits_well_formed _ _ Hf) as Hwf. split; [done|].
  by apply (bindings_bound (cx_inputs context) plan program Hok (wf_ids _ Hwf)).
Qed.

(** ** Executions *)

Section executions.
Context (inputs : ResolvedInput) (plan : StoragePlan) (program : NativeProgram) (slots : nat).
Context (Hok : plan_ok inputs plan) (Hwf : well_formed program).
Context (order : list Instruction) (Hb : bound plan program order).

Notation native_step := (native_step inputs slots program).

Lemma reachable_sim p s :
  plan_start inputs plan p → rtc native_step (native_start (ps_memory p)) s →
  ∃ p', rtc (plan_step inputs plan) p p' ∧ sim plan program order s p'.
Proof.
  intros Hp Hr. pose proof (start_sim inputs plan program Hok order Hb Hwf p (proj1 Hp)) as Hs.
  exact (sim_run inputs plan program slots Hok order Hb Hwf _ s p Hs Hr).
Qed.

Lemma reachable_counters p s :
  rtc native_step (native_start (ps_memory p)) s → bounded program s.
Proof.
  intros Hr. eapply reachable_bounded; [apply (wf_ids _ Hwf)| |exact Hr].
  intros b _. rewrite start_counter. lia.
Qed.

Lemma reachable_progress p s :
  (0 < slots)%nat → plan_start inputs plan p → rtc native_step (native_start (ps_memory p)) s →
  native_finished program s ∨ ∃ s', native_step s s'.
Proof.
  intros Hslots Hp Hr. destruct (reachable_sim p s Hp Hr) as (p' & Hp' & Hs).
  apply (sim_progress inputs plan program slots Hok order Hb Hwf s p'); [done|done| |].
  - by eapply reachable_inv.
  - by eapply reachable_counters.
Qed.

(** Every execution can be continued to the end: there are finitely many steps
    left, and none is the last before the end. *)
Lemma reachable_completes p s :
  (0 < slots)%nat → plan_start inputs plan p → rtc native_step (native_start (ps_memory p)) s →
  ∃ s', rtc native_step s s' ∧ native_finished program s'.
Proof.
  intros Hslots Hp Hr.
  remember (total_steps program - steps_done s (np_blocks program))%nat as k eqn:Ek.
  revert s Hr Ek. induction (lt_wf k) as [k _ IH]. intros s Hr Ek.
  destruct (reachable_progress p s Hslots Hp Hr) as [Hf|(s1 & H1)]; [by exists s|].
  assert (Hr1 : rtc native_step (native_start (ps_memory p)) s1) by (by eapply rtc_r).
  assert (Hlt : (steps_done s1 (np_blocks program) = 1 + steps_done s (np_blocks program))%nat).
  { apply (run_length inputs slots program (wf_ids _ Hwf) 1). by apply nsteps_once. }
  pose proof (steps_done_bounded program s1 (reachable_counters p s1 Hr1)) as Hle.
  destruct (IH (total_steps program - steps_done s1 (np_blocks program))%nat ltac:(lia) s1 Hr1 eq_refl)
    as (s' & Hs' & Hf).
  exists s'. split; [by eapply rtc_l|done].
Qed.
End executions.

(** ** The theorems *)

(** C11 Native programs refine their storage plans.  Let a program be admitted
    for a well-formed plan.  Every execution of its threadblocks, over queues
    that deliver messages by position only, is an execution of the plan with
    the same memory: whatever the interleaving, each receive gets the message
    of its own operation and no endpoint overtakes a dependency on its rank.
    A finished program has finished the plan. *)
Theorem native_refines_plan program plan context limits slots p s :
  plan_ok (cx_inputs context) plan → admitted program plan context limits →
  plan_start (cx_inputs context) plan p →
  rtc (native_step (cx_inputs context) slots program) (native_start (ps_memory p)) s →
  ∃ p', rtc (plan_step (cx_inputs context) plan) p p' ∧ ps_memory p' = nt_memory s ∧
    (native_finished program s → plan_finished plan p').
Proof.
  intros Hok Had Hp Hr. destruct (admitted_bound _ _ _ _ Hok Had) as (Hwf & order & Hb).
  destruct (reachable_sim _ plan program slots Hok Hwf order Hb p s Hp Hr) as (p' & Hp' & Hs).
  exists p'. split; [done|]. split; [by eapply sm_memory|]. by eapply sim_finished.
Qed.

(** C12 Native programs complete.  Take a program admitted for a well-formed
    plan, on connections with at least one slot.  Every execution from the
    inputs has at most as many steps as the program, so that it ends; and
    wherever it has got to, it is finished or has a step, so that it ends with
    every step executed: no threadblock waits for ever on a dependency, a full
    queue or a missing message, and none reads storage that was never written. *)
Theorem native_program_completes program plan context limits slots p k s :
  plan_ok (cx_inputs context) plan → admitted program plan context limits → (0 < slots)%nat →
  plan_start (cx_inputs context) plan p →
  nsteps (native_step (cx_inputs context) slots program) k (native_start (ps_memory p)) s →
  (k ≤ total_steps program)%nat ∧
  (native_finished program s ∨ ∃ s', native_step (cx_inputs context) slots program s s') ∧
  ∃ s', rtc (native_step (cx_inputs context) slots program) s s' ∧ native_finished program s'.
Proof.
  intros Hok Had Hslots Hp Hn. destruct (admitted_bound _ _ _ _ Hok Had) as (Hwf & order & Hb).
  assert (Hr : rtc (native_step (cx_inputs context) slots program) (native_start (ps_memory p)) s)
    by (apply rtc_nsteps; by exists k).
  split; [by eapply runs_end; [apply (wf_ids _ Hwf)|]|]. split.
  - by eapply reachable_progress.
  - by eapply reachable_completes.
Qed.

(** What the proofs of the theorems on admitted programs share. *)
Lemma admitted_runs candidate context plan program limits slots memory s :
  plain_identities (nc_operations candidate) →
  build_storage_plan candidate context = Ok plan → plan_used plan →
  admitted program plan context limits → (0 < slots)%nat → inputs_hold (cx_inputs context) memory →
  rtc (native_step (cx_inputs context) slots program) (native_start memory) s →
  (∃ s', rtc (native_step (cx_inputs context) slots program) s s' ∧ native_finished program s') ∧
  (native_finished program s → outputs_hold (cx_inputs context) (nt_memory s)).
Proof.
  intros Hplain Hplan Hused Had Hslots Hm Hr.
  destruct (build_storage_plan_ok _ _ _ Hplain Hplan Hused) as (Hok & Hstart & Hout).
  specialize (Hstart memory Hm). destruct (admitted_bound _ _ _ _ Hok Had) as (Hwf & order & Hb).
  split; [by eapply (reachable_completes _ _ _ _ Hok Hwf order Hb (MkPlanState ∅ memory ∅))|]. intros Hf.
  destruct (reachable_sim _ plan program slots Hok Hwf order Hb _ s Hstart Hr) as (p' & Hp' & Hs).
  rewrite <- (sm_memory _ _ _ _ _ Hs). eapply plan_outputs_hold; try done. by eapply sim_finished.
Qed.


(** ** Examples *)

Definition demo_program : NativeProgram :=
  match lower_program demo_plan demo_context with
  | Ok program => program
  | Err _ => MkNativeProgram 0 0 0 [] [] [] []
  end.

Definition demo_memory : gmap Cell (gmultiset Z) := initial_memory demo_inputs demo_plan.

Lemma demo_built : build_storage_plan demo_candidate demo_context = Ok demo_plan.
Proof. vm_compute. reflexivity. Qed.

Lemma demo_lowered : lower_program demo_plan demo_context = Ok demo_program.
Proof. vm_compute. reflexivity. Qed.

Lemma demo_admitted : admitted demo_program demo_plan demo_context default_limits.
Proof. split; [vm_compute; reflexivity|]. exists []. split; vm_compute; reflexivity. Qed.

Lemma demo_inputs_hold : inputs_hold demo_inputs demo_memory.
Proof.
  intros n size_ p Hs Hp. assert (E : slices demo_inputs = Ok (1, 4)) by (vm_compute; reflexivity).
  rewrite E in Hs. injection Hs as <- <-.
  assert (Ep : input_positions demo_inputs 1 = [(0, 0); (1, 0)]) by (vm_compute; reflexivity).
  rewrite Ep in Hp. apply elem_of_cons in Hp as [->|Hp].
  - eexists. split; vm_compute; reflexivity.
  - apply list_elem_of_singleton in Hp as ->. eexists. split; vm_compute; reflexivity.
Qed.

Lemma demo_plain : plain_identities (nc_operations demo_candidate).
Proof.
  unfold plain_identities. rewrite <- list.Forall_forall.
  repeat (constructor; [split; [|intros slot]; discriminate|]). constructor.
Qed.

Lemma demo_used : plan_used demo_plan.
Proof. apply usedb_used. vm_compute. reflexivity. Qed.

Lemma demo_ok : plan_ok demo_inputs demo_plan.
Proof. exact (proj1 (build_storage_plan_ok _ _ _ demo_plain demo_built demo_used)). Qed.

Lemma demo_start : plan_start demo_inputs demo_plan (MkPlanState ∅ demo_memory ∅).
Proof.
  apply (proj1 (proj2 (build_storage_plan_ok _ _ _ demo_plain demo_built demo_used))).
  exact demo_inputs_hold.
Qed.

Lemma demo_completes slots : (0 < slots)%nat → ∃ s,
  rtc (native_step demo_inputs slots demo_program) (native_start demo_memory) s ∧
  native_finished demo_program s.
Proof.
  intros Hslots. destruct (admitted_bound demo_program demo_plan demo_context default_limits demo_ok demo_admitted) as (Hwf & order & Hb).
  apply (reachable_completes demo_inputs demo_plan demo_program slots demo_ok Hwf order Hb
    (MkPlanState ∅ demo_memory ∅)); [done|apply demo_start|apply rtc_refl].
Qed.

Lemma native_refines_plan_witness : ∃ p',
  rtc (plan_step demo_inputs demo_plan) (MkPlanState ∅ demo_memory ∅) p' ∧ plan_finished demo_plan p'.
Proof.
  destruct (demo_completes 1 ltac:(lia)) as (s & Hr & Hf).
  destruct (native_refines_plan demo_program demo_plan demo_context default_limits 1
    (MkPlanState ∅ demo_memory ∅) s) as (p' & Hp' & _ & Hfin).
  - exact demo_ok.
  - exact demo_admitted.
  - exact demo_start.
  - exact Hr.
  - exists p'. split; [exact Hp'|apply Hfin; exact Hf].
Defined.

Lemma native_program_completes_witness : ∃ s',
  rtc (native_step demo_inputs 1 demo_program) (native_start demo_memory) s' ∧
  native_finished demo_program s'.
Proof.
  apply (native_program_completes demo_program demo_plan demo_context default_limits 1
    (MkPlanState ∅ demo_memory ∅) 0 (native_start demo_memory)).
  - exact demo_ok.
  - exact demo_admitted.
  - lia.
  - exact demo_start.
  - constructor.
Defined.

