(* ===== verification/V5Admission.v ===== *)
(** * What an executable bundle guarantees

    A bundle that can be executed carries a native program that computes the
    collective, a replayed version schedule, and a complete prediction whose
    times respect the storage plan. *)

From Stdlib Require Import QArith.
From S2P Require Import Prelude.
From S2P Require Import Python.
From S2P Require Import Collective.
From S2P Require Import InputModels.
From S2P Require Import Versions.
From S2P Require Import VersionSchedule.
From S2P Require Import CheckResult.
From S2P Require Import Floats.
From S2P Require Import Topology.
From S2P Require Import Capacity.
From S2P Require Import Xml.
From S2P Require Import V5Model.
From S2P Require Import V5Buffers.
From S2P Require Import V5Program.
From S2P Require Import V5Order.
From S2P Require Import Mpq.
From S2P Require Import Performance.
From S2P Require Import Prediction.
From S2P Require Import PredictionRates.
From S2P Require Import PredictionReplay.
From S2P Require Import PredictionSound.
From S2P Require Import V5Lower.
From S2P Require Import V5Executable.
From S2P Require Import V5Evaluate.
From S2P Require Import V5Exec.
From S2P Require Import NativeExec.
From S2P Require Import ExecutionDeps.
From S2P Require Import V5Bindings.
From S2P Require Import V5PlanSound.
From S2P Require Import NativeSound.
Local Open Scope Z_scope.

(** ** Checks that passed *)

Definition passed (key : string) (checks : Checks) : Prop :=
  ∃ check, dict_get key checks = Some check ∧ ck_status check = VALID.

Lemma check_status_Ok dimension status message evidence check :
  _check dimension status message evidence = Ok check → ck_status check = status.
Proof. unfold _check. intros H. do 3 apply bind_Ok in H as (? & _ & H). by injection H as <-. Qed.

Lemma passed_set key check checks : passed key (dict_set key check checks) ↔ ck_status check = VALID.
Proof.
  unfold passed. rewrite dict_get_set, decide_True by done. split; [by intros (? & [= <-] & ?)|eauto].
Qed.

Lemma passed_set_ne key key' check checks :
  key ≠ key' → passed key (dict_set key' check checks) ↔ passed key checks.
Proof. intros Hne. unfold passed. by rewrite dict_get_set, decide_False by congruence. Qed.

Lemma invalid_status dimension message check : invalid dimension message = Ok check → ck_status check ≠ VALID.
Proof. intros H%check_status_Ok. by rewrite H. Qed.

(** The checks with keys other than [keys] are the same. *)
Definition untouched (keys : list string) (checks checks' : Checks) : Prop :=
  ∀ key, key ∉ keys → passed key checks' ↔ passed key checks.

Lemma untouched_set keys key check checks checks' :
  untouched keys checks checks' → key ∈ keys → untouched keys checks (dict_set key check checks').
Proof. intros Hu Hin k Hk. rewrite passed_set_ne; [by apply Hu|]. by intros ->. Qed.

Lemma untouched_refl keys checks : untouched keys checks checks.
Proof. by intros k _. Qed.

Ltac touched := repeat (apply untouched_set; [|set_solver]); apply untouched_refl.

Lemma attempt_Ok {A} caught (m : res A) r :
  attempt caught m = Ok r → match r with inr a => m = Ok a | inl e => m = Err e end.
Proof. unfold attempt. destruct m as [a|e]; [by intros [= <-]|]. destruct (caught e); [|done]. by intros [= <-]. Qed.

Lemma can_execute_passed bundle key :
  can_execute bundle = Ok true → key ∈ required_dimensions → passed key (cb_checks bundle).
Proof.
  unfold can_execute. destruct (forallb _ _) eqn:E; [|done]. intros _ Hin%list_elem_of_In.
  rewrite forallb_forall in E. specialize (E _ Hin). destruct (dict_get key _) as [check|] eqn:Eg; [|done].
  bool_prop. by exists check.
Qed.

Section evaluation.
Context {M : MpqLibrary} {X : XmlLibrary} {D : XmlDocuments} {G : Digest}.
Context (context : LoweringContext) (model : CostModel) (limits : RuntimeLimits).
Context (input_sha256 : string).
Notation inputs := (cx_inputs context).

(** ** The stages *)

Lemma xml_check_passed supplied text program check :
  xml_check context input_sha256 supplied text program = Ok check → ck_status check = VALID →
  _validate_xml_text context text program = Ok tt.
Proof.
  unfold xml_check. intros H Hv. apply bind_Ok in H as (r & Hr%attempt_Ok & H).
  destruct r as [e|[]]; [by apply invalid_status in H|]. by apply bind_Ok in Hr as (? & _ & ?).
Qed.

Lemma endpoint_check_cases storage program checks executable checks' :
  endpoint_check context model storage program checks = Ok (executable, checks') →
  untouched ["deadlock"; "endpoint"]%string checks checks' ∧
  (passed "deadlock" checks' → passed "endpoint" checks' → ∃ e, executable = Some e ∧
    _validate_bindings program storage = Ok tt ∧ build_executable program storage context model = Ok e).
Proof.
  unfold endpoint_check. intros H. apply bind_Ok in H as (r & _ & H). destruct r as [e|r].
  { apply bind_Ok in H as (check & Hc & [= <- <-]). split.
    - touched.
    - by intros Hp%passed_set%(invalid_status _ _ _ Hc). }
  apply bind_Ok in H as (deadlock & _ & H). cbv zeta in H.
  apply bind_Ok in H as (r' & Hr'%attempt_Ok & H). destruct r' as [e|e].
  - apply bind_Ok in H as (check & Hc & [= <- <-]). split.
    + touched.
    + by intros _ Hp%passed_set%(invalid_status _ _ _ Hc).
  - apply bind_Ok in H as (check & Hc & [= <- <-]). split.
    + touched.
    + intros _ _. apply bind_Ok in Hr' as ([] & ? & ?). eauto.
Qed.

Lemma launch_check_passed storage program capacity check :
  launch_check context limits storage program = Ok (capacity, check) → ck_status check = VALID →
  ∃ report, _capacity program context limits = Ok report ∧ compatible report = true ∧
    _launch_geometry program storage context = Ok tt.
Proof.
  unfold launch_check. intros H Hv. apply bind_Ok in H as (r & Hr%attempt_Ok & H).
  destruct r as [e|report].
  { apply bind_Ok in H as (c & Hc & [= <- <-]). by apply invalid_status in Hc. }
  apply bind_Ok in H as (r' & Hr'%attempt_Ok & H). destruct r' as [e|c].
  { apply bind_Ok in H as (c & Hc & [= <- <-]). by apply invalid_status in Hc. }
  exists report. split; [done|]. unfold launch_geometry_check in Hr'. cbv zeta in Hr'.
  apply bind_Ok in Hr' as ([] & Hg & Hr'). do 5 apply bind_Ok in Hr' as (? & _ & Hr').
  apply bind_Ok in Hr' as ([[? ?] ?] & _ & Hr'). apply bind_Ok in Hr' as (? & _ & Hr').
  apply bind_Ok in Hr' as (? & Hcap & _). apply raise_when_Ok, negb_false_iff in Hcap. done.
Qed.

Lemma compatibility_check_cases launch checks checks' :
  compatibility_check context launch checks = Ok checks' → untouched ["compatibility"]%string checks checks'.
Proof.
  unfold compatibility_check. intros H. apply bind_Ok in H as (enabled & _ & H). destruct enabled.
  - apply bind_Ok in H as (check & _ & [= <-]). touched.
  - injection H as <-. touched.
Qed.

Lemma prediction_checks_cases supplied storage e checks prediction version checks' :
  prediction_checks context model supplied storage e checks = Ok (prediction, version, checks') →
  untouched ["prediction"; "semantic"; "storage"]%string checks checks' ∧
  (passed "prediction" checks' → passed "semantic" checks' → ¬ passed "semantic" checks →
   ∃ p v evidence, prediction = Some p ∧ version = Some v ∧ predict e model = Ok p ∧
     is_Some (pd_t_pred_us p) ∧ _version_schedule storage e p inputs = Ok v ∧
     _check_storage_values storage v inputs = Ok evidence).
Proof.
  unfold prediction_checks. intros H. apply bind_Ok in H as (r & Hr%attempt_Ok & H). destruct r as [err|p].
  { apply bind_Ok in H as (check & Hc & [= <- <- <-]). split.
    - touched.
    - by intros Hp%passed_set%(invalid_status _ _ _ Hc). }
  apply bind_Ok in H as (check & Hc & H). apply bind_Ok in H as ([v cs] & H & [= <- <- <-]).
  unfold semantic_check in H. apply bind_Ok in H as (r & Hs%attempt_Ok & H). destruct r as [err|v'].
  { apply bind_Ok in H as (check' & Hc' & [= <- <-]). split.
    - touched.
    - by intros _ Hp%passed_set%(invalid_status _ _ _ Hc'). }
  apply bind_Ok in H as (r & Hs'%attempt_Ok & H). destruct r as [err|evidence].
  { apply bind_Ok in H as (check' & Hc' & [= <- <-]). split.
    - touched.
    - by intros _ Hp%passed_set%(invalid_status _ _ _ Hc'). }
  apply bind_Ok in H as (semantic & _ & H). apply bind_Ok in H as (stored & _ & [= <- <-]). split.
  - touched.
  - apply bind_Ok in Hs' as (evidence' & Hs' & Hr'). apply bind_Ok in Hr' as (? & _ & [= ->]).
    intros Hp _ _. exists p, v', evidence. split_and!; try done.
    rewrite !passed_set_ne, passed_set in Hp by done. unfold prediction_check in Hc. cbv zeta in Hc.
    destruct (bool_decide (is_Some (pd_t_pred_us p))) eqn:E; [by apply bool_decide_eq_true in E|].
    apply check_status_Ok in Hc. congruence.
Qed.

(** ** Executable bundles *)

Lemma pending_checks_not_passed message checks key :
  pending_checks message = Ok checks → ¬ passed key checks.
Proof.
  unfold pending_checks. intros H%mapR_Ok (check & Hg%dict_get_Some_1 & Hv).
  destruct (Forall2_elem_r _ _ _ _ H Hg) as (k & _ & E).
  apply bind_Ok in E as (c & Hc%check_status_Ok & [= -> ->]). congruence.
Qed.

(** What the checks of an executable bundle have established. *)
Record verified (bundle : CandidateBundle) (storage : StoragePlan) (program : NativeProgram)
    (text : string) (e : Executable) (p : Prediction) (v : VersionSchedule) : Prop := {
  vf_storage : cb_storage_plan bundle = Some storage;
  vf_program : cb_program bundle = Some program;
  vf_text : cb_xml_text bundle = Some text;
  vf_xml : _validate_xml_text context text program = Ok tt;
  vf_admitted : admitted program storage context limits;
  vf_geometry : _launch_geometry program storage context = Ok tt;
  vf_executable : cb_executable bundle = Some e;
  vf_build : build_executable program storage context model = Ok e;
  vf_prediction : cb_prediction bundle = Some p;
  vf_predict : predict e model = Ok p;
  vf_complete : is_Some (pd_t_pred_us p);
  vf_version : cb_version_schedule bundle = Some v;
  vf_schedule : _version_schedule storage e p inputs = Ok v;
  vf_values : ∃ evidence, _check_storage_values storage v inputs = Ok evidence;
}.

Lemma evaluate_program_verified source storage program text supplied bundle :
  evaluate_program context model limits input_sha256 source storage program text supplied = Ok bundle →
  can_execute bundle = Ok true → ∃ e p v, verified bundle storage program text e p v.
Proof.
  unfold evaluate_program. intros H Hex.
  assert (Hp : ∀ key, key ∈ required_dimensions → passed key (cb_checks bundle))
    by (intros; by apply can_execute_passed).
  apply bind_Ok in H as (checks0 & H0 & H). pose proof (pending_checks_not_passed _ _ "semantic"%string H0) as Hnone.
  apply bind_Ok in H as (xml & Hxml & H).
  apply bind_Ok in H as ([executable checks1] & Hend%endpoint_check_cases & H).
  destruct Hend as [Hu1 Hend]. apply bind_Ok in H as ([capacity launch] & Hlaunch & H).
  apply bind_Ok in H as (checks2 & Hu2%compatibility_check_cases & H).
  apply bind_Ok in H as ([[prediction version] checks] & Hpred & [= <-]). cbn [cb_checks] in Hp.
  assert (Hu3 : untouched ["prediction"; "semantic"; "storage"]%string checks2 checks).
  { destruct executable as [e|]; [|injection Hpred as <- <- <-; apply untouched_refl].
    by apply prediction_checks_cases in Hpred as [Hu3 _]. }
  assert (Hback : ∀ key, key ∈ ["endpoint"; "deadlock"; "xml"]%string → passed key checks → passed key checks1).
  { intros key Hk Hc. rewrite (Hu3 key) in Hc by set_solver. rewrite (Hu2 key) in Hc by set_solver.
    by apply passed_set_ne in Hc; [|set_solver]. }
  destruct Hend as (e & -> & Hbind & Hbuild).
  1,2: apply Hback; [set_solver|apply Hp; set_solver].
  assert (Hl : ck_status launch = VALID).
  { assert (Hc : passed "launch" checks) by (apply Hp; set_solver).
    rewrite (Hu3 _), (Hu2 _), passed_set in Hc by set_solver. done. }
  destruct (launch_check_passed _ _ _ _ Hlaunch Hl) as (report & Hcap & Hcomp & Hgeom).
  apply prediction_checks_cases in Hpred as [_ Hpred].
  destruct Hpred as (p & v & evidence & -> & -> & Hpre & Hcov & Hver & Hval).
  1,2: apply Hp; set_solver.
  { rewrite (Hu2 _), passed_set_ne, (Hu1 _), passed_set_ne by set_solver. done. }
  exists e, p, v. split; try done.
  - apply (xml_check_passed supplied _ _ xml); [done|].
    assert (Hc : passed "xml" checks1) by (apply Hback; [set_solver|apply Hp; set_solver]).
    by rewrite (Hu1 _), passed_set in Hc by set_solver.
  - split; [done|]. by exists report.
  - by exists evidence.
Qed.

Lemma lower_and_check_verified candidate bundle :
  lower_and_check context model limits input_sha256 candidate = Ok bundle → can_execute bundle = Ok true →
  ∃ storage program text e p v, verified bundle storage program text e p v ∧
    candidate_storage context candidate = Ok storage ∧ lower_program storage context = Ok program ∧
    emit_native_xml program inputs = Ok text.
Proof.
  unfold lower_and_check. intros H Hex. apply bind_Ok in H as (r & Hr%attempt_Ok & H).
  destruct r as [err|[[storage program] text]].
  - unfold rejected_candidate in H. apply bind_Ok in H as (checks & Hc & H).
    apply bind_Ok in H as (check & Hi & [= <-]). exfalso.
    assert (Hp : passed "storage" (dict_set "storage"%string check checks))
      by (by apply (can_execute_passed _ _ Hex); set_solver).
    by apply passed_set, (invalid_status _ _ _ Hi) in Hp.
  - apply bind_Ok in Hr as (st & Hst & Hr). apply bind_Ok in Hr as (pr & Hpr & Hr).
    apply bind_Ok in Hr as (tx & Htx & [= -> -> ->]).
    destruct (evaluate_program_verified _ _ _ _ _ _ H Hex) as (e & p & v & Hv).
    by exists storage, program, text, e, p, v.
Qed.
End evaluation.

(** ** Times and dependencies *)

(** Every required dependency ends before the operation starts. *)
Definition respects `{MpqLibrary} `{!MpqLaws} (storage : StoragePlan) (starts ends : gmap string mpq) : Prop :=
  ∀ op d, op ∈ sp_instructions storage → d ∈ in_dependencies op →
    ∃ e s, ends !! d = Some e ∧ starts !! in_id op = Some s ∧ (mpq_value e <= mpq_value s)%Q.

(** The native program enforces, at least transitively, what the plan requires. *)
Lemma bindings_enforce program storage dependencies actual :
  _validate_bindings program storage = Ok tt →
  execution_dependencies program = Ok (dependencies, actual) →
  NoDup dependencies.*1 ∧ dependencies.*1 = actual.*1 ∧
  ∀ op d, op ∈ sp_instructions storage → d ∈ in_dependencies op →
    tc (predecessor dependencies) d (in_id op).
Proof.
  intros Hv Hexec. destruct (execution_dependencies_Ok _ _ _ Hexec) as (Hnd & Ekeys & _).
  assert (Hdnd : NoDup dependencies.*1) by (by rewrite Ekeys). split_and!; [done|done|].
  unfold _validate_bindings in Hv. rewrite Hexec in Hv. cbn [mbind res_bind] in Hv.
  apply bind_Ok in Hv as ([] & _ & Hv). apply bind_Ok in Hv as ([] & Hcov & Hv).
  apply raise_when_Ok in Hcov. bool_prop. cbv zeta in Hv.
  apply bind_Ok in Hv as ([ancestors bits] & Hmasks & Hv). apply bind_Ok in Hv as (local & _ & Hv).
  apply iterM_Ok in Hv. rewrite Forall_forall in Hv.
  destruct (dependency_ancestors_Ok _ _ _ Hdnd Hmasks) as [Hexact _].
  intros op d Hop Hd. pose proof (Hv op Hop) as Hcheck. unfold check_instruction in Hcheck.
  apply bind_Ok in Hcheck as ([] & Hcheck & _).
  apply (ancestors_checked dependencies (ancestors, bits)); try done.
  - rewrite Ekeys. assert (in_id op ∈ in_id <$> sp_instructions storage) by (apply list_elem_of_fmap; eauto).
    set_solver.
  - unfold check_ancestors in Hcheck. apply bind_Ok in Hcheck as (omitted & Hany & H%raise_when_Ok).
    subst omitted. apply (anyR_false _ _ d) in Hany; [|by apply elem_of_elements].
    cbn [fst snd] in Hany. destruct (bits !! d) as [b|] eqn:Eb; [|done].
    by eapply dependency_bits_keys.
Qed.

Lemma path_respected `{MpqLibrary} `{!MpqLaws} (dependencies : list (string * gset string))
    (starts ends : gmap string mpq) p q :
  NoDup dependencies.*1 →
  (∀ k d, dict_get k dependencies = Some d → ∃ s e, starts !! k = Some s ∧ ends !! k = Some e ∧
     (mpq_value s <= mpq_value e)%Q ∧
     ∀ j, j ∈ d → ∃ e' : mpq, ends !! j = Some e' ∧ (mpq_value e' <= mpq_value s)%Q) →
  tc (predecessor dependencies) p q →
  ∃ e s : mpq, ends !! p = Some e ∧ starts !! q = Some s ∧ (mpq_value e <= mpq_value s)%Q.
Proof.
  intros Hnd Hwork.
  assert (Hedge : ∀ a b, predecessor dependencies a b →
    ∃ e s : mpq, ends !! a = Some e ∧ starts !! b = Some s ∧ (mpq_value e <= mpq_value s)%Q).
  { intros a b (d & Hd%(dict_get_Some_2 _ _ _ Hnd) & Hin).
    destruct (Hwork b d Hd) as (s & e & Hs & _ & _ & Hj). destruct (Hj a Hin) as (e' & He & Hle).
    by exists e', s. }
  induction 1 as [p q Hpq|p q r Hpq Hqr (e & s & He & Hs & Hle)]; [by apply Hedge|].
  destruct (Hedge _ _ Hpq) as (e1 & s1 & He1 & Hs1 & Hle1). exists e1, s. split_and!; [done|done|].
  destruct Hpq as (d & Hd%(dict_get_Some_2 _ _ _ Hnd) & _).
  destruct (Hwork q d Hd) as (s2 & e2 & Hs2 & He2 & Hle2 & _).
  rewrite Hs1 in Hs2. rewrite He in He2. injection Hs2 as <-. injection He2 as <-.
  eapply Qle_trans; [exact Hle1|]. by eapply Qle_trans.
Qed.

(** The times at which a version schedule replays its operations are the
    predicted ones. *)
Definition predicted_times (v : VersionSchedule) (p : Prediction) : Prop :=
  ∀ op, op ∈ vs_operations v → ∃ s e, pd_start_times p !! op_id op = Some s ∧
    pd_end_times p !! op_id op = Some e ∧ op_start op = PFloat (Finite s) ∧ op_end op = PFloat (Finite e).

Lemma VersionOperation_init_Ok op op' : VersionOperation_init op = Ok op' → op' = op.
Proof.
  unfold VersionOperation_init. cbv zeta. intros H. do 11 apply bind_Ok in H as (? & _ & H).
  by injection H as <-.
Qed.

Lemma version_schedule_times `{MpqLibrary} storage e p inputs v :
  is_Some (pd_t_pred_us p) → _version_schedule storage e p inputs = Ok v → predicted_times v p.
Proof.
  intros [t Ht] Hv. unfold _version_schedule in Hv. do 2 apply bind_Ok in Hv as (? & _ & Hv).
  apply bind_Ok in Hv as (times & Htimes & Hv). unfold operation_times in Htimes. rewrite Ht in Htimes.
  injection Htimes as <-. apply bind_Ok in Hv as (ops & Hops%mapR_Ok & Hv).
  apply bind_Ok in Hv as ([n size] & _ & Hv). apply bind_Ok in Hv as (outs & _ & Hv).
  unfold VersionSchedule_init in Hv. do 4 apply bind_Ok in Hv as (? & _ & Hv). injection Hv as <-.
  intros op Hop. cbn [vs_operations] in Hop. destruct (Forall2_elem_r _ _ _ _ Hops Hop) as (i & _ & E).
  unfold version_operation in E. do 2 apply bind_Ok in E as (? & _ & E).
  apply bind_Ok in E as (s & Hs%of_option_Ok & E). apply bind_Ok in E as (e' & He%of_option_Ok & E).
  apply bind_Ok in E as (? & _ & E). cbn [fst snd] in Hs, He.
  rewrite lookup_fmap in Hs, He. apply fmap_Some in Hs as (s' & Hs & ->), He as (e1 & He & ->).
  apply VersionOperation_init_Ok in E as ->. by exists s', e1.
Qed.

Lemma verified_respects `{!MpqLibrary} `{!MpqLaws} `{!XmlLibrary} `{!XmlDocuments} `{!Digest}
    context model limits bundle storage program text e p v starts ends xs :
  model_valid model → verified context model limits bundle storage program text e p v →
  timeline (ex_operations e) model (model_costs (ex_operations e) model) ∅ starts ends xs →
  respects storage starts ends.
Proof.
  intros Hm Hv Ht op d Hop Hd.
  pose proof (vf_build _ _ _ _ _ _ _ _ _ _ Hv) as Hb.
  destruct (build_executable_work _ _ _ _ _ Hb) as (dependencies & actual & Hexec & Hwork).
  destruct (bindings_enforce _ _ _ _ (proj1 (vf_admitted _ _ _ _ _ _ _ _ _ _ Hv)) Hexec)
    as (Hnd & Ekeys & Hpath).
  apply (path_respected dependencies); [done| |by apply Hpath]. intros k deps Hk.
  destruct (Hwork k) as (w & deps' & Hw & <- & Hk' & Hiff).
  { rewrite <- Ekeys. apply dict_get_is_Some. eauto. }
  rewrite Hk in Hk'. injection Hk' as <-.
  destruct (complete_operation e model (build_executable_valid _ _ _ _ _ Hb) Hm _ _ _ w Ht Hw)
    as (s & e1 & Hs & He & Hle & Hbefore).
  exists s, e1. split_and!; [done..|]. intros j Hj. apply Hbefore. by apply Hiff.
Qed.

(** ** An all-reduce of two ranks *)

Module Demo.

#[local] Instance library : XmlLibrary :=
  {| xml_tostring := λ _, "document"%string; xml_fromstring := λ _, None |}.
#[local] Instance documents : XmlDocuments :=
  {| Document := string; parse_document := Some; has_doctype := λ _, false; canonical_form := id |}.
#[local] Instance digest : Digest := {| sha256 := id |}.

Definition config : pyval := PDict
  [("runtime", PDict [("scratch_bytes_per_rank", PInt 16); ("tb_layout", PStr "split");
                      ("environment", PDict [("NCCL_BUFFSIZE", PStr "65536")])]);
   ("sketch", PDict [("runtime_compatibility", PDict [("enabled", PBool true)])])]%string.
Definition link_entry (src dst : Z) : pyval := PDict [("src", PInt src); ("dst", PInt dst)]%string.
Definition all_reduce : ResolvedInput :=
  MkResolvedInput (MkCollectiveSpec ALL_REDUCE "float32" (Some "sum"%string) PNone true)
    (MkHyperparameters 4 (Some 4) AUTO None) (MkSolverConfig 4) (MkAtomConstraints None []) 2
    (PDict [("directed_links"%string, PList [link_entry 0 1; link_entry 1 0])]) config.
Definition context : LoweringContext := MkLoweringContext all_reduce demo_topology.

Definition cost : ServiceCost := demo_cost.
Definition model : CostModel :=
  {| cm_version := "v";
     cm_services := (λ key, (key, [cost])) <$> ["rrc:0:1"; "link:1:0"; "copy:0"; "copy:1"]%string;
     cm_resources := [("link:0:1"%string, one_us); ("link:1:0"%string, one_us)];
     cm_profiles := []; cm_context := []; cm_metadata := [] |}.

(** The bundle can be executed, and no state of its plan is dead. *)
Definition accepted (bundle : CandidateBundle) : bool :=
  bool_decide (can_execute bundle = Ok true) &&
  match cb_storage_plan bundle with Some plan => usedb plan | None => false end.

Definition input_digest : string := "request".

Definition lowered : res CandidateBundle :=
  lower_and_check context model default_limits input_digest (Network demo_candidate).
End Demo.

(** ** The theorems *)


(** C9 The times of an executable bundle.  Its prediction is complete: it is
    the rounding of an exact execution of the cost model in which every
    operation runs, and in which every operation of the plan starts after all
    its required dependencies, read-before-overwrite orders among them, have
    ended.  At these times the plan is replayed on the version ledger, which
    accepts it. *)
Theorem executable_bundle_timed `{!MpqLibrary} `{!MpqLaws} `{!XmlLibrary} `{!XmlDocuments} `{!Digest}
    candidate context model limits input_sha256 bundle :
  model_valid model → lower_and_check context model limits input_sha256 candidate = Ok bundle →
  can_execute bundle = Ok true →
  ∃ plan e p v starts ends xs ledger evidence,
    cb_storage_plan bundle = Some plan ∧ cb_executable bundle = Some e ∧
    cb_prediction bundle = Some p ∧ cb_version_schedule bundle = Some v ∧
    timeline (ex_operations e) model (model_costs (ex_operations e) model) ∅ starts ends xs ∧
    reports ∅ starts ends xs p ∧ respects plan starts ends ∧ predicted_times v p ∧
    replay_version_schedule v (cx_inputs context) = Ok (ledger, evidence).
Proof.
  intros Hm Hlow Hex.
  destruct (lower_and_check_verified _ _ _ _ _ _ Hlow Hex) as (plan & program & text & e & p & v & Hv & _).
  pose proof (predict_cases e model (build_executable_valid _ _ _ _ _ (vf_build _ _ _ _ _ _ _ _ _ _ Hv)) Hm) as Hc.
  rewrite (vf_predict _ _ _ _ _ _ _ _ _ _ Hv) in Hc. destruct Hc as (unavailable & starts & ends & xs & Ht & Hr).
  pose proof (proj1 (rep_coverage _ _ _ _ _ Hr) (vf_complete _ _ _ _ _ _ _ _ _ _ Hv)) as ->.
  destruct (vf_values _ _ _ _ _ _ _ _ _ _ Hv) as [evidence Hval]. unfold _check_storage_values in Hval.
  apply bind_Ok in Hval as ([ledger ev] & Hreplay & _).
  exists plan, e, p, v, starts, ends, xs, ledger, ev. split_and!; try done; [by destruct Hv..| |].
  - by eapply verified_respects.
  - by eapply version_schedule_times; apply Hv.
Qed.

(** ** Witnesses *)

Section witnesses.
Import Demo.
#[local] Existing Instances library documents digest.

Lemma demo_accepted : match lowered with Ok bundle => accepted bundle | Err _ => false end = true.
Proof. vm_compute. reflexivity. Qed.

Lemma demo_lowers : ∃ bundle, lowered = Ok bundle ∧ can_execute bundle = Ok true ∧
  ∀ plan, cb_storage_plan bundle = Some plan → plan_used plan.
Proof.
  pose proof demo_accepted as H. destruct lowered as [bundle|e]; [|discriminate H].
  exists bundle. unfold accepted in H. apply andb_true_iff in H as [Hex Hused]. split; [done|].
  split; [by apply bool_decide_eq_true in Hex|]. intros plan Hp. rewrite Hp in Hused. by apply usedb_used.
Qed.

Lemma demo_model_priced : model_valid model.
Proof.
  split.
  - intros k values c Hk%dict_get_Some_1 Hin. apply list_elem_of_fmap in Hk as (key & [= -> ->] & _).
    apply list_elem_of_singleton in Hin as ->. exact demo_cost_valid.
  - intros k t Hk%dict_get_Some_1. simpl in Hk. rewrite !elem_of_cons in Hk.
    by destruct Hk as [[= -> ->]|[[= -> ->]|[]%elem_of_nil]].
  - by intros profile ?%elem_of_nil.
Qed.

(** Both requests have the same buffers. *)
Lemma all_reduce_inputs_hold : inputs_hold all_reduce demo_memory.
Proof. exact demo_inputs_hold. Qed.


Lemma executable_bundle_timed_witness : ∃ bundle plan starts ends,
  lowered = Ok bundle ∧ cb_storage_plan bundle = Some plan ∧ respects plan starts ends.
Proof.
  destruct demo_lowers as (bundle & Hlow & Hex & _). pose proof Hlow as Hlow'. unfold lowered in Hlow'.
  destruct (executable_bundle_timed (Network demo_candidate) context model default_limits input_digest bundle
    demo_model_priced Hlow' Hex)
    as (plan & e & p & v & starts & ends & xs & ledger & ev & Hp & _ & _ & _ & _ & _ & Hr & _).
  exists bundle, plan, starts, ends. split; [exact Hlow|]. split; [exact Hp|exact Hr].
Defined.
End witnesses.
