(* ===== verification/V5Reload.v ===== *)
(** * Stored programs are evaluated as they were

    A bundle's sidecar leads [check_xml_bundle] back to the same storage plan
    and program, with the same checks, prediction and version schedule. *)

From S2P Require Import Prelude.
From S2P Require Import Python.
From S2P Require Import Collective.
From S2P Require Import InputModels.
From S2P Require Import Ranges.
From S2P Require Import Versions.
From S2P Require Import VersionSchedule.
From S2P Require Import CheckResult.
From S2P Require Import Capacity.
From S2P Require Import Xml.
From S2P Require Import V5Model.
From S2P Require Import V5Buffers.
From S2P Require Import V5Program.
From S2P Require Import V5Lower.
From S2P Require Import Mpq.
From S2P Require Import Performance.
From S2P Require Import Prediction.
From S2P Require Import V5Executable.
From S2P Require Import V5Sidecar.
From S2P Require Import V5Evaluate.
From S2P Require Import V5PlanSound.
From S2P Require Import V5Admission.
Local Open Scope Z_scope.

(** ** Values equal to themselves *)

(** Without NaN, and with distinct keys. *)
Fixpoint reflexive_value (v : pyval) : bool :=
  match v with
  | PFloat NaN | POther => false
  | PList l => forallb reflexive_value l
  | PDict d => bool_decide (NoDup d.*1) && forallb (λ item, reflexive_value item.2) d
  | _ => true
  end.

Lemma py_eqb_refl : ∀ v, reflexive_value v = true → py_eqb v v = true.
Proof.
  fix IH 1. intros [z|b|f|s| |l|d|] Hv; cbn [reflexive_value] in Hv; try done.
  - simpl. by rewrite Z.eqb_refl.
  - simpl. by rewrite Z.eqb_refl.
  - simpl. destruct f; simpl; try done. by rewrite Z.eqb_refl.
  - simpl. by rewrite String.eqb_refl.
  - cbn [py_eqb]. induction l as [|x l IHl]; [done|]. cbn [forallb] in Hv.
    apply andb_true_iff in Hv as [Hx Hl]. rewrite (IH x Hx). by apply IHl.
  - apply andb_true_iff in Hv as [Hnd Hv]. apply bool_decide_eq_true in Hnd. cbn [py_eqb].
    rewrite Nat.eqb_refl. cbn [andb].
    assert (Hin : ∀ k a, (k, a) ∈ d → dict_get k d = Some a) by (intros; by apply dict_get_Some_2).
    clear Hnd. revert Hin. generalize d at 2 3 as e. intros e.
    induction d as [|[k a] d IHd]; intros Hin; [done|]. cbn [forallb] in Hv.
    apply andb_true_iff in Hv as [Ha Hd]. rewrite (Hin k a) by by left. rewrite (IH a Ha). cbn [andb].
    apply IHd; [done|]. intros k' a' H'. apply Hin. by right.
Qed.

Lemma reflexive_list {A} (f : A → pyval) l : (∀ x, x ∈ l → reflexive_value (f x) = true) → reflexive_value (PList (f <$> l)) = true.
Proof.
  intros Hf. cbn [reflexive_value]. apply forallb_forall. intros v (x & -> & Hx)%list_elem_of_In%list_elem_of_fmap.
  by apply Hf.
Qed.

Lemma json_list {A} (f : A → pyval) l : (∀ x, x ∈ l → is_json (f x) = true) → is_json (PList (f <$> l)) = true.
Proof.
  intros Hf. cbn [is_json]. apply forallb_forall. intros v (x & -> & Hx)%list_elem_of_In%list_elem_of_fmap.
  by apply Hf.
Qed.

(** ** Version schedules without their times *)

(** [operation_document] after its times are popped. *)
Definition timeless_operation (self : VersionOperation) : pyval :=
  PDict [("operation_id", PStr (op_id self)); ("kind", PStr (op_kind self));
         ("input_states", text_list (op_inputs self));
         ("output_state", optional_text (op_output self));
         ("destination", match op_destination self with
                         | Some region => region_document region
                         | None => PNone
                         end);
         ("stage_id", PInt (op_stage self));
         ("dependencies", text_list (op_dependencies self));
         ("participants", PList (PInt <$> op_participants self))]%string.

Definition timeless_document (self : VersionSchedule) : pyval :=
  PDict [("rank_count", PInt (vs_rank_count self)); ("input_bytes", PInt (vs_input_bytes self));
         ("slice_size_bytes", PInt (vs_slice_size_bytes self));
         ("stage_count", PInt (vs_stage_count self));
         ("initial_states", PList (state_document <$> vs_initial_states self));
         ("operations", PList (timeless_operation <$> vs_operations self));
         ("outputs", PList (binding_document <$> vs_outputs self))]%string.

Lemma without_times_version v : without_times (version_document v) = Ok (timeless_document v).
Proof.
  transitivity (l ← mapR pop_times (operation_document <$> vs_operations v);
    Ok (PDict (dict_set "operations"%string (PList l)
          match version_document v with PDict d => d | _ => [] end))); [reflexivity|].
  by rewrite (mapR_fmap pop_times operation_document timeless_operation).
Qed.

Lemma reflexive_texts l : reflexive_value (text_list l) = true.
Proof. by apply reflexive_list. Qed.

Lemma reflexive_ints l : reflexive_value (PList (PInt <$> l)) = true.
Proof. by apply reflexive_list. Qed.

Lemma reflexive_dict d :
  bool_decide (NoDup d.*1) = true → (∀ k v, (k, v) ∈ d → reflexive_value v = true) → reflexive_value (PDict d) = true.
Proof.
  intros Hd Hv. cbn [reflexive_value]. rewrite Hd. apply forallb_forall.
  intros [k v] Hin%list_elem_of_In. by eapply Hv.
Qed.

(** The entries of a document, one by one. *)
Ltac entries :=
  apply reflexive_dict; [reflexivity|]; intros ? ? Hin;
  repeat (apply elem_of_cons in Hin as [[= -> ->]|Hin]); [..|by apply elem_of_nil in Hin];
  try reflexivity.

Lemma reflexive_optional o : reflexive_value (optional_text o) = true.
Proof. by destruct o. Qed.

Lemma reflexive_region r : reflexive_value (region_document r) = true.
Proof. by entries. Qed.

Lemma reflexive_state st : reflexive_value (state_document st) = true.
Proof. entries. apply reflexive_list. intros x _. by entries. Qed.

Lemma reflexive_operation op : reflexive_value (timeless_operation op) = true.
Proof.
  entries; [apply reflexive_texts|apply reflexive_optional| |apply reflexive_texts|apply reflexive_ints].
  destruct (op_destination op); [apply reflexive_region|done].
Qed.

Lemma reflexive_version v : reflexive_value (timeless_document v) = true.
Proof.
  entries; apply reflexive_list; intros x _; [apply reflexive_state|apply reflexive_operation|by entries].
Qed.

(** The times of a version schedule are doubles. *)
Definition float_times (v : VersionSchedule) : Prop :=
  ∀ op, op ∈ vs_operations v → ∃ a b, op_start op = PFloat a ∧ op_end op = PFloat b.

Lemma json_region r : is_json (region_document r) = true.
Proof. done. Qed.

Lemma json_texts l : is_json (text_list l) = true.
Proof. by apply json_list. Qed.

Lemma json_operation op a b : op_start op = PFloat a → op_end op = PFloat b → is_json (operation_document op) = true.
Proof.
  intros Ha Hb. assert (Hp : is_json (PList (PInt <$> op_participants op)) = true) by (by apply json_list).
  unfold operation_document. rewrite Ha, Hb. cbn [is_json forallb snd] in *.
  rewrite !json_texts, Hp. by destruct (op_output op), (op_destination op).
Qed.

Lemma json_version v : float_times v → is_json (version_document v) = true.
Proof.
  intros Hv. unfold version_document. cbn [is_json forallb snd andb].
  assert (Hs : ∀ st, is_json (state_document st) = true).
  { intros st. unfold state_document. cbn [is_json forallb snd andb]. rewrite json_region, andb_true_r.
    by apply json_list. }
  rewrite !andb_true_iff. split_and!; try done.
  - by apply json_list.
  - apply json_list. intros op Hop. destruct (Hv op Hop) as (a & b & Ha & Hb). by eapply json_operation.
  - by apply json_list.
Qed.

Lemma version_schedule_floats `{MpqLibrary} storage e p inputs v :
  _version_schedule storage e p inputs = Ok v → float_times v.
Proof.
  intros Hv. unfold _version_schedule in Hv. do 3 apply bind_Ok in Hv as (? & _ & Hv).
  apply bind_Ok in Hv as (ops & Hops%mapR_Ok & Hv).
  apply bind_Ok in Hv as ([n size] & _ & Hv). apply bind_Ok in Hv as (outs & _ & Hv).
  unfold VersionSchedule_init in Hv. do 4 apply bind_Ok in Hv as (? & _ & Hv). injection Hv as <-.
  intros op Hop. cbn [vs_operations] in Hop. destruct (Forall2_elem_r _ _ _ _ Hops Hop) as (i & _ & E).
  unfold version_operation in E. do 5 apply bind_Ok in E as (? & _ & E).
  apply VersionOperation_init_Ok in E as ->. by eexists _, _.
Qed.

(** ** The round trip *)

(** The program's tables of slots are those of its plan. *)
Lemma lower_program_slots storage context program :
  lower_program storage context = Ok program →
  np_input_slots program = sp_input_slots storage ∧ np_output_slots program = sp_output_slots storage ∧
  np_scratch_slots program = sp_scratch_slots storage ∧
  is_Some (slice_size_bytes (ri_hyperparameters (cx_inputs context))).
Proof.
  unfold lower_program. intros H. do 3 apply bind_Ok in H as (? & _ & H).
  apply bind_Ok in H as ([n size] & Hs & [= <-]). split_and!; [done..|].
  unfold slices in Hs. apply bind_Ok in Hs as ([count|] & _ & Hs); [|done].
  destruct (slice_size_bytes _); [eauto|done].
Qed.

(** The bundle that a stored program has. *)
Definition from_xml (self : CandidateBundle) (digest : pyval) : CandidateBundle :=
  MkCandidateBundle (FromXml digest) (cb_xml_text self) (cb_xml_sha256 self) (cb_sidecar self)
    (cb_program self) (cb_version_schedule self) (cb_executable self) (cb_prediction self)
    (cb_checks self) (cb_capacity_report self) (cb_storage_plan self).

Section reload.
Context {M : MpqLibrary} {X : XmlLibrary} {D : XmlDocuments} {G : Digest}.
Context (context : LoweringContext) (model : CostModel) (limits : RuntimeLimits).
Context (input_sha256 : string).
Notation inputs := (cx_inputs context).
Context (request_root : reflexive_value (cs_root (ri_collective inputs)) = true).
Context (request_size : is_Some (slice_size_bytes (ri_hyperparameters inputs))).

Lemma contract_reflexive : reflexive_value (_request_contract inputs) = true.
Proof. entries; [by destruct (slice_size_bytes _)|apply reflexive_optional|done]. Qed.

Lemma sidecar_accepted storage program hash version :
  check_sidecar context input_sha256
    (new_sidecar context model input_sha256 storage program hash version) hash = Ok tt.
Proof.
  unfold check_sidecar.
  transitivity (raise_when (negb (String.eqb hash hash)) (SemanticError "XML/sidecar hash or schema version differs");;
    raise_when (negb (String.eqb input_sha256 input_sha256))
      (SemanticError "sidecar input identity differs from this request");;
    raise_when match slice_size_bytes (ri_hyperparameters inputs) with Some _ => false | None => true end
      (SemanticError "sidecar slice size must be an integer");;
    raise_when (negb (py_eqb (_request_contract inputs) (_request_contract inputs)))
      (SemanticError "sidecar effective runtime request differs")).
  { unfold new_sidecar, _request_contract. by destruct (slice_size_bytes (ri_hyperparameters inputs)). }
  rewrite !String.eqb_refl, (py_eqb_refl _ contract_reflexive). by destruct request_size as [? ->].
Qed.

Lemma recorded_accepted storage program hash v :
  float_times v →
  check_recorded (new_sidecar context model input_sha256 storage program hash (Some v)) v = Ok tt.
Proof.
  intros Hv. unfold check_recorded.
  transitivity (recorded ← json_copy (version_document v);
    recorded ← without_times recorded; rebuilt ← without_times (version_document v);
    raise_when (negb (py_eqb recorded rebuilt))
      (SemanticError "semantic sidecar differs from replayed native state mapping")); [reflexivity|].
  unfold json_copy. rewrite json_version by done. cbn [mbind res_bind]. rewrite without_times_version.
  cbn [mbind res_bind]. by rewrite (py_eqb_refl _ (reflexive_version v)).
Qed.

Lemma xml_check_reloaded storage program version text :
  xml_check context input_sha256
    (Some (new_sidecar context model input_sha256 storage program (sha256 text) version)) text program =
  xml_check context input_sha256 None text program.
Proof. unfold xml_check. by rewrite sidecar_accepted. Qed.

Lemma semantic_check_reloaded storage program hash e p checks version checks' :
  semantic_check context None storage e p checks = Ok (version, checks') →
  semantic_check context
    (Some (new_sidecar context model input_sha256 storage program hash version)) storage e p checks =
  Ok (version, checks').
Proof.
  unfold semantic_check. intros H. apply bind_Ok in H as (r & Hr & H). rewrite Hr. cbn [mbind res_bind].
  destruct r as [err|v]; [done|]. apply attempt_Ok in Hr.
  apply bind_Ok in H as (r' & Hr' & H). cbn [mbind res_bind] in Hr'.
  destruct (_check_storage_values storage v inputs) as [evidence|err] eqn:E; cbn [mbind res_bind] in Hr' |- *.
  - injection Hr' as <-. apply bind_Ok in H as (c1 & Hc1 & H). apply bind_Ok in H as (c2 & Hc2 & H).
    injection H as <- <-. rewrite (recorded_accepted _ _ _ _ (version_schedule_floats _ _ _ _ _ Hr)).
    cbn [attempt mbind res_bind]. by rewrite Hc1, Hc2.
  - rewrite Hr'. done.
Qed.

Lemma prediction_checks_reloaded storage program hash e checks prediction version checks' :
  prediction_checks context model None storage e checks = Ok (prediction, version, checks') →
  prediction_checks context model
    (Some (new_sidecar context model input_sha256 storage program hash version)) storage e checks =
  Ok (prediction, version, checks').
Proof.
  unfold prediction_checks. intros H. apply bind_Ok in H as (r & -> & H). cbn [mbind res_bind].
  destruct r as [err|p]; [done|]. apply bind_Ok in H as (check & -> & H). cbn [mbind res_bind].
  apply bind_Ok in H as ([v cs] & Hs & [= <- <- <-]). by rewrite (semantic_check_reloaded _ _ _ _ _ _ _ _ Hs).
Qed.

Lemma evaluate_reloaded source source' storage program text bundle :
  evaluate_program context model limits input_sha256 source storage program text None = Ok bundle →
  evaluate_program context model limits input_sha256 source' storage program text (Some (cb_sidecar bundle)) =
  Ok (MkCandidateBundle source' (cb_xml_text bundle) (cb_xml_sha256 bundle) (cb_sidecar bundle)
        (cb_program bundle) (cb_version_schedule bundle) (cb_executable bundle) (cb_prediction bundle)
        (cb_checks bundle) (cb_capacity_report bundle) (cb_storage_plan bundle)).
Proof.
  unfold evaluate_program. intros H. apply bind_Ok in H as (checks0 & -> & H). cbn [mbind res_bind].
  cbv zeta in *. apply bind_Ok in H as (xml & Hxml & H).
  apply bind_Ok in H as ([executable checks1] & Hend & H).
  apply bind_Ok in H as ([capacity launch] & Hl & H).
  apply bind_Ok in H as (checks2 & Hc & H).
  apply bind_Ok in H as ([[prediction version] checks] & Hp & [= <-]). cbn [default cb_sidecar].
  rewrite xml_check_reloaded, Hxml. cbn [mbind res_bind]. rewrite Hend. cbn [mbind res_bind].
  rewrite Hl. cbn [mbind res_bind]. rewrite Hc. cbn [mbind res_bind].
  destruct executable as [e|]; [|by injection Hp as <- <- <-].
  by rewrite (prediction_checks_reloaded _ _ _ _ _ _ _ _ Hp).
Qed.
End reload.

(** ** Plans of [build_storage_plan] *)

(** States are stored under their identities. *)
Definition named (states : list (string * Value)) : Prop :=
  NoDup states.*1 ∧ ∀ key value, (key, value) ∈ states → va_state_id value = key.

Lemma named_set states key value : va_state_id value = key → named states → named (dict_set key value states).
Proof.
  intros Hk [Hnd Hn]. split; [by apply dict_set_NoDup|].
  intros key' value' [[= -> ->]|Hin]%elem_of_dict_set; [done|by apply Hn].
Qed.

Lemma add_value_named st value : named (pl_states st) → named (pl_states (add_value st value)).
Proof. by apply named_set. Qed.

Lemma initial_planning_named inputs n : named (pl_states (initial_planning inputs n)).
Proof.
  unfold initial_planning. generalize (input_positions inputs n) as l. intros l.
  assert (Hn : named (pl_states (MkPlanning [] ∅ [] [] []))).
  { split; [constructor|]. by intros ? ? ?%elem_of_nil. }
  revert Hn. generalize (MkPlanning [] ∅ [] [] []) as st.
  induction l as [|[rank logical] l IH]; intros st Hn; [done|]. cbn [foldl]. apply IH.
  unfold add_input. cbn [pl_states]. by apply add_value_named.
Qed.

Lemma operation_step_named context n size constraints by_id st op st' :
  operation_step context n size constraints by_id st op = Ok st' → named (pl_states st) → named (pl_states st').
Proof.
  unfold operation_step. intros H Hn. apply bind_Ok in H as (logical & _ & H).
  apply bind_Ok in H as ([reads combined] & _ & H). cbv zeta in H.
  apply bind_Ok in H as ([deps omitted] & _ & [= <-]). cbn [pl_states]. by apply named_set.
Qed.

(** The locals of the loop over the outputs. *)
Definition outputs_named (items : list (OutputSlot * gset Z)) (acc : Outputs) : Prop :=
  named (pl_states (ou_planning acc)) ∧ NoDup (ou_outputs acc).*1 ∧
  ∀ slot id, (slot, id) ∈ ou_outputs acc → slot ∈ items.*1.

Lemma place_output_named context n stage priority items acc item acc' :
  item ∈ items → place_output context n stage priority acc item = Ok acc' →
  outputs_named items acc → outputs_named items acc'.
Proof.
  destruct acc as [st outputs direct], item as [slot contributors]. intros Hin H (Hn & Hnd & Hs).
  cbn [ou_planning ou_outputs] in *.
  assert (Hset : ∀ id, NoDup (dict_set slot id outputs).*1 ∧
    ∀ slot' id', (slot', id') ∈ dict_set slot id outputs → slot' ∈ items.*1).
  { intros id. split; [by apply dict_set_NoDup|].
    intros slot' id' [[= -> ->]|Hin']%elem_of_dict_set; [|by eapply Hs].
    apply list_elem_of_fmap. by exists (slot, contributors). }
  unfold place_output in H. apply bind_Ok in H as (least & _ & H). apply bind_Ok in H as (value & _ & H).
  cbv zeta in H. apply bind_Ok in H as (placed & _ & H).
  destruct placed; [|destruct (_ && _)]; injection H as <-; split; cbn [ou_planning ou_outputs pl_states]; try done.
  by apply named_set.
Qed.

Lemma build_storage_plan_serializable candidate context plan :
  build_storage_plan candidate context = Ok plan → serializable plan.
Proof.
  unfold build_storage_plan. intros H. cbv zeta in H. apply bind_Ok in H as (operations & _ & H).
  apply bind_Ok in H as ([n size] & _ & H). apply bind_Ok in H as (ops & _ & H).
  apply bind_Ok in H as (expected & Hexp & H). apply bind_Ok in H as (constraints & _ & H).
  apply bind_Ok in H as (planning & Hplanning & H). apply bind_Ok in H as (acc & Hacc & H).
  do 6 apply bind_Ok in H as (? & _ & H). injection H as <-.
  pose proof (required_outputs_Ok _ _ _ _ Hexp) as Hv.
  destruct (required_outputs_table _ _ _ Hv) as (table & Et & Hkeys & Htable).
  rewrite Hexp in Et. injection Et as <-.
  assert (Hn : named (pl_states planning)).
  { apply (foldM_ind (λ _ st, named (pl_states st)) _ _ _ _ (initial_planning_named _ _)) in Hplanning; [done|].
    intros _ op st st' Hst _ Hop. by eapply operation_step_named. }
  assert (Hout : outputs_named expected acc).
  { apply (foldM_ind (λ _, outputs_named expected)) in Hacc; [done| |].
    - split; [done|]. split; [constructor|]. by intros ? ? ?%elem_of_nil.
    - intros _ item a a' Ha Hin%elem_of_sorted_by Hop. by eapply place_output_named. }
  destruct Hout as ([Hnd Hnames] & Hno & Hslots).
  assert (Hranks : ∀ f : Z → Z, NoDup ((λ rank, (rank, f rank)) <$> seqZ 0 (ri_rank_count (cx_inputs context))).*1).
  { intros f. rewrite <- list_fmap_compose, list_fmap_id. apply NoDup_seqZ. }
  split; cbn [sp_values sp_outputs sp_input_slots sp_output_slots sp_scratch_slots];
    [exact Hnames|exact Hnd|exact Hno| |apply (Hranks (λ _, n))|apply Hranks|apply Hranks].
  intros slot id Hin%Hslots. apply list_elem_of_fmap in Hin as ([slot' c] & -> & Hin).
  apply (dict_get_Some_2 _ _ _ Hkeys) in Hin. rewrite Htable in Hin.
  apply collective_value_bounds in Hin. simpl. lia.
Qed.

(** ** The theorem *)

(** C10 A stored program is evaluated as it was.  Take the bundle of a lowered
    candidate, with its text.  Its sidecar describes exactly its storage plan
    and its program, and [check_xml_bundle] on the text and the sidecar gives
    the same bundle, whatever its checks are: the same plan, program, version
    schedule, prediction, checks and capacity report, with the text as its
    source. *)
Theorem stored_bundle_exact `{!MpqLibrary} `{!XmlLibrary} `{!XmlDocuments} `{!Digest}
    candidate context model limits input_sha256 bundle text :
  reflexive_value (cs_root (ri_collective (cx_inputs context))) = true →
  (∀ plan, candidate = Planned plan → serializable plan) →
  lower_and_check context model limits input_sha256 candidate = Ok bundle →
  cb_xml_text bundle = Some text →
  check_xml_bundle context model limits input_sha256 text (cb_sidecar bundle) =
    Ok (from_xml bundle (PStr (sha256 text))).
Proof.
  intros Hroot Hplanned Hlow Htext. unfold lower_and_check in Hlow.
  apply bind_Ok in Hlow as (r & Hr%attempt_Ok & Hlow). destruct r as [e|[[storage program] text']].
  { unfold rejected_candidate in Hlow. apply bind_Ok in Hlow as (? & _ & Hlow).
    apply bind_Ok in Hlow as (? & _ & [= <-]). done. }
  apply bind_Ok in Hr as (st & Hst & Hr). apply bind_Ok in Hr as (pr & Hpr & Hr).
  apply bind_Ok in Hr as (tx & _ & [= -> -> ->]).
  assert (Hser : serializable storage).
  { destruct candidate as [plan|candidate]; [injection Hst as ->; by apply Hplanned|].
    by eapply build_storage_plan_serializable. }
  destruct (lower_program_slots _ _ _ Hpr) as (Hi & Ho & Hs & Hsize).
  pose proof (evaluate_reloaded context model limits input_sha256 Hroot Hsize _
    (FromXml (PStr (sha256 text'))) storage program text' bundle Hlow) as Hev.
  assert (Hside : ∃ version, cb_xml_text bundle = Some text' ∧
    cb_sidecar bundle = new_sidecar context model input_sha256 storage program (sha256 text') version).
  { unfold evaluate_program in Hlow. cbv zeta in Hlow. do 2 apply bind_Ok in Hlow as (? & _ & Hlow).
    apply bind_Ok in Hlow as ([? ?] & _ & Hlow). apply bind_Ok in Hlow as ([? ?] & _ & Hlow).
    apply bind_Ok in Hlow as (? & _ & Hlow). apply bind_Ok in Hlow as ([[? version] ?] & _ & [= <-]).
    by exists version. }
  destruct Hside as (version & Et & Eside). rewrite Et in Htext. injection Htext as ->.
  unfold check_xml_bundle.
  transitivity (outcome ← attempt is_malformed
    (storage ← _deserialize_storage (_serialize_storage storage);
     program ← _deserialize_program (_serialize_program program);
     evaluate_program context model limits input_sha256 (FromXml (PStr (sha256 text))) storage program text
       (Some (cb_sidecar bundle)));
    match outcome with
    | inl e => rejected_xml_bundle text (cb_sidecar bundle) e
    | inr bundle => Ok bundle
    end); [by rewrite Eside|].
  rewrite storage_round_trip by done. cbn [mbind res_bind].
  rewrite program_round_trip; [|rewrite ?Hi, ?Ho, ?Hs; by apply Hser..].
  cbn [mbind res_bind]. rewrite Hev. done.
Qed.

Section witness.
Import Demo.
#[local] Existing Instances library documents digest.

Lemma stored_bundle_exact_witness : ∃ bundle text, lowered = Ok bundle ∧
  check_xml_bundle context model default_limits input_digest text (cb_sidecar bundle) =
    Ok (from_xml bundle (PStr (sha256 text))) ∧
  can_execute (from_xml bundle (PStr (sha256 text))) = Ok true.
Proof.
  destruct demo_lowers as (bundle & Hlow & Hex & _). pose proof Hlow as Hlow'. unfold lowered in Hlow'.
  destruct (lower_and_check_verified _ _ _ _ _ _ Hlow' Hex) as (plan & program & text & e & p & v & Hv & _).
  exists bundle, text. split; [exact Hlow|]. split; [|exact Hex].
  apply (stored_bundle_exact (Network demo_candidate) context model default_limits input_digest bundle text).
  - reflexivity.
  - discriminate.
  - exact Hlow'.
  - exact (vf_text _ _ _ _ _ _ _ _ _ _ Hv).
Defined.
End witness.
