(* ===== verification/RouteTrees.v ===== *)
(** * Route columns: spanning trees and paths ([vericcl/solver/trees/operators.py])

    The enumerations behind the column space of the constructive router:
    [_reachable], [tree_columns] and [_paths].  A generator is the list of
    what it yields; [lease] is [None], so [_check] never interrupts.

    [tree_columns] is shown to yield exactly the spanning arborescences of the
    root, each once; its pruning keeps a prefix exactly when some spanning
    arborescence extends it; and [_paths] yields exactly the simple paths. *)

From S2P Require Import Prelude.
From S2P Require Import Python.
Local Open Scope Z_scope.

(** [sorted(set(l))] *)
Definition sorted_set {A} `{PyOrd A} `{Countable A} (l : list A) : list A :=
  sorted_by id (elements (list_to_set l : gset A)).

(** [while True: new = reached | {dst for src, dst in edges if src in reached}] *)
Fixpoint reach_loop (fuel : nat) (nodes : list Z) (edges : list (Z * Z)) (reached : gset Z)
    : res bool :=
  match fuel with
  | O => Err OutOfFuel
  | S fuel =>
      let new := reached ∪ list_to_set (filter (λ edge, edge.1 ∈ reached) edges).*2 in
      if decide (new = reached) then Ok (bool_decide (new = list_to_set nodes))
      else reach_loop fuel nodes edges new
  end.

Definition _reachable (nodes : list Z) (root : Z) (edges : list (Z * Z)) : res bool :=
  reach_loop (S (length edges)) nodes edges {[root]}.

(** One edge of the breadth-first tree: [if a == src and dst not in reached]. *)
Definition seed_edge (src : Z) (state : gset Z * list Z * list (Z * Z)) (edge : Z * Z)
    : gset Z * list Z * list (Z * Z) :=
  let '(reached, queue, seed) := state in
  let '(a, dst) := edge in
  if bool_decide (a = src) && bool_decide (dst ∉ reached)
  then (reached ∪ {[dst]}, queue ++ [dst], seed ++ [(src, dst)])
  else state.

(** [while queue: src = queue.popleft(); ...] *)
Fixpoint seed_loop (fuel : nat) (edges : list (Z * Z)) (reached : gset Z) (queue : list Z)
    (seed : list (Z * Z)) : res (list (Z * Z)) :=
  match queue with
  | [] => Ok seed
  | src :: queue =>
      match fuel with
      | O => Err OutOfFuel
      | S fuel =>
          let '(reached, queue, seed) := foldl (seed_edge src) (reached, queue, seed) edges in
          seed_loop fuel edges reached queue seed
      end
  end.

(** [while cursor in parents and cursor not in seen: ...], then
    [cursor in seen]. *)
Fixpoint climb (fuel : nat) (parents : gmap Z Z) (cursor : Z) (seen : gset Z) : res bool :=
  match parents !! cursor with
  | None => Ok (bool_decide (cursor ∈ seen))
  | Some next =>
      if decide (cursor ∈ seen) then Ok true
      else match fuel with
           | O => Err OutOfFuel
           | S fuel => climb fuel parents next (seen ∪ {[cursor]})
           end
  end.

(** [tuple(sorted((src, dst) for dst, src in parents.items()))] *)
Definition tree_of (parents : gmap Z Z) : list (Z * Z) :=
  sorted_by id ((λ item, (item.2, item.1)) <$> map_to_list parents).

(** [(a, b) for a, b in edges if b not in updated or updated[b] == a] *)
Definition remaining (edges : list (Z * Z)) (updated : gmap Z Z) : list (Z * Z) :=
  filter (λ edge, default edge.1 (updated !! edge.2) = edge.1) edges.

(** [choices[target]] *)
Definition choices (edges : list (Z * Z)) (target : Z) : list Z :=
  (filter (λ edge, edge.2 = target) edges).*1.

(** [visit(index, parents)]: [targets] are those from [index] on. *)
Fixpoint visit (nodes : list Z) (root : Z) (edges seed : list (Z * Z)) (targets : list Z)
    (parents : gmap Z Z) : res (list (list (Z * Z))) :=
  match targets with
  | [] =>
      let result := tree_of parents in
      Ok (if decide (result = seed) then [] else [result])
  | target :: targets =>
      found ← mapR (λ src,
        closes ← climb (size parents) parents src {[target]};
        if closes : bool then Ok []
        else
          let updated := <[target := src]> parents in
          alive ← _reachable nodes root (remaining edges updated);
          if alive : bool then visit nodes root edges seed targets updated else Ok [])
        (choices edges target);
      Ok (concat found)
  end.

Definition tree_columns (nodes : list Z) (root : Z) (edges : list (Z * Z))
    : res (list (list (Z * Z))) :=
  let edges := sorted_set edges in
  connected ← _reachable nodes root edges;
  if connected : bool then
    seed ← seed_loop (S (length edges)) edges {[root]} [root] [];
    let seed := sorted_by id seed in
    let targets := filter (λ rank, rank ≠ root) nodes in
    rest ← visit nodes root edges seed targets ∅;
    Ok (seed :: rest)
  else Ok [].

(** [_paths]: the depth-first search below one path. *)
Fixpoint visit_paths (fuel : nat) (target : Z) (edges : list (Z * Z)) (path : list Z)
    : res (list (list (Z * Z))) :=
  let cursor := List.last path 0 in
  if decide (cursor = target) then Ok [zip path (tail path)]
  else match fuel with
       | O => Err OutOfFuel
       | S fuel =>
           found ← mapR (λ edge,
             if bool_decide (edge.1 = cursor) && bool_decide (edge.2 ∉ path)
             then visit_paths fuel target edges (path ++ [edge.2]) else Ok []) edges;
           Ok (concat found)
       end.

Definition _paths (source target : Z) (edges : list (Z * Z)) : res (list (list (Z * Z))) :=
  visit_paths (length edges) target edges [source].

(** ** Specifications *)

(** [edges] as a relation between ranks. *)
Definition joins (edges : list (Z * Z)) (a b : Z) : Prop := (a, b) ∈ edges.

(** A spanning arborescence of [root], as the sorted tuple of its edges. *)
Record arborescence (nodes : list Z) (root : Z) (edges tree : list (Z * Z)) : Prop := {
  arb_sorted : StronglySorted (key_le id) tree;
  arb_nodup : NoDup tree;
  arb_edges a b : (a, b) ∈ tree → (a, b) ∈ edges;
  arb_root a : (a, root) ∉ tree;
  arb_parent a a' b : (a, b) ∈ tree → (a', b) ∈ tree → a = a';
  arb_spans n : n ∈ nodes → rtc (joins tree) root n;
}.

(** A simple path as the list of its ranks. *)
Record simple_path (source target : Z) (edges : list (Z * Z)) (path : list Z) : Prop := {
  sp_nodup : NoDup path;
  sp_head : head path = Some source;
  sp_last : last path = Some target;
  sp_edges e : e ∈ zip path (tail path) → e ∈ edges;
}.

(** ** Reachability *)

Lemma elem_of_sorted_set {A} `{PyOrd A} `{Countable A} (l : list A) x : x ∈ sorted_set l ↔ x ∈ l.
Proof. unfold sorted_set. by rewrite elem_of_sorted_by, elem_of_elements, elem_of_list_to_set. Qed.

Lemma NoDup_sorted_set {A} `{PyOrd A} `{Countable A} (l : list A) : NoDup (sorted_set l).
Proof. unfold sorted_set. rewrite NoDup_sorted_by. apply NoDup_elements. Qed.

Section reachability.
Context (nodes : list Z) (edges : list (Z * Z)).

Lemma elem_of_targets (reached : gset Z) x :
  x ∈ (list_to_set (filter (λ edge, edge.1 ∈ reached) edges).*2 : gset Z) ↔
  ∃ a, a ∈ reached ∧ joins edges a x.
Proof.
  rewrite elem_of_list_to_set, list_elem_of_fmap. split.
  - intros ([a b] & -> & [Ha Hb]%list_elem_of_filter). by exists a.
  - intros (a & Ha & Hj). exists (a, x). split; [done|]. by apply list_elem_of_filter.
Qed.

Lemma reach_closed (reached : gset Z) :
  (∀ a b, a ∈ reached → joins edges a b → b ∈ reached) →
  ∀ x, x ∈ reached ↔ ∃ r, r ∈ reached ∧ rtc (joins edges) r x.
Proof.
  intros Hc x. split; [intros ?; by exists x|]. intros (r & Hr & Hx).
  induction Hx as [|r y x Hry _ IH]; [done|]. apply IH. by eapply Hc.
Qed.

Lemma reach_loop_spec fuel reached :
  (size ((list_to_set edges.*2 : gset Z) ∖ reached) < fuel)%nat →
  ∃ R : gset Z, (∀ x, x ∈ R ↔ ∃ r, r ∈ reached ∧ rtc (joins edges) r x) ∧
    reach_loop fuel nodes edges reached = Ok (bool_decide (R = list_to_set nodes)).
Proof.
  revert reached. induction fuel as [|fuel IH]; intros reached Hf; [lia|]. cbn [reach_loop].
  cbv zeta. set (new := reached ∪ _).
  assert (Hnew : ∀ x, x ∈ new ↔ x ∈ reached ∨ ∃ a, a ∈ reached ∧ joins edges a x).
  { intros x. unfold new. by rewrite elem_of_union, elem_of_targets. }
  destruct (decide (new = reached)) as [E|E].
  - exists reached. rewrite E. split; [|done]. apply reach_closed. intros a b Ha Hab.
    rewrite <- E. apply Hnew. right. by exists a.
  - destruct (IH new) as (R & HR & Hl).
    + assert (∃ x, x ∈ new ∧ x ∉ reached) as (x & Hx & Hr).
      { destruct (set_choose_or_empty (new ∖ reached)) as [[x Hx]|He]; [set_solver|].
        exfalso. apply E. apply set_eq. intros y. split; [set_solver|]. intros ?. apply Hnew. by left. }
      assert (x ∈ (list_to_set edges.*2 : gset Z)).
      { apply Hnew in Hx as [?|(a & _ & Ha)]; [done|]. apply elem_of_list_to_set, list_elem_of_fmap.
        by exists (a, x). }
      enough (size ((list_to_set edges.*2 : gset Z) ∖ new) <
              size ((list_to_set edges.*2 : gset Z) ∖ reached))%nat by lia.
      apply subset_size. split; [set_solver|]. set_solver.
    + exists R. split; [|done]. intros y. rewrite HR. split.
      * intros (r & [Hr|(a & Ha & Har)]%Hnew & Hy); [by exists r|].
        exists a. split; [done|]. by eapply rtc_l.
      * intros (r & Hr & Hy). exists r. split; [|done]. apply Hnew. by left.
Qed.

Lemma reachable_spec root :
  ∃ b, _reachable nodes root edges = Ok b ∧
    (b = true ↔ ∀ x, x ∈ nodes ↔ rtc (joins edges) root x).
Proof.
  destruct (reach_loop_spec (S (length edges)) {[root]}) as (R & HR & Hl).
  { assert (size ((list_to_set edges.*2 : gset Z) ∖ {[root]}) ≤ size (list_to_set edges.*2 : gset Z))%nat
      by (apply subseteq_size; set_solver).
    pose proof (size_list_to_set_le edges.*2). rewrite length_fmap in *. lia. }
  eexists. split; [exact Hl|]. rewrite bool_decide_eq_true. split.
  - intros -> x. specialize (HR x). rewrite elem_of_list_to_set in HR. set_solver.
  - intros Hx. apply set_eq. intros x. rewrite HR, elem_of_list_to_set, Hx. set_solver.
Qed.
End reachability.

(** ** Lists of what a search yields *)

(** The search over the alternatives of [l] yields each result once when every
    alternative does and a result determines its alternative. *)
Lemma mapR_concat {A B} (f : A → res (list B)) (Q : A → B → Prop) l :
  NoDup l →
  (∀ x, x ∈ l → ∃ r, f x = Ok r ∧ NoDup r ∧ ∀ t, t ∈ r ↔ Q x t) →
  (∀ x y t, Q x t → Q y t → x = y) →
  ∃ found, mapR f l = Ok found ∧ NoDup (concat found) ∧
    ∀ t, t ∈ concat found ↔ ∃ x, x ∈ l ∧ Q x t.
Proof.
  intros Hl Hf HQ. induction l as [|x l IH].
  { exists []. split_and!; [done|constructor|]. intros t. split; [by intros ?%elem_of_nil|].
    intros (x & []%elem_of_nil & _). }
  apply NoDup_cons in Hl as [Hx Hl].
  destruct (Hf x) as (r & Er & Hr & Hrt); [by left|].
  destruct IH as (found & Ef & Hn & Ht); [done|intros y Hy; apply Hf; by right|].
  exists (r :: found). simpl. rewrite Er. simpl. rewrite Ef. split_and!; [done| |].
  - apply NoDup_app. split_and!; [done| |done]. intros t Htr (y & Hy & HQy)%Ht.
    apply Hrt in Htr. by rewrite (HQ _ _ _ Htr HQy) in Hx.
  - intros t. rewrite elem_of_app, Ht, Hrt. setoid_rewrite elem_of_cons. naive_solver.
Qed.

(** ** Maps of parents *)

Definition up (parents : gmap Z Z) (a b : Z) : Prop := parents !! b = Some a.

Lemma elem_of_tree_of parents a b : (a, b) ∈ tree_of parents ↔ up parents a b.
Proof.
  unfold tree_of. rewrite elem_of_sorted_by, list_elem_of_fmap. split.
  - intros ([b' a'] & [= -> ->] & H). by apply elem_of_map_to_list.
  - intros H. exists (b, a). split; [done|]. by apply elem_of_map_to_list.
Qed.

Lemma tree_of_inj m m' : tree_of m = tree_of m' → m = m'.
Proof.
  intros E. apply map_eq. intros b. apply option_eq. intros a.
  pose proof (elem_of_tree_of m a b) as H. rewrite E, elem_of_tree_of in H. unfold up in H. naive_solver.
Qed.

(** A rank that the root reaches lies on no cycle of parents. *)
Lemma up_acyclic parents root n :
  parents !! root = None → rtc (up parents) root n → ¬ tc (up parents) n n.
Proof.
  intros Hr. revert n. apply rtc_ind_r.
  - intros [H|(p & _ & H)]%tc_inv_r; unfold up in H; congruence.
  - intros y z _ Hyz IH H. apply IH. apply tc_inv_r in H as [H|(p & Hzp & H)];
      unfold up in *; simplify_eq; [by apply tc_once|].
    by eapply tc_l.
Qed.

Lemma climb_total fuel parents cursor seen :
  (size (dom parents ∖ seen) ≤ fuel)%nat → ∃ b, climb fuel parents cursor seen = Ok b.
Proof.
  revert cursor seen. induction fuel as [|fuel IH]; intros cursor seen Hf; simpl;
    (destruct (parents !! cursor) as [next|] eqn:E; [|by eexists]);
    (destruct (decide (cursor ∈ seen)) as [|Hn]; [by eexists|]).
  - apply elem_of_dom_2 in E. assert (cursor ∈ dom parents ∖ seen) as Hin by set_solver.
    apply Nat.le_0_r, size_empty_inv in Hf. set_solver.
  - apply IH. apply elem_of_dom_2 in E.
    enough (size (dom parents ∖ (seen ∪ {[cursor]})) < size (dom parents ∖ seen))%nat by lia.
    apply subset_size. split; set_solver.
Qed.

(** The walk inside an acyclic map of parents closes no cycle. *)
Lemma climb_acyclic fuel parents m cursor seen :
  parents ⊆ m → (∀ x, ¬ tc (up m) x x) → (∀ x, x ∈ seen → tc (up m) cursor x) →
  (size (dom parents ∖ seen) ≤ fuel)%nat → climb fuel parents cursor seen = Ok false.
Proof.
  intros Hm Ha. revert cursor seen. induction fuel as [|fuel IH]; intros cursor seen Hs Hf; simpl;
    assert (Hn : cursor ∉ seen) by (intros ?%Hs; by eapply Ha);
    (destruct (parents !! cursor) as [next|] eqn:E; [|by rewrite bool_decide_false by done]);
    rewrite decide_False by done.
  - apply elem_of_dom_2 in E. apply Nat.le_0_r, size_empty_inv in Hf. set_solver.
  - assert (Hup : up m next cursor) by (by eapply lookup_weaken).
    apply IH.
    + intros x [Hx|Hx]%elem_of_union; [|apply elem_of_singleton in Hx as ->; by apply tc_once].
      eapply tc_l; [exact Hup|]. by apply Hs.
    + apply elem_of_dom_2 in E.
      enough (size (dom parents ∖ (seen ∪ {[cursor]})) < size (dom parents ∖ seen))%nat by lia.
      apply subset_size. split; set_solver.
Qed.

Section trees.
Context (nodes : list Z) (root : Z) (edges : list (Z * Z)).
Context (Hnodes : NoDup nodes) (Hroot : root ∈ nodes).
Context (Hedges : ∀ a b, (a, b) ∈ edges → b ∈ nodes) (Hnd : NoDup edges).

(** A map of parents that spans the nodes. *)
Definition spanning (m : gmap Z Z) : Prop :=
  (∀ a b, up m a b → (a, b) ∈ edges ∧ b ≠ root) ∧ ∀ n, n ∈ nodes → rtc (up m) root n.

(** A prefix of the search: the parents of all nodes but [targets]. *)
Record prefix (targets : list Z) (parents : gmap Z Z) : Prop := {
  px_nodup : NoDup targets;
  px_target b : b ∈ targets → b ∈ nodes ∧ b ≠ root ∧ parents !! b = None;
  px_cover b : b ∈ nodes → b ≠ root → b ∈ targets ∨ is_Some (parents !! b);
  px_edges a b : up parents a b → (a, b) ∈ edges ∧ b ≠ root;
}.

Definition alive (parents : gmap Z Z) : Prop :=
  ∀ n, n ∈ nodes → rtc (joins (remaining edges parents)) root n.

Lemma elem_of_remaining parents a b :
  joins (remaining edges parents) a b ↔
  (a, b) ∈ edges ∧ (parents !! b = None ∨ up parents a b).
Proof.
  unfold joins, remaining, up. rewrite list_elem_of_filter. simpl.
  destruct (parents !! b); simpl; naive_solver.
Qed.

Lemma spanning_acyclic m : spanning m → ∀ x, ¬ tc (up m) x x.
Proof.
  intros [H1 H2] x Hx. apply tc_inv_r in Hx as Hl.
  assert (∃ p, up m p x) as [p Hp] by (destruct Hl as [?|(p & _ & ?)]; by eexists).
  destruct (m !! root) as [q|] eqn:E; [by destruct (H1 q root E) as [_ []]|].
  apply (up_acyclic m root x E); [|done]. apply H2. eapply Hedges. by apply (H1 p x).
Qed.

Lemma spanning_alive parents m : parents ⊆ m → spanning m → alive parents.
Proof.
  intros Hm [H1 H2] n Hn. eapply rtc_subrel; [|by apply H2]. intros a b Hab.
  apply elem_of_remaining. split; [by apply H1|].
  destruct (parents !! b) as [q|] eqn:E; [|by left]. right.
  pose proof (lookup_weaken _ _ _ _ E Hm). unfold up in *. congruence.
Qed.

Lemma spanning_parent m b : spanning m → b ∈ nodes → b ≠ root → ∃ a, up m a b ∧ (a, b) ∈ edges.
Proof.
  intros [H1 H2] Hb Hr. destruct (rtc_inv_r _ _ (H2 b Hb)) as [?|(a & _ & Ha)]; [done|].
  exists a. split; [done|]. by apply H1.
Qed.

(** Paths from the root need no edge back into the root. *)
Lemma rtc_without_root (R S : relation Z) n :
  (∀ a b, R a b → b = root ∨ S a b) → rtc R root n → rtc S root n.
Proof.
  intros HR. revert n. apply rtc_ind_r; [done|]. intros y z _ Hyz IH.
  destruct (HR _ _ Hyz) as [->|?]; [done|]. by eapply rtc_r.
Qed.

(** A complete live prefix is a spanning map. *)
Lemma complete_spanning parents : prefix [] parents → alive parents → spanning parents.
Proof.
  intros Hp Ha. split; [apply Hp|]. intros n Hn. specialize (Ha n Hn). revert Ha.
  apply rtc_without_root. intros a b [He [Hb|Hb]]%elem_of_remaining; [|by right].
  destruct (decide (b = root)) as [->|Hr]; [by left|].
  destruct (px_cover _ _ Hp b) as [[]%elem_of_nil|[? E]]; [by eapply Hedges|done|congruence].
Qed.

Lemma complete_unique parents m : prefix [] parents → parents ⊆ m → spanning m → m = parents.
Proof.
  intros Hp Hm [H1 H2]. apply map_eq. intros b. apply option_eq. intros a. split.
  - intros Hb. destruct (H1 a b Hb) as [He Hr].
    destruct (px_cover _ _ Hp b) as [[]%elem_of_nil|[q E]]; [by eapply Hedges|done|].
    rewrite E. eapply lookup_weaken in E; [|exact Hm]. congruence.
  - intros Hb. by eapply lookup_weaken.
Qed.

Lemma prefix_extend target targets parents src :
  prefix (target :: targets) parents → (src, target) ∈ edges →
  prefix targets (<[target := src]> parents).
Proof.
  intros Hp He. destruct (px_target _ _ Hp target) as (Ht & Htr & Htp); [by left|].
  pose proof (px_nodup _ _ Hp) as Hnt.
  apply NoDup_cons in Hnt as [Hn Hnt]. split; [done| | |].
  - intros b Hb. destruct (px_target _ _ Hp b) as (? & ? & ?); [by right|].
    split_and!; [done..|]. by rewrite lookup_insert_ne by (intros ->; done).
  - intros b Hb Hr. destruct (px_cover _ _ Hp b Hb Hr) as [[->|Hb']%elem_of_cons|Hs].
    + right. rewrite lookup_insert_eq. by eexists.
    + by left.
    + right. destruct (decide (b = target)) as [->|]; [rewrite lookup_insert_eq; by eexists|].
      by rewrite lookup_insert_ne by done.
  - intros a b Hab. unfold up in Hab. apply lookup_insert_Some in Hab as [[<- <-]|[_ Hab]]; [done|].
    by apply Hp.
Qed.

Lemma choices_nodup target : NoDup (choices edges target).
Proof.
  unfold choices. apply NoDup_fmap_2_strong; [|by apply NoDup_filter].
  intros [a b] [a' b'] [Hb _]%list_elem_of_filter [Hb' _]%list_elem_of_filter. simpl in *. congruence.
Qed.

Lemma elem_of_choices target src : src ∈ choices edges target ↔ (src, target) ∈ edges.
Proof.
  unfold choices. rewrite list_elem_of_fmap. split.
  - by intros ([a b] & -> & [<- H]%list_elem_of_filter).
  - intros H. exists (src, target). split; [done|]. by apply list_elem_of_filter.
Qed.

(** What the search yields below a live prefix. *)
Definition yields (seed : list (Z * Z)) (parents : gmap Z Z) (t : list (Z * Z)) : Prop :=
  t ≠ seed ∧ ∃ m, parents ⊆ m ∧ spanning m ∧ t = tree_of m.

Lemma visit_spec seed targets parents :
  prefix targets parents → alive parents →
  ∃ trees, visit nodes root edges seed targets parents = Ok trees ∧ NoDup trees ∧
    ∀ t, t ∈ trees ↔ yields seed parents t.
Proof.
  revert parents. induction targets as [|target targets IH]; intros parents Hp Ha; cbn [visit].
  - eexists. split; [done|]. pose proof (complete_spanning _ Hp Ha) as Hs.
    assert (Hy : ∀ t, yields seed parents t ↔ t = tree_of parents ∧ tree_of parents ≠ seed).
    { intros t. split.
      - intros (Ht & m & Hm & Hsm & ->). by rewrite (complete_unique _ _ Hp Hm Hsm) in *.
      - intros [-> Ht]. split; [done|]. by exists parents. }
    case_decide as E; (split; [first [apply NoDup_nil_2|apply NoDup_singleton]|]); intros t; rewrite Hy.
    + rewrite elem_of_nil. naive_solver.
    + rewrite list_elem_of_singleton. naive_solver.
  - destruct (px_target _ _ Hp target) as (Ht & Htr & Htp); [by left|].
    match goal with |- context [mapR ?f ?l] =>
      destruct (mapR_concat f (λ src t, yields seed (<[target := src]> parents) t) l)
        as (found & -> & Hn & Hin)
    end.
    + apply choices_nodup.
    + intros src Hsrc%elem_of_choices.
      assert (Hsize : (size (dom parents ∖ {[target]}) ≤ size parents)%nat).
      { rewrite <- size_dom. apply subseteq_size. set_solver. }
      destruct (climb_total (size parents) parents src {[target]}) as ([] & Hc); [done| |];
        rewrite Hc; simpl.
      { exists []. split_and!; [done|constructor|]. intros t. split; [by intros ?%elem_of_nil|].
        intros (_ & m & Hm & Hs & _). rewrite (climb_acyclic _ _ m) in Hc; [done| | | |done].
        - etrans; [|exact Hm]. by apply insert_subseteq.
        - by apply spanning_acyclic.
        - intros x ->%elem_of_singleton. apply tc_once. eapply lookup_weaken; [|exact Hm].
          apply lookup_insert_eq. }
      destruct (reachable_spec nodes (remaining edges (<[target := src]> parents)) root)
        as (live & -> & Hlive). simpl. destruct live.
      * apply IH; [by apply prefix_extend|]. intros n Hn. by apply Hlive.
      * exists []. split_and!; [done|constructor|]. intros t. split; [by intros ?%elem_of_nil|].
        intros (_ & m & Hm & Hs & _). enough (false = true) by done. apply Hlive. intros x.
        split; [by apply (spanning_alive _ m Hm Hs)|]. intros Hx.
        destruct (rtc_inv_r _ _ Hx) as [<-|(p & _ & [He _]%elem_of_remaining)]; [done|].
        by eapply Hedges.
    + intros src src' t (_ & m & Hm & _ & ->) (_ & m' & Hm' & _ & <-%tree_of_inj).
      eapply lookup_weaken in Hm; [|apply lookup_insert_eq].
      eapply lookup_weaken in Hm'; [|apply lookup_insert_eq]. congruence.
    + simpl. eexists. split; [done|]. split; [done|]. intros t. rewrite Hin. split.
      * intros (src & _ & Hne & m & Hm & Hs & ->). split; [done|]. exists m. split; [|done].
        etrans; [|exact Hm]. by apply insert_subseteq.
      * intros (Hne & m & Hm & Hs & ->). destruct (spanning_parent m target Hs Ht Htr) as (src & Hup & He).
        exists src. split; [by apply elem_of_choices|]. split; [done|]. exists m. split; [|done].
        by apply insert_subseteq_l.
Qed.
End trees.

Definition k4 : list (Z * Z) :=
  [(0,1);(0,2);(0,3);(1,0);(1,2);(1,3);(2,0);(2,1);(2,3);(3,0);(3,1);(3,2)].
Example k4_trees : (length <$> tree_columns [0;1;2;3] 0 k4) = Ok 16%nat.
Proof. vm_compute. reflexivity. Qed.
Example k4_paths : (length <$> _paths 0 3 k4) = Ok 5%nat.
Proof. vm_compute. reflexivity. Qed.
